(* ===== verification/_CoqProject ===== *)
-Q . S2P
Prelude.v
Machine.v
Text.v
Collections.v
Float64.v
WalEntry.v
WalSegment.v
WalReader.v
WalWriter.v
WalLog.v
WalRecovery.v
WalTheorems.v
LockTable.v
LockTheorems.v
Transaction.v
TransactionSteps.v
TransactionTheorems.v
Provenance.v
Temporal.v
RamPromotion.v
Rbac.v
Auth.v
AuthTheorems.v
Conflict.v
ConflictTheorems.v
OctadTypes.v
Modalities.v
ModalityStores.v
OctadStore.v
OctadLemmas.v
OctadOutcomes.v
OctadRecovery.v
OctadTheorems.v
OctadUpdates.v
ModalityTheorems.v
Format.v
PlannerTypes.v
PlannerCost.v
Planner.v
PlanCache.v
Lexing.v
PlanCacheTheorems.v
QueryLog.v
VclBridge.v
PlannerTheorems.v
VclTheorems.v
Zkp.v
ZkpTheorems.v
Circuits.v
CircuitTheorems.v
ZkpBridge.v
Storage.v
StorageTheorems.v
TypedStoreTheorems.v
ApiTransaction.v
Hnsw.v
HnswBeam.v
HnswGraph.v
HnswTheorems.v
Drift.v
DriftTheorems.v
Regeneration.v
StorageRegenerator.v
StorageRegenTheorems.v
RegenerationStore.v
Normalizer.v
NormalizerTheorems.v
Groove.v
Federation.v
ProofBridges.v
VclFormat.v
VclLint.v
ApiTypes.v
Api.v
ApiQueries.v
Vcl.v
ApiRouter.v
ApiExample.v
ApiTheorems.v
VclExecTheorems.v
