(* ===== verification/Prelude.v ===== *)
(** * VeriSimDB core: a verification development

    VeriSimDB stores every entity ("octad") in several modalities at once; its
    Rust core lives under [src/verisimdb/rust-core/].  This development models
    the parts of the core that decide what survives a crash, who may change
    what, how the modalities of an entity stay together, how queries are planned
    and which of two conflicting states wins, and proves what they promise.  The
    definitions follow the Rust code function by function, keep its names where
    possible, and are executable: the witnesses at the end of each theorem file
    run them on concrete data.

    ** The program's parts and the files that model them

    - The write-ahead log ([verisim-wal/src/]).  [WalEntry] is the entry and its
      binary format ([entry.rs], [error.rs]); [WalSegment] the segment files,
      their names and pruning ([segment.rs]); [WalReader] the segment scan,
      replay and checkpoint search ([reader.rs]); [WalWriter] opening, appending,
      rotation, synchronisation and crashes ([writer.rs]).  The state is a
      [World]: the writer's fields and the directory, a finite map from file
      names to the bytes written and the length synchronised.  [WalLog] is the
      abstract log and the invariant that relates it to a [World]; [WalRecovery]
      what crashes and reopening do to it; [WalTheorems] the properties.
    - Transactions ([verisim-octad/src/transaction.rs]).  [LockTable] is the lock
      table and its deadlock detector; [Transaction] the manager's operations;
      [TransactionSteps] its critical sections as a step relation, with their
      interleavings; [LockTheorems] and [TransactionTheorems] the properties.
      Clients of [LockTable] use its invariant [table_inv] and its lemmas, not
      its definitions.
    - Modality stores ([verisim-graph], [verisim-vector], [verisim-document],
      [verisim-tensor], [verisim-semantic], [verisim-spatial], each [src/lib.rs]).
      [OctadTypes] is the data of an octad and its modalities; [Modalities] the
      interface, a class of store operations with the laws a client may use;
      [ModalityStores] the in-memory stores, one module each, which instantiate
      it; [ModalityTheorems] their properties.
    - The HNSW index ([verisim-vector/src/hnsw.rs]), a second instance of the
      vector interface.  [Hnsw] is the graph, the beam search, insertion with
      pruning and the store; [HnswBeam] what a beam search finds; [HnswGraph]
      the links and the well-formedness of the graph; [HnswTheorems] the
      properties and the instance.
    - The octad store ([verisim-octad/src/store.rs], [lib.rs]).  [OctadStore] is
      create, update, delete, load, the searches, recovery and shutdown, over
      the interface of [Modalities], the transaction manager and the log, in
      the monad [SR]; [OctadLemmas] what every step leaves alone,
      [OctadOutcomes] what an operation does to the registry and the locks and
      which errors it can end with,
      [OctadRecovery] the abstract registry and how the log tracks it;
      [OctadTheorems] the properties; [OctadUpdates] what an updated entity
      reads back as.
    - The query planner ([verisim-planner/src/]).  [PlannerTypes] is plans,
      modalities and configuration; [PlannerCost] the cost model, statistics
      and tuning ([cost.rs], [stats.rs]); [Planner] the optimizer and EXPLAIN
      ([optimizer.rs], [explain.rs]); [PlanCache] prepared statements
      ([prepared.rs]), its critical sections separate; [QueryLog] the slow query
      log and the profiler ([slow_query.rs], [profiler.rs]); [VclBridge] parsed
      queries and their translation ([vcl_bridge.rs]); [PlanCacheTheorems],
      [PlannerTheorems] and [VclTheorems] the properties.  [Format] holds
      the text operations of the planner: case, slices, printed numbers.
    - Access ([verisim-api/src/auth.rs], [rbac.rs]).  [Rbac] is the permission
      model, the audit log and the access check; [Auth] the API keys, rate
      limiter, tokens and the middleware that calls [Rbac]; [AuthTheorems] the
      properties of the middleware, those of [Rbac] are at its end.
    - Conflicts between modalities ([verisim-normalizer/src/conflict.rs]):
      [Conflict], with its critical sections interleaved in [ConflictTheorems].
    - Provenance ([verisim-provenance/src/lib.rs]): [Provenance] is the record,
      the hash chain and the in-memory store, with the properties.
    - History ([verisim-temporal/src/lib.rs], [diff.rs]): [Temporal] is the
      version store, the time series and diffs, with the properties.
    - RAM promotion ([verisim-octad/src/ram_promotion.rs]): [RamPromotion].
    - Zero-knowledge support ([verisim-semantic/src/]).  [Zkp] is commitments
      and Merkle proofs ([zkp.rs]); [Circuits] constraint systems, their
      compiler and the key store ([circuit_registry.rs], [circuit_compiler.rs],
      [verification_keys.rs]); [ZkpBridge] proofs at a privacy level
      ([zkp_bridge.rs]); [ZkpTheorems] and [CircuitTheorems] the properties.
    - Storage ([verisim-storage/src/]).  [Storage] is the backend interface with
      its laws, the in-memory backend, the metering wrapper and the typed store
      ([backend.rs], [memory.rs], [metrics.rs], [typed.rs]); [StorageTheorems]
      shows that the in-memory backend has the laws and metering keeps them,
      [TypedStoreTheorems] what a client of any lawful backend gets.
    - The HTTP API ([verisim-api/src/lib.rs]).  [ApiTypes] is errors, limits,
      requests and responses; [Api] the state of the application and the
      handlers of octads, searches, drift, provenance, space and health;
      [ApiQueries] those of the planner, prepared statements, stored queries,
      API transactions and proofs; [ApiRouter] the routes: those behind the
      middleware of [Auth], and in [ApiRouter.GraphQl] the GraphQL fields
      ([graphql.rs]), whose route is merged beside it.  [ApiQueries.QueryOctad] builds the octads queries are stored
      as ([verisim-octad/src/query_octad.rs]).  [ApiTheorems] has the properties,
      [ApiExample] the small application the witnesses run.
    - VCL execution ([verisim-api/src/vcl.rs]).  [Lexing] is trimming, searching
      and reading numbers; [Vcl] the tokenizer and the statements, over the
      state of [Api]; [VclExecTheorems] the properties.
    - Other services over HTTP.  [Groove] is the manifest, the life cycle of
      peers' connections, the health mesh and feedback
      ([verisim-api/src/groove.rs]); [Federation] the registry of peer stores,
      its keys and federated queries ([verisim-api/src/federation.rs]); both
      with their properties.
    - Proof blobs ([verisim-semantic/src/lib.rs], [proven_bridge.rs],
      [sanctify_bridge.rs]): [ProofBridges] is the proofs of the semantic store,
      the certificates of external provers and the contracts over security
      reports, with the properties.
    - Tools of the command line ([verisim-repl/src/]).  [VclFormat] is the
      formatter and its tokenizer ([vcl_fmt.rs]), [VclLint] the linter
      ([linter.rs]), with their properties.
    - API transactions ([verisim-api/src/transaction.rs]): [ApiTransaction], a
      registry of buffered operations, apart from the transactions above.
    - Drift ([verisim-drift/src/]).  [Drift] is the scores between modalities
      ([calculator.rs]) and the detector that compares them with thresholds
      ([lib.rs]); [DriftTheorems] the properties.
    - Repair of drift ([verisim-normalizer/src/]).  [Normalizer] is the engine
      that answers drift events with a strategy, and the five strategies
      ([lib.rs]); [Regeneration] the engine that regenerates one modality from
      others by authority, over a regenerator that is an interface
      ([regeneration.rs]); [StorageRegenerator] the regenerator that writes to a
      store through an interface for its update ([storage_regenerator.rs]);
      [RegenerationStore] implements that interface by [OctadStore].
      [NormalizerTheorems], [Regeneration], [StorageRegenTheorems] and
      [RegenerationStore] have the properties.
    - Shared by all: [Prelude] (this file) has results, the state monad [SR] for
      [&mut self] methods that return a [Result] (the state reached on an error
      is kept, as in Rust), boolean filters, slices, tactics and hints;
      [Machine] the fixed-width integers, little-endian bytes and UTF-8; [Text]
      the string operations; [Collections] the stable sort and ordered maps;
      [Float64] binary64 arithmetic as the standard library specifies it, and
      the facts on "the [k] best entries" by a score.

    ** What the theorems show

    - Log: the histories of a log ([WalRecovery.reached]) are calls that
      returned [Ok], crashes between or inside calls, and reopenings that found
      no torn bytes.  After any history with synchronous appends, a crash at any
      point of the next append loses nothing acknowledged; any run of the writer
      refines an append-only list of readable entries; reopening after a crash
      at any point resumes with fresh sequence numbers on a prefix of the log,
      and the history goes on unless bytes of a torn entry are left; the
      codec round trips; corruption stays inside its block; the last checkpoint
      is found; pruning removes exactly what its test selects.  Four theorems
      state losses the code allows: an append behind a torn entry, a rotation
      right after a rotating append, pruning of the segment that holds the
      checkpoint, and an entry larger than the reader accepts.
    - Transactions: locks of active transactions exclude each other under every
      interleaving; the wait-for graph stays acyclic and the detector returns a
      shortest cycle exactly when there is one; the outcome of a request on
      every branch; commit applies its versions exactly when validation passes;
      a stale read aborts; a transaction ends once.  Three theorems state
      defects: a lock that outlives its transaction, the undo log lost by a
      refused commit, and the upgrade deadlock that is never reported.
    - Octads: each operation changes the registry exactly when it succeeds, ends
      its transaction and leaves no lock; what is created is what is read;
      an update replaces what it names and nothing else;
      operations on one entity do not show through another; after a crash the
      replayed log gives the registry of the specification.  Further theorems
      state what the code loses: a refused delete that recovery applies, an
      update against a stale status, edges that a failed create leaves.
    - Modality stores: the neighbourhood search returns what its number of hops
      reaches; vector and radius searches return the best entries; a tensor
      without empty axes is reduced lane by lane.
    - Planner: plans have one node and one step per requested modality, in
      priority order; optimisation permutes the nodes; the normal form decides
      which queries share a statement; the cache's invariant holds under every
      interleaving and eviction removes the least recently used statement; the
      slow query log keeps the newest entries.  Defects: a hint that panics,
      tuning that oscillates, statements that expire for good, proof
      obligations and comparisons that the translation drops.
    - Access: the middleware runs the handler exactly for authenticated,
      unthrottled and authorised requests; the sliding window bounds every
      client; tokens built with the secret are accepted until they expire; the
      audit log keeps the newest entries.
    - Conflicts: no conflict is closed twice under any interleaving, automatic
      resolution and the priority policy do what they say, escalation does not
      stick.
    - Provenance and history: stored chains verify, equal heads mean equal
      chains unless SHA-256 collides, verification reports the first fault; the
      version store refines an append-only list.
    - RAM promotion: limits and accounting are invariant.
    - HNSW: the store refines a map of embeddings and its graph keeps its shape;
      a beam search ends, returns stored embeddings and is locally optimal; an
      index within its link capacity is searched exactly.  Losses: after all
      embeddings are deleted new ones are never found, and pruning can lose the
      newest one.
    - Zero-knowledge support: a Merkle proof of the depth of the tree proves a
      leaf unless SHA-256 collides; what a compiled circuit checks, OR and NOT
      gates as they are and not as they should be; generated proofs verify, and
      membership proofs verify for other claims too.
    - Storage: the typed store refines a map over any lawful backend; metering
      is transparent and its counters are exact; namespaces can collide.
    - API transactions: the limit holds, a commit hands out what was buffered.
    - HTTP API: the answer of the octad endpoints on every branch, with what it
      does to the registry; POST, GET and DELETE agree; behind the middleware a
      reader's requests change nothing but statistics and the statement cache,
      beside it three GraphQL mutations write for anybody; EXPLAIN ANALYZE
      records the times the request makes up.
    - VCL: INSERT is the endpoint's create, without commas; statements other
      than INSERT and DELETE change nothing; with balanced quotes a statement
      other than INSERT aborts the server exactly when it is a text search that
      panics, as one with LIMIT 0 does; a lone quote aborts it; COUNT is capped.
    - Drift: scores lie between zero and one, a recorded score is reported
      exactly when it exceeds its threshold; one NaN score silences its type.
    - Repair: a regeneration appends one event and what a human must decide is
      queued and never lost; the source is the most authoritative one; keywords
      are the most frequent words; a repaired vector reads back from the octad
      store as the fingerprint of its document, with one version more and the
      stores of the other modalities unchanged.  The normalizer's counters are
      exact under interleaving.  Defects: scores after a repair that are those
      from before it, repairs that write nothing, merging that ignores all
      sources but one, fingerprints and keywords that miss or change what they
      should not, limits and events that are ignored.

    - Groove: what each event makes of a connection, exactly; connections hold
      offered capabilities only; the feedback buffer keeps the newest entries.
    - Federation: every registered peer registered with its key and is fully
      trusted, heartbeats need that key unless SHA-256 collides; the results of
      a query are the best of what matching peers answered; the drift policies
      do not differ.
    - Proof blobs: the store of proofs is a log; a signature binds prover,
      statement and term, and nothing else; a certificate counts as a valid
      proof whatever its verification says; a contract over a truthful report is
      truthful, but only totals are compared.
    - Formatter and linter: formatted text has the tokens of the query;
      diagnostics are ordered, unique and positioned, and never panic on ASCII;
      a literal cut off after a backslash panics the tokenizer.

    ** Modelling decisions

    - Integers are [Z] with the width written out ([wrap 64], [in_u 64]); this is
      the release build's arithmetic, where a debug build panics instead.
      Where a function can panic on ordinary input it returns an option.
    - Loops that are not structural take fuel, and the fuel given is proved
      enough: the segment scan advances at least five bytes per iteration and
      gets one unit per byte ([read_loop_total]); the sequence scan likewise
      ([scan_sequence_total]); the breadth-first search takes a proof that its
      bound is above the queued paths plus the edges it can still follow, so that
      it has no case for running out ([LockTable.bfs]);
      decimal printing gets the number of digits of a 64-bit number.
    - Code outside the repository is a parameter with named laws: chrono,
      crc32fast, the directory listing order, SHA-256, JSON and hexadecimal
      text, tantivy's index, the iteration order of hash maps, Unicode case
      tables, trigonometric functions and the binary logarithm, debug and
      floating-point formatting.  Every set of laws is instantiated in the
      witnesses.
    - An octad operation reads the clock several times; [Call] gives each
      reading by a label.  The error of a modality store is the text its
      [Display] prints, because [OctadError::ModalityError] keeps only that.
    - f64 and f32 are binary64 and binary32 of the standard library's
      [SpecFloat]; a [sum] starts at -0.0 as Rust's does; a sort whose comparator
      answers "equal" on NaN is a stable merge sort of that comparator.
    - [parse_condition] recurses on JSON that serde_json has parsed; its fuel is
      the depth of the value and is proved enough ([parse_condition_unfold]).
    - Merkle fuel is the number of leaves, which bounds the height ([climb_depth]).
      A beam search takes a unit of fuel per entry point and node, since a node
      becomes a candidate once ([beam_loop_ind]).
    - "Unless SHA-256 collides" exhibits the collision: two different inputs
      among those the theorem names, with one digest.
    - A [BTreeMap] is a finite map with sorted iteration; a [BinaryHeap] is a
      sorted list, which is what popping it shows as long as no distance is NaN
      (theorems that need it say so), and draining it is a permutation that is a
      parameter.  The metering state holds the timer readings still to come.
    - A crash keeps of every file a prefix at least as long as what was
      synchronised, and keeps the file's name: the code never synchronises the
      directory, so this assumes a file system that makes the creation of a
      file durable with the file.
    - A panic of a regenerator unwinds through the engine: such methods are
      computations that may panic and return their [Result] as a value.
    - A handler of the API is one step: requests are answered one at a time, and
      their interleaving is studied in the components that lock.  The release
      profile aborts on a panic, so a panic in a handler ends the server
      ([Aborted]), not the request.  Of the operations of the modality stores
      only the text search can panic ([document_search] is an option): Tantivy
      documents that a limit of zero does ([TantivyLaws]).
    - Locks are the critical sections: an operation that holds one lock from
      beginning to end is one definition, one that releases it in between is
      several, interleaved by a step relation.  [commit] and [rollback] hold
      the transaction map throughout but take the version table and the lock
      table one after the other; [TransactionSteps.ending] tracks that.  Lock
      poisoning and log output are left out.

    ** What is not modelled

    Of the API: the gRPC adapter, which hands the requests of its library's
    generated types to the stores modelled here; how async-graphql executes a
    document of several fields; the text of
    attestation envelopes, the metrics page and the proof attempts, which are
    strings sent to and read from outside (ClickHouse over HTTP); the start of
    the servers.  The encoding of requests and responses as JSON is that of
    serde.  The backends built on redb and oxigraph, the terminal and network
    I/O of the REPL, the Erlang bindings and the programs in other languages are
    outside the development: their behaviour is that of libraries whose code is
    not in the repository, or of I/O. *)
From stdpp Require Export base tactics list list_numbers gmap strings sorting.
From Stdlib Require Export ZArith Lia.

#[global] Open Scope Z_scope.

(** ** Fallible computations: Rust's [Result<A, E>] *)

Inductive result (E A : Type) : Type :=
| Ok (a : A)
| Err (e : E).
Arguments Ok {E A} a.
Arguments Err {E A} e.

Global Instance result_ret {E} : MRet (result E) := λ A a, Ok a.
Global Instance result_bind {E} : MBind (result E) :=
  λ A B f m, match m with Ok a => f a | Err e => Err e end.
Global Instance result_fmap {E} : FMap (result E) :=
  λ A B f m, match m with Ok a => Ok (f a) | Err e => Err e end.

Definition is_ok {E A} (r : result E A) : bool :=
  match r with Ok _ => true | Err _ => false end.

(** [Option::ok_or]. *)
Definition ok_or {E A} (o : option A) (e : E) : result E A :=
  match o with Some a => Ok a | None => Err e end.

Declare Scope dev_scope.
Delimit Scope dev_scope with dev.

(** An early return: [if !b { return Err(e); } k]. *)
Notation "'ensure' b 'else' e ;; k" := (if b then k else Err e)
  (at level 100, b at level 99, e at level 99, k at level 200, right associativity) : dev_scope.
#[global] Open Scope dev_scope.

(** Stateful code that can fail: [&mut self] with a [Result] return value.  The
    state reached when an error is returned is kept, as in Rust. *)
Definition SR (S E A : Type) : Type := S → S * result E A.

Global Instance sr_ret {S E} : MRet (SR S E) := λ A a s, (s, Ok a).
Global Instance sr_bind {S E} : MBind (SR S E) :=
  λ A B f m s, match m s with (s', Ok a) => f a s' | (s', Err e) => (s', Err e) end.
Definition sr_get {S E} : SR S E S := λ s, (s, Ok s).
Definition sr_modify {S E} (f : S → S) : SR S E unit := λ s, (f s, Ok ()).
Definition sr_fail {S E A} (e : E) : SR S E A := λ s, (s, Err e).
Definition sr_when {S E} (b : bool) (m : SR S E unit) : SR S E unit :=
  if b then m else mret ().

(** [map_err], [.ok()], and a computation on one field of the state. *)
Definition map_err {E F A} (f : E → F) (r : result E A) : result F A :=
  match r with Ok a => Ok a | Err e => Err (f e) end.
Definition sr_map_err {S E F A} (f : E → F) (m : SR S E A) : SR S F A :=
  λ s, ((m s).1, map_err f (m s).2).
Definition sr_ok {S E F A} (m : SR S E A) : SR S F unit := λ s, ((m s).1, Ok ()).
Definition sr_zoom {S T E A} (get : S → T) (put : T → S → S) (m : SR T E A) : SR S E A :=
  λ s, (put (m (get s)).1 s, (m (get s)).2).
Definition sr_read {S E A} (f : S → result E A) : SR S E A := λ s, (s, f s).

#[global] Arguments sr_map_err {S E F A} f m s : simpl never.
#[global] Arguments sr_ok {S E F A} m s : simpl never.
#[global] Arguments sr_zoom {S T E A} get put m s : simpl never.
#[global] Arguments sr_read {S E A} f s : simpl never.

(** Partial-correctness triples: [Q] after a result, [X] after an error. *)
Definition sr_triple {S E A} (P : S → Prop) (m : SR S E A) (Q : A → S → Prop) (X : E → S → Prop) : Prop :=
  ∀ s, P s → match m s with (s', Ok a) => Q a s' | (s', Err e) => X e s' end.

Lemma triple_ret {S E A} (P : S → Prop) (a : A) (Q : A → S → Prop) (X : E → S → Prop) :
  (∀ s, P s → Q a s) → sr_triple P (mret a : SR S E A) Q X.
Proof. intros H s Hs. by apply H. Qed.

Lemma triple_bind {S E A B} (P : S → Prop) (m : SR S E A) (R : A → S → Prop) (f : A → SR S E B) Q X :
  sr_triple P m R X → (∀ a, sr_triple (R a) (f a) Q X) → sr_triple P (m ≫= f) Q X.
Proof.
  intros Hm Hf s Hs. specialize (Hm s Hs). unfold mbind, sr_bind.
  destruct (m s) as [s' [a|e]]; [by apply Hf | done].
Qed.

Lemma triple_conseq {S E A} (P P' : S → Prop) (m : SR S E A) Q Q' X X' :
  sr_triple P m Q X → (∀ s, P' s → P s) → (∀ a s, Q a s → Q' a s) → (∀ e s, X e s → X' e s) →
  sr_triple P' m Q' X'.
Proof.
  intros Hm HP HQ HX s Hs. specialize (Hm s (HP s Hs)). destruct (m s) as [s' [a|e]]; auto.
Qed.

Lemma triple_ok {S E F A} (P : S → Prop) (m : SR S E A) (Q : S → Prop) (X : F → S → Prop) :
  (∀ s, P s → Q (m s).1) → sr_triple P (sr_ok m : SR S F unit) (λ _, Q) X.
Proof. intros H s Hs. by apply H. Qed.

Lemma triple_pure {S E A} (φ : Prop) (P : S → Prop) (m : SR S E A) Q X :
  (φ → sr_triple P m Q X) → sr_triple (λ s, φ ∧ P s) m Q X.
Proof. intros Hm s [Hp Hs]. by apply Hm. Qed.

Lemma triple_and {S E A} (P P' : S → Prop) (m : SR S E A) Q Q' X X' :
  sr_triple P m Q X → sr_triple P' m Q' X' →
  sr_triple (λ s, P s ∧ P' s) m (λ a s, Q a s ∧ Q' a s) (λ e s, X e s ∧ X' e s).
Proof.
  intros H1 H2 s [Hs Hs']. specialize (H1 s Hs). specialize (H2 s Hs'). by destruct (m s) as [s' [a|e]].
Qed.

(** A fact about the results that does not depend on the precondition. *)
Lemma triple_value {S E A} (V : A → Prop) (P : S → Prop) (m : SR S E A) Q X :
  sr_triple P m Q X → (∀ s s' a, m s = (s', Ok a) → V a) →
  sr_triple P m (λ a s, V a ∧ Q a s) X.
Proof.
  intros Hm HV s Hs. specialize (Hm s Hs). specialize (HV s).
  destruct (m s) as [s' [a|e]]; [split; [by eapply HV | done] | done].
Qed.

(** A computation that leaves [f] of the state alone, by its structure. *)
Class Keeps {S T E A} (f : S → T) (m : SR S E A) : Prop := keeps s : f (m s).1 = f s.
Class Indep {S T U} (f : S → T) (put : U → S → S) : Prop := indep u s : f (put u s) = f s.
#[export] Hint Extern 0 (Indep _ _) => (intros ? ?; reflexivity) : typeclass_instances.

(** Rewrite with the frame of the computation the goal runs. *)
Ltac keeps_step :=
  match goal with |- context [?f (fst (?m ?s))] => rewrite (keeps (f:=f) (m:=m) s) end.

Section keeps.
Context {S T : Type} (f : S → T).

#[export] Instance keeps_ret {E A} (a : A) : Keeps f (mret a : SR S E A).
Proof. done. Qed.
#[export] Instance keeps_fail {E A} (e : E) : Keeps f (sr_fail e : SR S E A).
Proof. done. Qed.
#[export] Instance keeps_read {E A} (g : S → result E A) : Keeps f (sr_read g).
Proof. done. Qed.
#[export] Instance keeps_bind {E A B} (m : SR S E A) (g : A → SR S E B) :
  Keeps f m → (∀ a, Keeps f (g a)) → Keeps f (m ≫= g).
Proof.
  intros Hm Hg s. specialize (Hm s). unfold mbind, sr_bind.
  destruct (m s) as [s' [a|e]]; [by rewrite (Hg a s') | done].
Qed.
#[export] Instance keeps_map_err {E F A} (h : E → F) (m : SR S E A) :
  Keeps f m → Keeps f (sr_map_err h m).
Proof. intros Hm s. apply Hm. Qed.
#[export] Instance keeps_ok {E F A} (m : SR S E A) : Keeps f m → Keeps f (sr_ok m : SR S F unit).
Proof. intros Hm s. apply Hm. Qed.
#[export] Instance keeps_when {E} b (m : SR S E unit) : Keeps f m → Keeps f (sr_when b m).
Proof. by destruct b. Qed.
#[export] Instance keeps_zoom {E A U} (get : S → U) (put : U → S → S) (m : SR U E A) :
  Indep f put → Keeps f (sr_zoom get put m).
Proof. intros Hp s. apply Hp. Qed.

End keeps.

Lemma sr_bind_Ok {S E A B} (m : SR S E A) (f : A → SR S E B) s s' b :
  (m ≫= f) s = (s', Ok b) ↔ ∃ s1 a, m s = (s1, Ok a) ∧ f a s1 = (s', Ok b).
Proof.
  unfold mbind, sr_bind. split.
  - destruct (m s) as [s1 [a|e]]; [eauto | done].
  - by intros (s1 & a & -> & ?).
Qed.

Lemma sr_bind_step {S E A B} (m : SR S E A) (f : A → SR S E B) s s1 a :
  m s = (s1, Ok a) → (m ≫= f) s = f a s1.
Proof. unfold mbind, sr_bind. by intros ->. Qed.
Lemma sr_bind_stop {S E A B} (m : SR S E A) (f : A → SR S E B) s s1 e :
  m s = (s1, Err e) → (m ≫= f) s = (s1, Err e).
Proof. unfold mbind, sr_bind. by intros ->. Qed.

Lemma sr_ok_eq {S E F A} (m : SR S E A) s : (sr_ok m : SR S F unit) s = ((m s).1, Ok ()).
Proof. done. Qed.

Lemma bind_Ok {E A B} (m : result E A) (f : A → result E B) b :
  m ≫= f = Ok b → ∃ a, m = Ok a ∧ f a = Ok b.
Proof. destruct m as [a|e]; simpl; [eauto | discriminate]. Qed.

Lemma ok_or_Ok {E A} (o : option A) (e : E) a : ok_or o e = Ok a ↔ o = Some a.
Proof. destruct o; simpl; naive_solver. Qed.

(** ** Tactics *)

(** Split the conjunctions and existentials of the context. *)
Ltac destruct_conj :=
  repeat match goal with
  | H : _ ∧ _ |- _ => destruct H
  | H : ∃ _, _ |- _ => destruct H
  end.

(** Case analysis on everything a handler inspects, keeping the equations. *)
Ltac handler_cases :=
  repeat (case_match; simplify_eq/=); try done.

(** Expose the state passing of an [SR] computation. *)
Ltac sr_unfold :=
  unfold mbind, sr_bind, mret, sr_ret, sr_get, sr_modify, sr_fail, sr_when; cbv beta iota zeta.

Ltac inv_bind H :=
  let a := fresh "a" in let Ha := fresh "Ha" in
  apply bind_Ok in H as (a & Ha & H).

(** ** Hints shared by the components *)

Create HintDb dev.
#[export] Hint Resolve Forall_nil_2 Forall_cons_2 : dev.

(** ** Lists *)

Section lists.
Context {A : Type}.
Implicit Types (l k : list A).

(** A boolean filter, as Rust's [Iterator::filter] and [Vec::retain]. *)
Fixpoint retain (f : A → bool) l : list A :=
  match l with
  | [] => []
  | x :: l => if f x then x :: retain f l else retain f l
  end.

Lemma elem_of_retain f l x : x ∈ retain f l ↔ x ∈ l ∧ f x = true.
Proof.
  induction l as [|y l IH]; simpl.
  - split; [intros ?%elem_of_nil; done | by intros [?%elem_of_nil ?]].
  - destruct (f y) eqn:E; rewrite ?elem_of_cons, IH; naive_solver congruence.
Qed.

Lemma retain_app f l k : retain f (l ++ k) = retain f l ++ retain f k.
Proof. induction l as [|x l IH]; simpl; [done|]. rewrite IH. by destruct (f x). Qed.

Lemma retain_all f l : (∀ x, x ∈ l → f x = true) → retain f l = l.
Proof.
  induction l as [|x l IH]; intros Hl; simpl; [done|].
  rewrite (Hl x) by set_solver. f_equal. apply IH. set_solver.
Qed.

Lemma retain_none f l : (∀ x, x ∈ l → f x = false) → retain f l = [].
Proof.
  induction l as [|x l IH]; intros Hl; simpl; [done|].
  rewrite (Hl x) by set_solver. apply IH. set_solver.
Qed.

Lemma length_retain f l : (length (retain f l) ≤ length l)%nat.
Proof. induction l as [|x l IH]; simpl; [done|]. destruct (f x); simpl; lia. Qed.

Lemma retain_retain f l : retain f (retain f l) = retain f l.
Proof.
  induction l as [|x l IH]; simpl; [done|].
  destruct (f x) eqn:E; simpl; [by rewrite E, IH | done].
Qed.

Global Instance retain_Permutation f : Proper ((≡ₚ) ==> (≡ₚ)) (retain f).
Proof.
  induction 1 as [|x l k _ IH|x y l|l1 l2 l3 _ IH1 _ IH2]; simpl; [done|..].
  - destruct (f x); by rewrite IH.
  - destruct (f x), (f y); try done. constructor.
  - by rewrite IH1.
Qed.

Lemma retain_reverse f l : retain f (reverse l) = reverse (retain f l).
Proof.
  induction l as [|x l IH]; simpl; [done|]. rewrite reverse_cons, retain_app, IH. simpl.
  destruct (f x); [by rewrite reverse_cons | by rewrite app_nil_r].
Qed.

Lemma sublist_retain f l : retain f l `sublist_of` l.
Proof.
  induction l as [|x l IH]; simpl; [constructor|].
  destruct (f x); by constructor.
Qed.

(** Half-open slices, [&l[a .. a + n]]. *)
Definition slice (a n : nat) l : list A := take n (drop a l).

Lemma length_slice a n l : (a + n ≤ length l)%nat → length (slice a n l) = n.
Proof. intros. unfold slice. rewrite length_take, length_drop. lia. Qed.

Lemma slice_app_exact l1 l2 l3 :
  slice (length l1) (length l2) (l1 ++ l2 ++ l3) = l2.
Proof. unfold slice. by rewrite drop_app_length, take_app_length. Qed.

Lemma slice_skip a n l k :
  (length l ≤ a)%nat → slice a n (l ++ k) = slice (a - length l) n k.
Proof. intros. unfold slice. by rewrite drop_app_ge. Qed.

Lemma slice_head n l k : length l = n → slice 0 n (l ++ k) = l.
Proof. intros <-. unfold slice. by rewrite drop_0, take_app_length. Qed.

Lemma slice_head_nil n l : length l = n → slice 0 n l = l.
Proof. intros <-. unfold slice. by rewrite drop_0, firstn_all. Qed.

End lists.

Create Rewrite HintDb dev.
#[export] Hint Rewrite @retain_app @length_slice : dev.
