(* ===== verification/Machine.v ===== *)
(** * Machine-level data: fixed-width integers, bytes, UTF-8, text

    The part of Rust's primitive types and standard library that several
    components use: wrap-around of [u32]/[u64] (release profile: overflow
    checks off), [to_le_bytes]/[from_le_bytes], [String::from_utf8],
    [str::strip_prefix]/[strip_suffix]/[split], decimal formatting and
    [str::parse::<u64>].  A Rust [String] is a Rocq [string] read as its
    sequence of UTF-8 bytes. *)
From S2P Require Import Prelude.
From Stdlib Require Import Strings.Byte.
From Stdlib Require Strings.Ascii Strings.String.

Abbreviation byte := Byte.byte.

(** ** Fixed-width integers *)

Definition in_u (w z : Z) : Prop := 0 ≤ z < 2 ^ w.
Definition wrap (w z : Z) : Z := z mod 2 ^ w.
Definition U32_MAX : Z := 2 ^ 32 - 1.
Definition U64_MAX : Z := 2 ^ 64 - 1.

(** [saturating_sub] of an unsigned type. *)
Definition saturating_sub (a b : Z) : Z := Z.max 0 (a - b).

Lemma wrap_range w z : 0 ≤ w → in_u w (wrap w z).
Proof. intros. apply Z.mod_pos_bound. lia. Qed.

Lemma wrap_small w z : in_u w z → wrap w z = z.
Proof. apply Z.mod_small. Qed.

(** ** Bytes *)

Definition Z_of_byte (b : byte) : Z := Z.of_N (Byte.to_N b).
Definition byte_of_Z (z : Z) : byte :=
  match Byte.of_N (Z.to_N (z mod 256)) with Some b => b | None => x00 end.

Global Instance byte_eq_dec : EqDecision byte := Byte.byte_eq_dec.

Lemma Z_of_byte_range b : 0 ≤ Z_of_byte b < 256.
Proof. unfold Z_of_byte. pose proof (Byte.to_N_bounded b). lia. Qed.

Lemma Z_of_byte_of_Z z : Z_of_byte (byte_of_Z z) = z mod 256.
Proof.
  unfold byte_of_Z. pose proof (Z.mod_pos_bound z 256 ltac:(lia)) as Hz.
  destruct (Byte.of_N _) as [b|] eqn:E.
  - apply Byte.to_of_N in E. unfold Z_of_byte. lia.
  - apply Byte.of_N_None_iff in E. lia.
Qed.

Lemma byte_of_Z_of_byte b : byte_of_Z (Z_of_byte b) = b.
Proof.
  unfold byte_of_Z. rewrite Z.mod_small by apply Z_of_byte_range.
  unfold Z_of_byte. by rewrite N2Z.id, Byte.of_to_N.
Qed.

Lemma Z_of_byte_inj b1 b2 : Z_of_byte b1 = Z_of_byte b2 → b1 = b2.
Proof. intros H. by rewrite <-(byte_of_Z_of_byte b1), H, byte_of_Z_of_byte. Qed.

(** ** Little-endian encoding *)

(** [to_le_bytes] of an [n]-byte integer (two's complement when negative). *)
Fixpoint to_le_bytes (n : nat) (z : Z) : list byte :=
  match n with
  | O => []
  | S n => byte_of_Z z :: to_le_bytes n (z / 256)
  end.

(** [from_le_bytes] of an unsigned integer. *)
Fixpoint from_le_bytes (l : list byte) : Z :=
  match l with
  | [] => 0
  | b :: l => Z_of_byte b + 256 * from_le_bytes l
  end.

(** [from_le_bytes] of a signed integer of as many bytes. *)
Definition from_le_bytes_signed (l : list byte) : Z :=
  let u := from_le_bytes l in
  let m := 256 ^ Z.of_nat (length l) in
  if u <? m / 2 then u else u - m.

Lemma length_to_le_bytes n z : length (to_le_bytes n z) = n.
Proof. revert z; induction n; intros; simpl; [done | by rewrite IHn]. Qed.

Lemma from_to_le_bytes n z :
  from_le_bytes (to_le_bytes n z) = z mod 256 ^ Z.of_nat n.
Proof.
  revert z; induction n as [|n IH]; intros z.
  - by rewrite Z.mod_1_r.
  - cbn [to_le_bytes from_le_bytes]. rewrite IH, Z_of_byte_of_Z.
    rewrite Nat2Z.inj_succ, Z.pow_succ_r by lia.
    rewrite Z.rem_mul_r by lia. lia.
Qed.

Lemma from_to_le_bytes_u w n z :
  in_u w z → w = 8 * Z.of_nat n → from_le_bytes (to_le_bytes n z) = z.
Proof.
  intros Hz ->. rewrite from_to_le_bytes. apply Z.mod_small.
  unfold in_u in Hz. by rewrite Z.pow_mul_r in Hz by lia.
Qed.

Lemma from_le_bytes_range l :
  0 ≤ from_le_bytes l < 256 ^ Z.of_nat (length l).
Proof.
  induction l as [|b l IH]; [by vm_compute|].
  cbn [from_le_bytes length]. rewrite Nat2Z.inj_succ, Z.pow_succ_r by lia.
  pose proof (Z_of_byte_range b). lia.
Qed.

Lemma from_to_le_bytes_signed n z :
  (0 < n)%nat →
  - (256 ^ Z.of_nat n / 2) ≤ z < 256 ^ Z.of_nat n / 2 →
  from_le_bytes_signed (to_le_bytes n z) = z.
Proof.
  intros Hn Hz. unfold from_le_bytes_signed.
  rewrite from_to_le_bytes, length_to_le_bytes.
  set (m := 256 ^ Z.of_nat n) in *.
  assert (Hm : m = 2 * (m / 2)).
  { destruct n as [|n]; [lia|]. subst m. rewrite Nat2Z.inj_succ, Z.pow_succ_r by lia.
    replace (256 * 256 ^ Z.of_nat n) with ((128 * 256 ^ Z.of_nat n) * 2) by lia.
    rewrite Z.div_mul; lia. }
  assert (0 < m) by (subst m; apply Z.pow_pos_nonneg; lia).
  destruct (decide (0 ≤ z)).
  - rewrite Z.mod_small by lia. case_match; lia.
  - rewrite <-(Z.mod_unique_pos z m (-1) (z + m)) by lia. case_match; lia.
Qed.

(** ** UTF-8 validity ([core::str::run_utf8_validation]) *)

Definition in_range (lo hi : Z) (b : byte) : bool :=
  (lo <=? Z_of_byte b) && (Z_of_byte b <=? hi).
Definition is_cont : byte → bool := in_range 0x80 0xBF.

Definition utf8_2 (a b : byte) : bool := in_range 0xC2 0xDF a && is_cont b.
Definition utf8_3 (a b c : byte) : bool :=
  (in_range 0xE0 0xE0 a && in_range 0xA0 0xBF b
   || in_range 0xE1 0xEC a && is_cont b
   || in_range 0xED 0xED a && in_range 0x80 0x9F b
   || in_range 0xEE 0xEF a && is_cont b) && is_cont c.
Definition utf8_4 (a b c d : byte) : bool :=
  (in_range 0xF0 0xF0 a && in_range 0x90 0xBF b
   || in_range 0xF1 0xF3 a && is_cont b
   || in_range 0xF4 0xF4 a && in_range 0x80 0x8F b) && is_cont c && is_cont d.

Fixpoint utf8_valid (l : list byte) : bool :=
  match l with
  | [] => true
  | a :: l1 =>
    if Z_of_byte a <? 0x80 then utf8_valid l1 else
    match l1 with
    | [] => false
    | b :: l2 =>
      if utf8_2 a b then utf8_valid l2 else
      match l2 with
      | [] => false
      | c :: l3 =>
        if utf8_3 a b c then utf8_valid l3 else
        match l3 with
        | [] => false
        | d :: l4 => if utf8_4 a b c d then utf8_valid l4 else false
        end
      end
    end
  end.

(** [str::as_bytes] and [String::from_utf8]. *)
Definition as_bytes (s : string) : list byte := String.list_byte_of_string s.
Definition from_utf8 (l : list byte) : option string :=
  if utf8_valid l then Some (String.string_of_list_byte l) else None.
Definition utf8_string (s : string) : bool := utf8_valid (as_bytes s).

Lemma as_bytes_inj a b : as_bytes a = as_bytes b → a = b.
Proof.
  intros E. rewrite <- (String.string_of_list_byte_of_string a), <- (String.string_of_list_byte_of_string b).
  unfold as_bytes in E. by rewrite E.
Qed.

Lemma as_bytes_app a b : as_bytes (a +:+ b) = as_bytes a ++ as_bytes b.
Proof.
  induction a as [|x a IH]; [done|].
  change (as_bytes (String x (a +:+ b)) = Ascii.byte_of_ascii x :: as_bytes a ++ as_bytes b).
  rewrite <- IH. reflexivity.
Qed.

Lemma as_bytes_surj l : as_bytes (String.string_of_list_byte l) = l.
Proof. apply String.list_byte_of_string_of_list_byte. Qed.

Lemma from_utf8_as_bytes s : utf8_string s = true → from_utf8 (as_bytes s) = Some s.
Proof.
  unfold from_utf8, utf8_string, as_bytes. intros ->.
  by rewrite String.string_of_list_byte_of_string.
Qed.

Lemma utf8_valid_ascii l :
  Forall (λ b, Z_of_byte b < 0x80) l → utf8_valid l = true.
Proof.
  induction 1 as [|b l Hb _ IH]; simpl; [done|].
  by rewrite (proj2 (Z.ltb_lt _ _) Hb).
Qed.
