(* ===== verification/Text.v ===== *)
(** * Text operations of the standard library

    [str::starts_with], [strip_prefix], [strip_suffix], [split(char)],
    decimal formatting with zero padding and [str::parse::<u64>]. *)
From S2P Require Import Prelude Machine.
From Stdlib Require Import Strings.Ascii.
From Stdlib Require Strings.String.


Local Open Scope string_scope.
Local Open Scope Z_scope.

(** ** Prefixes, suffixes, splitting *)

Definition starts_with (p s : string) : bool := String.prefix p s.

Fixpoint strip_prefix (p s : string) : option string :=
  match p, s with
  | "", _ => Some s
  | String a p, String b s => if ascii_dec a b then strip_prefix p s else None
  | String _ _, "" => None
  end.

(** [s.strip_suffix(suf)]: the part of [s] before a final [suf]. *)
Fixpoint strip_suffix (suf s : string) : option string :=
  if String.eqb s suf then Some "" else
  match s with
  | "" => None
  | String a s => String a <$> strip_suffix suf s
  end.

(** [s.split(c)]: at least one piece, pieces between occurrences of [c]. *)
Fixpoint split_char (c : ascii) (s : string) : list string :=
  match s with
  | "" => [""]
  | String a s =>
    if ascii_dec a c then "" :: split_char c s
    else match split_char c s with
         | [] => [String a ""]
         | p :: ps => String a p :: ps
         end
  end.

(** [s.split(c).next().unwrap_or(s)]. *)
Definition first_piece (c : ascii) (s : string) : string :=
  match split_char c s with [] => s | p :: _ => p end.

(** [s.replace(a, b)] for single ASCII characters. *)
Fixpoint replace_char (a b : ascii) (s : string) : string :=
  match s with
  | "" => ""
  | String x s => String (if ascii_dec x a then b else x) (replace_char a b s)
  end.

Lemma starts_with_strip_prefix p s :
  starts_with p s = match strip_prefix p s with Some _ => true | None => false end.
Proof.
  revert s; induction p as [|a p IH]; intros [|b s]; simpl; try done.
  unfold starts_with in *. simpl. case_match; [apply IH | done].
Qed.

Lemma strip_prefix_app p s : strip_prefix p (p +:+ s) = Some s.
Proof. induction p as [|a p IH]; simpl; [done|]. by case_match. Qed.

Lemma strip_prefix_Some p s r : strip_prefix p s = Some r → s = p +:+ r.
Proof.
  revert s; induction p as [|a p IH]; intros [|b s]; simpl; try naive_solver.
  case_match; [|done]. intros Hr%IH. by subst.
Qed.

Lemma string_app_length (s t : string) :
  String.length (s +:+ t) = (String.length s + String.length t)%nat.
Proof. induction s as [|a s IH]; simpl; [done | by rewrite IH]. Qed.

Lemma strip_suffix_app suf s : strip_suffix suf (s +:+ suf) = Some s.
Proof.
  induction s as [|a s IH].
  - change ("" +:+ suf) with suf. destruct suf as [|b suf]; [done|].
    cbn [strip_suffix]. by rewrite String.eqb_refl.
  - change (String a s +:+ suf) with (String a (s +:+ suf)). cbn [strip_suffix].
    destruct (String.eqb_spec (String a (s +:+ suf)) suf) as [E|].
    + apply (f_equal String.length) in E. simpl in E. rewrite string_app_length in E. lia.
    + by rewrite IH.
Qed.

(** ** Decimal numbers *)

Definition digit (d : Z) : ascii := ascii_of_N (Z.to_N (48 + d)).
Definition digit_val (a : ascii) : option Z :=
  let n := Z.of_N (N_of_ascii a) in
  if (48 <=? n) && (n <=? 57) then Some (n - 48) else None.

Lemma digit_val_digit d : 0 ≤ d < 10 → digit_val (digit d) = Some d.
Proof.
  intros Hd. unfold digit_val, digit. rewrite N_ascii_embedding by lia.
  rewrite Z2N.id by lia.
  rewrite (proj2 (Z.leb_le _ _)), (proj2 (Z.leb_le _ _)) by lia. simpl. f_equal. lia.
Qed.

(** The [n] low-order decimal digits of [z], most significant first, before [s]. *)
Fixpoint digits (n : nat) (z : Z) (s : string) : string :=
  match n with
  | O => s
  | S n => digits n (z / 10) (String (digit (z mod 10)) s)
  end.

(** Number of decimal digits (at least one); 20 digits are enough for a u64. *)
Fixpoint num_digits (fuel : nat) (z : Z) : nat :=
  match fuel with
  | O => 1
  | S fuel => if z <? 10 then 1 else S (num_digits fuel (z / 10))
  end.

(** [format!("{z:0width}")] for an unsigned integer of at most 64 bits. *)
Definition fmt_width (width : nat) (z : Z) : string :=
  digits (Nat.max width (num_digits 20 z)) z "".

(** [format!("{z}")]. *)
Definition fmt_u64 (z : Z) : string := fmt_width 0 z.

Fixpoint parse_digits (acc : Z) (s : string) : option Z :=
  match s with
  | "" => Some acc
  | String a s => d ← digit_val a; parse_digits (10 * acc + d) s
  end.

(** [s.parse::<u64>().ok()]: an optional leading plus sign, at least one digit,
    and a value that fits (accumulation overflows exactly when the value does
    not fit). *)
Definition parse_u64 (s : string) : option Z :=
  let body := match strip_prefix "+" s with Some r => r | None => s end in
  match body with
  | "" => None
  | _ => z ← parse_digits 0 body; if z <? 2 ^ 64 then Some z else None
  end.

Lemma num_digits_bound fuel z :
  0 ≤ z < 10 ^ Z.of_nat (S fuel) → z < 10 ^ Z.of_nat (num_digits fuel z).
Proof.
  revert z; induction fuel as [|fuel IH]; intros z Hz; [simpl in *; lia|].
  cbn [num_digits]. case_match; [lia|].
  rewrite Nat2Z.inj_succ, Z.pow_succ_r in Hz |- * by lia.
  assert (z / 10 < 10 ^ Z.of_nat (num_digits fuel (z / 10))).
  { apply IH. split; [apply Z.div_pos; lia|].
    apply Z.div_lt_upper_bound; [lia | apply Hz]. }
  pose proof (Z.div_mod z 10 ltac:(lia)). pose proof (Z.mod_pos_bound z 10 ltac:(lia)). lia.
Qed.

Lemma num_digits_pos fuel z : (1 ≤ num_digits fuel z)%nat.
Proof. destruct fuel; simpl; [lia|]. case_match; lia. Qed.

Lemma parse_digits_digits n z acc s :
  parse_digits acc (digits n z s) =
  parse_digits (10 ^ Z.of_nat n * acc + z mod 10 ^ Z.of_nat n) s.
Proof.
  revert z acc s; induction n as [|n IH]; intros z acc s.
  - simpl. rewrite Z.mod_1_r. f_equal. lia.
  - cbn [digits]. rewrite IH. cbn [parse_digits].
    rewrite digit_val_digit by (apply Z.mod_pos_bound; lia). simpl. f_equal.
    rewrite Nat2Z.inj_succ, Z.pow_succ_r by lia. rewrite Z.rem_mul_r by lia. lia.
Qed.

Lemma digits_cons n z s :
  ∃ d s', digits (S n) z s = String (digit d) s' ∧ 0 ≤ d < 10.
Proof.
  revert z s; induction n as [|n IH]; intros z s.
  - exists (z mod 10), s. split; [done | apply Z.mod_pos_bound; lia].
  - apply (IH (z / 10)).
Qed.

(** Formatting then parsing gives the number back, whatever the padding. *)
Lemma parse_fmt_width width z : in_u 64 z → parse_u64 (fmt_width width z) = Some z.
Proof.
  intros Hz. unfold fmt_width.
  assert (1 ≤ Nat.max width (num_digits 20 z))%nat as Hpos
    by (pose proof (num_digits_pos 20 z); lia).
  set (w := Nat.max _ _) in *.
  assert (Hw : z < 10 ^ Z.of_nat w).
  { eapply Z.lt_le_trans; [apply (num_digits_bound 20); unfold in_u in Hz; lia|].
    apply Z.pow_le_mono_r; lia. }
  assert (Hp : parse_digits 0 (digits w z "") = Some z).
  { rewrite parse_digits_digits. cbn [parse_digits]. f_equal.
    rewrite Z.mod_small by (unfold in_u in Hz; lia). lia. }
  clearbody w. destruct w as [|w]; [simpl in *; lia|].
  destruct (digits_cons w z "") as (d & s' & E & Hd). unfold parse_u64.
  assert (Hplus : strip_prefix "+" (digits (S w) z "") = None).
  { rewrite E. cbn [strip_prefix]. destruct (ascii_dec "+" (digit d)) as [Ec|]; [|done].
    apply (f_equal digit_val) in Ec. rewrite digit_val_digit in Ec by done. done. }
  rewrite Hplus, Hp. rewrite E. simpl.
  unfold in_u in Hz. by rewrite (proj2 (Z.ltb_lt _ _)) by lia.
Qed.

#[export] Hint Rewrite strip_prefix_app strip_suffix_app : dev.

(** ** Splitting and trimming from the end *)

(** [s.rsplit_once(c)]: the parts before and after the last [c]. *)
Fixpoint rsplit_once (c : ascii) (s : string) : option (string * string) :=
  match s with
  | "" => None
  | String a s =>
    match rsplit_once c s with
    | Some (l, r) => Some (String a l, r)
    | None => if ascii_dec a c then Some ("", s) else None
    end
  end.

(** [s.trim_end_matches(c)]. *)
Fixpoint trim_end_matches (c : ascii) (s : string) : string :=
  match s with
  | "" => ""
  | String a s =>
    let t := trim_end_matches c s in
    if ascii_dec a c then (if String.eqb t "" then "" else String a t) else String a t
  end.

Lemma rsplit_once_app c l r :
  rsplit_once c r = None → rsplit_once c (l +:+ String c r) = Some (l, r).
Proof.
  intros Hr. induction l as [|a l IH].
  - cbn [String.append rsplit_once]. change ("" +:+ String c r) with (String c r).
    cbn [rsplit_once]. rewrite Hr. by destruct (ascii_dec c c).
  - change (String a l +:+ String c r) with (String a (l +:+ String c r)).
    cbn [rsplit_once]. by rewrite IH.
Qed.

(** ** Formatting *)

(** [format!("{a}{b}...")]. *)
Definition cat : list string → string := String.concat "".

(** The derived [Debug] of a vector. *)
Definition debug_list {A} (f : A → string) (l : list A) : string :=
  cat ["["; String.concat ", " (f <$> l); "]"].

Definition hex_digit (d : Z) : ascii :=
  ascii_of_N (Z.to_N (if d <? 10 then 48 + d else 87 + d)).

(** [format!("{z:#010x}")] for a 32-bit value. *)
Definition fmt_hex32 (z : Z) : string :=
  "0x" +:+ foldr (λ i s, String (hex_digit (z / 16 ^ (7 - i) mod 16)) s) "" [0; 1; 2; 3; 4; 5; 6; 7].
