(* ===== verification/Collections.v ===== *)
(** * Ordered collections of the standard library

    [slice::sort_by_key] (a stable sort, so its result is determined: here a
    stable insertion sort) and [BTreeMap] with integer keys as a key-sorted
    association list. *)
From S2P Require Import Prelude Machine.

(** ** Sorted lists *)

Section sorted.
Context {A : Type}.

Lemma StronglySorted_reverse (P : relation A) (l : list A) :
  StronglySorted P l → StronglySorted (flip P) (reverse l).
Proof.
  induction 1 as [|x l Hs IH Hx]; [constructor|].
  rewrite reverse_cons. apply StronglySorted_app_2; [|done|by repeat constructor].
  intros y z Hy Hz. rewrite elem_of_reverse in Hy. apply list_elem_of_singleton in Hz as ->.
  rewrite Forall_forall in Hx. by apply Hx.
Qed.

Lemma StronglySorted_impl_rel (P Q : relation A) (l : list A) :
  (∀ x y, P x y → Q x y) → StronglySorted P l → StronglySorted Q l.
Proof.
  intros HPQ. induction 1 as [|x l Hs IH Hx]; constructor; [done|].
  eapply Forall_impl; [exact Hx | auto].
Qed.

Lemma StronglySorted_lt_NoDup (f : A → Z) (l : list A) :
  StronglySorted (λ x y, f x < f y) l → NoDup (f <$> l).
Proof.
  induction 1 as [|x l Hs IH Hx]; simpl; constructor; [|done].
  intros (y & E & Hy)%list_elem_of_fmap. rewrite Forall_forall in Hx.
  specialize (Hx y Hy). simpl in Hx. lia.
Qed.

Lemma StronglySorted_retain (P : relation A) (f : A → bool) (l : list A) :
  StronglySorted P l → StronglySorted P (retain f l).
Proof.
  induction 1 as [|x l Hs IH Hx]; [constructor|]. cbn. destruct (f x); [|done]. constructor; [done|].
  apply Forall_forall. intros y [Hy _]%elem_of_retain. rewrite Forall_forall in Hx. by apply Hx.
Qed.

End sorted.

(** ** Stable sort by an integer key *)

Section sort.
Context {A : Type} (key : A → Z).
Implicit Types (l : list A) (x y : A).

Definition key_le x y : Prop := key x ≤ key y.

Fixpoint insert_by x l : list A :=
  match l with
  | [] => [x]
  | y :: l => if key x <? key y then x :: y :: l else y :: insert_by x l
  end.

Definition sort_by_key l : list A := foldl (λ acc x, insert_by x acc) [] l.

Lemma insert_by_perm x l : insert_by x l ≡ₚ x :: l.
Proof.
  induction l as [|y l IH]; simpl; [done|]. case_match; [done|].
  rewrite IH. constructor.
Qed.

Lemma insert_by_last x l : Forall (λ y, key y ≤ key x) l → insert_by x l = l ++ [x].
Proof.
  induction 1 as [|y l Hy _ IH]; simpl; [done|].
  rewrite (proj2 (Z.ltb_ge _ _)) by done. by rewrite IH.
Qed.

Lemma insert_by_sorted x l :
  StronglySorted key_le l → StronglySorted key_le (insert_by x l).
Proof.
  induction 1 as [|y l Hs IH Hy]; simpl; [by repeat constructor|].
  destruct (Z.ltb_spec (key x) (key y)).
  - constructor; [by constructor|]. constructor; [red; lia|].
    eapply Forall_impl; [exact Hy|]. unfold key_le; simpl; lia.
  - constructor; [done|]. rewrite insert_by_perm. constructor; [red; lia | done].
Qed.

Lemma foldl_insert_perm acc l :
  foldl (λ acc x, insert_by x acc) acc l ≡ₚ acc ++ l.
Proof.
  revert acc; induction l as [|x l IH]; intros acc; simpl; [by rewrite app_nil_r|].
  rewrite IH, insert_by_perm. apply (Permutation_middle acc l x).
Qed.

Lemma sort_by_key_perm l : sort_by_key l ≡ₚ l.
Proof. apply foldl_insert_perm. Qed.

Lemma sort_by_key_sorted l : StronglySorted key_le (sort_by_key l).
Proof.
  unfold sort_by_key. assert (StronglySorted key_le ([] : list A)) as H by constructor.
  revert H. generalize ([] : list A). induction l as [|x l IH]; intros acc H; simpl; [done|].
  by apply IH, insert_by_sorted.
Qed.

Lemma foldl_insert_sorted acc l :
  StronglySorted key_le (acc ++ l) →
  foldl (λ acc x, insert_by x acc) acc l = acc ++ l.
Proof.
  revert acc; induction l as [|x l IH]; intros acc H; simpl; [by rewrite app_nil_r|].
  rewrite insert_by_last.
  - rewrite IH; by rewrite <-(assoc_L (++)).
  - apply Forall_forall. intros y Hy.
    eapply (StronglySorted_app_1_elem_of key_le acc (x :: l)); set_solver.
Qed.

(** Sorting an already sorted list changes nothing (in particular not the
    order of elements with equal keys). *)
Lemma sort_by_key_id l : StronglySorted key_le l → sort_by_key l = l.
Proof. apply (foldl_insert_sorted []). Qed.

(** With distinct keys the result does not depend on the input order. *)
Lemma sort_by_key_unique l1 l2 :
  l1 ≡ₚ l2 → NoDup (key <$> l1) → sort_by_key l1 = sort_by_key l2.
Proof.
  intros Hp Hnd. apply (StronglySorted_unique_strong key_le);
    auto using sort_by_key_sorted.
  - intros x y Hx Hy Hxy Hyx.
    assert (key x = key y) as E by (unfold key_le in *; lia).
    rewrite sort_by_key_perm in Hx. rewrite sort_by_key_perm, <-Hp in Hy.
    apply list_elem_of_lookup in Hx as [i Hi]. apply list_elem_of_lookup in Hy as [j Hj].
    assert (i = j) as ->.
    { eapply NoDup_lookup; [exact Hnd | |]; rewrite list_lookup_fmap.
      - by rewrite Hi.
      - rewrite Hj. simpl. by rewrite E. }
    congruence.
  - by rewrite !sort_by_key_perm.
Qed.

End sort.

(** ** Stable sort by a comparison

    [slice::sort_by], given [lt x y] for [compare(x, y) == Less].  When the
    comparison is not a total preorder on the elements the real result is
    unspecified; the lemmas assume it is one. *)

Section sort_by.
Context {A : Type} (lt : A → A → bool).
Implicit Types (l : list A) (x y : A).

Fixpoint insert_lt x l : list A :=
  match l with
  | [] => [x]
  | y :: l => if lt x y then x :: y :: l else y :: insert_lt x l
  end.

Definition sort_by l : list A := foldl (λ acc x, insert_lt x acc) [] l.

Lemma insert_lt_perm x l : insert_lt x l ≡ₚ x :: l.
Proof.
  induction l as [|y l IH]; simpl; [done|]. case_match; [done|]. rewrite IH. constructor.
Qed.

Lemma sort_by_perm l : sort_by l ≡ₚ l.
Proof.
  unfold sort_by. assert (∀ acc, foldl (λ acc x, insert_lt x acc) acc l ≡ₚ acc ++ l) as H; [|apply H].
  induction l as [|x l IH]; intros acc; simpl; [by rewrite app_nil_r|].
  rewrite IH, insert_lt_perm. apply (Permutation_middle acc l x).
Qed.

(** On elements where [lt] is the strict part of a total preorder. *)
Context (P : A → Prop) (le : A → A → Prop).
Context (le_trans : ∀ x y z, P x → P y → P z → le x y → le y z → le x z).
Context (lt_le : ∀ x y, P x → P y → lt x y = true → le x y).
Context (not_lt_le : ∀ x y, P x → P y → lt x y = false → le y x).

Lemma insert_lt_sorted x l :
  P x → Forall P l → StronglySorted le l → StronglySorted le (insert_lt x l).
Proof.
  intros Hx Hl Hs. revert Hl. induction Hs as [|y l Hs IH Hy]; intros Hl; simpl; [by repeat constructor|].
  apply Forall_cons in Hl as [HPy Hl]. destruct (lt x y) eqn:E.
  - constructor; [by constructor|]. constructor; [by apply lt_le|].
    rewrite Forall_forall in *. intros z Hz. apply (le_trans x y z); auto.
  - constructor; [by apply IH|]. rewrite insert_lt_perm. constructor; [by apply not_lt_le | done].
Qed.

Lemma sort_by_sorted l : Forall P l → StronglySorted le (sort_by l).
Proof.
  unfold sort_by. assert (∀ acc, Forall P acc → StronglySorted le acc → Forall P l →
    StronglySorted le (foldl (λ acc x, insert_lt x acc) acc l)) as H.
  { induction l as [|x l IH]; intros acc Ha Hs Hl; simpl; [done|].
    apply Forall_cons in Hl as [Hx Hl]. apply IH; [|by apply insert_lt_sorted|done].
    rewrite insert_lt_perm. by constructor. }
  intros Hl. apply H; [constructor|constructor|done].
Qed.

End sort_by.

(** ** [BTreeMap<u64, V>] *)

Section btree.
Context {V : Type}.
Implicit Types (m : list (Z * V)).

Fixpoint btree_insert (k : Z) (v : V) m : list (Z * V) :=
  match m with
  | [] => [(k, v)]
  | (k', v') :: m' =>
    if k <? k' then (k, v) :: m
    else if k =? k' then (k, v) :: m'
    else (k', v') :: btree_insert k v m'
  end.

Fixpoint btree_get (k : Z) m : option V :=
  match m with
  | [] => None
  | (k', v') :: m' => if k =? k' then Some v' else btree_get k m'
  end.

Lemma btree_insert_last k v m :
  Forall (λ kv, kv.1 < k) m → btree_insert k v m = m ++ [(k, v)].
Proof.
  induction 1 as [|[k' v'] m Hk _ IH]; simpl in *; [done|].
  rewrite (proj2 (Z.ltb_ge _ _)), (proj2 (Z.eqb_neq _ _)) by lia. by rewrite IH.
Qed.

End btree.

(** ** Hash maps with string keys

    A [HashMap] is a finite map and an unspecified iteration order. *)

Class MapIter := map_iter (A : Type) : gmap string A → list (string * A).
#[global] Arguments map_iter {_ A} m.
Class MapIterLaws (I : MapIter) := map_iter_perm (A : Type) (m : gmap string A) : map_iter m ≡ₚ map_to_list m.

(** [iter().min_by_key(key)]: the first of the least elements. *)
Definition min_by_key {A K} (ltb : K → K → bool) (key : A → K) (l : list A) : option A :=
  match l with
  | [] => None
  | x :: l => Some (foldl (λ best y, if ltb (key y) (key best) then y else best) x l)
  end.

Lemma min_by_key_elem {A K} (ltb : K → K → bool) (key : A → K) l x : min_by_key ltb key l = Some x → x ∈ l.
Proof.
  destruct l as [|y l]; [done|]. cbn [min_by_key]. intros [= <-]. revert y.
  induction l as [|z l IH]; intros y; simpl; [by left|].
  destruct (ltb (key z) (key y)); [right; apply IH|]. specialize (IH y). apply elem_of_cons in IH as [->|?].
  - by left.
  - right. by right.
Qed.

(** When [ltb] is the strict part of a total preorder nothing is below the result. *)
Lemma min_by_key_least {A K} (ltb : K → K → bool) (key : A → K) l x :
  (∀ a b c, ltb a b = true → ltb b c = true → ltb a c = true) →
  (∀ a b c, ltb a b = false → ltb b c = false → ltb a c = false) →
  (∀ a, ltb a a = false) →
  min_by_key ltb key l = Some x → ∀ y, y ∈ l → ltb (key y) (key x) = false.
Proof.
  intros Ht Hn Hi. destruct l as [|z l]; [done|]. cbn [min_by_key]. intros [= <-].
  assert (∀ best, ltb (key best) (key (foldl (λ best y, if ltb (key y) (key best) then y else best) best l)) = false ∧
    ∀ y, y ∈ l → ltb (key y) (key (foldl (λ best y, if ltb (key y) (key best) then y else best) best l)) = false)
    as H; [|destruct (H z); intros y [->|Hy]%elem_of_cons; auto].
  induction l as [|w l IH]; intros best; simpl; [split; [apply Hi | by intros ? ?%elem_of_nil]|].
  destruct (ltb (key w) (key best)) eqn:E.
  - destruct (IH w) as [H1 H2]. split; [|by intros y [->|Hy]%elem_of_cons; auto].
    destruct (ltb (key best) _) eqn:E2; [|done]. by rewrite (Ht _ _ _ E E2) in H1.
  - destruct (IH best) as [H1 H2]. split; [done|]. intros y [->|Hy]%elem_of_cons; [|auto].
    by apply (Hn _ (key best)).
Qed.

(** ** Sorting strings *)

(** [Vec<String>::sort]: bytewise. *)
Definition str_ltb (a b : string) : bool := bool_decide (¬ String.le b a).
Definition sort_strings : list string → list string := sort_by str_ltb.

Lemma sort_strings_sorted l : StronglySorted String.le (sort_strings l).
Proof.
  apply (sort_by_sorted _ (λ _, True)); [| | |by apply Forall_true].
  - intros x y z _ _ _. by apply transitivity.
  - intros x y _ _. unfold str_ltb. rewrite bool_decide_eq_true. destruct (total String.le x y); naive_solver.
  - intros x y _ _. unfold str_ltb. rewrite bool_decide_eq_false. apply dec_stable.
Qed.

Lemma sort_strings_eq l k : sort_strings l = sort_strings k ↔ l ≡ₚ k.
Proof.
  split; intros H.
  - rewrite <- (sort_by_perm str_ltb l), <- (sort_by_perm str_ltb k). by unfold sort_strings in H; rewrite H.
  - apply (StronglySorted_unique String.le); try apply sort_strings_sorted.
    unfold sort_strings. by rewrite !sort_by_perm.
Qed.
