(* ===== verification/Float64.v ===== *)
(** * IEEE 754 binary64

    [f64] as the standard library's executable specification of floating-point
    numbers (precision 53, maximal exponent 1024): the literals, conversions,
    divisions and comparisons that the modelled code performs. *)
From S2P Require Import Prelude Collections.
From Stdlib Require Export Floats.SpecFloat.

Abbreviation f64 := spec_float.

Definition f64_of_u64 (z : Z) : f64 := binary_normalize 53 1024 z 0 false.
Definition f64_div (a b : f64) : f64 := SFdiv 53 1024 a b.
Definition f64_ltb (a b : f64) : bool := SFltb a b.
Definition f64_geb (a b : f64) : bool := SFleb b a.
Definition f64_infinity : f64 := S754_infinity false.

(** A decimal literal [n / d], correctly rounded ([n], [d] exactly representable). *)
Definition f64_lit (n d : Z) : f64 := f64_div (f64_of_u64 n) (f64_of_u64 d).

Definition f64_leb (a b : f64) : bool := SFleb a b.
Definition f64_is_nan (a : f64) : bool := match a with S754_nan => true | _ => false end.
Definition f64_neg (a : f64) : f64 := SFopp a.

(** [(lo..=hi).contains(&x)]: false for a NaN. *)
Definition f64_between (lo hi x : f64) : bool := f64_leb lo x && f64_leb x hi.

Definition f64_add (a b : f64) : f64 := SFadd 53 1024 a b.
Definition f64_sub (a b : f64) : f64 := SFsub 53 1024 a b.
Definition f64_mul (a b : f64) : f64 := SFmul 53 1024 a b.
Definition f64_sqrt (a : f64) : f64 := SFsqrt 53 1024 a.
Definition f64_zero : f64 := S754_zero false.
Definition f64_one : f64 := f64_of_u64 1.

(** [f64::max] and [f64::min]: the other argument when one is a NaN. *)
Definition f64_max (a b : f64) : f64 :=
  if f64_is_nan a then b else if f64_is_nan b then a else if f64_ltb a b then b else a.
Definition f64_min (a b : f64) : f64 :=
  if f64_is_nan a then b else if f64_is_nan b then a else if f64_ltb b a then b else a.

(** [iter().sum()]: the sum starts from negative zero. *)
Definition f64_sum (l : list f64) : f64 := foldl f64_add (S754_zero true) l.

(** [f32] numbers: binary32. *)
Abbreviation f32 := spec_float.

Definition f32_of_u64 (z : Z) : f32 := binary_normalize 24 128 z 0 false.
Definition f32_add (a b : f32) : f32 := SFadd 24 128 a b.
Definition f32_sub (a b : f32) : f32 := SFsub 24 128 a b.
Definition f32_mul (a b : f32) : f32 := SFmul 24 128 a b.
Definition f32_div (a b : f32) : f32 := SFdiv 24 128 a b.
Definition f32_sqrt (a : f32) : f32 := SFsqrt 24 128 a.
Definition f32_sum (l : list f32) : f32 := foldl f32_add (S754_zero true) l.

(** ** The order of the numbers that are not NaN

    [SFcompare] is lexicographic in the sign, the exponent and the mantissa. *)

Definition rank (a : f64) : Z * Z * Z :=
  match a with
  | S754_infinity true => (-2, 0, 0)
  | S754_finite true m e => (-1, - e, - Zpos m)
  | S754_zero _ | S754_nan => (0, 0, 0)
  | S754_finite false m e => (1, e, Zpos m)
  | S754_infinity false => (2, 0, 0)
  end.

Definition lex_lt (a b : Z * Z * Z) : Prop :=
  a.1.1 < b.1.1 ∨ (a.1.1 = b.1.1 ∧ (a.1.2 < b.1.2 ∨ (a.1.2 = b.1.2 ∧ a.2 < b.2))).

Lemma f64_ltb_rank a b :
  f64_is_nan a = false → f64_is_nan b = false → f64_ltb a b = true ↔ lex_lt (rank a) (rank b).
Proof.
  unfold f64_ltb, SFltb, lex_lt.
  destruct a as [sa|[]| |[] ma ea], b as [sb|[]| |[] mb eb]; try done; intros _ _;
    cbn [SFcompare rank fst snd]; try (split; [intros H|intros H]; first [done|lia]).
  - destruct (Z.compare_spec ea eb); [|split; [done|lia]|split; [lia|done]].
    change (Pos.compare_cont Eq ma mb) with (Pos.compare ma mb).
    destruct (Pos.compare_spec ma mb); simpl; split; first [done|lia].
  - destruct (Z.compare_spec ea eb); [|split; [lia|done]|split; [done|lia]].
    change (Pos.compare_cont Eq ma mb) with (Pos.compare ma mb).
    destruct (Pos.compare_spec ma mb); simpl; split; first [done|lia].
Qed.

Lemma f64_leb_ltb a b :
  f64_is_nan a = false → f64_is_nan b = false → f64_leb a b = negb (f64_ltb b a).
Proof.
  unfold f64_leb, f64_ltb, SFleb, SFltb.
  destruct a as [sa|[]| |[] ma ea], b as [sb|[]| |[] mb eb]; try done; intros _ _; cbn [SFcompare];
    rewrite (Z.compare_antisym ea eb); destruct (ea ?= eb); try done;
    change (Pos.compare_cont Eq ma mb) with (Pos.compare ma mb);
    change (Pos.compare_cont Eq mb ma) with (Pos.compare mb ma);
    rewrite (Pos.compare_antisym ma mb); by destruct (ma ?= mb)%positive.
Qed.

Lemma f64_leb_rank a b :
  f64_is_nan a = false → f64_is_nan b = false → f64_leb a b = true ↔ ¬ lex_lt (rank b) (rank a).
Proof.
  intros Ha Hb. rewrite f64_leb_ltb, negb_true_iff, <- not_true_iff_false by done.
  by rewrite f64_ltb_rank.
Qed.

Lemma f64_leb_total a b :
  f64_is_nan a = false → f64_is_nan b = false → f64_leb a b = true ∨ f64_leb b a = true.
Proof. intros Ha Hb. rewrite !f64_leb_rank by done. unfold lex_lt. lia. Qed.

Lemma f64_leb_trans a b c :
  f64_is_nan a = false → f64_is_nan b = false → f64_is_nan c = false →
  f64_leb a b = true → f64_leb b c = true → f64_leb a c = true.
Proof. intros Ha Hb Hc. rewrite !f64_leb_rank by done. unfold lex_lt. lia. Qed.

(** Formatting of floating-point numbers with [{}] is a parameter. *)
Class FmtF64 := fmt_f64 : f64 → string.

(** ** Ranked answers

    The [k] best of a list of candidates by a floating-point score, as [sort_by]
    and [truncate] compute them. *)

(** The answer to a query for the [k] best of a list of candidates. *)
Definition best {A} (le : A → A → Prop) (k : nat) (candidates answer : list A) : Prop :=
  length answer = (k `min` length candidates)%nat ∧
  StronglySorted le answer ∧
  ∃ rest, candidates ≡ₚ answer ++ rest ∧ ∀ a r, a ∈ answer → r ∈ rest → le a r.

Lemma best_take {A} (le : A → A → Prop) k l sorted :
  sorted ≡ₚ l → StronglySorted le sorted → best le k l (take k sorted).
Proof.
  intros Hp Hs. rewrite <- (take_drop k sorted) in Hs. split_and!.
  - by rewrite length_take, <- Hp.
  - by apply StronglySorted_app_1_l in Hs.
  - exists (drop k sorted). split; [by rewrite take_drop|]. intros a r. by apply StronglySorted_app_1_elem_of.
Qed.

Lemma best_perm {A} (le : A → A → Prop) k l l' answer : l ≡ₚ l' → best le k l answer → best le k l' answer.
Proof.
  intros Hl (Hlen & Hs & rest & Hp & Hr). split_and!; [by rewrite Hlen, Hl | done|].
  exists rest. by rewrite <- Hl.
Qed.

(** Ranking by a score that is a number. *)
Section ranking.
Context {A : Type} (score : A → f64).
Definition numbers (l : list A) : Prop := Forall (λ a, f64_is_nan (score a) = false) l.
Definition ascending (a b : A) : Prop := f64_leb (score a) (score b) = true.
Definition descending (a b : A) : Prop := f64_leb (score b) (score a) = true.

Lemma ranked_ascending k l :
  numbers l → best ascending k l (take k (sort_by (λ a b, f64_ltb (score a) (score b)) l)).
Proof.
  intros Hl. apply best_take; [apply sort_by_perm|].
  apply (sort_by_sorted _ (λ a, f64_is_nan (score a) = false)); [| | |done]; unfold ascending.
  - intros x y z ???. by apply f64_leb_trans.
  - intros x y Hx Hy Hlt. rewrite f64_leb_rank by done. apply f64_ltb_rank in Hlt; [|done..].
    unfold lex_lt in *. lia.
  - intros x y Hx Hy Hlt. by rewrite f64_leb_ltb, Hlt.
Qed.

Lemma ranked_descending k l :
  numbers l → best descending k l (take k (sort_by (λ a b, f64_ltb (score b) (score a)) l)).
Proof.
  intros Hl. apply best_take; [apply sort_by_perm|].
  apply (sort_by_sorted _ (λ a, f64_is_nan (score a) = false)); [| | |done]; unfold descending.
  - intros x y z ??? Hxy Hyz. by apply (f64_leb_trans _ (score y)).
  - intros x y Hx Hy Hlt. rewrite f64_leb_rank by done. apply f64_ltb_rank in Hlt; [|done..].
    unfold lex_lt in *. lia.
  - intros x y Hx Hy Hlt. by rewrite f64_leb_ltb, Hlt.
Qed.
End ranking.
