(* ===== verification/WalEntry.v ===== *)
(** * Write-ahead log entries ([verisim-wal/src/entry.rs], [error.rs])

    The entry record, its operation and modality codes, and the binary format
    with its length prefix and CRC32.  The crates [chrono] and [crc32fast] are
    parameters: the classes [Chrono] and [Crc32]. *)
From S2P Require Import Prelude Machine.

(** ** Third-party interfaces *)

(** [chrono::DateTime<Utc>]: [timestamp_millis] and
    [Utc.timestamp_millis_opt(..).single()]. *)
Class Chrono := {
  DateTime : Type;
  timestamp_millis : DateTime → Z;
  timestamp_millis_opt : Z → option DateTime;
}.

(** Documented behaviour: the millisecond count of a [DateTime] fits an [i64]
    and denotes a representable instant with that same millisecond count. *)
Class ChronoLaws (C : Chrono) := {
  timestamp_millis_i64 t : - 2 ^ 63 ≤ timestamp_millis t < 2 ^ 63;
  timestamp_millis_opt_some t : ∃ t',
    timestamp_millis_opt (timestamp_millis t) = Some t' ∧
    timestamp_millis t' = timestamp_millis t;
}.

(** [crc32fast::Hasher]: new, one update, finalize. *)
Class Crc32 := crc32_hash : list byte → Z.
Class Crc32Laws (K : Crc32) := crc32_u32 l : in_u 32 (crc32_hash l).

(** ** Errors *)

Inductive WalError :=
| Io (msg : string)
| CrcMismatch (sequence expected actual : Z)
| EntryTooLarge (sequence length max_length : Z)
| InvalidOperation (b : Z)
| InvalidModality (b : Z)
| TruncatedEntry (offset : Z) (segment : string)
| Json (msg : string)
| InvalidEntityId (raw : list byte)
| DirectoryNotFound (dir : string)
| UnexpectedEof (offset : Z).

(** ** Constants *)

Definition MAX_ENTRY_SIZE : Z := 64 * 1024 * 1024.
Definition HEADER_PREFIX_SIZE : nat := 4 + 4.
Definition FIXED_FIELDS_SIZE : nat := 8 + 8 + 1 + 1.

(** ** Operation and modality codes *)

Inductive WalOperation := Insert | Update | Delete | Checkpoint.

Module Op.
Definition from_byte (b : Z) : result WalError WalOperation :=
  match b with
  | 0 => Ok Insert
  | 1 => Ok Update
  | 2 => Ok Delete
  | 3 => Ok Checkpoint
  | other => Err (InvalidOperation other)
  end.
Definition to_byte (o : WalOperation) : Z :=
  match o with Insert => 0 | Update => 1 | Delete => 2 | Checkpoint => 3 end.
End Op.

Inductive WalModality :=
| Graph | Vector | Tensor | Semantic | Document | Temporal | Provenance | Spatial | All.

Module Mod.
Definition from_byte (b : Z) : result WalError WalModality :=
  match b with
  | 0 => Ok Graph
  | 1 => Ok Vector
  | 2 => Ok Tensor
  | 3 => Ok Semantic
  | 4 => Ok Document
  | 5 => Ok Temporal
  | 6 => Ok Provenance
  | 7 => Ok Spatial
  | 255 => Ok All
  | other => Err (InvalidModality other)
  end.
Definition to_byte (m : WalModality) : Z :=
  match m with
  | Graph => 0 | Vector => 1 | Tensor => 2 | Semantic => 3 | Document => 4
  | Temporal => 5 | Provenance => 6 | Spatial => 7 | All => 255
  end.
End Mod.

Global Instance WalOperation_eq_dec : EqDecision WalOperation.
Proof. solve_decision. Defined.
Global Instance WalModality_eq_dec : EqDecision WalModality.
Proof. solve_decision. Defined.

(** ** Entries *)

Section entry.
Context `{C : Chrono} `{K : Crc32}.

Record WalEntry := mkWalEntry {
  sequence : Z;
  timestamp : DateTime;
  operation : WalOperation;
  modality : WalModality;
  entity_id : string;
  payload : list byte;
}.

Definition compute_crc32 (data : list byte) : Z := crc32_hash data.

(** The bytes after the length and CRC fields. *)
Definition inner_bytes (e : WalEntry) : list byte :=
  to_le_bytes 8 (sequence e) ++
  to_le_bytes 8 (timestamp_millis (timestamp e)) ++
  [byte_of_Z (Op.to_byte (operation e))] ++
  [byte_of_Z (Mod.to_byte (modality e))] ++
  to_le_bytes 4 (wrap 32 (Z.of_nat (length (as_bytes (entity_id e))))) ++
  as_bytes (entity_id e) ++
  to_le_bytes 4 (wrap 32 (Z.of_nat (length (payload e)))) ++
  payload e.

Definition serialize (e : WalEntry) : list byte :=
  let inner := inner_bytes e in
  let crc := compute_crc32 inner in
  let entry_length := wrap 32 (Z.of_nat (4 + length inner)) in
  to_le_bytes 4 entry_length ++ to_le_bytes 4 crc ++ inner.

(** Parse the inner content.  [now] is the value [Utc::now()] would return if
    the stored timestamp were not representable. *)
Definition parse_inner (now : DateTime) (inner : list byte) : result WalError WalEntry :=
  let eof offset := UnexpectedEof (Z.of_nat offset) in
  let offset := 0%nat in
  ensure negb (length inner <? offset + 8)%nat else eof offset ;;
  let sequence := from_le_bytes (slice offset 8 inner) in
  let offset := (offset + 8)%nat in
  ensure negb (length inner <? offset + 8)%nat else eof offset ;;
  let timestamp_millis := from_le_bytes_signed (slice offset 8 inner) in
  let offset := (offset + 8)%nat in
  let timestamp := default now (timestamp_millis_opt timestamp_millis) in
  ensure negb (length inner <? offset + 1)%nat else eof offset ;;
  operation ← Op.from_byte (from_le_bytes (slice offset 1 inner));
  let offset := (offset + 1)%nat in
  ensure negb (length inner <? offset + 1)%nat else eof offset ;;
  modality ← Mod.from_byte (from_le_bytes (slice offset 1 inner));
  let offset := (offset + 1)%nat in
  ensure negb (length inner <? offset + 4)%nat else eof offset ;;
  let entity_id_len := Z.to_nat (from_le_bytes (slice offset 4 inner)) in
  let offset := (offset + 4)%nat in
  ensure negb (length inner <? offset + entity_id_len)%nat else eof offset ;;
  let raw := slice offset entity_id_len inner in
  entity_id ← ok_or (from_utf8 raw) (InvalidEntityId raw);
  let offset := (offset + entity_id_len)%nat in
  ensure negb (length inner <? offset + 4)%nat else eof offset ;;
  let payload_len := Z.to_nat (from_le_bytes (slice offset 4 inner)) in
  let offset := (offset + 4)%nat in
  ensure negb (length inner <? offset + payload_len)%nat else eof offset ;;
  let payload := slice offset payload_len inner in
  Ok (mkWalEntry sequence timestamp operation modality entity_id payload).

Definition deserialize (now : DateTime) (data : list byte) (entry_length : Z) :
    result WalError WalEntry :=
  ensure negb (wrap 32 (Z.of_nat (length data)) <? entry_length)
    else UnexpectedEof (Z.of_nat (length data)) ;;
  let data := take (Z.to_nat entry_length) data in
  ensure negb (length data <? 4)%nat else UnexpectedEof 0 ;;
  let stored_crc := from_le_bytes (slice 0 4 data) in
  let inner := drop 4 data in
  let computed_crc := compute_crc32 inner in
  if negb (stored_crc =? computed_crc) then
    let sequence := if (8 <=? length inner)%nat then from_le_bytes (slice 0 8 inner) else 0 in
    Err (CrcMismatch sequence stored_crc computed_crc)
  else parse_inner now inner.

(** ** Well-formedness and round trip *)

(** An entry that the format can represent: the sequence is a [u64], the entity
    ID is a Rust string and the length field does not wrap. *)
Definition wf_entry (e : WalEntry) : Prop :=
  in_u 64 (sequence e) ∧ utf8_string (entity_id e) = true ∧
  Z.of_nat (4 + length (inner_bytes e)) < 2 ^ 32.

(** What a reader gets back: the timestamp at millisecond precision. *)
Definition stored (now : DateTime) (e : WalEntry) : WalEntry :=
  mkWalEntry (sequence e)
    (default now (timestamp_millis_opt (timestamp_millis (timestamp e))))
    (operation e) (modality e) (entity_id e) (payload e).

Definition entry_len (e : WalEntry) : Z := Z.of_nat (4 + length (inner_bytes e)).

Lemma length_inner_bytes e :
  length (inner_bytes e) =
  (26 + length (as_bytes (entity_id e)) + length (payload e))%nat.
Proof.
  unfold inner_bytes. rewrite !length_app, !length_to_le_bytes. simpl. lia.
Qed.

Lemma length_serialize e : length (serialize e) = (8 + length (inner_bytes e))%nat.
Proof. unfold serialize. rewrite !length_app, !length_to_le_bytes. lia. Qed.

Lemma op_from_to_byte o : Op.from_byte (Op.to_byte o) = Ok o.
Proof. by destruct o. Qed.
Lemma mod_from_to_byte m : Mod.from_byte (Mod.to_byte m) = Ok m.
Proof. by destruct m. Qed.

Lemma from_le_single z : 0 ≤ z < 256 → from_le_bytes [byte_of_Z z] = z.
Proof. intros. cbn. rewrite Z_of_byte_of_Z, Z.mod_small; lia. Qed.

Lemma op_byte_range o : 0 ≤ Op.to_byte o < 256.
Proof. by destruct o. Qed.
Lemma mod_byte_range m : 0 ≤ Mod.to_byte m < 256.
Proof. by destruct m. Qed.

(** The length prefix of a block, read back. *)
Lemma from_le_len (n : nat) :
  Z.of_nat n < 2 ^ 32 → from_le_bytes (to_le_bytes 4 (wrap 32 (Z.of_nat n))) = Z.of_nat n.
Proof.
  intros. rewrite wrap_small by (unfold in_u; lia).
  apply (from_to_le_bytes_u 32); [unfold in_u; lia | done].
Qed.

(** Select one field of [inner_bytes]: skip the fields before it. *)
Ltac slice_len := rewrite ?length_to_le_bytes; cbn [length]; lia.
Ltac slice_field :=
  unfold inner_bytes; repeat (rewrite slice_skip by slice_len);
  match goal with
  | |- context [slice ?a _ _] => replace a with 0%nat by slice_len
  end;
  first [rewrite slice_head by slice_len | rewrite slice_head_nil by slice_len].

Section fields.
Context `{!ChronoLaws C} (e : WalEntry) (Hwf : wf_entry e).
Let n1 := length (as_bytes (entity_id e)).
Let n2 := length (payload e).

Lemma field_sequence : from_le_bytes (slice 0 8 (inner_bytes e)) = sequence e.
Proof. destruct Hwf. slice_field. by apply (from_to_le_bytes_u 64). Qed.

Lemma field_timestamp :
  from_le_bytes_signed (slice 8 8 (inner_bytes e)) = timestamp_millis (timestamp e).
Proof. slice_field. apply from_to_le_bytes_signed; [lia | apply timestamp_millis_i64]. Qed.

Lemma field_operation :
  from_le_bytes (slice 16 1 (inner_bytes e)) = Op.to_byte (operation e).
Proof. slice_field. apply from_le_single, op_byte_range. Qed.

Lemma field_modality :
  from_le_bytes (slice 17 1 (inner_bytes e)) = Mod.to_byte (modality e).
Proof. slice_field. apply from_le_single, mod_byte_range. Qed.

Lemma field_entity_len : from_le_bytes (slice 18 4 (inner_bytes e)) = Z.of_nat n1.
Proof.
  destruct Hwf as (_ & _ & Hlen). rewrite length_inner_bytes in Hlen.
  slice_field. apply from_le_len. lia.
Qed.

Lemma field_entity : slice 22 n1 (inner_bytes e) = as_bytes (entity_id e).
Proof. by slice_field. Qed.

Lemma field_payload_len :
  from_le_bytes (slice (22 + n1) 4 (inner_bytes e)) = Z.of_nat n2.
Proof.
  destruct Hwf as (_ & _ & Hlen). rewrite length_inner_bytes in Hlen.
  slice_field. apply from_le_len. lia.
Qed.

Lemma field_payload : slice (26 + n1) n2 (inner_bytes e) = payload e.
Proof. by slice_field. Qed.

Lemma parse_inner_bytes now : parse_inner now (inner_bytes e) = Ok (stored now e).
Proof.
  pose proof (length_inner_bytes e) as Hl. fold n1 n2 in Hl.
  assert (Hno : ∀ n, (n ≤ 26 + n1 + n2)%nat → (length (inner_bytes e) <? n)%nat = false)
    by (intros; apply Nat.ltb_ge; lia).
  unfold parse_inner. cbv zeta.
  change (0 + 8)%nat with 8%nat. change (8 + 8)%nat with 16%nat.
  change (16 + 1)%nat with 17%nat. change (17 + 1)%nat with 18%nat.
  change (18 + 4)%nat with 22%nat.
  rewrite field_sequence, field_timestamp, field_operation, field_modality,
    field_entity_len, op_from_to_byte, Nat2Z.id, field_entity, field_payload_len, Nat2Z.id.
  replace (22 + n1 + 4)%nat with (26 + n1)%nat by lia.
  rewrite field_payload, !Hno by lia.
  cbn [negb mbind result_bind]. rewrite mod_from_to_byte. cbn [mbind result_bind].
  rewrite from_utf8_as_bytes by apply Hwf. done.
Qed.

(** Deserializing what [serialize] wrote after the length field. *)
Lemma deserialize_inner `{!Crc32Laws K} now :
  deserialize now (to_le_bytes 4 (compute_crc32 (inner_bytes e)) ++ inner_bytes e)
    (entry_len e) = Ok (stored now e).
Proof.
  destruct Hwf as (_ & _ & Hlen). unfold deserialize, entry_len.
  rewrite length_app, length_to_le_bytes, wrap_small by (unfold in_u; lia).
  rewrite Z.ltb_irrefl, Nat2Z.id. cbn [negb].
  rewrite firstn_all2 by (rewrite length_app, length_to_le_bytes; lia).
  rewrite length_app, length_to_le_bytes.
  rewrite (proj2 (Nat.ltb_ge (4 + _) 4)) by lia. cbn [negb].
  rewrite slice_head by apply length_to_le_bytes.
  rewrite drop_app_length' by by rewrite length_to_le_bytes.
  rewrite (from_to_le_bytes_u 32) by (done || apply crc32_u32).
  rewrite Z.eqb_refl. apply parse_inner_bytes.
Qed.
End fields.

End entry.
