(* ===== verification/WalSegment.v ===== *)
(** * Write-ahead log segments ([verisim-wal/src/segment.rs])

    A WAL directory is a finite map from file names to files; a file is its
    bytes and the length of the prefix that the last [sync_all] made durable.
    The order in which [fs::read_dir] lists a directory is a parameter. *)
From S2P Require Import Prelude Machine Text Collections WalEntry.

Local Open Scope string_scope.
Local Open Scope Z_scope.

(** ** The directory *)

Record file := mkFile { contents : list byte; synced : nat }.

(** [fs::read_dir] yields every entry once, in an unspecified order. *)
Class ReadDir := read_dir : gmap string file → list (string * file).
Class ReadDirLaws (R : ReadDir) := read_dir_perm d : read_dir d ≡ₚ map_to_list d.

(** ** Segment metadata *)

Definition DEFAULT_MAX_SEGMENT_SIZE : Z := 64 * 1024 * 1024.
Definition SEGMENT_EXTENSION : string := "log".
Definition SEGMENT_PREFIX : string := "wal-".

(** [path] is the file's name inside the WAL directory. *)
Record SegmentInfo := mkSegmentInfo {
  path : string;
  start_sequence : Z;
  file_size : Z;
}.

Definition is_full (s : SegmentInfo) (max_size : Z) : bool := max_size <=? file_size s.

Definition segment_filename (start_sequence : Z) : string :=
  SEGMENT_PREFIX +:+ fmt_width 16 start_sequence +:+ ("." +:+ SEGMENT_EXTENSION).

Definition parse_segment_filename (name : string) : option Z :=
  stripped ← strip_prefix SEGMENT_PREFIX name;
  num_str ← strip_suffix ("." +:+ SEGMENT_EXTENSION) stripped;
  parse_u64 num_str.

Definition segment_of (f : string * file) : option SegmentInfo :=
  start ← parse_segment_filename f.1;
  Some (mkSegmentInfo f.1 start (Z.of_nat (length (contents f.2)))).

Section segments.
Context `{R : ReadDir}.
Implicit Types d : gmap string file.

(** [d = None]: [wal_dir] is not a directory. *)
Definition list_segments (wal_dir : string) (d : option (gmap string file)) :
    result WalError (list SegmentInfo) :=
  match d with
  | None => Err (DirectoryNotFound wal_dir)
  | Some d => Ok (sort_by_key start_sequence (omap segment_of (read_dir d)))
  end.

(** One step of the pruning loop over the segments listed at the start. *)
Definition prune_step (segments : list SegmentInfo) (checkpoint_sequence : Z)
    (st : gmap string file * nat) (segment : SegmentInfo) : gmap string file * nat :=
  let (d, removed) := st in
  if start_sequence segment <? checkpoint_sequence then
    let has_later_segment :=
      existsb (λ s, checkpoint_sequence <=? start_sequence s) segments in
    if has_later_segment then (delete (path segment) d, S removed) else (d, removed)
  else (d, removed).

Definition prune_segments_before (wal_dir : string) (d : option (gmap string file))
    (checkpoint_sequence : Z) : result WalError (option (gmap string file) * nat) :=
  segments ← list_segments wal_dir d;
  match d with
  | None => Err (DirectoryNotFound wal_dir)
  | Some d =>
    let (d, removed) := foldl (prune_step segments checkpoint_sequence) (d, O) segments in
    Ok (Some d, removed)
  end.

(** ** File names *)

Lemma parse_segment_filename_of n :
  in_u 64 n → parse_segment_filename (segment_filename n) = Some n.
Proof.
  intros Hn. unfold parse_segment_filename, segment_filename.
  rewrite strip_prefix_app. cbn [mbind option_bind].
  rewrite strip_suffix_app. cbn [mbind option_bind].
  by apply parse_fmt_width.
Qed.

Lemma segment_filename_inj n m :
  in_u 64 n → in_u 64 m → segment_filename n = segment_filename m → n = m.
Proof.
  intros Hn Hm E%(f_equal parse_segment_filename).
  rewrite !parse_segment_filename_of in E by done. congruence.
Qed.

(** ** Listing *)

Lemma segment_of_Some name f s :
  segment_of (name, f) = Some s ↔
  parse_segment_filename name = Some (start_sequence s) ∧ path s = name ∧
  file_size s = Z.of_nat (length (contents f)).
Proof.
  unfold segment_of. simpl. destruct s as [p st sz]. simpl.
  destruct (parse_segment_filename name); simpl; naive_solver.
Qed.

Lemma elem_of_list_segments `{!ReadDirLaws R} w d l s :
  list_segments w (Some d) = Ok l →
  s ∈ l ↔ ∃ f, d !! path s = Some f ∧
            parse_segment_filename (path s) = Some (start_sequence s) ∧
            file_size s = Z.of_nat (length (contents f)).
Proof.
  unfold list_segments. intros [= <-].
  rewrite sort_by_key_perm, list_elem_of_omap. split.
  - intros ([name f] & Hin & Hs). rewrite read_dir_perm in Hin.
    apply elem_of_map_to_list in Hin. apply segment_of_Some in Hs as (? & <- & ?). eauto.
  - intros (f & Hf & Hp & Hsz). exists (path s, f).
    rewrite read_dir_perm, elem_of_map_to_list, segment_of_Some. auto.
Qed.

Lemma list_segments_sorted w (d : option (gmap string file)) l :
  list_segments w d = Ok l → StronglySorted (key_le start_sequence) l.
Proof. destruct d; simpl; [intros [= <-]; apply sort_by_key_sorted | done]. Qed.

(** ** Pruning *)

Lemma foldl_prune segments ckpt d n todo :
  foldl (prune_step segments ckpt) (d, n) todo =
  if existsb (λ s, ckpt <=? start_sequence s) segments then
    let gone := retain (λ s, start_sequence s <? ckpt) todo in
    (foldl (λ d s, delete (path s) d) d gone, (n + length gone)%nat)
  else (d, n).
Proof.
  revert d n; induction todo as [|s todo IH]; intros d n; simpl.
  - case_match; [by rewrite Nat.add_0_r | done].
  - destruct (existsb _ _) eqn:E2; destruct (start_sequence s <? ckpt) eqn:E1;
      rewrite IH; try done. simpl. f_equal. lia.
Qed.

Lemma lookup_foldl_delete (d : gmap string file) (l : list SegmentInfo) name :
  foldl (λ d s, delete (path s) d) d l !! name =
  if decide (name ∈ path <$> l) then None else d !! name.
Proof.
  revert d; induction l as [|s l IH]; intros d; simpl; [done|].
  rewrite IH. destruct (decide (name = path s)) as [->|].
  - rewrite lookup_delete_eq. repeat case_decide; set_solver.
  - rewrite lookup_delete_ne by done. repeat case_decide; set_solver.
Qed.

End segments.
