(* ===== verification/WalReader.v ===== *)
(** * Reading the write-ahead log ([verisim-wal/src/reader.rs])

    Segment scanning, replay, checkpoint search and the replay iterator, with
    the crash theorem: whatever prefix of the written bytes survives, the reader
    returns exactly the entries that survived completely. *)
From S2P Require Import Prelude Machine Text Collections WalEntry WalSegment.

Section reader.
Context `{C : Chrono} `{K : Crc32} `{R : ReadDir}.

(** ** [read_segment_entries] *)

(** The loop body at [offset], as a recursive function.  The result of one
    scan; [None] only when [fuel] runs out. *)
Fixpoint read_loop (fuel : nat) (now : DateTime) (data : list byte) (offset : nat)
    (entries : list WalEntry) : option (list WalEntry) :=
  match fuel with
  | O => None
  | S fuel =>
    if (offset + 4 <=? length data)%nat then
      let entry_length := from_le_bytes (slice offset 4 data) in
      if entry_length =? 0 then Some entries
      else if MAX_ENTRY_SIZE <? entry_length then Some entries
      else
        let entry_end := (offset + 4 + Z.to_nat entry_length)%nat in
        if (length data <? entry_end)%nat then Some entries
        else
          let entry_data := slice (offset + 4) (Z.to_nat entry_length) data in
          match deserialize now entry_data entry_length with
          | Ok entry => read_loop fuel now data entry_end (entries ++ [entry])
          | Err (CrcMismatch _ _ _) => read_loop fuel now data entry_end entries
          | Err _ => read_loop fuel now data entry_end entries
          end
    else Some entries
  end.

(** Every iteration that continues advances by at least five bytes, so one
    unit of fuel per byte is enough ([read_loop_total]). *)
Definition scan (now : DateTime) (data : list byte) : list WalEntry :=
  default [] (read_loop (S (length data)) now data 0 []).

(** [fs::read(path)?] then the loop. *)
Definition read_segment_entries (now : DateTime) (d : gmap string file) (p : string) :
    result WalError (list WalEntry) :=
  f ← ok_or (d !! p) (Io "No such file or directory");
  Ok (scan now (contents f)).

(** ** [WalReader] *)

Record WalReader := mkWalReader { wal_dir : string }.

Definition reader_open (dir : string) (d : option (gmap string file)) : result WalError WalReader :=
  match d with
  | None => Err (DirectoryNotFound dir)
  | Some _ => Ok (mkWalReader dir)
  end.

Record WalEntryIterator := mkIter { entries : list WalEntry; position : nat }.

Fixpoint collect_entries (now : DateTime) (d : gmap string file) (from_sequence : Z)
    (segments : list SegmentInfo) (all_entries : list WalEntry) :
    result WalError (list WalEntry) :=
  match segments with
  | [] => Ok all_entries
  | segment :: segments =>
    es ← read_segment_entries now d (path segment);
    collect_entries now d from_sequence segments
      (all_entries ++ retain (λ e, from_sequence <=? sequence e) es)
  end.

Definition replay_from (now : DateTime) (r : WalReader) (d : option (gmap string file))
    (from_sequence : Z) : result WalError WalEntryIterator :=
  segments ← list_segments (wal_dir r) d;
  all_entries ← collect_entries now (default ∅ d) from_sequence segments [];
  Ok (mkIter (sort_by_key sequence all_entries) 0).

Definition replay_all (now : DateTime) (r : WalReader) (d : option (gmap string file)) :
    result WalError WalEntryIterator :=
  replay_from now r d 0.

(** The inner loop over one segment's entries, already reversed. *)
Fixpoint last_checkpoint_in (es : list WalEntry) (last_checkpoint : option Z) : option (option Z) :=
  match es with
  | [] => None
  | entry :: es =>
    if decide (operation entry = Checkpoint) then
      Some (match last_checkpoint with
            | Some existing =>
              if existing <? sequence entry then Some (sequence entry) else last_checkpoint
            | None => Some (sequence entry)
            end)
    else last_checkpoint_in es last_checkpoint
  end.

Fixpoint find_checkpoint_rev (now : DateTime) (d : gmap string file)
    (segments_rev : list SegmentInfo) (last_checkpoint : option Z) :
    result WalError (option Z) :=
  match segments_rev with
  | [] => Ok last_checkpoint
  | segment :: rest =>
    es ← read_segment_entries now d (path segment);
    match last_checkpoint_in (reverse es) last_checkpoint with
    | Some found => Ok found
    | None => find_checkpoint_rev now d rest last_checkpoint
    end
  end.

Definition find_last_checkpoint (now : DateTime) (r : WalReader) (d : option (gmap string file)) :
    result WalError (option Z) :=
  segments ← list_segments (wal_dir r) d;
  find_checkpoint_rev now (default ∅ d) (reverse segments) None.

Fixpoint count_entries (now : DateTime) (d : gmap string file) (segments : list SegmentInfo)
    (count : nat) : result WalError nat :=
  match segments with
  | [] => Ok count
  | segment :: segments =>
    es ← read_segment_entries now d (path segment);
    count_entries now d segments (count + length es)
  end.

Definition entry_count (now : DateTime) (r : WalReader) (d : option (gmap string file)) :
    result WalError nat :=
  segments ← list_segments (wal_dir r) d;
  count_entries now (default ∅ d) segments 0.

(** ** [Iterator for WalEntryIterator] *)

Definition next (it : WalEntryIterator) : option WalEntry * WalEntryIterator :=
  if (position it <? length (entries it))%nat then
    (entries it !! position it, mkIter (entries it) (position it + 1))
  else (None, it).

Definition size_hint (it : WalEntryIterator) : nat * option nat :=
  let remaining := (length (entries it) - position it)%nat in
  (remaining, Some remaining).

(** ** Termination *)

Lemma read_loop_total fuel now data offset acc :
  (offset ≤ length data < fuel + offset)%nat →
  is_Some (read_loop fuel now data offset acc).
Proof.
  revert offset acc; induction fuel as [|fuel IH]; intros offset acc Hf; cbn [read_loop];
    [lia|].
  pose proof (from_le_bytes_range (slice offset 4 data)).
  destruct (offset + 4 <=? length data)%nat; [|done].
  destruct (Z.eqb_spec (from_le_bytes (slice offset 4 data)) 0); [done|].
  destruct (MAX_ENTRY_SIZE <? _); [done|].
  destruct (Nat.ltb_spec (length data) (offset + 4 + Z.to_nat (from_le_bytes (slice offset 4 data)))); [done|].
  repeat case_match; apply IH; lia.
Qed.

(** ** One complete entry, and the places where the scan stops *)

(** Entries that the writer can log and the reader accepts. *)
Definition readable (e : WalEntry) : Prop := wf_entry e ∧ entry_len e ≤ MAX_ENTRY_SIZE.

Definition log_bytes (es : list WalEntry) : list byte := mjoin (serialize <$> es).

Lemma log_bytes_app es1 es2 : log_bytes (es1 ++ es2) = log_bytes es1 ++ log_bytes es2.
Proof. unfold log_bytes. by rewrite fmap_app, join_app. Qed.

Lemma log_bytes_snoc es e : log_bytes (es ++ [e]) = log_bytes es ++ serialize e.
Proof. rewrite log_bytes_app. unfold log_bytes at 2. simpl. by rewrite app_nil_r. Qed.

Lemma serialize_split e :
  serialize e = to_le_bytes 4 (wrap 32 (entry_len e)) ++
                to_le_bytes 4 (compute_crc32 (inner_bytes e)) ++ inner_bytes e.
Proof. done. Qed.

(** What the scan sees at an offset only depends on the bytes from there. *)
Lemma header_at (pre rest : list byte) :
  slice (length pre) 4 (pre ++ rest) = take 4 (rest : list byte).
Proof. rewrite slice_skip, Nat.sub_diag by lia. unfold slice. by rewrite drop_0. Qed.

(** A length-prefixed block, whatever its content. *)
Definition block (body : list byte) : list byte :=
  to_le_bytes 4 (wrap 32 (Z.of_nat (length body))) ++ body.

Definition block_entries (now : DateTime) (body : list byte) : list WalEntry :=
  match deserialize now body (Z.of_nat (length body)) with Ok e => [e] | Err _ => [] end.

Lemma read_loop_block fuel now pre body rest acc :
  0 < Z.of_nat (length body) ≤ MAX_ENTRY_SIZE →
  read_loop (S fuel) now (pre ++ block body ++ rest) (length pre) acc =
  read_loop fuel now (pre ++ block body ++ rest) (length (pre ++ block body))
    (acc ++ block_entries now body).
Proof.
  intros Hb. cbn [read_loop]. unfold block_entries.
  assert (Hl : length (block body) = (4 + length body)%nat)
    by (unfold block; by rewrite length_app, length_to_le_bytes).
  assert (Hh : from_le_bytes (slice (length pre) 4 (pre ++ block body ++ rest)) =
               Z.of_nat (length body)).
  { rewrite header_at. unfold block.
    rewrite <-(assoc_L (++)), take_app_le by (rewrite length_to_le_bytes; lia).
    rewrite firstn_all2 by (rewrite length_to_le_bytes; lia).
    apply from_le_len. unfold MAX_ENTRY_SIZE in Hb. lia. }
  rewrite Hh, (proj2 (Nat.leb_le _ _)) by (rewrite !length_app; lia).
  rewrite (proj2 (Z.eqb_neq _ _)), (proj2 (Z.ltb_ge _ _)) by lia.
  rewrite Nat2Z.id, (proj2 (Nat.ltb_ge _ _)) by (rewrite !length_app; lia).
  replace (slice (length pre + 4) _ _) with body.
  2: { unfold block. rewrite <-(assoc_L (++)), (assoc_L (++) pre), slice_skip;
         rewrite length_app, length_to_le_bytes; [|lia].
       by rewrite Nat.sub_diag, slice_head. }
  rewrite length_app, Hl, Nat.add_assoc.
  destruct (deserialize _ _ _) as [e|[]]; by rewrite ?app_nil_r.
Qed.

Lemma serialize_block e :
  wf_entry e →
  serialize e = block (to_le_bytes 4 (compute_crc32 (inner_bytes e)) ++ inner_bytes e).
Proof.
  intros. rewrite serialize_split. unfold block, entry_len.
  by rewrite length_app, length_to_le_bytes.
Qed.

Lemma read_loop_entry `{!ChronoLaws C} `{!Crc32Laws K} fuel now pre e rest acc :
  readable e →
  read_loop (S fuel) now (pre ++ serialize e ++ rest) (length pre) acc =
  read_loop fuel now (pre ++ serialize e ++ rest) (length (pre ++ serialize e))
    (acc ++ [stored now e]).
Proof.
  intros [Hwf Hmax]. unfold entry_len in Hmax. rewrite serialize_block by done.
  rewrite read_loop_block by (rewrite length_app, length_to_le_bytes; lia).
  pose proof (deserialize_inner e Hwf now) as Hd. unfold entry_len in Hd.
  unfold block_entries.
  replace (length (to_le_bytes 4 _ ++ _)) with (4 + length (inner_bytes e))%nat
    by by rewrite length_app, length_to_le_bytes.
  by rewrite Hd.
Qed.

(** Tails at which the scan stops without reading anything more. *)
Definition stops (now : DateTime) (tail : list byte) : Prop :=
  ∀ fuel pre acc, read_loop (S fuel) now (pre ++ tail) (length pre) acc = Some acc.

(** A torn tail: too short for a length field, or shorter than the entry whose
    length field it begins with. *)
Definition torn (tail : list byte) : Prop :=
  (length tail < 4)%nat ∨
  (4 ≤ length tail)%nat ∧ ∃ e, wf_entry e ∧
    take 4 tail = take 4 (serialize e) ∧ (length tail < length (serialize e))%nat.

Lemma take_header e :
  take 4 (serialize e) = to_le_bytes 4 (wrap 32 (entry_len e)).
Proof.
  rewrite serialize_split, take_app_le by (rewrite length_to_le_bytes; lia).
  apply firstn_all2. rewrite length_to_le_bytes. lia.
Qed.

Lemma header_of_entry e : wf_entry e → from_le_bytes (take 4 (serialize e)) = entry_len e.
Proof. intros (_ & _ & Hlen). rewrite take_header. apply from_le_len. lia. Qed.

Lemma torn_header tail :
  torn tail → (4 ≤ length tail)%nat →
  (length tail < 4 + Z.to_nat (from_le_bytes (take 4 tail)))%nat.
Proof.
  intros [?|(_ & e & Hwf & -> & Hl)] ?; [lia|]. rewrite header_of_entry by done.
  rewrite length_serialize in Hl. unfold entry_len. lia.
Qed.

Lemma torn_stops now tail : torn tail → stops now tail.
Proof.
  intros Ht fuel pre acc. cbn [read_loop]. rewrite length_app.
  destruct (Nat.leb_spec (length pre + 4) (length pre + length tail)) as [Hl|]; [|done].
  rewrite header_at. pose proof (torn_header tail Ht ltac:(lia)).
  destruct (_ =? 0); [done|]. destruct (MAX_ENTRY_SIZE <? _); [done|].
  rewrite (proj2 (Nat.ltb_lt _ _)) by lia. done.
Qed.

Lemma torn_nil : torn [].
Proof. left. simpl. lia. Qed.

Lemma torn_take e k : wf_entry e → (k < length (serialize e))%nat → torn (take k (serialize e)).
Proof.
  intros Hwf Hk. destruct (decide (k < 4)%nat) as [|Hk4].
  - left. rewrite length_take. lia.
  - right. rewrite length_take, take_take. split; [lia|]. exists e.
    rewrite Nat.min_l by lia. split_and!; try done. lia.
Qed.

(** Bytes written after a torn tail, as long as the whole is still shorter than
    the torn entry, are a torn tail again. *)
Lemma torn_app e k junk :
  wf_entry e → (4 ≤ k)%nat → (k + length junk < length (serialize e))%nat →
  torn (take k (serialize e) ++ junk).
Proof.
  intros Hwf Hk Hl. right. rewrite length_app, length_take. split; [lia|]. exists e.
  rewrite take_app_le, take_take, Nat.min_l by (rewrite ?length_take; lia).
  split_and!; try done. lia.
Qed.

(** ** Scanning a log *)

Lemma read_loop_log `{!ChronoLaws C} `{!Crc32Laws K} now es fuel pre tail acc :
  Forall readable es → stops now tail → (length es < fuel)%nat →
  read_loop fuel now (pre ++ log_bytes es ++ tail) (length pre) acc =
  Some (acc ++ (stored now <$> es)).
Proof.
  intros Hes Htail. revert fuel pre acc.
  induction Hes as [|e es He Hes IH]; intros fuel pre acc Hf;
    (destruct fuel as [|fuel]; [simpl in Hf; lia|]).
  - simpl. rewrite app_nil_r. apply Htail.
  - change (log_bytes (e :: es)) with (serialize e ++ log_bytes es).
    rewrite <-(assoc_L (++) (serialize e)), read_loop_entry by done.
    rewrite (assoc_L (++) pre), IH by (simpl in Hf; lia).
    f_equal. rewrite <-(assoc_L (++)). done.
Qed.

Lemma length_log_bytes es : (length es ≤ length (log_bytes es))%nat.
Proof.
  induction es as [|e es IH]; [done|].
  change (log_bytes (e :: es)) with (serialize e ++ log_bytes es).
  rewrite length_app, length_serialize. simpl. lia.
Qed.

Lemma scan_log `{!ChronoLaws C} `{!Crc32Laws K} now es tail :
  Forall readable es → stops now tail →
  scan now (log_bytes es ++ tail) = stored now <$> es.
Proof.
  intros Hes Htail. unfold scan.
  change 0%nat with (length (@nil byte)).
  change (log_bytes es ++ tail) with ([] ++ log_bytes es ++ tail).
  rewrite read_loop_log; [done..|]. simpl.
  rewrite length_app. pose proof (length_log_bytes es). lia.
Qed.

(** A block whose content does not deserialize is skipped; the entries before
    and after it are returned. *)
Lemma scan_skips_block `{!ChronoLaws C} `{!Crc32Laws K} now es1 body es2 tail err :
  Forall readable es1 → Forall readable es2 → stops now tail →
  0 < Z.of_nat (length body) ≤ MAX_ENTRY_SIZE →
  deserialize now body (Z.of_nat (length body)) = Err err →
  scan now (log_bytes es1 ++ block body ++ log_bytes es2 ++ tail) =
  (stored now <$> es1) ++ (stored now <$> es2).
Proof.
  intros H1 H2 Htail Hb Herr. unfold scan. pose proof (length_log_bytes es1) as Hl1.
  pose proof (length_log_bytes es2) as Hl2.
  set (data := log_bytes es1 ++ block body ++ log_bytes es2 ++ tail).
  assert (Hd : (length es1 + 1 + length es2 ≤ length data)%nat)
    by (unfold data, block; rewrite !length_app, length_to_le_bytes; lia).
  replace (S (length data)) with
    (length es1 + S (S (length data - length es1 - 1)))%nat by lia.
  assert (Hpre : ∀ fuel pre rest acc,
    read_loop (length es1 + fuel) now (pre ++ log_bytes es1 ++ rest) (length pre) acc =
    read_loop fuel now (pre ++ log_bytes es1 ++ rest) (length (pre ++ log_bytes es1))
      (acc ++ (stored now <$> es1))).
  { clear -H1 ChronoLaws0 Crc32Laws0. induction H1 as [|e es He Hes IH]; intros fuel pre rest acc.
    - simpl. by rewrite !app_nil_r.
    - change (log_bytes (e :: es)) with (serialize e ++ log_bytes es).
      cbn [length Nat.add]. rewrite <-(assoc_L (++) (serialize e)), read_loop_entry by done.
      rewrite (assoc_L (++) pre), IH. f_equal; by rewrite <-!(assoc_L (++)). }
  specialize (Hpre (S (S (length data - length es1 - 1))) []
    (block body ++ log_bytes es2 ++ tail) []).
  cbn [app length] in Hpre. unfold data at 2. rewrite Hpre.
  rewrite read_loop_block by done. unfold block_entries. rewrite Herr, app_nil_r.
  rewrite (assoc_L (++) (log_bytes es1)), read_loop_log; [done..|lia].
Qed.

(** ** Crashes: an arbitrary prefix of the log survives *)

(** How many entries lie completely within the first [k] bytes. *)
Fixpoint complete (k : nat) (es : list WalEntry) : nat :=
  match es with
  | [] => 0
  | e :: es =>
    if (length (serialize e) <=? k)%nat then S (complete (k - length (serialize e)) es) else 0
  end.

Lemma take_log_bytes k es :
  Forall readable es →
  ∃ tail, take k (log_bytes es) = log_bytes (take (complete k es) es) ++ tail ∧ torn tail.
Proof.
  intros Hes. revert k. induction Hes as [|e es [He _] Hes IH]; intros k.
  - exists []. split; [by destruct k | apply torn_nil].
  - change (log_bytes (e :: es)) with (serialize e ++ log_bytes es). cbn [complete].
    destruct (Nat.leb_spec (length (serialize e)) k).
    + destruct (IH (k - length (serialize e))%nat) as (tail & Ht & Hs).
      exists tail. split; [|done]. rewrite take_app_ge, Ht by lia.
      cbn [take]. change (log_bytes (e :: ?l)) with (serialize e ++ log_bytes l).
      by rewrite (assoc_L (++)).
    + exists (take k (serialize e)). rewrite take_app_le by lia. split; [done|].
      apply torn_take; [done | lia].
Qed.

Lemma scan_crash_prefix `{!ChronoLaws C} `{!Crc32Laws K} now es k :
  Forall readable es →
  scan now (take k (log_bytes es)) = stored now <$> take (complete k es) es.
Proof.
  intros Hes. destruct (take_log_bytes k es Hes) as (tail & -> & Ht).
  apply scan_log; [by apply Forall_take | by apply torn_stops].
Qed.

(** Bytes of a complete prefix of the log keep its entries. *)
Lemma complete_log_bytes k es1 es2 :
  (length (log_bytes es1) ≤ k)%nat → (length es1 ≤ complete k (es1 ++ es2))%nat.
Proof.
  revert k; induction es1 as [|e es1 IH]; intros k Hk; [simpl; lia|].
  cbn [app complete length].
  change (log_bytes (e :: es1)) with (serialize e ++ log_bytes es1) in Hk.
  rewrite length_app in Hk. rewrite (proj2 (Nat.leb_le _ _)) by lia.
  apply le_n_S, IH. lia.
Qed.

End reader.
