(* ===== verification/WalWriter.v ===== *)
(** * Writing the write-ahead log ([verisim-wal/src/writer.rs])

    The append-only writer over the directory model of [WalSegment]: opening,
    appending with rotation, checkpoints, sync modes, and crashes. *)
From S2P Require Import Prelude Machine Text Collections WalEntry WalSegment WalReader.

Local Open Scope string_scope.
Local Open Scope Z_scope.

Section writer.
Context `{C : Chrono} `{K : Crc32} `{R : ReadDir}.

(** ** State *)

Inductive SyncMode := Fsync | Periodic (interval : Z) | Async.

(** Instants and durations are nanoseconds.  The open file handle is the name
    of the file it was opened on. *)
Record WalWriter := mkWalWriter {
  w_wal_dir : string;
  current_file : string;
  current_segment : SegmentInfo;
  next_sequence : Z;
  max_segment_size : Z;
  sync_mode : SyncMode;
  last_sync : Z;
}.

Record World := mkWorld { writer : WalWriter; disk : gmap string file }.

Definition set_next (n : Z) (w : World) : World :=
  let wr := writer w in
  mkWorld (mkWalWriter (w_wal_dir wr) (current_file wr) (current_segment wr) n
             (max_segment_size wr) (sync_mode wr) (last_sync wr)) (disk w).
Definition set_last_sync (t : Z) (w : World) : World :=
  let wr := writer w in
  mkWorld (mkWalWriter (w_wal_dir wr) (current_file wr) (current_segment wr)
             (next_sequence wr) (max_segment_size wr) (sync_mode wr) t) (disk w).
Definition set_segment (h : string) (s : SegmentInfo) (w : World) : World :=
  let wr := writer w in
  mkWorld (mkWalWriter (w_wal_dir wr) h s (next_sequence wr)
             (max_segment_size wr) (sync_mode wr) (last_sync wr)) (disk w).
Definition set_disk (d : gmap string file) (w : World) : World := mkWorld (writer w) d.

(** ** System calls and their failures *)

(** [write_all] either writes everything or fails after some bytes. *)
Inductive write_outcome := Written | WriteFailed (k : nat).

(** What the operating system answers during one call of the writer, and the
    clock readings it gets ([elapsed] compares [instant] with [last_sync]). *)
Record Sys := mkSys {
  instant : Z;
  rotate_sync_ok : bool;
  create_ok : bool;
  write : write_outcome;
  sync_ok : bool;
  final_sync_ok : bool;
}.

Definition io_ok (instant : Z) : Sys := mkSys instant true true Written true true.

Abbreviation WM := (SR World WalError).

Definition sync_all (ok : bool) : WM unit :=
  if ok then
    sr_modify (λ w, set_disk (alter (λ f, mkFile (contents f) (length (contents f)))
                                (current_file (writer w)) (disk w)) w)
  else sr_fail (Io "sync").

Definition create (ok : bool) (name : string) : WM unit :=
  if ok then sr_modify (λ w, set_disk (<[name := mkFile [] 0]> (disk w)) w)
  else sr_fail (Io "create").

Definition append_bytes (bytes : list byte) (w : World) : World :=
  set_disk (alter (λ f, mkFile (contents f ++ bytes) (synced f))
              (current_file (writer w)) (disk w)) w.

Definition write_all (out : write_outcome) (bytes : list byte) : WM unit :=
  match out with
  | Written => sr_modify (append_bytes bytes)
  | WriteFailed k => _ ← sr_modify (append_bytes (take k bytes)); sr_fail (Io "write")
  end.

(** ** Operations *)

Definition sync (io_sync_ok : bool) (t : Z) : WM unit :=
  _ ← sync_all io_sync_ok; sr_modify (set_last_sync t).

Definition rotate (io : Sys) : WM unit :=
  _ ← sync (rotate_sync_ok io) (instant io);
  w ← sr_get;
  let new_start := next_sequence (writer w) in
  let new_path := segment_filename new_start in
  _ ← create (create_ok io) new_path;
  sr_modify (set_segment new_path (mkSegmentInfo new_path new_start 0)).

Definition maybe_sync (io : Sys) : WM unit :=
  w ← sr_get;
  match sync_mode (writer w) with
  | Fsync => sync (sync_ok io) (instant io)
  | Periodic interval =>
    sr_when (interval <=? saturating_sub (instant io) (last_sync (writer w)))
      (sync (sync_ok io) (instant io))
  | Async => mret ()
  end.

Definition with_sequence (n : Z) (e : WalEntry) : WalEntry :=
  mkWalEntry n (timestamp e) (operation e) (modality e) (entity_id e) (payload e).

Definition grow_segment (n : Z) (w : World) : World :=
  let s := current_segment (writer w) in
  set_segment (current_file (writer w))
    (mkSegmentInfo (path s) (start_sequence s) (wrap 64 (file_size s + n))) w.

Definition append (io : Sys) (entry : WalEntry) : WM Z :=
  w ← sr_get;
  let sequence := next_sequence (writer w) in
  let entry := with_sequence sequence entry in
  _ ← sr_modify (set_next (wrap 64 (next_sequence (writer w) + 1)));
  let bytes := serialize entry in
  let len := Z.of_nat (length bytes) in
  _ ← sr_when (max_segment_size (writer w) <?
                 wrap 64 (file_size (current_segment (writer w)) + len)) (rotate io);
  _ ← write_all (write io) bytes;
  _ ← sr_modify (grow_segment len);
  _ ← maybe_sync io;
  mret sequence.

Definition checkpoint_entry (now : DateTime) : WalEntry :=
  mkWalEntry 0 now Checkpoint All "" [].

Definition checkpoint (io : Sys) (now : DateTime) : WM Z :=
  sequence ← append io (checkpoint_entry now);
  _ ← sync (final_sync_ok io) (instant io);
  mret sequence.

(** The loop of [scan_last_sequence]; [None] only when [fuel] runs out, which it
    does not with a unit per byte ([scan_sequence_total]). *)
Fixpoint scan_sequence_loop (fuel : nat) (data : list byte) (offset : nat)
    (last_sequence : Z) : option Z :=
  match fuel with
  | O => None
  | S fuel =>
    if (offset + 4 <=? length data)%nat then
      let entry_length := Z.to_nat (from_le_bytes (slice offset 4 data)) in
      if (length data <? offset + 4 + entry_length)%nat then Some last_sequence
      else
        let inner_start := (offset + 4 + 4)%nat in
        let last_sequence :=
          if (inner_start + 8 <=? length data)%nat then
            let seq := from_le_bytes (slice inner_start 8 data) in
            if last_sequence <=? seq then seq else last_sequence
          else last_sequence in
        scan_sequence_loop fuel data (offset + (4 + entry_length)) last_sequence
    else Some last_sequence
  end.

Definition scan_last_sequence (d : gmap string file) (segment : SegmentInfo) :
    result WalError Z :=
  if file_size segment =? 0 then Ok (wrap 64 (start_sequence segment + 1))
  else
    f ← ok_or (d !! path segment) (Io "No such file or directory");
    let data := contents f in
    let last := default (start_sequence segment)
                  (scan_sequence_loop (S (length data)) data 0 (start_sequence segment)) in
    Ok (wrap 64 (last + 1)).

(** [wal_dir] missing ([d = None]) is created empty. *)
Definition open_with_max_size (t : Z) (wal_dir : string) (d : option (gmap string file))
    (mode : SyncMode) (max_segment_size : Z) : result WalError World :=
  let d := default ∅ d in
  segments ← list_segments wal_dir (Some d);
  match last segments with
  | None =>
    let start_seq := 0 in
    let path := segment_filename start_seq in
    Ok (mkWorld (mkWalWriter wal_dir path (mkSegmentInfo path start_seq 0) 1
                   max_segment_size mode t) (<[path := mkFile [] 0]> d))
  | Some last =>
    next_seq ← scan_last_sequence d last;
    Ok (mkWorld (mkWalWriter wal_dir (path last) last next_seq
                   max_segment_size mode t) d)
  end.

Definition open (t : Z) (wal_dir : string) (d : option (gmap string file)) (mode : SyncMode) :
    result WalError World :=
  open_with_max_size t wal_dir d mode DEFAULT_MAX_SEGMENT_SIZE.

(** ** Crashes *)

(** A crash keeps at least the synced prefix of every file, and at most what was
    written; [keep] says how much the operating system happened to flush. *)
Definition crash_file (k : nat) (f : file) : file :=
  let n := Nat.min (Nat.max k (synced f)) (length (contents f)) in
  mkFile (take n (contents f)) n.
Definition crash (keep : string → nat) (d : gmap string file) : gmap string file :=
  map_imap (λ name f, Some (crash_file (keep name) f)) d.

End writer.
