(* ===== verification/WalLog.v ===== *)
(** * The write-ahead log as an append-only sequence of entries

    The abstract log, the representation of a WAL directory as a list of
    segments, and the refinement: writing, crashing, reopening and replaying act
    on the abstract sequence. *)
From S2P Require Import Prelude Machine Text Collections WalEntry WalSegment WalReader WalWriter.

Local Open Scope Z_scope.

Section log.
Context `{C : Chrono} `{K : Crc32} `{R : ReadDir}.
Context `{!ChronoLaws C} `{!Crc32Laws K} `{!ReadDirLaws R}.

(** ** Directories made of segments *)

(** A segment file: complete entries, then possibly a torn tail. *)
Record seg := mkSeg {
  sg_start : Z;
  sg_entries : list WalEntry;
  sg_tail : list byte;
  sg_synced : nat;
}.

Definition seg_name (s : seg) : string := segment_filename (sg_start s).
Definition seg_bytes (s : seg) : list byte := log_bytes (sg_entries s) ++ sg_tail s.
Definition seg_file (s : seg) : file := mkFile (seg_bytes s) (sg_synced s).
Definition seg_info (s : seg) : SegmentInfo :=
  mkSegmentInfo (seg_name s) (sg_start s) (Z.of_nat (length (seg_bytes s))).

(** Segments are listed newest first. *)
Definition dir_of (segs : list seg) : gmap string file :=
  list_to_map ((λ s, (seg_name s, seg_file s)) <$> segs).

Definition newer (a b : seg) : Prop := sg_start b < sg_start a.
Definition wf_segs (segs : list seg) : Prop :=
  StronglySorted newer segs ∧ Forall (λ s, in_u 64 (sg_start s)) segs.

(** The entries of a directory, oldest first. *)
Definition seg_log (segs : list seg) : list WalEntry := mjoin (sg_entries <$> reverse segs).

Definition seg_ok (s : seg) : Prop := Forall readable (sg_entries s) ∧ torn (sg_tail s).

Lemma seg_log_cons s segs : seg_log (s :: segs) = seg_log segs ++ sg_entries s.
Proof.
  unfold seg_log. rewrite reverse_cons, fmap_app, join_app. simpl. by rewrite app_nil_r.
Qed.

Lemma wf_segs_cons s segs :
  wf_segs (s :: segs) ↔ wf_segs segs ∧ in_u 64 (sg_start s) ∧ Forall (newer s) segs.
Proof.
  unfold wf_segs. split.
  - intros [H1 H2]. inversion H1; inversion H2; subst. auto.
  - intros ([H1 H2] & H3 & H4). split; by constructor.
Qed.

Lemma seg_name_fresh s segs :
  wf_segs (s :: segs) → seg_name s ∉ seg_name <$> segs.
Proof.
  intros (Hw & Hs & Hn)%wf_segs_cons (s' & E & Hin)%list_elem_of_fmap.
  rewrite Forall_forall in Hn. specialize (Hn s' Hin). unfold newer in Hn.
  destruct Hw as [_ Hw]. rewrite Forall_forall in Hw.
  apply segment_filename_inj in E; [lia | done | by apply Hw].
Qed.

Lemma NoDup_seg_names segs : wf_segs segs → NoDup (seg_name <$> segs).
Proof.
  induction segs as [|s segs IH]; intros H; simpl; [constructor|].
  constructor; [by apply seg_name_fresh|]. apply IH. by apply wf_segs_cons in H as [? _].
Qed.

Lemma fst_seg_entries segs :
  ((λ s, (seg_name s, seg_file s)) <$> segs).*1 = seg_name <$> segs.
Proof. by rewrite <-list_fmap_compose. Qed.

Lemma lookup_dir_of segs s :
  wf_segs segs → s ∈ segs → dir_of segs !! seg_name s = Some (seg_file s).
Proof.
  intros Hw Hs. apply elem_of_list_to_map_1.
  - rewrite fst_seg_entries. by apply NoDup_seg_names.
  - apply list_elem_of_fmap. eauto.
Qed.

Lemma segment_of_seg s :
  in_u 64 (sg_start s) → segment_of (seg_name s, seg_file s) = Some (seg_info s).
Proof.
  intros H. apply segment_of_Some. unfold seg_name. by rewrite parse_segment_filename_of.
Qed.

Lemma seg_infos_sorted segs :
  wf_segs segs →
  StronglySorted (λ a b, start_sequence a < start_sequence b) (seg_info <$> reverse segs).
Proof.
  intros [Hw _]. apply StronglySorted_reverse in Hw.
  by apply (StronglySorted_fmap _ (flip newer)).
Qed.

Lemma list_segments_dir_of w segs :
  wf_segs segs → list_segments w (Some (dir_of segs)) = Ok (seg_info <$> reverse segs).
Proof.
  intros Hw. unfold list_segments. f_equal.
  assert (Hperm : omap segment_of (read_dir (dir_of segs)) ≡ₚ seg_info <$> reverse segs).
  { rewrite read_dir_perm. unfold dir_of.
    rewrite map_to_list_to_map by (rewrite fst_seg_entries; by apply NoDup_seg_names).
    rewrite reverse_Permutation. destruct Hw as [_ Hw].
    induction Hw as [|s segs Hs _ IH]; simpl; [done|].
    rewrite segment_of_seg by done. by rewrite IH. }
  pose proof (seg_infos_sorted segs Hw) as Hs.
  rewrite (sort_by_key_unique _ _ _ Hperm).
  - apply sort_by_key_id. eapply StronglySorted_impl_rel; [|exact Hs].
    unfold key_le. simpl. lia.
  - rewrite Hperm. by apply StronglySorted_lt_NoDup.
Qed.

(** ** Replaying a directory *)

Lemma scan_seg now s :
  seg_ok s → scan now (seg_bytes s) = stored now <$> sg_entries s.
Proof. intros [Hr Ht]. apply scan_log; [done | by apply torn_stops]. Qed.

Lemma read_seg now segs s :
  wf_segs segs → s ∈ segs → seg_ok s →
  read_segment_entries now (dir_of segs) (path (seg_info s)) = Ok (stored now <$> sg_entries s).
Proof.
  intros Hw Hs Hok. unfold read_segment_entries. simpl.
  rewrite lookup_dir_of by done. simpl. by rewrite scan_seg.
Qed.

Lemma collect_dir_of now all segs from acc :
  wf_segs all → (∀ s, s ∈ segs → s ∈ all ∧ seg_ok s) →
  collect_entries now (dir_of all) from (seg_info <$> segs) acc =
  Ok (acc ++ retain (λ e, from <=? sequence e)
               (stored now <$> mjoin (sg_entries <$> segs))).
Proof.
  intros Hw. revert acc. induction segs as [|s segs IH]; intros acc Hs.
  - simpl. by rewrite app_nil_r.
  - destruct (Hs s) as [Hin Hok]; [set_solver|].
    cbn [fmap list_fmap collect_entries]. rewrite read_seg by done. cbn [mbind result_bind].
    rewrite IH by (intros s' Hs'; apply Hs; rewrite elem_of_cons; auto). simpl. by rewrite fmap_app, retain_app, (assoc_L (++)).
Qed.

Definition entries_sorted (es : list WalEntry) : Prop :=
  StronglySorted (λ a b, sequence a < sequence b) es.

Lemma sort_retain_stored now from es :
  entries_sorted es →
  sort_by_key sequence (retain (λ e, from <=? sequence e) (stored now <$> es)) =
  retain (λ e, from <=? sequence e) (stored now <$> es).
Proof.
  intros Hs. apply sort_by_key_id.
  assert (StronglySorted (key_le sequence) (stored now <$> es)) as H.
  { eapply StronglySorted_fmap; [|exact Hs]. unfold key_le. simpl. lia. }
  revert H. generalize (stored now <$> es). clear. intros l.
  induction 1 as [|x l Hs IH Hx]; simpl; [constructor|]. destruct (from <=? sequence x); [|done].
  constructor; [done|]. rewrite Forall_forall in *. intros y [Hy _]%elem_of_retain. by apply Hx.
Qed.

Lemma replay_dir_of now w segs from :
  wf_segs segs → Forall (seg_ok) segs → entries_sorted (seg_log segs) →
  replay_from now (mkWalReader w) (Some (dir_of segs)) from =
  Ok (mkIter (retain (λ e, from <=? sequence e) (stored now <$> seg_log segs)) 0).
Proof.
  intros Hw Hok Hs. unfold replay_from. rewrite list_segments_dir_of by done.
  cbn [mbind result_bind default option.from_option id]. rewrite (collect_dir_of now segs) by
    (done || (intros s; rewrite elem_of_reverse; rewrite Forall_forall in Hok; auto)).
  cbn [mbind result_bind]. by rewrite app_nil_l, sort_retain_stored.
Qed.

(** ** Invariant of an open writer *)

Definition fully_synced (s : seg) : Prop := sg_synced s = length (seg_bytes s).

(** [w] is positioned at the end of a directory that holds exactly [log]. *)
Record inv (w : World) (log : list WalEntry) : Prop := mkInv {
  inv_segs : ∃ cur old,
    disk w = dir_of (cur :: old) ∧ wf_segs (cur :: old) ∧
    Forall (λ s, sg_tail s = []) (cur :: old) ∧ Forall fully_synced old ∧
    Forall (λ e, sequence e < sg_start cur) (seg_log old) ∧ seg_log (cur :: old) = log ∧
    current_file (writer w) = seg_name cur ∧ current_segment (writer w) = seg_info cur;
  inv_start : start_sequence (current_segment (writer w)) ≤ next_sequence (writer w);
  inv_sorted : entries_sorted log;
  inv_below : Forall (λ e, sequence e < next_sequence (writer w)) log;
  inv_readable : Forall readable log;
  inv_size : file_size (current_segment (writer w)) ≤ 2 ^ 63;
  inv_max : 0 ≤ max_segment_size (writer w) < 2 ^ 63;
  inv_synced : map_Forall (λ _ f, synced f ≤ length (contents f))%nat (disk w);
}.

(** Everything in the directory is on stable storage. *)
Definition durable (w : World) : Prop :=
  map_Forall (λ _ f, synced f = length (contents f)) (disk w).

Lemma map_Forall_alter {A} (P : A → Prop) f k (m : gmap string A) :
  map_Forall (λ _ x, P x) m → (∀ x, P x → P (f x)) → map_Forall (λ _ x, P x) (alter f k m).
Proof.
  intros Hm Hf name x Hx. destruct (decide (k = name)) as [<-|Hne].
  - rewrite lookup_alter_eq in Hx. apply fmap_Some in Hx as (y & Hy & ->). by eapply Hf, Hm.
  - rewrite lookup_alter_ne in Hx by done. by eapply Hm.
Qed.

Lemma alter_dir_of f cur cur' old :
  seg_name cur' = seg_name cur → seg_file cur' = f (seg_file cur) →
  alter f (seg_name cur) (dir_of (cur :: old)) = dir_of (cur' :: old).
Proof.
  intros Hn Hf. unfold dir_of. cbn [fmap list_fmap list_to_map foldr].
  rewrite alter_insert_eq. by rewrite Hn, Hf.
Qed.

Lemma seg_log_same_entries cur cur' old :
  sg_entries cur' = sg_entries cur → seg_log (cur' :: old) = seg_log (cur :: old).
Proof. intros H. by rewrite !seg_log_cons, H. Qed.

Lemma wf_segs_same_start cur cur' old :
  sg_start cur' = sg_start cur → wf_segs (cur :: old) → wf_segs (cur' :: old).
Proof. intros H. rewrite !wf_segs_cons. unfold newer. by rewrite H. Qed.

Lemma durable_dir_of w segs :
  disk w = dir_of segs → wf_segs segs → Forall fully_synced segs → durable w.
Proof.
  unfold durable. intros -> Hw Hs name f Hf. apply elem_of_list_to_map_2, list_elem_of_fmap in Hf
    as (s & [= -> ->] & Hin). rewrite Forall_forall in Hs. by apply Hs.
Qed.

#[local] Arguments seg_log : simpl never.
#[local] Arguments dir_of : simpl never.
#[local] Arguments log_bytes : simpl never.
#[local] Arguments serialize : simpl never.

(** [sync_all] followed by the [last_sync] update. *)
Lemma sync_inv w log t :
  inv w log → ∃ w', sync true t w = (w', Ok ()) ∧ inv w' log ∧ durable w' ∧
    next_sequence (writer w') = next_sequence (writer w) ∧
    current_segment (writer w') = current_segment (writer w) ∧
    max_segment_size (writer w') = max_segment_size (writer w) ∧
    sync_mode (writer w') = sync_mode (writer w).
Proof.
  intros [(cur & old & Hd & Hw & Ht & Hso & Hlo & Hl & Hf & Hseg) ? ? ? ? ? ? ?].
  eexists. split; [reflexivity|].
  pose (cur' := mkSeg (sg_start cur) (sg_entries cur) (sg_tail cur) (length (seg_bytes cur))).
  assert (Hd' : alter (λ f, mkFile (contents f) (length (contents f)))
            (current_file (writer w)) (disk w) = dir_of (cur' :: old))
    by (rewrite Hd, Hf; by apply alter_dir_of).
  assert (Hw' : wf_segs (cur' :: old)) by by apply (wf_segs_same_start cur).
  split; [split; try done; [exists cur', old | by apply map_Forall_alter] | split; [|done]].
  - split_and!; try done.
    + inversion Ht; subst. by constructor.
    + by rewrite (seg_log_same_entries cur).
  - apply (durable_dir_of _ (cur' :: old)); [exact Hd' | done | by constructor].
Qed.

(** Rotation is safe when the new segment's name is new. *)
Lemma rotate_inv w log t :
  inv w log →
  start_sequence (current_segment (writer w)) < next_sequence (writer w) < 2 ^ 64 →
  ∃ w', rotate (io_ok t) w = (w', Ok ()) ∧ inv w' log ∧ durable w' ∧
    next_sequence (writer w') = next_sequence (writer w) ∧
    file_size (current_segment (writer w')) = 0 ∧
    start_sequence (current_segment (writer w')) = next_sequence (writer w) ∧
    max_segment_size (writer w') = max_segment_size (writer w) ∧
    sync_mode (writer w') = sync_mode (writer w).
Proof.
  intros Hinv Hlt.
  destruct (sync_inv w log t Hinv) as (w1 & Hs & [(cur & old & Hd & Hw & Ht & Hso & Hlo & Hl & Hf & Hseg) ? ? Hbelow ? ? ? ?] & Hdur & Hn & Hc & Hm & Hmode).
  unfold rotate. cbn [rotate_sync_ok io_ok instant].
  unfold mbind at 1, sr_bind at 1. rewrite Hs. eexists. split; [reflexivity|].
  pose (new := mkSeg (next_sequence (writer w)) [] [] 0).
  rewrite <-Hc, Hseg in Hlt. cbn in Hlt.
  assert (Hw' : wf_segs (new :: cur :: old)).
  { apply wf_segs_cons. pose proof Hw as (_ & Hcu & Hco)%wf_segs_cons.
    split; [done|]. unfold newer, in_u in *. simpl. split; [lia|].
    constructor; [lia|]. eapply Forall_impl; [exact Hco|]. simpl. lia. }
  assert (Hcur : fully_synced cur).
  { apply (Hdur (seg_name cur) (seg_file cur)). rewrite Hd.
    apply lookup_dir_of; [done | set_solver]. }
  assert (Hd' : <[segment_filename (next_sequence (writer w1)) := mkFile [] 0]> (disk w1) =
                dir_of (new :: cur :: old)) by by rewrite Hd, Hn.
  split; [split; cbn; try done; [exists new, (cur :: old) | by apply map_Forall_insert_2] |
          split; [|cbn; rewrite Hn; done]].
  - split_and!; try done.
    + by constructor.
    + by constructor.
    + cbn. by rewrite Hl, <-Hn.
    + rewrite seg_log_cons. simpl. by rewrite app_nil_r.
    + cbn. by rewrite Hn.
    + cbn. by rewrite Hn.
  - apply (durable_dir_of _ (new :: cur :: old)); [exact Hd' | done | by repeat constructor].
Qed.

(** Writing one entry and growing the segment's recorded size. *)
Definition write_entry (e : WalEntry) (w : World) : World :=
  grow_segment (Z.of_nat (length (serialize e))) (append_bytes (serialize e) w).

Lemma length_serialize_readable e :
  readable e → Z.of_nat (length (serialize e)) ≤ 4 + MAX_ENTRY_SIZE.
Proof. intros [_ H]. unfold entry_len in H. rewrite length_serialize. lia. Qed.

Lemma write_inv w log e :
  inv w log → readable e → sequence e < next_sequence (writer w) →
  Forall (λ x, sequence x < sequence e) log →
  file_size (current_segment (writer w)) + Z.of_nat (length (serialize e)) ≤
    2 ^ 63 →
  inv (write_entry e w) (log ++ [e]).
Proof.
  intros [(cur & old & Hd & Hw & Ht & Hso & Hlo & Hl & Hf & Hseg) ? ? ? ? ? ? ?] He Hlt Hall Hsz.
  assert (Htail : sg_tail cur = []) by by inversion Ht.
  pose (cur' := mkSeg (sg_start cur) (sg_entries cur ++ [e]) [] (sg_synced cur)).
  assert (Hbytes : seg_bytes cur' = seg_bytes cur ++ serialize e).
  { unfold seg_bytes. simpl. rewrite Htail, log_bytes_snoc. by rewrite !app_nil_r. }
  assert (Hd' : alter (λ f, mkFile (contents f ++ serialize e) (synced f))
            (current_file (writer w)) (disk w) = dir_of (cur' :: old)).
  { rewrite Hd, Hf. apply alter_dir_of; [done|]. unfold seg_file. by rewrite Hbytes. }
  assert (Hfs : wrap 64 (file_size (seg_info cur) + Z.of_nat (length (serialize e))) =
                Z.of_nat (length (seg_bytes cur'))).
  { rewrite Hbytes, length_app, Nat2Z.inj_add. apply wrap_small.
    rewrite Hseg in Hsz. cbn in Hsz. unfold in_u, MAX_ENTRY_SIZE in *. lia. }
  split; cbn; try done.
  - exists cur', old. split_and!; try done.
    + by apply (wf_segs_same_start cur).
    + inversion Ht; subst. by constructor.
    + rewrite seg_log_cons. simpl. by rewrite (assoc_L (++)), <-seg_log_cons, Hl.
    + rewrite Hseg. unfold seg_info at 4. rewrite <-Hfs. done.
  - apply StronglySorted_app_2; [|done|by repeat constructor].
    intros a b Ha ->%list_elem_of_singleton. rewrite Forall_forall in Hall. by apply Hall.
  - apply Forall_app. split; [done | by constructor].
  - apply Forall_app. split; [done | by constructor].
  - rewrite Hseg, Hfs, Hbytes, length_app, Nat2Z.inj_add. rewrite Hseg in Hsz. done.
  - apply map_Forall_alter; [done|]. intros f Hsy. cbn. rewrite length_app. lia.
Qed.

Lemma set_next_inv w log n :
  inv w log → next_sequence (writer w) ≤ n → inv (set_next n w) log.
Proof.
  intros [? ? ? Hb ? ? ? ?] Hn. split; cbn; try done; [lia|].
  eapply Forall_impl; [exact Hb|]. simpl. lia.
Qed.

(** After the optional rotation there is room for the entry. *)
Lemma make_room w log t len :
  inv w log → 0 ≤ len ≤ 4 + MAX_ENTRY_SIZE →
  start_sequence (current_segment (writer w)) < next_sequence (writer w) < 2 ^ 64 →
  ∃ w', sr_when (max_segment_size (writer w) <?
                   wrap 64 (file_size (current_segment (writer w)) + len)) (rotate (io_ok t)) w
        = (w', Ok ()) ∧ inv w' log ∧
    next_sequence (writer w') = next_sequence (writer w) ∧
    file_size (current_segment (writer w')) + len ≤
      2 ^ 63 ∧
    (max_segment_size (writer w) < file_size (current_segment (writer w)) + len →
     start_sequence (current_segment (writer w')) = next_sequence (writer w) ∧
     file_size (current_segment (writer w')) = 0) ∧
    max_segment_size (writer w') = max_segment_size (writer w) ∧
    sync_mode (writer w') = sync_mode (writer w).
Proof.
  intros Hinv Hlen Hlt. unfold sr_when.
  pose proof Hinv as [(cur & old & _ & _ & _ & _ & _ & _ & _ & Hseg) _ _ _ _ Hsz Hmax _].
  assert (0 ≤ file_size (current_segment (writer w))) by (rewrite Hseg; cbn; lia).
  assert (Hwr : wrap 64 (file_size (current_segment (writer w)) + len) =
                file_size (current_segment (writer w)) + len).
  { apply wrap_small. unfold in_u, MAX_ENTRY_SIZE in *. lia. }
  rewrite Hwr. case_match.
  - destruct (rotate_inv w log t) as (w' & Hr & Hi & _ & Hn & Hz & Hst & Hm & Hmode); [done..|].
    exists w'. split_and!; try done. rewrite Hz. unfold MAX_ENTRY_SIZE in *. lia.
  - exists w. split_and!; try done; lia.
Qed.

Lemma maybe_sync_inv w log t :
  inv w log → ∃ w', maybe_sync (io_ok t) w = (w', Ok ()) ∧ inv w' log ∧
    next_sequence (writer w') = next_sequence (writer w) ∧
    current_segment (writer w') = current_segment (writer w) ∧
    max_segment_size (writer w') = max_segment_size (writer w) ∧
    sync_mode (writer w') = sync_mode (writer w) ∧
    (sync_mode (writer w) = Fsync → durable w').
Proof.
  intros Hinv. destruct (sync_inv w log t Hinv) as (w' & Hs & Hi & Hdur & Hn & Hc & Hm & Hmode).
  unfold maybe_sync. unfold mbind, sr_bind, sr_get. unfold sr_when.
  cbn [sync_ok io_ok instant].
  destruct (sync_mode (writer w)) as [|interval|] eqn:Em; [| destruct (interval <=? _) |];
    simpl; [exists w' | exists w' | exists w | exists w]; split_and!; try done; congruence.
Qed.

(** [append] with a working disk: the entry is added at the end of the log
    under the next sequence number. *)
Lemma append_inv w log t e :
  inv w log → next_sequence (writer w) + 1 < 2 ^ 64 →
  readable (with_sequence (next_sequence (writer w)) e) →
  ∃ w', append (io_ok t) e w = (w', Ok (next_sequence (writer w))) ∧
    inv w' (log ++ [with_sequence (next_sequence (writer w)) e]) ∧
    next_sequence (writer w') = next_sequence (writer w) + 1 ∧
    max_segment_size (writer w') = max_segment_size (writer w) ∧
    sync_mode (writer w') = sync_mode (writer w) ∧
    (sync_mode (writer w) = Fsync → durable w') ∧
    (max_segment_size (writer w) < file_size (current_segment (writer w)) +
       Z.of_nat (length (serialize (with_sequence (next_sequence (writer w)) e))) →
     start_sequence (current_segment (writer w')) = next_sequence (writer w) + 1 ∧
     file_size (current_segment (writer w')) =
       Z.of_nat (length (serialize (with_sequence (next_sequence (writer w)) e)))).
Proof.
  intros Hinv Hnext Hr. pose proof (length_serialize_readable _ Hr) as Hlen.
  set (n := next_sequence (writer w)) in *. set (e' := with_sequence n e) in *.
  assert (Hn0 : 0 ≤ n) by (destruct Hr as [[[? _] _] _]; done).
  assert (Hwn : wrap 64 (n + 1) = n + 1) by (apply wrap_small; unfold in_u; lia).
  pose proof (set_next_inv w log (n + 1) Hinv ltac:(subst n; lia)) as H1.
  pose proof (inv_start _ _ Hinv) as Hst. pose proof (inv_below _ _ Hinv) as Hbelow.
  destruct (make_room (set_next (n + 1) w) log t (Z.of_nat (length (serialize e'))))
    as (w2 & Hroom & Hi2 & Hn2 & Hsz & Hrot & Hm2 & Hmode2); [done|lia|cbn; fold n; lia|].
  assert (H3 : inv (write_entry e' w2) (log ++ [e'])).
  { apply write_inv; try done. rewrite Hn2. cbn. lia. }
  destruct (maybe_sync_inv _ _ t H3) as (w4 & Hs4 & Hi4 & Hn4 & Hc4 & Hm4 & Hmode4 & Hdur).
  exists w4. split_and!; try done.
  - unfold append, mbind, sr_bind, sr_get, sr_modify. fold n. rewrite Hwn.
    fold e'. cbn in Hroom |- *. rewrite Hroom. cbn.
    unfold write_entry in Hs4. rewrite Hs4. done.
  - rewrite Hn4. cbn. by rewrite Hn2.
  - rewrite Hm4. cbn. by rewrite Hm2.
  - rewrite Hmode4. cbn. by rewrite Hmode2.
  - intros Hm. apply Hdur. cbn. by rewrite Hmode2.
  - intros Hbig. rewrite Hc4. cbn. destruct (Hrot Hbig) as [Hst' Hz].
    rewrite Hst', Hz. cbn. split; [done|]. apply wrap_small. unfold in_u, MAX_ENTRY_SIZE in *. lia.
Qed.

End log.
