(* ===== verification/WalRecovery.v ===== *)
(** * Crash and recovery of the write-ahead log

    What survives a crash, what reopening resumes with, and what an append
    after a torn tail is worth. *)
From stdpp Require Import functions.
From S2P Require Import Prelude Machine Text Collections WalEntry WalSegment WalReader WalWriter WalLog.

Local Open Scope Z_scope.

Section recovery.
Context `{C : Chrono} `{K : Crc32} `{R : ReadDir}.
Context `{!ChronoLaws C} `{!Crc32Laws K} `{!ReadDirLaws R}.

#[local] Arguments seg_log : simpl never.
#[local] Arguments dir_of : simpl never.
#[local] Arguments log_bytes : simpl never.
#[local] Arguments serialize : simpl never.

(** ** Crashing a directory of segments *)

Definition kept (keep : string → nat) (s : seg) : nat :=
  Nat.min (Nat.max (keep (seg_name s)) (sg_synced s)) (length (seg_bytes s)).

Definition crash_seg (keep : string → nat) (s : seg) : seg :=
  let n := kept keep s in
  let es := take (complete n (sg_entries s)) (sg_entries s) in
  mkSeg (sg_start s) es (drop (length (log_bytes es)) (take n (seg_bytes s))) n.

Definition intact (s : seg) : Prop := Forall readable (sg_entries s) ∧ sg_tail s = [].

Lemma crash_seg_bytes keep s :
  intact s →
  seg_bytes (crash_seg keep s) = take (kept keep s) (seg_bytes s) ∧
  torn (sg_tail (crash_seg keep s)).
Proof.
  intros [Hr Ht]. unfold crash_seg. set (n := kept keep s).
  unfold seg_bytes. simpl. rewrite Ht, app_nil_r.
  destruct (take_log_bytes n (sg_entries s) Hr) as (tail & Htake & Htorn).
  rewrite Htake, drop_app_length. done.
Qed.

Lemma crash_seg_ok keep s : intact s → seg_ok (crash_seg keep s).
Proof.
  intros Hi. split; [simpl; apply Forall_take, Hi | by apply crash_seg_bytes].
Qed.

Lemma crash_seg_file keep s :
  intact s → seg_file (crash_seg keep s) = crash_file (keep (seg_name s)) (seg_file s).
Proof.
  intros Hi. unfold seg_file at 1. rewrite (proj1 (crash_seg_bytes keep s Hi)). done.
Qed.

Lemma crash_dir_of keep segs :
  wf_segs segs → Forall intact segs →
  crash keep (dir_of segs) = dir_of (crash_seg keep <$> segs).
Proof.
  intros Hw Hi. induction Hi as [|s segs Hs Hi IH]; [done|].
  pose proof (seg_name_fresh s segs Hw) as Hfresh.
  apply wf_segs_cons in Hw as (Hw & _ & _). specialize (IH Hw).
  unfold crash, dir_of in *. cbn [fmap list_fmap list_to_map foldr].
  erewrite map_imap_insert_Some by done.
  change (seg_name (crash_seg keep s)) with (seg_name s).
  rewrite crash_seg_file by done. f_equal. exact IH.
Qed.

(** A fully synced segment is unchanged. *)
Lemma crash_seg_synced keep s :
  intact s → fully_synced s → sg_entries (crash_seg keep s) = sg_entries s ∧
    sg_tail (crash_seg keep s) = [].
Proof.
  intros [Hr Ht] Hs. unfold crash_seg.
  assert (Hn : kept keep s = length (seg_bytes s)) by (unfold kept, fully_synced in *; lia).
  rewrite Hn. unfold seg_bytes in *. rewrite Ht, app_nil_r in *. simpl.
  pose proof (complete_log_bytes (length (log_bytes (sg_entries s))) (sg_entries s) [] ltac:(lia)) as Hc.
  rewrite app_nil_r in Hc. rewrite (firstn_all2 (sg_entries s)) by done. split; [done|].
  apply drop_ge. rewrite length_take. lia.
Qed.

Lemma crash_synced_log keep segs :
  Forall intact segs → Forall fully_synced segs →
  seg_log (crash_seg keep <$> segs) = seg_log segs.
Proof.
  intros Hi. induction Hi as [|s segs Hs Hi IH]; intros Hf; [done|].
  inversion Hf; subst. cbn [fmap list_fmap]. rewrite !seg_log_cons.
  rewrite (proj1 (crash_seg_synced keep s Hs ltac:(done))). f_equal. by apply IH.
Qed.

Lemma wf_segs_crash keep segs : wf_segs segs → wf_segs (crash_seg keep <$> segs).
Proof.
  intros [H1 H2]. split.
  - by eapply StronglySorted_fmap; [|exact H1].
  - by apply Forall_fmap.
Qed.

(** ** What survives *)

Lemma readable_nonneg es : Forall readable es → Forall (λ e, 0 ≤ sequence e) es.
Proof. intros H. eapply Forall_impl; [exact H|]. intros e [[[? _] _] _]. done. Qed.

Lemma retain_from_zero now es :
  Forall readable es →
  retain (λ e, 0 <=? sequence e) (stored now <$> es) = stored now <$> es.
Proof.
  intros H%readable_nonneg. apply retain_all. intros x (e & -> & He)%list_elem_of_fmap.
  rewrite Forall_forall in H. apply Z.leb_le, (H e He).
Qed.

Lemma entries_sorted_prefix es k : entries_sorted es → entries_sorted (take k es).
Proof. intros H. rewrite <-(take_drop k es) in H. by apply StronglySorted_app_1_l in H. Qed.

Lemma intact_segs cur old log :
  Forall readable log → seg_log (cur :: old) = log →
  Forall (λ s, sg_tail s = []) (cur :: old) → Forall intact (cur :: old).
Proof.
  intros Hr <- Ht. revert Hr Ht. generalize (cur :: old). clear. intros segs.
  induction segs as [|s segs IH]; intros Hr Ht; [constructor|].
  rewrite seg_log_cons in Hr. apply Forall_app in Hr as [Hr1 Hr2].
  inversion Ht; subst. constructor; [done | by apply IH].
Qed.

(** At most the bytes of [l1] at the end of the open segment are not yet on
    stable storage. *)
Definition pending (w : World) (l1 : list WalEntry) : Prop :=
  ∀ f, disk w !! current_file (writer w) = Some f →
    (length (contents f) ≤ synced f + length (log_bytes l1))%nat.

Lemma durable_pending w l1 : durable w → pending w l1.
Proof. intros Hd f Hf. rewrite (Hd _ _ Hf). lia. Qed.

(** After a crash the directory holds a prefix of the log, all of it when
    everything was on stable storage, and all but the pending entries in any
    case; only the newest segment can be torn. *)
Lemma crash_inv keep w log :
  inv w log →
  ∃ cur old k, crash keep (disk w) = dir_of (cur :: old) ∧ wf_segs (cur :: old) ∧
    Forall seg_ok (cur :: old) ∧ Forall (λ s, sg_tail s = []) old ∧
    Forall fully_synced (cur :: old) ∧
    Forall (λ e, sequence e < sg_start cur) (seg_log old) ∧
    seg_log (cur :: old) = take k log ∧ (k ≤ length log)%nat ∧
    (durable w → k = length log ∧ sg_tail cur = []) ∧
    sg_start cur ≤ next_sequence (writer w) ∧
    Z.of_nat (length (seg_bytes cur)) ≤ 2 ^ 63 ∧
    (∀ l0 l1, log = l0 ++ l1 → pending w l1 → length l0 ≤ k)%nat.
Proof.
  intros [(cur & old & Hd & Hw & Ht & Hso & Hlo & Hl & Hcf & Hseg) Hst _ _ Hr Hsz _ _].
  pose proof (intact_segs _ _ _ Hr Hl Ht) as Hi.
  rewrite Hseg in Hst, Hsz. cbn in Hst, Hsz.
  inversion Hi as [|? ? Hic Hio]; subst.
  pose (c := crash_seg keep cur). pose (n := length (sg_entries c)).
  pose proof (crash_synced_log keep old Hio Hso) as Hold.
  assert (Hn : sg_entries c = take n (sg_entries cur)).
  { unfold n, c, crash_seg. simpl. by rewrite length_take, <-take_take, firstn_all. }
  assert (Hbytes : ∀ s, intact s → fully_synced (crash_seg keep s)).
  { intros s Hs. unfold fully_synced. rewrite (proj1 (crash_seg_bytes keep s Hs)).
    simpl. rewrite length_take. unfold kept. lia. }
  exists c, (crash_seg keep <$> old), (length (seg_log old) + n)%nat.
  change (c :: _) with (crash_seg keep <$> (cur :: old)).
  split_and!; try done.
  - rewrite Hd. by apply crash_dir_of.
  - by apply wf_segs_crash.
  - apply Forall_fmap. eapply Forall_impl; [exact Hi|]. intros s. apply crash_seg_ok.
  - apply Forall_fmap. apply Forall_forall. intros s Hs.
    rewrite Forall_forall in Hio, Hso. by apply crash_seg_synced; auto.
  - apply Forall_fmap. eapply Forall_impl; [exact Hi|]. exact Hbytes.
  - by rewrite Hold.
  - cbn [fmap list_fmap]. rewrite !seg_log_cons. fold c.
    rewrite Hold, take_app_ge, Hn by lia. do 2 f_equal. lia.
  - rewrite seg_log_cons, length_app. apply (f_equal length) in Hn.
    rewrite length_take in Hn. lia.
  - intros Hdur. rewrite seg_log_cons, length_app.
    destruct (crash_seg_synced keep cur Hic) as [He Htl].
    { apply (Hdur (seg_name cur) (seg_file cur)). rewrite Hd.
      apply lookup_dir_of; [done | set_solver]. }
    split; [|done]. f_equal. unfold n, c. by rewrite He.
  - unfold c. rewrite (proj1 (crash_seg_bytes keep cur Hic)), length_take. lia.
  - intros l0 l1 Hlog Hp. rewrite seg_log_cons in Hlog.
    destruct (decide (length l0 ≤ length (seg_log old))%nat); [lia|].
    destruct (app_eq_inv _ _ _ _ Hlog) as [(x & E & He)|(x & -> & He)];
      [rewrite E, length_app in *; lia|].
    rewrite length_app. apply (f_equal length) in Hn. rewrite length_take in Hn.
    enough (length x ≤ n)%nat by lia. unfold n, c, crash_seg. cbn [sg_entries].
    rewrite length_take, He, length_app. apply Nat.min_glb; [|lia].
    apply complete_log_bytes. unfold kept.
    destruct Hic as [_ Hcur]. unfold seg_bytes. rewrite Hcur, app_nil_r.
    specialize (Hp (seg_file cur)). rewrite Hd, Hcf in Hp.
    specialize (Hp (lookup_dir_of _ cur Hw ltac:(set_solver))). cbn in Hp. unfold seg_bytes in Hp.
    rewrite Hcur, app_nil_r, He, log_bytes_app, length_app in Hp.
    rewrite He, log_bytes_app, length_app. lia.
Qed.

(** ** Reopening *)

Lemma seq_field pre e rest :
  wf_entry e →
  from_le_bytes (slice (length pre + 4 + 4) 8 (pre ++ serialize e ++ rest)) = sequence e.
Proof.
  intros (Hseq & _ & _). rewrite serialize_split, <-!(assoc_L (++)), (assoc_L (++) pre), (assoc_L (++) (pre ++ _)).
  rewrite slice_skip by (rewrite !length_app, !length_to_le_bytes; lia).
  rewrite !length_app, !length_to_le_bytes, Nat.sub_diag.
  unfold inner_bytes. rewrite <-(assoc_L (++)), slice_head by apply length_to_le_bytes.
  by apply (from_to_le_bytes_u 64).
Qed.

Lemma scan_sequence_log fuel pre es tail last :
  Forall readable es → torn tail → (length es < fuel)%nat →
  scan_sequence_loop fuel (pre ++ log_bytes es ++ tail) (length pre) last =
  Some (foldl (λ m e, Z.max m (sequence e)) last es).
Proof.
  intros Hes Htail. revert fuel pre last.
  induction Hes as [|e es [Hwf Hmax] Hes IH]; intros fuel pre last Hf;
    (destruct fuel as [|fuel]; [simpl in Hf; lia|]); cbn [scan_sequence_loop].
  - change (log_bytes []) with (@nil byte). cbn [app]. rewrite length_app.
    destruct (Nat.leb_spec (length pre + 4) (length pre + length tail)); [|done].
    rewrite header_at. pose proof (torn_header tail Htail ltac:(lia)).
    by rewrite (proj2 (Nat.ltb_lt _ _)) by lia.
  - change (log_bytes (e :: es)) with (serialize e ++ log_bytes es).
    rewrite <-(assoc_L (++) (serialize e)).
    pose proof (length_serialize e) as Hl. pose proof (length_inner_bytes e) as Hl2.
    rewrite (proj2 (Nat.leb_le (length pre + 4) _)) by (rewrite !length_app; lia).
    rewrite header_at, take_app_le, header_of_entry by (done || lia).
    unfold entry_len. rewrite Nat2Z.id.
    rewrite (proj2 (Nat.ltb_ge _ _)) by (rewrite !length_app; lia).
    rewrite (proj2 (Nat.leb_le (length pre + 4 + 4 + 8) _)) by (rewrite !length_app; lia).
    rewrite seq_field by done.
    replace (length pre + _)%nat with (length (pre ++ serialize e)) by (rewrite length_app; lia).
    rewrite (assoc_L (++) pre), IH by (simpl in Hf; lia). cbn [foldl]. do 2 f_equal.
    destruct (Z.leb_spec last (sequence e)); lia.
Qed.

(** A unit of fuel per byte is enough, whatever the bytes. *)
Lemma scan_sequence_total fuel data offset last :
  (offset ≤ length data < offset + fuel)%nat → is_Some (scan_sequence_loop fuel data offset last).
Proof.
  revert offset last. induction fuel as [|fuel IH]; intros offset last Hf; [lia|]. cbn [scan_sequence_loop].
  destruct (Nat.leb_spec (offset + 4) (length data)); [|by eexists].
  destruct (Nat.ltb_spec (length data) (offset + 4 + Z.to_nat (from_le_bytes (slice offset 4 data)))); [by eexists|].
  apply IH. lia.
Qed.

(** The sequence number that reopening resumes with. *)
Definition resume (s : seg) : Z :=
  foldl (λ m e, Z.max m (sequence e)) (sg_start s) (sg_entries s) + 1.

Lemma scan_last_sequence_seg segs s :
  wf_segs segs → s ∈ segs → seg_ok s →
  scan_last_sequence (dir_of segs) (seg_info s) = Ok (wrap 64 (resume s)).
Proof.
  intros Hw Hs [Hr Ht]. unfold scan_last_sequence, resume.
  destruct (Z.eqb_spec (file_size (seg_info s)) 0) as [Hz|Hz].
  - cbn in Hz. assert (sg_entries s = []) as ->; [|done].
    unfold seg_bytes in Hz. rewrite length_app in Hz.
    pose proof (length_log_bytes (sg_entries s)). apply nil_length_inv. lia.
  - cbn [path seg_info]. rewrite lookup_dir_of by done. cbn [ok_or mbind result_bind].
    cbn [contents seg_file start_sequence seg_info]. unfold seg_bytes.
    change 0%nat with (length (@nil byte)) at 1.
    change (scan_sequence_loop ?f ?d) with (scan_sequence_loop f ([] ++ d)).
    rewrite scan_sequence_log; [done..|].
    rewrite length_app. pose proof (length_log_bytes (sg_entries s)). lia.
Qed.

Lemma foldl_max_le m es :
  m ≤ foldl (λ m e, Z.max m (sequence e)) m es ∧
  Forall (λ e, sequence e ≤ foldl (λ m e, Z.max m (sequence e)) m es) es.
Proof.
  revert m; induction es as [|e es IH]; intros m; simpl; [split; [lia|constructor]|].
  destruct (IH (Z.max m (sequence e))) as [H1 H2]. split; [lia|]. constructor; [lia|done].
Qed.

Lemma foldl_max_bound m es b :
  m ≤ b → Forall (λ e, sequence e ≤ b) es → foldl (λ m e, Z.max m (sequence e)) m es ≤ b.
Proof.
  intros Hm H. revert m Hm. induction H as [|e es He _ IH]; intros m Hm; simpl; [done|].
  apply IH. lia.
Qed.

Lemma open_dir_of t wd mode max cur old :
  wf_segs (cur :: old) → Forall seg_ok (cur :: old) →
  open_with_max_size t wd (Some (dir_of (cur :: old))) mode max =
  Ok (mkWorld (mkWalWriter wd (seg_name cur) (seg_info cur) (wrap 64 (resume cur)) max mode t)
        (dir_of (cur :: old))).
Proof.
  intros Hw Hok. unfold open_with_max_size. cbn [default option.from_option id].
  rewrite list_segments_dir_of by done. cbn [mbind result_bind].
  rewrite reverse_cons, fmap_app, last_app. cbn [fmap list_fmap last].
  rewrite scan_last_sequence_seg; [done | done | set_solver | by inversion Hok].
Qed.

(** ** Calls under any input/output, and crashes in the middle of them

    A crash inside a call leaves the disk as the system calls before it left it,
    so it is a crash after the same call with the next system call failing. *)

(** Bytes that a failed write left are bytes that a crash after the whole write
    could have left. *)
Lemma crash_partial_write keep w bytes j :
  map_Forall (λ _ f, synced f ≤ length (contents f))%nat (disk w) →
  ∃ keep', crash keep (disk (append_bytes (take j bytes) w)) =
           crash keep' (disk (append_bytes bytes w)).
Proof.
  intros Hsy. destruct (disk w !! current_file (writer w)) as [f|] eqn:Hf.
  - exists (<[current_file (writer w) := Nat.min (Nat.max (keep (current_file (writer w)))
      (synced f)) (length (contents f ++ take j bytes))]> keep).
    pose proof (Hsy _ _ Hf) as Hle. cbn in Hle.
    apply map_eq. intros name. unfold crash, append_bytes. cbn [disk set_disk].
    rewrite !map_lookup_imap. destruct (decide (name = current_file (writer w))) as [->|Hne].
    + rewrite !lookup_alter_eq, Hf. cbn. f_equal. unfold crash_file. cbn [contents synced].
      rewrite fn_lookup_insert, !length_app, length_take.
      set (m := Nat.min (Nat.max _ _) (length (contents f) + Nat.min j (length bytes))).
      replace (Nat.min (Nat.max m (synced f)) (length (contents f) + length bytes)) with m by lia.
      f_equal. rewrite !take_app. f_equal. rewrite take_take. f_equal. lia.
    + rewrite !lookup_alter_ne by done. by rewrite fn_lookup_insert_ne.
  - exists keep. unfold append_bytes. cbn [disk set_disk].
    assert (∀ g, alter g (current_file (writer w)) (disk w) = disk w) as Hid
      by (intros g; by apply alter_id'). by rewrite !Hid.
Qed.

(** The disk of [w'] crashes to what a crash of a world leaves that holds [log]
    with, perhaps, [es]; of the segment being written at most [es] is not on
    stable storage when [log] was; sequence numbers have reached [n] at most. *)
Definition attempted (n : Z) (w w' : World) (log es : list WalEntry) : Prop :=
  ∀ keep, ∃ wf keep' l1, crash keep (disk w') = crash keep' (disk wf) ∧
    inv wf (log ++ l1) ∧ (l1 = [] ∨ l1 = es) ∧ (durable w → pending wf l1) ∧
    next_sequence (writer wf) ≤ n.

(** A call that returned [Ok]. *)
Record completed (n : Z) (w w' : World) (log es : list WalEntry) : Prop := {
  completed_inv : inv w' (log ++ es);
  completed_next : next_sequence (writer w') ≤ n;
  completed_mode : sync_mode (writer w') = sync_mode (writer w);
  completed_durable : sync_mode (writer w) = Fsync → durable w → durable w';
}.

Lemma attempted_inv n w w' log es l1 :
  inv w' (log ++ l1) → (l1 = [] ∨ l1 = es) → (durable w → pending w' l1) →
  next_sequence (writer w') ≤ n → attempted n w w' log es.
Proof. intros ? ? ? ? keep. by exists w', keep, l1. Qed.

(** The optional rotation at the head of [append]. *)
Lemma rotate_attempted w log io b :
  inv w log → start_sequence (current_segment (writer w)) < next_sequence (writer w) < 2 ^ 64 →
  ∃ w' r, sr_when b (rotate io) w = (w', r) ∧ inv w' log ∧ (durable w → durable w') ∧
    next_sequence (writer w') = next_sequence (writer w) ∧
    sync_mode (writer w') = sync_mode (writer w) ∧
    (is_ok r = true → sr_when b (rotate io) w = sr_when b (rotate (io_ok (instant io))) w).
Proof.
  intros Hi Hlt. destruct b; [|by exists w, (Ok ())]. unfold sr_when.
  destruct (rotate_inv w log (instant io) Hi Hlt) as (w2 & Hr & Hi2 & Hd2 & Hn2 & _ & _ & _ & Hm2).
  destruct (sync_inv w log (instant io) Hi) as (w1 & Hs & Hi1 & Hd1 & Hn1 & _ & _ & Hm1).
  destruct (rotate_sync_ok io) eqn:E1; [destruct (create_ok io) eqn:E2|].
  - assert (rotate io w = rotate (io_ok (instant io)) w) as E
      by (unfold rotate; by rewrite E1, E2).
    rewrite E. exists w2, (Ok ()). by split_and!.
  - exists w1, (Err (Io "create")). unfold rotate. rewrite E1, E2.
    rewrite (sr_bind_step _ _ _ _ _ Hs). by split_and!.
  - exists w, (Err (Io "sync")). unfold rotate. rewrite E1. by split_and!.
Qed.

(** [append] after the rotation: the write and the sync. *)
Definition write_and_sync (io : Sys) (e : WalEntry) : SR World WalError Z :=
  _ ← write_all (write io) (serialize e);
  _ ← sr_modify (grow_segment (Z.of_nat (length (serialize e))));
  _ ← maybe_sync io;
  mret (sequence e).

Lemma append_steps io e w :
  let n := next_sequence (writer w) in
  let e' := with_sequence n e in
  append io e w =
  (_ ← sr_when (max_segment_size (writer w) <? wrap 64
        (file_size (current_segment (writer w)) + Z.of_nat (length (serialize e')))) (rotate io);
   write_and_sync io e') (set_next (wrap 64 (n + 1)) w).
Proof. reflexivity. Qed.

Lemma maybe_sync_cases io w log :
  inv w log → ∃ w' r, maybe_sync io w = (w', r) ∧ inv w' log ∧
    next_sequence (writer w') = next_sequence (writer w) ∧
    sync_mode (writer w') = sync_mode (writer w) ∧
    (∀ l1, pending w l1 → pending w' l1) ∧
    (is_ok r = true → sync_mode (writer w) = Fsync → durable w').
Proof.
  intros Hi. destruct (sync_inv w log (instant io) Hi) as (w1 & Hs & Hi1 & Hd & Hn & _ & _ & Hm).
  assert (Hp : ∀ l1, pending w l1 → pending w1 l1) by (intros; by apply durable_pending).
  unfold maybe_sync, mbind, sr_bind, sr_get, sr_when.
  destruct (sync_mode (writer w)) as [|i|] eqn:Em;
    [destruct (sync_ok io) | destruct (i <=? _); [destruct (sync_ok io)|] |];
    first [ rewrite Hs; exists w1, (Ok ()) | exists w, (Err (Io "sync")); split; [reflexivity|]
          | exists w, (Ok ()) ]; split_and!; done || congruence.
Qed.

Lemma write_entry_pending w e : durable w → pending (write_entry e w) [e].
Proof.
  intros Hd f. cbn. rewrite lookup_alter_eq. intros (g & Hg & ->)%fmap_Some. cbn.
  rewrite (Hd _ _ Hg), length_app. change (log_bytes [e]) with (serialize e ++ []).
  rewrite app_nil_r. lia.
Qed.

Lemma write_and_sync_attempted io e w w' r log :
  inv w log → inv (write_entry e w) (log ++ [e]) → write_and_sync io e w = (w', r) →
  attempted (next_sequence (writer w)) w w' log [e] ∧
  (∀ v, r = Ok v → v = sequence e ∧ completed (next_sequence (writer w)) w w' log [e]).
Proof.
  intros Hi He. unfold write_and_sync. destruct (write io) as [|j]; cbn [write_all].
  - rewrite (sr_bind_step _ _ _ (append_bytes (serialize e) w) tt) by reflexivity.
    rewrite (sr_bind_step _ _ _ (write_entry e w) tt) by reflexivity.
    destruct (maybe_sync_cases io (write_entry e w) _ He) as (w1 & r1 & Hs & Hi1 & Hn1 & Hm1 & Hp & Hd).
    assert (Hat : attempted (next_sequence (writer w)) w w1 log [e]).
    { apply (attempted_inv _ _ _ _ _ [e]); [done|by right| |rewrite Hn1; cbn; lia].
      intros Hdur. by apply Hp, write_entry_pending. }
    destruct r1 as [[]|er].
    + rewrite (sr_bind_step _ _ _ _ _ Hs). intros [= <- <-]. split; [done|].
      intros v [= <-]. split; [done|]. split; [done|by rewrite Hn1|done|].
      intros Hm _. by apply Hd.
    + rewrite (sr_bind_stop _ _ _ _ _ Hs). by intros [= <- <-].
  - rewrite (sr_bind_stop _ _ _ (append_bytes (take j (serialize e)) w) (Io "write")) by reflexivity.
    intros [= <- <-]. split; [|done]. intros keep.
    destruct (crash_partial_write keep w (serialize e) j (inv_synced _ _ Hi)) as [keep' Hk].
    exists (write_entry e w), keep', [e]. split; [exact Hk|]. split; [done|].
    split; [by right|]. split; [apply write_entry_pending | cbn; lia].
Qed.

(** Compose a step that keeps the log with an attempt. *)
Lemma attempted_step n w w0 w' log es :
  attempted n w0 w' log es → (durable w → durable w0) → attempted n w w' log es.
Proof.
  intros Ha Hd keep. destruct (Ha keep) as (wf & k & l1 & ? & ? & ? & ? & ?).
  exists wf, k, l1. by split_and!; auto.
Qed.

Lemma completed_step n w w0 w' log es :
  completed n w0 w' log es → (durable w → durable w0) →
  sync_mode (writer w0) = sync_mode (writer w) → completed n w w' log es.
Proof. intros [? ? ? ?] Hd Hm. split; try done; [congruence|]. intros; apply completed_durable0; [congruence|auto]. Qed.

(** [append] under any input/output. *)
Lemma append_attempted w log io e w' r :
  let n := next_sequence (writer w) in
  inv w log → n + 1 < 2 ^ 64 → readable (with_sequence n e) →
  append io e w = (w', r) →
  attempted (n + 1) w w' log [with_sequence n e] ∧
  ∀ v, r = Ok v → v = n ∧ completed (n + 1) w w' log [with_sequence n e].
Proof.
  intros n Hi Hn Hr. rewrite append_steps. fold n.
  assert (0 ≤ n) by (destruct Hr as [[[? _] _] _]; done).
  rewrite (wrap_small 64 (n + 1)) by (unfold in_u; lia). set (e' := with_sequence n e) in *.
  pose proof (length_serialize_readable _ Hr) as Hlen.
  pose proof (set_next_inv w log (n + 1) Hi ltac:(subst n; lia)) as H0.
  pose proof (inv_start _ _ Hi) as Hst. pose proof (inv_below _ _ Hi) as Hb.
  change (current_segment (writer w)) with (current_segment (writer (set_next (n + 1) w))).
  change (max_segment_size (writer w)) with (max_segment_size (writer (set_next (n + 1) w))).
  set (w0 := set_next (n + 1) w) in *. set (b := (_ <? _)).
  destruct (rotate_attempted w0 log io b H0) as (w2 & r2 & Hrot & Hi2 & Hd2 & Hn2 & Hm2 & Hok);
    [cbn; fold n; lia|].
  destruct r2 as [[]|er2].
  - destruct (make_room w0 log (instant io) (Z.of_nat (length (serialize e'))) H0)
      as (w2' & Hroom & _ & _ & Hsz & _); [lia|cbn; fold n; lia|].
    fold b in Hroom. rewrite <-Hok, Hrot in Hroom by done. injection Hroom as <-.
    rewrite (sr_bind_step _ _ _ _ _ Hrot). intros Hw.
    assert (inv (write_entry e' w2) (log ++ [e'])) as Hi3
      by (apply write_inv; try done; rewrite Hn2; cbn; lia).
    destruct (write_and_sync_attempted _ _ _ _ _ _ Hi2 Hi3 Hw) as [Ha Hc]. rewrite Hn2 in Ha, Hc.
    split; [by apply (attempted_step _ _ w2)|]. intros v [-> Hcv]%Hc. split; [done|].
    by apply (completed_step _ _ w2).
  - rewrite (sr_bind_stop _ _ _ _ _ Hrot). intros [= <- <-]. split; [|done].
    apply (attempted_inv _ _ _ _ _ []); [by rewrite app_nil_r | by left | | by rewrite Hn2].
    intros Hdw. by apply durable_pending, Hd2.
Qed.

(** ** Pruning a directory of segments *)

Lemma dir_of_cons s segs : dir_of (s :: segs) = <[seg_name s := seg_file s]> (dir_of segs).
Proof. done. Qed.

Lemma wf_segs_retain f segs : wf_segs segs → wf_segs (retain f segs).
Proof.
  induction segs as [|s segs IH]; [done|]. intros (Hw & Hs & Hn)%wf_segs_cons. simpl.
  destruct (f s); [|by apply IH]. apply wf_segs_cons. split_and!; [by apply IH | done |].
  rewrite Forall_forall in *. intros x [Hx _]%elem_of_retain. by apply Hn.
Qed.

Lemma lookup_dir_of_retain f segs name :
  wf_segs segs →
  dir_of (retain f segs) !! name =
  if decide (name ∈ seg_name <$> retain (λ s, negb (f s)) segs) then None
  else dir_of segs !! name.
Proof.
  induction segs as [|s segs IH]; intros Hw; [done|].
  pose proof (seg_name_fresh s segs Hw) as Hfresh.
  apply wf_segs_cons in Hw as (Hw & _ & _). specialize (IH Hw). cbn [retain].
  assert (Hnot : seg_name s ∉ seg_name <$> retain (λ s, negb (f s)) segs).
  { intros (x & E & [Hx _]%elem_of_retain)%list_elem_of_fmap. apply Hfresh.
    apply list_elem_of_fmap. eauto. }
  destruct (f s); cbn [negb fmap list_fmap]; rewrite ?dir_of_cons.
  - destruct (decide (name = seg_name s)) as [->|].
    + rewrite !lookup_insert_eq. by rewrite decide_False.
    + rewrite !lookup_insert_ne by done. apply IH.
  - rewrite IH.
    destruct (decide (name ∈ seg_name <$> _)) as [H1|H1];
      destruct (decide (name ∈ seg_name s :: _)) as [H2|H2];
      rewrite elem_of_cons in H2; [done | tauto | | ].
    + destruct H2 as [->|]; [|done]. apply not_elem_of_list_to_map_1. by rewrite fst_seg_entries.
    + rewrite lookup_insert_ne; [done|]. intros E. apply H2. by left.
Qed.

(** What pruning removes: every segment that starts before the checkpoint,
    provided some segment starts at or after it. *)
Lemma prune_dir_of w segs ckpt :
  wf_segs segs →
  prune_segments_before w (Some (dir_of segs)) ckpt =
  Ok (if existsb (λ s, ckpt <=? sg_start s) segs then
        (Some (dir_of (retain (λ s, ckpt <=? sg_start s) segs)),
         length (retain (λ s, sg_start s <? ckpt) segs))
      else (Some (dir_of segs), 0%nat)).
Proof.
  intros Hw. unfold prune_segments_before. rewrite list_segments_dir_of by done.
  cbn [mbind result_bind]. rewrite foldl_prune.
  assert (Hex : existsb (λ s, ckpt <=? start_sequence s) (seg_info <$> reverse segs) =
                existsb (λ s, ckpt <=? sg_start s) segs).
  { apply eq_true_iff_eq. rewrite !existsb_exists. split.
    - intros (x & Hx & Hc). apply list_elem_of_In, list_elem_of_fmap in Hx as (s & -> & Hs).
      rewrite elem_of_reverse in Hs. apply list_elem_of_In in Hs. eauto.
    - intros (s & Hs & Hc). exists (seg_info s). split; [|done].
      apply list_elem_of_In, list_elem_of_fmap. exists s. split; [done|].
      apply elem_of_reverse, list_elem_of_In, Hs. }
  rewrite Hex. destruct (existsb _ segs); [|done].
  assert (Hgone : retain (λ s, start_sequence s <? ckpt) (seg_info <$> reverse segs) ≡ₚ
                  seg_info <$> retain (λ s, sg_start s <? ckpt) segs).
  { rewrite reverse_Permutation. clear. induction segs as [|s segs IH]; simpl; [done|].
    destruct (sg_start s <? ckpt); simpl; by rewrite IH. }
  assert (Hret : ∀ l : list seg, retain (λ s, negb (ckpt <=? sg_start s)) l =
                 retain (λ s, sg_start s <? ckpt) l).
  { intros l. induction l as [|x l IH]; simpl; [done|]. by rewrite IH, Z.ltb_antisym. }
  do 3 f_equal.
  - apply map_eq. intros name. rewrite lookup_foldl_delete, lookup_dir_of_retain, Hret by done.
    apply decide_ext. rewrite Hgone. by rewrite <-list_fmap_compose.
  - by rewrite Hgone, length_fmap.
Qed.

(** Entries of an older segment have smaller sequence numbers. *)
Lemma segment_order segs s s' e e' :
  wf_segs segs → entries_sorted (seg_log segs) → s ∈ segs → s' ∈ segs →
  sg_start s < sg_start s' → e ∈ sg_entries s → e' ∈ sg_entries s' → sequence e < sequence e'.
Proof.
  intros Hw Hs Hin Hin' Hlt He He'. revert Hw Hs Hin Hin'.
  induction segs as [|x segs IH]; intros Hw Hs Hin Hin'; [by apply elem_of_nil in Hin|].
  apply wf_segs_cons in Hw as (Hw & _ & Hn). rewrite seg_log_cons in Hs.
  rewrite Forall_forall in Hn. unfold newer in Hn.
  apply elem_of_cons in Hin as [->|Hin]; apply elem_of_cons in Hin' as [->|Hin'].
  - lia.
  - specialize (Hn s' Hin'). lia.
  - apply (StronglySorted_app_1_elem_of _ _ _ e e' Hs); [|exact He'].
    clear -Hin He. induction segs as [|y segs IH]; [by apply elem_of_nil in Hin|].
    rewrite seg_log_cons, elem_of_app. apply elem_of_cons in Hin as [->|Hin]; auto.
  - apply IH; try done. by apply StronglySorted_app_1_l in Hs.
Qed.

Lemma elem_of_seg_log segs e : e ∈ seg_log segs ↔ ∃ s, s ∈ segs ∧ e ∈ sg_entries s.
Proof.
  induction segs as [|s segs IH].
  - split; [intros H; by apply elem_of_nil in H | intros (s & H & _); by apply elem_of_nil in H].
  - rewrite seg_log_cons, elem_of_app, IH. setoid_rewrite elem_of_cons. naive_solver.
Qed.

Lemma seg_log_retain_sorted f segs :
  entries_sorted (seg_log segs) → entries_sorted (seg_log (retain f segs)).
Proof.
  induction segs as [|s segs IH]; [done|]. rewrite seg_log_cons. intros Hs. simpl.
  pose proof Hs as H1%StronglySorted_app_1_l. pose proof Hs as H2%StronglySorted_app_1_r.
  destruct (f s); [|by apply IH]. rewrite seg_log_cons.
  apply StronglySorted_app_2; [|by apply IH|done].
  intros a b (x & Hx & Ha)%elem_of_seg_log Hb. apply elem_of_retain in Hx as [Hx _].
  apply (StronglySorted_app_1_elem_of _ _ _ a b Hs); [|done]. apply elem_of_seg_log. eauto.
Qed.

(** ** Histories of a log *)

(** A call with what the operating system answers during it, and the entries it
    adds when numbers have reached [n]. *)
Inductive call :=
| CallAppend (io : Sys) (e : WalEntry)
| CallCheckpoint (io : Sys) (now : DateTime)
| CallSync (ok : bool) (t : Z).

Definition call_entries (c : call) (n : Z) : list WalEntry :=
  match c with
  | CallAppend _ e => [with_sequence n e]
  | CallCheckpoint _ now => [with_sequence n (checkpoint_entry now)]
  | CallSync _ _ => []
  end.

(** A call, with the entries it acknowledges when it returns [Ok]. *)
Definition perform (c : call) : SR World WalError (list WalEntry) :=
  match c with
  | CallAppend io e => n ← append io e; mret [with_sequence n e]
  | CallCheckpoint io now => n ← checkpoint io now; mret [with_sequence n (checkpoint_entry now)]
  | CallSync ok t => _ ← sync ok t; mret []
  end.

(** A step after a completed call that keeps the log. *)
Lemma completed_sync n w w1 w2 log es :
  completed n w w1 log es → inv w2 (log ++ es) → durable w2 →
  next_sequence (writer w2) = next_sequence (writer w1) →
  sync_mode (writer w2) = sync_mode (writer w1) →
  attempted n w w2 log es ∧ completed n w w2 log es.
Proof.
  intros [? ? ? ?] Hi Hd Hn Hm. split; [|split; done || congruence || lia].
  apply (attempted_inv _ _ _ _ _ es); [done | by right | by intros; apply durable_pending | lia].
Qed.

Lemma checkpoint_attempted w log io now w' r :
  let n := next_sequence (writer w) in
  let es := [with_sequence n (checkpoint_entry now)] in
  inv w log → n + 1 < 2 ^ 64 → Forall readable es →
  checkpoint io now w = (w', r) →
  attempted (n + 1) w w' log es ∧ ∀ v, r = Ok v → v = n ∧ completed (n + 1) w w' log es.
Proof.
  intros n es Hi Hn Hr. unfold es in Hr. rewrite Forall_singleton in Hr. unfold checkpoint.
  destruct (append io (checkpoint_entry now) w) as [w1 [v|er]] eqn:Ha.
  - rewrite (sr_bind_step _ _ _ _ _ Ha).
    destruct (append_attempted w log io _ w1 _ Hi Hn Hr Ha) as [Hat Hc].
    destruct (Hc v eq_refl) as [-> Hcv].
    destruct (sync_inv w1 _ (instant io) (completed_inv _ _ _ _ _ Hcv)) as
      (w2 & Hs & Hi2 & Hd2 & Hn2 & _ & _ & Hm2).
    destruct (final_sync_ok io).
    + rewrite (sr_bind_step _ _ _ _ _ Hs). intros [= <- <-].
      destruct (completed_sync _ _ _ w2 _ _ Hcv) as [? ?]; [done..|].
      split; [done|]. by intros ? [= <-].
    + by intros [= <- <-].
  - rewrite (sr_bind_stop _ _ _ _ _ Ha). intros [= <- <-].
    by destruct (append_attempted w log io _ w1 _ Hi Hn Hr Ha) as [Hat _].
Qed.

Lemma sync_attempted w log ok t w' r :
  let n := next_sequence (writer w) in
  inv w log → sync ok t w = (w', r) →
  attempted (n + 1) w w' log [] ∧ (r = Ok () → completed (n + 1) w w' log []).
Proof.
  intros n Hi. destruct (sync_inv w log t Hi) as (w2 & Hs & Hi2 & Hd2 & Hn2 & _ & _ & Hm2).
  destruct ok.
  - rewrite Hs. intros [= <- <-].
    assert (completed (n + 1) w w log []) as Hc by (split; [by rewrite app_nil_r|lia|done..]).
    destruct (completed_sync _ _ _ w2 _ _ Hc) as [? ?]; rewrite ?app_nil_r; done.
  - intros [= <- <-]. split; [|done].
    apply (attempted_inv _ _ _ _ _ []);
      [by rewrite app_nil_r | by left | by intros; apply durable_pending | lia].
Qed.

Lemma perform_attempted c w w' r log :
  let n := next_sequence (writer w) in
  inv w log → n + 1 < 2 ^ 64 → Forall readable (call_entries c n) →
  perform c w = (w', r) →
  attempted (n + 1) w w' log (call_entries c n) ∧
  ∀ es, r = Ok es → es = call_entries c n ∧ completed (n + 1) w w' log es.
Proof.
  intros n Hi Hn Hr. destruct c as [io e|io now|ok t]; cbn [perform call_entries] in *.
  - destruct (append io e w) as [w1 [v|er]] eqn:Ha; rewrite Forall_singleton in Hr;
      destruct (append_attempted w log io e w1 _ Hi Hn Hr Ha) as [Hat Hc].
    + destruct (Hc v eq_refl) as [-> ?]. rewrite (sr_bind_step _ _ _ _ _ Ha).
      intros [= <- <-]. split; [done|]. by intros es [= <-].
    + rewrite (sr_bind_stop _ _ _ _ _ Ha). by intros [= <- <-].
  - destruct (checkpoint io now w) as [w1 [v|er]] eqn:Ha;
      destruct (checkpoint_attempted w log io now w1 _ Hi Hn Hr Ha) as [Hat Hc].
    + destruct (Hc v eq_refl) as [-> ?]. rewrite (sr_bind_step _ _ _ _ _ Ha).
      intros [= <- <-]. split; [done|]. by intros es [= <-].
    + rewrite (sr_bind_stop _ _ _ _ _ Ha). by intros [= <- <-].
  - destruct (sync ok t w) as [w1 [[]|er]] eqn:Ha;
      destruct (sync_attempted w log ok t w1 _ Hi Ha) as [Hat Hc].
    + rewrite (sr_bind_step _ _ _ _ _ Ha). intros [= <- <-]. split; [done|]. by intros es [= <-]; auto.
    + rewrite (sr_bind_stop _ _ _ _ _ Ha). by intros [= <- <-].
Qed.

(** ** Reopening after a crash *)

(** What a reader finds after a crash. *)
Lemma replay_crash now wd keep w log :
  inv w log →
  ∃ k, (k ≤ length log)%nat ∧ (durable w → k = length log) ∧
    (∀ l0 l1, log = l0 ++ l1 → pending w l1 → length l0 ≤ k)%nat ∧
    replay_all now (mkWalReader wd) (Some (crash keep (disk w))) =
    Ok (mkIter (stored now <$> take k log) 0).
Proof.
  intros Hi. destruct (crash_inv keep w log Hi) as
    (cur & old & k & Hd & Hw & Hok & _ & _ & _ & Hl & Hk & Hdur & _ & _ & Hp).
  exists k. split; [done|]. split; [by intros [? _]%Hdur|]. split; [done|]. unfold replay_all.
  rewrite Hd, replay_dir_of; try done.
  - by rewrite Hl, retain_from_zero by (apply Forall_take, (inv_readable _ _ Hi)).
  - rewrite Hl. apply entries_sorted_prefix, (inv_sorted _ _ Hi).
Qed.

(** A segment without torn bytes: what the reader parses is all there is. *)
Definition whole_entries (now : DateTime) (f : file) : Prop :=
  log_bytes (scan now (contents f)) = contents f.

Lemma log_bytes_stored now es : log_bytes (stored now <$> es) = log_bytes es.
Proof.
  induction es as [|e es IH]; [done|].
  change (serialize (stored now e) ++ log_bytes (stored now <$> es) = serialize e ++ log_bytes es).
  rewrite IH. f_equal. unfold serialize, inner_bytes. cbn [stored timestamp sequence operation modality entity_id payload].
  destruct (timestamp_millis_opt_some (timestamp e)) as (t' & -> & E). cbn [default option.from_option id].
  by rewrite E.
Qed.

Lemma whole_entries_tail now s : seg_ok s → whole_entries now (seg_file s) ↔ sg_tail s = [].
Proof.
  intros Hok. unfold whole_entries. cbn [contents seg_file]. rewrite scan_seg by done.
  rewrite log_bytes_stored. unfold seg_bytes. split.
  - intros E. apply (f_equal length) in E. rewrite length_app in E. apply nil_length_inv. lia.
  - intros ->. by rewrite app_nil_r.
Qed.

(** The next number on reopening is above every surviving one, and at most one
    is skipped. *)
Lemma resume_bounds cur old n :
  wf_segs (cur :: old) → sg_start cur ≤ n →
  Forall (λ e, sequence e < sg_start cur) (seg_log old) →
  Forall (λ e, sequence e < n) (sg_entries cur) →
  0 ≤ resume cur ≤ n + 1 ∧ sg_start cur ≤ resume cur ∧
  Forall (λ e, sequence e < resume cur) (seg_log (cur :: old)).
Proof.
  intros (_ & [? _] & _)%wf_segs_cons Hst Hlo Hin.
  pose proof (foldl_max_le (sg_start cur) (sg_entries cur)) as [Hge Hle].
  assert (foldl (λ m e, Z.max m (sequence e)) (sg_start cur) (sg_entries cur) ≤ n).
  { apply foldl_max_bound; [done|]. eapply Forall_impl; [exact Hin|]. simpl. lia. }
  unfold resume. split; [lia|]. split; [lia|]. rewrite seg_log_cons. apply Forall_app. split.
  - eapply Forall_impl; [exact Hlo|]. simpl. lia.
  - eapply Forall_impl; [exact Hle|]. simpl. lia.
Qed.

(** Reopening the directory a crash left. *)
Record reopened (w w' : World) (log : list WalEntry) (k : nat) (mode : SyncMode) : Prop := {
  reopened_prefix : (k ≤ length log)%nat;
  reopened_all : durable w → k = length log;
  reopened_pending : ∀ l0 l1, log = l0 ++ l1 → pending w l1 → (length l0 ≤ k)%nat;
  reopened_numbers : Forall (λ e, sequence e < next_sequence (writer w')) (take k log);
  reopened_next : next_sequence (writer w') ≤ next_sequence (writer w) + 1;
  reopened_replay : ∀ now wd, replay_all now (mkWalReader wd) (Some (disk w')) =
    Ok (mkIter (stored now <$> take k log) 0);
  reopened_file : ∃ f, disk w' !! current_file (writer w') = Some f ∧ ∀ now,
    (whole_entries now f → inv w' (take k log)) ∧ (durable w → whole_entries now f);
  reopened_durable : durable w';
  reopened_mode : sync_mode (writer w') = mode;
}.

Lemma reopen_inv keep t wd mode max w log :
  inv w log → next_sequence (writer w) + 1 < 2 ^ 64 → 0 ≤ max < 2 ^ 63 →
  ∃ w' k, open_with_max_size t wd (Some (crash keep (disk w))) mode max = Ok w' ∧
    reopened w w' log k mode.
Proof.
  intros Hi Hn Hmax. destruct (crash_inv keep w log Hi) as
    (cur & old & k & Hd & Hw & Hok & Hto & Hfs & Hlo & Hl & Hk & Hdur & Hst & Hsz & Hp).
  pose proof (Forall_take _ k _ (inv_below _ _ Hi)) as Hb.
  pose proof (Forall_take _ k _ (inv_readable _ _ Hi)) as Hrd.
  pose proof (entries_sorted_prefix _ k (inv_sorted _ _ Hi)) as Hsorted.
  destruct (resume_bounds cur old (next_sequence (writer w))) as (Hres & Hstart & Hnext); try done.
  { rewrite <-Hl, seg_log_cons in Hb. by apply Forall_app in Hb as [_ ?]. }
  assert (Hokc : seg_ok cur) by by inversion Hok.
  eexists _, k. rewrite Hd, open_dir_of by done. rewrite wrap_small by (unfold in_u; lia).
  split; [reflexivity|].
  split; cbn [disk writer next_sequence current_file sync_mode]; try done.
  - by intros [? _]%Hdur.
  - by rewrite <-Hl.
  - lia.
  - intros now wd'. unfold replay_all. rewrite replay_dir_of, Hl; try done;
      [by rewrite retain_from_zero | by rewrite Hl].
  - exists (seg_file cur). split; [apply lookup_dir_of; [done | set_solver]|]. intros now.
    rewrite whole_entries_tail by done. split; [|by intros [_ ?]%Hdur]. intros Htl.
    split; cbn; try done.
    + exists cur, old. split_and!; try done; [by constructor | by inversion Hfs].
    + by rewrite <-Hl.
    + intros name f Hf. apply elem_of_list_to_map_2, list_elem_of_fmap in Hf as (s & [= -> ->] & Hin).
      rewrite Forall_forall in Hfs. cbn. by rewrite (Hfs s Hin).
  - by apply (durable_dir_of _ (cur :: old)).
Qed.

(** A new directory. *)
Lemma inv_fresh t wd mode max :
  0 ≤ max < 2 ^ 63 →
  ∃ w, open_with_max_size t wd None mode max = Ok w ∧ inv w [] ∧
       next_sequence (writer w) = 1 ∧ sync_mode (writer w) = mode ∧ durable w.
Proof.
  intros Hmax. unfold open_with_max_size. cbn [default option.from_option].
  change (∅ : gmap string file) with (dir_of []).
  rewrite list_segments_dir_of by (split; constructor).
  eexists. split; [reflexivity|]. split; [|split_and!; try done].
  - pose (s := mkSeg 0 [] [] 0).
    split; cbn; try done; try by constructor.
    + exists s, []. split_and!; try done; try by repeat constructor.
    + by apply map_Forall_insert_2.
  - by apply map_Forall_insert_2.
Qed.

(** What was stopped by a crash: nothing, or a call that had not returned. *)
Definition stopped_in (oc : option call) (w w1 : World) : Prop :=
  match oc with None => w1 = w | Some c => ∃ r, perform c w = (w1, r) end.
Definition in_flight (oc : option call) (n : Z) : list WalEntry :=
  match oc with None => [] | Some c => call_entries c n end.

(** [reached P w acked log]: from a new directory, opened in a mode of [P],
    calls that returned [Ok], crashes at any point, between calls or inside one,
    and reopenings that found no torn bytes lead to [w].  [acked] are the entries
    whose calls returned [Ok], [log] those the directory holds. *)
Inductive reached (P : SyncMode → Prop) : World → list WalEntry → list WalEntry → Prop :=
| reached_new t wd mode max w :
    P mode → 0 ≤ max < 2 ^ 63 → open_with_max_size t wd None mode max = Ok w →
    reached P w [] []
| reached_call c w acked log w' es :
    reached P w acked log → next_sequence (writer w) + 1 < 2 ^ 64 →
    Forall readable (call_entries c (next_sequence (writer w))) →
    perform c w = (w', Ok es) → reached P w' (acked ++ es) (log ++ es)
| reached_reopen oc w acked log w1 keep t wd mode max w' now f log' :
    reached P w acked log → next_sequence (writer w) + 2 < 2 ^ 64 →
    Forall readable (in_flight oc (next_sequence (writer w))) →
    stopped_in oc w w1 → P mode → 0 ≤ max < 2 ^ 63 →
    open_with_max_size t wd (Some (crash keep (disk w1))) mode max = Ok w' →
    disk w' !! current_file (writer w') = Some f → whole_entries now f →
    replay_all now (mkWalReader wd) (Some (disk w')) = Ok (mkIter (stored now <$> log') 0) →
    log' `prefix_of` log ++ in_flight oc (next_sequence (writer w)) →
    reached P w' acked log'.

Lemma stopped_attempted oc w w1 log :
  let n := next_sequence (writer w) in
  inv w log → n + 1 < 2 ^ 64 → Forall readable (in_flight oc n) → stopped_in oc w w1 →
  attempted (n + 1) w w1 log (in_flight oc n).
Proof.
  intros n Hi Hn Hr. destruct oc as [c|]; cbn [stopped_in in_flight] in *.
  - intros [r Hp]. by eapply perform_attempted.
  - intros ->. apply (attempted_inv _ _ _ _ _ []);
      [by rewrite app_nil_r | by left | by intros; apply durable_pending | lia].
Qed.

(** Reopening after a crash at any point. *)
Lemma reopen_stopped oc w w1 log keep t wd mode max :
  let es := in_flight oc (next_sequence (writer w)) in
  inv w log → next_sequence (writer w) + 2 < 2 ^ 64 → Forall readable es →
  stopped_in oc w w1 → 0 ≤ max < 2 ^ 63 →
  ∃ wf w' l1 k, open_with_max_size t wd (Some (crash keep (disk w1))) mode max = Ok w' ∧
    (l1 = [] ∨ l1 = es) ∧ (durable w → pending wf l1) ∧ (oc = None → wf = w) ∧
    inv wf (log ++ l1) ∧ reopened wf w' (log ++ l1) k mode.
Proof.
  intros es Hi Hn Hr Hs Hmax. destruct oc as [c|].
  - destruct (stopped_attempted _ _ _ _ Hi ltac:(lia) Hr Hs keep)
      as (wf & keep' & l1 & Hc & Hif & Hl1 & Hp & Hnf).
    destruct (reopen_inv keep' t wd mode max wf _ Hif) as (w' & k & Ho & Hre); [lia|done|].
    exists wf, w', l1, k. rewrite Hc. by split_and!.
  - cbn in Hs. subst w1.
    destruct (reopen_inv keep t wd mode max w log Hi) as (w' & k & Ho & Hre); [lia|done|].
    exists w, w', [], k. rewrite app_nil_r. split_and!; try done; [by left | by intros; apply durable_pending].
Qed.

(** A prefix is determined by what replaying it returns. *)
Lemma stored_prefix_eq now (l1 l2 l : list WalEntry) :
  stored now <$> l1 = stored now <$> l2 → l1 `prefix_of` l → l2 `prefix_of` l → l1 = l2.
Proof.
  intros E H1 H2. apply (f_equal length) in E. rewrite !length_fmap in E.
  destruct H1 as [x1 ->], H2 as [x2 H2]. by apply app_inj_1 in H2 as [? _].
Qed.

Lemma take_attempted_prefix k (log l1 es : list WalEntry) :
  l1 = [] ∨ l1 = es → take k (log ++ l1) `prefix_of` log ++ es.
Proof.
  intros [-> | ->]; [|apply prefix_take].
  rewrite app_nil_r. etrans; [apply prefix_take | by apply prefix_app_r].
Qed.

(** The reopened writer of a history stands at the end of the surviving log. *)
Lemma reached_reopen_inv oc w log w1 keep t wd mode max w' now f log' :
  inv w log → next_sequence (writer w) + 2 < 2 ^ 64 →
  Forall readable (in_flight oc (next_sequence (writer w))) → stopped_in oc w w1 →
  0 ≤ max < 2 ^ 63 →
  open_with_max_size t wd (Some (crash keep (disk w1))) mode max = Ok w' →
  disk w' !! current_file (writer w') = Some f → whole_entries now f →
  replay_all now (mkWalReader wd) (Some (disk w')) = Ok (mkIter (stored now <$> log') 0) →
  log' `prefix_of` log ++ in_flight oc (next_sequence (writer w)) →
  inv w' log' ∧ durable w' ∧ sync_mode (writer w') = mode ∧
  (durable w → log `prefix_of` log').
Proof.
  intros Hi Hn Hr Hs Hmax Ho Hf Hwh Hrep Hpre.
  destruct (reopen_stopped oc w w1 log keep t wd mode max Hi Hn Hr Hs Hmax)
    as (wf & w2 & l1 & k & Ho2 & Hl1 & Hp & _ & Hif & [Hk Hall Hpen Hnum Hnx Hre (f2 & Hf2 & Hw2) Hdur Hmo]).
  rewrite Ho in Ho2. injection Ho2 as <-. rewrite Hf in Hf2. injection Hf2 as <-.
  rewrite Hre in Hrep. injection Hrep as Hrep.
  assert (take k (log ++ l1) = log') as <-.
  { eapply stored_prefix_eq; [exact Hrep | | exact Hpre]. by apply take_attempted_prefix. }
  split_and!; try done; [by apply (Hw2 now)|]. intros Hd.
  rewrite take_app_ge by (apply (Hpen log l1); [done | by apply Hp]). by apply prefix_app_r.
Qed.

Lemma reached_inv P w acked log : reached P w acked log → inv w log.
Proof.
  induction 1 as [t wd mode max w _ Hmax Ho|c w acked log w' es _ IH Hn Hr Hp|].
  - destruct (inv_fresh t wd mode max Hmax) as (w0 & Ho0 & ? & _).
    rewrite Ho in Ho0. by injection Ho0 as <-.
  - by destruct (perform_attempted c w w' _ log IH Hn Hr Hp) as [_ [_ [? _]]%(λ H, H es eq_refl)].
  - by eapply reached_reopen_inv.
Qed.

(** With [Fsync] at every opening, nothing acknowledged is ever missing. *)
Lemma reached_fsync w acked log :
  reached (λ m, m = Fsync) w acked log →
  durable w ∧ sync_mode (writer w) = Fsync ∧ acked `sublist_of` log.
Proof.
  induction 1 as [t wd mode max w Hm Hmax Ho|c w acked log w' es Hrc (Hd & Hm & Hsub) Hn Hr Hp
                 |oc w acked log w1 keep t wd mode max w' now f log' Hrc (Hd & Hm & Hsub)].
  - destruct (inv_fresh t wd mode max Hmax) as (w0 & Ho0 & _ & _ & Hmo & Hdu).
    rewrite Ho in Ho0. injection Ho0 as <-. split_and!; [done | congruence | done].
  - pose proof (reached_inv _ _ _ _ Hrc) as Hi.
    destruct (perform_attempted c w w' _ log Hi Hn Hr Hp) as [_ [_ [_ _ Hm' Hd']]%(λ H, H es eq_refl)].
    split_and!; [by apply Hd' | congruence | by apply sublist_app].
  - edestruct reached_reopen_inv as (_ & Hd' & Hm' & Hpre); try done; [by eapply reached_inv|].
    split_and!; try done; [congruence|]. etrans; [exact Hsub|].
    destruct (Hpre Hd) as [x ->]. by apply sublist_inserts_r.
Qed.

End recovery.
