(* ===== verification/WalTheorems.v ===== *)
(** * Properties of the write-ahead log

    The theorems about [verisim-wal], each with a witness on a concrete log. *)
From S2P Require Import Prelude Machine Text Collections WalEntry WalSegment WalReader WalWriter WalLog WalRecovery.

Local Open Scope Z_scope.

(** ** A concrete instance of the third-party interfaces *)

Module Example.

Definition in_ms (z : Z) : bool := (- 2 ^ 53 <=? z) && (z <? 2 ^ 53).
Record instant := mkInstant { ms : Z; ms_ok : in_ms ms = true }.

Definition at_ms (z : Z) : option instant :=
  match in_ms z as b return in_ms z = b → option instant with
  | true => λ H, Some (mkInstant z H)
  | false => λ _, None
  end eq_refl.

#[export] Instance chrono : Chrono :=
  {| DateTime := instant; timestamp_millis := ms; timestamp_millis_opt := at_ms |}.

Lemma at_ms_some z (H : in_ms z = true) : at_ms z = Some (mkInstant z H).
Proof.
  unfold at_ms.
  assert (∀ b (E : in_ms z = b), b = true →
    (match b as b return in_ms z = b → option instant with
     | true => λ H, Some (mkInstant z H) | false => λ _, None end) E
    = Some (mkInstant z H)) as HH.
  { intros [] E ?; [|done]. do 2 f_equal. apply (proof_irrel E H). }
  by apply HH.
Qed.

#[export] Instance chrono_laws : ChronoLaws chrono.
Proof.
  split.
  - intros [z Hz]. unfold in_ms in Hz. simpl. lia.
  - intros [z Hz]. exists (mkInstant z Hz). split; [by apply at_ms_some | done].
Qed.

#[export] Instance checksum : Crc32 :=
  λ l, foldr (λ b acc, wrap 32 (Z_of_byte b + acc)) 0 l.
#[export] Instance checksum_laws : Crc32Laws checksum.
Proof.
  intros l. unfold crc32_hash, checksum. destruct l; simpl; [done | by apply wrap_range].
Qed.

#[export] Instance listing : ReadDir := map_to_list.
#[export] Instance listing_laws : ReadDirLaws listing.
Proof. intros d. done. Qed.

Definition epoch : DateTime := mkInstant 0 eq_refl.
Definition sample (s : string) (n : Z) : WalEntry :=
  mkWalEntry n epoch Insert Graph s [].

End Example.

Section theorems.
Context `{C : Chrono} `{K : Crc32} `{R : ReadDir}.
Context `{!ChronoLaws C} `{!Crc32Laws K} `{!ReadDirLaws R}.

#[local] Arguments seg_log : simpl never.
#[local] Arguments dir_of : simpl never.
#[local] Arguments log_bytes : simpl never.
#[local] Arguments serialize : simpl never.

(** ** Fresh logs and sequences of operations *)

Inductive wal_op :=
| DoAppend (t : Z) (e : WalEntry)
| DoCheckpoint (t : Z) (now : DateTime)
| DoSync (t : Z).

Definition run_op (op : wal_op) : SR World WalError unit :=
  match op with
  | DoAppend t e => _ ← append (io_ok t) e; mret ()
  | DoCheckpoint t now => _ ← checkpoint (io_ok t) now; mret ()
  | DoSync t => sync true t
  end.

Fixpoint run (ops : list wal_op) : SR World WalError unit :=
  match ops with [] => mret () | op :: ops => _ ← run_op op; run ops end.

(** The abstract log: the entries in order, numbered from [n]. *)
Fixpoint spec_log (n : Z) (ops : list wal_op) : list WalEntry :=
  match ops with
  | [] => []
  | DoAppend _ e :: ops => with_sequence n e :: spec_log (n + 1) ops
  | DoCheckpoint _ now :: ops =>
    with_sequence n (checkpoint_entry now) :: spec_log (n + 1) ops
  | DoSync _ :: ops => spec_log n ops
  end.

Lemma checkpoint_inv w log t now :
  inv w log → next_sequence (writer w) + 1 < 2 ^ 64 →
  readable (with_sequence (next_sequence (writer w)) (checkpoint_entry now)) →
  ∃ w', checkpoint (io_ok t) now w = (w', Ok (next_sequence (writer w))) ∧
    inv w' (log ++ [with_sequence (next_sequence (writer w)) (checkpoint_entry now)]) ∧
    durable w' ∧ next_sequence (writer w') = next_sequence (writer w) + 1.
Proof.
  intros Hi Hn Hr. destruct (append_inv w log t _ Hi Hn Hr) as (w1 & Ha & Hi1 & Hn1 & _).
  destruct (sync_inv w1 _ t Hi1) as (w2 & Hs & Hi2 & Hd & Hn2 & _).
  exists w2. unfold checkpoint, mbind, sr_bind. rewrite Ha. cbn [final_sync_ok io_ok instant].
  rewrite Hs. split_and!; try done. lia.
Qed.

Lemma run_inv ops w log :
  inv w log → next_sequence (writer w) + Z.of_nat (length ops) < 2 ^ 64 →
  Forall readable (spec_log (next_sequence (writer w)) ops) →
  ∃ w', run ops w = (w', Ok ()) ∧
    inv w' (log ++ spec_log (next_sequence (writer w)) ops).
Proof.
  revert w log. induction ops as [|op ops IH]; intros w log Hi Hn Hr.
  - exists w. simpl. by rewrite app_nil_r.
  - cbn [length] in Hn. destruct op as [t e|t now|t]; cbn [spec_log] in *.
    + apply Forall_cons in Hr as [Hr Hrs].
      destruct (append_inv w log t e Hi ltac:(lia) Hr) as (w1 & Ha & Hi1 & Hn1 & _).
      destruct (IH w1 _ Hi1) as (w2 & Hrun & Hi2); rewrite ?Hn1 in *; [lia|done|].
      exists w2. cbn [run run_op]. unfold mbind, sr_bind. rewrite Ha. cbn. rewrite Hrun.
      split; [done|]. by rewrite <-(assoc_L (++)) in Hi2.
    + apply Forall_cons in Hr as [Hr Hrs].
      destruct (checkpoint_inv w log t now Hi ltac:(lia) Hr) as (w1 & Ha & Hi1 & _ & Hn1).
      destruct (IH w1 _ Hi1) as (w2 & Hrun & Hi2); rewrite ?Hn1 in *; [lia|done|].
      exists w2. cbn [run run_op]. unfold mbind, sr_bind. rewrite Ha. cbn. rewrite Hrun.
      split; [done|]. by rewrite <-(assoc_L (++)) in Hi2.
    + destruct (sync_inv w log t Hi) as (w1 & Ha & Hi1 & _ & Hn1 & _).
      destruct (IH w1 _ Hi1) as (w2 & Hrun & Hi2); rewrite ?Hn1 in *; [lia|done|].
      exists w2. cbn [run run_op]. unfold mbind, sr_bind. rewrite Ha, Hrun. done.
Qed.

(** Replaying the directory of an open writer. *)
Lemma replay_inv now wd w log :
  inv w log → replay_all now (mkWalReader wd) (Some (disk w)) =
              Ok (mkIter (stored now <$> log) 0).
Proof.
  intros [(cur & old & Hd & Hw & Ht & _ & _ & Hl & _) _ Hs _ Hr _ _ _].
  unfold replay_all. rewrite Hd, replay_dir_of; try done.
  - rewrite Hl, retain_from_zero; done.
  - eapply Forall_impl; [apply (intact_segs _ _ _ Hr Hl Ht)|].
    intros s [? E]. split; [done|]. rewrite E. apply torn_nil.
  - by rewrite Hl.
Qed.

(** ** Properties *)


(** C2 (refinement).  A writer opened on a new directory and driven by any
    sequence of appends, checkpoints and syncs, rotations included, of entries
    that the reader accepts (at most [MAX_ENTRY_SIZE] bytes, a UTF-8 name)
    behaves as the abstract log: every call succeeds and replay returns exactly
    the entries written, in order, numbered 1, 2, 3, ... *)
Theorem run_refines_log t wd mode max ops now :
  0 ≤ max < 2 ^ 63 → 1 + Z.of_nat (length ops) < 2 ^ 64 →
  Forall readable (spec_log 1 ops) →
  ∃ w0 w, open_with_max_size t wd None mode max = Ok w0 ∧ run ops w0 = (w, Ok ()) ∧
    replay_all now (mkWalReader wd) (Some (disk w)) =
    Ok (mkIter (stored now <$> spec_log 1 ops) 0).
Proof.
  intros Hmax Hlen Hr. destruct (inv_fresh t wd mode max Hmax) as (w0 & Ho & Hi & Hn & _ & _).
  rewrite <-Hn in Hr. destruct (run_inv ops w0 [] Hi) as (w & Hrun & Hi'); [lia|done|].
  exists w0, w. split_and!; try done. rewrite Hn in Hi'. by apply replay_inv.
Qed.


(** [append] without rotation, and the effect of the final sync on a directory
    of segments. *)
Lemma append_no_rotation w t e :
  let n := next_sequence (writer w) in
  let bytes := serialize (with_sequence n e) in
  (max_segment_size (writer w) <?
     wrap 64 (file_size (current_segment (writer w)) + Z.of_nat (length bytes))) = false →
  append (io_ok t) e w =
  match maybe_sync (io_ok t) (grow_segment (Z.of_nat (length bytes))
          (append_bytes bytes (set_next (wrap 64 (n + 1)) w)))
  with
  | (w', Ok _) => (w', Ok n)
  | (w', Err er) => (w', Err er)
  end.
Proof.
  intros n bytes H. unfold append, mbind, sr_bind, sr_get, sr_modify, sr_when.
  cbn [writer set_next max_segment_size current_segment]. fold n. fold bytes. rewrite H.
  reflexivity.
Qed.

Lemma maybe_sync_dir w t cur old :
  disk w = dir_of (cur :: old) → current_file (writer w) = seg_name cur →
  ∃ w' k, maybe_sync (io_ok t) w = (w', Ok ()) ∧
    disk w' = dir_of (mkSeg (sg_start cur) (sg_entries cur) (sg_tail cur) k :: old).
Proof.
  intros Hd Hf.
  assert (Hsync : alter (λ f, mkFile (contents f) (length (contents f))) (current_file (writer w))
    (disk w) = dir_of (mkSeg (sg_start cur) (sg_entries cur) (sg_tail cur)
                         (length (seg_bytes cur)) :: old))
    by (rewrite Hd, Hf; by apply alter_dir_of).
  assert (Hid : disk w = dir_of (mkSeg (sg_start cur) (sg_entries cur) (sg_tail cur)
                                   (sg_synced cur) :: old)) by by rewrite Hd; destruct cur.
  unfold maybe_sync, mbind, sr_bind, sr_get, sr_when. cbn [sync_ok io_ok instant].
  destruct (sync_mode (writer w)) as [|interval|]; [| destruct (interval <=? _) |];
    do 2 eexists; (split; [reflexivity|]); first [exact Hsync | exact Hid].
Qed.

(** A lost append.  The writer reopens a torn segment in append mode
    without truncating it.  If the torn bytes contain the length field of an
    entry that does not fit even with the bytes appended after them, [append]
    succeeds and replay returns what it returned before: the acknowledged entry
    is not there. *)
Theorem append_after_torn_tail_is_lost t wd (mode : SyncMode) max cur old e0 k e1 now :
  wf_segs (cur :: old) → Forall seg_ok (cur :: old) → entries_sorted (seg_log (cur :: old)) →
  wf_entry e0 → (4 ≤ k)%nat → sg_tail cur = take k (serialize e0) →
  (k + length (serialize (with_sequence (resume cur) e1)) < length (serialize e0))%nat →
  resume cur + 1 < 2 ^ 64 → max < 2 ^ 63 →
  Z.of_nat (length (seg_bytes cur)) +
    Z.of_nat (length (serialize (with_sequence (resume cur) e1))) ≤ max →
  ∃ w w', open_with_max_size t wd (Some (dir_of (cur :: old))) mode max = Ok w ∧
    append (io_ok t) e1 w = (w', Ok (resume cur)) ∧
    replay_all now (mkWalReader wd) (Some (disk w')) =
    replay_all now (mkWalReader wd) (Some (dir_of (cur :: old))).
Proof.
  intros Hw Hok Hs Hwf Hk4 Htl Hlen Hres Hmax Hsz.
  set (bytes := serialize (with_sequence (resume cur) e1)) in *.
  assert (0 ≤ resume cur).
  { pose proof (foldl_max_le (sg_start cur) (sg_entries cur)) as [? _].
    apply wf_segs_cons in Hw as (_ & [? _] & _). unfold resume. lia. }
  assert (Hwrap : wrap 64 (resume cur) = resume cur) by (apply wrap_small; unfold in_u; lia).
  pose (cur' := mkSeg (sg_start cur) (sg_entries cur) (sg_tail cur ++ bytes) (sg_synced cur)).
  assert (Hd' : alter (λ f, mkFile (contents f ++ bytes) (synced f)) (seg_name cur)
                  (dir_of (cur :: old)) = dir_of (cur' :: old)).
  { apply alter_dir_of; [done|]. unfold seg_file, seg_bytes. simpl. by rewrite (assoc_L (++)). }
  rewrite open_dir_of, Hwrap by done.
  set (w1 := mkWorld _ _). exists w1.
  edestruct (maybe_sync_dir (grow_segment (Z.of_nat (length bytes)) (append_bytes bytes
    (set_next (wrap 64 (resume cur + 1)) w1))) t cur' old)
    as (w' & n & Hms & Hdisk); [exact Hd' | done |].
  exists w'. split; [done|].
  rewrite append_no_rotation; cbn [w1 writer next_sequence max_segment_size current_segment];
    fold bytes.
  2: { cbn [file_size seg_info]. rewrite wrap_small by (unfold in_u; lia). apply Z.ltb_ge. lia. }
  rewrite Hms. split; [reflexivity|]. unfold replay_all. rewrite Hdisk.
  assert (Hok' : ∀ n, Forall seg_ok (mkSeg (sg_start cur) (sg_entries cur) (sg_tail cur ++ bytes) n :: old)).
  { intros n'. inversion Hok as [|? ? [Hr Ht] Hold]; subst. constructor; [|done].
    split; [done|]. simpl. rewrite Htl. by apply torn_app. }
  rewrite (replay_dir_of now wd (cur :: old)) by done.
  rewrite replay_dir_of;
    first [ apply Hok' | by apply (wf_segs_same_start cur)
          | by rewrite (seg_log_same_entries cur) ].
Qed.

(** An open writer whose newest segment holds exactly one entry. *)
Lemma single_entry_segment w log e :
  inv w (log ++ [e]) →
  file_size (current_segment (writer w)) = Z.of_nat (length (serialize e)) →
  ∃ cur old, disk w = dir_of (cur :: old) ∧ wf_segs (cur :: old) ∧
    Forall (λ s, sg_tail s = []) (cur :: old) ∧ seg_log old = log ∧
    current_file (writer w) = seg_name cur ∧ current_segment (writer w) = seg_info cur.
Proof.
  intros [(cur & old & Hd & Hw & Ht & _ & _ & Hl & Hf & Hseg) _ _ _ _ _ _ _] Hsz.
  exists cur, old. split_and!; try done.
  rewrite Hseg in Hsz. cbn in Hsz. apply Nat2Z.inj in Hsz.
  assert (sg_tail cur = []) as Htl by by inversion Ht.
  unfold seg_bytes in Hsz. rewrite Htl, app_nil_r in Hsz.
  rewrite seg_log_cons in Hl. destruct (sg_entries cur) as [|x es _] eqn:E using rev_ind.
  { pose proof (length_serialize e). change (log_bytes []) with (@nil byte) in Hsz. cbn [length] in Hsz. lia. }
  rewrite (assoc_L (++)) in Hl. apply app_inj_2 in Hl as [Hl [= ->]]; [|done].
  rewrite log_bytes_snoc, length_app in Hsz. pose proof (length_log_bytes es).
  assert (es = []) as -> by (apply nil_length_inv; lia). by rewrite app_nil_r in Hl.
Qed.

(** A lost segment.  [append] numbers the entry before it rotates, so the
    file it rotates to carries the number of the following entry; an explicit
    [rotate] right after it re-creates, that is truncates, the same file.  The
    entry whose [append] returned [Ok] is gone. *)
Theorem rotate_after_rotating_append w log t t' e now wd :
  inv w log → next_sequence (writer w) + 1 < 2 ^ 64 →
  readable (with_sequence (next_sequence (writer w)) e) →
  max_segment_size (writer w) < file_size (current_segment (writer w)) +
    Z.of_nat (length (serialize (with_sequence (next_sequence (writer w)) e))) →
  ∃ w1 w2, append (io_ok t) e w = (w1, Ok (next_sequence (writer w))) ∧
    rotate (io_ok t') w1 = (w2, Ok ()) ∧
    replay_all now (mkWalReader wd) (Some (disk w1)) =
      Ok (mkIter (stored now <$> (log ++ [with_sequence (next_sequence (writer w)) e])) 0) ∧
    replay_all now (mkWalReader wd) (Some (disk w2)) = Ok (mkIter (stored now <$> log) 0).
Proof.
  intros Hi Hn Hr Hbig.
  destruct (append_inv w log t e Hi Hn Hr) as (w1 & Ha & Hi1 & Hn1 & _ & _ & _ & Hrot).
  destruct (Hrot Hbig) as [Hst Hsz].
  destruct (sync_inv w1 _ t' Hi1) as (ws & Hs & His & _ & Hns & Hcs & _ & _).
  rewrite <-Hcs in Hst, Hsz.
  destruct (single_entry_segment ws log _ His Hsz) as (cur & old & Hd & Hw & Ht & Hl & Hf & Hseg).
  assert (Hstart : sg_start cur = next_sequence (writer ws))
    by (rewrite Hseg in Hst; cbn in Hst; lia).
  pose (new := mkSeg (sg_start cur) [] [] 0).
  assert (Hd' : <[segment_filename (next_sequence (writer ws)) := mkFile [] 0]> (disk ws) =
                dir_of (new :: old)).
  { rewrite Hd, <-Hstart. unfold dir_of. cbn [fmap list_fmap list_to_map foldr].
    by rewrite insert_insert_eq. }
  eexists w1, _. split; [done|]. split.
  { unfold rotate. cbn [rotate_sync_ok io_ok instant]. unfold mbind, sr_bind. rewrite Hs. reflexivity. }
  split; [by apply replay_inv|]. cbn [disk set_segment set_disk]. unfold replay_all.
  assert (Hwn : wf_segs (new :: old)) by by apply (wf_segs_same_start cur).
  assert (Hln : seg_log (new :: old) = log) by (rewrite seg_log_cons, Hl; by rewrite app_nil_r).
  change (create_ok (io_ok t')) with true. cbn [create].
  rewrite Hd', replay_dir_of; try done; rewrite ?Hln.
  - rewrite retain_from_zero; [done|]. apply (inv_readable _ _ Hi).
  - apply Forall_cons. split; [split; [constructor|apply torn_nil]|].
    assert (Hrl : Forall readable (seg_log (new :: old))) by (rewrite Hln; apply (inv_readable _ _ Hi)).
    assert (Htn : Forall (λ s, sg_tail s = []) (new :: old)) by (inversion Ht; by constructor).
    pose proof (intact_segs _ _ _ Hrl eq_refl Htn) as Hin. inversion Hin as [|? ? _ Hio]; subst.
    eapply Forall_impl; [exact Hio|]. intros s [? E]. split; [done|]. rewrite E. apply torn_nil.
  - apply (inv_sorted _ _ Hi).
Qed.

(** Pruning, what it does.  With a segment starting at or after the
    checkpoint, pruning removes exactly the segments starting before it, returns
    their number, and never leaves the directory empty; otherwise it removes
    nothing. *)
Theorem prune_removes_older_segments wd segs ckpt now :
  wf_segs segs → Forall seg_ok segs → entries_sorted (seg_log segs) →
  ∃ segs' n, prune_segments_before wd (Some (dir_of segs)) ckpt = Ok (Some (dir_of segs'), n) ∧
    (n + length segs' = length segs)%nat ∧ (segs ≠ [] → segs' ≠ []) ∧
    (segs' = segs ∨ segs' = retain (λ s, ckpt <=? sg_start s) segs) ∧
    replay_all now (mkWalReader wd) (Some (dir_of segs')) =
    Ok (mkIter (retain (λ e, 0 <=? sequence e) (stored now <$> seg_log segs')) 0).
Proof.
  intros Hw Hok Hs. rewrite prune_dir_of by done.
  destruct (existsb _ segs) eqn:Hex.
  - eexists _, _. split; [reflexivity|]. split_and!.
    + clear. induction segs as [|s segs IH]; simpl; [done|].
      destruct (Z.leb_spec ckpt (sg_start s)), (Z.ltb_spec (sg_start s) ckpt); simpl; lia.
    + intros _. apply existsb_exists in Hex as (s & Hin & Hc).
      intros E. apply (not_elem_of_nil s). rewrite <-E, elem_of_retain.
      split; [by apply list_elem_of_In | done].
    + by right.
    + apply replay_dir_of; [by apply wf_segs_retain | | by apply seg_log_retain_sorted].
      rewrite Forall_forall in *. intros s [? _]%elem_of_retain. by apply Hok.
  - exists segs, 0%nat. split_and!; try done; [by left | by apply replay_dir_of].
Qed.

(** Pruning, what it loses.  The segment that holds the checkpoint may
    start before it: pruning then deletes that segment, and with it entries at
    or after the checkpoint, which replay no longer returns. *)
Theorem prune_loses_entries_after_checkpoint wd segs ckpt s s' e now :
  wf_segs segs → Forall seg_ok segs → entries_sorted (seg_log segs) →
  s ∈ segs → s' ∈ segs → sg_start s < ckpt ≤ sg_start s' →
  e ∈ sg_entries s → 0 ≤ ckpt ≤ sequence e →
  ∃ d n es es', prune_segments_before wd (Some (dir_of segs)) ckpt = Ok (Some d, n) ∧
    replay_from now (mkWalReader wd) (Some (dir_of segs)) ckpt = Ok (mkIter es 0) ∧
    stored now e ∈ es ∧
    replay_from now (mkWalReader wd) (Some d) ckpt = Ok (mkIter es' 0) ∧
    stored now e ∉ es'.
Proof.
  intros Hw Hok Hs Hin Hin' Hlt He Hck. rewrite prune_dir_of by done.
  assert (existsb (λ s, ckpt <=? sg_start s) segs = true) as ->.
  { apply existsb_exists. exists s'. split; [by apply list_elem_of_In|]. apply Z.leb_le. lia. }
  eexists _, _, _, _. split; [reflexivity|]. split; [by apply replay_dir_of|]. split_and!.
  - apply elem_of_retain. split; [|simpl; apply Z.leb_le; lia].
    apply list_elem_of_fmap. exists e. split; [done|]. apply elem_of_seg_log. eauto.
  - apply replay_dir_of; [by apply wf_segs_retain | | by apply seg_log_retain_sorted].
    rewrite Forall_forall in *. intros x [? _]%elem_of_retain. by apply Hok.
  - intros [(e' & E & (x & [Hx Hc]%elem_of_retain & Hex)%elem_of_seg_log)%list_elem_of_fmap _]%elem_of_retain.
    pose proof (segment_order segs s x e e' Hw Hs Hin Hx ltac:(lia) He Hex) as Hord.
    apply (f_equal sequence) in E. simpl in E. lia.
Qed.

(** Searching segments newest first. *)
Definition is_checkpoint (e : WalEntry) : bool := bool_decide (operation e = Checkpoint).

Lemma last_checkpoint_in_head es :
  last_checkpoint_in es None = (λ e, Some (sequence e)) <$> head (retain is_checkpoint es).
Proof.
  induction es as [|e es IH]; simpl; [done|]. unfold is_checkpoint at 1.
  case_decide; [by rewrite bool_decide_eq_true_2 | by rewrite bool_decide_eq_false_2].
Qed.

Lemma retain_checkpoint_stored now es :
  retain is_checkpoint (stored now <$> es) = stored now <$> retain is_checkpoint es.
Proof.
  induction es as [|e es IH]; [done|]. cbn [fmap list_fmap retain].
  change (is_checkpoint (stored now e)) with (is_checkpoint e).
  destruct (is_checkpoint e); cbn [fmap list_fmap]; by rewrite <-IH.
Qed.

Lemma find_checkpoint_dir now all segs :
  wf_segs all → (∀ s, s ∈ segs → s ∈ all ∧ seg_ok s) →
  find_checkpoint_rev now (dir_of all) (seg_info <$> segs) None =
  Ok (sequence <$> last (retain is_checkpoint (seg_log segs))).
Proof.
  intros Hw. induction segs as [|s segs IH]; intros Hs; [done|].
  destruct (Hs s) as [Hin Hok]; [set_solver|].
  cbn [fmap list_fmap find_checkpoint_rev]. rewrite read_seg by done. cbn [mbind result_bind].
  rewrite last_checkpoint_in_head, retain_reverse, head_reverse, retain_checkpoint_stored.
  rewrite seg_log_cons, retain_app, last_app, fmap_last.
  destruct (last (retain is_checkpoint (sg_entries s))); simpl; [done|].
  apply IH. intros s' Hs'. apply Hs. rewrite elem_of_cons. auto.
Qed.

(** Checkpoint search.  The result is the sequence number of the last
    checkpoint of the log, the largest of all checkpoints; [None] exactly when
    the log has none. *)
Theorem find_last_checkpoint_is_last now wd w log :
  inv w log →
  find_last_checkpoint now (mkWalReader wd) (Some (disk w)) =
    Ok (sequence <$> last (retain is_checkpoint log)) ∧
  (∀ e, e ∈ log → operation e = Checkpoint →
    ∃ c, sequence <$> last (retain is_checkpoint log) = Some c ∧ sequence e ≤ c).
Proof.
  intros Hi. pose proof Hi as [(cur & old & Hd & Hw & Ht & _ & _ & Hl & _) _ Hs _ Hr _ _ _].
  split.
  - unfold find_last_checkpoint. rewrite Hd, list_segments_dir_of by done.
    cbn [mbind result_bind default option.from_option id].
    rewrite <-fmap_reverse, reverse_involutive, (find_checkpoint_dir now (cur :: old)), Hl; try done.
    intros s Hin. split; [done|]. pose proof (intact_segs _ _ _ Hr Hl Ht) as Hint.
    rewrite Forall_forall in Hint. destruct (Hint s Hin) as [? E]. split; [done|].
    rewrite E. apply torn_nil.
  - intros e He Hop. assert (Hin : e ∈ retain is_checkpoint log).
    { apply elem_of_retain. split; [done|]. by apply bool_decide_eq_true_2. }
    assert (Hsub : entries_sorted (retain is_checkpoint log)).
    { clear -Hs. induction Hs as [|x l Hs IH Hx]; simpl; [constructor|].
      destruct (is_checkpoint x); [|done]. constructor; [done|].
      rewrite Forall_forall in *. intros y [Hy _]%elem_of_retain. by apply Hx. }
    destruct (retain is_checkpoint log) as [|c l _] using rev_ind; [by apply elem_of_nil in Hin|].
    rewrite last_snoc. exists (sequence c). split; [done|].
    apply elem_of_app in Hin as [Hin| ->%list_elem_of_singleton]; [|done].
    apply Z.lt_le_incl. apply (StronglySorted_app_1_elem_of _ _ _ e c Hsub); set_solver.
Qed.

(** ** The entry format *)

(** C40 (round trip).  Deserializing what [serialize] produced, after the reader
    has taken the length field, gives the entry back with its timestamp at
    millisecond precision; the length field is the length of the rest. *)
Theorem deserialize_serialize now e :
  wf_entry e →
  from_le_bytes (take 4 (serialize e)) = Z.of_nat (length (drop 4 (serialize e))) ∧
  deserialize now (drop 4 (serialize e)) (from_le_bytes (take 4 (serialize e))) =
    Ok (stored now e) ∧
  timestamp_millis (timestamp (stored now e)) = timestamp_millis (timestamp e).
Proof.
  intros Hwf. rewrite header_of_entry by done. split_and!.
  - rewrite length_drop, length_serialize. unfold entry_len. lia.
  - rewrite serialize_split, drop_app_length' by by rewrite length_to_le_bytes.
    by apply deserialize_inner.
  - simpl. destruct (timestamp_millis_opt_some (timestamp e)) as (t' & -> & E). done.
Qed.

(** Corruption is contained.  A complete block whose bytes do not
    deserialize (a checksum mismatch, a bad code, invalid UTF-8) is skipped:
    every entry before and after it is still returned. *)
Theorem corrupt_block_is_skipped now es1 body es2 :
  Forall readable es1 → Forall readable es2 →
  0 < Z.of_nat (length body) ≤ MAX_ENTRY_SIZE →
  is_ok (deserialize now body (Z.of_nat (length body))) = false →
  scan now (log_bytes es1 ++ block body ++ log_bytes es2) =
  (stored now <$> es1) ++ (stored now <$> es2).
Proof.
  intros H1 H2 Hb Herr. destruct (deserialize _ _ _) as [|err] eqn:E; [done|].
  pose proof (scan_skips_block now es1 body es2 [] err H1 H2 (torn_stops _ _ torn_nil) Hb E) as H.
  by rewrite app_nil_r in H.
Qed.

(** An oversized entry.  [append] has no size check, but the reader stops
    at the first entry longer than [MAX_ENTRY_SIZE]: it and everything after it
    in the segment are not returned. *)
Theorem oversized_entry_hides_the_rest now es e rest :
  Forall readable es → wf_entry e → MAX_ENTRY_SIZE < entry_len e →
  scan now (log_bytes es ++ serialize e ++ rest) = stored now <$> es.
Proof.
  intros Hes Hwf Hbig. apply scan_log; [done|]. intros fuel pre acc. cbn [read_loop].
  pose proof (length_serialize e).
  rewrite (proj2 (Nat.leb_le _ _)) by (rewrite !length_app; lia).
  rewrite header_at, take_app_le, header_of_entry by (done || lia).
  destruct (entry_len e =? 0); [done|].
  by rewrite (proj2 (Z.ltb_lt _ _)).
Qed.

End theorems.

(** ** Witnesses *)

Module Witness.
Import Example.

Definition fresh_log (mode : SyncMode) (max : Z) : World :=
  mkWorld (mkWalWriter "wal" (segment_filename 0) (mkSegmentInfo (segment_filename 0) 0 0) 1
             max mode 0) {[ segment_filename 0 := mkFile [] 0 ]}.

Lemma inv_fresh_log mode max : 0 ≤ max < 2 ^ 63 → inv (fresh_log mode max) [].
Proof.
  intros Hmax. destruct (inv_fresh 0 "wal" mode max Hmax) as (w & Ho & Hi & _).
  unfold open_with_max_size in Ho. cbn in Ho. by injection Ho as <-.
Qed.

(** Decide [readable] by evaluation. *)
Lemma readable_bool e :
  ((0 <=? sequence e) && (sequence e <? 2 ^ 64) && utf8_string (entity_id e) &&
   (entry_len e <=? MAX_ENTRY_SIZE)) = true → readable e.
Proof.
  unfold entry_len, MAX_ENTRY_SIZE. intros H. apply andb_true_iff in H as [[[H1 H2]%andb_true_iff H3]%andb_true_iff H4].
  apply Z.leb_le in H1, H4. apply Z.ltb_lt in H2.
  unfold readable, wf_entry, in_u, entry_len, MAX_ENTRY_SIZE. split_and!; [lia..|done|lia|lia].
Qed.

Ltac each_readable :=
  repeat (apply Forall_cons; split); try apply Forall_nil_2; apply readable_bool; reflexivity.

(** A log of one appended entry. *)
Definition one_entry (mode : SyncMode) : World :=
  fst (append (io_ok 1) (sample "a" 0) (fresh_log mode 1000)).






Lemma run_refines_log_witness :
  ∃ w0 w, open_with_max_size 0 "wal" None Async 60 = Ok w0 ∧
    run [DoAppend 1 (sample "a" 0); DoCheckpoint 2 epoch; DoSync 3; DoAppend 4 (sample "b" 0)] w0 = (w, Ok ()) ∧
    replay_all epoch (mkWalReader "wal") (Some (disk w)) =
    Ok (mkIter [sample "a" 1; with_sequence 2 (checkpoint_entry epoch); sample "b" 3] 0).
Proof.
  apply (run_refines_log 0 "wal" Async 60
    [DoAppend 1 (sample "a" 0); DoCheckpoint 2 epoch; DoSync 3; DoAppend 4 (sample "b" 0)] epoch);
    [lia | reflexivity |].
  each_readable.
Defined.

(** The power fails inside the second append of an [Async] log, when the first
    entry and seven bytes of the second are on the disk. *)
Definition cut_append : World := fst (append (io_ok 6) (sample "b" 0) (one_entry Async)).


Lemma torn_not_whole now f :
  (length (log_bytes (scan now (contents f))) <? length (contents f))%nat = true →
  ¬ whole_entries now f.
Proof. intros H%Nat.ltb_lt E. rewrite E in H. lia. Qed.

(** What that crash leaves: the first entry, and torn bytes. *)
Definition cut_disk : gmap string file :=
  crash (λ _ : string, (length (serialize (sample "a" 1)) + 7)%nat) (disk cut_append).

Example cut_append_replays :
  replay_all epoch (mkWalReader "wal") (Some cut_disk) = Ok (mkIter [sample "a" 1] 0).
Proof. reflexivity. Qed.
Example cut_append_torn :
  ¬ whole_entries epoch (default (mkFile [] 0) (cut_disk !! segment_filename 0)).
Proof. apply torn_not_whole. vm_compute. reflexivity. Qed.

Definition big : WalEntry := mkWalEntry 1 epoch Insert Graph "big" (replicate 100 Byte.x00).
Definition torn_seg : seg := mkSeg 0 [] (take 10 (serialize big)) 0.

Lemma append_after_torn_tail_is_lost_witness :
  ∃ w w', open_with_max_size 0 "wal" (Some (dir_of [torn_seg])) Fsync 1000 = Ok w ∧
    append (io_ok 0) (sample "a" 0) w = (w', Ok 1) ∧
    replay_all epoch (mkWalReader "wal") (Some (disk w')) =
    replay_all epoch (mkWalReader "wal") (Some (dir_of [torn_seg])).
Proof.
  apply (append_after_torn_tail_is_lost 0 "wal" Fsync 1000 torn_seg [] big 10 (sample "a" 0) epoch).
  - split; [repeat constructor | by repeat constructor].
  - apply Forall_singleton. split; [constructor | apply torn_take].
    + split_and!; [by vm_compute | reflexivity | by vm_compute].
    + vm_compute. lia.
  - constructor.
  - split_and!; [by vm_compute | reflexivity | by vm_compute].
  - lia.
  - reflexivity.
  - vm_compute. lia.
  - reflexivity.
  - reflexivity.
  - vm_compute. discriminate.
Defined.

Lemma rotate_after_rotating_append_witness :
  ∃ w1 w2, append (io_ok 0) (sample "a" 0) (fresh_log Fsync 10) = (w1, Ok 1) ∧
    rotate (io_ok 1) w1 = (w2, Ok ()) ∧
    replay_all epoch (mkWalReader "wal") (Some (disk w1)) = Ok (mkIter [sample "a" 1] 0) ∧
    replay_all epoch (mkWalReader "wal") (Some (disk w2)) = Ok (mkIter [] 0).
Proof.
  apply (rotate_after_rotating_append (fresh_log Fsync 10) [] 0 1 (sample "a" 0) epoch "wal").
  - by apply inv_fresh_log.
  - reflexivity.
  - apply readable_bool. reflexivity.
  - reflexivity.
Defined.

(** Segments 0, 3 and 6 with entries 1-2, 3-5 and 6. *)
Definition three_segs : list seg :=
  [ mkSeg 6 [sample "f" 6] [] 0;
    mkSeg 3 [sample "c" 3; sample "d" 4; sample "e" 5] [] 0;
    mkSeg 0 [sample "a" 1; sample "b" 2] [] 0 ].

Lemma three_segs_ok :
  wf_segs three_segs ∧ Forall seg_ok three_segs ∧ entries_sorted (seg_log three_segs).
Proof.
  split_and!.
  - split; repeat constructor; reflexivity || discriminate.
  - repeat (apply Forall_cons; split); try apply Forall_nil_2;
      (split; [each_readable | apply torn_nil]).
  - change (StronglySorted (λ a b, sequence a < sequence b)
      [sample "a" 1; sample "b" 2; sample "c" 3; sample "d" 4; sample "e" 5; sample "f" 6]).
    repeat constructor; simpl; lia.
Qed.

Lemma prune_removes_older_segments_witness :
  ∃ segs' n, prune_segments_before "wal" (Some (dir_of three_segs)) 4 = Ok (Some (dir_of segs'), n) ∧
    (n + length segs' = 3)%nat ∧ (three_segs ≠ [] → segs' ≠ []) ∧
    (segs' = three_segs ∨ segs' = retain (λ s, 4 <=? sg_start s) three_segs) ∧
    replay_all epoch (mkWalReader "wal") (Some (dir_of segs')) =
    Ok (mkIter (retain (λ e, 0 <=? sequence e) (stored epoch <$> seg_log segs')) 0).
Proof.
  apply (prune_removes_older_segments "wal" three_segs 4 epoch); apply three_segs_ok.
Defined.

Lemma prune_loses_entries_witness :
  ∃ d n es es', prune_segments_before "wal" (Some (dir_of three_segs)) 4 = Ok (Some d, n) ∧
    replay_from epoch (mkWalReader "wal") (Some (dir_of three_segs)) 4 = Ok (mkIter es 0) ∧
    sample "e" 5 ∈ es ∧
    replay_from epoch (mkWalReader "wal") (Some d) 4 = Ok (mkIter es' 0) ∧
    sample "e" 5 ∉ es'.
Proof.
  apply (prune_loses_entries_after_checkpoint "wal" three_segs 4
    (mkSeg 3 [sample "c" 3; sample "d" 4; sample "e" 5] [] 0) (mkSeg 6 [sample "f" 6] [] 0)
    (sample "e" 5) epoch); try apply three_segs_ok;
    try (apply list_elem_of_In; simpl; auto; fail); simpl; lia.
Defined.

Lemma find_last_checkpoint_witness :
  find_last_checkpoint epoch (mkWalReader "wal") (Some (disk (fresh_log Async 100))) = Ok None ∧
  (∀ e, e ∈ ([] : list WalEntry) → operation e = Checkpoint →
    ∃ c, sequence <$> last (retain is_checkpoint []) = Some c ∧ sequence e ≤ c).
Proof.
  apply (find_last_checkpoint_is_last epoch "wal" (fresh_log Async 100) []).
  by apply inv_fresh_log.
Defined.

Lemma deserialize_serialize_witness :
  from_le_bytes (take 4 (serialize big)) = 133 ∧
  deserialize epoch (drop 4 (serialize big)) 133 = Ok big ∧ ms (timestamp big) = 0.
Proof.
  destruct (deserialize_serialize epoch big) as (H1 & H2 & _);
    [split_and!; [by vm_compute | reflexivity | by vm_compute]|].
  split_and!; [exact H1 | exact H2 | reflexivity].
Defined.

Lemma corrupt_block_is_skipped_witness :
  scan epoch (log_bytes [sample "a" 1] ++ block (replicate 9 Byte.x78) ++ log_bytes [sample "b" 3]) =
  [sample "a" 1; sample "b" 3].
Proof.
  apply (corrupt_block_is_skipped epoch [sample "a" 1] (replicate 9 Byte.x78) [sample "b" 3]).
  - each_readable.
  - each_readable.
  - by vm_compute.
  - reflexivity.
Defined.

(** A payload of [MAX_ENTRY_SIZE] bytes, sealed so that nothing evaluates it. *)
Lemma long_payload : { p : list byte | Z.of_nat (length p) = MAX_ENTRY_SIZE }.
Proof.
  exists (replicate (Z.to_nat MAX_ENTRY_SIZE) Byte.x00).
  rewrite length_replicate. apply Z2Nat.id. done.
Qed.

Definition oversized : WalEntry := mkWalEntry 2 epoch Insert Graph "big" (proj1_sig long_payload).

Lemma oversized_len : entry_len oversized = 33 + MAX_ENTRY_SIZE.
Proof.
  unfold entry_len. rewrite length_inner_bytes. cbn [payload oversized entity_id].
  pose proof (proj2_sig long_payload) as H. cbn beta in H.
  replace (length (as_bytes "big")) with 3%nat by reflexivity. lia.
Qed.

Lemma oversized_entry_witness :
  scan epoch (log_bytes [sample "a" 1] ++ serialize oversized ++ serialize (sample "b" 3)) =
  [sample "a" 1].
Proof.
  apply (oversized_entry_hides_the_rest epoch [sample "a" 1] oversized (serialize (sample "b" 3))).
  - each_readable.
  - split_and!; [by vm_compute | reflexivity |].
    change (entry_len oversized < 2 ^ 32). by rewrite oversized_len.
  - by rewrite oversized_len.
Defined.

End Witness.
