(* ===== verification/LockTable.v ===== *)
(** The lock table of the transaction manager (verisim-octad/src/transaction.rs):
    lock acquisition with upgrade, release, and deadlock detection by breadth
    first search over the wait-for graph.  The order in which a [HashSet] is
    iterated is a parameter. *)

From S2P Require Import Prelude.

(** ** Data *)

Abbreviation Uuid := N.

Inductive LockType := Shared | Exclusive.

#[export] Instance LockType_eq_dec : EqDecision LockType.
Proof. solve_decision. Defined.

Record LockKey := mkLockKey { lk_entity_id : string; lk_modality : string }.

#[export] Instance LockKey_eq_dec : EqDecision LockKey.
Proof. solve_decision. Defined.

#[export] Instance LockKey_countable : Countable LockKey.
Proof.
  refine (inj_countable' (λ k, (lk_entity_id k, lk_modality k))
    (λ p, mkLockKey p.1 p.2) _). by intros [].
Defined.

Record LockInfo := mkLockInfo { holder : Uuid; lock_type : LockType }.

Record LockTable := mkLockTable {
  locks : gmap LockKey (list LockInfo);
  wait_for : gmap Uuid (gset Uuid);
}.

Definition empty_table : LockTable := mkLockTable ∅ ∅.

Inductive TransactionState := Active | Committed | RolledBack.

#[export] Instance TransactionState_eq_dec : EqDecision TransactionState.
Proof. solve_decision. Defined.

Inductive TransactionError :=
  | InvalidState (transaction_id : Uuid) (current : TransactionState) (expected : string)
  | LockConflict (entity_id modality : string) (held_by : Uuid)
  | DeadlockDetected (transaction_id : Uuid) (cycle : list Uuid)
  | TransactionNotFound (id : Uuid)
  | InvalidModality (m : string)
  | VersionConflict (entity_id : string) (expected_version actual_version : Z).

(** Iteration order of a [HashSet<Uuid>]. *)
Class SetIter := set_iter : gset Uuid → list Uuid.
Class SetIterLaws (I : SetIter) := set_iter_perm s : set_iter s ≡ₚ elements s.

(** ** Deadlock detection *)

Section detection.
Context `{SetIter}.

Definition neighbors (g : gmap Uuid (gset Uuid)) (u : Uuid) : list Uuid :=
  match g !! u with Some s => set_iter s | None => [] end.

(** Edges leaving a node outside [visited]. *)
Fixpoint pending (visited : gset Uuid) (l : list (Uuid * gset Uuid)) : nat :=
  match l with
  | [] => 0
  | (u, s) :: l => (if bool_decide (u ∈ visited) then 0 else length (set_iter s)) + pending visited l
  end.

Lemma pending_mono u visited l : (pending ({[u]} ∪ visited) l ≤ pending visited l)%nat.
Proof. induction l as [|[v t] l IH]; [done|]. simpl. repeat case_bool_decide; set_solver || lia. Qed.

Lemma pending_visit u s visited l :
  (u, s) ∈ l → u ∉ visited → (pending ({[u]} ∪ visited) l + length (set_iter s) ≤ pending visited l)%nat.
Proof.
  intros Hin Hu. induction l as [|[v t] l IH]; [by apply elem_of_nil in Hin|].
  simpl. pose proof (pending_mono u visited l). apply elem_of_cons in Hin as [[= <- <-]|Hin].
  - rewrite (bool_decide_eq_true_2 (u ∈ {[u]} ∪ visited)) by set_solver.
    rewrite bool_decide_eq_false_2 by done. lia.
  - specialize (IH Hin). repeat case_bool_decide; set_solver || lia.
Qed.

(** What the loop has before it: the queued paths and the edges that can still
    be followed.  Each turn makes it smaller. *)
Definition remaining (g : gmap Uuid (gset Uuid)) (visited : gset Uuid) (queue : list (list Uuid)) : nat :=
  (length queue + pending visited (map_to_list g))%nat.

Lemma remaining_skip g visited path queue fuel :
  (remaining g visited (path :: queue) < S fuel → remaining g visited queue < fuel)%nat.
Proof. unfold remaining. simpl. lia. Qed.

Lemma remaining_visit g u visited path queue fuel :
  u ∉ visited → (remaining g visited (path :: queue) < S fuel →
  remaining g ({[u]} ∪ visited) (queue ++ ((λ n, path ++ [n]) <$> neighbors g u)) < fuel)%nat.
Proof.
  intros Hu. unfold remaining. simpl. rewrite length_app, length_fmap. unfold neighbors.
  destruct (g !! u) as [s|] eqn:E.
  - pose proof (pending_visit u s visited (map_to_list g)) as Hp.
    rewrite elem_of_map_to_list in Hp. specialize (Hp E Hu). lia.
  - simpl. pose proof (pending_mono u visited (map_to_list g)). lia.
Qed.

(** The loop of [detect_cycle].  It takes a bound on what is before it as an
    argument, so that it has no case for running out of turns. *)
Fixpoint bfs (g : gmap Uuid (gset Uuid)) (start : Uuid) (fuel : nat) (visited : gset Uuid)
    (queue : list (list Uuid)) {struct fuel} : (remaining g visited queue < fuel)%nat → option (list Uuid) :=
  match fuel with
  | O => λ H, False_rect _ (Nat.nlt_0_r _ H)
  | S fuel =>
      match queue with
      | [] => λ _, None
      | path :: queue =>
          match last path with
          | None => λ H, bfs g start fuel visited queue (remaining_skip _ _ _ _ _ H)
          | Some current =>
              if bool_decide (current = start) then λ _, Some path
              else match decide (current ∈ visited) with
                   | left _ => λ H, bfs g start fuel visited queue (remaining_skip _ _ _ _ _ H)
                   | right Hn => λ H, bfs g start fuel ({[current]} ∪ visited)
                       (queue ++ ((λ n, path ++ [n]) <$> neighbors g current))
                       (remaining_visit _ _ _ _ _ _ Hn H)
                   end
          end
      end
  end.

(** The paths the search is seeded with. *)
Definition seeds (g : gmap Uuid (gset Uuid)) (start : Uuid) : list (list Uuid) :=
  (λ n, [start; n]) <$> neighbors g start.

Definition detect_cycle (lt : LockTable) (start : Uuid) : option (list Uuid) :=
  let g := wait_for lt in
  bfs g start (S (remaining g ∅ (seeds g start))) ∅ (seeds g start) (Nat.lt_succ_diag_r _).

(** ** Operations *)

Inductive AcquireAction :=
  | AlreadyHeld
  | Upgrade
  | UpgradeConflict (other_holder : Uuid)
  | Conflict (blocker : Uuid)
  | Grant.

Definition conflicts (a b : LockType) : bool :=
  match a, b with Shared, Shared => false | _, _ => true end.

Definition other_holder (tid : Uuid) (holders : list LockInfo) : Uuid :=
  match list_find (λ h, holder h ≠ tid) holders with Some (_, h) => holder h | None => tid end.

(** Phase 1: the loop over the holders, [all] being the whole slice. *)
Fixpoint inspect (tid : Uuid) (ty : LockType) (all holders : list LockInfo) : AcquireAction :=
  match holders with
  | [] => Grant
  | info :: rest =>
      if bool_decide (holder info = tid) then
        if bool_decide (lock_type info = Shared ∧ ty = Exclusive) then
          if (length all =? 1)%nat then Upgrade else UpgradeConflict (other_holder tid all)
        else AlreadyHeld
      else if conflicts (lock_type info) ty then Conflict (holder info)
      else inspect tid ty all rest
  end.

Definition holders_of (lt : LockTable) (k : LockKey) : list LockInfo := default [] (locks lt !! k).

Definition others (tid : Uuid) (holders : list LockInfo) : list LockInfo :=
  retain (λ i, negb (bool_decide (holder i = tid))) holders.

(** Phase 3. *)
Definition grant (tid : Uuid) (k : LockKey) (ty : LockType) (lt : LockTable) : LockTable :=
  mkLockTable (<[k := others tid (holders_of lt k) ++ [mkLockInfo tid ty]]> (locks lt))
    (delete tid (wait_for lt)).

Definition add_wait (tid blocker : Uuid) (lt : LockTable) : LockTable :=
  mkLockTable (locks lt)
    (<[tid := {[blocker]} ∪ default ∅ (wait_for lt !! tid)]> (wait_for lt)).

Definition clear_wait (tid : Uuid) (lt : LockTable) : LockTable :=
  mkLockTable (locks lt) (delete tid (wait_for lt)).

Definition acquire (tid : Uuid) (entity_id modality : string) (ty : LockType) :
    SR LockTable TransactionError unit := λ lt,
  let k := mkLockKey entity_id modality in
  match inspect tid ty (holders_of lt k) (holders_of lt k) with
  | AlreadyHeld => (lt, Ok ())
  | UpgradeConflict other => (lt, Err (LockConflict entity_id modality other))
  | Conflict blocker =>
      let lt := add_wait tid blocker lt in
      match detect_cycle lt tid with
      | Some cycle => (clear_wait tid lt, Err (DeadlockDetected tid cycle))
      | None => (lt, Err (LockConflict entity_id modality blocker))
      end
  | Upgrade | Grant => (grant tid k ty lt, Ok ())
  end.

Definition drop_holder (tid : Uuid) (holders : list LockInfo) : option (list LockInfo) :=
  match others tid holders with [] => None | hs => Some hs end.

Definition release_all (tid : Uuid) (lt : LockTable) : LockTable :=
  mkLockTable (omap (drop_holder tid) (locks lt))
    ((λ s, s ∖ {[tid]}) <$> delete tid (wait_for lt)).

Definition is_locked (lt : LockTable) (entity_id modality : string) : bool :=
  match locks lt !! mkLockKey entity_id modality with
  | Some hs => negb (bool_decide (hs = []))
  | None => false
  end.

Definition holders (lt : LockTable) (entity_id modality : string) : list (Uuid * LockType) :=
  (λ i, (holder i, lock_type i)) <$> holders_of lt (mkLockKey entity_id modality).

(** ** The wait-for graph *)

Definition waits (g : gmap Uuid (gset Uuid)) (u v : Uuid) : Prop :=
  ∃ s, g !! u = Some s ∧ v ∈ s.

(** A closed walk, written as the code writes it: first and last node [u]. *)
Definition cycle_at (g : gmap Uuid (gset Uuid)) (u : Uuid) (p : list Uuid) : Prop :=
  head p = Some u ∧ last p = Some u ∧ (2 ≤ length p)%nat ∧ Sorted (waits g) p.

Definition acyclic (g : gmap Uuid (gset Uuid)) : Prop := ∀ u, ¬ tc (waits g) u u.

(** What the lock table maintains. *)
Definition exclusive_alone (hs : list LockInfo) : Prop :=
  hs ≠ [] ∧ NoDup (holder <$> hs) ∧
  ∀ i, i ∈ hs → lock_type i = Exclusive → hs = [i].

Record table_inv (lt : LockTable) : Prop := mkTableInv {
  inv_holders : ∀ k hs, locks lt !! k = Some hs → exclusive_alone hs;
  inv_acyclic : acyclic (wait_for lt);
}.

End detection.

(** ** Breadth-first search *)

Section search.
Context `{SetIterLaws} (g : gmap Uuid (gset Uuid)).

Lemma elem_of_neighbors u v : v ∈ neighbors g u ↔ waits g u v.
Proof.
  unfold neighbors, waits. destruct (g !! u) as [s|] eqn:E.
  - rewrite set_iter_perm, elem_of_elements. naive_solver.
  - split; [by intros ?%elem_of_nil | naive_solver].
Qed.

(** [d u] is the number of nodes of the path that visited [u]; every edge out
    of the start or of a visited node leads to a visited node or to the end of
    a queued path, at most one node further. *)
Record bfs_inv (start : Uuid) (visited : gset Uuid) (d : Uuid → nat)
    (queue : list (list Uuid)) : Prop := mkBfsInv {
  bi_paths : ∀ p, p ∈ queue → head p = Some start ∧ (2 ≤ length p)%nat ∧ Sorted (waits g) p;
  bi_levels : StronglySorted (λ p q, (length p ≤ length q ≤ S (length p))%nat) queue;
  bi_start : start ∉ visited;
  bi_d_start : d start = 1%nat;
  bi_depth : ∀ u p, u ∈ visited → p ∈ queue → (d u ≤ length p)%nat;
  bi_frontier : ∀ u v, u = start ∨ u ∈ visited → waits g u v →
    (v ∈ visited ∧ (d v ≤ S (d u))%nat) ∨
    ∃ p, p ∈ queue ∧ last p = Some v ∧ (length p ≤ S (d u))%nat;
}.

Lemma bfs_inv_walk start visited d queue u rest :
  bfs_inv start visited d queue → (u = start ∨ u ∈ visited) →
  Sorted (waits g) (u :: rest) → last (u :: rest) = Some start → rest ≠ [] →
  ∃ p, p ∈ queue ∧ (length p ≤ d u + length rest)%nat.
Proof.
  intros Hi. revert u. induction rest as [|v rest IH]; intros u Hu Hs Hl Hr; [done|].
  apply Sorted_inv in Hs as [Hs Huv%HdRel_inv].
  destruct (bi_frontier _ _ _ _ Hi u v Hu Huv) as [[Hv Hd]|(p & ? & ? & ?)].
  - destruct (IH v) as (p & ? & ?); [by right|done| |..].
    + by rewrite last_cons_cons in Hl.
    + intros ->. simpl in Hl. injection Hl as ->. by apply (bi_start _ _ _ _ Hi).
    + exists p. simpl. split; [done|lia].
  - exists p. simpl. split; [done|lia].
Qed.

Lemma bfs_inv_cycle start visited d queue p' :
  bfs_inv start visited d queue → cycle_at g start p' →
  ∃ p, p ∈ queue ∧ (length p ≤ length p')%nat.
Proof.
  intros Hi (Hh & Hl & Hlen & Hs). destruct p' as [|u rest]; [done|]. injection Hh as ->.
  destruct (bfs_inv_walk _ _ _ _ start rest Hi) as (p & ? & Hle); try done; [by left| |].
  - intros ->. simpl in Hlen. lia.
  - rewrite (bi_d_start _ _ _ _ Hi) in Hle. exists p. simpl. split; [done|lia].
Qed.

Lemma bfs_inv_pop start visited d path queue current :
  bfs_inv start visited d (path :: queue) → last path = Some current → current ∈ visited →
  bfs_inv start visited d queue.
Proof.
  intros [Hp Hlv Hst Hd Hdep Hf] Hl Hv. split; try done.
  - intros p Hin. apply Hp. by right.
  - by apply StronglySorted_inv in Hlv as [? _].
  - intros u p Hu Hin. apply Hdep; [done|by right].
  - intros u v Hu Huv. destruct (Hf u v Hu Huv) as [?|(p & Hin & Hlp & Hle)]; [by left|].
    apply elem_of_cons in Hin as [->|?]; [|by eauto].
    left. rewrite Hl in Hlp. injection Hlp as ->. split; [done|].
    specialize (Hdep v path Hv ltac:(by left)). lia.
Qed.

Lemma bfs_inv_visit start visited d path queue current :
  bfs_inv start visited d (path :: queue) → last path = Some current →
  current ≠ start → current ∉ visited →
  bfs_inv start ({[current]} ∪ visited) (λ u, if decide (u = current) then length path else d u)
    (queue ++ ((λ n, path ++ [n]) <$> neighbors g current)).
Proof.
  intros [Hp Hlv Hst Hd Hdep Hf] Hl Hne Hv.
  apply StronglySorted_inv in Hlv as [Hlv Hhd]. rewrite Forall_forall in Hhd.
  destruct (Hp path ltac:(by left)) as (Hph & Hplen & Hps).
  split.
  - intros p [?|(n & -> & Hn%elem_of_neighbors)%list_elem_of_fmap]%elem_of_app.
    { apply Hp. by right. }
    split_and!; [by destruct path | rewrite length_app; simpl; lia |].
    apply Sorted_snoc; [done|]. apply last_Some in Hl as [path' ->]. by constructor.
  - apply StronglySorted_app_2; [| done |].
    + intros p q Hin (n & -> & _)%list_elem_of_fmap. specialize (Hhd p Hin).
      rewrite length_app. simpl. lia.
    + clear. induction (neighbors g current) as [|n l IH]; [constructor|]. simpl. constructor; [done|].
      apply Forall_forall. intros ? (m & -> & _)%list_elem_of_fmap. rewrite !length_app. simpl. lia.
  - set_solver.
  - by rewrite decide_False.
  - intros u p Hu [Hin|(n & -> & _)%list_elem_of_fmap]%elem_of_app.
    + case_decide; [by apply Hhd|]. apply Hdep; [set_solver | by right].
    + rewrite length_app. simpl. case_decide; [lia|].
      specialize (Hdep u path ltac:(set_solver) ltac:(by left)). lia.
  - intros u v Hu Huv. destruct (decide (u = current)) as [->|Huc].
    + right. exists (path ++ [v]). rewrite last_snoc, length_app. simpl.
      split_and!; [|done|lia]. apply elem_of_app. right.
      apply list_elem_of_fmap. exists v. by rewrite elem_of_neighbors.
    + destruct (Hf u v) as [[Hvv ?]|(p & Hin & Hlp & Hle)]; [set_solver|done|..].
      * left. split; [set_solver|]. by rewrite decide_False by (intros ->; done).
      * apply elem_of_cons in Hin as [->|Hin]; [|right; exists p; rewrite elem_of_app; by auto].
        rewrite Hl in Hlp. injection Hlp as <-. left. rewrite decide_True by done. set_solver.
Qed.

Lemma bfs_correct fuel start visited d queue Hf :
  bfs_inv start visited d queue →
  match bfs g start fuel visited queue Hf with
  | Some p => cycle_at g start p ∧ ∀ p', cycle_at g start p' → (length p ≤ length p')%nat
  | None => ∀ p', ¬ cycle_at g start p'
  end.
Proof.
  revert visited d queue Hf. induction fuel as [|fuel IH]; intros visited d queue Hf Hi; [lia|].
  destruct queue as [|path queue]; simpl.
  { intros p' Hc. by destruct (bfs_inv_cycle _ _ _ _ _ Hi Hc) as (p & ?%elem_of_nil & _). }
  destruct (bi_paths _ _ _ _ Hi path ltac:(by left)) as (Hh & Hlen & Hs).
  destruct (last path) as [current|] eqn:Hl; [|apply last_None in Hl; by subst].
  case_bool_decide as Hst.
  { subst current. split; [done|]. intros p' Hc.
    destruct (bfs_inv_cycle _ _ _ _ _ Hi Hc) as (p & Hin & Hle).
    apply elem_of_cons in Hin as [->|Hin]; [done|].
    pose proof (bi_levels _ _ _ _ Hi) as [_ Hlv]%StronglySorted_inv.
    rewrite Forall_forall in Hlv. specialize (Hlv p Hin). lia. }
  destruct (decide (current ∈ visited)) as [Hv|Hv].
  - eapply IH. by eapply bfs_inv_pop.
  - eapply IH. by eapply bfs_inv_visit.
Qed.

(** The bound does not matter. *)
Lemma bfs_fuel_irrelevant fuel fuel' start visited queue Hf Hf' :
  bfs g start fuel visited queue Hf = bfs g start fuel' visited queue Hf'.
Proof.
  revert fuel' visited queue Hf Hf'. induction fuel as [|fuel IH]; intros fuel' visited queue Hf Hf'; [lia|].
  destruct fuel' as [|fuel']; [lia|]. destruct queue as [|path queue]; [done|]. simpl.
  destruct (last path) as [current|]; [|apply IH]. case_bool_decide; [done|].
  destruct (decide (current ∈ visited)); apply IH.
Qed.

Lemma bfs_inv_init start :
  bfs_inv start ∅ (λ _, 1%nat) ((λ n, [start; n]) <$> neighbors g start).
Proof.
  split; try done.
  - intros p (n & -> & Hn%elem_of_neighbors)%list_elem_of_fmap. split_and!; [done|simpl; lia|].
    by repeat constructor.
  - induction (neighbors g start) as [|n l IH]; [constructor|]. simpl. constructor; [done|].
    apply Forall_forall. intros ? (m & -> & _)%list_elem_of_fmap. simpl. lia.
  - intros u v [->|?%elem_of_empty] Hw; [|done]. right. exists [start; v]. split_and!; [|done|done].
    apply list_elem_of_fmap. exists v. by rewrite elem_of_neighbors.
Qed.

End search.

(** ** Cycles and reachability *)

Section reachability.
Context `{SetIterLaws}.

Lemma detect_cycle_correct lt start :
  match detect_cycle lt start with
  | Some p => cycle_at (wait_for lt) start p ∧
              ∀ p', cycle_at (wait_for lt) start p' → (length p ≤ length p')%nat
  | None => ∀ p', ¬ cycle_at (wait_for lt) start p'
  end.
Proof.
  unfold detect_cycle. eapply bfs_correct, bfs_inv_init.
Qed.

Lemma walk_tc g u v p :
  p ≠ [] → Sorted (waits g) (u :: p) → last p = Some v → tc (waits g) u v.
Proof.
  revert u. induction p as [|w p IH]; intros u Hne Hs Hl; [done|].
  apply Sorted_inv in Hs as [Hs Huw%HdRel_inv].
  destruct p as [|x p]; [injection Hl as ->; by apply tc_once|].
  eapply tc_l; [done | by apply IH].
Qed.

Lemma tc_walk g u v :
  tc (waits g) u v → ∃ p, p ≠ [] ∧ Sorted (waits g) (u :: p) ∧ last p = Some v.
Proof.
  induction 1 as [u v Huv | u w v Huw Htc (p & Hne & Hs & Hl)].
  - exists [v]. split_and!; [done | by repeat constructor | done].
  - exists (w :: p). split_and!; [done | constructor; [done | by constructor] | by destruct p].
Qed.

Lemma cycle_at_tc g u : (∃ p, cycle_at g u p) ↔ tc (waits g) u u.
Proof.
  split.
  - intros (p & Hh & Hl & Hlen & Hs). destruct p as [|x [|y p]]; [done|simpl in Hlen; lia|].
    injection Hh as ->. by apply (walk_tc _ _ _ (y :: p)).
  - intros (p & Hne & Hs & Hl)%tc_walk. exists (u :: p).
    split_and!; [done | by destruct p | destruct p; simpl; [done|lia] | done].
Qed.

Lemma detect_cycle_tc lt start :
  is_Some (detect_cycle lt start) ↔ tc (waits (wait_for lt)) start start.
Proof.
  rewrite <- cycle_at_tc. pose proof (detect_cycle_correct lt start) as Hd.
  destruct (detect_cycle lt start) as [p|].
  - split; [intros _; exists p; apply Hd | by eauto].
  - split; [by intros [? ?] | intros [p Hp]; by destruct (Hd p)].
Qed.

Lemma acyclic_sub g g' :
  (∀ u v, waits g' u v → waits g u v) → acyclic g → acyclic g'.
Proof.
  intros Hsub Ha u Htc. apply (Ha u). revert Htc. generalize u at 2 4. intros v.
  induction 1; [apply tc_once; auto | eapply tc_l; eauto].
Qed.

(** A new edge out of [t] leaves the graph acyclic unless [t] is on a cycle. *)
Lemma tc_new_edge g g' t :
  (∀ u v, u ≠ t → waits g' u v → waits g u v) →
  ∀ u v, tc (waits g') u v → tc (waits g) u v ∨ (rtc (waits g') u t ∧ tc (waits g') t v).
Proof.
  intros Hsub. induction 1 as [u v Huv | u w v Huw Htc IH].
  - destruct (decide (u = t)) as [->|]; [|left; apply tc_once; auto].
    right. split; [done | by apply tc_once].
  - destruct (decide (u = t)) as [->|].
    + right. split; [done | by eapply tc_l].
    + destruct IH as [IH|[IH1 IH2]].
      * left. eapply tc_l; [by apply Hsub | done].
      * right. split; [by eapply rtc_l | done].
Qed.

Lemma acyclic_new_edge g g' t :
  (∀ u v, u ≠ t → waits g' u v → waits g u v) →
  acyclic g → ¬ tc (waits g') t t → acyclic g'.
Proof.
  intros Hsub Ha Ht u Htc. destruct (tc_new_edge _ _ _ Hsub u u Htc) as [?|[H1 H2]]; [by eapply Ha|].
  apply Ht. by eapply tc_rtc_r.
Qed.

Lemma waits_insert g t s u v :
  waits (<[t := s]> g) u v ↔ (u = t ∧ v ∈ s) ∨ (u ≠ t ∧ waits g u v).
Proof.
  unfold waits. split.
  - intros (s' & Hs & Hv). destruct (decide (u = t)) as [->|].
    + rewrite lookup_insert_eq in Hs. injection Hs as <-. by left.
    + rewrite lookup_insert_ne in Hs by done. right. split; [done|]. by eexists.
  - intros [[-> Hv]|(? & s' & ? & ?)].
    + exists s. by rewrite lookup_insert_eq.
    + exists s'. by rewrite lookup_insert_ne.
Qed.

Lemma waits_delete g t u v : waits (delete t g) u v ↔ u ≠ t ∧ waits g u v.
Proof.
  unfold waits. split.
  - intros (s & [? ?]%lookup_delete_Some & ?). split; [done|]. by eexists.
  - intros (? & s & ? & ?). exists s. by rewrite lookup_delete_ne.
Qed.

End reachability.

(** ** Holders *)

Section holders.

Lemma others_notin t hs : (∀ i, i ∈ hs → holder i ≠ t) → others t hs = hs.
Proof.
  intros Hs. apply retain_all. intros i Hi. rewrite bool_decide_eq_false_2; [done | by apply Hs].
Qed.

Lemma elem_of_others t hs i : i ∈ others t hs ↔ i ∈ hs ∧ holder i ≠ t.
Proof.
  unfold others. rewrite elem_of_retain. case_bool_decide; naive_solver.
Qed.

Lemma NoDup_others t hs : NoDup (holder <$> hs) → NoDup (holder <$> others t hs).
Proof. intros Hnd. eapply sublist_NoDup; [exact Hnd | apply fmap_sublist, sublist_retain]. Qed.

Lemma exclusive_alone_others t hs :
  exclusive_alone hs → others t hs ≠ [] → exclusive_alone (others t hs).
Proof.
  intros (Hne & Hnd & Hx) Hne'. split_and!; [done | by apply NoDup_others |].
  intros i [Hi Ht]%elem_of_others Hxi. rewrite (Hx i Hi Hxi). unfold others. simpl.
  by rewrite bool_decide_eq_false_2.
Qed.

Definition compatible (t : Uuid) (ty : LockType) (i : LockInfo) : Prop :=
  holder i = t ∨ (lock_type i = Shared ∧ ty = Shared).

(** The two grant actions are exactly the compatible requests. *)
Definition grants (a : AcquireAction) : bool :=
  match a with AlreadyHeld | Upgrade | Grant => true | UpgradeConflict _ | Conflict _ => false end.

Lemma conflicts_false a b : conflicts a b = false ↔ a = Shared ∧ b = Shared.
Proof. destruct a, b; naive_solver. Qed.

(** Phase 1 seen as a case analysis on the first holder that is [t] or
    conflicts with the request. *)
Lemma inspect_cases t ty all hs :
  match inspect t ty all hs with
  | Grant => ∀ i, i ∈ hs → holder i ≠ t ∧ conflicts (lock_type i) ty = false
  | Conflict b => b ≠ t ∧ ∃ i, i ∈ hs ∧ holder i = b ∧ conflicts (lock_type i) ty = true
  | Upgrade => ty = Exclusive ∧ length all = 1%nat ∧ mkLockInfo t Shared ∈ hs
  | UpgradeConflict o => ty = Exclusive ∧ length all ≠ 1%nat ∧ mkLockInfo t Shared ∈ hs ∧
                         o = other_holder t all
  | AlreadyHeld => ∃ i, i ∈ hs ∧ holder i = t ∧ (lock_type i = Exclusive ∨ ty = Shared)
  end.
Proof.
  induction hs as [|[h l] hs IH]; simpl; [by intros i ?%elem_of_nil|].
  repeat case_bool_decide; subst; destruct_and?; subst.
  - destruct (Nat.eqb_spec (length all) 1); split_and!; try done; by left.
  - exists (mkLockInfo t l). split; [by left|]. destruct l, ty; naive_solver.
  - destruct (conflicts l ty) eqn:Hc.
    + split; [done|]. exists (mkLockInfo h l). split; [by left | done].
    + destruct (inspect t ty all hs); set_solver.
Qed.

Lemma other_holder_spec t hs :
  NoDup (holder <$> hs) → length hs ≠ 1%nat → hs ≠ [] →
  ∃ i, i ∈ hs ∧ holder i = other_holder t hs ∧ holder i ≠ t.
Proof.
  intros Hnd Hlen Hne. unfold other_holder.
  destruct (list_find _ hs) as [[n i]|] eqn:E.
  { apply list_find_Some in E as (? & ? & _). exists i. split; [by eapply list_elem_of_lookup_2 | done]. }
  apply list_find_None in E. rewrite Forall_forall in E.
  destruct hs as [|i [|j hs]]; [done..|]. exfalso.
  assert (holder i = t) by (apply dec_stable, E; by left).
  assert (holder j = t) by (apply dec_stable, E; right; by left).
  apply NoDup_cons in Hnd as [Hnd _]. apply Hnd, elem_of_cons. left. congruence.
Qed.

Lemma exclusive_alone_others_holder t hs i :
  exclusive_alone hs → i ∈ hs → holder i ≠ t → ∀ j, j ∈ hs → holder j = t → lock_type j = Shared.
Proof.
  intros (_ & _ & Hx) Hi Hit j Hj Hjt. destruct (lock_type j) eqn:E; [done|].
  rewrite (Hx j Hj E) in Hi. apply list_elem_of_singleton in Hi. congruence.
Qed.

Lemma elem_of_unique hs i j :
  NoDup (holder <$> hs) → i ∈ hs → j ∈ hs → holder i = holder j → i = j.
Proof.
  intros Hnd (n & Hn)%list_elem_of_lookup (m & Hm)%list_elem_of_lookup Heq.
  assert (n = m) as ->; [|congruence].
  eapply NoDup_lookup; [exact Hnd | ..]; rewrite list_lookup_fmap.
  - by rewrite Hn.
  - by rewrite Hm, Heq.
Qed.

(** A request is granted exactly when no other transaction holds an
    incompatible lock. *)
Lemma grants_compatible t ty hs :
  hs = [] ∨ exclusive_alone hs →
  grants (inspect t ty hs hs) = true ↔ Forall (compatible t ty) hs.
Proof.
  intros Hok. rewrite Forall_forall. pose proof (inspect_cases t ty hs hs) as Hc.
  destruct (inspect t ty hs hs) as [| |o|b|]; simpl; (split; [intros Hg|]); try done.
  - destruct Hc as (i & Hi & <- & Hx). intros j Hj. unfold compatible.
    destruct Hok as [->|(_ & Hnd & Hal)]; [by apply elem_of_nil in Hj|].
    destruct (lock_type i) eqn:Ei.
    + destruct Hx as [?| ->]; [done|]. destruct (lock_type j) eqn:Ej; [by right|].
      rewrite (Hal j Hj Ej) in Hi. apply list_elem_of_singleton in Hi. left. congruence.
    + rewrite (Hal i Hi Ei) in Hj. apply list_elem_of_singleton in Hj. left. congruence.
  - destruct Hc as (-> & Hlen & Hi). destruct hs as [|j [|? ?]]; [done| |done].
    intros j' Hj'. apply list_elem_of_singleton in Hj', Hi. subst. by left.
  - destruct Hc as (-> & Hlen & Hi & _). destruct Hok as [->|(Hne & Hnd & _)]; [by apply elem_of_nil in Hi|].
    destruct (other_holder_spec t hs Hnd Hlen Hne) as (j & Hj & _ & Hjt).
    intros Hf. destruct (Hf j Hj) as [?|[_ ?]]; done.
  - destruct Hc as (Hb & i & Hi & Hib & Hcf). intros Hf.
    destruct (Hf i Hi) as [?|Hs]; [congruence|]. apply conflicts_false in Hs. congruence.
  - intros i Hi. right. by apply conflicts_false, Hc.
Qed.

End holders.

(** ** Preservation of the invariant *)

Section preservation.
Context `{SetIterLaws}.

Lemma holders_of_ok lt k : table_inv lt → holders_of lt k = [] ∨ exclusive_alone (holders_of lt k).
Proof.
  intros Hi. unfold holders_of. destruct (locks lt !! k) eqn:E; [right | by left].
  by eapply inv_holders.
Qed.

Lemma holder_others_snoc t ty hs :
  holder <$> (others t hs ++ [mkLockInfo t ty]) = (holder <$> others t hs) ++ [t].
Proof. by rewrite fmap_app. Qed.

Lemma exclusive_alone_grant t ty hs :
  hs = [] ∨ exclusive_alone hs → Forall (compatible t ty) hs →
  exclusive_alone (others t hs ++ [mkLockInfo t ty]).
Proof.
  intros Hok Hc. rewrite Forall_forall in Hc. split_and!.
  - by destruct (others t hs).
  - rewrite holder_others_snoc. apply NoDup_app. split_and!.
    + apply NoDup_others. destruct Hok as [->|(_ & ? & _)]; [constructor | done].
    + intros x (i & -> & [_ Hi]%elem_of_others)%list_elem_of_fmap Hx%list_elem_of_singleton. congruence.
    + apply NoDup_singleton.
  - intros i [Hi|Hi]%elem_of_app Hx.
    + apply elem_of_others in Hi as [Hi Ht]. destruct (Hc i Hi) as [?|[? _]]; congruence.
    + apply list_elem_of_singleton in Hi as ->. simpl in Hx. subst ty.
      destruct (others t hs) as [|j js] eqn:E; [done|]. exfalso.
      assert (j ∈ others t hs) as [Hj Hjt]%elem_of_others by (rewrite E; by left).
      destruct (Hc j Hj) as [?|[_ ?]]; done.
Qed.

Lemma grant_inv t k ty lt :
  table_inv lt → Forall (compatible t ty) (holders_of lt k) → table_inv (grant t k ty lt).
Proof.
  intros Hi Hc. split; simpl.
  - intros k' hs [[<- <-]|[? ?]]%lookup_insert_Some; [|by eapply inv_holders].
    apply exclusive_alone_grant; [by apply holders_of_ok | done].
  - eapply acyclic_sub; [|apply Hi]. by intros u v [_ ?]%waits_delete.
Qed.

Lemma add_wait_acyclic t b lt :
  acyclic (wait_for lt) → detect_cycle (add_wait t b lt) t = None →
  acyclic (wait_for (add_wait t b lt)).
Proof.
  intros Ha Hd. eapply (acyclic_new_edge (wait_for lt) _ t); [|done|].
  - intros u v Hu [[? _]|[_ ?]]%waits_insert; done.
  - rewrite <- detect_cycle_tc, Hd. by intros [? ?].
Qed.

Lemma clear_wait_acyclic t b lt :
  acyclic (wait_for lt) → acyclic (wait_for (clear_wait t (add_wait t b lt))).
Proof.
  intros Ha. eapply acyclic_sub; [|exact Ha].
  intros u v [? [[? _]|[_ ?]]%waits_insert]%waits_delete; done.
Qed.

Lemma acquire_inv t e m ty lt : table_inv lt → table_inv (acquire t e m ty lt).1.
Proof.
  intros Hi. unfold acquire. set (hs := holders_of lt _).
  pose proof (grants_compatible t ty hs (holders_of_ok lt _ Hi)) as Hg.
  destruct (inspect t ty hs hs) eqn:E; simpl in Hg; simpl; try done.
  - apply grant_inv; [done | by apply Hg].
  - destruct (detect_cycle _ t) eqn:Hd; simpl; (split; [apply Hi|]).
    + apply clear_wait_acyclic, Hi.
    + apply add_wait_acyclic; [apply Hi | done].
  - apply grant_inv; [done | by apply Hg].
Qed.

(** Whether a request is granted, from the holders alone. *)
Lemma acquire_granted t e m ty lt :
  table_inv lt → Forall (compatible t ty) (holders_of lt (mkLockKey e m)) →
  (acquire t e m ty lt).2 = Ok ().
Proof.
  intros Hi Hf. unfold acquire.
  pose proof (proj2 (grants_compatible t ty _ (holders_of_ok lt (mkLockKey e m) Hi)) Hf) as Hg.
  by destruct (inspect _ _ _ _).
Qed.

Lemma acquire_refused t e m ty lt :
  table_inv lt → ¬ Forall (compatible t ty) (holders_of lt (mkLockKey e m)) →
  is_ok (acquire t e m ty lt).2 = false.
Proof.
  intros Hi Hf. unfold acquire.
  rewrite <- (grants_compatible t ty _ (holders_of_ok lt (mkLockKey e m) Hi)) in Hf.
  destruct (inspect _ _ _ _); simpl in Hf; try done. by destruct (detect_cycle _ t).
Qed.

Lemma lookup_release t lt k :
  locks (release_all t lt) !! k =
  match locks lt !! k with Some hs => drop_holder t hs | None => None end.
Proof. simpl. rewrite lookup_omap. by destruct (locks lt !! k). Qed.

Lemma holders_of_release t lt k : holders_of (release_all t lt) k = others t (holders_of lt k).
Proof.
  unfold holders_of. rewrite lookup_release. destruct (locks lt !! k) as [hs|]; [|done].
  simpl. unfold drop_holder. by destruct (others t hs).
Qed.

Lemma waits_release t lt u v :
  waits (wait_for (release_all t lt)) u v ↔ u ≠ t ∧ v ≠ t ∧ waits (wait_for lt) u v.
Proof.
  unfold waits. simpl. setoid_rewrite lookup_fmap_Some. setoid_rewrite lookup_delete_Some.
  split.
  - intros (s & (s' & <- & ? & ?) & Hv). split_and!; [done|set_solver|]. exists s'. set_solver.
  - intros (? & ? & s & ? & ?). exists (s ∖ {[t]}). split; [|set_solver]. by exists s.
Qed.

Lemma release_inv t lt : table_inv lt → table_inv (release_all t lt).
Proof.
  intros Hi. split.
  - intros k hs. rewrite lookup_release. destruct (locks lt !! k) as [hs0|] eqn:E; [|done].
    unfold drop_holder. intros Hd. destruct (others t hs0) as [|i rest] eqn:Eo; [done|].
    injection Hd as <-. rewrite <- Eo. apply exclusive_alone_others; [|by rewrite Eo].
    by eapply inv_holders.
  - eapply acyclic_sub; [|apply Hi]. by intros u v (_ & _ & ?)%waits_release.
Qed.

Lemma empty_table_inv : table_inv empty_table.
Proof.
  split; [done|]. intros u Htc. simpl in Htc.
  destruct Htc as [u v (s & Hs & _)|u v w (s & Hs & _) _]; by rewrite lookup_empty in Hs.
Qed.

End preservation.
