(* ===== verification/LockTheorems.v ===== *)
(** What the lock table promises: mutual exclusion and an acyclic wait-for graph
    after any sequence of operations, the outcome of a request on every branch,
    shortest-cycle reports, and progress after a release. *)

From S2P Require Import Prelude LockTable.

Section theorems.
Context `{SetIterLaws}.

Inductive table_op :=
  | Acquire (t : Uuid) (entity_id modality : string) (ty : LockType)
  | Release (t : Uuid).

Definition table_step (lt : LockTable) (op : table_op) : LockTable :=
  match op with
  | Acquire t e m ty => (acquire t e m ty lt).1
  | Release t => release_all t lt
  end.

Lemma new_edge_tc g b t u v :
  tc (waits (<[t := {[b]} ∪ default ∅ (g !! t)]> g)) u v →
  tc (waits g) u v ∨ (rtc (waits g) u t ∧ rtc (waits g) b v).
Proof.
  assert (Hstep : ∀ u v, waits (<[t := {[b]} ∪ default ∅ (g !! t)]> g) u v →
    waits g u v ∨ (u = t ∧ v = b)).
  { intros x y [[-> Hy]|[_ ?]]%waits_insert; [|by left].
    apply elem_of_union in Hy as [->%elem_of_singleton|Hy]; [by right|]. left.
    destruct (g !! t) as [s|] eqn:E; [by exists s | by apply elem_of_empty in Hy]. }
  induction 1 as [u v Huv | u w v Huw Htc IH]; apply Hstep in Huv || apply Hstep in Huw.
  - destruct Huv as [?|[-> ->]]; [left; by apply tc_once | by right].
  - destruct Huw as [Huw|[-> ->]].
    + destruct IH as [?|[? ?]]; [left; by eapply tc_l | right; split; [by eapply rtc_l | done]].
    + right. split; [done|]. destruct IH as [?%tc_rtc|[_ ?]]; done.
Qed.

Lemma add_wait_cycle lt b t :
  acyclic (wait_for lt) →
  is_Some (detect_cycle (add_wait t b lt) t) ↔ rtc (waits (wait_for lt)) b t.
Proof.
  intros Ha. rewrite detect_cycle_tc. split.
  - intros [?|[_ ?]]%new_edge_tc; [by destruct (Ha t) | done].
  - intros Hr. assert (waits (wait_for (add_wait t b lt)) t b).
    { apply waits_insert. left. set_solver. }
    assert (∀ u v, waits (wait_for lt) u v → waits (wait_for (add_wait t b lt)) u v) as Hsub.
    { intros u v (s & Hs & Hv). apply waits_insert.
      destruct (decide (u = t)) as [->|]; [left|right; split; [done|by exists s]].
      rewrite Hs. set_solver. }
    eapply tc_rtc_r; [by apply tc_once|].
    generalize dependent (waits (wait_for (add_wait t b lt))). intros R _ HR.
    induction Hr; [done|]. eapply rtc_l; eauto.
Qed.

(** The first holder in the way decides: nobody before it is [t] or conflicts. *)
Lemma inspect_first t ty all pre i post :
  (∀ j, j ∈ pre → holder j ≠ t ∧ conflicts (lock_type j) ty = false) →
  holder i ≠ t → conflicts (lock_type i) ty = true →
  inspect t ty all (pre ++ i :: post) = Conflict (holder i).
Proof.
  intros Hpre Hi Hc. induction pre as [|j pre IH]; simpl.
  - rewrite bool_decide_eq_false_2, Hc by done. done.
  - destruct (Hpre j ltac:(by left)) as [Hj ->]. rewrite bool_decide_eq_false_2 by done.
    apply IH. intros; apply Hpre; by right.
Qed.

(** ** Properties *)

(** C8 (mutual exclusion and acyclic waiting).  After any sequence of lock
    requests and releases, every listed lock has at least one holder, no
    transaction holds a lock twice, an exclusive holder is alone, and no
    transaction waits for itself, directly or through others. *)
Theorem lock_table_invariant ops : table_inv (foldl table_step empty_table ops).
Proof.
  induction ops as [|op ops IH] using rev_ind; [apply empty_table_inv|].
  rewrite foldl_app. destruct op; simpl; [by apply acquire_inv | by apply release_inv].
Qed.

(** Outcome of a request.  A request is granted exactly when every other
    holder of the lock is shared and so is the request; the transaction then
    holds the lock at least as strongly as asked and no other holder, and no
    other lock, changed.  A refused request leaves every lock as it was. *)
Theorem acquire_outcome t e m ty lt :
  table_inv lt →
  let k := mkLockKey e m in
  let lt' := (acquire t e m ty lt).1 in
  match (acquire t e m ty lt).2 with
  | Ok _ =>
      Forall (compatible t ty) (holders_of lt k) ∧
      (∃ i, i ∈ holders_of lt' k ∧ holder i = t ∧ (ty = Exclusive → lock_type i = Exclusive)) ∧
      others t (holders_of lt' k) = others t (holders_of lt k) ∧
      (∀ k', k' ≠ k → locks lt' !! k' = locks lt !! k')
  | Err _ => ¬ Forall (compatible t ty) (holders_of lt k) ∧ locks lt' = locks lt
  end.
Proof.
  intros Hi k lt'. unfold lt', acquire. fold k. clear lt'. set (hs := holders_of lt k).
  pose proof (grants_compatible t ty hs (holders_of_ok lt k Hi)) as Hg.
  pose proof (inspect_cases t ty hs hs) as Hc.
  assert (Hgrant : Forall (compatible t ty) hs → Forall (compatible t ty) hs ∧
    (∃ i, i ∈ holders_of (grant t k ty lt) k ∧ holder i = t ∧
          (ty = Exclusive → lock_type i = Exclusive)) ∧
    others t (holders_of (grant t k ty lt) k) = others t hs ∧
    (∀ k', k' ≠ k → locks (grant t k ty lt) !! k' = locks lt !! k')).
  { intros Hf. split; [done|]. unfold holders_of at 1 2. simpl. rewrite lookup_insert_eq. simpl.
    split_and!.
    - exists (mkLockInfo t ty). split_and!; [apply elem_of_app; right; by left | done | done].
    - fold hs. unfold others at 1. rewrite retain_app. simpl.
      rewrite bool_decide_eq_true_2, app_nil_r by done.
      apply others_notin. by intros i [_ ?]%elem_of_others.
    - intros k' Hk. by rewrite lookup_insert_ne. }
  destruct (inspect t ty hs hs) as [| |o|b|]; simpl in Hg; simpl; try (apply Hgrant, Hg; done).
  - destruct Hc as (i & Hin & Ht & Hx). split_and!; [by apply Hg| |done|done].
    exists i. split_and!; [done|done|]. intros ->. by destruct Hx.
  - split; [|done]. by rewrite <- Hg.
  - destruct (detect_cycle _ t); simpl; (split; [by rewrite <- Hg | done]).
Qed.

(** Conflict and deadlock.  When the first holder in the way is [i], the
    request fails; it reports a deadlock exactly when [i] already waits,
    directly or through others, for the requester.  The reported cycle is a
    closed walk of the wait-for graph, no longer than any other, and the
    requester then waits for nobody; otherwise the wait is recorded. *)
Theorem acquire_conflict t e m ty lt pre i post :
  table_inv lt →
  holders_of lt (mkLockKey e m) = pre ++ i :: post →
  (∀ j, j ∈ pre → holder j ≠ t ∧ conflicts (lock_type j) ty = false) →
  holder i ≠ t → conflicts (lock_type i) ty = true →
  (rtc (waits (wait_for lt)) (holder i) t →
     ∃ p, acquire t e m ty lt =
            (clear_wait t (add_wait t (holder i) lt), Err (DeadlockDetected t p)) ∧
          cycle_at (wait_for (add_wait t (holder i) lt)) t p ∧
          ∀ p', cycle_at (wait_for (add_wait t (holder i) lt)) t p' → (length p ≤ length p')%nat) ∧
  (¬ rtc (waits (wait_for lt)) (holder i) t →
     acquire t e m ty lt = (add_wait t (holder i) lt, Err (LockConflict e m (holder i)))).
Proof.
  intros Hi Hh Hpre Hit Hc. unfold acquire. rewrite Hh, inspect_first by done.
  pose proof (add_wait_cycle lt (holder i) t ltac:(apply Hi)) as Hd.
  pose proof (detect_cycle_correct (add_wait t (holder i) lt) t) as Hp.
  destruct (detect_cycle (add_wait t (holder i) lt) t) as [p|].
  - split; [intros _; by exists p|]. intros Hn. destruct Hn. apply Hd. by eexists.
  - split; [|done]. intros [? ?]%Hd. done.
Qed.

(** C31 (deadlock detector).  Run on any wait-for graph, the loop of
    [detect_cycle] ends: its queued paths plus the edges it can still follow
    decrease at every turn, [bfs] takes the proof that its bound is above them,
    and any such bound gives the same answer.  The answer is a shortest closed walk
    through the start when there is one, and [None] exactly when the start does
    not reach itself. *)
Theorem detect_cycle_shortest lt start :
  (∀ fuel H, bfs (wait_for lt) start fuel ∅ (seeds (wait_for lt) start) H = detect_cycle lt start) ∧
  (∀ p, detect_cycle lt start = Some p →
     cycle_at (wait_for lt) start p ∧
     ∀ p', cycle_at (wait_for lt) start p' → (length p ≤ length p')%nat) ∧
  (detect_cycle lt start = None ↔ ¬ tc (waits (wait_for lt)) start start).
Proof.
  pose proof (detect_cycle_correct lt start) as Hp. split; [intros; apply bfs_fuel_irrelevant|].
  rewrite <- cycle_at_tc. destruct (detect_cycle lt start) as [p|].
  - split; [by intros ? [= <-]|]. split; [done|]. intros []. exists p. apply Hp.
  - split; [done|]. split; [|done]. by intros _ [p ?%Hp].
Qed.

(** When [b] releases everything, it holds no
    lock, nobody waits for it, and a request that only [b] stood in the way of
    is granted. *)
Theorem acquire_after_release b t e m ty lt :
  table_inv lt →
  (∀ i, i ∈ holders_of lt (mkLockKey e m) → holder i = b ∨ compatible t ty i) →
  (∀ k i, i ∈ holders_of (release_all b lt) k → holder i ≠ b) ∧
  (∀ u, ¬ waits (wait_for (release_all b lt)) u b) ∧
  (acquire t e m ty (release_all b lt)).2 = Ok ().
Proof.
  intros Hi Hb. split_and!.
  - intros k i. rewrite holders_of_release. by intros [_ ?]%elem_of_others.
  - by intros u (_ & ? & _)%waits_release.
  - apply acquire_granted; [by apply release_inv|]. rewrite holders_of_release.
    apply Forall_forall. intros i [Hin Hib]%elem_of_others. by destruct (Hb i Hin).
Qed.

Fixpoint request_upgrades (e m : string) (ts : list Uuid) (lt : LockTable) :
    LockTable * list (result TransactionError unit) :=
  match ts with
  | [] => (lt, [])
  | t :: ts =>
      let '(lt, r) := acquire t e m Exclusive lt in
      let '(lt, rs) := request_upgrades e m ts lt in (lt, r :: rs)
  end.

(** An undetected deadlock.  Two transactions share a lock and both ask to
    upgrade it: whatever the order and number of the attempts, every one of
    them reports a lock conflict, none a deadlock, and neither ever gets the
    lock.  The upgrade branch of [acquire] records no wait-for edge. *)
Theorem upgrade_deadlock_undetected a b e m ts lt :
  a ≠ b →
  holders_of lt (mkLockKey e m) = [mkLockInfo a Shared; mkLockInfo b Shared] →
  wait_for lt = ∅ →
  Forall (λ t, t = a ∨ t = b) ts →
  Forall (λ r, ∃ o, r = Err (LockConflict e m o)) (request_upgrades e m ts lt).2 ∧
  locks (request_upgrades e m ts lt).1 = locks lt.
Proof.
  intros Hab Hh Hw Hts.
  assert (Hedges : ∀ u v, waits (wait_for lt) u v → u = b ∧ v = a).
  { intros u v (s & Hs & _). by rewrite Hw, lookup_empty in Hs. }
  clear Hw. revert lt Hh Hedges. induction Hts as [|t ts Ht _ IH]; intros lt Hh Hedges; [done|].
  assert (Hstep : ∃ lt' o, acquire t e m Exclusive lt = (lt', Err (LockConflict e m o)) ∧
    locks lt' = locks lt ∧ ∀ u v, waits (wait_for lt') u v → u = b ∧ v = a).
  { unfold acquire. rewrite Hh. destruct Ht as [-> | ->]; simpl.
    - rewrite bool_decide_eq_true_2 by done. simpl. by eauto.
    - rewrite bool_decide_eq_false_2 by done. simpl.
      assert (He : ∀ u v, waits (wait_for (add_wait b a lt)) u v → u = b ∧ v = a).
      { intros u v [[-> Hv]|[_ ?]]%waits_insert; [|by auto]. split; [done|].
        apply elem_of_union in Hv as [->%elem_of_singleton|Hv]; [done|].
        destruct (wait_for lt !! b) as [s|] eqn:E; [|by apply elem_of_empty in Hv].
        apply (Hedges b v). by exists s. }
      destruct (detect_cycle (add_wait b a lt) b) eqn:Hd; [|by eauto].
      exfalso. assert (tc (waits (wait_for (add_wait b a lt))) b b) as Htc
        by (apply detect_cycle_tc; by eexists).
      assert (Hba : ∀ u v, tc (waits (wait_for (add_wait b a lt))) u v → u = b ∧ v = a)
        by (induction 1; naive_solver).
      by destruct (Hba _ _ Htc). }
  destruct Hstep as (lt' & o & Heq & Hl & He). simpl. rewrite Heq.
  destruct (IH lt') as [IH1 IH2]; [by unfold holders_of in *; rewrite Hl | done |].
  destruct (request_upgrades e m ts lt') as [lt'' rs]. simpl in *.
  split; [constructor; [by eexists | done] | congruence].
Qed.

End theorems.

(** ** Witnesses *)

Module Witness.

#[export] Instance iter_elements : SetIter := elements.
#[export] Instance iter_elements_laws : SetIterLaws iter_elements.
Proof. by intros s. Qed.

(** 1 and 2 share a lock; 3 holds another one exclusively and waits for 1. *)
Definition table : LockTable :=
  foldl table_step empty_table
    [Acquire 1 "x" "graph" Shared; Acquire 2 "x" "graph" Shared; Acquire 3 "y" "graph" Exclusive;
     Acquire 3 "x" "graph" Exclusive].

Lemma table_ok : table_inv table.
Proof. apply lock_table_invariant. Qed.

Lemma lock_table_invariant_witness : table_inv table.
Proof. exact (lock_table_invariant [Acquire 1 "x" "graph" Shared; Acquire 2 "x" "graph" Shared;
  Acquire 3 "y" "graph" Exclusive; Acquire 3 "x" "graph" Exclusive]). Defined.

Lemma acquire_outcome_witness :
  (acquire 2 "x" "graph" Shared table).2 = Ok () ∧
  Forall (compatible 2 Shared) (holders_of table (mkLockKey "x" "graph")).
Proof.
  split; [reflexivity|].
  exact (proj1 (acquire_outcome 2 "x" "graph" Shared table table_ok)).
Defined.

Lemma acquire_conflict_witness :
  ∃ p, (acquire 1 "y" "graph" Exclusive table).2 = Err (DeadlockDetected 1 p).
Proof.
  destruct (acquire_conflict 1 "y" "graph" Exclusive table [] (mkLockInfo 3 Exclusive) [] table_ok)
    as [Hd _].
  - reflexivity.
  - by intros j ?%elem_of_nil.
  - discriminate.
  - reflexivity.
  - destruct Hd as (p & -> & _); [|by exists p].
    apply rtc_once. exists {[1%N]}. split; [by vm_compute | by apply elem_of_singleton].
Defined.

(** Nobody waits in a circle, so the answer is [None]; in a graph where two wait
    for each other it is the walk between them. *)
Definition circle : LockTable := mkLockTable ∅ {[ 1%N := {[2%N]}; 2%N := {[1%N]} ]}.

Lemma detect_cycle_shortest_witness :
  ¬ tc (waits (wait_for table)) 3%N 3%N ∧ detect_cycle circle 1 = Some [1; 2; 1]%N ∧
  (∀ p', cycle_at (wait_for circle) 1%N p' → (3 ≤ length p')%nat).
Proof.
  destruct (detect_cycle_shortest table 3) as (_ & _ & Hn).
  destruct (detect_cycle_shortest circle 1) as (_ & Hs & _).
  assert (E : detect_cycle circle 1 = Some [1; 2; 1]%N) by by vm_compute.
  split; [by apply Hn; vm_compute|]. split; [done|]. apply (Hs _ E).
Defined.

Lemma acquire_after_release_witness :
  (acquire 4 "y" "graph" Exclusive (release_all 3 table)).2 = Ok ().
Proof.
  apply (acquire_after_release 3 4 "y" "graph" Exclusive table table_ok).
  intros i Hi. left. by apply list_elem_of_singleton in Hi as ->.
Defined.

Lemma upgrade_deadlock_witness :
  let lt := foldl table_step empty_table
    [Acquire 1 "x" "graph" Shared; Acquire 2 "x" "graph" Shared] in
  Forall (λ r, ∃ o, r = Err (LockConflict "x" "graph" o))
    (request_upgrades "x" "graph" [1; 2; 1]%N lt).2.
Proof.
  apply (upgrade_deadlock_undetected 1 2 "x" "graph" [1; 2; 1]%N); [done | reflexivity.. |].
  repeat (apply Forall_cons; split); by auto using Forall_nil_2.
Defined.

End Witness.
