(* ===== verification/Transaction.v ===== *)
(** The transaction manager (verisim-octad/src/transaction.rs): begin, commit
    with serializable validation, rollback, lock acquisition, undo and read
    records, version counters.  [acquire_lock] and [record_read] release the
    manager's locks between their critical sections, so each section is a
    definition of its own and a step relation interleaves them. *)

From S2P Require Import Prelude Machine LockTable.

(** ** Data *)

Definition MODALITIES : list string :=
  ["graph"; "vector"; "tensor"; "semantic"; "document"; "temporal"; "provenance"; "spatial"].

Inductive IsolationLevel := ReadCommitted | Serializable.

#[export] Instance IsolationLevel_eq_dec : EqDecision IsolationLevel.
Proof. solve_decision. Defined.

Record LockEntry := mkLockEntry {
  le_entity_id : string; le_modality : string; le_lock_type : LockType }.

Record ReadStamp := mkReadStamp {
  rs_entity_id : string; rs_modality : string; version_at_read : Z }.

Section manager.
Context `{SetIter} {DateTime : Type}.

Record UndoEntry := mkUndoEntry {
  ue_entity_id : string;
  ue_modality : string;
  previous_data : option (list byte);
  previous_version : Z;
  recorded_at : DateTime;
}.

Record Transaction := mkTransaction {
  id : Uuid;
  state : TransactionState;
  isolation_level : IsolationLevel;
  undo_log : list UndoEntry;
  txn_locks : list LockEntry;
  read_set : list ReadStamp;
  started_at : DateTime;
  completed_at : option DateTime;
}.

(** [Transaction::new]; the fresh identifier and the clock are inputs. *)
Definition Transaction_new (new_id : Uuid) (level : IsolationLevel) (now : DateTime) : Transaction :=
  mkTransaction new_id Active level [] [] [] now None.

Definition is_active (t : Transaction) : bool := bool_decide (state t = Active).

Definition complete (st : TransactionState) (now : DateTime) (t : Transaction) : Transaction :=
  mkTransaction (id t) st (isolation_level t) (undo_log t) (txn_locks t) (read_set t)
    (started_at t) (Some now).

Definition push_undo (u : UndoEntry) (t : Transaction) : Transaction :=
  mkTransaction (id t) (state t) (isolation_level t) (undo_log t ++ [u]) (txn_locks t) (read_set t)
    (started_at t) (completed_at t).

Definition push_lock (l : LockEntry) (t : Transaction) : Transaction :=
  mkTransaction (id t) (state t) (isolation_level t) (undo_log t)
    (retain (λ l', negb (bool_decide (le_entity_id l' = le_entity_id l ∧
                                      le_modality l' = le_modality l))) (txn_locks t) ++ [l])
    (read_set t) (started_at t) (completed_at t).

Definition push_read (r : ReadStamp) (t : Transaction) : Transaction :=
  mkTransaction (id t) (state t) (isolation_level t) (undo_log t) (txn_locks t) (read_set t ++ [r])
    (started_at t) (completed_at t).

(** ** The version table: absent pairs have version 0, counters are 64-bit. *)

Abbreviation VersionTable := (gmap (string * string) Z).

Definition version_get (vt : VersionTable) (e m : string) : Z := default 0 (vt !! (e, m)).
Definition version_set (e m : string) (v : Z) (vt : VersionTable) : VersionTable := <[(e, m) := v]> vt.
Definition increment (e m : string) (vt : VersionTable) : VersionTable :=
  <[(e, m) := wrap 64 (version_get vt e m + 1)]> vt.

(** ** The manager *)

Record TransactionManager := mkManager {
  active_transactions : gmap Uuid Transaction;
  lock_table : LockTable;
  version_table : VersionTable;
}.

Definition TransactionManager_new : TransactionManager := mkManager ∅ empty_table ∅.

Definition M (A : Type) : Type := SR TransactionManager TransactionError A.

Definition set_txns (f : gmap Uuid Transaction → gmap Uuid Transaction) (s : TransactionManager) :=
  mkManager (f (active_transactions s)) (lock_table s) (version_table s).
Definition set_table (f : LockTable → LockTable) (s : TransactionManager) :=
  mkManager (active_transactions s) (f (lock_table s)) (version_table s).
Definition set_versions (f : VersionTable → VersionTable) (s : TransactionManager) :=
  mkManager (active_transactions s) (lock_table s) (f (version_table s)).

(** The lookup and state check every operation starts with. *)
Definition get_active (tid : Uuid) : M Transaction := λ s,
  match active_transactions s !! tid with
  | None => (s, Err (TransactionNotFound tid))
  | Some txn => if is_active txn then (s, Ok txn) else (s, Err (InvalidState tid (state txn) "Active"))
  end.

Definition modify_txn (tid : Uuid) (f : Transaction → Transaction) : M unit :=
  sr_modify (set_txns (alter f tid)).

Definition check_modality (m : string) : M unit :=
  if bool_decide (m ∈ MODALITIES) then mret () else sr_fail (InvalidModality m).

Definition begin (new_id : Uuid) (now : DateTime) (level : IsolationLevel) : M Uuid := λ s,
  (set_txns <[new_id := Transaction_new new_id level now]> s, Ok new_id).

(** Serializable validation: the first stamp whose version has moved. *)
Fixpoint first_stale (vt : VersionTable) (stamps : list ReadStamp) : option (ReadStamp * Z) :=
  match stamps with
  | [] => None
  | r :: stamps =>
      let current := version_get vt (rs_entity_id r) (rs_modality r) in
      if current =? version_at_read r then first_stale vt stamps else Some (r, current)
  end.

Definition stale_read (s : TransactionManager) (txn : Transaction) : option (ReadStamp * Z) :=
  if bool_decide (isolation_level txn = Serializable)
  then first_stale (version_table s) (read_set txn) else None.

Definition apply_versions (log : list UndoEntry) (vt : VersionTable) : VersionTable :=
  foldl (λ vt u, increment (ue_entity_id u) (ue_modality u) vt) vt log.

(** Ending a transaction: its state, its completion time, its locks. *)
Definition finish (tid : Uuid) (st : TransactionState) (now : DateTime) : M unit :=
  modify_txn tid (complete st now);;
  sr_modify (set_table (release_all tid)).

Definition commit (now : DateTime) (tid : Uuid) : M unit :=
  txn ← get_active tid;
  s ← sr_get;
  match stale_read s txn with
  | Some (r, current) =>
      finish tid RolledBack now;;
      sr_fail (VersionConflict (rs_entity_id r) (version_at_read r) current)
  | None =>
      sr_modify (set_versions (apply_versions (undo_log txn)));;
      finish tid Committed now
  end.

Definition rollback (now : DateTime) (tid : Uuid) : M (list UndoEntry) :=
  txn ← get_active tid;
  finish tid RolledBack now;;
  mret (reverse (undo_log txn)).

(** [acquire_lock]: the active check, the lock table and the record in the
    transaction are three critical sections. *)
Definition lock_check (tid : Uuid) (m : string) : M unit :=
  check_modality m;; get_active tid;; mret ().

Definition lock_take (tid : Uuid) (e m : string) (ty : LockType) : M unit := λ s,
  let '(lt, r) := acquire tid e m ty (lock_table s) in (set_table (λ _, lt) s, r).

Definition lock_record (tid : Uuid) (e m : string) (ty : LockType) : M unit :=
  modify_txn tid (push_lock (mkLockEntry e m ty)).

Definition acquire_lock (tid : Uuid) (e m : string) (ty : LockType) : M unit :=
  lock_check tid m;; lock_take tid e m ty;; lock_record tid e m ty.

Definition record_undo (now : DateTime) (tid : Uuid) (e m : string)
    (data : option (list byte)) (version : Z) : M unit :=
  check_modality m;;
  get_active tid;;
  modify_txn tid (push_undo (mkUndoEntry e m data version now)).

(** [record_read]: reading the version and recording it are two sections. *)
Definition read_version (e m : string) : M Z :=
  check_modality m;; s ← sr_get; mret (version_get (version_table s) e m).

Definition read_stamp (tid : Uuid) (e m : string) (v : Z) : M unit :=
  get_active tid;; modify_txn tid (push_read (mkReadStamp e m v)).

Definition record_read (tid : Uuid) (e m : string) : M unit :=
  v ← read_version e m; read_stamp tid e m v.

Definition get_transaction_state (s : TransactionManager) (tid : Uuid) : option TransactionState :=
  state <$> active_transactions s !! tid.

Definition active_count (s : TransactionManager) : nat :=
  length (retain (λ p, is_active p.2) (map_to_list (active_transactions s))).

Definition current_version (s : TransactionManager) (e m : string) : Z :=
  version_get (version_table s) e m.

Definition set_version (e m : string) (v : Z) : M unit := sr_modify (set_versions (version_set e m v)).

Definition manager_is_locked (s : TransactionManager) (e m : string) : bool := is_locked (lock_table s) e m.

Definition lock_holders (s : TransactionManager) (e m : string) : list (Uuid * LockType) :=
  holders (lock_table s) e m.

Definition purge_completed : M nat := λ s,
  let kept := filter (λ p, state p.2 = Active) (active_transactions s) in
  (set_txns (λ _, kept) s, Ok (size (active_transactions s) - size kept)%nat).

End manager.

Arguments UndoEntry : clear implicits.
Arguments Transaction : clear implicits.
Arguments TransactionManager : clear implicits.
