(* ===== verification/TransactionSteps.v ===== *)
(** Interleavings of the transaction manager: a step relation over its critical
    sections, the invariant every interleaving keeps, and the stronger one kept
    when operations run one at a time. *)

From S2P Require Import Prelude Machine LockTable Transaction.

Section steps.
Context `{SetIterLaws} {DateTime : Type}.
Implicit Types (s : TransactionManager DateTime) (T : Uuid).

(** ** Unfolding the handlers *)

Lemma get_active_Some s T t :
  active_transactions s !! T = Some t → state t = Active → get_active T s = (s, Ok t).
Proof. intros E Ha. unfold get_active, is_active. by rewrite E, bool_decide_eq_true_2. Qed.

Lemma get_active_inv s s' T t :
  get_active T s = (s', Ok t) → s' = s ∧ active_transactions s !! T = Some t ∧ state t = Active.
Proof.
  unfold get_active, is_active. destruct (active_transactions s !! T) as [t'|]; [|done].
  case_bool_decide; [|done]. naive_solver.
Qed.

Lemma get_active_state s T : (get_active T s).1 = s.
Proof.
  unfold get_active. destruct (_ !! T) as [t|]; [|done]. by destruct (is_active t).
Qed.

(** Transaction [T] marked as ended, and ended with its locks released. *)
Definition end_txn (T : Uuid) (st : TransactionState) (now : DateTime) s : TransactionManager DateTime :=
  set_txns (alter (complete st now) T) s.
Definition finished (T : Uuid) (st : TransactionState) (now : DateTime) s : TransactionManager DateTime :=
  set_table (release_all T) (end_txn T st now s).

Lemma commit_cases now T s :
  (∃ e, commit now T s = (s, Err e) ∧ get_active T s = (s, Err e)) ∨
  (∃ t r v, active_transactions s !! T = Some t ∧ state t = Active ∧
     stale_read s t = Some (r, v) ∧
     commit now T s = (finished T RolledBack now s,
       Err (VersionConflict (rs_entity_id r) (version_at_read r) v))) ∨
  (∃ t, active_transactions s !! T = Some t ∧ state t = Active ∧ stale_read s t = None ∧
     commit now T s =
       (finished T Committed now (set_versions (apply_versions (undo_log t)) s), Ok ())).
Proof.
  unfold commit. sr_unfold. pose proof (get_active_state s T) as Hs.
  destruct (get_active T s) as [s0 [t|e]] eqn:Hg; simpl in Hs; subst s0; [|left; by exists e].
  apply get_active_inv in Hg as (_ & Ht & Ha). right.
  destruct (stale_read s t) as [[r v]|] eqn:Hr; [left | right].
  - by exists t, r, v.
  - by exists t.
Qed.

Lemma rollback_cases now T s :
  (∃ e, rollback now T s = (s, Err e) ∧ get_active T s = (s, Err e)) ∨
  (∃ t, active_transactions s !! T = Some t ∧ state t = Active ∧
     rollback now T s = (finished T RolledBack now s, Ok (reverse (undo_log t)))).
Proof.
  unfold rollback. sr_unfold. pose proof (get_active_state s T) as Hs.
  destruct (get_active T s) as [s0 [t|e]] eqn:Hg; simpl in Hs; subst s0; [|left; by exists e].
  apply get_active_inv in Hg as (_ & Ht & Ha). right. by exists t.
Qed.

Lemma lock_check_cases T m s :
  (∃ e, lock_check T m s = (s, Err e)) ∨
  (lock_check T m s = (s, Ok ()) ∧ m ∈ MODALITIES ∧
   ∃ t, active_transactions s !! T = Some t ∧ state t = Active).
Proof.
  unfold lock_check, check_modality. sr_unfold. case_bool_decide; [|left; by eexists].
  sr_unfold. pose proof (get_active_state s T) as Hs.
  destruct (get_active T s) as [s0 [t|e]] eqn:Hg; simpl in Hs; subst s0; [|left; by eexists].
  apply get_active_inv in Hg as (_ & Ht & Ha). right. eauto.
Qed.

Lemma record_undo_cases now T e m data v s :
  (∃ err, record_undo now T e m data v s = (s, Err err)) ∨
  ((∃ t, active_transactions s !! T = Some t ∧ state t = Active) ∧
   record_undo now T e m data v s =
     (set_txns (alter (push_undo (mkUndoEntry e m data v now)) T) s, Ok ())).
Proof.
  unfold record_undo, check_modality. sr_unfold.
  case_bool_decide; [|left; by eexists].
  sr_unfold. pose proof (get_active_state s T) as Hs.
  destruct (get_active T s) as [s0 [t|err]] eqn:Hg; simpl in Hs; subst s0; [|left; by eexists].
  apply get_active_inv in Hg as (_ & Ht & Ha). right. eauto.
Qed.

Lemma read_stamp_cases T e m v s :
  (∃ err, read_stamp T e m v s = (s, Err err)) ∨
  ((∃ t, active_transactions s !! T = Some t ∧ state t = Active) ∧
   read_stamp T e m v s = (set_txns (alter (push_read (mkReadStamp e m v)) T) s, Ok ())).
Proof.
  unfold read_stamp. sr_unfold. pose proof (get_active_state s T) as Hs.
  destruct (get_active T s) as [s0 [t|err]] eqn:Hg; simpl in Hs; subst s0; [|left; by eexists].
  apply get_active_inv in Hg as (_ & Ht & Ha). right. eauto.
Qed.

(** ** Operations and steps *)

(** The operations that hold the map of transactions, or the version table,
    from beginning to end. *)
Inductive atomic_op :=
  | Commit (now : DateTime) (T : Uuid)
  | Rollback (now : DateTime) (T : Uuid)
  | RecordUndo (now : DateTime) (T : Uuid) (e m : string) (data : option (list byte)) (v : Z)
  | SetVersion (e m : string) (v : Z)
  | Purge.

Definition run_atomic (op : atomic_op) s : TransactionManager DateTime :=
  match op with
  | Commit now T => (commit now T s).1
  | Rollback now T => (rollback now T s).1
  | RecordUndo now T e m data v => (record_undo now T e m data v s).1
  | SetVersion e m v => (set_version e m v s).1
  | Purge => (purge_completed s).1
  end.

(** A call between two of its critical sections, holding none of the three
    locks of the manager. *)
Inductive call :=
  | LockChecked (T : Uuid) (e m : string) (ty : LockType)
  | LockTaken (T : Uuid) (e m : string) (ty : LockType)
  | VersionRead (T : Uuid) (e m : string) (v : Z).

Definition call_txn (c : call) : Uuid :=
  match c with LockChecked T _ _ _ | LockTaken T _ _ _ | VersionRead T _ _ _ => T end.

(** [commit] and [rollback] hold the map of transactions for writing until
    they return, but take the version table and the lock table one after the
    other: a commit that has passed validation, or a transaction marked as
    ended whose locks are still in the table. *)
Inductive ending :=
  | ToApply (now : DateTime) (T : Uuid)
  | ToRelease (T : Uuid).

(** The last component is the holder of the map of transactions.  Only the
    sections that need nothing but the lock table or the version table run
    while there is one. *)
Definition config : Type := TransactionManager DateTime * list call * option ending.

(** An identifier no transaction and no call in flight uses. *)
Definition fresh (T : Uuid) s (cs : list call) : Prop :=
  active_transactions s !! T = None ∧ ∀ k, k ∈ cs → call_txn k ≠ T.

Inductive step : config → config → Prop :=
  | step_begin s cs T now level :
      fresh T s cs → step (s, cs, None) ((begin T now level s).1, cs, None)
  | step_commit_stale s cs now T t r v :
      get_active T s = (s, Ok t) → stale_read s t = Some (r, v) →
      step (s, cs, None) (end_txn T RolledBack now s, cs, Some (ToRelease T))
  | step_commit_valid s cs now T t :
      get_active T s = (s, Ok t) → stale_read s t = None →
      step (s, cs, None) (s, cs, Some (ToApply now T))
  | step_commit_apply s cs now T t :
      active_transactions s !! T = Some t →
      step (s, cs, Some (ToApply now T))
        (end_txn T Committed now (set_versions (apply_versions (undo_log t)) s), cs, Some (ToRelease T))
  | step_rollback s cs now T t :
      get_active T s = (s, Ok t) →
      step (s, cs, None) (end_txn T RolledBack now s, cs, Some (ToRelease T))
  | step_release s cs T :
      step (s, cs, Some (ToRelease T)) (set_table (release_all T) s, cs, None)
  | step_record_undo s cs now T e m data v :
      step (s, cs, None) ((record_undo now T e m data v s).1, cs, None)
  | step_purge s cs : step (s, cs, None) ((purge_completed s).1, cs, None)
  | step_set_version s cs w e m v : step (s, cs, w) ((set_version e m v s).1, cs, w)
  | step_lock_check s cs T e m ty :
      lock_check T m s = (s, Ok ()) → step (s, cs, None) (s, LockChecked T e m ty :: cs, None)
  | step_lock_take s s' c1 c2 w T e m ty :
      lock_take T e m ty s = (s', Ok ()) →
      step (s, c1 ++ LockChecked T e m ty :: c2, w) (s', c1 ++ LockTaken T e m ty :: c2, w)
  | step_lock_refused s s' c1 c2 w T e m ty err :
      lock_take T e m ty s = (s', Err err) →
      step (s, c1 ++ LockChecked T e m ty :: c2, w) (s', c1 ++ c2, w)
  | step_lock_record s c1 c2 T e m ty :
      step (s, c1 ++ LockTaken T e m ty :: c2, None) ((lock_record T e m ty s).1, c1 ++ c2, None)
  | step_version_read s cs w T e m v :
      read_version e m s = (s, Ok v) → step (s, cs, w) (s, VersionRead T e m v :: cs, w)
  | step_read_stamp s c1 c2 T e m v :
      step (s, c1 ++ VersionRead T e m v :: c2, None) ((read_stamp T e m v s).1, c1 ++ c2, None).

Definition initial : config := (TransactionManager_new, [], None).
Definition reachable (c : config) : Prop := rtc step initial c.

(** Run without interruption, the sections of each operation are the operation. *)
Lemma run_atomic_steps op s cs : rtc step (s, cs, None) (run_atomic op s, cs, None).
Proof.
  destruct op as [now T|now T|now T e m data v|e m v|]; simpl.
  - destruct (commit_cases now T s) as [(? & -> & _)|[(t & r & v & Ht & Ha & Hr & ->)|(t & Ht & Ha & Hr & ->)]];
      [done | |]; pose proof (get_active_Some _ _ _ Ht Ha) as Hg.
    + eapply rtc_l; [by eapply step_commit_stale | apply rtc_once, step_release].
    + eapply rtc_l; [by eapply (step_commit_valid s cs now T)|].
      eapply rtc_l; [by apply step_commit_apply | apply rtc_once, step_release].
  - destruct (rollback_cases now T s) as [(? & -> & _)|(t & Ht & Ha & ->)]; [done|].
    eapply rtc_l; [eapply (step_rollback s cs now T), get_active_Some; done | apply rtc_once, step_release].
  - apply rtc_once, step_record_undo.
  - apply rtc_once, step_set_version.
  - apply rtc_once, step_purge.
Qed.

(** ** What a transaction holds *)

Definition held (lt : LockTable) (T : Uuid) (l : LockEntry) : Prop :=
  ∃ i, i ∈ holders_of lt (mkLockKey (le_entity_id l) (le_modality l)) ∧ holder i = T ∧
       (le_lock_type l = Exclusive → lock_type i = Exclusive).

Lemma held_release t T l lt : T ≠ t → held lt T l → held (release_all t lt) T l.
Proof.
  intros Hne (i & Hi & Ht & Hx). exists i. rewrite holders_of_release, elem_of_others.
  split_and!; [done | congruence | done | done].
Qed.

Lemma holders_of_grant t k ty lt k' :
  holders_of (grant t k ty lt) k' =
  if decide (k' = k) then others t (holders_of lt k) ++ [mkLockInfo t ty] else holders_of lt k'.
Proof.
  unfold holders_of at 1. simpl. case_decide as Hk; subst.
  - by rewrite lookup_insert_eq.
  - by rewrite lookup_insert_ne.
Qed.

(** Granting keeps every lock anyone holds, at least as strong. *)
Lemma held_grant t k ty T l lt :
  (∀ i, i ∈ holders_of lt k → holder i = t → lock_type i = Exclusive → ty = Exclusive) →
  held lt T l → held (grant t k ty lt) T l.
Proof.
  intros Hup (i & Hi & <- & Hx). unfold held. rewrite holders_of_grant. case_decide as Hk; [|by eauto].
  rewrite Hk in Hi. setoid_rewrite elem_of_app. setoid_rewrite elem_of_others.
  destruct (decide (holder i = t)) as [Ht|];
    [|exists i; split_and!; [left; by split | done | done]].
  exists (mkLockInfo t ty). split_and!; [right; by left | done |]. simpl. by eauto.
Qed.

Lemma held_acquire t e m ty T l lt : held lt T l → held (acquire t e m ty lt).1 T l.
Proof.
  intros Hh. unfold acquire. set (hs := holders_of lt (mkLockKey e m)).
  pose proof (inspect_cases t ty hs hs) as Hc. destruct (inspect t ty hs hs); simpl; try done.
  - apply held_grant; [|done]. by destruct Hc.
  - by destruct (detect_cycle _ t).
  - apply held_grant; [|done]. intros i Hi Ht. by destruct (Hc i Hi).
Qed.

Lemma held_acquired t e m ty lt :
  table_inv lt → (acquire t e m ty lt).2 = Ok () →
  held (acquire t e m ty lt).1 t (mkLockEntry e m ty).
Proof.
  intros Hi. unfold acquire, held. simpl. set (hs := holders_of lt (mkLockKey e m)).
  pose proof (inspect_cases t ty hs hs) as Hc. destruct (inspect t ty hs hs); simpl; try done; intros Hr.
  - destruct Hc as (i & ? & ? & Hx). exists i. split_and!; [done|done|]. intros ->. by destruct Hx.
  - rewrite holders_of_grant, decide_True by done. setoid_rewrite elem_of_app.
    exists (mkLockInfo t ty). split_and!; [right; by left|done|done].
  - by destruct (detect_cycle _ t).
  - rewrite holders_of_grant, decide_True by done. setoid_rewrite elem_of_app.
    exists (mkLockInfo t ty). split_and!; [right; by left|done|done].
Qed.

(** ** The invariant of every interleaving *)

(** What the holder of the map of transactions has established. *)
Definition ending_ok s (w : option ending) : Prop :=
  match w with
  | None => True
  | Some (ToApply _ T) => ∃ t, active_transactions s !! T = Some t ∧ state t = Active
  | Some (ToRelease T) => ∀ t, active_transactions s !! T = Some t → state t ≠ Active
  end.

Record txn_inv s (cs : list call) (w : option ending) : Prop := mkTxnInv {
  ti_table : table_inv (lock_table s);
  ti_held T t l : active_transactions s !! T = Some t → state t = Active →
    l ∈ txn_locks t → held (lock_table s) T l;
  ti_taken T e m ty t : LockTaken T e m ty ∈ cs →
    active_transactions s !! T = Some t → state t = Active →
    held (lock_table s) T (mkLockEntry e m ty);
  ti_ending : ending_ok s w;
}.

(** An active transaction of [s'] was active in [s] with the same locks and
    lost none of them, or is new. *)
Definition carries s s' (cs' : list call) : Prop :=
  ∀ T t', active_transactions s' !! T = Some t' → state t' = Active →
    (∃ t, active_transactions s !! T = Some t ∧ state t = Active ∧ txn_locks t' = txn_locks t ∧
          ∀ l, held (lock_table s) T l → held (lock_table s') T l) ∨
    (txn_locks t' = [] ∧ ∀ k, k ∈ cs' → call_txn k ≠ T).

Lemma txn_inv_carries s s' cs cs' w w' :
  txn_inv s cs w → table_inv (lock_table s') → carries s s' cs' →
  (∀ T e m ty, LockTaken T e m ty ∈ cs' → LockTaken T e m ty ∈ cs) → ending_ok s' w' →
  txn_inv s' cs' w'.
Proof.
  intros [Ht Hh Hk _] Ht' Hc Hcs Hw. split; [done|..|done].
  - intros T t' l Hl Ha Hin. destruct (Hc T t' Hl Ha) as [(t & ? & ? & E & Hm)|[E _]].
    + rewrite E in Hin. eauto.
    + rewrite E in Hin. by apply elem_of_nil in Hin.
  - intros T e m ty t' Hin Hl Ha. destruct (Hc T t' Hl Ha) as [(t & ? & ? & E & Hm)|[_ Hn]].
    + eauto.
    + by destruct (Hn _ Hin).
Qed.

Lemma carries_refl s s' cs :
  active_transactions s' = active_transactions s →
  (∀ T l, held (lock_table s) T l → held (lock_table s') T l) → carries s s' cs.
Proof. intros E Hh T t Hl Ha. left. exists t. rewrite <- E. eauto. Qed.

(** Changing one transaction, but neither its state nor its locks. *)
Lemma carries_alter s cs T f :
  (∀ t, state (f t) = state t ∧ txn_locks (f t) = txn_locks t) →
  carries s (set_txns (alter f T) s) cs.
Proof.
  intros Hf T' t' Hl Ha. left. simpl in Hl.
  destruct (decide (T = T')) as [<-|Hne].
  - rewrite lookup_alter_eq in Hl. destruct (active_transactions s !! T) as [t|]; [|done].
    injection Hl as <-. destruct (Hf t) as [Hs Hlk]. exists t. rewrite <- Hs. auto.
  - rewrite lookup_alter_ne in Hl by done. exists t'. auto.
Qed.

Lemma carries_end s cs T st now : st ≠ Active → carries s (end_txn T st now s) cs.
Proof.
  intros Hst T' t' Hl Ha. left. simpl in Hl. destruct (decide (T = T')) as [<-|Hne].
  - rewrite lookup_alter_eq in Hl. destruct (active_transactions s !! T) as [t|]; [|done].
    injection Hl as <-. done.
  - rewrite lookup_alter_ne in Hl by done. exists t'. auto.
Qed.

Lemma carries_release s cs T :
  ending_ok s (Some (ToRelease T)) → carries s (set_table (release_all T) s) cs.
Proof.
  intros Hn T' t' Hl Ha. left. exists t'. split_and!; [done..|].
  intros l. apply held_release. intros <-. by apply (Hn t').
Qed.

Lemma end_txn_ok s T st now : st ≠ Active → ending_ok (end_txn T st now s) (Some (ToRelease T)).
Proof.
  intros Hst t Hl. simpl in Hl. rewrite lookup_alter_eq in Hl.
  destruct (active_transactions s !! T); [|done]. by injection Hl as <-.
Qed.

Lemma end_txn_inv s cs w T st now :
  st ≠ Active → txn_inv s cs w → txn_inv (end_txn T st now s) cs (Some (ToRelease T)).
Proof.
  intros Hst Hi. eapply txn_inv_carries; [done | apply Hi | by apply carries_end | done | by apply end_txn_ok].
Qed.

Lemma set_versions_inv s cs w f : txn_inv s cs w → txn_inv (set_versions f s) cs w.
Proof.
  intros Hi. eapply txn_inv_carries; [done | apply Hi | by apply carries_refl | done | apply Hi].
Qed.

Lemma alter_inv s cs cs' T f :
  (∀ t, state (f t) = state t ∧ txn_locks (f t) = txn_locks t) →
  (∀ T e m ty, LockTaken T e m ty ∈ cs' → LockTaken T e m ty ∈ cs) →
  txn_inv s cs None → txn_inv (set_txns (alter f T) s) cs' None.
Proof.
  intros Hf Hcs Hi. eapply txn_inv_carries; [done | apply Hi | by apply carries_alter | done | done].
Qed.

Lemma elem_of_middle {A} (x y : A) l1 l2 : x ∈ l1 ++ l2 → x ∈ l1 ++ y :: l2.
Proof. rewrite !elem_of_app, elem_of_cons. naive_solver. Qed.

Lemma lock_take_state T e m ty s s' r :
  lock_take T e m ty s = (s', r) →
  s' = set_table (λ _, (acquire T e m ty (lock_table s)).1) s ∧ r = (acquire T e m ty (lock_table s)).2.
Proof. unfold lock_take. destruct (acquire T e m ty (lock_table s)). naive_solver. Qed.

Lemma purge_inv s cs : txn_inv s cs None → txn_inv (purge_completed s).1 cs None.
Proof.
  intros Hi. eapply txn_inv_carries; [done | apply Hi | | done | done].
  intros T t' [Hl Ha]%map_lookup_filter_Some _. left. eauto.
Qed.

Lemma begin_inv s cs T now level :
  fresh T s cs → txn_inv s cs None → txn_inv (begin T now level s).1 cs None.
Proof.
  intros [Hf1 Hf2] Hi. eapply txn_inv_carries; [done | apply Hi | | done | done].
  intros T' t' Hl Ha. simpl in Hl.
  apply lookup_insert_Some in Hl as [[<- <-]|[Hne Hl]]; [by right|]. left. eauto.
Qed.

(** Any attempt on the lock table keeps the invariant, minus the call. *)
Lemma lock_attempt_inv s c1 c2 w T e m ty :
  txn_inv s (c1 ++ LockChecked T e m ty :: c2) w →
  txn_inv (set_table (λ _, (acquire T e m ty (lock_table s)).1) s) (c1 ++ c2) w.
Proof.
  intros Hi. eapply txn_inv_carries; [done | apply acquire_inv, Hi | | | apply Hi].
  - apply carries_refl; [done|]. intros. by apply held_acquire.
  - intros. by apply elem_of_middle.
Qed.

Lemma lock_taken_inv s c1 c2 w T e m ty :
  (acquire T e m ty (lock_table s)).2 = Ok () →
  txn_inv s (c1 ++ LockChecked T e m ty :: c2) w →
  txn_inv (set_table (λ _, (acquire T e m ty (lock_table s)).1) s) (c1 ++ LockTaken T e m ty :: c2) w.
Proof.
  intros Hr Hi. pose proof (ti_table _ _ _ Hi) as Htab.
  destruct (lock_attempt_inv _ _ _ _ _ _ _ _ Hi) as [Ht Hh Hk Hw].
  split; [done | done | | done]. intros T' e' m' ty' t'.
  rewrite elem_of_app, elem_of_cons. intros [Hin|[[= -> -> -> ->]|Hin]] Hl Ha.
  - eapply Hk; [|done..]. apply elem_of_app. by left.
  - by apply held_acquired.
  - eapply Hk; [|done..]. apply elem_of_app. by right.
Qed.

Lemma lock_record_inv s c1 c2 T e m ty :
  txn_inv s (c1 ++ LockTaken T e m ty :: c2) None → txn_inv (lock_record T e m ty s).1 (c1 ++ c2) None.
Proof.
  intros [Ht Hh Hk _]. split; simpl; [done | | | done].
  - intros T' t' l Hl Ha Hin. destruct (decide (T = T')) as [<-|]; [|rewrite lookup_alter_ne in Hl by done; eauto].
    rewrite lookup_alter_eq in Hl. destruct (active_transactions s !! T) as [t|] eqn:E; [|done].
    injection Hl as <-. simpl in Ha, Hin. apply elem_of_app in Hin as [[Hin _]%elem_of_retain|Hin]; [eauto|].
    apply list_elem_of_singleton in Hin as ->. eapply Hk; [|done..]. apply elem_of_app. right. by left.
  - intros T' e' m' ty' t' Hin Hl Ha. apply (elem_of_middle _ (LockTaken T e m ty)) in Hin.
    destruct (decide (T = T')) as [<-|]; [|rewrite lookup_alter_ne in Hl by done; eauto].
    rewrite lookup_alter_eq in Hl. destruct (active_transactions s !! T) as [t|] eqn:E; [|done].
    injection Hl as <-. simpl in Ha. eauto.
Qed.

Lemma step_inv c c' : step c c' → txn_inv c.1.1 c.1.2 c.2 → txn_inv c'.1.1 c'.1.2 c'.2.
Proof.
  destruct 1 as [s cs T now level Hf | s cs now T t r v Hg _ | s cs now T t Hg _ | s cs now T t Ht
    | s cs now T t Hg | s cs T | s cs now T e m data v | s cs | s cs w e m v | s cs T e m ty _
    | s s' c1 c2 w T e m ty Hk | s s' c1 c2 w T e m ty err Hk | s c1 c2 T e m ty
    | s cs w T e m v _ | s c1 c2 T e m v]; cbn [fst snd]; intros Hi.
  - by apply begin_inv.
  - by eapply end_txn_inv.
  - apply get_active_inv in Hg as (_ & Ht & Ha). destruct Hi. split; [done..|]. by exists t.
  - by eapply end_txn_inv, set_versions_inv.
  - by eapply end_txn_inv.
  - eapply txn_inv_carries; [done | apply release_inv, Hi | apply carries_release, Hi | done | done].
  - destruct (record_undo_cases now T e m data v s) as [[? ->]|[_ ->]]; [done | by eapply alter_inv].
  - by apply purge_inv.
  - by apply set_versions_inv.
  - eapply txn_inv_carries; [done | apply Hi | by apply carries_refl | | done].
    intros T' e' m' ty' Hin. by apply elem_of_cons in Hin as [|].
  - apply lock_take_state in Hk as [-> Hr]. by apply lock_taken_inv.
  - apply lock_take_state in Hk as [-> _]. by apply lock_attempt_inv in Hi.
  - by apply lock_record_inv.
  - eapply txn_inv_carries; [done | apply Hi | by apply carries_refl | | apply Hi].
    intros T' e' m' ty' Hin. by apply elem_of_cons in Hin as [|].
  - destruct (read_stamp_cases T e m v s) as [[? ->]|[_ ->]]; simpl.
    + eapply txn_inv_carries; [done | apply Hi | by apply carries_refl | | done].
      intros. by apply elem_of_middle.
    + eapply alter_inv; [done | | done]. intros. by apply elem_of_middle.
Qed.

Lemma initial_inv : txn_inv TransactionManager_new [] None.
Proof.
  split; simpl.
  - apply empty_table_inv.
  - intros T t l E. by rewrite lookup_empty in E.
  - intros T e m ty t ?%elem_of_nil. done.
  - done.
Qed.

Lemma reachable_inv s cs w : reachable (s, cs, w) → txn_inv s cs w.
Proof.
  intros Hr. apply (rtc_ind_r (λ c : config, txn_inv c.1.1 c.1.2 c.2)) in Hr;
    [done | apply initial_inv |]. intros x y _ Hs IH. by eapply step_inv.
Qed.

End steps.
