(* ===== verification/TransactionTheorems.v ===== *)
(** What the transaction manager guarantees: lock exclusion between active
    transactions under every interleaving, the absence of leaked locks when
    operations run one at a time and their existence when they overlap, commit
    validation, stale reads, and the life cycle of a transaction. *)

From S2P Require Import Prelude Machine LockTable LockTheorems Transaction TransactionSteps.

Section theorems.
Context `{SetIterLaws} {DateTime : Type}.
Implicit Types (s : TransactionManager DateTime) (T : Uuid) (t : Transaction DateTime) (now : DateTime).

(** ** Whole operations, one at a time *)

Inductive op :=
  | Begin (T : Uuid) (now : DateTime) (level : IsolationLevel)
  | Atomic (op : atomic_op (DateTime:=DateTime))
  | AcquireLock (T : Uuid) (e m : string) (ty : LockType)
  | RecordRead (T : Uuid) (e m : string).

Definition run_op (o : op) s : TransactionManager DateTime :=
  match o with
  | Begin T now level => (begin T now level s).1
  | Atomic a => run_atomic a s
  | AcquireLock T e m ty => (acquire_lock T e m ty s).1
  | RecordRead T e m => (record_read T e m s).1
  end.

Definition run_ops (ops : list op) s : TransactionManager DateTime := foldl (λ s o, run_op o s) s ops.

(** New identifiers are fresh. *)
Definition allowed (o : op) s : Prop :=
  match o with Begin T _ _ => active_transactions s !! T = None | _ => True end.

Inductive seq_step : TransactionManager DateTime → TransactionManager DateTime → Prop :=
  | seq_step_op s o : allowed o s → seq_step s (run_op o s).

Definition seq_reachable s : Prop := rtc seq_step TransactionManager_new s.

Definition lock_key (l : LockEntry) : LockKey := mkLockKey (le_entity_id l) (le_modality l).

Lemma acquire_lock_cases T e m ty s :
  (∃ err, acquire_lock T e m ty s = (s, Err err)) ∨
  ((∃ t, active_transactions s !! T = Some t ∧ state t = Active) ∧
   let lt := (acquire T e m ty (lock_table s)).1 in
   acquire_lock T e m ty s =
   match (acquire T e m ty (lock_table s)).2 with
   | Ok _ => (set_txns (alter (push_lock (mkLockEntry e m ty)) T) (set_table (λ _, lt) s), Ok ())
   | Err err => (set_table (λ _, lt) s, Err err)
   end).
Proof.
  unfold acquire_lock. sr_unfold.
  destruct (lock_check_cases T m s) as [[err ->]|(-> & _ & Ht)]; [left; by eexists|].
  right. split; [done|]. unfold lock_take. destruct (acquire T e m ty (lock_table s)) as [lt [[]|err]]; done.
Qed.

Lemma record_read_cases T e m s :
  (∃ err, record_read T e m s = (s, Err err)) ∨
  ((∃ t, active_transactions s !! T = Some t ∧ state t = Active) ∧ m ∈ MODALITIES ∧
   record_read T e m s =
     (set_txns (alter (push_read (mkReadStamp e m (current_version s e m))) T) s, Ok ())).
Proof.
  unfold record_read, read_version, check_modality. sr_unfold. case_bool_decide; [|left; by eexists].
  destruct (read_stamp_cases T e m (version_get (version_table s) e m) s) as [[err ->]|[? ->]];
    [left; by eexists | by right].
Qed.

Lemma holders_acquire T e m ty lt k i :
  i ∈ holders_of (acquire T e m ty lt).1 k →
  i ∈ holders_of lt k ∨
  (k = mkLockKey e m ∧ holder i = T ∧ (acquire T e m ty lt).2 = Ok ()).
Proof.
  unfold acquire. destruct (inspect _ _ _ _) as [| |o|b|] eqn:E; simpl; try (by left).
  - rewrite holders_of_grant. case_decide as Hk; [|by left].
    intros [[Hi _]%elem_of_others|Hi]%elem_of_app; [by left; rewrite Hk|].
    apply list_elem_of_singleton in Hi as ->. by right.
  - destruct (detect_cycle _ T); by left.
  - rewrite holders_of_grant. case_decide as Hk; [|by left].
    intros [[Hi _]%elem_of_others|Hi]%elem_of_app; [by left; rewrite Hk|].
    apply list_elem_of_singleton in Hi as ->. by right.
Qed.

(** ** Sequential runs leak no lock *)

Definition owned s (k : LockKey) (T : Uuid) : Prop :=
  ∃ t l, active_transactions s !! T = Some t ∧ state t = Active ∧
         l ∈ txn_locks t ∧ lock_key l = k.

Record seq_inv s : Prop := mkSeqInv {
  si_table : table_inv (lock_table s);
  si_owned k i : i ∈ holders_of (lock_table s) k → owned s k (holder i);
}.

Lemma owned_alter s T f k U :
  (∀ t, state (f t) = state t ∧ ∀ l, l ∈ txn_locks t →
        ∃ l', l' ∈ txn_locks (f t) ∧ lock_key l' = lock_key l) →
  owned s k U → owned (set_txns (alter f T) s) k U.
Proof.
  intros Hf (t & l & Ht & Ha & Hl & Hk). unfold owned. simpl. destruct (decide (T = U)) as [->|Hne].
  - rewrite lookup_alter_eq, Ht. simpl. destruct (Hf t) as [Hs Hls].
    destruct (Hls l Hl) as (l' & ? & ?). exists (f t), l'. split_and!; congruence.
  - rewrite lookup_alter_ne by done. by exists t, l.
Qed.

Lemma push_lock_keeps l t l0 :
  l0 ∈ txn_locks t → ∃ l', l' ∈ txn_locks (push_lock l t) ∧ lock_key l' = lock_key l0.
Proof.
  intros Hl. simpl. destruct (decide (le_entity_id l0 = le_entity_id l ∧ le_modality l0 = le_modality l)) as [[E1 E2]|Hn].
  - exists l. split; [apply elem_of_app; right; by left|]. unfold lock_key. congruence.
  - exists l0. split; [|done]. apply elem_of_app. left. apply elem_of_retain.
    by rewrite bool_decide_eq_false_2.
Qed.

Lemma finished_seq_inv s T st now : seq_inv s → seq_inv (finished T st now s).
Proof.
  intros [Ht Ho]. split; simpl; [by apply release_inv|].
  intros k i. rewrite holders_of_release. intros [Hi Hne]%elem_of_others.
  destruct (Ho k i Hi) as (t & l & ? & ? & ? & ?). exists t, l. simpl.
  by rewrite lookup_alter_ne by done.
Qed.

Lemma seq_step_inv s s' : seq_step s s' → seq_inv s → seq_inv s'.
Proof.
  intros [s0 o Hal] Hi. clear s'. destruct Hi as [Ht Ho]. destruct o as [T now level|a|T e m ty|T e m]; simpl.
  - split; [done|]. intros k i (t & l & ? & ? & ? & ?)%Ho. exists t, l. simpl.
    rewrite lookup_insert_ne by (simpl in Hal; congruence). done.
  - destruct a as [now T|now T|now T e m data v|e m v|]; simpl.
    + destruct (commit_cases now T s0) as [(? & -> & _)|[(? & ? & ? & _ & _ & _ & ->)|(? & _ & _ & _ & ->)]];
        simpl; [done | by apply finished_seq_inv | by apply finished_seq_inv].
    + destruct (rollback_cases now T s0) as [(? & -> & _)|(? & _ & _ & ->)]; simpl; [done | by apply finished_seq_inv].
    + destruct (record_undo_cases now T e m data v s0) as [[? ->]|[_ ->]]; [done|].
      split; [done|]. intros k i Hin. apply owned_alter; [|by apply Ho]. simpl. eauto.
    + done.
    + split; [done|]. intros k i (t & l & ? & ? & ? & ?)%Ho. exists t, l. split_and!; try done.
      simpl. by apply map_lookup_filter_Some.
  - destruct (acquire_lock_cases T e m ty s0) as [[err ->]|[(t & Hlt & Ha) ->]]; [done|].
    destruct (acquire T e m ty (lock_table s0)).2 as [[]|err] eqn:Hr; simpl;
      (split; simpl; [by apply acquire_inv|]); intros k i Hin; apply holders_acquire in Hin as [Hin|(-> & <- & Hok)].
    + apply (owned_alter (set_table (λ _, (acquire T e m ty (lock_table s0)).1) s0)); [|by apply Ho].
      intros t0. split; [done|]. apply push_lock_keeps.
    + unfold owned. simpl. rewrite lookup_alter_eq, Hlt. simpl.
      eexists _, (mkLockEntry e m ty). split_and!; [done | done | | done].
      simpl. apply elem_of_app. right. by left.
    + by apply Ho.
    + congruence.
  - destruct (record_read_cases T e m s0) as [[? ->]|(_ & _ & ->)]; [done|].
    split; [done|]. intros k i Hin. apply owned_alter; [|by apply Ho]. simpl. eauto.
Qed.

Lemma seq_reachable_inv s : seq_reachable s → seq_inv s.
Proof.
  apply (rtc_ind_r seq_inv).
  - split; [apply empty_table_inv|]. intros k i Hin. by apply elem_of_nil in Hin.
  - intros x y _ Hs Hi. by eapply seq_step_inv.
Qed.

(** Running operations one at a time is one of the interleavings. *)
Lemma seq_step_steps s s' : seq_step s s' → rtc step (s, [], None) (s', [], None).
Proof.
  intros [s0 o Hal]. destruct o as [T now level|a|T e m ty|T e m]; cbn [run_op].
  - apply rtc_once, step_begin. split; [done|]. by intros k ?%elem_of_nil.
  - apply run_atomic_steps.
  - destruct (lock_check_cases T m s0) as [[err Hc]|(Hc & _)].
    + unfold acquire_lock. sr_unfold. by rewrite Hc.
    + eapply rtc_l; [by apply (step_lock_check _ _ T e m ty)|].
      destruct (lock_take T e m ty s0) as [s1 [[]|err]] eqn:Ht.
      * eapply rtc_l; [by apply (step_lock_take s0 s1 [] [] None T e m ty)|].
        eapply rtc_l; [apply (step_lock_record s1 [] [] T e m ty)|].
        unfold acquire_lock. sr_unfold. rewrite Hc, Ht. done.
      * eapply rtc_l; [by apply (step_lock_refused s0 s1 [] [] None T e m ty err)|].
        unfold acquire_lock. sr_unfold. rewrite Hc, Ht. done.
  - unfold record_read. sr_unfold. destruct (read_version e m s0) as [s1 [v|err]] eqn:Hv.
    + assert (s1 = s0) as ->.
      { revert Hv. unfold read_version, check_modality. sr_unfold. case_bool_decide; naive_solver. }
      eapply rtc_l; [by apply (step_version_read _ _ None T e m v)|].
      apply rtc_once, (step_read_stamp s0 [] [] T e m v).
    + assert (s1 = s0) as ->; [|done].
      revert Hv. unfold read_version, check_modality. sr_unfold. case_bool_decide; naive_solver.
Qed.

Fixpoint all_allowed (ops : list op) s : Prop :=
  match ops with [] => True | o :: ops => allowed o s ∧ all_allowed ops (run_op o s) end.

Lemma run_ops_seq ops s : all_allowed ops s → rtc seq_step s (run_ops ops s).
Proof.
  revert s. induction ops as [|o ops IH]; intros s; [done|]. intros [Ho Hops].
  eapply rtc_l; [by apply seq_step_op | by apply IH].
Qed.

Lemma seq_reachable_reachable s : seq_reachable s → reachable (s, [], None).
Proof.
  unfold seq_reachable, reachable, initial. generalize (TransactionManager_new (DateTime:=DateTime)).
  induction 1 as [|s1 s2 s3 Hs _ IH]; [done|]. etrans; [by apply seq_step_steps | done].
Qed.

(** ** Versions *)

Definition writes (e m : string) (log : list (UndoEntry DateTime)) : Z :=
  Z.of_nat (length (retain (λ u, bool_decide (ue_entity_id u = e ∧ ue_modality u = m)) log)).

Lemma writes_nonneg e m log : 0 ≤ writes e m log.
Proof. unfold writes. lia. Qed.

Lemma version_get_increment e m e' m' vt :
  version_get (increment e' m' vt) e m =
  if decide (e' = e ∧ m' = m) then wrap 64 (version_get vt e m + 1) else version_get vt e m.
Proof.
  unfold version_get at 1, increment. case_decide as Hd.
  - destruct Hd as [-> ->]. by rewrite lookup_insert_eq.
  - rewrite lookup_insert_ne; [done|]. intros [= -> ->]. by apply Hd.
Qed.

Lemma wrap_wrap_succ v n : wrap 64 (wrap 64 (v + 1) + n) = wrap 64 (v + (n + 1)).
Proof.
  unfold wrap. rewrite Zplus_mod_idemp_l. f_equal. lia.
Qed.

Lemma version_get_apply e m log vt :
  in_u 64 (version_get vt e m) →
  version_get (apply_versions log vt) e m = wrap 64 (version_get vt e m + writes e m log).
Proof.
  unfold apply_versions. revert vt. induction log as [|u log IH]; intros vt Hv; simpl.
  - unfold writes. simpl. by rewrite Z.add_0_r, wrap_small.
  - rewrite IH, version_get_increment by (rewrite version_get_increment; case_decide; [apply wrap_range; lia | done]).
    unfold writes. simpl. case_decide as Hd; [rewrite bool_decide_eq_true_2 by done|rewrite bool_decide_eq_false_2 by done].
    + rewrite wrap_wrap_succ. simpl. f_equal. lia.
    + done.
Qed.

Lemma first_stale_None vt rs :
  first_stale vt rs = None ↔
  ∀ r, r ∈ rs → version_get vt (rs_entity_id r) (rs_modality r) = version_at_read r.
Proof.
  induction rs as [|r rs IH]; simpl.
  - split; [by intros _ r ?%elem_of_nil | done].
  - destruct (Z.eqb_spec (version_get vt (rs_entity_id r) (rs_modality r)) (version_at_read r)) as [E|E].
    + rewrite IH. split; [intros Hr r' [->|?]%elem_of_cons; auto | intros Hr r' ?; apply Hr; by right].
    + split; [done|]. intros Hr. destruct E. apply Hr. by left.
Qed.

Lemma stale_read_None s t :
  stale_read s t = None ↔
  (isolation_level t = Serializable → ∀ r, r ∈ read_set t →
     current_version s (rs_entity_id r) (rs_modality r) = version_at_read r).
Proof.
  unfold stale_read. case_bool_decide as Hs.
  - rewrite first_stale_None. split; [by intros Hr _ | intros Hr; by apply Hr].
  - split; [by intros _ ? | done].
Qed.

(** ** Life cycle *)






(** ** Properties *)

(** C7 (locks of active transactions).  In every state the critical sections of
    the manager can interleave to, those of commits and rollbacks included, an active transaction still holds in the
    lock table every lock it has recorded, and two active transactions that
    recorded the same lock both recorded it as shared. *)
Theorem active_locks_exclude s cs w T1 T2 t1 t2 l1 l2 :
  reachable (s, cs, w) →
  active_transactions s !! T1 = Some t1 → state t1 = Active → l1 ∈ txn_locks t1 →
  active_transactions s !! T2 = Some t2 → state t2 = Active → l2 ∈ txn_locks t2 →
  held (lock_table s) T1 l1 ∧
  (T1 ≠ T2 → lock_key l1 = lock_key l2 → le_lock_type l1 = Shared ∧ le_lock_type l2 = Shared).
Proof.
  intros Hr Ht1 Ha1 Hl1 Ht2 Ha2 Hl2. apply reachable_inv in Hr as [Htab Hh _ _].
  assert (H1 := Hh _ _ _ Ht1 Ha1 Hl1). split; [done|]. intros Hne Hk.
  destruct H1 as (i1 & Hi1 & E1 & Hx1). destruct (Hh _ _ _ Ht2 Ha2 Hl2) as (i2 & Hi2 & E2 & Hx2).
  fold (lock_key l1) in Hi1. fold (lock_key l2) in Hi2. rewrite <- Hk in Hi2.
  destruct (holders_of_ok _ (lock_key l1) Htab) as [Hn|(_ & _ & Hal)].
  { rewrite Hn in Hi1. by apply elem_of_nil in Hi1. }
  assert (Hd : ∀ i j, i ∈ holders_of (lock_table s) (lock_key l1) → j ∈ holders_of (lock_table s) (lock_key l1) →
    holder i ≠ holder j → lock_type i ≠ Exclusive).
  { intros i j Hi Hj Hij Hx. rewrite (Hal i Hi Hx) in Hj. apply list_elem_of_singleton in Hj. congruence. }
  split.
  - destruct (le_lock_type l1) eqn:E; [done|]. destruct (Hd i1 i2 Hi1 Hi2); [congruence | auto].
  - destruct (le_lock_type l2) eqn:E; [done|]. destruct (Hd i2 i1 Hi2 Hi1); [congruence | auto].
Qed.

(** No leaked locks without overlap.  When operations run one at a time,
    every holder of a lock is an active transaction that has recorded it, so
    once no transaction is active the lock table is empty. *)
Theorem sequential_locks_owned s :
  seq_reachable s →
  (∀ k i, i ∈ holders_of (lock_table s) k → owned s k (holder i)) ∧
  ((∀ T t, active_transactions s !! T = Some t → state t ≠ Active) → locks (lock_table s) = ∅).
Proof.
  intros [Ht Ho]%seq_reachable_inv. split; [done|]. intros Hn.
  apply map_empty. intros k. destruct (locks (lock_table s) !! k) as [hs|] eqn:E; [|done].
  destruct (inv_holders _ Ht k hs E) as (Hne & _). destruct hs as [|i hs]; [done|].
  destruct (Ho k i) as (t & l & Hl & Ha & _); [unfold holders_of; rewrite E; by left|].
  by destruct (Hn _ _ Hl).
Qed.

(** A lock outlives its transaction.  [acquire_lock] checks that the
    transaction is active, takes the lock and records it in three critical
    sections.  A commit between the first two leaves the lock with a committed
    transaction: committing or rolling it back again fails and changes
    nothing, and every later exclusive request of another transaction is
    refused. *)
Theorem lock_outlives_commit s T t e m ty now :
  table_inv (lock_table s) →
  active_transactions s !! T = Some t → state t = Active → stale_read s t = None →
  m ∈ MODALITIES → Forall (compatible T ty) (holders_of (lock_table s) (mkLockKey e m)) →
  ∃ s', rtc step (s, [], None) (s', [], None) ∧
    get_transaction_state s' T = Some Committed ∧
    held (lock_table s') T (mkLockEntry e m ty) ∧
    (∀ now', commit now' T s' = (s', Err (InvalidState T Committed "Active"))) ∧
    (∀ now', rollback now' T s' = (s', Err (InvalidState T Committed "Active"))) ∧
    (∀ U, U ≠ T → is_ok (acquire U e m Exclusive (lock_table s')).2 = false).
Proof.
  intros Htab Ht Ha Hst Hm Hc.
  destruct (commit_cases now T s) as [(err & _ & Hg)|[(t' & r & v & Ht' & _ & Hr & _)|(t' & Ht' & _ & _ & Hcm)]];
    [rewrite (get_active_Some _ _ _ Ht Ha) in Hg; done | rewrite Ht in Ht'; injection Ht' as <-; congruence |].
  rewrite Ht in Ht'. injection Ht' as <-.
  set (s1 := finished T Committed now (set_versions (apply_versions (undo_log t)) s)) in *.
  assert (Htab1 : table_inv (lock_table s1)) by by apply release_inv.
  assert (Hgr : (acquire T e m ty (lock_table s1)).2 = Ok ()).
  { apply acquire_granted; [done|]. unfold s1. simpl. rewrite holders_of_release.
    apply Forall_forall. intros i [Hi _]%elem_of_others. by eapply Forall_forall in Hc. }
  pose proof (held_acquired _ _ _ _ _ Htab1 Hgr) as Hheld.
  pose proof (acquire_inv T e m ty _ Htab1) as Htab2.
  set (lt := (acquire T e m ty (lock_table s1)).1) in *.
  exists (set_txns (alter (push_lock (mkLockEntry e m ty)) T) (set_table (λ _, lt) s1)).
  assert (Hstate : active_transactions (set_txns (alter (push_lock (mkLockEntry e m ty)) T)
    (set_table (λ _, lt) s1)) !! T = Some (push_lock (mkLockEntry e m ty) (complete Committed now t))).
  { simpl. by rewrite !lookup_alter_eq, Ht. }
  split_and!.
  - eapply rtc_l; [apply (step_lock_check s [] T e m ty)|].
    { destruct (lock_check_cases T m s) as [[err Hl]|[Hl _]]; [|done]. exfalso. revert Hl.
      unfold lock_check, check_modality. sr_unfold. rewrite bool_decide_eq_true_2 by done.
      by rewrite (get_active_Some _ _ _ Ht Ha). }
    etrans; [apply (run_atomic_steps (Commit now T))|]. simpl. rewrite Hcm. simpl.
    eapply rtc_l; [apply (step_lock_take s1 (set_table (λ _, lt) s1) [] [] None T e m ty)|].
    { unfold lock_take. rewrite (surjective_pairing (acquire T e m ty (lock_table s1))). by rewrite Hgr. }
    eapply rtc_l; [apply (step_lock_record _ [] [] T e m ty)|]. done.
  - unfold get_transaction_state. by rewrite Hstate.
  - done.
  - intros now'. unfold commit. sr_unfold. unfold get_active. by rewrite Hstate.
  - intros now'. unfold rollback. sr_unfold. unfold get_active. by rewrite Hstate.
  - intros U HU. apply acquire_refused; [done|]. simpl.
    destruct Hheld as (i & Hi & Hit & _). simpl in Hi.
    rewrite Forall_forall. intros Hf. destruct (Hf i Hi) as [?|[_ ?]]; congruence.
Qed.

(** C9 (commit).  Committing an active transaction succeeds exactly when it is
    not serializable or every version it read is still current.  On success
    each version grows by the number of undo entries for it (modulo 2^64), on
    failure none changes; either way the transaction is ended, its locks are
    released and no other transaction is touched. *)
Theorem commit_outcome s T t now :
  active_transactions s !! T = Some t → state t = Active →
  (∀ e m, in_u 64 (current_version s e m)) →
  let s' := (commit now T s).1 in
  let ok := is_ok (commit now T s).2 in
  (ok = true ↔ (isolation_level t = Serializable → ∀ r, r ∈ read_set t →
     current_version s (rs_entity_id r) (rs_modality r) = version_at_read r)) ∧
  (∀ e m, current_version s' e m =
     if ok then wrap 64 (current_version s e m + writes e m (undo_log t)) else current_version s e m) ∧
  get_transaction_state s' T = Some (if ok then Committed else RolledBack) ∧
  (∀ U, U ≠ T → active_transactions s' !! U = active_transactions s !! U) ∧
  (∀ k, holders_of (lock_table s') k = others T (holders_of (lock_table s) k)).
Proof.
  intros Ht Ha Hv. cbv zeta. rewrite <- stale_read_None.
  destruct (commit_cases now T s) as [(err & _ & Hg)|[(t' & r & v & Ht' & _ & Hr & ->)|(t' & Ht' & _ & Hr & ->)]];
    [by rewrite (get_active_Some _ _ _ Ht Ha) in Hg | |];
    rewrite Ht in Ht'; injection Ht' as <-; cbn [fst snd is_ok]; rewrite Hr; (split; [done|]).
  - split_and!; [done | | |].
    + unfold get_transaction_state. simpl. by rewrite lookup_alter_eq, Ht.
    + intros U HU. simpl. by rewrite lookup_alter_ne.
    + intros k. by apply holders_of_release.
  - split_and!.
    + intros e m. specialize (Hv e m). unfold current_version in *. simpl. by apply version_get_apply.
    + unfold get_transaction_state. simpl. by rewrite lookup_alter_eq, Ht.
    + intros U HU. simpl. by rewrite lookup_alter_ne.
    + intros k. by apply holders_of_release.
Qed.

(** ** Stale reads *)

(** The version increments of one operation, and of a run. *)
Definition bump (e m : string) (o : op) s : Z :=
  match o with
  | Atomic (Commit now T) =>
      match active_transactions s !! T with
      | Some t => if is_ok (commit now T s).2 then writes e m (undo_log t) else 0
      | None => 0
      end
  | _ => 0
  end.

Fixpoint increments (e m : string) (ops : list op) s : Z :=
  match ops with
  | [] => 0
  | o :: ops => bump e m o s + increments e m ops (run_op o s)
  end.

(** Operations that leave the life cycle of [T] and the stored versions alone. *)
Definition unrelated (T : Uuid) (o : op) : Prop :=
  match o with
  | Begin U _ _ | Atomic (Commit _ U) | Atomic (Rollback _ U) => U ≠ T
  | Atomic (SetVersion _ _ _) => False
  | _ => True
  end.

(** A serializable transaction that is active and keeps the read stamp [r]. *)
Definition stamped (T : Uuid) (r : ReadStamp) s : Prop :=
  ∃ t, active_transactions s !! T = Some t ∧ state t = Active ∧
       isolation_level t = Serializable ∧ r ∈ read_set t.

Lemma stamped_alter T r s U f :
  (∀ t, state (f t) = state t ∧ isolation_level (f t) = isolation_level t ∧
        ∀ r, r ∈ read_set t → r ∈ read_set (f t)) →
  stamped T r s → stamped T r (set_txns (alter f U) s).
Proof.
  intros Hf (t & Ht & Ha & Hi & Hr). unfold stamped. simpl. destruct (decide (U = T)) as [->|].
  - rewrite lookup_alter_eq, Ht. destruct (Hf t) as (E1 & E2 & Hs). exists (f t).
    rewrite E1, E2. auto.
  - rewrite lookup_alter_ne by done. by exists t.
Qed.

Lemma stamped_finished T r s U st now :
  U ≠ T → stamped T r s → stamped T r (finished U st now s).
Proof.
  intros Hne (t & Ht & Hr). exists t. simpl. by rewrite lookup_alter_ne.
Qed.

Lemma stamped_run_op T r o s : unrelated T o → stamped T r s → stamped T r (run_op o s).
Proof.
  destruct o as [U now level|a|U e m ty|U e m]; simpl; intros Hu Hs.
  - destruct Hs as (t & Ht & ?). exists t. simpl. by rewrite lookup_insert_ne.
  - destruct a as [now U|now U|now U e m data v|e m v|]; simpl in *.
    + destruct (commit_cases now U s) as [(? & -> & _)|[(? & ? & ? & _ & _ & _ & ->)|(? & _ & _ & _ & ->)]];
        [done | by apply stamped_finished..].
    + destruct (rollback_cases now U s) as [(? & -> & _)|(? & _ & _ & ->)]; [done | by apply stamped_finished].
    + destruct (record_undo_cases now U e m data v s) as [[? ->]|[_ ->]]; [done | by apply stamped_alter].
    + done.
    + destruct Hs as (t & ? & ? & ?). exists t. split; [|done]. simpl. by apply map_lookup_filter_Some.
  - destruct (acquire_lock_cases U e m ty s) as [[? ->]|[_ ->]]; [done|].
    by destruct (acquire U e m ty (lock_table s)).2 as [[]|]; [apply stamped_alter|].
  - destruct (record_read_cases U e m s) as [[? ->]|(_ & _ & ->)]; [done|].
    apply stamped_alter; [|done]. intros t. split_and!; [done..|]. intros r' ?. simpl. apply elem_of_app. by left.
Qed.

Lemma version_run_op T e m o s :
  unrelated T o → in_u 64 (current_version s e m) →
  current_version (run_op o s) e m = wrap 64 (current_version s e m + bump e m o s).
Proof.
  intros Hu Hv. assert (H0 : current_version s e m = wrap 64 (current_version s e m + 0)).
  { by rewrite Z.add_0_r, wrap_small. }
  destruct o as [U now level|a|U e' m' ty|U e' m']; simpl; try done.
  - destruct a as [now U|now U|now U e' m' data v|e' m' v|]; simpl in *; try done.
    + destruct (commit_cases now U s) as [(? & -> & _)|[(t & ? & ? & -> & _ & _ & ->)|(t & -> & _ & _ & ->)]]; simpl.
      * by destruct (active_transactions s !! U).
      * done.
      * by apply version_get_apply.
    + by destruct (rollback_cases now U s) as [(? & -> & _)|(? & _ & _ & ->)].
    + by destruct (record_undo_cases now U e' m' data v s) as [[? ->]|[_ ->]].
  - destruct (acquire_lock_cases U e' m' ty s) as [[? ->]|[_ ->]]; [done|].
    by destruct (acquire U e' m' ty (lock_table s)).2 as [[]|].
  - by destruct (record_read_cases U e' m' s) as [[? ->]|(_ & _ & ->)].
Qed.

Lemma run_ops_stamped T r e m ops s :
  Forall (unrelated T) ops → stamped T r s → in_u 64 (current_version s e m) →
  stamped T r (run_ops ops s) ∧
  current_version (run_ops ops s) e m = wrap 64 (current_version s e m + increments e m ops s).
Proof.
  intros Hu. revert s. induction Hu as [|o ops Ho _ IH]; intros s Hs Hv; simpl.
  - by rewrite Z.add_0_r, wrap_small.
  - pose proof (version_run_op T e m o s Ho Hv) as E.
    destruct (IH (run_op o s)) as [IH1 IH2].
    + by apply stamped_run_op.
    + rewrite E. by apply wrap_range.
    + split; [done|]. rewrite IH2, E. unfold wrap.
      rewrite Zplus_mod_idemp_l. f_equal. lia.
Qed.

(** C10 (stale reads abort).  A serializable transaction reads an entity; other
    operations run, some of which commit writes to it; then its commit is
    refused with a version conflict.  (The counter must not wrap all the way
    round in between.) *)
Theorem stale_read_aborts T t e m ops now s :
  active_transactions s !! T = Some t → state t = Active → isolation_level t = Serializable →
  m ∈ MODALITIES → in_u 64 (current_version s e m) →
  let s1 := (record_read T e m s).1 in
  Forall (unrelated T) ops → 0 < increments e m ops s1 < 2 ^ 64 →
  ∃ e' expected actual, expected ≠ actual ∧
    (commit now T (run_ops ops s1)).2 = Err (VersionConflict e' expected actual).
Proof.
  intros Ht Ha Hser Hm Hv s1 Hu Hn.
  assert (Hs1 : s1 = set_txns (alter (push_read (mkReadStamp e m (current_version s e m))) T) s).
  { unfold s1. destruct (record_read_cases T e m s) as [[err E]|(_ & _ & ->)]; [|done]. exfalso. revert E.
    unfold record_read, read_version, check_modality, read_stamp. sr_unfold.
    rewrite bool_decide_eq_true_2 by done. by rewrite (get_active_Some _ _ _ Ht Ha). }
  set (r := mkReadStamp e m (current_version s e m)) in *.
  assert (Hst : stamped T r s1).
  { rewrite Hs1. eexists. simpl. rewrite lookup_alter_eq, Ht. split_and!; try done.
    simpl. apply elem_of_app. right. by left. }
  assert (Hcv : current_version s1 e m = current_version s e m) by by rewrite Hs1.
  destruct (run_ops_stamped T r e m ops s1 Hu Hst) as [(t2 & Ht2 & Ha2 & Hi2 & Hr2) Hv2]; [by rewrite Hcv|].
  destruct (commit_cases now T (run_ops ops s1)) as [(err & _ & Hg)|[(t' & r' & v & Ht' & _ & Hr & ->)|(t' & Ht' & _ & Hr & _)]].
  - by rewrite (get_active_Some _ _ _ Ht2 Ha2) in Hg.
  - exists (rs_entity_id r'), (version_at_read r'), v. split; [|done].
    unfold stale_read in Hr. case_bool_decide; [|done]. clear -Hr. induction (read_set t') as [|r0 rs IH]; [done|].
    simpl in Hr. destruct (Z.eqb_spec (version_get (version_table (run_ops ops s1)) (rs_entity_id r0) (rs_modality r0)) (version_at_read r0)).
    + by apply IH.
    + injection Hr as <- <-. congruence.
  - exfalso. rewrite Ht2 in Ht'. injection Ht' as <-.
    pose proof (proj1 (stale_read_None _ _) Hr Hi2 r Hr2) as E. simpl in E.
    rewrite Hv2, Hcv in E. unfold wrap, in_u in *.
    rewrite Z.mod_eq in E by lia. nia.
Qed.

(** A refused commit loses the undo log.  When serializable validation
    fails, the transaction is already rolled back: [rollback], the only
    operation that hands the undo entries to the caller, refuses it from then
    on, and a purge discards the entries. *)
Theorem failed_validation_discards_undo s T t now now' e expected actual :
  active_transactions s !! T = Some t → state t = Active →
  (commit now T s).2 = Err (VersionConflict e expected actual) →
  let s' := (commit now T s).1 in
  get_transaction_state s' T = Some RolledBack ∧
  (∃ t', active_transactions s' !! T = Some t' ∧ undo_log t' = undo_log t) ∧
  rollback now' T s' = (s', Err (InvalidState T RolledBack "Active")) ∧
  active_transactions (purge_completed s').1 !! T = None.
Proof.
  intros Ht Ha. unfold get_transaction_state.
  destruct (commit_cases now T s) as [(err & _ & Hg)|[(t' & r & v & Ht' & _ & _ & ->)|(t' & Ht' & _ & Hr & ->)]];
    [by rewrite (get_active_Some _ _ _ Ht Ha) in Hg | | done].
  rewrite Ht in Ht'. injection Ht' as <-. intros _. cbn [fst].
  assert (El : active_transactions (finished T RolledBack now s) !! T = Some (complete RolledBack now t))
    by (simpl; by rewrite lookup_alter_eq, Ht).
  rewrite El. split_and!; [done | by eexists | |].
  - unfold rollback. sr_unfold. unfold get_active. by rewrite El.
  - cbn [purge_completed fst set_txns active_transactions]. apply map_lookup_filter_None. right. intros x. rewrite El.
    intros [= <-]. done.
Qed.


(** ** Progress *)

Lemma ending_completes s cs w :
  ending_ok s w → ∃ n s', (n ≤ 2)%nat ∧ nsteps step n (s, cs, w) (s', cs, None).
Proof.
  destruct w as [[now T|T]|]; simpl.
  - intros (t & Ht & _). eexists 2%nat, _. split; [done|].
    eapply nsteps_l; [by apply step_commit_apply|]. apply nsteps_once, step_release.
  - intros _. eexists 1%nat, _. split; [lia|]. apply nsteps_once, step_release.
  - intros _. exists 0%nat, s. split; [lia|]. constructor.
Qed.

Lemma call_completes s k cs : ∃ n s', (n ≤ 2)%nat ∧ nsteps step n (s, k :: cs, None) (s', cs, None).
Proof.
  assert (Htake : ∀ s T e m ty, step (s, LockTaken T e m ty :: cs, None) ((lock_record T e m ty s).1, cs, None))
    by (intros s0 T e m ty; exact (step_lock_record s0 [] cs T e m ty)).
  destruct k as [T e m ty|T e m ty|T e m v].
  - destruct (lock_take T e m ty s) as [s' [[]|err]] eqn:E.
    + eexists 2%nat, _. split; [done|]. eapply nsteps_l; [exact (step_lock_take s s' [] cs None T e m ty E)|].
      apply nsteps_once, Htake.
    + exists 1%nat, s'. split; [lia|]. apply nsteps_once. exact (step_lock_refused s s' [] cs None T e m ty err E).
  - eexists 1%nat, _. split; [lia|]. apply nsteps_once, Htake.
  - eexists 1%nat, _. split; [lia|]. apply nsteps_once. exact (step_read_stamp s [] cs T e m v).
Qed.

Lemma calls_complete cs s : ∃ n s', (n ≤ 2 * length cs)%nat ∧ nsteps step n (s, cs, None) (s', [], None).
Proof.
  revert s. induction cs as [|k cs IH]; intros s; [exists 0%nat, s; split; [lia|constructor]|].
  destruct (call_completes s k cs) as (n1 & s1 & Hn1 & H1). destruct (IH s1) as (n2 & s2 & Hn2 & H2).
  exists (n1 + n2)%nat, s2. split; [simpl; lia|]. by eapply nsteps_trans.
Qed.

(** C36 (no operation is stuck).  From every state the interleavings reach, the
    operations in flight can all complete, in at most two critical sections each
    and two more for the holder of the map of transactions; then any active
    transaction can be rolled back at once, after which it holds no lock. *)
Theorem reachable_completes s cs w :
  reachable (s, cs, w) →
  ∃ n s', (n ≤ 2 * length cs + 2)%nat ∧ nsteps step n (s, cs, w) (s', [], None) ∧
    ∀ T t now, active_transactions s' !! T = Some t → state t = Active →
      ∃ s'', rtc step (s', [], None) (s'', [], None) ∧ get_transaction_state s'' T = Some RolledBack ∧
        ∀ k i, i ∈ holders_of (lock_table s'') k → holder i ≠ T.
Proof.
  intros [_ _ _ Hw]%reachable_inv. destruct (ending_completes s cs w Hw) as (n1 & s1 & Hn1 & H1).
  destruct (calls_complete cs s1) as (n2 & s2 & Hn2 & H2). exists (n1 + n2)%nat, s2.
  split; [lia|]. split; [by eapply nsteps_trans|]. intros T t now Ht Ha.
  exists (rollback now T s2).1. split; [apply (run_atomic_steps (Rollback now T))|].
  destruct (rollback_cases now T s2) as [(e & _ & Hg)|(t' & Ht' & _ & ->)].
  { by rewrite (get_active_Some _ _ _ Ht Ha) in Hg. }
  split.
  - unfold get_transaction_state. simpl. by rewrite lookup_alter_eq, Ht'.
  - intros k i. simpl. rewrite holders_of_release, elem_of_others. by intros [_ ?].
Qed.

End theorems.

(** ** Witnesses *)

Module Witness.
Import LockTheorems.Witness.

Abbreviation Manager := (TransactionManager Z).

(** 1 and 2 share a lock; 1 is serializable, has read "x" and written "y". *)
Definition ops : list (op (DateTime:=Z)) :=
  [Begin 1%N 0 Serializable; Begin 2%N 0 ReadCommitted;
   AcquireLock 1%N "x" "graph" Shared; AcquireLock 2%N "x" "graph" Shared;
   Atomic (RecordUndo 0 1%N "y" "graph" None 0)].

Definition mgr : Manager := run_ops ops TransactionManager_new.

Lemma mgr_reachable : seq_reachable mgr.
Proof. apply run_ops_seq. vm_compute. tauto. Qed.

Definition t1 : Transaction Z :=
  mkTransaction 1%N Active Serializable [mkUndoEntry "y" "graph" None 0 0]
    [mkLockEntry "x" "graph" Shared] [] 0 None.
Definition t2 : Transaction Z :=
  mkTransaction 2%N Active ReadCommitted [] [mkLockEntry "x" "graph" Shared] [] 0 None.

Lemma mgr_versions e m : in_u 64 (current_version mgr e m).
Proof.
  assert (E : version_table mgr = ∅) by by vm_compute.
  unfold current_version, version_get. rewrite E, lookup_empty. by vm_compute.
Qed.

Lemma active_locks_exclude_witness :
  held (lock_table mgr) 1 (mkLockEntry "x" "graph" Shared) ∧
  (1%N ≠ 2%N → lock_key (mkLockEntry "x" "graph" Shared) = lock_key (mkLockEntry "x" "graph" Shared) →
   Shared = Shared ∧ Shared = Shared).
Proof.
  apply (active_locks_exclude mgr [] None 1 2 t1 t2 (mkLockEntry "x" "graph" Shared) (mkLockEntry "x" "graph" Shared)).
  - apply seq_reachable_reachable, mgr_reachable.
  - by vm_compute.
  - done.
  - by left.
  - by vm_compute.
  - done.
  - by left.
Defined.

Lemma sequential_locks_owned_witness : owned mgr (mkLockKey "x" "graph") 1.
Proof.
  apply (proj1 (sequential_locks_owned mgr mgr_reachable) _ (mkLockInfo 1 Shared)).
  assert (E : holders_of (lock_table mgr) (mkLockKey "x" "graph") =
    [mkLockInfo 1 Shared; mkLockInfo 2 Shared]) by by vm_compute.
  rewrite E. by left.
Defined.

Lemma lock_outlives_commit_witness :
  ∃ s', rtc step (mgr, [], None) (s', [], None) ∧ get_transaction_state s' 2 = Some Committed ∧
    held (lock_table s') 2 (mkLockEntry "z" "graph" Exclusive).
Proof.
  destruct (lock_outlives_commit mgr 2 t2 "z" "graph" Exclusive 5) as (s' & H1 & H2 & H3 & _).
  - apply (seq_reachable_inv mgr mgr_reachable).
  - by vm_compute.
  - done.
  - done.
  - by left.
  - constructor.
  - by exists s'.
Defined.

Lemma commit_outcome_witness :
  is_ok (commit 5 1 mgr).2 = true ∧ current_version (commit 5 1 mgr).1 "y" "graph" = 1.
Proof.
  destruct (commit_outcome mgr 1 t1 5) as ([_ Hok] & Hv & _); [by vm_compute | done | exact mgr_versions |].
  cbv zeta in *. rewrite Hok in Hv by (intros _ r ?%elem_of_nil; done).
  split; [apply Hok; by intros _ r ?%elem_of_nil | apply (Hv "y" "graph")].
Defined.

Lemma stale_read_aborts_witness :
  ∃ e' expected actual, expected ≠ actual ∧
    (commit 9 1 (run_ops [Atomic (RecordUndo 0 2%N "x" "graph" None 0); Atomic (Commit 7 2%N)]
       (record_read 1 "x" "graph" mgr).1)).2 = Err (VersionConflict e' expected actual).
Proof.
  apply (stale_read_aborts 1 t1 "x" "graph" _ 9 mgr).
  - by vm_compute.
  - done.
  - done.
  - by left.
  - apply mgr_versions.
  - repeat (apply Forall_cons; split); try apply Forall_nil_2; done.
  - vm_compute. split; [done | reflexivity].
Defined.

Lemma failed_validation_witness :
  let s := run_ops [Atomic (RecordUndo 0 2%N "x" "graph" None 0); Atomic (Commit 7 2%N)]
             (record_read 1 "x" "graph" mgr).1 in
  rollback 10 1 (commit 9 1 s).1 = ((commit 9 1 s).1, Err (InvalidState 1 RolledBack "Active")).
Proof.
  intros s.
  apply (failed_validation_discards_undo s 1 (push_read (mkReadStamp "x" "graph" 0) t1) 9 10 "x" 0 1);
    by vm_compute.
Defined.


Lemma reachable_completes_witness :
  ∃ n s', nsteps step n (mgr, [LockChecked 1 "y" "graph" Shared], None) (s', [], None).
Proof.
  destruct (reachable_completes mgr [LockChecked 1 "y" "graph" Shared] None) as (n & s' & _ & Hn & _).
  - eapply rtc_r; [exact (seq_reachable_reachable _ mgr_reachable)|]. apply step_lock_check. by vm_compute.
  - by exists n, s'.
Defined.

End Witness.
