(* ===== verification/Provenance.v ===== *)
(** Provenance hash chains (verisim-provenance/src/lib.rs): records, chains,
    verification and the in-memory store.  SHA-256 in lower-case hexadecimal,
    JSON serialisation and RFC 3339 formatting are parameters. *)

From S2P Require Import Prelude Machine Text.

(** ** External code *)

(** The JSON values a record is made of; [JVariant] is the object with one
    string field a newtype variant serialises to. *)
Inductive json :=
  | JNull
  | JString (s : string)
  | JVariant (tag s : string).

Class ProvenanceEnv := {
  DateTime : Type;
  to_rfc3339 : DateTime → string;
  json_object : list (string * json) → string;
  sha256_hex : list byte → string;
}.

(** The text of an object determines its values, given its (distinct) keys, and
    is not empty; RFC 3339 determines the instant. *)
Class ProvenanceLaws (P : ProvenanceEnv) := {
  json_object_inj f g : f.*1 = g.*1 → NoDup f.*1 → json_object f = json_object g → f = g;
  json_object_nonempty f : json_object f ≠ "";
  to_rfc3339_inj a b : to_rfc3339 a = to_rfc3339 b → a = b;
}.

(** ** Data *)

Inductive ProvenanceError :=
  | NotFound (entity : string)
  | ChainCorrupted (entity reason : string)
  | HashMismatch (entity : string) (index : nat)
  | IoError (msg : string).

Inductive ProvenanceEventType :=
  | Created | Modified | Imported | Normalized | DriftRepaired | Deleted | Merged
  | Custom (name : string).

Definition event_display (ev : ProvenanceEventType) : string :=
  match ev with
  | Created => "created" | Modified => "modified" | Imported => "imported"
  | Normalized => "normalized" | DriftRepaired => "drift_repaired" | Deleted => "deleted"
  | Merged => "merged" | Custom name => String.append "custom:" name
  end.

(** The derived serialisation of the enum: a unit variant is its name, a
    newtype variant a one-field object. *)
Definition event_json (ev : ProvenanceEventType) : json :=
  match ev with
  | Created => JString "Created" | Modified => JString "Modified" | Imported => JString "Imported"
  | Normalized => JString "Normalized" | DriftRepaired => JString "DriftRepaired"
  | Deleted => JString "Deleted" | Merged => JString "Merged"
  | Custom name => JVariant "Custom" name
  end.

Section provenance.
Context `{ProvenanceEnv}.

Record ProvenanceRecord := mkRecord {
  event_type : ProvenanceEventType;
  actor : string;
  timestamp : DateTime;
  source : option string;
  description : string;
  parent_hash : string;
  content_hash : string;
}.

Record ProvenanceChain := mkChain { chain_entity_id : string; records : list ProvenanceRecord }.

(** ** Records *)

Definition source_json (s : option string) : json :=
  match s with Some s => JString s | None => JNull end.

Definition canonical (ev : ProvenanceEventType) (actor : string) (timestamp : DateTime)
    (source : option string) (description parent_hash : string) : list byte :=
  as_bytes (json_object
    [("event_type", event_json ev); ("actor", JString actor);
     ("timestamp", JString (to_rfc3339 timestamp)); ("source", source_json source);
     ("description", JString description); ("parent_hash", JString parent_hash)]).

Definition compute_hash (ev : ProvenanceEventType) (actor : string) (timestamp : DateTime)
    (source : option string) (description parent_hash : string) : string :=
  sha256_hex (canonical ev actor timestamp source description parent_hash).

Definition record_new (now : DateTime) (ev : ProvenanceEventType) (actor : string)
    (source : option string) (description parent_hash : string) : ProvenanceRecord :=
  mkRecord ev actor now source description parent_hash
    (compute_hash ev actor now source description parent_hash).

Definition record_verify (r : ProvenanceRecord) : bool :=
  String.eqb (content_hash r)
    (compute_hash (event_type r) (actor r) (timestamp r) (source r) (description r) (parent_hash r)).

(** ** Chains *)

Definition chain_new (entity : string) : ProvenanceChain := mkChain entity [].
Definition chain_len (c : ProvenanceChain) : nat := length (records c).
Definition chain_is_empty (c : ProvenanceChain) : bool := bool_decide (records c = []).
Definition genesis_hash : string := sha256_hex [].

Definition mismatch_reason (i : nat) (expected got : string) : string :=
  String.concat "" ["Record "; fmt_u64 (Z.of_nat i); " parent_hash mismatch: expected "; expected;
                    ", got "; got].

Fixpoint verify_loop (entity : string) (i : nat) (expected_parent : string)
    (rs : list ProvenanceRecord) : result ProvenanceError unit :=
  match rs with
  | [] => Ok ()
  | r :: rs =>
      ensure String.eqb (parent_hash r) expected_parent
        else ChainCorrupted entity (mismatch_reason i expected_parent (parent_hash r)) ;;
      ensure record_verify r else HashMismatch entity i ;;
      verify_loop entity (S i) (content_hash r) rs
  end.

Definition chain_verify (c : ProvenanceChain) : result ProvenanceError unit :=
  verify_loop (chain_entity_id c) 0 genesis_hash (records c).

Definition origin (c : ProvenanceChain) : option ProvenanceRecord := head (records c).
Definition chain_latest (c : ProvenanceChain) : option ProvenanceRecord := last (records c).

Definition last_hash (rs : list ProvenanceRecord) : string :=
  default genesis_hash (content_hash <$> last rs).

Definition chain_append (now : DateTime) (ev : ProvenanceEventType) (actor : string)
    (source : option string) (description : string) (c : ProvenanceChain) : ProvenanceChain :=
  mkChain (chain_entity_id c)
    (records c ++ [record_new now ev actor source description (last_hash (records c))]).

(** ** The in-memory store *)

Abbreviation Store := (gmap string ProvenanceChain).

Definition PM (A : Type) : Type := SR Store ProvenanceError A.

Definition record_event (now : DateTime) (entity : string) (ev : ProvenanceEventType)
    (actor : string) (source : option string) (description : string) : PM ProvenanceRecord := λ s,
  let chain := default (chain_new entity) (s !! entity) in
  let chain := chain_append now ev actor source description chain in
  (<[entity := chain]> s,
   Ok (default (record_new now ev actor source description genesis_hash) (chain_latest chain))).

Definition get_chain (s : Store) (entity : string) : result ProvenanceError ProvenanceChain :=
  ok_or (s !! entity) (NotFound entity).

Definition verify_chain (s : Store) (entity : string) : result ProvenanceError bool :=
  match s !! entity with
  | Some chain => chain_verify chain;; mret true
  | None => Ok false
  end.

Definition get_origin (s : Store) (entity : string) : result ProvenanceError (option ProvenanceRecord) :=
  Ok (s !! entity ≫= origin).
Definition get_latest (s : Store) (entity : string) : result ProvenanceError (option ProvenanceRecord) :=
  Ok (s !! entity ≫= chain_latest).

(** [order] is the order the [HashMap] is iterated in. *)
Definition search_by_actor (order : Store → list (string * ProvenanceChain)) (s : Store) (who : string) :
    result ProvenanceError (list (string * ProvenanceRecord)) :=
  Ok (mjoin ((λ p, (λ r, (p.1, r)) <$> retain (λ r, String.eqb (actor r) who) (records p.2)) <$> order s)).

Definition delete_chain (entity : string) : PM unit := sr_modify (delete entity).

(** ** Linked chains *)

(** Record [i] points to [h], record [i+1] to record [i], and each carries its
    own hash. *)
Fixpoint linked (h : string) (rs : list ProvenanceRecord) : Prop :=
  match rs with
  | [] => True
  | r :: rs => parent_hash r = h ∧ record_verify r = true ∧ linked (content_hash r) rs
  end.

Lemma verify_loop_linked e i h rs : verify_loop e i h rs = Ok () ↔ linked h rs.
Proof.
  revert i h. induction rs as [|r rs IH]; intros i h; simpl; [done|].
  destruct (String.eqb_spec (parent_hash r) h); simpl; [|naive_solver].
  destruct (record_verify r); simpl; [|naive_solver].
  rewrite IH. naive_solver.
Qed.

Lemma linked_app h rs1 rs2 :
  linked h (rs1 ++ rs2) ↔
  linked h rs1 ∧ linked (default h (content_hash <$> last rs1)) rs2.
Proof.
  revert h. induction rs1 as [|r rs1 IH]; intros h; simpl; [naive_solver|].
  rewrite IH. destruct rs1 as [|r' rs1]; simpl; [naive_solver|].
  destruct (last (r' :: rs1)) eqn:E; [naive_solver|]. by apply last_None in E.
Qed.

Lemma record_verify_new now ev a src d h : record_verify (record_new now ev a src d h) = true.
Proof. apply String.eqb_refl. Qed.

(** The bytes a record's hash is computed from. *)
Definition record_bytes (r : ProvenanceRecord) : list byte :=
  canonical (event_type r) (actor r) (timestamp r) (source r) (description r) (parent_hash r).

Lemma record_verify_hash r : record_verify r = true ↔ content_hash r = sha256_hex (record_bytes r).
Proof. apply String.eqb_eq. Qed.

End provenance.

Abbreviation Store := (gmap string ProvenanceChain).

Section hashing.
Context `{ProvenanceLaws}.

(** The byte strings hashed for a chain: nothing, for the genesis hash, and the records'. *)
Definition chain_inputs (rs : list ProvenanceRecord) : list (list byte) := [] :: (record_bytes <$> rs).

(** Two different byte strings among those of two chains that hash alike. *)
Definition collision (rs rs' : list ProvenanceRecord) : Prop :=
  ∃ a b, a ∈ chain_inputs rs ∧ b ∈ chain_inputs rs' ∧ a ≠ b ∧ sha256_hex a = sha256_hex b.

Lemma record_input r rs : r ∈ rs → record_bytes r ∈ chain_inputs rs.
Proof. intros Hr. right. by apply list_elem_of_fmap_2. Qed.

Lemma collision_app rs rs' k k' : collision rs rs' → collision (rs ++ k) (rs' ++ k').
Proof.
  intros (a & b & Ha & Hb & Hab). exists a, b. unfold chain_inputs in *.
  rewrite !fmap_app. set_solver.
Qed.

Lemma event_json_inj a b : event_json a = event_json b → a = b.
Proof. destruct a, b; simpl; congruence. Qed.

Lemma record_bytes_inj r r' :
  record_bytes r = record_bytes r' → content_hash r = content_hash r' → r = r'.
Proof.
  unfold record_bytes, canonical. intros E%as_bytes_inj Hc. apply json_object_inj in E; [|done|].
  - destruct r, r'. simpl in *. injection E as Ee Ea Et Es Ed Ep.
    apply event_json_inj in Ee. apply to_rfc3339_inj in Et. subst.
    f_equal. destruct source0, source1; simpl in Es; congruence.
  - apply (bool_decide_unpack _). by vm_compute.
Qed.

Lemma record_bytes_nonempty r : record_bytes r ≠ [].
Proof.
  unfold record_bytes, canonical. intros E. apply (as_bytes_inj _ "") in E.
  by apply json_object_nonempty in E.
Qed.

(** Two linked chains, compared from their newest records. *)
Lemma linked_heads rs rs' :
  linked genesis_hash rs → linked genesis_hash rs' → last_hash rs = last_hash rs' →
  rs = rs' ∨ collision rs rs'.
Proof.
  assert (Hsnoc : ∀ rs r, linked genesis_hash (rs ++ [r]) →
    linked genesis_hash rs ∧ last_hash (rs ++ [r]) = sha256_hex (record_bytes r) ∧
    parent_hash r = last_hash rs).
  { intros l r [Hl [Hp [Hv _]]]%linked_app. unfold last_hash at 1. rewrite last_snoc.
    split_and!; [done | by apply record_verify_hash | done]. }
  revert rs'. induction rs as [|r rs IH] using rev_ind; intros rs' Hl Hl' He.
  - destruct rs' as [|r' rs' _] using rev_ind; [by left|]. right.
    apply Hsnoc in Hl' as (_ & E & _). rewrite E in He.
    exists [], (record_bytes r'). split_and!; [by left|apply record_input; set_solver| |done].
    by intros ?%eq_sym%record_bytes_nonempty.
  - destruct rs' as [|r' rs' _] using rev_ind.
    + right. apply Hsnoc in Hl as (_ & E & _). rewrite E in He.
      exists (record_bytes r), []. split_and!; [apply record_input; set_solver|by left|apply record_bytes_nonempty|done].
    + pose proof (linked_app genesis_hash rs [r]) as [Hv _]. apply Hv in Hl as Hv1. clear Hv.
      pose proof (linked_app genesis_hash rs' [r']) as [Hv _]. apply Hv in Hl' as Hv2. clear Hv.
      destruct Hv1 as (_ & _ & Hr & _), Hv2 as (_ & _ & Hr' & _).
      apply Hsnoc in Hl as (Hl & E & Hp), Hl' as (Hl' & E' & Hp').
      destruct (decide (record_bytes r = record_bytes r')) as [Hb|Hb].
      * assert (r = r') as <-.
        { apply record_bytes_inj; [done|]. apply record_verify_hash in Hr, Hr'. congruence. }
        destruct (IH rs') as [->|?]; [done|done|congruence|by left|].
        right. by apply collision_app.
      * right. exists (record_bytes r), (record_bytes r').
        split_and!; [apply record_input; set_solver..|done|congruence].
Qed.

End hashing.

(** ** Properties

    What provenance chains guarantee: every stored chain verifies, the newest
    hash pins down the whole chain unless SHA-256 collides, and verification
    reports the first fault. *)

Section theorems.
Context `{ProvenanceLaws}.

Inductive store_op :=
  | RecordEvent (now : DateTime) (entity : string) (ev : ProvenanceEventType) (who : string)
      (src : option string) (desc : string)
  | DeleteChain (entity : string).

Definition run_op (s : Store) (op : store_op) : Store :=
  match op with
  | RecordEvent now e ev who src d => (record_event now e ev who src d s).1
  | DeleteChain e => (delete_chain e s).1
  end.

Definition chain_ok (entity : string) (c : ProvenanceChain) : Prop :=
  chain_entity_id c = entity ∧ records c ≠ [] ∧ linked genesis_hash (records c).

Lemma linked_append now ev who src d c :
  linked genesis_hash (records c) →
  linked genesis_hash (records (chain_append now ev who src d c)).
Proof.
  intros Hl. simpl. apply linked_app. split; [done|]. simpl.
  split_and!; [done | apply record_verify_new | done].
Qed.

Lemma run_op_ok s op :
  map_Forall chain_ok s → map_Forall chain_ok (run_op s op).
Proof.
  intros Hs. destruct op as [now e ev who src d|e]; simpl.
  - apply map_Forall_insert_2; [|done]. destruct (s !! e) as [c|] eqn:E; simpl.
    + destruct (Hs e c E) as (<- & _ & Hl). split_and!; [done | simpl; by destruct (records c) |].
      by apply (linked_append now ev who src d c).
    + split_and!; [done | done |]. by apply (linked_append now ev who src d (chain_new e)).
  - by apply map_Forall_delete.
Qed.

(** ** Properties *)

(** Stored chains verify.  After any sequence of recorded events and chain
    deletions, every stored chain is non-empty, is filed under its own entity
    and passes verification; an entity without a chain reports [false], never
    an error. *)
Theorem store_chains_verify ops e :
  let s := foldl run_op ∅ ops in
  match s !! e with
  | Some c => chain_entity_id c = e ∧ records c ≠ [] ∧ chain_verify c = Ok () ∧
              verify_chain s e = Ok true
  | None => verify_chain s e = Ok false
  end.
Proof.
  cbv zeta. assert (Hs : map_Forall chain_ok (foldl run_op ∅ ops)).
  { induction ops as [|op ops IH] using rev_ind; [by apply map_Forall_empty|].
    rewrite foldl_app. by apply run_op_ok. }
  unfold verify_chain. destruct (_ !! e) as [c|] eqn:E; [|done].
  destruct (Hs e c E) as (He & Hne & Hl).
  assert (Hv : chain_verify c = Ok ()) by by apply verify_loop_linked. by rewrite Hv.
Qed.

(** Recording an event appends exactly one record to the
    entity's chain: it carries the event, its parent is the previous newest
    record (or the genesis hash), it verifies, and it is returned; the other
    chains are untouched. *)
Theorem record_event_appends now e ev who src d s :
  let old := default [] (records <$> s !! e) in
  ∃ s' r, record_event now e ev who src d s = (s', Ok r) ∧
    records <$> s' !! e = Some (old ++ [r]) ∧
    event_type r = ev ∧ actor r = who ∧ source r = src ∧ description r = d ∧ timestamp r = now ∧
    parent_hash r = last_hash old ∧ record_verify r = true ∧
    get_latest s' e = Ok (Some r) ∧
    (∀ e', e' ≠ e → s' !! e' = s !! e').
Proof.
  cbv zeta. unfold record_event, get_latest. eexists _, _. split; [done|].
  rewrite lookup_insert_eq. unfold chain_latest. simpl. rewrite last_snoc. simpl.
  assert (E : default [] (records <$> s !! e) = records (default (chain_new e) (s !! e)))
    by by destruct (s !! e).
  rewrite E. split_and!; try done; [apply record_verify_new|].
  intros e' He. by rewrite lookup_insert_ne.
Qed.

(** Tamper evidence.  Two chains that verify and end in the same content
    hash hold the same records, or two different byte strings hashed for them
    are a SHA-256 collision: with the newest hash kept aside, no record can be
    changed, inserted, reordered or removed unnoticed. *)
Theorem equal_heads_equal_chains c c' :
  chain_verify c = Ok () → chain_verify c' = Ok () →
  last_hash (records c) = last_hash (records c') →
  records c = records c' ∨ collision (records c) (records c').
Proof. intros Hc%verify_loop_linked Hc'%verify_loop_linked. by apply linked_heads. Qed.

Lemma verify_loop_fault e i h rs err :
  verify_loop e i h rs = Err err →
  ∃ pre r post, rs = pre ++ r :: post ∧ linked h pre ∧
    let expected := default h (content_hash <$> last pre) in
    let n := (i + length pre)%nat in
    (err = ChainCorrupted e (mismatch_reason n expected (parent_hash r)) ∧ parent_hash r ≠ expected) ∨
    (err = HashMismatch e n ∧ parent_hash r = expected ∧ record_verify r = false).
Proof.
  revert i h. induction rs as [|r rs IH]; intros i h; simpl; [done|].
  destruct (String.eqb_spec (parent_hash r) h) as [Ep|Ep]; simpl.
  2: { intros [= <-]. exists [], r, rs. simpl. rewrite Nat.add_0_r. naive_solver. }
  destruct (record_verify r) eqn:Ev; simpl.
  2: { intros [= <-]. exists [], r, rs. simpl. rewrite Nat.add_0_r. naive_solver. }
  intros (pre & r' & post & -> & Hl & Hc)%IH. exists (r :: pre), r', post. cbv zeta in *.
  assert (E : default h (content_hash <$> last (r :: pre)) = default (content_hash r) (content_hash <$> last pre)).
  { destruct pre as [|r0 pre]; [done|]. simpl. destruct (last (r0 :: pre)) eqn:El; [done|].
    by apply last_None in El. }
  rewrite E. simpl. rewrite <- plus_n_Sm. done.
Qed.

(** Verification.  [verify] accepts exactly the chains in which the first
    record points to the genesis hash, each later one to its predecessor, and
    every record carries its own hash.  Otherwise it reports the first bad
    record: everything before it is sound, and the error says whether its
    parent link or its own hash is wrong.  It accepts every prefix of a chain
    it accepts, whatever entity the prefix is filed under: removing the newest
    records, or moving the chain, goes unnoticed. *)
Theorem verify_reports_first_fault c :
  match chain_verify c with
  | Ok _ => linked genesis_hash (records c) ∧
            ∀ k e, chain_verify (mkChain e (take k (records c))) = Ok ()
  | Err err => ∃ pre r post, records c = pre ++ r :: post ∧ linked genesis_hash pre ∧
      ((err = ChainCorrupted (chain_entity_id c)
                (mismatch_reason (length pre) (last_hash pre) (parent_hash r)) ∧
        parent_hash r ≠ last_hash pre) ∨
       (err = HashMismatch (chain_entity_id c) (length pre) ∧
        parent_hash r = last_hash pre ∧ record_verify r = false))
  end.
Proof.
  destruct (chain_verify c) as [[]|err] eqn:E.
  - apply verify_loop_linked in E. split; [done|]. intros k e. apply verify_loop_linked. simpl.
    rewrite <- (take_drop k (records c)) in E. by apply linked_app in E as [? _].
  - by apply verify_loop_fault in E.
Qed.

End theorems.

(** ** Witnesses *)

Module Witness.

#[export] Instance json_eq_dec : EqDecision json.
Proof. solve_decision. Defined.

#[export] Instance json_countable : Countable json.
Proof.
  refine (inj_countable'
    (λ j, match j with JNull => inl () | JString s => inr (inl s) | JVariant t s => inr (inr (t, s)) end)
    (λ x, match x with inl _ => JNull | inr (inl s) => JString s | inr (inr (t, s)) => JVariant t s end) _).
  by intros [].
Defined.

(** Binary digits of a code, after a bracket. *)
Fixpoint bits (p : positive) : string :=
  match p with
  | xH => ""
  | xO p => String.append "0" (bits p)
  | xI p => String.append "1" (bits p)
  end.

Lemma bits_inj p q : bits p = bits q → p = q.
Proof.
  revert q. induction p as [p IH|p IH|]; intros [q|q|] E; try discriminate E; [| |done];
    injection E as E; f_equal; auto.
Qed.

#[export] Instance env : ProvenanceEnv := {|
  DateTime := string;
  to_rfc3339 := λ t, t;
  json_object := λ f, String.append "{" (bits (encode f));
  sha256_hex := λ l, bits (Pos.of_succ_nat (length l));
|}.

#[export] Instance env_laws : ProvenanceLaws env.
Proof.
  split; simpl.
  - intros f g _ _ [= E]. by apply bits_inj, (inj encode) in E.
  - done.
  - done.
Qed.

Definition at_ (t : string) : DateTime := t.

Definition ops : list store_op :=
  [RecordEvent (at_ "t0") "e" Created "alice" None "first"; RecordEvent (at_ "t1") "e" (Custom "x") "bob" (Some "s") "second";
   RecordEvent (at_ "t2") "f" Imported "alice" None "other"; DeleteChain "f"].

Definition store : Store := foldl run_op ∅ ops.

Definition chain_e : ProvenanceChain := default (chain_new "e") (store !! "e").

Lemma chain_e_ok : chain_verify chain_e = Ok ().
Proof. by vm_compute. Qed.

Lemma store_chains_verify_witness : verify_chain store "e" = Ok true ∧ verify_chain store "f" = Ok false.
Proof.
  split.
  - pose proof (store_chains_verify ops "e") as Hv. cbv zeta in Hv. fold store in Hv.
    destruct (store !! "e") as [c|] eqn:E; [apply Hv|].
    exfalso. clear Hv. revert E. vm_compute. discriminate.
  - by vm_compute.
Defined.

Lemma record_event_witness :
  ∃ s' r, record_event (at_ "t9") "e" Deleted "carol" None "gone" store = (s', Ok r) ∧
    parent_hash r = last_hash (records chain_e).
Proof.
  destruct (record_event_appends (at_ "t9") "e" Deleted "carol" None "gone" store)
    as (s' & r & E & _ & _ & _ & _ & _ & _ & Hp & _).
  exists s', r. split; [exact E|]. rewrite Hp. by vm_compute.
Defined.

Lemma equal_heads_witness : records chain_e = records chain_e ∨ collision (records chain_e) (records chain_e).
Proof. apply (equal_heads_equal_chains chain_e chain_e chain_e_ok chain_e_ok). reflexivity. Defined.

Lemma verify_witness : linked genesis_hash (records chain_e).
Proof.
  pose proof (verify_reports_first_fault chain_e) as Hv. rewrite chain_e_ok in Hv. apply Hv.
Defined.

End Witness.
