(* ===== verification/Temporal.v ===== *)
(** Versioned and time-series stores (verisim-temporal/src/lib.rs, diff.rs).
    A [BTreeMap<u64, Version>] is the list of its entries in key order; the
    instants of chrono and their order are parameters.  The stores' lock
    poisoning cannot occur (the release profile aborts on panic), so no
    operation returns [LockPoisoned]. *)

From S2P Require Import Prelude Machine Collections.

(** ** Instants *)

Class TimeOrd := {
  Instant : Type;
  time_leb : Instant → Instant → bool;
}.

Class TimeOrdLaws (O : TimeOrd) := {
  time_leb_refl a : time_leb a a = true;
  time_leb_trans a b c : time_leb a b = true → time_leb b c = true → time_leb a c = true;
  time_leb_total a b : time_leb a b = true ∨ time_leb b a = true;
}.

(** ** Errors and diffs *)

Inductive TemporalError :=
  | NotFound (msg : string)
  | VersionNotFound (entity_id : string) (version : Z)
  | InvalidTimeRange (msg : string)
  | TemporalConflict (msg : string)
  | LockPoisoned.

Inductive Diff (T : Type) :=
  | NoChange (value : T)
  | Changed (old new : T)
  | Added (value : T)
  | Removed (value : T).
Arguments NoChange {T}. Arguments Changed {T}. Arguments Added {T}. Arguments Removed {T}.

Inductive DiffError := IncomparableValues.

Section diff.
Context {T : Type} `{EqDecision T}.

Definition has_change (d : Diff T) : bool := match d with NoChange _ => false | _ => true end.

Definition new_value (d : Diff T) : option T :=
  match d with
  | NoChange v => Some v | Changed _ n => Some n | Added v => Some v | Removed _ => None
  end.

Definition old_value (d : Diff T) : option T :=
  match d with
  | NoChange v => Some v | Changed o _ => Some o | Added _ => None | Removed v => Some v
  end.

Definition compare_values (old new : option T) : result DiffError (Diff T) :=
  match old, new with
  | Some o, Some n => if bool_decide (o = n) then Ok (NoChange o) else Ok (Changed o n)
  | Some o, None => Ok (Removed o)
  | None, Some n => Ok (Added n)
  | None, None => Err IncomparableValues
  end.

End diff.

(** ** Versions and ranges *)

Section store.
Context `{TimeOrd} {T : Type} `{EqDecision T}.

Record Version := mkVersion {
  version : Z;
  v_timestamp : Instant;
  data : T;
  author : string;
  message : option string;
}.

Definition Version_new (now : Instant) (v : Z) (d : T) (author : string) : Version :=
  mkVersion v now d author None.
Definition with_message (m : string) (v : Version) : Version :=
  mkVersion (version v) (v_timestamp v) (data v) (author v) (Some m).

Record TimeRange := mkRange { start : Instant; end_ : Instant }.

Definition TimeRange_new (a b : Instant) : result TemporalError TimeRange :=
  ensure negb (time_leb b a) else InvalidTimeRange "start must be before end" ;;
  Ok (mkRange a b).

Definition contains (r : TimeRange) (t : Instant) : bool :=
  time_leb (start r) t && negb (time_leb (end_ r) t).

(** ** The version store *)

Definition VersionMap : Type := list (Z * Version).
Abbreviation VStore := (gmap string VersionMap).

Definition append (now : Instant) (entity : string) (d : T) (who : string) (msg : option string) :
    SR VStore TemporalError Z := λ s,
  let versions := default [] (s !! entity) in
  let next_version := match last versions with Some (v, _) => wrap 64 (v + 1) | None => 1 end in
  let v := Version_new now next_version d who in
  let v := match msg with Some m => with_message m v | None => v end in
  (<[entity := btree_insert next_version v versions]> s, Ok next_version).

Definition values (s : VStore) (entity : string) : list Version := snd <$> default [] (s !! entity).

Definition latest (s : VStore) (entity : string) : result TemporalError (option Version) :=
  Ok (last (values s entity)).

Definition at_version (s : VStore) (entity : string) (v : Z) : result TemporalError (option Version) :=
  Ok (s !! entity ≫= btree_get v).

Definition at_time (s : VStore) (entity : string) (t : Instant) : result TemporalError (option Version) :=
  Ok (last (retain (λ v, time_leb (v_timestamp v) t) (values s entity))).

Definition in_range (s : VStore) (entity : string) (r : TimeRange) : result TemporalError (list Version) :=
  Ok (retain (λ v, contains r (v_timestamp v)) (values s entity)).

Definition history (s : VStore) (entity : string) (limit : nat) : result TemporalError (list Version) :=
  Ok (take limit (reverse (values s entity))).

Definition no_versions (entity : string) : TemporalError :=
  NotFound (String.append "No versions to compare for entity " entity).

Definition map_diff (entity : string) (r : result DiffError (Diff T)) : result TemporalError (Diff T) :=
  match r with Ok d => Ok d | Err _ => Err (no_versions entity) end.

Definition diff (s : VStore) (entity : string) (v1 v2 : Z) : result TemporalError (Diff T) :=
  version1 ← at_version s entity v1;
  version2 ← at_version s entity v2;
  map_diff entity (compare_values (data <$> version1) (data <$> version2)).

Definition diff_time (s : VStore) (entity : string) (t1 t2 : Instant) : result TemporalError (Diff T) :=
  version1 ← at_time s entity t1;
  version2 ← at_time s entity t2;
  map_diff entity (compare_values (data <$> version1) (data <$> version2)).

(** ** The time-series store *)

Record TimePoint := mkPoint { time : Instant; value : T; labels : gmap string string }.

Definition TimePoint_new (t : Instant) (v : T) : TimePoint := mkPoint t v ∅.
Definition with_label (k v : string) (p : TimePoint) : TimePoint :=
  mkPoint (time p) (value p) (<[k := v]> (labels p)).

Abbreviation SStore := (gmap string (list TimePoint)).

Definition series_append (id : string) (p : TimePoint) : SR SStore TemporalError unit :=
  sr_modify (λ s, <[id := default [] (s !! id) ++ [p]]> s).

Definition series_query (s : SStore) (id : string) (r : TimeRange) : result TemporalError (list TimePoint) :=
  Ok (retain (λ p, contains r (time p)) (default [] (s !! id))).

Definition series_latest (s : SStore) (id : string) : result TemporalError (option TimePoint) :=
  Ok (s !! id ≫= last).

(** ** Contiguous version numbers *)

(** Entry [i] has key and version number [i + 1]. *)
Definition store_ok (m : VersionMap) : Prop :=
  ∀ i k v, m !! i = Some (k, v) → k = Z.of_nat i + 1 ∧ version v = k.

Lemma store_ok_last m k v : store_ok m → last m = Some (k, v) → k = Z.of_nat (length m).
Proof.
  intros Hm Hl. rewrite last_lookup in Hl. destruct (Hm _ _ _ Hl) as [-> _].
  assert (length m ≠ 0)%nat by (intros E; apply nil_length_inv in E; by subst). lia.
Qed.

Lemma store_ok_snoc m v :
  store_ok m → version v = Z.of_nat (length m) + 1 →
  store_ok (m ++ [(Z.of_nat (length m) + 1, v)]).
Proof.
  intros Hm Hv i k w Hi. apply lookup_snoc_Some in Hi as [[_ Hi]|[-> [= <- <-]]]; [by apply Hm | done].
Qed.

Lemma store_ok_below m : store_ok m → Forall (λ p, p.1 < Z.of_nat (length m) + 1) m.
Proof.
  intros Hm. apply Forall_lookup. intros i [k w] Hi. destruct (Hm _ _ _ Hi) as [-> _].
  apply lookup_lt_Some in Hi. simpl. lia.
Qed.

Lemma btree_get_from (j : nat) (m : VersionMap) n :
  (∀ i k v, m !! i = Some (k, v) → k = Z.of_nat (j + i) + 1) → Z.of_nat j < n →
  btree_get n m = (snd <$> m) !! Z.to_nat (n - Z.of_nat j - 1).
Proof.
  revert j. induction m as [|[k v] m IH]; intros j Hm Hn; [done|]. simpl.
  rewrite (Hm 0%nat k v eq_refl). case_match eqn:E.
  - apply Z.eqb_eq in E. by replace (Z.to_nat (n - Z.of_nat j - 1)) with 0%nat by lia.
  - apply Z.eqb_neq in E. rewrite (IH (S j)) by (lia || (intros i k' v' Hi; rewrite (Hm (S i) k' v' Hi); lia)).
    replace (Z.to_nat (n - Z.of_nat j - 1)) with (S (Z.to_nat (n - Z.of_nat (S j) - 1))) by lia. done.
Qed.

Lemma btree_get_store_ok m n :
  store_ok m → 1 ≤ n → btree_get n m = (snd <$> m) !! Z.to_nat (n - 1).
Proof.
  intros Hm Hn. rewrite (btree_get_from 0) by (lia || (intros i k v Hi; by destruct (Hm i k v Hi))).
  f_equal. lia.
Qed.

(** The version one append creates after [n] others. *)
Definition version_of (n : nat) (now : Instant) (d : T) (who : string) (msg : option string) : Version :=
  mkVersion (Z.of_nat n + 1) now d who msg.

Lemma append_ok now e d who msg s :
  store_ok (default [] (s !! e)) → Z.of_nat (length (default [] (s !! e))) < 2 ^ 64 - 1 →
  let m := default [] (s !! e) in
  let v := version_of (length m) now d who msg in
  append now e d who msg s = (<[e := m ++ [(version v, v)]]> s, Ok (version v)).
Proof.
  intros Hm Hlen. cbv zeta. unfold append. set (m := default [] (s !! e)) in *.
  assert (E : match last m with Some (v, _) => wrap 64 (v + 1) | None => 1 end = Z.of_nat (length m) + 1).
  { destruct (last m) as [[k v]|] eqn:El.
    - rewrite (store_ok_last _ _ _ Hm El). apply wrap_small. unfold in_u. lia.
    - apply last_None in El. by rewrite El. }
  rewrite E, btree_insert_last by by apply store_ok_below. by destruct msg.
Qed.

End store.

Abbreviation VStore := (gmap string VersionMap).
Abbreviation SStore := (gmap string (list TimePoint)).

(** ** Properties

    The version store implements an append-only history per entity; queries by
    time, adjacent ranges, and diffs. *)

Section theorems.
Context `{TimeOrdLaws} {T : Type} `{EqDecision T}.

Record append_op := mkAppend {
  op_now : Instant; op_entity : string; op_data : T; op_who : string; op_msg : option string }.

Definition run_append (s : VStore) (o : append_op) : VStore :=
  (append (op_now o) (op_entity o) (op_data o) (op_who o) (op_msg o) s).1.

Definition run_appends (ops : list append_op) : VStore := foldl run_append ∅ ops.

(** ** The abstract history of an entity *)

Definition appends_to (e : string) (ops : list append_op) : list append_op :=
  retain (λ o, String.eqb (op_entity o) e) ops.

Definition spec_version (i : nat) (o : append_op) : Version :=
  version_of i (op_now o) (op_data o) (op_who o) (op_msg o).

Definition spec_history (e : string) (ops : list append_op) : list Version :=
  imap spec_version (appends_to e ops).

Lemma spec_history_snoc e ops o :
  spec_history e (ops ++ [o]) =
  spec_history e ops ++
    (if String.eqb (op_entity o) e then [spec_version (length (spec_history e ops)) o] else []).
Proof.
  unfold spec_history, appends_to. rewrite retain_app, imap_app. f_equal. simpl.
  destruct (String.eqb (op_entity o) e); simpl; [|done].
  by rewrite length_imap, Nat.add_0_r.
Qed.

Definition represents (s : VStore) (ops : list append_op) : Prop :=
  ∀ e, store_ok (default [] (s !! e)) ∧ values s e = spec_history e ops.

Lemma length_spec_history e ops : (length (spec_history e ops) ≤ length ops)%nat.
Proof. unfold spec_history. rewrite length_imap. apply length_retain. Qed.

Lemma run_appends_represents ops :
  Z.of_nat (length ops) < 2 ^ 64 → represents (run_appends ops) ops.
Proof.
  induction ops as [|o ops IH] using rev_ind; intros Hlen.
  - intros e. by split.
  - rewrite length_app in Hlen. simpl in Hlen. specialize (IH ltac:(lia)).
    unfold run_appends. rewrite foldl_app. simpl. fold (run_appends ops). set (s := run_appends ops) in *.
    destruct (IH (op_entity o)) as [Hok Hv].
    assert (El : length (default [] (s !! op_entity o)) = length (spec_history (op_entity o) ops))
      by (rewrite <- Hv; unfold values; by rewrite length_fmap).
    pose proof (length_spec_history (op_entity o) ops).
    unfold run_append. rewrite append_ok by (done || lia). cbn [fst]. intros e.
    rewrite spec_history_snoc. destruct (String.eqb_spec (op_entity o) e) as [<-|Hne].
    + unfold values. rewrite lookup_insert_eq. simpl. split; [by apply store_ok_snoc|].
      rewrite fmap_app. simpl. rewrite <- El. f_equal. apply Hv.
    + unfold values. rewrite lookup_insert_ne by done. rewrite app_nil_r. apply IH.
Qed.

Lemma last_retain {A} (f : A → bool) l :
  match last (retain f l) with
  | Some x => ∃ pre post, l = pre ++ x :: post ∧ f x = true ∧ ∀ y, y ∈ post → f y = false
  | None => ∀ y, y ∈ l → f y = false
  end.
Proof.
  induction l as [|a l IH] using rev_ind; [by intros y ?%elem_of_nil|].
  rewrite retain_app. simpl. destruct (f a) eqn:Fa.
  - rewrite last_snoc. exists l, []. split_and!; [done | done | by intros y ?%elem_of_nil].
  - rewrite app_nil_r. destruct (last (retain f l)) as [x|].
    + destruct IH as (pre & post & -> & Hx & Hp). exists pre, (post ++ [a]).
      rewrite <- app_assoc. split_and!; [done|done|]. intros y [?| ->%list_elem_of_singleton]%elem_of_app; auto.
    + intros y [?| ->%list_elem_of_singleton]%elem_of_app; auto.
Qed.

(** ** Properties *)

(** C28 (the store is an append-only log).  After any appends (fewer than 2^64),
    an entity's versions are its appends in order, numbered 1, 2, ..., with the
    data, author, message and time given; [latest], [at_version], [history],
    [in_range] and [at_time] are the corresponding queries on that list, and
    appends to other entities are invisible. *)
Theorem version_store_refines_log ops e :
  Z.of_nat (length ops) < 2 ^ 64 →
  let s := run_appends ops in
  let l := spec_history e ops in
  latest s e = Ok (last l) ∧
  (∀ n, 1 ≤ n → at_version s e n = Ok (l !! Z.to_nat (n - 1))) ∧
  (∀ limit, history s e limit = Ok (take limit (reverse l))) ∧
  (∀ r, in_range s e r = Ok (retain (λ v, contains r (v_timestamp v)) l)) ∧
  (∀ t, at_time s e t = Ok (last (retain (λ v, time_leb (v_timestamp v) t) l))).
Proof.
  intros Hlen. cbv zeta. destruct (run_appends_represents ops Hlen e) as [Hok Hv].
  unfold latest, history, in_range, at_time. rewrite Hv. split_and!; try done.
  intros n Hn. unfold at_version. f_equal. rewrite <- Hv. unfold values.
  destruct (run_appends ops !! e) as [m|]; [|done]. simpl in *. by apply btree_get_store_ok.
Qed.

(** The version in force.  [at_time] returns the highest version not later
    than the time asked for: every higher version is strictly later.  When
    versions were stamped in order, every lower one is also not later, so the
    result is the state of the entity at that time; it is [None] exactly when
    every version is later. *)
Theorem at_time_in_force ops e t :
  Z.of_nat (length ops) < 2 ^ 64 →
  let l := spec_history e ops in
  match at_time (run_appends ops) e t with
  | Ok (Some v) => ∃ pre post, l = pre ++ v :: post ∧ time_leb (v_timestamp v) t = true ∧
      (∀ w, w ∈ post → time_leb (v_timestamp w) t = false) ∧
      (StronglySorted (λ a b, time_leb (v_timestamp a) (v_timestamp b) = true) l →
       ∀ w, w ∈ pre → time_leb (v_timestamp w) t = true)
  | Ok None => ∀ w, w ∈ l → time_leb (v_timestamp w) t = false
  | Err _ => False
  end.
Proof.
  intros Hlen. cbv zeta. destruct (run_appends_represents ops Hlen e) as [_ Hv].
  unfold at_time. rewrite Hv.
  pose proof (last_retain (λ v, time_leb (v_timestamp v) t) (spec_history e ops)) as Hl.
  destruct (last (retain _ _)) as [v|]; [|done]. destruct Hl as (pre & post & E & Hx & Hp).
  exists pre, post. split_and!; [done..|]. intros Hs w Hw. rewrite E in Hs.
  eapply time_leb_trans; [|exact Hx].
  apply (StronglySorted_app_1_elem_of _ _ _ w v Hs Hw). by left.
Qed.

(** Two adjacent ranges split the points of their union:
    each point of the wide range is returned by exactly one of the halves. *)
Theorem adjacent_ranges_partition (s : gmap string (list (TimePoint (T:=T)))) id a b c ps qs rs :
  time_leb a b = true → time_leb b c = true →
  series_query s id (mkRange a b) = Ok ps → series_query s id (mkRange b c) = Ok qs →
  series_query s id (mkRange a c) = Ok rs →
  rs ≡ₚ ps ++ qs ∧ (∀ p, p ∈ ps → p ∉ qs).
Proof.
  unfold series_query. intros Hab Hbc [= <-] [= <-] [= <-]. split.
  - generalize (default [] (s !! id)). intros l. induction l as [|p l IH]; [done|]. simpl.
    unfold contains in *. simpl in *.
    destruct (time_leb a (time p)) eqn:E1, (time_leb b (time p)) eqn:E2, (time_leb c (time p)) eqn:E3; simpl;
      try done; try (by rewrite IH, Permutation_middle); try (by rewrite IH); exfalso.
    all: pose proof (time_leb_trans a b (time p)); pose proof (time_leb_trans b c (time p)); intuition congruence.
  - intros p [_ Hp]%elem_of_retain [_ Hq]%elem_of_retain. unfold contains in *. simpl in *.
    by destruct (time_leb b (time p)), (time_leb a (time p)).
Qed.

(** A diff of two versions carries exactly the data of the two: it
    fails only when both are absent, reports no change exactly when both are
    present and equal, and its old and new values are those of the versions. *)
Theorem diff_reflects_versions ops e v1 v2 :
  Z.of_nat (length ops) < 2 ^ 64 → 1 ≤ v1 → 1 ≤ v2 →
  let d1 := data <$> spec_history e ops !! Z.to_nat (v1 - 1) in
  let d2 := data <$> spec_history e ops !! Z.to_nat (v2 - 1) in
  match diff (run_appends ops) e v1 v2 with
  | Ok d => old_value d = d1 ∧ new_value d = d2 ∧ (has_change d = false ↔ d1 = d2)
  | Err err => d1 = None ∧ d2 = None ∧ err = no_versions e
  end.
Proof.
  intros Hlen H1 H2. cbv zeta. destruct (run_appends_represents ops Hlen e) as [Hok Hv].
  assert (Ha : ∀ n, 1 ≤ n → at_version (run_appends ops) e n = Ok (spec_history e ops !! Z.to_nat (n - 1))).
  { intros n Hn. unfold at_version. f_equal. rewrite <- Hv. unfold values.
    destruct (run_appends ops !! e) as [m|]; [|done]. simpl in *. by apply btree_get_store_ok. }
  unfold diff. rewrite !Ha by done. simpl.
  destruct (spec_history e ops !! Z.to_nat (v1 - 1)) as [x|], (spec_history e ops !! Z.to_nat (v2 - 1)) as [y|];
    simpl; try (split_and!; done).
  case_bool_decide as E; simpl; [rewrite E; by split_and! | split_and!; [done|done|]].
  split; [done | intros [= ?]; done].
Qed.

End theorems.

(** ** Witnesses *)

Module Witness.

#[export] Instance z_time : TimeOrd := {| Instant := Z; time_leb := Z.leb |}.
#[export] Instance z_time_laws : TimeOrdLaws z_time.
Proof.
  split; simpl.
  - intros a. apply Z.leb_refl.
  - intros a b c. rewrite !Z.leb_le. lia.
  - intros a b. rewrite !Z.leb_le. lia.
Qed.

Definition at_ (z : Z) : Instant := z.

Definition ops : list (append_op (T:=Z)) :=
  [mkAppend (at_ 10) "e" 7 "alice" None; mkAppend (at_ 11) "f" 1 "bob" None;
   mkAppend (at_ 20) "e" 8 "bob" (Some "m"); mkAppend (at_ 30) "e" 8 "bob" None].

Lemma version_store_witness :
  latest (run_appends ops) "e" = Ok (Some (mkVersion 3 (at_ 30) 8 "bob" None)) ∧
  at_version (run_appends ops) "e" 2 = Ok (Some (mkVersion 2 (at_ 20) 8 "bob" (Some "m"))).
Proof.
  destruct (version_store_refines_log ops "e") as (H1 & H2 & _); [by vm_compute|].
  split; [rewrite H1; reflexivity | rewrite (H2 2) by lia; reflexivity].
Defined.

Lemma at_time_witness : ∃ pre post,
  spec_history "e" ops = pre ++ mkVersion 2 (at_ 20) 8 "bob" (Some "m") :: post.
Proof.
  pose proof (at_time_in_force ops "e" (at_ 25) ltac:(by vm_compute)) as Hv. cbv zeta in Hv.
  replace (at_time (run_appends ops) "e" (at_ 25))
    with (Ok (E:=TemporalError) (Some (mkVersion 2 (at_ 20) 8 "bob" (Some "m")))) in Hv by reflexivity.
  destruct Hv as (pre & post & E & _). by exists pre, post.
Defined.

Definition points : list (TimePoint (T:=Z)) := [TimePoint_new (at_ 1) 5; TimePoint_new (at_ 9) 6].
Definition series : gmap string (list (TimePoint (T:=Z))) := {[ "cpu" := points ]}.

Lemma adjacent_ranges_witness :
  points ≡ₚ [TimePoint_new (at_ 1) 5] ++ [TimePoint_new (at_ 9) 6].
Proof.
  apply (adjacent_ranges_partition series "cpu" (at_ 0) (at_ 5) (at_ 10)); reflexivity.
Defined.

Lemma diff_witness : diff (run_appends ops) "e" 1 2 = Ok (Changed 7 8) ∧
  new_value (Changed 7 8) = data <$> spec_history "e" ops !! 1%nat.
Proof.
  assert (E : diff (run_appends ops) "e" 1 2 = Ok (Changed 7 8)) by reflexivity.
  pose proof (diff_reflects_versions ops "e" 1 2 ltac:(by vm_compute) ltac:(lia) ltac:(lia)) as Hd.
  rewrite E in Hd. split; [exact E | apply Hd].
Defined.

End Witness.
