(* ===== verification/RamPromotion.v ===== *)
(** The RAM promotion manager (verisim-octad/src/ram_promotion.rs): decisions,
    promotion and demotion of modalities against a count limit and a byte
    budget, timeouts.  Instants are nanoseconds; the order in which the map is
    iterated and the text of a float are parameters.  Byte counters are 64-bit
    and wrap, as in a release build. *)

From S2P Require Import Prelude Machine Text Float64.

(** ** Data *)

Definition MAX_PROMOTED : nat := 2.
#[global] Arguments MAX_PROMOTED : simpl never.
Definition MIN_SPEEDUP_FACTOR : f64 := f64_lit 2 1.
Definition MAX_PROMOTION_DURATION : Z := 300 * 1000000000.

Inductive Modality :=
  | Graph | Vector | Tensor | Semantic | Document | Temporal | Provenance | Spatial.

#[export] Instance Modality_eq_dec : EqDecision Modality.
Proof. solve_decision. Defined.

Definition Modality_all : list Modality :=
  [Graph; Vector; Tensor; Semantic; Document; Temporal; Provenance; Spatial].

Definition Modality_code (m : Modality) : nat :=
  match m with
  | Graph => 0 | Vector => 1 | Tensor => 2 | Semantic => 3 | Document => 4 | Temporal => 5
  | Provenance => 6 | Spatial => 7
  end.

#[export] Instance Modality_countable : Countable Modality.
Proof.
  refine (inj_countable Modality_code (λ n, Modality_all !! n) _). by intros [].
Defined.

Definition Modality_name (m : Modality) : string :=
  match m with
  | Graph => "graph" | Vector => "vector" | Tensor => "tensor" | Semantic => "semantic"
  | Document => "document" | Temporal => "temporal" | Provenance => "provenance" | Spatial => "spatial"
  end.

Record PromotedState := mkPromotedState {
  ps_modality : Modality;
  promoted_at : Z;
  estimated_size_bytes : Z;
  operation_count : Z;
}.

Inductive PromotionDecision :=
  | Promote (modalities : list Modality) (estimated_speedup : f64)
  | Skip (reason : string)
  | Blocked (current_count limit : nat).

Inductive PromotionAction := Promoted | Demoted | Denied (reason : string).

Record PromotionEvent := mkEvent {
  ev_modality : string;
  action : PromotionAction;
  duration_ms : option Z;
  size_bytes : Z;
  timestamp_epoch_ms : Z;
}.

Record PromotionManager := mkPM {
  promoted : gmap Modality PromotedState;
  ram_budget : Z;
  ram_used : Z;
  enabled : bool;
  history : list PromotionEvent;
}.

(** Iteration order of the map, and [format!("{:.1}")]. *)
Class PromotionEnv := {
  keys_iter : gmap Modality PromotedState → list Modality;
  fmt_f64_1 : f64 → string;
}.
Class PromotionLaws (P : PromotionEnv) :=
  keys_iter_perm m : keys_iter m ≡ₚ (map_to_list m).*1.

(** ** Operations *)

Definition PromotionManager_new : PromotionManager := mkPM ∅ 1073741824 0 false [].

Definition enable (budget : Z) (s : PromotionManager) : PromotionManager :=
  mkPM (promoted s) budget (ram_used s) true (history s).

Definition promoted_count (s : PromotionManager) : nat := size (promoted s).

Definition ram_usage (s : PromotionManager) : Z * Z := (ram_used s, ram_budget s).

Definition fmt_nat (n : nat) : string := fmt_u64 (Z.of_nat n).

(** [Instant::elapsed] never goes backwards. *)
Definition elapsed (at_ now : Z) : Z := saturating_sub now at_.

Section manager.
Context `{PromotionEnv}.

Definition promoted_modalities (s : PromotionManager) : list Modality := keys_iter (promoted s).

Definition is_promoted (s : PromotionManager) (m : Modality) : bool :=
  bool_decide (is_Some (promoted s !! m)).

Definition speedup (disk_ms ram_ms : Z) : f64 :=
  if 0 <? ram_ms then f64_div (f64_of_u64 disk_ms) (f64_of_u64 ram_ms) else f64_infinity.

Definition decide (modalities : list Modality) (data_size disk_ms ram_ms : Z) (s : PromotionManager) :
    PromotionDecision :=
  if negb (enabled s) then Skip "RAM promotion disabled"
  else
    let new_count := length (retain (λ m, negb (is_promoted s m)) modalities) in
    if (MAX_PROMOTED <? promoted_count s + new_count)%nat
    then Blocked (promoted_count s) MAX_PROMOTED
    else if ram_budget s <? wrap 64 (ram_used s + data_size)
    then Skip (cat ["Insufficient RAM budget: need "; fmt_u64 data_size; " bytes, have ";
                    fmt_u64 (wrap 64 (ram_budget s - ram_used s)); " available"])
    else if f64_ltb (speedup disk_ms ram_ms) MIN_SPEEDUP_FACTOR
    then Skip (cat ["Estimated speedup "; fmt_f64_1 (speedup disk_ms ram_ms); "x below threshold ";
                    fmt_f64_1 MIN_SPEEDUP_FACTOR; "x"])
    else Promote modalities (speedup disk_ms ram_ms).

Definition add_promoted (m : Modality) (size now epoch : Z) (s : PromotionManager) : PromotionManager :=
  mkPM (<[m := mkPromotedState m now size 0]> (promoted s)) (ram_budget s)
    (wrap 64 (ram_used s + size)) (enabled s)
    (history s ++ [mkEvent (Modality_name m) Promoted None size epoch]).

Definition promote (m : Modality) (size now epoch : Z) : SR PromotionManager string unit := λ s,
  if negb (enabled s) then (s, Err "RAM promotion disabled")
  else if (MAX_PROMOTED <=? promoted_count s)%nat
  then (s, Err (cat ["Cannot promote: already at limit ("; fmt_nat (promoted_count s); "/";
                     fmt_nat MAX_PROMOTED; ")"]))
  else if is_promoted s m then (s, Ok ())
  else if ram_budget s <? wrap 64 (ram_used s + size)
  then (s, Err (cat ["Cannot promote: would exceed RAM budget ("; fmt_u64 (ram_used s); " + ";
                     fmt_u64 size; " > "; fmt_u64 (ram_budget s); ")"]))
  else (add_promoted m size now epoch s, Ok ()).

(** [clock m] is the pair (instant, epoch milliseconds) read when [m] is demoted. *)
Definition demote (clock : Modality → Z * Z) (m : Modality) (s : PromotionManager) : PromotionManager :=
  match promoted s !! m with
  | Some st =>
      mkPM (delete m (promoted s)) (ram_budget s)
        (saturating_sub (ram_used s) (estimated_size_bytes st)) (enabled s)
        (history s ++ [mkEvent (Modality_name m) Demoted
           (Some (wrap 64 (elapsed (promoted_at st) (clock m).1 / 1000000)))
           (estimated_size_bytes st) (clock m).2])
  | None => s
  end.

Definition demote_list (clock : Modality → Z * Z) (ms : list Modality) (s : PromotionManager) :
    PromotionManager := foldl (λ s m, demote clock m s) s ms.

Definition demote_all (clock : Modality → Z * Z) (s : PromotionManager) : PromotionManager :=
  demote_list clock (keys_iter (promoted s)) s.

Definition disable (clock : Modality → Z * Z) (s : PromotionManager) : PromotionManager :=
  let s := demote_list clock (keys_iter (promoted s)) s in
  mkPM (promoted s) (ram_budget s) (ram_used s) false (history s).

Definition expired (now : Z) (s : PromotionManager) (m : Modality) : bool :=
  match promoted s !! m with
  | Some st => MAX_PROMOTION_DURATION <? elapsed (promoted_at st) now
  | None => false
  end.

Definition enforce_timeouts (now : Z) (clock : Modality → Z * Z) (s : PromotionManager) :
    PromotionManager :=
  demote_list clock (retain (expired now s) (keys_iter (promoted s))) s.

Definition count_operation (st : PromotedState) : PromotedState :=
  mkPromotedState (ps_modality st) (promoted_at st) (estimated_size_bytes st)
    (wrap 64 (operation_count st + 1)).

Definition record_operation (m : Modality) (s : PromotionManager) : PromotionManager :=
  mkPM (alter count_operation m (promoted s)) (ram_budget s) (ram_used s) (enabled s) (history s).

End manager.

(** ** Accounting *)

(** The bytes of the promoted modalities. *)
Definition total (p : gmap Modality PromotedState) : Z :=
  map_fold (λ _ st n, estimated_size_bytes st + n) 0 p.

Lemma total_insert m st p :
  p !! m = None → total (<[m := st]> p) = estimated_size_bytes st + total p.
Proof.
  intros Hm. unfold total. rewrite map_fold_insert_L; [done | | done]. intros. lia.
Qed.

Lemma total_delete m st p :
  p !! m = Some st → total p = estimated_size_bytes st + total (delete m p).
Proof.
  intros Hm. unfold total. rewrite (map_fold_delete_L _ _ m st); [done | | done]. intros. lia.
Qed.

Lemma total_alter m f p :
  (∀ st, estimated_size_bytes (f st) = estimated_size_bytes st) → total (alter f m p) = total p.
Proof.
  intros Hf. destruct (p !! m) as [st|] eqn:E.
  - assert (E' : alter f m p !! m = Some (f st)) by by rewrite lookup_alter_eq, E.
    rewrite (total_delete _ _ _ E'), (total_delete _ _ _ E), Hf. f_equal.
    f_equal. apply map_eq. intros j. destruct (base.decide (j = m)) as [->|].
    + by rewrite !lookup_delete_eq.
    + by rewrite !lookup_delete_ne, lookup_alter_ne by done.
  - f_equal. apply map_eq. intros j. destruct (base.decide (m = j)) as [<-|].
    + by rewrite lookup_alter_eq, E.
    + by rewrite lookup_alter_ne.
Qed.

Record pm_inv (s : PromotionManager) : Prop := mkPmInv {
  pi_count : (size (promoted s) ≤ MAX_PROMOTED)%nat;
  pi_used : ram_used s = total (promoted s);
  pi_sizes : map_Forall (λ _ st, 0 ≤ estimated_size_bytes st < 2 ^ 62) (promoted s);
  pi_keys : map_Forall (λ m st, ps_modality st = m) (promoted s);
}.

Lemma total_bounds p :
  map_Forall (λ _ st, 0 ≤ estimated_size_bytes st < 2 ^ 62) p →
  0 ≤ total p ≤ Z.of_nat (size p) * 2 ^ 62.
Proof.
  induction p as [|m st p Hm IH] using map_ind; intros Hp.
  - unfold total. rewrite map_fold_empty, map_size_empty. lia.
  - apply map_Forall_insert in Hp as [Hst Hp]; [|done]. specialize (IH Hp).
    rewrite total_insert, map_size_insert_None by done. lia.
Qed.

Section accounting.
Context `{PromotionLaws}.

Lemma elem_of_keys m p : m ∈ keys_iter p ↔ is_Some (p !! m).
Proof.
  rewrite keys_iter_perm, list_elem_of_fmap. split.
  - intros ([k st] & -> & Hk%elem_of_map_to_list). by eexists.
  - intros [st Hst]. exists (m, st). split; [done | by apply elem_of_map_to_list].
Qed.

Lemma is_promoted_spec s m : is_promoted s m = false ↔ promoted s !! m = None.
Proof. unfold is_promoted. by rewrite bool_decide_eq_false, eq_None_not_Some. Qed.

Lemma demote_inv clock m s : pm_inv s → pm_inv (demote clock m s).
Proof.
  intros Hi. pose proof Hi as [Hc Hu Hs Hk]. unfold demote. destruct (promoted s !! m) as [st|] eqn:E; [|done].
  pose proof (total_delete m st _ E) as Ht. split; simpl.
  - rewrite map_size_delete_Some by by eexists. lia.
  - unfold saturating_sub. rewrite Hu, Ht.
    pose proof (total_bounds (delete m (promoted s)) ltac:(by apply map_Forall_delete)). lia.
  - by apply map_Forall_delete.
  - by apply map_Forall_delete.
Qed.

Lemma lookup_demote clock m s k :
  promoted (demote clock m s) !! k = if base.decide (k = m) then None else promoted s !! k.
Proof.
  unfold demote. destruct (promoted s !! m) as [st|] eqn:E; simpl; case_decide as Hk; subst; try done.
  - by rewrite lookup_delete_eq.
  - by rewrite lookup_delete_ne.
Qed.

Lemma demote_list_inv clock ms s : pm_inv s → pm_inv (demote_list clock ms s).
Proof.
  revert s. induction ms as [|m ms IH]; intros s Hi; [done|]. by apply IH, demote_inv.
Qed.

Lemma lookup_demote_list clock ms s k :
  promoted (demote_list clock ms s) !! k =
  if base.decide (k ∈ ms) then None else promoted s !! k.
Proof.
  revert s. induction ms as [|m ms IH]; intros s; simpl; [done|].
  unfold demote_list in *. rewrite IH, lookup_demote.
  repeat case_decide; set_solver.
Qed.

Lemma promote_inv m size now epoch s :
  pm_inv s → 0 ≤ size < 2 ^ 62 → pm_inv (promote m size now epoch s).1.
Proof.
  intros Hi Hsz. pose proof Hi as [Hc Hu Hs Hk]. unfold promote. destruct (enabled s); cbn [negb]; [|done].
  destruct (Nat.leb_spec MAX_PROMOTED (promoted_count s)) as [|Hlt]; [done|].
  destruct (is_promoted s m) eqn:Hp; [done|]. apply is_promoted_spec in Hp.
  destruct (_ <? _); [done|]. unfold promoted_count in Hlt. split; simpl.
  - rewrite map_size_insert_None by done. lia.
  - rewrite total_insert by done. simpl. pose proof (total_bounds _ Hs).
    rewrite wrap_small, Hu by (unfold in_u, MAX_PROMOTED in *; lia). lia.
  - by apply map_Forall_insert_2.
  - by apply map_Forall_insert_2.
Qed.

Lemma record_inv m s : pm_inv s → pm_inv (record_operation m s).
Proof.
  intros [Hc Hu Hs Hk]. split; simpl.
  - by rewrite <- size_dom, dom_alter_L, size_dom.
  - by rewrite total_alter.
  - intros k st' Hl. destruct (base.decide (m = k)) as [<-|].
    + rewrite lookup_alter_eq in Hl. destruct (promoted s !! m) as [st|] eqn:E; [|done].
      injection Hl as <-. by apply (Hs m st).
    + rewrite lookup_alter_ne in Hl by done. by apply (Hs k st').
  - intros k st' Hl. destruct (base.decide (m = k)) as [<-|].
    + rewrite lookup_alter_eq in Hl. destruct (promoted s !! m) as [st|] eqn:E; [|done].
      injection Hl as <-. by apply (Hk m st).
    + rewrite lookup_alter_ne in Hl by done. by apply (Hk k st').
Qed.

Inductive pm_op :=
  | OpEnable (budget : Z)
  | OpDisable (clock : Modality → Z * Z)
  | OpPromote (m : Modality) (size now epoch : Z)
  | OpDemote (clock : Modality → Z * Z) (m : Modality)
  | OpDemoteAll (clock : Modality → Z * Z)
  | OpEnforce (now : Z) (clock : Modality → Z * Z)
  | OpRecord (m : Modality).

Definition run_pm_op (s : PromotionManager) (op : pm_op) : PromotionManager :=
  match op with
  | OpEnable b => enable b s
  | OpDisable clock => disable clock s
  | OpPromote m size now epoch => (promote m size now epoch s).1
  | OpDemote clock m => demote clock m s
  | OpDemoteAll clock => demote_all clock s
  | OpEnforce now clock => enforce_timeouts now clock s
  | OpRecord m => record_operation m s
  end.

(** Sizes below 2^62 bytes. *)
Definition small (op : pm_op) : Prop :=
  match op with OpPromote _ size _ _ => 0 ≤ size < 2 ^ 62 | _ => True end.

Lemma run_pm_op_inv op s : small op → pm_inv s → pm_inv (run_pm_op s op).
Proof.
  intros Hsm Hi. destruct op; simpl in *.
  - by destruct Hi.
  - by destruct (demote_list_inv clock (keys_iter (promoted s)) s Hi).
  - by apply promote_inv.
  - by apply demote_inv.
  - by apply demote_list_inv.
  - by apply demote_list_inv.
  - by apply record_inv.
Qed.

Lemma new_pm_inv : pm_inv PromotionManager_new.
Proof. by split; simpl; [rewrite map_size_empty; unfold MAX_PROMOTED; lia | ..]. Qed.

(** ** Properties *)

(** Promotion limits.  Whatever the operations (on sizes below 2^62 bytes),
    at most two modalities are promoted, each is filed under its own name, the
    used bytes are exactly the sum of their sizes, and after [disable] or
    [demote_all] nothing is promoted and no byte is used. *)
Theorem promotion_accounting ops clock :
  Forall small ops →
  let s := foldl run_pm_op PromotionManager_new ops in
  pm_inv s ∧
  (promoted (demote_all clock s) = ∅ ∧ ram_used (demote_all clock s) = 0) ∧
  (promoted (disable clock s) = ∅ ∧ ram_used (disable clock s) = 0 ∧ enabled (disable clock s) = false).
Proof.
  intros Hops. cbv zeta. assert (Hi : pm_inv (foldl run_pm_op PromotionManager_new ops)).
  { revert Hops. generalize new_pm_inv. generalize PromotionManager_new.
    induction ops as [|op ops IH]; intros s Hs Hops; [done|].
    apply Forall_cons in Hops as [Hop Hops]. simpl. apply IH; [by apply run_pm_op_inv | done]. }
  set (s := foldl _ _ _) in *. split; [done|].
  assert (Hall : promoted (demote_list clock (keys_iter (promoted s)) s) = ∅).
  { apply map_eq. intros k. rewrite lookup_demote_list, lookup_empty. case_decide as Hk; [done|].
    rewrite elem_of_keys in Hk. by apply eq_None_not_Some. }
  pose proof (pi_used _ (demote_list_inv clock (keys_iter (promoted s)) s Hi)) as Hu.
  rewrite Hall in Hu. unfold demote_all, disable. simpl. done.
Qed.

(** After [enforce_timeouts] the modalities promoted for more
    than five minutes are gone and all others are untouched. *)
Theorem enforce_timeouts_exact now clock s m :
  promoted (enforce_timeouts now clock s) !! m =
  match promoted s !! m with
  | Some st => if MAX_PROMOTION_DURATION <? elapsed (promoted_at st) now then None else Some st
  | None => None
  end.
Proof.
  unfold enforce_timeouts. rewrite lookup_demote_list.
  destruct (promoted s !! m) as [st|] eqn:E; [|by case_decide].
  assert (Hk : m ∈ keys_iter (promoted s)) by by apply elem_of_keys; eexists.
  unfold expired. case_decide as Hin; rewrite elem_of_retain, E in Hin.
  - by destruct Hin as [_ ->].
  - destruct (_ <? _); [|done]. by destruct Hin.
Qed.

(** A decision and its execution.  When [decide] answers "promote" for one
    modality that is not promoted yet, [promote] with the same size succeeds.
    When the modality is promoted already, [promote] returns [Ok] below the
    limit of two but an error at the limit: the "already promoted" answer is
    behind the limit check. *)
Theorem decide_then_promote m size disk ram now epoch ms sp s :
  pm_inv s → decide [m] size disk ram s = Promote ms sp →
  ms = [m] ∧
  match promoted s !! m with
  | None => promote m size now epoch s = (add_promoted m size now epoch s, Ok ())
  | Some _ =>
      (promote m size now epoch s).1 = s ∧
      is_ok (promote m size now epoch s).2 = bool_decide (promoted_count s < MAX_PROMOTED)%nat
  end.
Proof.
  intros Hi. unfold decide, promote. destruct (enabled s); cbn [negb retain]; [|done].
  destruct (Nat.ltb_spec MAX_PROMOTED (promoted_count s + length
    (if negb (is_promoted s m) then [m] else []))) as [|Hc]; [done|].
  destruct (ram_budget s <? _); [done|]. destruct (f64_ltb _ _); [done|].
  intros [= <- _]. split; [done|]. destruct (promoted s !! m) as [st|] eqn:E.
  - assert (Hp : is_promoted s m = true) by by apply bool_decide_eq_true_2; eexists.
    destruct (Nat.leb_spec MAX_PROMOTED (promoted_count s)); simpl; (split; [try done|]).
    + rewrite bool_decide_eq_false_2; [done | lia].
    + by rewrite Hp.
    + rewrite Hp. by rewrite bool_decide_eq_true_2.
  - assert (Hp : is_promoted s m = false) by by apply is_promoted_spec.
    rewrite Hp in *. simpl in Hc. rewrite (proj2 (Nat.leb_gt _ _)) by lia. done.
Qed.

(** The sum compared with the budget is a
    64-bit addition: a size that makes it wrap to at most the budget is
    accepted, and the recorded use becomes the wrapped sum. *)
Theorem promote_budget_wraps m k now epoch s :
  enabled s = true → (promoted_count s < MAX_PROMOTED)%nat → promoted s !! m = None →
  0 < ram_used s < 2 ^ 64 → 0 ≤ k ≤ ram_budget s → ram_budget s < 2 ^ 64 → k < ram_used s →
  let size := 2 ^ 64 - ram_used s + k in
  in_u 64 size ∧ promote m size now epoch s = (add_promoted m size now epoch s, Ok ()) ∧
  ram_used (add_promoted m size now epoch s) = k.
Proof.
  intros He Hc Hm Hu Hk Hb Hku. cbv zeta.
  assert (Hw : wrap 64 (ram_used s + (2 ^ 64 - ram_used s + k)) = k).
  { unfold wrap. replace (ram_used s + (2 ^ 64 - ram_used s + k)) with (k + 1 * 2 ^ 64) by lia.
    rewrite Z.mod_add, Z.mod_small; lia. }
  split_and!; [unfold in_u; lia | | exact Hw].
  unfold promote. rewrite He. cbn [negb]. rewrite (proj2 (Nat.leb_gt _ _)) by done.
  rewrite (proj2 (is_promoted_spec s m)) by done. rewrite Hw.
  by rewrite (proj2 (Z.ltb_ge _ _)) by lia.
Qed.

End accounting.

(** ** Witnesses *)

Module Witness.

#[export] Instance map_order : PromotionEnv := {|
  keys_iter := λ m, (map_to_list m).*1;
  fmt_f64_1 := λ _, "?";
|}.
#[export] Instance map_order_laws : PromotionLaws map_order.
Proof. by intros m. Qed.

Definition clock (_ : Modality) : Z * Z := (400000000000, 1000).

Definition ops : list pm_op :=
  [OpEnable 2000; OpPromote Graph 300 0 5; OpPromote Vector 500 350000000000 6; OpRecord Graph].

Definition mgr : PromotionManager := foldl run_pm_op PromotionManager_new ops.

Lemma ops_small : Forall small ops.
Proof. repeat (apply Forall_cons; split); try apply Forall_nil_2; simpl; lia. Qed.

Lemma mgr_inv : pm_inv mgr.
Proof. apply (promotion_accounting ops clock ops_small). Qed.

Lemma promotion_accounting_witness : ram_used mgr = 800 ∧ ram_used (disable clock mgr) = 0.
Proof.
  split; [by vm_compute|]. apply (promotion_accounting ops clock ops_small).
Defined.

Lemma enforce_timeouts_witness : promoted (enforce_timeouts 400000000000 clock mgr) !! Graph = None.
Proof. rewrite enforce_timeouts_exact. by vm_compute. Defined.

Lemma decide_then_promote_witness :
  decide [Graph] 300 100 10 mgr = Promote [Graph] (speedup 100 10) ∧
  is_ok (promote Graph 300 9 9 mgr).2 = false.
Proof.
  assert (E : decide [Graph] 300 100 10 mgr = Promote [Graph] (speedup 100 10)) by by vm_compute.
  split; [exact E|].
  destruct (decide_then_promote Graph 300 100 10 9 9 [Graph] (speedup 100 10) mgr mgr_inv E) as [_ Hp].
  destruct (promoted mgr !! Graph) eqn:Eg.
  - rewrite (proj2 Hp). by vm_compute.
  - exfalso. revert Eg. vm_compute. discriminate.
Defined.

Definition one : PromotionManager := foldl run_pm_op PromotionManager_new [OpEnable 1000; OpPromote Graph 300 0 5].

Lemma promote_budget_wraps_witness :
  ram_used (promote Vector (2 ^ 64 - 299) 1 1 one).1 = 1.
Proof.
  destruct (promote_budget_wraps Vector 1 1 1 one ltac:(by vm_compute) ltac:(by vm_compute)
    ltac:(by vm_compute) ltac:(by vm_compute) ltac:(by vm_compute) ltac:(by vm_compute)
    ltac:(by vm_compute)) as (_ & Hp & Hu).
  replace (2 ^ 64 - 299) with (2 ^ 64 - ram_used one + 1) by by vm_compute.
  rewrite Hp. exact Hu.
Defined.

End Witness.
