(* ===== verification/Rbac.v ===== *)
(** Role-based access control (verisim-api/src/rbac.rs): permissions, roles,
    entity lists, the bounded audit log and the access check.  A function that
    can panic returns an option, [None] being the panic. *)

From S2P Require Import Prelude Machine Text.

(** ** Clients (verisim-api/src/auth.rs) *)

Inductive ClientRole := Reader | Writer | Admin.

Record ClientIdentity := mkIdentity { client_id : string; role : ClientRole }.

(** ** Permissions and policies *)

Inductive Permission := PRead | PWrite | PAdmin | PExecute.

#[export] Instance Permission_eq_dec : EqDecision Permission.
Proof. solve_decision. Defined.

Definition permission_display (p : Permission) : string :=
  match p with PRead => "read" | PWrite => "write" | PAdmin => "admin" | PExecute => "execute" end.

Record RoleDefinition := mkRole {
  role_name_ : string;
  global_permissions : list Permission;
  modality_permissions : gmap string (list Permission);
}.

Definition has_global_permission (r : RoleDefinition) (p : Permission) : bool :=
  bool_decide (p ∈ global_permissions r).

Definition has_modality_permission (r : RoleDefinition) (modality : string) (p : Permission) : bool :=
  if has_global_permission r p then true
  else match modality_permissions r !! modality with
       | Some perms => bool_decide (p ∈ perms)
       | None => false
       end.

Record RbacPolicy := mkPolicy {
  roles : gmap string RoleDefinition;
  entity_acls : gmap string (list (string * list Permission));
}.

Definition RbacPolicy_default : RbacPolicy :=
  mkPolicy
    (<["admin" := mkRole "admin" [PRead; PWrite; PAdmin; PExecute] ∅]>
    (<["writer" := mkRole "writer" [PRead; PWrite; PExecute] ∅]>
    (<["reader" := mkRole "reader" [PRead; PExecute] ∅]> ∅))) ∅.

Definition RbacPolicy_new : RbacPolicy := mkPolicy ∅ ∅.

Definition role_name (r : ClientRole) : string :=
  match r with Reader => "reader" | Writer => "writer" | Admin => "admin" end.

Definition role_for (p : RbacPolicy) (r : ClientRole) : option RoleDefinition := roles p !! role_name r.

Definition set_role (r : RoleDefinition) (p : RbacPolicy) : RbacPolicy :=
  mkPolicy (<[role_name_ r := r]> (roles p)) (entity_acls p).

Definition add_entity_acl (entity client : string) (perms : list Permission) (p : RbacPolicy) : RbacPolicy :=
  mkPolicy (roles p)
    (<[entity := default [] (entity_acls p !! entity) ++ [(client, perms)]]> (entity_acls p)).

Definition check_entity_acl (p : RbacPolicy) (entity client : string) (perm : Permission) : bool :=
  match entity_acls p !! entity with
  | Some acls => existsb (λ acl, String.eqb acl.1 client && bool_decide (perm ∈ acl.2)) acls
  | None => false
  end.

(** ** Audit log *)

Inductive AccessDecision := Allowed | Denied.

#[export] Instance AccessDecision_eq_dec : EqDecision AccessDecision.
Proof. solve_decision. Defined.

Definition decision_display (d : AccessDecision) : string :=
  match d with Allowed => "ALLOWED" | Denied => "DENIED" end.

Record AuditEntry := mkAudit {
  audit_timestamp : Z;
  audit_client_id : string;
  audit_client_role : string;
  audit_resource_path : string;
  audit_method : string;
  audit_required_permission : Permission;
  decision : AccessDecision;
  reason : option string;
}.

Record AuditLog := mkAuditLog { audit_entries : list AuditEntry; max_entries : nat }.

Definition AuditLog_new (capacity : nat) : AuditLog := mkAuditLog [] capacity.

(** [Vec::remove(0)] panics on an empty vector. *)
Definition record (entry : AuditEntry) (log : AuditLog) : option AuditLog :=
  if (max_entries log <=? length (audit_entries log))%nat then
    match audit_entries log with
    | [] => None
    | _ :: rest => Some (mkAuditLog (rest ++ [entry]) (max_entries log))
    end
  else Some (mkAuditLog (audit_entries log ++ [entry]) (max_entries log)).

Definition audit_len (log : AuditLog) : nat := length (audit_entries log).
Definition audit_is_empty (log : AuditLog) : bool := (audit_len log =? 0)%nat.
Definition audit_clear (log : AuditLog) : AuditLog := mkAuditLog [] (max_entries log).

Record RbacState := mkRbac { policy : RbacPolicy; audit_log : AuditLog }.

Definition AUDIT_CAPACITY : N := 10000.
Definition RbacState_new (p : RbacPolicy) : RbacState := mkRbac p (AuditLog_new (N.to_nat AUDIT_CAPACITY)).
Definition RbacState_default : RbacState := RbacState_new RbacPolicy_default.

(** ** Permissions of requests *)

Inductive Method := GET | HEAD | OPTIONS | POST | PUT | PATCH | DELETE | OtherMethod (name : string).

#[export] Instance Method_eq_dec : EqDecision Method.
Proof. solve_decision. Defined.

Definition method_string (m : Method) : string :=
  match m with
  | GET => "GET" | HEAD => "HEAD" | OPTIONS => "OPTIONS" | POST => "POST" | PUT => "PUT"
  | PATCH => "PATCH" | DELETE => "DELETE" | OtherMethod name => name
  end.

Definition is_admin_path (m : Method) (path : string) : bool :=
  (starts_with "/normalizer/trigger" path && bool_decide (m = POST)) ||
  (starts_with "/planner/config" path && bool_decide (m = PUT)).

Definition is_execute_path (m : Method) (path : string) : bool :=
  if bool_decide (m ≠ POST) then false
  else starts_with "/query/plan" path || starts_with "/query/explain" path
       || starts_with "/queries/similar" path || starts_with "/search/" path.

Definition required_permission (m : Method) (path : string) : Permission :=
  if is_admin_path m path then PAdmin
  else if is_execute_path m path then PExecute
  else match m with GET | HEAD | OPTIONS => PRead | _ => PWrite end.

Definition modality_from_path (path : string) : option string :=
  if starts_with "/search/vector" path then Some "vector"
  else if starts_with "/search/text" path then Some "document"
  else if starts_with "/search/related" path then Some "graph"
  else if starts_with "/drift" path then Some "temporal"
  else None.

Definition slash : Ascii.ascii := Ascii.ascii_of_N 47.

(** One of the three prefix rules of [entity_from_path]: a non-empty segment
    after the prefix. *)
Definition entity_after (prefix path : string) : option string :=
  match strip_prefix prefix path with
  | Some rest => let id := first_piece slash rest in if String.eqb id "" then None else Some id
  | None => None
  end.

Definition entity_from_path (path : string) : option string :=
  match entity_after "/octads/" path with
  | Some id => Some id
  | None =>
      match entity_after "/drift/entity/" path with
      | Some id => Some id
      | None => entity_after "/normalizer/trigger/" path
      end
  end.

(** ** The access check *)

Record AuthzError := mkAuthzError {
  authz_error : string; authz_code : Z; authz_required_permission : string }.

Definition cat : list string → string := String.concat "".

(** What the check decides, and the reason it records. *)
Definition decide_access (p : RbacPolicy) (identity : ClientIdentity) (path : string) (m : Method) :
    AccessDecision * string :=
  let perm := required_permission m path in
  let rname := role_name (role identity) in
  let acl := match entity_from_path path with
             | Some entity => check_entity_acl p entity (client_id identity) perm
             | None => false
             end in
  if acl then (Allowed, "entity ACL grant")
  else match role_for p (role identity) with
  | None => (Denied, cat ["No role definition found for '"; rname; "'"])
  | Some rd =>
      let global := if has_global_permission rd perm then (Allowed, "global role grant")
                    else (Denied, cat ["Role '"; rname; "' does not have '"; permission_display perm;
                                       "' permission"]) in
      match modality_from_path path with
      | Some modality =>
          if has_modality_permission rd modality perm then
            (Allowed, cat ["modality '"; modality; "' grant"])
          else if bool_decide (is_Some (modality_permissions rd !! modality)) then
            (Denied, cat ["Role '"; rname; "' lacks '"; permission_display perm;
                          "' permission on modality '"; modality; "'"])
          else global
      | None => global
      end
  end.

Definition check_access (now_secs : Z) (identity : ClientIdentity) (path : string) (m : Method)
    (s : RbacState) : option (RbacState * result AuthzError unit) :=
  let perm := required_permission m path in
  let '(d, why) := decide_access (policy s) identity path m in
  let entry := mkAudit now_secs (client_id identity) (role_name (role identity)) path
                 (method_string m) perm d (Some why) in
  log ← record entry (audit_log s);
  let s := mkRbac (policy s) log in
  match d with
  | Allowed => Some (s, Ok ())
  | Denied => Some (s, Err (mkAuthzError why 403 (permission_display perm)))
  end.

Definition check_authorization := check_access.

(** ** Properties

    What the access check decides, what the audit log keeps, and what the
    built-in policy allows. *)

(** ** Grants *)

(** An entity list entry of the client that contains the permission. *)
Definition acl_grant (p : RbacPolicy) (identity : ClientIdentity) (path : string) (perm : Permission) : Prop :=
  ∃ entity acls perms, entity_from_path path = Some entity ∧ entity_acls p !! entity = Some acls ∧
    (client_id identity, perms) ∈ acls ∧ perm ∈ perms.

(** A role that has the permission globally, or on the modality of the path. *)
Definition role_grant (p : RbacPolicy) (identity : ClientIdentity) (path : string) (perm : Permission) : Prop :=
  ∃ rd, role_for p (role identity) = Some rd ∧
    (perm ∈ global_permissions rd ∨
     ∃ modality perms, modality_from_path path = Some modality ∧
       modality_permissions rd !! modality = Some perms ∧ perm ∈ perms).

Definition granted (p : RbacPolicy) (identity : ClientIdentity) (path : string) (m : Method) : Prop :=
  acl_grant p identity path (required_permission m path) ∨
  role_grant p identity path (required_permission m path).

Lemma existsb_elem {A} (f : A → bool) l : existsb f l = true ↔ ∃ x, x ∈ l ∧ f x = true.
Proof.
  rewrite existsb_exists. split; intros (x & Hx & Hf); exists x; (split; [|done]); by apply list_elem_of_In.
Qed.

Lemma acl_grant_check p identity path perm :
  match entity_from_path path with
  | Some entity => check_entity_acl p entity (client_id identity) perm
  | None => false
  end = true ↔ acl_grant p identity path perm.
Proof.
  unfold acl_grant, check_entity_acl. destruct (entity_from_path path) as [entity|]; [|naive_solver].
  destruct (entity_acls p !! entity) as [acls|] eqn:E; [|naive_solver].
  rewrite existsb_elem. split.
  - intros ([c perms] & Hin & [Hc%String.eqb_eq Hp%bool_decide_eq_true]%andb_true_iff). simpl in *. subst c.
    by exists entity, acls, perms.
  - intros (entity' & acls' & perms & [= <-] & E' & Hin & Hp). rewrite E in E'. injection E' as <-.
    exists (client_id identity, perms). split; [done|]. simpl.
    rewrite String.eqb_refl. by apply bool_decide_eq_true_2.
Qed.

Lemma has_modality_permission_spec rd md perm :
  has_modality_permission rd md perm = true ↔
  perm ∈ global_permissions rd ∨ ∃ perms, modality_permissions rd !! md = Some perms ∧ perm ∈ perms.
Proof.
  unfold has_modality_permission, has_global_permission. case_bool_decide; [naive_solver|].
  destruct (modality_permissions rd !! md); [rewrite bool_decide_eq_true|]; naive_solver.
Qed.

Lemma decide_access_granted p identity path m :
  (decide_access p identity path m).1 = Allowed ↔ granted p identity path m.
Proof.
  unfold decide_access, granted. set (perm := required_permission m path).
  pose proof (acl_grant_check p identity path perm) as Ha.
  destruct (match entity_from_path path with Some _ => _ | None => _ end); [naive_solver|].
  assert (Hn : ¬ acl_grant p identity path perm) by (intros ?%Ha; done). clear Ha.
  unfold role_grant. destruct (role_for p (role identity)) as [rd|]; [|naive_solver].
  assert (Hg : has_global_permission rd perm = true ↔ perm ∈ global_permissions rd) by apply bool_decide_eq_true.
  destruct (modality_from_path path) as [md|].
  - pose proof (has_modality_permission_spec rd md perm) as Hm.
    destruct (has_modality_permission rd md perm); [naive_solver|].
    assert (Hgf : has_global_permission rd perm = false).
    { destruct (has_global_permission rd perm); [|done]. naive_solver. }
    rewrite Hgf. case_bool_decide; simpl; split; try done; naive_solver.
  - destruct (has_global_permission rd perm); naive_solver.
Qed.

(** ** The audit log *)

Fixpoint record_all (es : list AuditEntry) (log : AuditLog) : option AuditLog :=
  match es with
  | [] => Some log
  | e :: es => log ← record e log; record_all es log
  end.

(** The last [n] elements. *)
Definition newest {A} (n : nat) (l : list A) : list A := drop (length l - n) l.

Lemma record_newest e log es :
  (0 < max_entries log)%nat → audit_entries log = newest (max_entries log) es →
  record e log = Some (mkAuditLog (newest (max_entries log) (es ++ [e])) (max_entries log)).
Proof.
  intros Hm He. unfold record, newest in *. set (n := max_entries log) in *.
  rewrite length_app. simpl. rewrite He, length_drop.
  destruct (Nat.leb_spec n (length es - (length es - n))) as [Hle|Hlt].
  - destruct (drop (length es - n) es) as [|x rest] eqn:Ed.
    + apply (f_equal length) in Ed. rewrite length_drop in Ed. simpl in Ed. lia.
    + do 3 f_equal. replace (length es + 1 - n)%nat with (length es - n + 1)%nat by lia.
      rewrite drop_app_le by lia. by rewrite <- drop_drop, Ed.
  - replace (length es - n)%nat with 0%nat by lia. replace (length es + 1 - n)%nat with 0%nat by lia. done.
Qed.

Lemma record_all_newest es es0 log :
  (0 < max_entries log)%nat → audit_entries log = newest (max_entries log) es0 →
  record_all es log = Some (mkAuditLog (newest (max_entries log) (es0 ++ es)) (max_entries log)).
Proof.
  revert es0 log. induction es as [|e es IH]; intros es0 log Hm He; simpl.
  - rewrite app_nil_r, <- He. by destruct log.
  - rewrite (record_newest e log es0) by done. simpl.
    rewrite (IH (es0 ++ [e])) by done. simpl. by rewrite <- app_assoc.
Qed.

(** ** Properties *)

(** C14 (who gets access).  With an audit log of positive capacity the check
    never panics and allows a request exactly when an entry of the entity's
    list grants the client the required permission, or the client's role has
    it globally or on the modality of the path.  Every decision is the newest
    audit entry, a refusal is a 403 that names the permission, and the policy
    is unchanged. *)
Theorem access_iff_granted now identity path m s :
  (0 < max_entries (audit_log s))%nat →
  ∃ s' r e rest, check_access now identity path m s = Some (s', r) ∧
    (r = Ok () ↔ granted (policy s) identity path m) ∧
    policy s' = policy s ∧
    audit_entries (audit_log s') = rest ++ [e] ∧ rest `suffix_of` audit_entries (audit_log s) ∧
    (decision e = Allowed ↔ r = Ok ()) ∧ audit_client_id e = client_id identity ∧
    audit_resource_path e = path ∧ audit_required_permission e = required_permission m path ∧
    (∀ err, r = Err err → authz_code err = 403 ∧
       authz_required_permission err = permission_display (required_permission m path)).
Proof.
  intros Hm. pose proof (decide_access_granted (policy s) identity path m) as Hd.
  unfold check_access. destruct (decide_access (policy s) identity path m) as [d why]. simpl in Hd.
  set (entry := mkAudit _ _ _ _ _ _ _ _).
  assert (Hr : ∃ rest, record entry (audit_log s) =
      Some (mkAuditLog (rest ++ [entry]) (max_entries (audit_log s))) ∧
      rest `suffix_of` audit_entries (audit_log s)).
  { unfold record. destruct (Nat.leb_spec (max_entries (audit_log s)) (length (audit_entries (audit_log s)))).
    - destruct (audit_entries (audit_log s)) as [|x rest]; [simpl in *; lia|].
      exists rest. split; [done | by exists [x]].
    - eexists. split; [done|]. done. }
  destruct Hr as (rest & -> & Hsuf).
  destruct d; simpl; eexists _, _, entry, rest; (split; [done|]); split_and!; try done; try naive_solver.
Qed.

(** Whatever modality permissions a role
    is given, even an empty list for the modality of the path, a request that
    its global permissions allow stays allowed: the branch that denies
    "explicit modality config" is never reached with a global permission. *)
Theorem modality_permissions_only_add p identity path m name global mods :
  role_for p (role identity) = Some (mkRole name global ∅) →
  (decide_access p identity path m).1 = Allowed →
  let p' := mkPolicy (<[role_name (role identity) := mkRole name global mods]> (roles p)) (entity_acls p) in
  (decide_access p' identity path m).1 = Allowed.
Proof.
  intros Hr Hd. apply decide_access_granted. apply decide_access_granted in Hd.
  destruct Hd as [Ha|(rd & Hrd & Hg)]; [by left|]. right. rewrite Hr in Hrd. injection Hrd as <-.
  exists (mkRole name global mods). split; [unfold role_for; simpl; by rewrite lookup_insert_eq|].
  left. destruct Hg as [Hg|(md & perms & _ & Hl & _)]; [done|]. simpl in Hl. by rewrite lookup_empty in Hl.
Qed.

(** The audit log is a ring buffer.  A log of positive capacity records any
    number of entries without panicking and holds exactly the newest ones, at
    most its capacity; a log of capacity 0 panics on its first entry. *)
Theorem audit_log_keeps_newest es n :
  (0 < n)%nat →
  record_all es (AuditLog_new n) = Some (mkAuditLog (newest n es) n) ∧
  (length (newest n es) ≤ n)%nat ∧
  (∀ e, record e (AuditLog_new 0) = None).
Proof.
  intros Hn. split_and!; [|unfold newest; rewrite length_drop; lia | done].
  by apply (record_all_newest es [] (AuditLog_new n)).
Qed.

(** The built-in policy.  Without entity lists, a reader is allowed exactly
    the requests that need read or execute, a writer all but admin requests and
    an administrator everything; in particular a reader is refused
    [POST /vcl/execute], which needs write, although it executes a query. *)
Theorem default_policy_decisions id path m :
  let allowed r := bool_decide ((decide_access RbacPolicy_default (mkIdentity id r) path m).1 = Allowed) in
  let perm := required_permission m path in
  allowed Reader = bool_decide (perm = PRead ∨ perm = PExecute) ∧
  allowed Writer = bool_decide (perm ≠ PAdmin) ∧
  allowed Admin = true ∧
  (decide_access RbacPolicy_default (mkIdentity id Reader) "/vcl/execute" POST).1 = Denied.
Proof.
  cbv zeta.
  assert (Hn : ∀ r perm, ¬ acl_grant RbacPolicy_default (mkIdentity id r) path perm).
  { intros r perm (? & ? & ? & _ & E & _). simpl in E. by rewrite lookup_empty in E. }
  assert (Hrole : ∀ r rd perm, role_for RbacPolicy_default r = Some rd → modality_permissions rd = ∅ →
    role_grant RbacPolicy_default (mkIdentity id r) path perm ↔ perm ∈ global_permissions rd).
  { intros r rd perm E Em. split; [|intros Hp; exists rd; auto].
    intros (rd' & E' & [Hp|(md & perms & _ & Hl & _)]); simpl in E'; rewrite E in E'; injection E' as <-; [done|].
    by rewrite Em, lookup_empty in Hl. }
  assert (Hd : ∀ r rd, role_for RbacPolicy_default r = Some rd → modality_permissions rd = ∅ →
    bool_decide ((decide_access RbacPolicy_default (mkIdentity id r) path m).1 = Allowed) =
    bool_decide (required_permission m path ∈ global_permissions rd)).
  { intros r rd E Em. apply bool_decide_ext. rewrite decide_access_granted. unfold granted.
    rewrite (Hrole r rd _ E Em). split; [by intros [?%Hn|?] | by right]. }
  split_and!.
  - rewrite (Hd Reader _ eq_refl eq_refl). by destruct (required_permission m path).
  - rewrite (Hd Writer _ eq_refl eq_refl). by destruct (required_permission m path).
  - rewrite (Hd Admin _ eq_refl eq_refl). by destruct (required_permission m path).
  - reflexivity.
Qed.

(** ** Witnesses *)

Module Witness.

Definition alice : ClientIdentity := mkIdentity "alice" Reader.

Definition pol : RbacPolicy := add_entity_acl "e1" "alice" [PWrite] RbacPolicy_default.

Definition state : RbacState := mkRbac pol (AuditLog_new 2).

Lemma access_iff_granted_witness :
  ∃ s' r, check_access 7 alice "/octads/e1" PUT state = Some (s', r) ∧ r = Ok () ∧
    granted pol alice "/octads/e1" PUT.
Proof.
  destruct (access_iff_granted 7 alice "/octads/e1" PUT state) as (s' & r & e & rest & E & Hr & _).
  - simpl. lia.
  - exists s', r. split; [exact E|].
    assert (Hok : r = Ok ()) by (revert E; vm_compute; intros [= _ <-]; reflexivity).
    split; [exact Hok | by apply Hr].
Defined.

Lemma modality_permissions_witness :
  (decide_access (mkPolicy (<["reader" := mkRole "reader" [PRead; PExecute] {[ "vector" := [] ]}]>
     (roles RbacPolicy_default)) ∅) alice "/search/vector" POST).1 = Allowed.
Proof.
  apply (modality_permissions_only_add RbacPolicy_default alice "/search/vector" POST "reader"
    [PRead; PExecute] {[ "vector" := [] ]}); reflexivity.
Defined.

Definition entry (n : Z) : AuditEntry := mkAudit n "c" "reader" "/" "GET" PRead Allowed None.

Lemma audit_log_witness :
  record_all [entry 1; entry 2; entry 3] (AuditLog_new 2) = Some (mkAuditLog [entry 2; entry 3] 2).
Proof. apply (audit_log_keeps_newest [entry 1; entry 2; entry 3] 2). lia. Defined.

End Witness.
