(* ===== verification/Auth.v ===== *)
(** Authentication and rate limiting (verisim-api/src/auth.rs): API keys, the
    sliding-window rate limiter, base64url, HMAC and JSON web tokens, and the
    request middleware.  SHA-256, hexadecimal encoding and JSON parsing are
    parameters; instants are nanoseconds. *)

From S2P Require Import Prelude Machine Text Rbac.

(** ** External code *)

(** [claims_*]: the claims the code reads out of a parsed JSON value. *)
Class AuthEnv := {
  Value : Type;
  sha256 : list byte → list byte;
  hex_encode : list byte → string;
  json_from_slice : list byte → option Value;
  claim_exp : Value → option Z;
  claim_sub : Value → option string;
  claim_role : Value → option string;
}.

Class AuthLaws (A : AuthEnv) := sha256_length l : length (sha256 l) = 32%nat.

(** ** Configuration and keys *)

Record AuthConfig := mkAuthConfig {
  auth_enabled : bool;
  allow_public_health : bool;
  rate_limit_per_minute : Z;
  jwt_secret : option string;
}.

Definition AuthConfig_default : AuthConfig := mkAuthConfig false true 0 None.

Record ApiKeyEntry := mkKey { key_hash : string; label : string; key_role : ClientRole; active : bool }.

Abbreviation ApiKeyRegistry := (gmap string ApiKeyEntry).

Section keys.
Context `{AuthEnv}.

Definition hash_key (key : string) : string := hex_encode (sha256 (as_bytes key)).

Definition register (key lbl : string) (r : ClientRole) (keys : ApiKeyRegistry) : ApiKeyRegistry :=
  <[hash_key key := mkKey (hash_key key) lbl r true]> keys.

Definition validate (key : string) (keys : ApiKeyRegistry) : option ApiKeyEntry :=
  match keys !! hash_key key with
  | Some entry => if active entry then Some entry else None
  | None => None
  end.

Definition deactivate (e : ApiKeyEntry) : ApiKeyEntry := mkKey (key_hash e) (label e) (key_role e) false.

Definition revoke (hash : string) (keys : ApiKeyRegistry) : ApiKeyRegistry * bool :=
  match keys !! hash with
  | Some entry => (<[hash := deactivate entry]> keys, true)
  | None => (keys, false)
  end.

End keys.

(** ** Rate limiter *)

Record RateLimiter := mkLimiter {
  windows : gmap string (list Z);
  max_requests : Z;
  window : Z;
}.

Definition RateLimiter_new (max_per_minute : Z) : RateLimiter :=
  mkLimiter ∅ max_per_minute (60 * 1000000000).

(** The requests of a client still in the window at [now]. *)
Definition live (now : Z) (l : RateLimiter) (client : string) : list Z :=
  retain (λ t, saturating_sub now t <? window l) (default [] (windows l !! client)).

Definition set_window (client : string) (ts : list Z) (l : RateLimiter) : RateLimiter :=
  mkLimiter (<[client := ts]> (windows l)) (max_requests l) (window l).

Definition check (now : Z) (client : string) (l : RateLimiter) : RateLimiter * bool :=
  if max_requests l =? 0 then (l, true)
  else
    let ts := live now l client in
    if max_requests l <=? wrap 32 (Z.of_nat (length ts)) then (set_window client ts l, false)
    else (set_window client (ts ++ [now]) l, true).

Definition remaining (now : Z) (client : string) (l : RateLimiter) : RateLimiter * Z :=
  if max_requests l =? 0 then (l, U32_MAX)
  else
    let ts := live now l client in
    (set_window client ts l, saturating_sub (max_requests l) (wrap 32 (Z.of_nat (length ts)))).

(** ** Base64 *)

Definition CHARSET : list byte :=
  as_bytes "ABCDEFGHIJKLMNOPQRSTUVWXYZabcdefghijklmnopqrstuvwxyz0123456789+/".

Definition pad : byte := byte_of_Z 61.

Fixpoint position (c : byte) (l : list byte) : option Z :=
  match l with
  | [] => None
  | x :: l => if bool_decide (x = c) then Some 0 else Z.add 1 <$> position c l
  end.

Definition char_to_val (c : byte) : result string Z :=
  if bool_decide (c = pad) then Ok 0
  else ok_or (position c CHARSET) "invalid base64 character".

(** [chunks(4)] of a slice whose length is a multiple of four. *)
Fixpoint decode_chunks (bytes acc : list byte) : result string (list byte) :=
  match bytes with
  | c0 :: c1 :: c2 :: c3 :: bytes =>
      a ← char_to_val c0;
      b ← char_to_val c1;
      c ← char_to_val c2;
      d ← char_to_val c3;
      let out := [byte_of_Z (Z.lor (wrap 8 (Z.shiftl a 2)) (Z.shiftr b 4))] in
      let out := if bool_decide (c2 = pad) then out
                 else out ++ [byte_of_Z (Z.lor (wrap 8 (Z.shiftl b 4)) (Z.shiftr c 2))] in
      let out := if bool_decide (c3 = pad) then out
                 else out ++ [byte_of_Z (Z.lor (wrap 8 (Z.shiftl c 6)) d)] in
      decode_chunks bytes (acc ++ out)
  | _ => Ok acc
  end.

Definition base64_decode (input : string) : result string (list byte) :=
  let bytes := as_bytes input in
  ensure (length bytes mod 4 =? 0)%nat else "invalid base64 length" ;;
  decode_chunks bytes [].

Definition dash : Ascii.ascii := Ascii.ascii_of_N 45.
Definition plus : Ascii.ascii := Ascii.ascii_of_N 43.
Definition underscore : Ascii.ascii := Ascii.ascii_of_N 95.
Definition dot : Ascii.ascii := Ascii.ascii_of_N 46.

Definition base64url_decode (input : string) : result string (list byte) :=
  padded ← match (String.length input mod 4)%nat with
           | 2%nat => Ok (String.append input "==")
           | 3%nat => Ok (String.append input "=")
           | 0%nat => Ok input
           | _ => Err "invalid base64url length"
           end;
  base64_decode (replace_char underscore slash (replace_char dash plus padded)).

(** ** HMAC and tokens *)

Section tokens.
Context `{AuthEnv}.

Definition BLOCK_SIZE : nat := 64.

(** A key as one block: hashed when longer, padded with zeros. *)
Definition key_block (key : list byte) : list byte :=
  let k := if (BLOCK_SIZE <? length key)%nat then sha256 key else key in
  k ++ replicate (BLOCK_SIZE - length k) (byte_of_Z 0).

Definition xor_pad (p : Z) (block : list byte) : list byte :=
  (λ b, byte_of_Z (Z.lxor p (Z_of_byte b))) <$> block.

Definition hmac_sha256 (data key : list byte) : list byte :=
  sha256 (xor_pad 0x5c (key_block key) ++ sha256 (xor_pad 0x36 (key_block key) ++ data)).

(** [as i64] of an unsigned 64-bit integer. *)
Definition as_i64 (z : Z) : Z := if z <? 2 ^ 63 then z else z - 2 ^ 64.

Definition role_of_claim (r : option string) : ClientRole :=
  match r with
  | Some "admin" => Admin
  | Some "writer" => Writer
  | _ => Reader
  end.

Definition map_err {E F A} (f : F) (r : result E A) : result F A :=
  match r with Ok a => Ok a | Err _ => Err f end.

Definition validate_jwt (now_secs : Z) (token : string) (config : AuthConfig) :
    result string ClientIdentity :=
  secret ← ok_or (jwt_secret config) "JWT authentication not configured";
  match split_char dot token with
  | [p0; p1; p2] =>
      payload ← map_err "Invalid JWT payload encoding" (base64url_decode p1);
      let expected := hmac_sha256 (as_bytes (String.append p0 (String.append "." p1))) (as_bytes secret) in
      actual ← map_err "Invalid JWT signature encoding" (base64url_decode p2);
      ensure bool_decide (expected = actual) else "Invalid JWT signature" ;;
      claims ← ok_or (json_from_slice payload) "Invalid JWT payload";
      ensure match claim_exp claims with Some exp => as_i64 now_secs <=? exp | None => true end
        else "JWT token expired" ;;
      Ok (mkIdentity (default "unknown" (claim_sub claims)) (role_of_claim (claim_role claims)))
  | _ => Err "Invalid JWT format"
  end.

(** ** The middleware *)

(** What the middleware reads of a request: headers are those that are valid text. *)
Record Request := mkRequest {
  req_method : Method;
  req_path : string;
  x_api_key : option string;
  authorization : option string;
}.

Inductive Response :=
  | NextRun                                     (* the handler answers *)
  | Unauthorized (error : string) (www_authenticate : bool)
  | TooManyRequests (remaining : Z)
  | Forbidden (e : AuthzError).

Record AuthState := mkAuth {
  config : AuthConfig;
  key_registry : ApiKeyRegistry;
  rate_limiter : RateLimiter;
  rbac : RbacState;
}.

Definition AuthState_new (c : AuthConfig) : AuthState :=
  mkAuth c ∅ (RateLimiter_new (rate_limit_per_minute c)) RbacState_default.

Definition AuthState_with_rbac (c : AuthConfig) (r : RbacState) : AuthState :=
  mkAuth c ∅ (RateLimiter_new (rate_limit_per_minute c)) r.

Definition no_credentials : string :=
  "Authentication required. Provide X-API-Key header or Authorization: Bearer <token>".

Definition extract_identity (now_secs : Z) (r : Request) (s : AuthState) : result Response ClientIdentity :=
  match x_api_key r with
  | Some key =>
      match validate key (key_registry s) with
      | Some entry => Ok (mkIdentity (key_hash entry) (key_role entry))
      | None => Err (Unauthorized "Invalid API key" false)
      end
  | None =>
      match authorization r ≫= strip_prefix "Bearer " with
      | Some token =>
          match validate_jwt now_secs token (config s) with
          | Ok who => Ok who
          | Err msg => Err (Unauthorized msg false)
          end
      | None => Err (Unauthorized no_credentials true)
      end
  end.

Definition is_public (s : AuthState) (path : string) : bool :=
  allow_public_health (config s) &&
  (String.eqb path "/health" || String.eqb path "/ready" || String.eqb path "/metrics").

Definition set_limiter (l : RateLimiter) (s : AuthState) : AuthState :=
  mkAuth (config s) (key_registry s) l (rbac s).
Definition set_rbac (r : RbacState) (s : AuthState) : AuthState :=
  mkAuth (config s) (key_registry s) (rate_limiter s) r.

(** [None] when the audit log panics.  [now] and [now'] are the instants the
    limiter reads, [now_secs] the wall clock. *)
Definition auth_middleware (now now' now_secs : Z) (r : Request) (s : AuthState) :
    option (AuthState * Response) :=
  if negb (auth_enabled (config s)) then Some (s, NextRun)
  else if is_public s (req_path r) then Some (s, NextRun)
  else match extract_identity now_secs r s with
  | Err resp => Some (s, resp)
  | Ok who =>
      let '(l, allowed) := check now (client_id who) (rate_limiter s) in
      if negb allowed then
        let '(l, n) := remaining now' (client_id who) l in
        Some (set_limiter l s, TooManyRequests n)
      else
        let s := set_limiter l s in
        '(rb, res) ← check_authorization now_secs who (req_path r) (req_method r) (rbac s);
        Some (set_rbac rb s, match res with Ok _ => NextRun | Err e => Forbidden e end)
  end.

End tokens.
