(* ===== verification/AuthTheorems.v ===== *)
(** What authentication guarantees: the handler runs only for authenticated,
    unthrottled and authorised clients; the sliding window bounds every client;
    tokens and keys round trip. *)

From S2P Require Import Prelude Machine Text Rbac Auth.

(** ** Base64url *)

Section base64.

Lemma char_table :
  forallb (λ v, let c := nth v CHARSET pad in
      negb (bool_decide (c = pad)) &&
      match char_to_val c with Ok n => n =? Z.of_nat v | Err _ => false end) (seq 0 64) = true.
Proof. by vm_compute. Qed.

(** The byte of a six-bit value, and its URL-safe character. *)
Definition std_byte (v : Z) : byte := nth (Z.to_nat v) CHARSET pad.

Definition url_char (v : Z) : Ascii.ascii :=
  if v =? 62 then dash else if v =? 63 then underscore else Ascii.ascii_of_byte (std_byte v).

Definition six (v : Z) : Prop := 0 ≤ v < 64.

Lemma std_byte_val v : six v → std_byte v ≠ pad ∧ char_to_val (std_byte v) = Ok v.
Proof.
  intros Hv. pose proof char_table as Ht. rewrite forallb_forall in Ht.
  specialize (Ht (Z.to_nat v)). rewrite in_seq in Ht. specialize (Ht ltac:(unfold six in *; lia)).
  cbv zeta in Ht. fold (std_byte v) in Ht. apply andb_true_iff in Ht as [Hp Hc].
  case_bool_decide; [done|]. split; [done|].
  destruct (char_to_val (std_byte v)); [|done]. apply Z.eqb_eq in Hc. unfold six in Hv. f_equal. lia.
Qed.

Lemma url_char_table :
  forallb (λ v, let x := url_char (Z.of_nat v) in
      let x := if Ascii.ascii_dec x dash then plus else x in
      let x := if Ascii.ascii_dec x underscore then slash else x in
      bool_decide (Ascii.byte_of_ascii x = std_byte (Z.of_nat v)) &&
      negb (bool_decide (url_char (Z.of_nat v) = dot))) (seq 0 64) = true.
Proof. by vm_compute. Qed.

Lemma url_char_std v :
  six v →
  Ascii.byte_of_ascii (let x := if Ascii.ascii_dec (url_char v) dash then plus else url_char v in
                       if Ascii.ascii_dec x underscore then slash else x) = std_byte v ∧
  url_char v ≠ dot.
Proof.
  intros Hv. pose proof url_char_table as Ht. rewrite forallb_forall in Ht.
  specialize (Ht (Z.to_nat v)). rewrite in_seq in Ht. specialize (Ht ltac:(unfold six in *; lia)).
  rewrite Z2Nat.id in Ht by (unfold six in *; lia). cbv zeta in *.
  apply andb_true_iff in Ht as [Hb%bool_decide_eq_true Hd]. split; [done|].
  by case_bool_decide.
Qed.

(** RFC 4648: three bytes as four six-bit values, without padding. *)
Fixpoint sextets (l : list byte) : list Z :=
  match l with
  | [] => []
  | [a] => let a := Z_of_byte a in [a / 4; a mod 4 * 16]
  | [a; b] => let a := Z_of_byte a in let b := Z_of_byte b in
      [a / 4; a mod 4 * 16 + b / 16; b mod 16 * 4]
  | a :: b :: c :: l =>
      let a := Z_of_byte a in let b := Z_of_byte b in let c := Z_of_byte c in
      a / 4 :: a mod 4 * 16 + b / 16 :: b mod 16 * 4 + c / 64 :: c mod 64 :: sextets l
  end.

Definition string_of (l : list Ascii.ascii) : string := String.string_of_list_ascii l.

Definition base64url_encode (l : list byte) : string := string_of (url_char <$> sextets l).

Fixpoint padding (l : list byte) : nat :=
  match l with
  | [] => 0
  | [_] => 2
  | [_; _] => 1
  | _ :: _ :: _ :: l => padding l
  end.

Lemma triple_ind (P : list byte → Prop) :
  P [] → (∀ a, P [a]) → (∀ a b, P [a; b]) → (∀ a b c l, P l → P (a :: b :: c :: l)) → ∀ l, P l.
Proof.
  intros H0 H1 H2 H3. fix IH 1. intros [|a [|b [|c l]]]; [done..|]. apply H3, IH.
Qed.

Lemma sextets_six l : Forall six (sextets l).
Proof.
  assert (Hb : ∀ b, 0 ≤ Z_of_byte b < 256) by apply Z_of_byte_range.
  induction l as [|a|a b|a b c l IH] using triple_ind; simpl;
    repeat constructor; try (apply IH);
    try (pose proof (Hb a)); try (pose proof (Hb b)); try (pose proof (Hb c));
    Z.div_mod_to_equations; lia.
Qed.

Lemma sextets_length l :
  (padding l = 0 ∧ length (sextets l) mod 4 = 0 ∨ padding l = 2 ∧ length (sextets l) mod 4 = 2 ∨
   padding l = 1 ∧ length (sextets l) mod 4 = 3)%nat.
Proof.
  induction l as [|a|a b|a b c l IH] using triple_ind; [left; done | right; left; done | right; right; done |].
  cbn [sextets padding length]. cbv zeta. cbn [length].
  replace (S (S (S (S (length (sextets l))))))%nat with (length (sextets l) + 1 * 4)%nat by lia.
  by rewrite Nat.Div0.mod_add.
Qed.

Lemma combine_tables :
  forallb (λ x, forallb (λ y,
      let x := Z.of_nat x in let y := Z.of_nat y in
      (Z.lor (wrap 8 (Z.shiftl x 2)) (Z.shiftr y 4) =? 4 * x + y / 16) &&
      (Z.lor (wrap 8 (Z.shiftl x 4)) (Z.shiftr y 2) =? x mod 16 * 16 + y / 4) &&
      (Z.lor (wrap 8 (Z.shiftl x 6)) y =? x mod 4 * 64 + y)) (seq 0 64)) (seq 0 64) = true.
Proof. by vm_compute. Qed.

Lemma combine x y :
  six x → six y →
  Z.lor (wrap 8 (Z.shiftl x 2)) (Z.shiftr y 4) = 4 * x + y / 16 ∧
  Z.lor (wrap 8 (Z.shiftl x 4)) (Z.shiftr y 2) = x mod 16 * 16 + y / 4 ∧
  Z.lor (wrap 8 (Z.shiftl x 6)) y = x mod 4 * 64 + y.
Proof.
  intros Hx Hy. pose proof combine_tables as Ht. rewrite forallb_forall in Ht.
  specialize (Ht (Z.to_nat x)). rewrite in_seq in Ht. specialize (Ht ltac:(unfold six in *; lia)).
  rewrite forallb_forall in Ht. specialize (Ht (Z.to_nat y)). rewrite in_seq in Ht.
  specialize (Ht ltac:(unfold six in *; lia)). cbv zeta in Ht.
  rewrite !Z2Nat.id in Ht by (unfold six in *; lia).
  by apply andb_true_iff in Ht as [[H1%Z.eqb_eq H2%Z.eqb_eq]%andb_true_iff H3%Z.eqb_eq].
Qed.

Lemma char_to_val_pad : char_to_val pad = Ok 0.
Proof. by vm_compute. Qed.

Lemma as_bytes_string_of l : as_bytes (string_of l) = Ascii.byte_of_ascii <$> l.
Proof.
  unfold as_bytes, string_of, String.list_byte_of_string.
  by rewrite String.list_ascii_of_string_of_list_ascii.
Qed.

Lemma four_sextets a b c :
  byte_of_Z (Z.lor (wrap 8 (Z.shiftl (Z_of_byte a / 4) 2))
    (Z.shiftr (Z_of_byte a mod 4 * 16 + Z_of_byte b / 16) 4)) = a ∧
  byte_of_Z (Z.lor (wrap 8 (Z.shiftl (Z_of_byte a mod 4 * 16 + Z_of_byte b / 16) 4))
    (Z.shiftr (Z_of_byte b mod 16 * 4 + Z_of_byte c / 64) 2)) = b ∧
  byte_of_Z (Z.lor (wrap 8 (Z.shiftl (Z_of_byte b mod 16 * 4 + Z_of_byte c / 64) 6))
    (Z_of_byte c mod 64)) = c.
Proof.
  pose proof (Z_of_byte_range a). pose proof (Z_of_byte_range b). pose proof (Z_of_byte_range c).
  assert (six (Z_of_byte a / 4) ∧ six (Z_of_byte a mod 4 * 16 + Z_of_byte b / 16) ∧
    six (Z_of_byte b mod 16 * 4 + Z_of_byte c / 64) ∧ six (Z_of_byte c mod 64)) as (S1 & S2 & S3 & S4)
    by (unfold six; Z.div_mod_to_equations; lia).
  rewrite (proj1 (combine _ _ S1 S2)), (proj1 (proj2 (combine _ _ S2 S3))), (proj2 (proj2 (combine _ _ S3 S4))).
  split_and!; rewrite <- byte_of_Z_of_byte; f_equal; Z.div_mod_to_equations; lia.
Qed.

Lemma byte_zero : Z_of_byte (byte_of_Z 0) = 0.
Proof. by vm_compute. Qed.

Lemma two_sextets a b :
  byte_of_Z (Z.lor (wrap 8 (Z.shiftl (Z_of_byte a / 4) 2))
    (Z.shiftr (Z_of_byte a mod 4 * 16 + Z_of_byte b / 16) 4)) = a ∧
  byte_of_Z (Z.lor (wrap 8 (Z.shiftl (Z_of_byte a mod 4 * 16 + Z_of_byte b / 16) 4))
    (Z.shiftr (Z_of_byte b mod 16 * 4) 2)) = b.
Proof.
  pose proof (four_sextets a b (byte_of_Z 0)) as (H1 & H2 & _). rewrite byte_zero in H2.
  change (0 / 64) with 0 in H2. by rewrite Z.add_0_r in H2.
Qed.

Lemma one_sextet a :
  byte_of_Z (Z.lor (wrap 8 (Z.shiftl (Z_of_byte a / 4) 2)) (Z.shiftr (Z_of_byte a mod 4 * 16) 4)) = a.
Proof.
  pose proof (two_sextets a (byte_of_Z 0)) as [H1 _]. rewrite byte_zero in H1.
  change (0 / 16) with 0 in H1. by rewrite Z.add_0_r in H1.
Qed.

Lemma decode_chunks_sextets l acc :
  decode_chunks ((std_byte <$> sextets l) ++ replicate (padding l) pad) acc = Ok (acc ++ l).
Proof.
  revert acc. induction l as [|a|a b|a b c l IH] using triple_ind; intros acc.
  - simpl. by rewrite app_nil_r.
  - pose proof (sextets_six [a]) as Hs. cbn [sextets padding] in *. cbv zeta in *.
    rewrite !Forall_cons in Hs. destruct Hs as (S1 & S2 & _).
    cbn [fmap list_fmap app replicate decode_chunks].
    rewrite (proj2 (std_byte_val _ S1)), (proj2 (std_byte_val _ S2)), char_to_val_pad.
    simpl. by rewrite one_sextet.
  - pose proof (sextets_six [a; b]) as Hs. cbn [sextets padding] in *. cbv zeta in *.
    rewrite !Forall_cons in Hs. destruct Hs as (S1 & S2 & S3 & _).
    cbn [fmap list_fmap app replicate decode_chunks].
    rewrite (proj2 (std_byte_val _ S1)), (proj2 (std_byte_val _ S2)), (proj2 (std_byte_val _ S3)), char_to_val_pad.
    cbn [mbind result_bind]. 
    rewrite (bool_decide_eq_false_2 (std_byte _ = pad)) by apply (std_byte_val _ S3).
    rewrite (bool_decide_eq_true_2 (pad = pad)) by done.
    by rewrite (proj1 (two_sextets a b)), (proj2 (two_sextets a b)).
  - pose proof (sextets_six (a :: b :: c :: l)) as Hs. cbn [sextets padding] in *. cbv zeta in *.
    rewrite !Forall_cons in Hs. destruct Hs as (S1 & S2 & S3 & S4 & _).
    cbn [fmap list_fmap app decode_chunks].
    rewrite (proj2 (std_byte_val _ S1)), (proj2 (std_byte_val _ S2)), (proj2 (std_byte_val _ S3)),
      (proj2 (std_byte_val _ S4)).
    cbn [mbind result_bind]. 
    rewrite (bool_decide_eq_false_2 (std_byte (Z_of_byte b mod 16 * 4 + Z_of_byte c / 64) = pad))
      by apply (std_byte_val _ S3).
    rewrite (bool_decide_eq_false_2 (std_byte (Z_of_byte c mod 64) = pad)) by apply (std_byte_val _ S4).
    destruct (four_sextets a b c) as (-> & -> & ->). rewrite IH. by rewrite <- app_assoc.
Qed.

Lemma as_bytes_replaced vs t :
  Forall six vs →
  as_bytes (replace_char underscore slash (replace_char dash plus
    (String.append (string_of (url_char <$> vs)) t))) =
  (std_byte <$> vs) ++ as_bytes (replace_char underscore slash (replace_char dash plus t)).
Proof.
  induction 1 as [|v vs Hv _ IH]; [done|]. cbn [fmap list_fmap app].
  rewrite <- IH, <- (proj1 (url_char_std v Hv)). reflexivity.
Qed.

Lemma length_string_of l : String.length (string_of l) = length l.
Proof. induction l as [|a l IH]; [done|]. unfold string_of in *. simpl. by rewrite IH. Qed.

Lemma append_nil_r s : String.append s "" = s.
Proof. induction s as [|a s IH]; [done|]. exact (f_equal (String.String a) IH). Qed.

Lemma base64url_decode_encode l : base64url_decode (base64url_encode l) = Ok l.
Proof.
  unfold base64url_decode, base64url_encode. rewrite length_string_of, length_fmap.
  assert (Hd : ∀ t, as_bytes (replace_char underscore slash (replace_char dash plus t)) = replicate (padding l) pad →
    ((length (sextets l) + padding l) mod 4 = 0)%nat →
    base64_decode (replace_char underscore slash (replace_char dash plus
      (String.append (string_of (url_char <$> sextets l)) t))) = Ok l).
  { intros t Ht Hlen. unfold base64_decode. rewrite as_bytes_replaced by apply sextets_six. rewrite Ht.
    rewrite length_app, length_fmap, length_replicate, Hlen. simpl. apply decode_chunks_sextets. }
  destruct (sextets_length l) as [[Hp Hl]|[[Hp Hl]|[Hp Hl]]]; rewrite Hl; simpl.
  - specialize (Hd "" ltac:(by rewrite Hp) ltac:(by rewrite Hp, Nat.add_0_r)).
    by rewrite append_nil_r in Hd.
  - apply Hd; rewrite Hp; [done|]. by rewrite <- Nat.Div0.add_mod_idemp_l, Hl.
  - apply Hd; rewrite Hp; [done|]. by rewrite <- Nat.Div0.add_mod_idemp_l, Hl.
Qed.

(** ** Splitting a token at its dots *)

Definition dotless (s : string) : Prop := dot ∉ String.list_ascii_of_string s.

Lemma split_dotless s : dotless s → split_char dot s = [s].
Proof.
  unfold dotless. induction s as [|a s IH]; [done|]. simpl. rewrite not_elem_of_cons. intros [Ha Hs].
  destruct (Ascii.ascii_dec a dot); [congruence|]. by rewrite IH.
Qed.

Lemma split_dotless_app s t : dotless s → split_char dot (String.append s (String.append "." t)) = s :: split_char dot t.
Proof.
  unfold dotless. induction s as [|a s IH]; [done|]. simpl. rewrite not_elem_of_cons. intros [Ha Hs].
  destruct (Ascii.ascii_dec a dot); [congruence|]. simpl in IH. by rewrite IH.
Qed.

Lemma base64url_dotless l : dotless (base64url_encode l).
Proof.
  unfold dotless, base64url_encode, string_of. rewrite String.list_ascii_of_string_of_list_ascii.
  intros (v & E & Hv)%list_elem_of_fmap. pose proof (sextets_six l) as Hs. rewrite Forall_forall in Hs.
  by apply (url_char_std v (Hs v Hv)).
Qed.

End base64.

(** ** The sliding window *)

Section limiter.

Fixpoint run_checks (reqs : list (Z * string)) (l : RateLimiter) : list (Z * string) :=
  match reqs with
  | [] => []
  | (now, c) :: reqs =>
      let '(l, ok) := check now c l in
      (if ok then [(now, c)] else []) ++ run_checks reqs l
  end.

(** The instants at which requests of [c] were let through. *)
Definition times_of (c : string) (acc : list (Z * string)) : list Z :=
  fst <$> retain (λ p, String.eqb p.2 c) acc.

Definition in_window (w T t : Z) : bool := (T - w <? t) && (t <=? T).
Definition hits (w T : Z) (ts : list Z) : nat := length (retain (in_window w T) ts).

Lemma hits_app w T a b : hits w T (a ++ b) = (hits w T a + hits w T b)%nat.
Proof. unfold hits. by rewrite retain_app, length_app. Qed.

Lemma hits_le w T ts : (hits w T ts ≤ length ts)%nat.
Proof. apply length_retain. Qed.

Lemma hits_perm w T a b : a ≡ₚ b → hits w T a = hits w T b.
Proof. intros E. unfold hits. by rewrite E. Qed.

Lemma hits_old w T ts : (∀ t, t ∈ ts → t + w ≤ T) → hits w T ts = 0%nat.
Proof.
  intros Ho. unfold hits. rewrite retain_none; [done|]. intros t Ht. specialize (Ho t Ht).
  unfold in_window. rewrite (proj2 (Z.ltb_ge _ _)) by lia. done.
Qed.

Lemma retain_split {A} (f : A → bool) l : l ≡ₚ retain f l ++ retain (λ x, negb (f x)) l.
Proof.
  induction l as [|x l IH]; [done|]. simpl. destruct (f x); simpl.
  - by rewrite <- IH.
  - rewrite <- Permutation_middle. by rewrite <- IH.
Qed.

(** [ts] are the accepted instants of the client: those the limiter has dropped
    are a full window old, and no window ever held more than the maximum. *)
Record limiter_inv (c : string) (now : Z) (l : RateLimiter) (ts : list Z) : Prop := mkLimiterInv {
  li_past : ∀ t, t ∈ ts → t ≤ now;
  li_stored : ∃ old, ts ≡ₚ old ++ default [] (windows l !! c) ∧ ∀ t, t ∈ old → t + window l ≤ now;
  li_length : Z.of_nat (length (default [] (windows l !! c))) ≤ max_requests l;
  li_hits : ∀ T, Z.of_nat (hits (window l) T ts) ≤ max_requests l;
}.

Lemma limiter_inv_mono c now now' l ts : now ≤ now' → limiter_inv c now l ts → limiter_inv c now' l ts.
Proof.
  intros Hn [Hp (old & E & Ho) Hl Hh]. split; [|exists old; split; [done|]|done|done].
  - intros t Ht. specialize (Hp t Ht). lia.
  - intros t Ht. specialize (Ho t Ht). lia.
Qed.

(** Dropping the expired instants. *)
Lemma limiter_inv_live c now l ts :
  0 < window l → limiter_inv c now l ts → limiter_inv c now (set_window c (live now l c) l) ts.
Proof.
  intros Hw [Hp (old & E & Ho) Hl Hh]. split; simpl; try done.
  - rewrite lookup_insert_eq. simpl. set (st := default [] (windows l !! c)) in *.
    exists (old ++ retain (λ t, negb (saturating_sub now t <? window l)) st). split.
    + rewrite E, <- app_assoc. f_equiv. rewrite Permutation_app_comm. apply retain_split.
    + intros t [Ht|[Ht Hn]%elem_of_retain]%elem_of_app; [by apply Ho|].
      apply negb_true_iff, Z.ltb_ge in Hn. unfold saturating_sub in Hn.
      assert (t ≤ now) by (apply Hp; rewrite E; apply elem_of_app; by right). lia.
  - rewrite lookup_insert_eq. simpl. unfold live.
    pose proof (length_retain (λ t, saturating_sub now t <? window l) (default [] (windows l !! c))). lia.
Qed.

Lemma limiter_inv_other c c' now l ts ts' :
  c' ≠ c → limiter_inv c now l ts → limiter_inv c now (set_window c' ts' l) ts.
Proof. intros Hne [Hp Hs Hl Hh]. split; simpl; rewrite ?lookup_insert_ne by done; done. Qed.

Lemma limiter_inv_push c now l ts :
  0 < window l → Z.of_nat (length (default [] (windows l !! c))) < max_requests l →
  limiter_inv c now l ts →
  limiter_inv c now (set_window c (default [] (windows l !! c) ++ [now]) l) (ts ++ [now]).
Proof.
  intros Hw Hlt [Hp (old & E & Ho) Hl Hh]. set (st := default [] (windows l !! c)) in *.
  assert (E' : ts ++ [now] ≡ₚ old ++ (st ++ [now])) by by rewrite E, app_assoc.
  split; simpl; rewrite ?lookup_insert_eq; simpl.
  - intros t [Ht| ->%list_elem_of_singleton]%elem_of_app; [by apply Hp | lia].
  - by exists old.
  - rewrite length_app. simpl. lia.
  - intros T. destruct (Z.lt_ge_cases T now) as [HT|HT].
    + rewrite hits_app. unfold hits at 2. simpl. unfold in_window.
      rewrite (proj2 (Z.leb_gt now T)) by lia. rewrite andb_false_r. simpl.
      specialize (Hh T). lia.
    + rewrite (hits_perm _ _ _ _ E'), hits_app, (hits_old _ _ old).
      * pose proof (hits_le (window l) T (st ++ [now])) as Hle. rewrite length_app in Hle. simpl in Hle. lia.
      * intros t Ht. specialize (Ho t Ht). lia.
Qed.

Lemma check_inv c c' now l ts :
  0 < window l → 0 < max_requests l < 2 ^ 32 → limiter_inv c now l ts →
  let '(l', ok) := check now c' l in
  limiter_inv c now l' (ts ++ if ok then times_of c [(now, c')] else []) ∧
  window l' = window l ∧ max_requests l' = max_requests l.
Proof.
  intros Hw Hm Hi. unfold check. rewrite (proj2 (Z.eqb_neq _ _)) by lia.
  destruct (decide (c' = c)) as [->|Hne].
  - pose proof (limiter_inv_live c now l ts Hw Hi) as Hi'.
    pose proof (li_length _ _ _ _ Hi') as Hlen. simpl in Hlen. rewrite lookup_insert_eq in Hlen. simpl in Hlen.
    rewrite wrap_small by (unfold in_u; lia).
    destruct (Z.leb_spec (max_requests l) (Z.of_nat (length (live now l c)))) as [Hle|Hlt].
    + rewrite app_nil_r. done.
    + split; [|done]. unfold times_of. simpl. rewrite String.eqb_refl. simpl.
      pose proof (limiter_inv_push c now (set_window c (live now l c) l) ts Hw) as Hpush. simpl in Hpush.
      rewrite lookup_insert_eq in Hpush. simpl in Hpush. specialize (Hpush Hlt Hi').
      unfold set_window in Hpush |- *. simpl in Hpush. by rewrite insert_insert_eq in Hpush.
  - assert (E : times_of c [(now, c')] = []).
    { unfold times_of. simpl. by rewrite (proj2 (String.eqb_neq _ _)). }
    destruct (_ <=? _); rewrite ?E, app_nil_r; (split; [by apply limiter_inv_other | done]).
Qed.

Lemma times_of_app c a b : times_of c (a ++ b) = times_of c a ++ times_of c b.
Proof. unfold times_of. by rewrite retain_app, fmap_app. Qed.

Lemma run_checks_inv c now reqs l ts T :
  0 < window l → 0 < max_requests l < 2 ^ 32 → limiter_inv c now l ts →
  StronglySorted Z.le (now :: reqs.*1) →
  Z.of_nat (hits (window l) T (ts ++ times_of c (run_checks reqs l))) ≤ max_requests l.
Proof.
  revert now l ts. induction reqs as [|[now' c'] reqs IH]; intros now l ts Hw Hm Hi Hs.
  - simpl. unfold times_of. simpl. rewrite app_nil_r. apply (li_hits _ _ _ _ Hi).
  - simpl in Hs. apply StronglySorted_inv in Hs as [Hs Hle]. apply Forall_cons in Hle as [Hle _].
    pose proof (check_inv c c' now' l ts Hw Hm (limiter_inv_mono _ _ _ _ _ Hle Hi)) as Hc. simpl.
    destruct (check now' c' l) as [l' ok]. destruct Hc as (Hi' & Ew & Em).
    rewrite times_of_app, app_assoc. rewrite <- Ew, <- Em.
    destruct ok; simpl in Hi' |- *.
    + apply (IH now'); rewrite ?Ew, ?Em; done.
    + unfold times_of at 1. simpl. apply (IH now'); rewrite ?Ew, ?Em; done.
Qed.

End limiter.

(** ** Properties *)

(** C26 (rate limit).  However the requests of all clients arrive in time, no
    60-second window contains more accepted requests of one client than the
    configured maximum per minute. *)
Theorem rate_limit_window reqs maximum c T :
  0 < maximum < 2 ^ 32 → StronglySorted Z.le reqs.*1 →
  Z.of_nat (hits (60 * 1000000000) T (times_of c (run_checks reqs (RateLimiter_new maximum)))) ≤ maximum.
Proof.
  intros Hm Hs. destruct reqs as [|[now c'] reqs]; [simpl; unfold hits; simpl; lia|].
  apply (run_checks_inv c now ((now, c') :: reqs) (RateLimiter_new maximum) [] T); try done.
  - split; simpl; rewrite ?lookup_empty; [by intros t ?%elem_of_nil | | simpl; lia
      | intros T'; unfold hits; simpl; lia].
    exists []. split; [done | by intros t ?%elem_of_nil].
  - simpl in *. constructor; [done|]. constructor; [done|]. by apply StronglySorted_inv in Hs as [_ ?].
Qed.

(** Decoding the unpadded RFC 4648 encoding of any bytes gives
    them back. *)
Theorem base64url_roundtrip l : base64url_decode (base64url_encode l) = Ok l.
Proof. apply base64url_decode_encode. Qed.

Section tokens.
Context `{AuthEnv}.

(** A token as an issuer builds it. *)
Definition make_jwt (header : string) (payload : list byte) (secret : string) : string :=
  let body := String.append header (String.append "." (base64url_encode payload)) in
  String.append body (String.append "."
    (base64url_encode (hmac_sha256 (as_bytes body) (as_bytes secret)))).

Lemma append_assoc a b c : String.append (String.append a b) c = String.append a (String.append b c).
Proof. induction a as [|x a IH]; [done|]. exact (f_equal (String.String x) IH). Qed.

Lemma split_make_jwt header payload secret :
  dotless header →
  split_char dot (make_jwt header payload secret) =
  [header; base64url_encode payload;
   base64url_encode (hmac_sha256 (as_bytes (String.append header (String.append "." (base64url_encode payload))))
     (as_bytes secret))].
Proof.
  intros Hh. unfold make_jwt. rewrite !append_assoc, split_dotless_app by done.
  rewrite split_dotless_app by apply base64url_dotless.
  by rewrite split_dotless by apply base64url_dotless.
Qed.

(** Issued tokens.  A token built with the configured secret is accepted
    until the second of its [exp] claim, and forever without one: the client is
    its subject, "unknown" when there is none, with the role it names, and
    anything but "admin" and "writer" is a reader. *)
Theorem jwt_roundtrip header payload secret cfg now claims :
  jwt_secret cfg = Some secret → dotless header → json_from_slice payload = Some claims →
  validate_jwt now (make_jwt header payload secret) cfg =
  if match claim_exp claims with Some exp => as_i64 now <=? exp | None => true end
  then Ok (mkIdentity (default "unknown" (claim_sub claims)) (role_of_claim (claim_role claims)))
  else Err "JWT token expired".
Proof.
  intros Hs Hh Hj. unfold validate_jwt. rewrite Hs. cbn [ok_or mbind result_bind].
  rewrite split_make_jwt by done. rewrite !base64url_decode_encode. cbn [map_err mbind result_bind].
  rewrite bool_decide_eq_true_2 by done. rewrite Hj. cbn [ok_or mbind result_bind].
  by destruct (match claim_exp claims with Some _ => _ | None => _ end).
Qed.

(** ** The middleware *)

(** The client a request authenticates as: an active registered key, or,
    without a key header, a bearer token whose signature is the HMAC of its
    first two parts under the configured secret and which has not expired. *)
Definition authenticated (now_secs : Z) (r : Request) (s : AuthState) (who : ClientIdentity) : Prop :=
  (∃ key e, x_api_key r = Some key ∧ key_registry s !! hash_key key = Some e ∧ active e = true ∧
     who = mkIdentity (key_hash e) (key_role e)) ∨
  (x_api_key r = None ∧
   ∃ token secret p0 p1 p2 payload claims,
     authorization r = Some (String.append "Bearer " token) ∧ jwt_secret (config s) = Some secret ∧
     split_char dot token = [p0; p1; p2] ∧
     base64url_decode p1 = Ok payload ∧
     base64url_decode p2 = Ok (hmac_sha256 (as_bytes (String.append p0 (String.append "." p1))) (as_bytes secret)) ∧
     json_from_slice payload = Some claims ∧
     (∀ exp, claim_exp claims = Some exp → as_i64 now_secs ≤ exp) ∧
     who = mkIdentity (default "unknown" (claim_sub claims)) (role_of_claim (claim_role claims))).

Lemma validate_jwt_ok now token cfg who :
  validate_jwt now token cfg = Ok who ↔
  ∃ secret p0 p1 p2 payload claims,
    jwt_secret cfg = Some secret ∧ split_char dot token = [p0; p1; p2] ∧
    base64url_decode p1 = Ok payload ∧
    base64url_decode p2 = Ok (hmac_sha256 (as_bytes (String.append p0 (String.append "." p1))) (as_bytes secret)) ∧
    json_from_slice payload = Some claims ∧
    (∀ exp, claim_exp claims = Some exp → as_i64 now ≤ exp) ∧
    who = mkIdentity (default "unknown" (claim_sub claims)) (role_of_claim (claim_role claims)).
Proof.
  unfold validate_jwt. split.
  - destruct (jwt_secret cfg) as [secret|]; [|done]. cbn [ok_or mbind result_bind].
    destruct (split_char dot token) as [|p0 [|p1 [|p2 [|? ?]]]]; try done.
    destruct (base64url_decode p1) as [payload|] eqn:E1; [|done]. cbn [map_err mbind result_bind].
    destruct (base64url_decode p2) as [sig|] eqn:E2; [|done]. cbn [map_err mbind result_bind].
    case_bool_decide as Hsig; [|done].
    destruct (json_from_slice payload) as [claims|] eqn:Ej; [|done]. cbn [ok_or mbind result_bind].
    destruct (match claim_exp claims with Some _ => _ | None => _ end) eqn:Ee; [|done]. intros [= <-].
    exists secret, p0, p1, p2, payload, claims. rewrite Hsig. split_and!; try done.
    intros exp Hx. rewrite Hx in Ee. by apply Z.leb_le.
  - intros (secret & p0 & p1 & p2 & payload & claims & -> & -> & -> & -> & Hj & He & ->).
    cbn [ok_or map_err mbind result_bind]. rewrite bool_decide_eq_true_2 by done.
    rewrite Hj. cbn [ok_or mbind result_bind]. destruct (claim_exp claims) as [exp|]; [|done].
    by rewrite (proj2 (Z.leb_le _ _)) by by apply He.
Qed.

Lemma extract_identity_ok now r s who :
  extract_identity now r s = Ok who ↔ authenticated now r s who.
Proof.
  unfold extract_identity, authenticated, validate.
  destruct (x_api_key r) as [key|].
  - destruct (key_registry s !! hash_key key) as [e|] eqn:E; [destruct (active e) eqn:Ea|]; split; try done.
    + intros [= <-]. left. by exists key, e.
    + intros [(k & e' & [= <-] & He & _ & ->)|[? _]]; [|done]. rewrite E in He. by injection He as <-.
    + intros [(k & e' & [= <-] & He & Ha & _)|[? _]]; [|done]. rewrite E in He. injection He as <-. congruence.
    + intros [(k & e' & [= <-] & He & _)|[? _]]; [|done]. by rewrite E in He.
  - destruct (authorization r) as [h|]; cbn [mbind option_bind].
    2: { split; [done|]. by intros [(? & ? & ? & _)|(_ & ? & ? & ? & ? & ? & ? & ? & ? & _)]. }
    destruct (strip_prefix "Bearer " h) as [token|] eqn:Ep.
    + apply strip_prefix_Some in Ep as ->. pose proof (validate_jwt_ok now token (config s) who) as Hv.
      split.
      * intros Hok. right. split; [done|].
        destruct (validate_jwt now token (config s)) as [w|]; [|done]. injection Hok as ->.
        destruct (proj1 Hv eq_refl) as (secret & p0 & p1 & p2 & payload & claims & Hc).
        by exists token, secret, p0, p1, p2, payload, claims.
      * intros [(? & ? & ? & _)|(_ & token' & secret & p0 & p1 & p2 & payload & claims & Ht & Hc)]; [done|].
        assert (token' = token) as ->.
        { injection Ht as Ht. done. }
        rewrite (proj2 Hv); [done|]. by exists secret, p0, p1, p2, payload, claims.
    + split; [done|]. intros [(? & ? & ? & _)|(_ & token' & ? & ? & ? & ? & ? & ? & [= ->] & _)]; [done|].
      by rewrite strip_prefix_app in Ep.
Qed.

(** C13 (who reaches the handler).  With an audit log of positive capacity the
    middleware answers every request, and lets it through exactly when
    authentication is disabled, the path is a public health endpoint, or the
    request authenticates a client that is within its rate limit and that the
    policy grants the required permission. *)
Theorem middleware_admits now now' secs r s :
  (0 < max_entries (audit_log (rbac s)))%nat →
  ∃ s' resp, auth_middleware now now' secs r s = Some (s', resp) ∧
    (resp = NextRun ↔
       auth_enabled (config s) = false ∨ is_public s (req_path r) = true ∨
       ∃ who, authenticated secs r s who ∧ (check now (client_id who) (rate_limiter s)).2 = true ∧
              granted (policy (rbac s)) who (req_path r) (req_method r)).
Proof.
  intros Hm. unfold auth_middleware. destruct (auth_enabled (config s)); cbn [negb];
    [|eexists _, _; split; [done|]; split; [by left | done]].
  destruct (is_public s (req_path r));
    [eexists _, _; split; [done|]; split; [by right; left | done]|].
  pose proof (extract_identity_ok secs r s) as Ha.
  destruct (extract_identity secs r s) as [who|resp] eqn:E.
  2: { eexists _, _. split; [done|]. split.
       - intros ->. exfalso. clear -E. unfold extract_identity in E. repeat case_match; congruence.
       - intros [?|[?|(who & Hw & _)]]; [done..|]. apply Ha in Hw. done. }
  assert (Hwho : ∀ w, authenticated secs r s w ↔ w = who).
  { intros w. rewrite <- Ha. naive_solver. }
  destruct (check now (client_id who) (rate_limiter s)) as [l ok] eqn:Ec. destruct ok; cbn [negb].
  - destruct (access_iff_granted secs who (req_path r) (req_method r) (rbac s) Hm)
      as (rb & res & e & rest & Eacc & Hiff & _).
    unfold check_authorization. cbn [set_limiter rbac]. rewrite Eacc. cbn [mbind option_bind].
    eexists _, _. split; [done|]. split.
    + intros Hn. right. right. exists who. rewrite Ec. split_and!; [by apply Hwho | done |].
      apply Hiff. by destruct res as [[]|].
    + intros [?|[?|(w & Hw%Hwho & _ & Hg)]]; [done..|]. subst w. apply Hiff in Hg. by rewrite Hg.
  - destruct (remaining now' (client_id who) l) as [l' n]. eexists _, _. split; [done|]. split; [done|].
    intros [?|[?|(w & Hw%Hwho & Hc & _)]]; [done..|]. subst w. by rewrite Ec in Hc.
Qed.

End tokens.

(** ** Witnesses *)

Module Witness.

#[export] Instance env : AuthEnv := {|
  Value := option Z * option string * option string;
  sha256 := λ l, replicate 32 (byte_of_Z (Z.of_nat (length l) mod 256));
  hex_encode := λ l, String.string_of_list_byte l;
  json_from_slice := λ l, if bool_decide (l = []) then None else Some (Some 100, Some "svc", Some "writer");
  claim_exp := λ v, v.1.1;
  claim_sub := λ v, v.1.2;
  claim_role := λ v, v.2;
|}.
#[export] Instance env_laws : AuthLaws env.
Proof. intros l. apply length_replicate. Qed.

Definition cfg : AuthConfig := mkAuthConfig true true 2 (Some "secret").

Definition svc : ClientIdentity := mkIdentity "svc" Writer.

Definition token : string := make_jwt "h" [byte_of_Z 123; byte_of_Z 125] "secret".

Lemma rate_limit_witness :
  Z.of_nat (hits (60 * 1000000000) 5 (times_of "c"
    (run_checks [(1, "c"); (2, "d"); (3, "c"); (5, "c")] (RateLimiter_new 2)))) ≤ 2.
Proof.
  apply (rate_limit_window [(1, "c"); (2, "d"); (3, "c"); (5, "c")] 2 "c" 5); [lia|].
  simpl. repeat constructor; lia.
Defined.

Lemma jwt_roundtrip_witness : validate_jwt 100 token cfg = Ok svc.
Proof.
  apply (jwt_roundtrip "h" [byte_of_Z 123; byte_of_Z 125] "secret" cfg 100
    ((Some 100, Some "svc", Some "writer") : Value (AuthEnv:=env))).
  - reflexivity.
  - unfold dotless. simpl. intros Hd%list_elem_of_singleton. discriminate Hd.
  - reflexivity.
Defined.

Definition request (path : string) : Request :=
  mkRequest POST path None (Some (String.append "Bearer " token)).

Lemma middleware_witness :
  ∃ s', auth_middleware 1 2 100 (request "/octads") (AuthState_with_rbac cfg (mkRbac RbacPolicy_default (AuditLog_new 5))) =
    Some (s', NextRun).
Proof.
  destruct (middleware_admits 1 2 100 (request "/octads")
    (AuthState_with_rbac cfg (mkRbac RbacPolicy_default (AuditLog_new 5)))) as (s' & resp & E & Hiff);
    [simpl; lia|].
  exists s'. rewrite E. f_equal. f_equal. apply Hiff. right. right. exists svc. split_and!.
  - apply extract_identity_ok. vm_compute. reflexivity.
  - vm_compute. reflexivity.
  - apply decide_access_granted. vm_compute. reflexivity.
Defined.

End Witness.
