(* ===== verification/Conflict.v ===== *)
(** Conflict resolution between modalities (verisim-normalizer/src/conflict.rs).
    Resolving or dismissing a conflict marks it under one lock and moves it to
    the history under two others, so the three critical sections are separate
    definitions. *)

From S2P Require Import Prelude Machine Text Float64.

(** ** Data *)

(** The normalizer's own enumeration (regeneration.rs). *)
Inductive Modality :=
  | Document | Semantic | Graph | Vector | Tensor | Temporal | Provenance | Spatial.

#[export] Instance Modality_eq_dec : EqDecision Modality.
Proof. solve_decision. Defined.

Definition DEFAULT_AUTHORITY_ORDER : list Modality :=
  [Document; Semantic; Provenance; Graph; Vector; Tensor; Spatial; Temporal].

Definition Modality_code (m : Modality) : nat :=
  match m with
  | Document => 0 | Semantic => 1 | Provenance => 2 | Graph => 3 | Vector => 4 | Tensor => 5
  | Spatial => 6 | Temporal => 7
  end.

#[export] Instance Modality_countable : Countable Modality.
Proof. refine (inj_countable Modality_code (λ n, DEFAULT_AUTHORITY_ORDER !! n) _). by intros []. Defined.

Definition modality_display (m : Modality) : string :=
  match m with
  | Document => "document" | Semantic => "semantic" | Graph => "graph" | Vector => "vector"
  | Tensor => "tensor" | Temporal => "temporal" | Provenance => "provenance" | Spatial => "spatial"
  end.

Definition modality_debug (m : Modality) : string :=
  match m with
  | Document => "Document" | Semantic => "Semantic" | Graph => "Graph" | Vector => "Vector"
  | Tensor => "Tensor" | Temporal => "Temporal" | Provenance => "Provenance" | Spatial => "Spatial"
  end.

Inductive ConflictPolicy :=
  | LastWriterWins
  | ModalityPriority (order : list Modality)
  | ManualResolve
  | AutoMerge
  | Custom (name : string).

#[export] Instance ConflictPolicy_eq_dec : EqDecision ConflictPolicy.
Proof. solve_decision. Defined.

Definition cat : list string → string := String.concat "".

Definition policy_display (p : ConflictPolicy) : string :=
  match p with
  | LastWriterWins => "last_writer_wins" | ModalityPriority _ => "modality_priority"
  | ManualResolve => "manual_resolve" | AutoMerge => "auto_merge"
  | Custom name => cat ["custom("; name; ")"]
  end.

Inductive ConflictStatus := Open | InProgress | Resolved | Dismissed.

#[export] Instance ConflictStatus_eq_dec : EqDecision ConflictStatus.
Proof. solve_decision. Defined.

Definition status_display (s : ConflictStatus) : string :=
  match s with
  | Open => "open" | InProgress => "in_progress" | Resolved => "resolved" | Dismissed => "dismissed"
  end.

Inductive ConflictError :=
  | NotFound (id : string)
  | AlreadyResolved (id : string)
  | InvalidPolicy (msg : string)
  | ModalityNotInConflict (msg : string).

Record ConflictConfig := mkConfig {
  default_policy : ConflictPolicy;
  per_modality_policies : gmap (Modality * Modality) ConflictPolicy;
  auto_resolve_threshold : f64;
  require_manual_above : f64;
  max_history_entries : nat;
}.

Definition ConflictConfig_default : ConflictConfig :=
  mkConfig LastWriterWins ∅ (f64_lit 3 10) (f64_lit 8 10) 1000.

(** The policy of a pair in either order. *)
Definition pair_policy (c : ConflictConfig) (a b : Modality) : option ConflictPolicy :=
  match per_modality_policies c !! (a, b) with
  | Some p => Some p
  | None => per_modality_policies c !! (b, a)
  end.

Definition policy_for_pair (c : ConflictConfig) (a b : Modality) : ConflictPolicy :=
  default (default_policy c) (pair_policy c a b).

Section resolver.
Context {DateTime : Type} (fmt_f64_3 : f64 → string).

Record ConflictResolution := mkResolution {
  resolved_at : DateTime;
  policy_used : ConflictPolicy;
  winning_modality : option Modality;
  resolver : string;
  notes : option string;
}.

Record Conflict := mkConflict {
  id : string;
  entity_id : string;
  detected_at : DateTime;
  conflicting_modalities : list Modality;
  drift_score : f64;
  description : string;
  status : ConflictStatus;
  resolution : option ConflictResolution;
}.

Definition with_status (st : ConflictStatus) (c : Conflict) : Conflict :=
  mkConflict (id c) (entity_id c) (detected_at c) (conflicting_modalities c) (drift_score c)
    (description c) st (resolution c).

Definition close (st : ConflictStatus) (r : ConflictResolution) (c : Conflict) : Conflict :=
  mkConflict (id c) (entity_id c) (detected_at c) (conflicting_modalities c) (drift_score c)
    (description c) st (Some r).

Record ConflictResolver := mkResolver {
  config : ConflictConfig;
  active : list Conflict;
  hist : list Conflict;
}.

Definition ConflictResolver_new (c : ConflictConfig) : ConflictResolver := mkResolver c [] [].

Definition CM (A : Type) : Type := SR ConflictResolver ConflictError A.

Definition set_active (l : list Conflict) (s : ConflictResolver) : ConflictResolver :=
  mkResolver (config s) l (hist s).
Definition set_hist (l : list Conflict) (s : ConflictResolver) : ConflictResolver :=
  mkResolver (config s) (active s) l.

(** ** Detection *)

Definition detect_conflict (new_id : string) (now : DateTime) (entity : string)
    (modalities : list Modality) (drift : f64) (desc : string) (s : ConflictResolver) :
    ConflictResolver * Conflict :=
  let c := mkConflict new_id entity now modalities drift desc Open None in
  (set_active (active s ++ [c]) s, c).

(** ** Policies *)

(** The first pair (i < j) with an override. *)
Fixpoint first_in_row (c : ConflictConfig) (a : Modality) (ms : list Modality) : option ConflictPolicy :=
  match ms with
  | [] => None
  | b :: ms => match pair_policy c a b with Some p => Some p | None => first_in_row c a ms end
  end.

Fixpoint first_override (c : ConflictConfig) (ms : list Modality) : option ConflictPolicy :=
  match ms with
  | [] => None
  | a :: ms => match first_in_row c a ms with Some p => Some p | None => first_override c ms end
  end.

Definition select_policy (c : ConflictConfig) (k : Conflict) : ConflictPolicy :=
  default (default_policy c) (first_override c (conflicting_modalities k)).

Fixpoint index_of (m : Modality) (order : list Modality) : option nat :=
  match order with
  | [] => None
  | p :: order => if bool_decide (p = m) then Some 0%nat else S <$> index_of m order
  end.

Fixpoint best_priority (order ms : list Modality) (best : option (nat * Modality)) :
    option (nat * Modality) :=
  match ms with
  | [] => best
  | m :: ms =>
      let best := match index_of m order with
                  | Some idx =>
                      match best with
                      | None => Some (idx, m)
                      | Some (best_idx, _) => if (idx <? best_idx)%nat then Some (idx, m) else best
                      end
                  | None => best
                  end in
      best_priority order ms best
  end.

Definition winner (k : Conflict) (p : ConflictPolicy) : option Modality :=
  match p with
  | LastWriterWins => last (conflicting_modalities k)
  | ModalityPriority order =>
      match best_priority order (conflicting_modalities k) None with
      | Some (_, m) => Some m
      | None => head (conflicting_modalities k)
      end
  | AutoMerge | ManualResolve | Custom _ => None
  end.

Definition apply_policy (now : DateTime) (k : Conflict) (p : ConflictPolicy) : ConflictResolution :=
  mkResolution now p (winner k p) "system" None.

(** ** Resolution: the first critical section *)

(** [iter_mut().find]: the first active conflict with the identifier. *)
Definition find_conflict (cid : string) (l : list Conflict) : option Conflict :=
  snd <$> list_find (λ c, id c = cid) l.

(** Changing that conflict in place. *)
Fixpoint update_first (cid : string) (f : Conflict → Conflict) (l : list Conflict) : list Conflict :=
  match l with
  | [] => []
  | c :: l => if bool_decide (id c = cid) then f c :: l else c :: update_first cid f l
  end.

Definition is_closed (c : Conflict) : bool := bool_decide (status c = Resolved ∨ status c = Dismissed).

Definition update (cid : string) (f : Conflict → Conflict) : CM unit :=
  sr_modify (λ s, set_active (update_first cid f (active s)) s).

(** The lookup and guard the three closing operations start with. *)
Definition find_open (cid : string) : CM Conflict := λ s,
  match find_conflict cid (active s) with
  | None => (s, Err (NotFound cid))
  | Some c => if is_closed c then (s, Err (AlreadyResolved cid)) else (s, Ok c)
  end.

Definition escalate (cid : string) (msg : string) : CM (ConflictResolution * Conflict) :=
  update cid (with_status InProgress);; sr_fail (InvalidPolicy msg).

Definition close_marked (cid : string) (st : ConflictStatus) (r : ConflictResolution) (c : Conflict) :
    CM (ConflictResolution * Conflict) :=
  update cid (close st r);; mret (r, close st r c).

Definition resolve_mark (now : DateTime) (cid : string) (policy : option ConflictPolicy) :
    CM (ConflictResolution * Conflict) :=
  c ← find_open cid;
  s ← sr_get;
  if f64_geb (drift_score c) (require_manual_above (config s)) then
    escalate cid (cat ["Drift score "; fmt_f64_3 (drift_score c); " >= manual threshold ";
                       fmt_f64_3 (require_manual_above (config s)); " -- use resolve_manual()"])
  else
    let p := match policy with Some p => p | None => select_policy (config s) c end in
    match p with
    | ManualResolve => escalate cid "ManualResolve policy requires resolve_manual()"
    | Custom name => escalate cid (cat ["Custom policy '"; name; "' requires external resolver callback"])
    | _ => close_marked cid Resolved (apply_policy now c p) c
    end.

Definition debug_modalities (ms : list Modality) : string :=
  cat ["["; String.concat ", " (modality_debug <$> ms); "]"].

Definition manual_mark (now : DateTime) (cid : string) (m : Modality) (who : string) (note : option string) :
    CM (ConflictResolution * Conflict) :=
  c ← find_open cid;
  if negb (bool_decide (m ∈ conflicting_modalities c)) then
    sr_fail (ModalityNotInConflict (cat [modality_display m; " is not in conflicting modalities ";
                                         debug_modalities (conflicting_modalities c)]))
  else close_marked cid Resolved (mkResolution now ManualResolve (Some m) who note) c.

Definition dismiss_mark (now : DateTime) (cid : string) (why : string) :
    CM (ConflictResolution * Conflict) :=
  c ← find_open cid;
  close_marked cid Dismissed
    (mkResolution now LastWriterWins None "system" (Some (cat ["Dismissed: "; why]))) c.

(** ** [move_to_history]: two critical sections *)

Definition remove_active (c : Conflict) : CM unit :=
  sr_modify (λ s, set_active (retain (λ c', negb (bool_decide (id c' = id c))) (active s)) s).

Definition push_history (c : Conflict) : CM unit :=
  sr_modify (λ s,
    let h := hist s ++ [c] in
    let max := max_history_entries (config s) in
    set_hist (if (max <? length h)%nat then drop (length h - max) h else h) s).

Definition move_to_history (c : Conflict) : CM unit := remove_active c;; push_history c.

(** ** Whole operations *)

Definition resolve (now : DateTime) (cid : string) (policy : option ConflictPolicy) : CM ConflictResolution :=
  '(r, c) ← resolve_mark now cid policy; move_to_history c;; mret r.

Definition resolve_manual (now : DateTime) (cid : string) (m : Modality) (who : string)
    (note : option string) : CM ConflictResolution :=
  '(r, c) ← manual_mark now cid m who note; move_to_history c;; mret r.

Definition dismiss (now : DateTime) (cid : string) (why : string) : CM unit :=
  '(_, c) ← dismiss_mark now cid why; move_to_history c.

(** ** Queries *)

Definition active_conflicts (s : ConflictResolver) : list Conflict := active s.

Definition history (s : ConflictResolver) (limit : nat) : list Conflict :=
  if (limit =? 0)%nat || (length (hist s) <=? limit)%nat then reverse (hist s)
  else reverse (drop (length (hist s) - limit) (hist s)).

Definition by_entity (s : ConflictResolver) (e : string) : list Conflict :=
  retain (λ c, String.eqb (entity_id c) e) (active s) ++
  reverse (retain (λ c, String.eqb (entity_id c) e) (hist s)).

End resolver.

Arguments Conflict : clear implicits.
Arguments ConflictResolution : clear implicits.
Arguments ConflictResolver : clear implicits.
