(* ===== verification/ConflictTheorems.v ===== *)
(** Conflict life cycles under every interleaving of the critical sections, the
    outcome of an automatic resolution, and the priority policy. *)

From S2P Require Import Prelude Machine Float64 Conflict.

Section theorems.
Context {DateTime : Type} (fmt_f64_3 : f64 → string).
Implicit Types (s : ConflictResolver DateTime) (c k : Conflict DateTime) (r : ConflictResolution DateTime)
  (now : DateTime).

(** ** Lookup and update by identifier *)

Lemma find_conflict_split cid (l : list (Conflict DateTime)) c :
  find_conflict cid l = Some c →
  ∃ l1 l2, l = l1 ++ c :: l2 ∧ id c = cid ∧
    (∀ x, x ∈ l1 → id x ≠ cid) ∧ (∀ f, update_first cid f l = l1 ++ f c :: l2).
Proof.
  unfold find_conflict. induction l as [|x l IH]; [done|]. simpl.
  case_decide as Hx.
  - intros [= <-]. exists [], l. split_and!; [done | done | by intros y ?%elem_of_nil |].
    intros f. simpl. by rewrite bool_decide_eq_true_2.
  - destruct (list_find _ l) as [[n y]|] eqn:E; [|done]. simpl in *. intros [= ->].
    destruct (IH eq_refl) as (l1 & l2 & -> & Hc & Hl & Hu). exists (x :: l1), l2.
    split_and!; [done | done | |].
    + intros y Hy. apply elem_of_cons in Hy as [->|Hy]; [done | by apply Hl].
    + intros f. simpl. rewrite bool_decide_eq_false_2 by done. by rewrite Hu.
Qed.

Lemma find_open_cases cid s :
  (∃ err, find_open cid s = (s, Err err)) ∨
  (∃ c, find_open cid s = (s, Ok c) ∧ find_conflict cid (active s) = Some c ∧ is_closed c = false).
Proof.
  unfold find_open. destruct (find_conflict cid (active s)) as [c|]; [|left; by eexists].
  destruct (is_closed c) eqn:E; [left; by eexists | right; by exists c].
Qed.

(** ** What closing operations do under the first lock *)

(** A closed conflict carries its resolution, whose winner is one of the
    conflicting modalities; a dismissed one has no winner. *)
Definition closed_ok (c : Conflict DateTime) : Prop :=
  ∃ r, resolution c = Some r ∧
    ((status c = Resolved ∧ ∀ m, winning_modality r = Some m → m ∈ conflicting_modalities c) ∨
     (status c = Dismissed ∧ winning_modality r = None)).

Inductive marked s : ConflictResolver DateTime →
    result ConflictError (ConflictResolution DateTime * Conflict DateTime) → Prop :=
  | marked_none err : marked s s (Err err)
  | marked_escalated cid c err :
      find_conflict cid (active s) = Some c → is_closed c = false →
      marked s (set_active (update_first cid (with_status InProgress) (active s)) s) (Err err)
  | marked_closed cid c st r :
      find_conflict cid (active s) = Some c → is_closed c = false → closed_ok (close st r c) →
      marked s (set_active (update_first cid (close st r) (active s)) s) (Ok (r, close st r c)).

Lemma best_priority_in order ms best idx m :
  best_priority order ms best = Some (idx, m) →
  best = Some (idx, m) ∨ m ∈ ms.
Proof.
  revert best. induction ms as [|x ms IH]; intros best; simpl; [by left|].
  intros [Hb|?]%IH; [|right; by right]. destruct (index_of x order) as [i|]; [|by left].
  destruct best as [[bi bm]|]; [destruct (i <? bi)%nat|]; simplify_eq; [right; by left | by left | right; by left].
Qed.

Lemma winner_in c p m : winner c p = Some m → m ∈ conflicting_modalities c.
Proof.
  destruct p as [|order| | |]; simpl; try done.
  - intros [l ->]%last_Some. apply elem_of_app. right. by left.
  - destruct (best_priority order (conflicting_modalities c) None) as [[i x]|] eqn:E.
    + intros [= <-]. by apply best_priority_in in E as [|].
    + destruct (conflicting_modalities c); [done|]. intros [= <-]. by left.
Qed.

Lemma resolve_mark_marked now cid pol s :
  marked s (resolve_mark fmt_f64_3 now cid pol s).1 (resolve_mark fmt_f64_3 now cid pol s).2.
Proof.
  unfold resolve_mark, escalate, close_marked, update. sr_unfold.
  destruct (find_open_cases cid s) as [[err ->]|(c & -> & Hf & Ho)]; [constructor|].
  destruct (f64_geb _ _); [by econstructor|].
  destruct (match pol with Some p => p | None => _ end) as [|order| | |] eqn:Ep; simpl;
    try (by econstructor); econstructor; try done.
  - exists (apply_policy now c LastWriterWins). split; [done|]. left. split; [done|].
    intros m. apply (winner_in c LastWriterWins).
  - exists (apply_policy now c (ModalityPriority order)). split; [done|]. left. split; [done|].
    intros m. apply (winner_in c (ModalityPriority order)).
  - eexists. split; [done|]. by left.
Qed.

Lemma manual_mark_marked now cid m who note s :
  marked s (manual_mark now cid m who note s).1 (manual_mark now cid m who note s).2.
Proof.
  unfold manual_mark, close_marked, update. sr_unfold.
  destruct (find_open_cases cid s) as [[err ->]|(c & -> & Hf & Ho)]; [constructor|].
  case_bool_decide as Hm; simpl; [|constructor]. econstructor; try done.
  eexists. split; [done|]. left. split; [done|]. by intros m' [= <-].
Qed.

Lemma dismiss_mark_marked now cid why s :
  marked s (dismiss_mark now cid why s).1 (dismiss_mark now cid why s).2.
Proof.
  unfold dismiss_mark, close_marked, update. sr_unfold.
  destruct (find_open_cases cid s) as [[err ->]|(c & -> & Hf & Ho)]; simpl; [constructor|].
  econstructor; try done. eexists. split; [done|]. by right.
Qed.

(** ** Interleavings *)

Inductive mark_op :=
  | MarkResolve (now : DateTime) (cid : string) (policy : option ConflictPolicy)
  | MarkManual (now : DateTime) (cid : string) (m : Modality) (who : string) (note : option string)
  | MarkDismiss (now : DateTime) (cid : string) (why : string).

Definition run_mark (op : mark_op) : CM (ConflictResolution DateTime * Conflict DateTime) :=
  match op with
  | MarkResolve now cid policy => resolve_mark fmt_f64_3 now cid policy
  | MarkManual now cid m who note => manual_mark now cid m who note
  | MarkDismiss now cid why => dismiss_mark now cid why
  end.

Lemma run_mark_marked op s : marked s (run_mark op s).1 (run_mark op s).2.
Proof.
  destruct op; [apply resolve_mark_marked | apply manual_mark_marked | apply dismiss_mark_marked].
Qed.

(** A closed conflict on its way to the history. *)
Inductive moving := ToRemove (c : Conflict DateTime) | ToPush (c : Conflict DateTime).

Definition moved (p : moving) : Conflict DateTime := match p with ToRemove c | ToPush c => c end.

Definition config_ : Type := ConflictResolver DateTime * list moving.

Definition unused (new_id : string) (x : config_) : Prop :=
  new_id ∉ (id <$> active x.1) ++ (id ∘ moved <$> x.2) ++ (id <$> hist x.1).

Inductive step : config_ → config_ → Prop :=
  | step_detect s ps new_id now e ms drift desc :
      unused new_id (s, ps) →
      step (s, ps) ((detect_conflict new_id now e ms drift desc s).1, ps)
  | step_mark s ps op s' r c :
      run_mark op s = (s', Ok (r, c)) → step (s, ps) (s', ToRemove c :: ps)
  | step_mark_refused s ps op s' err :
      run_mark op s = (s', Err err) → step (s, ps) (s', ps)
  | step_remove s p1 p2 c :
      step (s, p1 ++ ToRemove c :: p2) ((remove_active c s).1, p1 ++ ToPush c :: p2)
  | step_push s p1 p2 c :
      step (s, p1 ++ ToPush c :: p2) ((push_history c s).1, p1 ++ p2).

Record conflict_inv (x : config_) : Prop := mkConflictInv {
  ci_nodup : NoDup (id <$> active x.1);
  ci_done : NoDup ((id ∘ moved <$> x.2) ++ (id <$> hist x.1));
  ci_closed c : c ∈ active x.1 → is_closed c = true → ToRemove c ∈ x.2;
  ci_remove c : ToRemove c ∈ x.2 → c ∈ active x.1;
  ci_gone c : ToPush c ∈ x.2 ∨ c ∈ hist x.1 → id c ∉ id <$> active x.1;
  ci_ok c : c ∈ (moved <$> x.2) ++ hist x.1 → closed_ok c;
  ci_bound : (length (hist x.1) ≤ max_history_entries (config x.1))%nat;
}.

Lemma closed_ok_closed c : closed_ok c → is_closed c = true.
Proof. intros (r & _ & [[? _]|[? _]]); apply bool_decide_eq_true_2; auto. Qed.

Lemma elem_of_mid {A} (x c : A) l1 l2 : x ∈ l1 ++ c :: l2 ↔ x = c ∨ x ∈ l1 ++ l2.
Proof. rewrite !elem_of_app, elem_of_cons. tauto. Qed.

(** Replacing an open conflict by one with the same identifier. *)
Lemma replace_inv s ps l1 c l2 c' :
  conflict_inv (s, ps) → active s = l1 ++ c :: l2 → is_closed c = false → id c' = id c →
  is_closed c' = false → conflict_inv (set_active (l1 ++ c' :: l2) s, ps).
Proof.
  intros [Hn Hd Hc Hr Hg Ho Hb] Ha Hop Hid Hop'. simpl in *.
  assert (Hids : id <$> l1 ++ c' :: l2 = id <$> active s).
  { rewrite Ha, !fmap_app. simpl. by rewrite Hid. }
  split; simpl; rewrite ?Hids; try done.
  - intros x [->|Hx]%elem_of_mid Hcx; [congruence|]. apply Hc; [|done]. rewrite Ha. apply elem_of_mid. by right.
  - intros x Hx. pose proof (Hr x Hx) as Hin. rewrite Ha in Hin.
    assert (Hxc : is_closed x = true).
    { apply closed_ok_closed, Ho. apply elem_of_app. left. apply list_elem_of_fmap. by exists (ToRemove x). }
    apply elem_of_mid in Hin as [->|?]; [congruence|]. apply elem_of_mid. by right.
Qed.

(** Closing an open conflict. *)
Lemma close_inv s ps l1 c l2 c' :
  conflict_inv (s, ps) → active s = l1 ++ c :: l2 → is_closed c = false → id c' = id c →
  closed_ok c' → conflict_inv (set_active (l1 ++ c' :: l2) s, ToRemove c' :: ps).
Proof.
  intros [Hn Hd Hc Hr Hg Ho Hb] Ha Hop Hid Hok. simpl in *.
  assert (Hids : id <$> l1 ++ c' :: l2 = id <$> active s).
  { rewrite Ha, !fmap_app. simpl. by rewrite Hid. }
  assert (Hin : id c ∈ id <$> active s).
  { rewrite Ha, fmap_app. apply elem_of_app. right. by left. }
  assert (Hclosed : ∀ x, ToRemove x ∈ ps → is_closed x = true).
  { intros x Hx. apply closed_ok_closed, Ho. apply elem_of_app. left. apply list_elem_of_fmap.
    by exists (ToRemove x). }
  split; simpl; rewrite ?Hids; try done.
  - apply NoDup_cons. split; [|done]. rewrite Hid. intros [(p & E & Hp)%list_elem_of_fmap|(h & E & Hh)%list_elem_of_fmap]%elem_of_app.
    + destruct p as [x|x]; simpl in E.
      * assert (Hx := Hr x Hp). rewrite Ha in Hx, Hn. pose proof (Hclosed x Hp) as Hcx.
        rewrite fmap_app in Hn. simpl in Hn. apply NoDup_app in Hn as (_ & Hn1 & [Hn2 _]%NoDup_cons).
        apply elem_of_app in Hx as [Hx|[->|Hx]%elem_of_cons]; [|congruence|].
        -- apply (Hn1 (id x)); [by apply list_elem_of_fmap_2|]. rewrite <- E. by left.
        -- apply Hn2. rewrite E. by apply list_elem_of_fmap_2.
      * apply (Hg x); [by left|]. by rewrite <- E.
    + apply (Hg h); [by right|]. by rewrite <- E.
  - intros x [->|Hx]%elem_of_mid Hcx; [by left|]. right. apply Hc; [|done]. rewrite Ha.
    apply elem_of_mid. by right.
  - intros x [[= ->]|Hx]%elem_of_cons; [apply elem_of_mid; by left|].
    pose proof (Hr x Hx) as Hin'. rewrite Ha in Hin'. pose proof (Hclosed x Hx).
    apply elem_of_mid in Hin' as [->|?]; [congruence|]. apply elem_of_mid. by right.
  - intros x [[?|Hx]%elem_of_cons|Hx]; [done | |]; apply Hg; auto.
  - intros x [->|Hx]%elem_of_cons; [done | by apply Ho].
Qed.

Lemma marked_inv s ps s' res :
  marked s s' res → conflict_inv (s, ps) →
  match res with
  | Ok (_, c) => conflict_inv (s', ToRemove c :: ps)
  | Err _ => conflict_inv (s', ps)
  end.
Proof.
  intros [err|cid c err Hf Ho|cid c st r Hf Ho Hok] Hi; [done|..];
    destruct (find_conflict_split _ _ _ Hf) as (l1 & l2 & Ha & Hid & _ & Hu); rewrite Hu.
  - by apply (replace_inv s ps l1 c l2).
  - by apply (close_inv s ps l1 c l2).
Qed.

Lemma fmap_moved_mid p1 c p2 q :
  moved q = c → (id ∘ moved <$> p1 ++ q :: p2) = (id ∘ moved <$> p1) ++ id c :: (id ∘ moved <$> p2).
Proof. intros <-. by rewrite fmap_app. Qed.

Lemma detect_inv s ps new_id now e ms drift desc :
  unused new_id (s, ps) → conflict_inv (s, ps) →
  conflict_inv ((detect_conflict new_id now e ms drift desc s).1, ps).
Proof.
  unfold unused. simpl. rewrite !elem_of_app. intros Hu [Hn Hd Hc Hr Hg Ho Hb]. simpl in *.
  set (k := mkConflict _ _ _ _ _ _ _ _). split; simpl; try done.
  - rewrite fmap_app. apply NoDup_app. split_and!; [done | | apply NoDup_singleton].
    intros x Hx ->%list_elem_of_singleton. simpl in Hx. auto.
  - intros c [Hin| ->%list_elem_of_singleton]%elem_of_app Hcl; [by apply Hc | done].
  - intros c Hin%Hr. apply elem_of_app. by left.
  - intros c Hin. rewrite fmap_app, elem_of_app. intros [Hx|Hx%list_elem_of_singleton]; [by apply (Hg c)|].
    simpl in Hx. apply Hu. right. destruct Hin as [Hin|Hin]; [left|right]; rewrite <- Hx.
    + apply list_elem_of_fmap. by exists (ToPush c).
    + by apply list_elem_of_fmap_2.
Qed.

Lemma remove_inv s p1 p2 c :
  conflict_inv (s, p1 ++ ToRemove c :: p2) →
  conflict_inv ((remove_active c s).1, p1 ++ ToPush c :: p2).
Proof.
  intros [Hn Hd Hc Hr Hg Ho Hb]. simpl in *.
  set (f := λ c' : Conflict DateTime, negb (bool_decide (id c' = id c))).
  assert (Hf : ∀ x, x ∈ retain f (active s) ↔ x ∈ active s ∧ id x ≠ id c).
  { intros x. rewrite elem_of_retain. unfold f. case_bool_decide; simpl; naive_solver. }
  assert (Hsub : ∀ x, x ∈ id <$> retain f (active s) → x ∈ id <$> active s ∧ x ≠ id c).
  { intros x (y & -> & [Hy Hne]%Hf)%list_elem_of_fmap. split; [by apply list_elem_of_fmap_2 | done]. }
  rewrite (fmap_moved_mid p1 c p2 (ToRemove c) eq_refl) in Hd.
  split; simpl; fold f; try done.
  - eapply sublist_NoDup; [exact Hn | apply fmap_sublist, sublist_retain].
  - by rewrite (fmap_moved_mid p1 c p2 (ToPush c) eq_refl).
  - intros x [Hx Hne]%Hf Hcx. specialize (Hc x Hx Hcx). apply elem_of_mid in Hc as [[= ->]|Hc]; [done|].
    apply elem_of_mid. by right.
  - intros x Hx. apply elem_of_mid in Hx as [?|Hx]; [done|]. apply Hf.
    split; [apply Hr, elem_of_mid; by right|]. intros E.
    apply NoDup_app in Hd as (Hd & _). apply NoDup_app in Hd as (_ & Hd1 & [Hd2 _]%NoDup_cons).
    apply elem_of_app in Hx as [Hx|Hx].
    + apply (Hd1 (id x)); [by apply (list_elem_of_fmap_2 (id ∘ moved) p1 (ToRemove x)) | rewrite E; by left].
    + apply Hd2. rewrite <- E. by apply (list_elem_of_fmap_2 (id ∘ moved) p2 (ToRemove x)).
  - intros x Hx Hin. apply Hsub in Hin as [Hin Hne]. destruct Hx as [[[= ->]|Hx]%elem_of_mid|Hx]; [done|..];
      apply (Hg x); auto. left. apply elem_of_mid. by right.
  - intros x. rewrite fmap_app. simpl. intros Hx. apply Ho. by rewrite fmap_app.
Qed.

(** The history after a push: the newest entries, up to the limit. *)
Lemma push_history_hist c s :
  hist (push_history c s).1 = drop (length (hist s ++ [c]) - max_history_entries (config s)) (hist s ++ [c]).
Proof.
  unfold push_history. simpl. destruct (Nat.ltb_spec (max_history_entries (config s)) (length (hist s ++ [c]))); [done|].
  by replace (length (hist s ++ [c]) - max_history_entries (config s))%nat with 0%nat by lia.
Qed.

Lemma push_inv s p1 p2 c :
  conflict_inv (s, p1 ++ ToPush c :: p2) → conflict_inv ((push_history c s).1, p1 ++ p2).
Proof.
  intros [Hn Hd Hc Hr Hg Ho Hb]. cbn [fst snd] in Hn, Hd, Hc, Hr, Hg, Ho, Hb.
  pose proof (push_history_hist c s) as Hh.
  assert (Hin : ∀ x, x ∈ hist (push_history c s).1 → x = c ∨ x ∈ hist s).
  { intros x. rewrite Hh. intros Hx.
    assert (x ∈ hist s ++ [c]) as [?|?%list_elem_of_singleton]%elem_of_app; [|by right|by left].
    rewrite <- (take_drop (length (hist s ++ [c]) - max_history_entries (config s)) (hist s ++ [c])).
    apply elem_of_app. by right. }
  rewrite (fmap_moved_mid p1 c p2 (ToPush c) eq_refl) in Hd.
  assert (Ha : active (push_history c s).1 = active s) by done.
  assert (Hcf : config (push_history c s).1 = config s) by done.
  generalize dependent (push_history c s).1. intros s' Hh Hin Ha Hcf.
  split; cbn [fst snd]; rewrite ?Ha, ?Hcf; try done.
  - rewrite Hh, fmap_drop. eapply sublist_NoDup; [|apply sublist_app; [done | apply sublist_drop]].
    rewrite !fmap_app. cbn [fmap list_fmap].
    rewrite app_assoc, <- Permutation_cons_append. by rewrite <- Permutation_middle in Hd.
  - intros x Hx Hcx. specialize (Hc x Hx Hcx). by apply elem_of_mid in Hc as [|].
  - intros x Hx. apply Hr, elem_of_mid. by right.
  - intros x Hx. apply Hg. destruct Hx as [Hx|[->|Hx]%Hin].
    + left. apply elem_of_mid. by right.
    + left. apply elem_of_mid. by left.
    + by right.
  - intros x [Hx|[->|Hx]%Hin]%elem_of_app; apply Ho, elem_of_app.
    + left. rewrite fmap_app in Hx |- *. simpl. apply elem_of_mid. by right.
    + left. rewrite fmap_app. simpl. apply elem_of_mid. by left.
    + by right.
  - rewrite Hh, length_drop. simpl. lia.
Qed.

Lemma conflict_step_inv x y : step x y → conflict_inv x → conflict_inv y.
Proof.
  destruct 1 as [s ps new_id now e ms drift desc Hu | s ps op s' r c Hm | s ps op s' err Hm | s p1 p2 c | s p1 p2 c];
    intros Hi.
  - by apply detect_inv.
  - pose proof (run_mark_marked op s) as Hk. rewrite Hm in Hk. apply (marked_inv s ps _ _ Hk Hi).
  - pose proof (run_mark_marked op s) as Hk. rewrite Hm in Hk. apply (marked_inv s ps _ _ Hk Hi).
  - by apply remove_inv.
  - by apply push_inv.
Qed.

Lemma new_inv cfg : conflict_inv (ConflictResolver_new cfg, []).
Proof.
  split; simpl; try constructor; try (by intros c ?%elem_of_nil); try lia.
  - by intros c [?%elem_of_nil|?%elem_of_nil].
Qed.

(** ** Priorities *)

Lemma index_of_None m order : index_of m order = None ↔ m ∉ order.
Proof.
  induction order as [|p order IH]; simpl; [split; [by intros _ ?%elem_of_nil | done]|].
  rewrite not_elem_of_cons. case_bool_decide as E; [naive_solver|].
  destruct (index_of m order); simpl; naive_solver.
Qed.

(** The best candidate so far is the least index among those seen. *)
Lemma best_priority_spec order ms best :
  match best_priority order ms best with
  | Some (i, m) =>
      (best = Some (i, m) ∨ (m ∈ ms ∧ index_of m order = Some i)) ∧
      (∀ m' j, m' ∈ ms → index_of m' order = Some j → (i ≤ j)%nat) ∧
      (∀ j m', best = Some (j, m') → (i ≤ j)%nat)
  | None => best = None ∧ ∀ m', m' ∈ ms → index_of m' order = None
  end.
Proof.
  revert best. induction ms as [|x ms IH]; intros best; simpl.
  - destruct best as [[i m]|]; [|split; [done | by intros m' ?%elem_of_nil]].
    split_and!; [by left | by intros m' j ?%elem_of_nil | by intros j m' [= <- _]].
  - destruct (index_of x order) as [ix|] eqn:Ex.
    + destruct best as [[bi bm]|]; [destruct (Nat.ltb_spec ix bi)|].
      * specialize (IH (Some (ix, x))). destruct (best_priority _ _ _) as [[i m]|]; [|by destruct IH].
        destruct IH as (Hm & Hl & Hb). specialize (Hb ix x eq_refl). split_and!.
        -- right. destruct Hm as [[= -> ->]|[? ?]]; (split; [|done]); [by left | by right].
        -- intros m' j [->|Hin]%elem_of_cons Hj; [congruence || (rewrite Ex in Hj; injection Hj as <-; lia) | eauto].
        -- intros j m' [= <- <-]. lia.
      * specialize (IH (Some (bi, bm))). destruct (best_priority _ _ _) as [[i m]|]; [|by destruct IH].
        destruct IH as (Hm & Hl & Hb). specialize (Hb bi bm eq_refl). split_and!.
        -- destruct Hm as [?|[? ?]]; [by left | right; split; [by right | done]].
        -- intros m' j [->|Hin]%elem_of_cons Hj; [rewrite Ex in Hj; injection Hj as <-; lia | eauto].
        -- intros j m' [= <- <-]. lia.
      * specialize (IH (Some (ix, x))). destruct (best_priority _ _ _) as [[i m]|]; [|by destruct IH].
        destruct IH as (Hm & Hl & Hb). specialize (Hb ix x eq_refl). split_and!; [| | done].
        -- right. destruct Hm as [[= -> ->]|[? ?]]; (split; [|done]); [by left | by right].
        -- intros m' j [->|Hin]%elem_of_cons Hj; [rewrite Ex in Hj; injection Hj as <-; lia | eauto].
    + specialize (IH best). destruct (best_priority _ _ _) as [[i m]|].
      * destruct IH as (Hm & Hl & Hb). split_and!; [|intros m' j [->|Hin]%elem_of_cons Hj; [congruence | eauto] | done].
        destruct Hm as [?|[? ?]]; [by left | right; split; [by right | done]].
      * destruct IH as [-> Hn]. split; [done|]. intros m' [->|?]%elem_of_cons; auto.
Qed.

(** ** Properties *)

(** C27 (conflict life cycle).  However detections, resolutions, dismissals and
    moves to the history interleave, no conflict is closed twice: the history
    holds each identifier at most once, within its limit, with its resolution
    (whose winner, if any, is one of the conflicting modalities), and never one
    that is still listed as active; a closed conflict still listed as active is
    on its way to the history. *)
Theorem conflict_life_cycle cfg s ps :
  rtc step (ConflictResolver_new cfg, []) (s, ps) →
  NoDup (id <$> active s) ∧ NoDup (id <$> hist s) ∧
  (length (hist s) ≤ max_history_entries (config s))%nat ∧
  (∀ c, c ∈ hist s → closed_ok c ∧ id c ∉ id <$> active s) ∧
  (∀ c, c ∈ active s → is_closed c = true → ToRemove c ∈ ps ∧ closed_ok c).
Proof.
  intros Hr. assert (conflict_inv (s, ps)) as [Hn Hd Hc Hrm Hg Ho Hb].
  { revert Hr. apply (rtc_ind_r conflict_inv); [apply new_inv|]. intros x y _ Hs. by apply conflict_step_inv. }
  simpl in *. split_and!; [done | by apply NoDup_app in Hd as (_ & _ & ?) | done | |].
  - intros c Hin. split; [apply Ho, elem_of_app; by right | apply Hg; by right].
  - intros c Hin Hcl. specialize (Hc c Hin Hcl). split; [done|]. apply Ho, elem_of_app. left.
    apply list_elem_of_fmap. by exists (ToRemove c).
Qed.

Definition automatic (p : ConflictPolicy) : bool :=
  match p with ManualResolve | Custom _ => false | _ => true end.

(** The policy [resolve] ends up with. *)
Definition effective s c (policy : option ConflictPolicy) : ConflictPolicy :=
  match policy with Some p => p | None => select_policy (config s) c end.

Lemma find_conflict_None cid (l : list (Conflict DateTime)) : cid ∉ id <$> l → find_conflict cid l = None.
Proof.
  intros Hn. unfold find_conflict. rewrite (proj2 (list_find_None _ l)); [done|].
  apply Forall_forall. intros x Hx <-. apply Hn. by apply list_elem_of_fmap_2.
Qed.

Lemma resolve_unfold now cid policy s c :
  find_conflict cid (active s) = Some c → is_closed c = false →
  resolve fmt_f64_3 now cid policy s =
  if f64_geb (drift_score c) (require_manual_above (config s)) || negb (automatic (effective s c policy)) then
    (set_active (update_first cid (with_status InProgress) (active s)) s,
     (resolve fmt_f64_3 now cid policy s).2)
  else
    let r := apply_policy now c (effective s c policy) in
    (((move_to_history (close Resolved r c))
        (set_active (update_first cid (close Resolved r) (active s)) s)).1, Ok r).
Proof.
  intros Hf Ho. unfold resolve, resolve_mark, escalate, close_marked, update, find_open, effective. sr_unfold.
  rewrite Hf, Ho. destruct (f64_geb _ _); [done|].
  by destruct (match policy with Some p => p | None => _ end).
Qed.

(** Automatic resolution.  An open conflict whose drift reaches the manual
    threshold, or whose policy is manual or custom, is refused and put in
    progress.  Otherwise it is resolved with the policy's winner, leaves the
    active list, all others keep their place, and it becomes the newest
    history entry within the limit.  Resolving it again reports that it is
    unknown, not that it is already resolved. *)
Theorem resolve_outcome now now' cid policy policy' s c :
  NoDup (id <$> active s) → find_conflict cid (active s) = Some c → is_closed c = false →
  let r := apply_policy now c (effective s c policy) in
  let s' := (resolve fmt_f64_3 now cid policy s).1 in
  if f64_geb (drift_score c) (require_manual_above (config s)) || negb (automatic (effective s c policy)) then
    is_ok (resolve fmt_f64_3 now cid policy s).2 = false ∧
    find_conflict cid (active s') = Some (with_status InProgress c) ∧ hist s' = hist s
  else
    (resolve fmt_f64_3 now cid policy s).2 = Ok r ∧
    active s' = retain (λ x, negb (bool_decide (id x = cid))) (active s) ∧
    hist s' = drop (length (hist s ++ [close Resolved r c]) - max_history_entries (config s))
                (hist s ++ [close Resolved r c]) ∧
    resolve fmt_f64_3 now' cid policy' s' = (s', Err (NotFound cid)).
Proof.
  intros Hn Hf Ho. cbv zeta. pose proof (resolve_unfold now cid policy s c Hf Ho) as Hres.
  destruct (find_conflict_split _ _ _ Hf) as (l1 & l2 & Ha & Hid & Hl1 & Hu).
  destruct (_ || _) eqn:Hg.
  - split_and!.
    + unfold resolve, resolve_mark, escalate, update, find_open. sr_unfold. rewrite Hf, Ho.
      destruct (f64_geb _ _); [done|]. simpl in Hg. unfold effective in Hg.
      by destruct (match policy with Some p => p | None => _ end).
    + rewrite Hres. simpl. rewrite Hu. unfold find_conflict. rewrite list_find_app_r; simpl.
      * by rewrite decide_True.
      * apply list_find_None. by apply Forall_forall.
    + by rewrite Hres.
  - rewrite Hres. cbn [fst snd]. set (r := apply_policy now c (effective s c policy)).
    assert (Hact : active ((move_to_history (close Resolved r c))
      (set_active (update_first cid (close Resolved r) (active s)) s)).1 =
      retain (λ x, negb (bool_decide (id x = cid))) (active s)).
    { unfold move_to_history. sr_unfold. unfold remove_active, push_history. simpl. rewrite Hu, Ha, !retain_app.
      simpl. rewrite Hid. by rewrite bool_decide_eq_true_2. }
    split_and!; [done | exact Hact | |].
    + exact (push_history_hist (close Resolved r c) (remove_active (close Resolved r c)
        (set_active (update_first cid (close Resolved r) (active s)) s)).1).
    + set (s' := (move_to_history _ _).1) in *. unfold resolve, resolve_mark, find_open. sr_unfold.
      rewrite find_conflict_None; [done|]. rewrite Hact.
      intros (x & E & [_ Hb]%elem_of_retain)%list_elem_of_fmap. by rewrite bool_decide_eq_true_2 in Hb.
Qed.

(** Priority policy.  The winner under a priority order is the conflicting
    modality listed earliest; when none is listed it is the first conflicting
    modality; there is none only for an empty conflict. *)
Theorem priority_winner order c :
  match winner c (ModalityPriority order) with
  | Some m =>
      (∃ i, m ∈ conflicting_modalities c ∧ index_of m order = Some i ∧
         ∀ m' j, m' ∈ conflicting_modalities c → index_of m' order = Some j → (i ≤ j)%nat) ∨
      ((∀ m', m' ∈ conflicting_modalities c → m' ∉ order) ∧ head (conflicting_modalities c) = Some m)
  | None => conflicting_modalities c = []
  end.
Proof.
  simpl. pose proof (best_priority_spec order (conflicting_modalities c) None) as Hs.
  destruct (best_priority _ _ _) as [[i m]|].
  - destruct Hs as ([?|[? ?]] & Hl & _); [done|]. left. by exists i.
  - destruct Hs as [_ Hn]. destruct (conflicting_modalities c) as [|m ms]; [done|]. simpl.
    right. split; [|done]. intros m' Hm. by apply index_of_None, Hn.
Qed.

(** Escalation does not stick.  A conflict below the drift threshold that
    the manual policy has put in progress is still resolved automatically, with
    no human involved, by the next call that names an automatic policy. *)
Theorem escalation_not_sticky now now' cid s c p :
  NoDup (id <$> active s) → find_conflict cid (active s) = Some c → is_closed c = false →
  f64_geb (drift_score c) (require_manual_above (config s)) = false → automatic p = true →
  let s1 := (resolve fmt_f64_3 now cid (Some ManualResolve) s).1 in
  is_ok (resolve fmt_f64_3 now cid (Some ManualResolve) s).2 = false ∧
  find_conflict cid (active s1) = Some (with_status InProgress c) ∧
  (resolve fmt_f64_3 now' cid (Some p) s1).2 =
    Ok (mkResolution now' p (winner c p) "system" None).
Proof.
  intros Hn Hf Ho Hd Hp. cbv zeta.
  pose proof (resolve_unfold now cid (Some ManualResolve) s c Hf Ho) as Hres.
  destruct (find_conflict_split _ _ _ Hf) as (l1 & l2 & Ha & Hid & Hl1 & Hu).
  rewrite Hd in Hres. cbn [effective automatic negb orb] in Hres.
  assert (Hf1 : find_conflict cid (active (resolve fmt_f64_3 now cid (Some ManualResolve) s).1) =
    Some (with_status InProgress c)).
  { rewrite Hres. simpl. rewrite Hu. unfold find_conflict. rewrite list_find_app_r; simpl.
    - by rewrite decide_True.
    - apply list_find_None. by apply Forall_forall. }
  split_and!; [|done|].
  - unfold resolve, resolve_mark, escalate, update, find_open. sr_unfold. by rewrite Hf, Ho, Hd.
  - rewrite (resolve_unfold now' cid (Some p) _ _ Hf1 eq_refl).
    assert (Hcfg : config (resolve fmt_f64_3 now cid (Some ManualResolve) s).1 = config s) by by rewrite Hres.
    rewrite Hcfg. cbn [drift_score with_status effective]. rewrite Hd, Hp. cbn [orb negb snd].
    by destruct p.
Qed.

End theorems.

(** ** Witnesses *)

Module Witness.

Definition text (_ : f64) : string := "x".

(** One open conflict of low drift. *)
Definition low : Conflict Z :=
  mkConflict "c1" "e1" 0 [Graph; Document] (f64_lit 1 2) "disagree" Open None.

Definition st : ConflictResolver Z := mkResolver ConflictConfig_default [low] [].

Lemma low_below : f64_geb (drift_score low) (require_manual_above (config st)) = false.
Proof. vm_compute. reflexivity. Qed.

Lemma conflict_life_cycle_witness :
  let s := (detect_conflict "c1" 0 "e1" [Graph; Document] (f64_lit 1 2) "d"
              (ConflictResolver_new (DateTime:=Z) ConflictConfig_default)).1 in
  NoDup (id <$> active s).
Proof.
  intros s. apply (conflict_life_cycle text ConflictConfig_default s []).
  apply rtc_once, step_detect. unfold unused. simpl. apply not_elem_of_nil.
Defined.

Lemma resolve_outcome_witness :
  (resolve text 5 "c1" None st).2 = Ok (mkResolution 5 LastWriterWins (Some Document) "system" None) ∧
  active (resolve text 5 "c1" None st).1 = [].
Proof.
  pose proof (resolve_outcome text 5 6 "c1" None None st low) as Hr. cbv zeta in Hr.
  rewrite low_below in Hr. cbn [orb] in Hr. simpl negb in Hr.
  destruct Hr as (H1 & H2 & _); [by apply NoDup_singleton | reflexivity | reflexivity |].
  split; [exact H1 | exact H2].
Defined.

Lemma escalation_witness :
  (resolve text 6 "c1" (Some LastWriterWins) (resolve text 5 "c1" (Some ManualResolve) st).1).2 =
  Ok (mkResolution 6 LastWriterWins (Some Document) "system" None).
Proof.
  apply (escalation_not_sticky text 5 6 "c1" st low LastWriterWins).
  - by apply NoDup_singleton.
  - reflexivity.
  - reflexivity.
  - exact low_below.
  - reflexivity.
Defined.

End Witness.
