(* ===== verification/OctadTypes.v ===== *)
(** The data of an octad (verisim-octad/src/lib.rs) and of the modalities it
    is made of (the data types of verisim-graph, -vector, -document, -tensor,
    -semantic and -spatial), with their constructors and validation. *)

From S2P Require Import Prelude Machine Text Float64 WalEntry.
From Stdlib Require Import Strings.Ascii.

Local Open Scope string_scope.
Local Open Scope Z_scope.

(** ** Graph (verisim-graph/src/lib.rs) *)

Record GraphNode := mkNode { iri : string; local_name : string }.

Definition GraphNode_new (iri : string) : GraphNode :=
  let local := match rsplit_once "/"%char iri with Some p => Some p | None => rsplit_once "#"%char iri end in
  mkNode iri (match local with Some (_, name) => name | None => iri end).

Inductive GraphObject :=
  | Node (n : GraphNode)
  | Literal (value : string) (datatype : option string).

Record GraphEdge := mkEdge { subject : GraphNode; predicate : GraphNode; object : GraphObject }.

(** ** Vector (verisim-vector/src/lib.rs) *)

Record Embedding := mkEmbedding {
  emb_id : string; vector : list f32; emb_metadata : gmap string string }.

Definition Embedding_new (id : string) (v : list f32) : Embedding := mkEmbedding id v ∅.
Definition Embedding_with_metadata (k v : string) (e : Embedding) : Embedding :=
  mkEmbedding (emb_id e) (vector e) (<[k := v]> (emb_metadata e)).
Definition dim (e : Embedding) : nat := length (vector e).

(** ** Document (verisim-document/src/lib.rs) *)

Record Document := mkDocument {
  doc_id : string; title : string; body : string;
  fields : gmap string string; doc_metadata : gmap string string }.

Definition Document_new (id title body : string) : Document := mkDocument id title body ∅ ∅.
Definition with_field (k v : string) (d : Document) : Document :=
  mkDocument (doc_id d) (title d) (body d) (<[k := v]> (fields d)) (doc_metadata d).
Definition Document_with_metadata (k v : string) (d : Document) : Document :=
  mkDocument (doc_id d) (title d) (body d) (fields d) (<[k := v]> (doc_metadata d)).

(** ** Tensor (verisim-tensor/src/lib.rs) *)

Inductive DType := Float32 | Float64 | Int32 | Int64 | Bool.

Inductive TensorError :=
  | ShapeMismatch (expected actual : list Z)
  | TensorNotFound (id : string)
  | TensorInvalidOperation (msg : string).

Record Tensor := mkTensor {
  tensor_id : string; shape : list Z; dtype : DType; tensor_data : list f64;
  tensor_metadata : gmap string string }.

(** [shape.iter().product()] on [usize]. *)
Definition product (shape : list Z) : Z := foldl (λ p d, wrap 64 (p * d)) 1 shape.

Definition tensor_error_display (e : TensorError) : string :=
  match e with
  | ShapeMismatch expected actual =>
      cat ["Shape mismatch: expected "; debug_list fmt_u64 expected; ", got "; debug_list fmt_u64 actual]
  | TensorNotFound id => cat ["Tensor not found: "; id]
  | TensorInvalidOperation msg => cat ["Invalid operation: "; msg]
  end.

Definition Tensor_new (id : string) (shape : list Z) (data : list f64) : result TensorError Tensor :=
  let expected_len := product shape in
  let len := Z.of_nat (length data) in
  ensure len =? expected_len
    else TensorInvalidOperation
      (cat ["Data length "; fmt_u64 len; " doesn't match shape "; debug_list fmt_u64 shape;
            " (expected "; fmt_u64 expected_len; ")"]) ;;
  Ok (mkTensor id shape Float64 data ∅).

Definition ndim (t : Tensor) : nat := length (shape t).
Definition numel (t : Tensor) : Z := product (shape t).
Definition Tensor_with_metadata (k v : string) (t : Tensor) : Tensor :=
  mkTensor (tensor_id t) (shape t) (dtype t) (tensor_data t) (<[k := v]> (tensor_metadata t)).

(** ** Semantic (verisim-semantic/src/lib.rs) *)

Inductive SemanticValue :=
  | LangString (value lang : string)
  | TypedLiteral (value datatype : string)
  | Reference (id : string)
  | Collection (l : list SemanticValue).

Record SemProvenance := mkSemProvenance {
  created_at_text : string; created_by : string; sem_source : option string; confidence : f64 }.

(** [Provenance::default()]; the argument is [Utc::now().to_rfc3339()]. *)
Definition SemProvenance_default (now_text : string) : SemProvenance :=
  mkSemProvenance now_text "system" None (f64_of_u64 1).

Record SemanticAnnotation := mkAnnotation {
  ann_entity_id : string; types : list string; properties : gmap string SemanticValue;
  ann_provenance : SemProvenance }.

(** ** Spatial (verisim-spatial/src/lib.rs) *)

Inductive SpatialError :=
  | SpatialNotFound (id : string)
  | InvalidCoordinates (msg : string)
  | SpatialIndexError (msg : string)
  | SpatialIoError (msg : string).

Definition spatial_error_display (e : SpatialError) : string :=
  match e with
  | SpatialNotFound id => cat ["Spatial data not found for entity: "; id]
  | InvalidCoordinates msg => cat ["Invalid coordinates: "; msg]
  | SpatialIndexError msg => cat ["Spatial index error: "; msg]
  | SpatialIoError msg => cat ["Spatial I/O error: "; msg]
  end.

Record Coordinates := mkCoordinates { latitude : f64; longitude : f64; altitude : option f64 }.

Definition valid_latitude (x : f64) : bool := f64_between (f64_neg (f64_of_u64 90)) (f64_of_u64 90) x.
Definition valid_longitude (x : f64) : bool := f64_between (f64_neg (f64_of_u64 180)) (f64_of_u64 180) x.

Definition Coordinates_new `{FmtF64} (lat lon : f64) (alt : option f64) : result SpatialError Coordinates :=
  ensure valid_latitude lat
    else InvalidCoordinates (cat ["Latitude "; fmt_f64 lat; " out of range [-90, 90]"]) ;;
  ensure valid_longitude lon
    else InvalidCoordinates (cat ["Longitude "; fmt_f64 lon; " out of range [-180, 180]"]) ;;
  ensure negb (f64_is_nan lat || f64_is_nan lon)
    else InvalidCoordinates "Coordinates must not be NaN" ;;
  Ok (mkCoordinates lat lon alt).

Inductive GeometryType := Point | LineString | Polygon | MultiPoint | MultiPolygon.

Record SpatialData := mkSpatialData {
  coordinates : Coordinates; geometry_type : GeometryType; srid : Z;
  sp_properties : gmap string string }.

Definition with_geometry (c : Coordinates) (g : GeometryType) (srid : Z) : SpatialData :=
  mkSpatialData c g srid ∅.

Definition point `{FmtF64} (lat lon : f64) (alt : option f64) : result SpatialError SpatialData :=
  c ← Coordinates_new lat lon alt; Ok (mkSpatialData c Point 4326 ∅).

Definition with_property (k v : string) (d : SpatialData) : SpatialData :=
  mkSpatialData (coordinates d) (geometry_type d) (srid d) (<[k := v]> (sp_properties d)).

(** ** Octads (verisim-octad/src/lib.rs) *)

Inductive OctadError :=
  | NotFound (id : string)
  | ModalityError (modality message : string)
  | ConsistencyViolation (msg : string)
  | ValidationError (msg : string).

Definition octad_error_display (e : OctadError) : string :=
  match e with
  | NotFound s => cat ["Entity not found: "; s]
  | ModalityError m msg => cat ["Modality error in "; m; ": "; msg]
  | ConsistencyViolation s => cat ["Consistency violation: "; s]
  | ValidationError s => cat ["Validation error: "; s]
  end.

(** An [OctadId] is its string. *)
Definition to_iri (id base : string) : string := cat [trim_end_matches "/"%char base; "/"; id].

Record ModalityStatus := mkMS {
  graph : bool; vec : bool; tensor : bool; semantic : bool;
  document : bool; temporal : bool; provenance : bool; spatial : bool }.

Definition ms_default : ModalityStatus := mkMS false false false false false false false false.

Definition is_complete (m : ModalityStatus) : bool :=
  graph m && vec m && tensor m && semantic m && document m && temporal m && provenance m && spatial m.

Definition missing (m : ModalityStatus) : list string :=
  let push (b : bool) (name : string) (l : list string) := if negb b then (l ++ [name])%list else l in
  let l := push (graph m) "graph" [] in
  let l := push (vec m) "vector" l in
  let l := push (tensor m) "tensor" l in
  let l := push (semantic m) "semantic" l in
  let l := push (document m) "document" l in
  let l := push (temporal m) "temporal" l in
  let l := push (provenance m) "provenance" l in
  push (spatial m) "spatial" l.

Record OctadGraphInput := mkGraphInput { relationships : list (string * string) }.
Record OctadVectorInput := mkVectorInput { embedding : list f32; model : option string }.
Record OctadTensorInput := mkTensorInput { in_shape : list Z; in_data : list f64 }.
Record OctadSemanticInput := mkSemanticInput { in_types : list string; in_properties : gmap string string }.
Record OctadDocumentInput := mkDocumentInput {
  in_title : string; in_body : string; in_fields : gmap string string }.
Record OctadProvenanceInput := mkProvenanceInput {
  event_type : string; actor : string; source : option string; description : string }.
Record OctadSpatialInput := mkSpatialInput {
  in_latitude : f64; in_longitude : f64; in_altitude : option f64;
  in_geometry_type : option string; in_srid : option Z; in_sp_properties : gmap string string }.

Section chrono.
Context `{Chrono}.

Record OctadTemporalInput := mkTemporalInput { in_observed_at : DateTime }.

Record OctadInput := mkInput {
  in_graph : option OctadGraphInput;
  in_vector : option OctadVectorInput;
  in_tensor : option OctadTensorInput;
  in_semantic : option OctadSemanticInput;
  in_document : option OctadDocumentInput;
  in_temporal : option OctadTemporalInput;
  in_provenance : option OctadProvenanceInput;
  in_spatial : option OctadSpatialInput;
  in_metadata : gmap string string;
}.

Definition input_default : OctadInput := mkInput None None None None None None None None ∅.

Record OctadStatus := mkStatus {
  st_id : string;
  created_at : DateTime;
  modified_at : DateTime;
  observed_at : option DateTime;
  version : Z;
  modality_status : ModalityStatus;
}.

Record Octad := mkOctad {
  oc_id : string;
  status : OctadStatus;
  graph_node : option GraphNode;
  oc_embedding : option Embedding;
  oc_tensor : option Tensor;
  oc_semantic : option SemanticAnnotation;
  oc_document : option Document;
  version_count : Z;
  provenance_chain_length : Z;
  spatial_data : option SpatialData;
}.

Record OctadSnapshot := mkSnapshot {
  snap_id : string;
  snap_input : OctadInput;
  snap_status : ModalityStatus;
  snap_timestamp : DateTime;
}.

(** ** [OctadBuilder]: each method replaces one field of the input. *)

Definition with_relationships (r : list (string * string)) (i : OctadInput) : OctadInput :=
  mkInput (Some (mkGraphInput r)) (in_vector i) (in_tensor i) (in_semantic i) (in_document i)
    (in_temporal i) (in_provenance i) (in_spatial i) (in_metadata i).
Definition with_embedding (e : list f32) (i : OctadInput) : OctadInput :=
  mkInput (in_graph i) (Some (mkVectorInput e None)) (in_tensor i) (in_semantic i) (in_document i)
    (in_temporal i) (in_provenance i) (in_spatial i) (in_metadata i).
Definition with_tensor (sh : list Z) (d : list f64) (i : OctadInput) : OctadInput :=
  mkInput (in_graph i) (in_vector i) (Some (mkTensorInput sh d)) (in_semantic i) (in_document i)
    (in_temporal i) (in_provenance i) (in_spatial i) (in_metadata i).
Definition with_types (ts : list string) (i : OctadInput) : OctadInput :=
  let existing := default (mkSemanticInput [] ∅) (in_semantic i) in
  mkInput (in_graph i) (in_vector i) (in_tensor i)
    (Some (mkSemanticInput ts (in_properties existing))) (in_document i)
    (in_temporal i) (in_provenance i) (in_spatial i) (in_metadata i).
Definition with_document (title body : string) (i : OctadInput) : OctadInput :=
  mkInput (in_graph i) (in_vector i) (in_tensor i) (in_semantic i)
    (Some (mkDocumentInput title body ∅))
    (in_temporal i) (in_provenance i) (in_spatial i) (in_metadata i).
Definition with_provenance (ev actor descr : string) (i : OctadInput) : OctadInput :=
  mkInput (in_graph i) (in_vector i) (in_tensor i) (in_semantic i) (in_document i)
    (in_temporal i) (Some (mkProvenanceInput ev actor None descr)) (in_spatial i) (in_metadata i).
Definition with_spatial (lat lon : f64) (i : OctadInput) : OctadInput :=
  mkInput (in_graph i) (in_vector i) (in_tensor i) (in_semantic i) (in_document i)
    (in_temporal i) (in_provenance i) (Some (mkSpatialInput lat lon None None None ∅)) (in_metadata i).
Definition with_observed_at (t : DateTime) (i : OctadInput) : OctadInput :=
  mkInput (in_graph i) (in_vector i) (in_tensor i) (in_semantic i) (in_document i)
    (Some (mkTemporalInput t)) (in_provenance i) (in_spatial i) (in_metadata i).
Definition with_metadata (k v : string) (i : OctadInput) : OctadInput :=
  mkInput (in_graph i) (in_vector i) (in_tensor i) (in_semantic i) (in_document i)
    (in_temporal i) (in_provenance i) (in_spatial i) (<[k := v]> (in_metadata i)).

End chrono.
