(* ===== verification/Modalities.v ===== *)
(** The interface between the octad store and the eight modality stores: the
    methods of the traits [GraphStore], [VectorStore], [DocumentStore],
    [TensorStore], [SemanticStore], [TemporalStore], [ProvenanceStore] and
    [SpatialStore] that the octad store calls, and the laws its theorems use.

    A store is a state and operations on it.  An operation may fail; its error
    is the text of the error value, the only thing its client looks at.  The
    clock reading a store takes is an argument.  [ModalityStores] gives
    instances. *)

From S2P Require Import Prelude Machine Float64 Provenance WalEntry OctadTypes.

(** ** Operations *)

Class GraphStore := {
  GraphState : Type;
  graph_insert : GraphEdge → SR GraphState string unit;
  graph_outgoing : GraphNode → GraphState → result string (list GraphEdge);
}.

(** A search result is an entity and its score. *)
Class VectorStore := {
  VectorState : Type;
  vector_upsert : Embedding → SR VectorState string unit;
  vector_search : list f32 → nat → VectorState → result string (list (string * f32));
  vector_get : string → VectorState → result string (option Embedding);
  vector_delete : string → SR VectorState string unit;
}.

(** A text search of [None] panics; it is the one operation of the interface
    that can. *)
Class DocumentStore := {
  DocumentState : Type;
  document_index : Document → SR DocumentState string unit;
  document_commit : SR DocumentState string unit;
  document_search : string → nat → DocumentState → option (result string (list (string * f32)));
  document_get : string → DocumentState → result string (option Document);
  document_delete : string → SR DocumentState string unit;
}.

Class TensorStore := {
  TensorState : Type;
  tensor_put : Tensor → SR TensorState string unit;
  tensor_get : string → TensorState → result string (option Tensor);
  tensor_delete : string → SR TensorState string unit;
}.

Class SemanticStore := {
  SemanticState : Type;
  semantic_annotate : SemanticAnnotation → SR SemanticState string unit;
  semantic_get : string → SemanticState → result string (option SemanticAnnotation);
}.

Class SpatialStore := {
  SpatialState : Type;
  spatial_index : string → SpatialData → SR SpatialState string unit;
  spatial_get : string → SpatialState → result string (option SpatialData);
}.

(** Of a version, its number and its time. *)
Class TemporalStore `{Chrono} := {
  TemporalState : Type;
  temporal_append : DateTime → string → OctadSnapshot → string → option string →
    SR TemporalState string Z;
  temporal_history : string → nat → TemporalState → result string (list (Z * DateTime));
  temporal_at_time : string → DateTime → TemporalState → result string (option (Z * DateTime));
}.

(** Of a chain, its length. *)
Class ProvenanceStore `{Chrono} := {
  ProvenanceState : Type;
  provenance_record : DateTime → string → ProvenanceEventType → string → option string → string →
    SR ProvenanceState string unit;
  provenance_chain_len : string → ProvenanceState → result string nat;
}.

(** ** Laws *)

(** A successful write is read back; a delete leaves nothing; operations on
    one entity do not show in another, whether they succeed or not. *)
Class VectorLaws (V : VectorStore) := {
  vector_get_upsert e s s' :
    vector_upsert e s = (s', Ok ()) → vector_get (emb_id e) s' = Ok (Some e);
  vector_get_delete k s s' : vector_delete k s = (s', Ok ()) → vector_get k s' = Ok None;
  vector_upsert_frame e k s : k ≠ emb_id e → vector_get k (vector_upsert e s).1 = vector_get k s;
  vector_delete_frame k' k s : k ≠ k' → vector_get k (vector_delete k' s).1 = vector_get k s;
}.

(** The commit makes documents searchable; it does not change them. *)
Class DocumentLaws (D : DocumentStore) := {
  document_get_index d s s' :
    document_index d s = (s', Ok ()) → document_get (doc_id d) s' = Ok (Some d);
  document_get_commit k s : document_get k (document_commit s).1 = document_get k s;
  document_get_delete k s s' : document_delete k s = (s', Ok ()) → document_get k s' = Ok None;
  document_index_frame d k s :
    k ≠ doc_id d → document_get k (document_index d s).1 = document_get k s;
  document_delete_frame k' k s :
    k ≠ k' → document_get k (document_delete k' s).1 = document_get k s;
}.

Class TensorLaws (T : TensorStore) := {
  tensor_get_put t s s' : tensor_put t s = (s', Ok ()) → tensor_get (tensor_id t) s' = Ok (Some t);
  tensor_get_delete k s s' : tensor_delete k s = (s', Ok ()) → tensor_get k s' = Ok None;
  tensor_put_frame t k s : k ≠ tensor_id t → tensor_get k (tensor_put t s).1 = tensor_get k s;
  tensor_delete_frame k' k s : k ≠ k' → tensor_get k (tensor_delete k' s).1 = tensor_get k s;
}.

Class SemanticLaws (S : SemanticStore) := {
  semantic_get_annotate a s s' :
    semantic_annotate a s = (s', Ok ()) → semantic_get (ann_entity_id a) s' = Ok (Some a);
  semantic_annotate_frame a k s :
    k ≠ ann_entity_id a → semantic_get k (semantic_annotate a s).1 = semantic_get k s;
}.

Class SpatialLaws (L : SpatialStore) := {
  spatial_get_index k d s s' : spatial_index k d s = (s', Ok ()) → spatial_get k s' = Ok (Some d);
  spatial_index_frame k' d k s : k ≠ k' → spatial_get k (spatial_index k' d s).1 = spatial_get k s;
}.

(** A new version comes first in the history, as long as [k]'s version numbers
    are in order ([temporal_wf]). *)
Class TemporalLaws `{Chrono} (R : TemporalStore) := {
  temporal_wf : string → TemporalState → Prop;
  temporal_history_append now k d who msg s s' v n :
    temporal_wf k s → temporal_append now k d who msg s = (s', Ok v) →
    temporal_history k (S n) s' = cons (v, now) <$> temporal_history k n s;
  temporal_append_frame now k' d who msg k n s :
    k ≠ k' → temporal_history k n (temporal_append now k' d who msg s).1 = temporal_history k n s;
}.

(** A new event makes the chain one longer; an entity may have none. *)
Class ProvenanceStoreLaws `{Chrono} (P : ProvenanceStore) := {
  provenance_len_record now k ev who src descr s s' :
    provenance_record now k ev who src descr s = (s', Ok ()) →
    provenance_chain_len k s' =
      Ok (S (match provenance_chain_len k s with Ok n => n | Err _ => 0 end));
  provenance_record_frame now k' ev who src descr k s :
    k ≠ k' →
    provenance_chain_len k (provenance_record now k' ev who src descr s).1 = provenance_chain_len k s;
}.

(** ** The eight together *)

Class Modalities `{Chrono} := {
  graph_store :: GraphStore;
  vector_store :: VectorStore;
  document_store :: DocumentStore;
  tensor_store :: TensorStore;
  semantic_store :: SemanticStore;
  temporal_store :: TemporalStore;
  provenance_store :: ProvenanceStore;
  spatial_store :: SpatialStore;
}.

Class ModalityLaws `{Chrono} (M : Modalities) := {
  vector_laws :: VectorLaws vector_store;
  document_laws :: DocumentLaws document_store;
  tensor_laws :: TensorLaws tensor_store;
  semantic_laws :: SemanticLaws semantic_store;
  temporal_laws :: TemporalLaws temporal_store;
  provenance_laws :: ProvenanceStoreLaws provenance_store;
  spatial_laws :: SpatialLaws spatial_store;
}.
