(* ===== verification/ModalityStores.v ===== *)
(** The modality stores of the repository: the in-memory graph, vector, tensor,
    semantic and spatial stores, the document store over tantivy, and the
    stores of [Temporal] and [Provenance], as instances of [Modalities].

    Lock poisoning cannot occur (a panic aborts), so no operation returns
    [LockPoisoned].  Iteration orders of hash maps, regular expressions,
    tantivy and the trigonometric functions are parameters. *)

From S2P Require Import Prelude Machine Text Float64 Collections Temporal Provenance WalEntry OctadTypes Modalities.

Local Open Scope string_scope.
Local Open Scope Z_scope.

(** ** The graph store (verisim-graph/src/lib.rs) *)

Abbreviation TripleKey := (string * string * string)%type.

Class KeyIter := {
  key_iter : gset TripleKey → list TripleKey;
  iri_iter : gset string → list string;
}.
Class KeyIterLaws (I : KeyIter) := {
  key_iter_perm s : key_iter s ≡ₚ elements s;
  iri_iter_perm s : iri_iter s ≡ₚ elements s;
}.

Module Graph.

Definition object_key (o : GraphObject) : string :=
  match o with Node n => iri n | Literal value _ => cat ["literal::"; value] end.

Definition from_edge (e : GraphEdge) : TripleKey :=
  (iri (subject e), iri (predicate e), object_key (object e)).

Record Store := mkGraph {
  edges : gmap TripleKey GraphEdge;
  subject_idx : gmap string (gset TripleKey);
  object_idx : gmap string (gset TripleKey);
}.

Definition new : Store := mkGraph ∅ ∅ ∅.

(** [idx.entry(k).or_default().insert(key)]. *)
Definition idx_insert (k : string) (key : TripleKey) (idx : gmap string (gset TripleKey)) :=
  <[k := {[key]} ∪ default ∅ (idx !! k)]> idx.

(** Remove a key, and the entry when nothing is left in it. *)
Definition idx_remove (k : string) (key : TripleKey) (idx : gmap string (gset TripleKey)) :=
  match idx !! k with
  | None => idx
  | Some keys =>
      let keys := keys ∖ {[key]} in
      if bool_decide (keys = ∅) then delete k idx else <[k := keys]> idx
  end.

Definition insert (e : GraphEdge) : SR Store string unit := λ g,
  let key := from_edge e in
  (mkGraph (<[key := e]> (edges g)) (idx_insert (iri (subject e)) key (subject_idx g))
     (match object e with Node n => idx_insert (iri n) key (object_idx g) | _ => object_idx g end),
   Ok ()).

Definition delete_edge (e : GraphEdge) : SR Store string unit := λ g,
  let key := from_edge e in
  (mkGraph (delete key (edges g)) (idx_remove (iri (subject e)) key (subject_idx g))
     (match object e with Node n => idx_remove (iri n) key (object_idx g) | _ => object_idx g end),
   Ok ()).

Definition exists_edge (e : GraphEdge) (g : Store) : result string bool :=
  Ok (bool_decide (is_Some (edges g !! from_edge e))).

Section query.
Context `{KeyIter}.

Definition lookup_keys (idx : gmap string (gset TripleKey)) (k : string) (g : Store) : list GraphEdge :=
  match idx !! k with
  | Some keys => omap (λ key, edges g !! key) (key_iter keys)
  | None => []
  end.

Definition outgoing (n : GraphNode) (g : Store) : result string (list GraphEdge) :=
  Ok (lookup_keys (subject_idx g) (iri n) g).
Definition incoming (n : GraphNode) (g : Store) : result string (list GraphEdge) :=
  Ok (lookup_keys (object_idx g) (iri n) g).

(** [visited.insert(iri)] and, when it is new, [next_frontier.push(node)]. *)
Definition visit (n : GraphNode) (st : gset string * list GraphNode) : gset string * list GraphNode :=
  if bool_decide (iri n ∈ st.1) then st else ({[iri n]} ∪ st.1, (st.2 ++ [n])%list).

Definition visit_out (st : gset string * list GraphNode) (e : GraphEdge) :=
  match object e with Node n => visit n st | Literal _ _ => st end.
Definition visit_in (st : gset string * list GraphNode) (e : GraphEdge) := visit (subject e) st.

Definition expand (g : Store) (st : gset string * list GraphNode) (current : GraphNode) :=
  foldl visit_in (foldl visit_out st (lookup_keys (subject_idx g) (iri current) g))
    (lookup_keys (object_idx g) (iri current) g).

Definition hop (g : Store) (st : gset string * list GraphNode) : gset string * list GraphNode :=
  foldl (expand g) (st.1, []) st.2.

Definition reached (n : GraphNode) (hops : nat) (g : Store) : gset string :=
  (Nat.iter hops (hop g) ({[iri n]}, [n])).1.

Definition neighborhood (n : GraphNode) (hops : nat) (g : Store) : result string (list GraphNode) :=
  Ok (GraphNode_new <$> iri_iter (reached n hops g)).

#[export] Instance store : GraphStore :=
  {| GraphState := Store; graph_insert := insert; graph_outgoing := outgoing |}.

End query.
End Graph.

(** ** The brute-force vector store (verisim-vector/src/lib.rs) *)

Module Vector.

Inductive DistanceMetric := Cosine | Euclidean | DotProduct.

Definition dot (a b : list f32) : f32 := f32_sum (zip_with f32_mul a b).

Definition normalize (v : list f32) : list f32 :=
  let norm := f32_sqrt (f32_sum ((λ x, f32_mul x x) <$> v)) in
  if f64_ltb f64_zero norm then (λ x, f32_div x norm) <$> v else v.

Definition similarity (m : DistanceMetric) (a b : list f32) : f32 :=
  match m with
  | Cosine => dot (normalize a) (normalize b)
  | DotProduct => dot a b
  | Euclidean =>
      let dist_sq := f32_sum (zip_with (λ x y, let d := f32_sub x y in f32_mul d d) a b) in
      f32_div (f32_of_u64 1) (f32_add (f32_of_u64 1) (f32_sqrt dist_sq))
  end.

Record Store := mkVectors {
  dimension : nat; metric : DistanceMetric; embeddings : gmap string Embedding }.

Definition new (dim : nat) (m : DistanceMetric) : Store := mkVectors dim m ∅.

Definition mismatch (expected actual : nat) : string :=
  cat ["Dimension mismatch: expected "; fmt_u64 (Z.of_nat expected); ", got "; fmt_u64 (Z.of_nat actual)].

Definition upsert (e : Embedding) : SR Store string unit := λ s,
  if negb (dim e =? dimension s)%nat then (s, Err (mismatch (dimension s) (dim e)))
  else (mkVectors (dimension s) (metric s) (<[emb_id e := e]> (embeddings s)), Ok ()).

(** [b.score.partial_cmp(&a.score).unwrap_or(Equal) == Less]. *)
Definition higher (a b : string * f32) : bool := f64_ltb b.2 a.2.

Definition search `{MapIter} (query : list f32) (k : nat) (s : Store) :
    result string (list (string * f32)) :=
  ensure (length query =? dimension s)%nat else mismatch (dimension s) (length query) ;;
  let scored := (λ p, (p.1, similarity (metric s) query (vector p.2))) <$> map_iter (embeddings s) in
  Ok (take k (sort_by higher scored)).

Definition get (id : string) (s : Store) : result string (option Embedding) := Ok (embeddings s !! id).

Definition delete_id (id : string) : SR Store string unit :=
  sr_modify (λ s, mkVectors (dimension s) (metric s) (delete id (embeddings s))).

#[export] Instance store `{MapIter} : VectorStore :=
  {| VectorState := Store; vector_upsert := upsert; vector_search := search; vector_get := get;
     vector_delete := delete_id |}.

#[export] Instance laws `{MapIter} : VectorLaws store.
Proof.
  split; simpl; unfold upsert, get.
  - intros e s s'. case_match; intros [= <-]. simpl. by rewrite lookup_insert_eq.
  - intros k s s' [= <-]. simpl. by rewrite lookup_delete_eq.
  - intros e k s Hk. case_match; simpl; [done|]. by rewrite lookup_insert_ne.
  - intros k' k s Hk. simpl. by rewrite lookup_delete_ne.
Qed.

End Vector.

(** ** The document store (verisim-document/src/lib.rs)

    The index is tantivy's; the store keeps the documents themselves.  A query is
    parsed, then collected with [TopDocs::with_limit], which panics ([None]) when
    the limit is zero. *)

Class Tantivy := {
  IndexState : Type;
  ParsedQuery : Type;
  index_delete_term : string → IndexState → IndexState;
  index_add : Document → SR IndexState string unit;
  index_commit : SR IndexState string unit;
  parse_query : string → IndexState → result string ParsedQuery;
  search_top : ParsedQuery → nat → IndexState → option (result string (list (string * f32)));
}.

(** The documentation of [TopDocs::with_limit]. *)
Class TantivyLaws (T : Tantivy) := with_limit_zero q i : search_top q 0 i = None.

Module Documents.
Section tantivy.
Context `{Tantivy}.

Record Store := mkDocuments { index_st : IndexState; documents : gmap string Document }.

Definition set_index (i : IndexState) (s : Store) : Store := mkDocuments i (documents s).

Definition index (d : Document) : SR Store string unit :=
  sr_modify (λ s, set_index (index_delete_term (doc_id d) (index_st s)) s);;
  sr_zoom index_st set_index (index_add d);;
  sr_modify (λ s, mkDocuments (index_st s) (<[doc_id d := d]> (documents s))).

Definition commit : SR Store string unit := sr_zoom index_st set_index index_commit.

Definition search (q : string) (limit : nat) (s : Store) : option (result string (list (string * f32))) :=
  match parse_query q (index_st s) with
  | Err e => Some (Err e)
  | Ok parsed => search_top parsed limit (index_st s)
  end.

(** A query that parses panics with a limit of zero. *)
Lemma search_limit_zero `{!TantivyLaws _} q s p :
  parse_query q (index_st s) = Ok p → search q 0 s = None.
Proof. unfold search. intros ->. apply with_limit_zero. Qed.

Definition get (id : string) (s : Store) : result string (option Document) := Ok (documents s !! id).

Definition delete_id (id : string) : SR Store string unit :=
  sr_modify (λ s, mkDocuments (index_delete_term id (index_st s)) (delete id (documents s))).

#[export] Instance store : DocumentStore :=
  {| DocumentState := Store; document_index := index; document_commit := commit;
     document_search := search; document_get := get; document_delete := delete_id |}.

#[export] Instance laws : DocumentLaws store.
Proof.
  split; simpl; unfold get.
  - intros d s s'. unfold index, sr_zoom. sr_unfold. simpl.
    destruct (index_add _ _) as [i [[]|err]]; simpl; [intros [= <-] | done].
    simpl. by rewrite lookup_insert_eq.
  - done.
  - intros k s s' [= <-]. simpl. by rewrite lookup_delete_eq.
  - intros d k s Hk. unfold index, sr_zoom. sr_unfold. simpl.
    destruct (index_add _ _) as [i [[]|err]]; simpl; [by rewrite lookup_insert_ne | done].
  - intros k' k s Hk. simpl. by rewrite lookup_delete_ne.
Qed.

End tantivy.
End Documents.

(** ** The tensor store (verisim-tensor/src/lib.rs) *)

Module Tensors.

Abbreviation Store := (gmap string Tensor).

Definition zeros (id : string) (shape : list Z) : Tensor :=
  mkTensor id shape Float64 (replicate (Z.to_nat (product shape)) f64_zero) ∅.
Definition ones (id : string) (shape : list Z) : Tensor :=
  mkTensor id shape Float64 (replicate (Z.to_nat (product shape)) f64_one) ∅.

Definition put (t : Tensor) : SR Store string unit := sr_modify <[tensor_id t := t]>.
Definition get (id : string) (s : Store) : result string (option Tensor) := Ok (s !! id).
Definition delete_id (id : string) : SR Store string unit := sr_modify (delete id).
Definition list_ids `{MapIter} (s : Store) : result string (list string) := Ok (map_iter s).*1.

(** [map]: the element-wise image, under a new name; the store keeps the original. *)
Definition map_tensor (id : string) (op : f64 → f64) (s : Store) : result TensorError Tensor :=
  t ← ok_or (s !! id) (TensorNotFound id);
  Ok (mkTensor (cat [tensor_id t; "_mapped"]) (shape t) (dtype t) (op <$> tensor_data t)
        (tensor_metadata t)).

(** ndarray's dynamic arrays: [from_shape_vec] in row-major order, the shape,
    the elements in that order, and the reductions of an axis. *)
Class Ndarray := {
  ArrayD : Type;
  from_shape_vec : list Z → list f64 → option ArrayD;
  arr_shape : ArrayD → list Z;
  arr_iter : ArrayD → list f64;
  sum_axis : nat → ArrayD → ArrayD;
  mean_axis : nat → ArrayD → option ArrayD;
  map_axis : nat → (list f64 → f64) → ArrayD → ArrayD;
}.

Inductive ReduceOp := Sum | Mean | Max | Min | Prod.

Section reduce.
Context `{Ndarray}.

(** [None] is a panic, of [expect] here and in what follows. *)
Definition to_ndarray (t : Tensor) : option ArrayD := from_shape_vec (shape t) (tensor_data t).
Definition from_ndarray (id : string) (a : ArrayD) : Tensor := mkTensor id (arr_shape a) Float64 (arr_iter a) ∅.

Definition lane_max (lane : list f64) : f64 := foldl f64_max (f64_neg f64_infinity) lane.
Definition lane_min (lane : list f64) : f64 := foldl f64_min f64_infinity lane.
Definition lane_product (lane : list f64) : f64 := foldl f64_mul f64_one lane.

Definition reduce_axis (op : ReduceOp) (axis : nat) (a : ArrayD) : option ArrayD :=
  match op with
  | Sum => Some (sum_axis axis a)
  | Mean => mean_axis axis a
  | Max => Some (map_axis axis lane_max a)
  | Min => Some (map_axis axis lane_min a)
  | Prod => Some (map_axis axis lane_product a)
  end.

Definition reduce (id : string) (axis : Z) (op : ReduceOp) (s : Store) : option (result TensorError Tensor) :=
  match s !! id with
  | None => Some (Err (TensorNotFound id))
  | Some t =>
      let dims := Z.of_nat (length (shape t)) in
      if dims <=? axis then
        Some (Err (TensorInvalidOperation
          (cat ["Axis "; fmt_u64 axis; " out of bounds for tensor with "; fmt_u64 dims; " dimensions"])))
      else
        arr ← to_ndarray t;
        reduced ← reduce_axis op (Z.to_nat axis) arr;
        Some (Ok (from_ndarray (cat [tensor_id t; "_reduced"]) reduced))
  end.

End reduce.

#[export] Instance store : TensorStore :=
  {| TensorState := Store; tensor_put := put; tensor_get := get; tensor_delete := delete_id |}.

#[export] Instance laws : TensorLaws store.
Proof.
  split; simpl; unfold get.
  - intros t s s' [= <-]. by rewrite lookup_insert_eq.
  - intros k s s' [= <-]. by rewrite lookup_delete_eq.
  - intros t k s Hk. simpl. by rewrite lookup_insert_ne.
  - intros k' k s Hk. simpl. by rewrite lookup_delete_ne.
Qed.

End Tensors.

(** ** The semantic store (verisim-semantic/src/lib.rs) *)

(** [Regex::new(r).ok()] and [is_match]: [None] when [r] does not compile. *)
Class Regex := regex_match : string → string → option bool.

Module Semantics.

Inductive ConstraintKind :=
  | Required (prop : string)
  | Pattern (property regex : string)
  | Range (property : string) (min max : option Z)
  | CustomConstraint (name : string).

Record Constraint_ := mkConstraint { con_name : string; kind : ConstraintKind; con_message : string }.

Record SemanticType := mkSemanticType {
  type_iri : string; label : string; supertypes : list string; constraints : list Constraint_ }.

Definition SemanticType_new (iri label : string) : SemanticType := mkSemanticType iri label [] [].
Definition with_supertype (t : string) (ty : SemanticType) : SemanticType :=
  mkSemanticType (type_iri ty) (label ty) (supertypes ty ++ [t])%list (constraints ty).
Definition with_constraint (c : Constraint_) (ty : SemanticType) : SemanticType :=
  mkSemanticType (type_iri ty) (label ty) (supertypes ty) (constraints ty ++ [c])%list.

Record Store := mkSemantics {
  type_reg : gmap string SemanticType; annotations : gmap string SemanticAnnotation }.

Section regex.
Context `{Regex}.

Definition violation_text (c : Constraint_) : string := cat [con_name c; ": "; con_message c].

(** Does annotation [a] violate constraint [c]? *)
Definition violates (a : SemanticAnnotation) (c : Constraint_) : bool :=
  match kind c with
  | Required prop => negb (bool_decide (is_Some (properties a !! prop)))
  | Pattern property regex =>
      match properties a !! property with
      | Some (TypedLiteral value _) =>
          match regex_match regex value with Some m => negb m | None => false end
      | _ => false
      end
  | _ => false
  end.

Definition check_type (a : SemanticAnnotation) (ty : option SemanticType) : list string :=
  match ty with
  | Some ty => violation_text <$> retain (violates a) (constraints ty)
  | None => []
  end.

Definition validate (a : SemanticAnnotation) (s : Store) : result string (list string) :=
  Ok (mjoin ((λ t, check_type a (type_reg s !! t)) <$> types a)).

Definition register_type (ty : SemanticType) : SR Store string unit :=
  sr_modify (λ s, mkSemantics (<[type_iri ty := ty]> (type_reg s)) (annotations s)).
Definition get_type (iri : string) (s : Store) : result string (option SemanticType) :=
  Ok (type_reg s !! iri).

Definition annotate (a : SemanticAnnotation) : SR Store string unit := λ s,
  match validate a s with
  | Err e => (s, Err e)
  | Ok violations =>
      if negb (bool_decide (violations = [])) then
        (s, Err (cat ["Constraint violation: "; String.concat "; " violations]))
      else (mkSemantics (type_reg s) (<[ann_entity_id a := a]> (annotations s)), Ok ())
  end.

Definition get_annotations (id : string) (s : Store) : result string (option SemanticAnnotation) :=
  Ok (annotations s !! id).

#[export] Instance store : SemanticStore :=
  {| SemanticState := Store; semantic_annotate := annotate; semantic_get := get_annotations |}.

#[export] Instance laws : SemanticLaws store.
Proof.
  split; simpl; unfold annotate, get_annotations; simpl.
  - intros a s s'. case_match; intros [= <-]. simpl. by rewrite lookup_insert_eq.
  - intros a k s Hk. case_match; simpl; [done|]. by rewrite lookup_insert_ne.
Qed.

End regex.
End Semantics.

(** ** The spatial store (verisim-spatial/src/lib.rs) *)

(** The functions of [f64] whose results the platform's library decides. *)
Class Libm := { f64_sin : f64 → f64; f64_cos : f64 → f64; f64_asin : f64 → f64 }.

Module SpatialIndex.

Abbreviation Store := (gmap string SpatialData).

Record BoundingBox := mkBox { min_lat : f64; min_lon : f64; max_lat : f64; max_lon : f64 }.

Record SpatialSearchResult := mkResult {
  res_entity_id : string; res_data : SpatialData; distance_km : f64 }.

Definition PI : f64 := S754_finite false 7074237752028440 (-51).
Definition to_radians (x : f64) : f64 := f64_mul x (f64_div PI (f64_of_u64 180)).
Definition square (x : f64) : f64 := f64_mul x x.
Definition two : f64 := f64_of_u64 2.

Section search.
Context `{Libm} `{FmtF64} `{MapIter}.

Definition haversine_distance (a b : Coordinates) : f64 :=
  let lat1 := to_radians (latitude a) in
  let lat2 := to_radians (latitude b) in
  let dlat := to_radians (f64_sub (latitude b) (latitude a)) in
  let dlon := to_radians (f64_sub (longitude b) (longitude a)) in
  let h := f64_add (square (f64_sin (f64_div dlat two)))
             (f64_mul (f64_mul (f64_cos lat1) (f64_cos lat2)) (square (f64_sin (f64_div dlon two)))) in
  let c := f64_mul two (f64_asin (f64_sqrt h)) in
  f64_mul (f64_of_u64 6371) c.

Definition in_range (c : Coordinates) : bool := valid_latitude (latitude c) && valid_longitude (longitude c).

Definition index (id : string) (d : SpatialData) : SR Store string unit := λ s,
  if negb (in_range (coordinates d)) then
    (s, Err (spatial_error_display (InvalidCoordinates
      (cat ["lat="; fmt_f64 (latitude (coordinates d)); ", lon="; fmt_f64 (longitude (coordinates d));
            " out of WGS84 range"]))))
  else (<[id := d]> s, Ok ()).

Definition get (id : string) (s : Store) : result string (option SpatialData) := Ok (s !! id).
Definition delete_id (id : string) : SR Store string unit := sr_modify (delete id).

(** [a.distance_km.partial_cmp(&b.distance_km).unwrap_or(Equal) == Less]. *)
Definition nearer (a b : SpatialSearchResult) : bool := f64_ltb (distance_km a) (distance_km b).

(** Sort by distance and truncate. *)
Definition ranked (limit : nat) (l : list SpatialSearchResult) : list SpatialSearchResult :=
  take limit (sort_by nearer l).

Definition result_from (center : Coordinates) (p : string * SpatialData) : SpatialSearchResult :=
  mkResult p.1 p.2 (haversine_distance center (coordinates p.2)).

Definition search_radius (center : Coordinates) (radius_km : f64) (limit : nat) (s : Store) :
    result string (list SpatialSearchResult) :=
  Ok (ranked limit (retain (λ r, f64_leb (distance_km r) radius_km) (result_from center <$> map_iter s))).

Definition inside (b : BoundingBox) (c : Coordinates) : bool :=
  f64_geb (latitude c) (min_lat b) && f64_leb (latitude c) (max_lat b) &&
  f64_geb (longitude c) (min_lon b) && f64_leb (longitude c) (max_lon b).

Definition search_within (b : BoundingBox) (limit : nat) (s : Store) :
    result string (list SpatialSearchResult) :=
  let center := mkCoordinates (f64_div (f64_add (min_lat b) (max_lat b)) two)
                  (f64_div (f64_add (min_lon b) (max_lon b)) two) None in
  Ok (ranked limit (result_from center <$> retain (λ p, inside b (coordinates p.2)) (map_iter s))).

Definition nearest (p : Coordinates) (k : nat) (s : Store) : result string (list SpatialSearchResult) :=
  Ok (ranked k (result_from p <$> map_iter s)).

#[export] Instance store : SpatialStore :=
  {| SpatialState := Store; spatial_index := index; spatial_get := get |}.

#[export] Instance laws : SpatialLaws store.
Proof.
  split; simpl; unfold index, get.
  - intros k d s s'. case_match; intros [= <-]. by rewrite lookup_insert_eq.
  - intros k' d k s Hk. case_match; simpl; [done|]. by rewrite lookup_insert_ne.
Qed.

End search.
End SpatialIndex.

(** ** The version store and the provenance store *)

(** Instants ordered by a comparison of chrono's. *)
Class ChronoLeb `{Chrono} := chrono_leb : DateTime → DateTime → bool.

Module Versions.
Section chrono.
Context `{ChronoLeb}.

#[export] Instance time : TimeOrd := {| Instant := DateTime; time_leb := chrono_leb |}.

Definition version_summary (v : Temporal.Version (T:=OctadSnapshot)) : Z * DateTime :=
  (Temporal.version v, v_timestamp v).

Abbreviation Store := (gmap string (VersionMap (T:=OctadSnapshot))).

(** The text of a [TemporalError]. *)
Definition temporal_error_display (e : TemporalError) : string :=
  match e with
  | Temporal.NotFound msg => cat ["Entity not found: "; msg]
  | VersionNotFound entity v => cat ["Version not found: "; entity; " @ "; fmt_u64 v]
  | InvalidTimeRange msg => cat ["Invalid time range: "; msg]
  | TemporalConflict msg => cat ["Conflict: "; msg]
  | LockPoisoned => "Lock poisoned: internal concurrency error"
  end.

Definition history (id : string) (limit : nat) (s : Store) : result string (list (Z * DateTime)) :=
  vs ← map_err temporal_error_display (Temporal.history s id limit); Ok (list_fmap _ _ version_summary vs).

Definition at_time (id : string) (t : DateTime) (s : Store) : result string (option (Z * DateTime)) :=
  v ← map_err temporal_error_display (Temporal.at_time s id t); Ok (option_map version_summary v).

#[export] Instance store : TemporalStore :=
  {| TemporalState := Store;
     temporal_append now k d who msg :=
       sr_map_err temporal_error_display (Temporal.append (T:=OctadSnapshot) now k d who msg);
     temporal_history := history; temporal_at_time := at_time |}.

(** The version numbers of [k] are 1, 2, ..., and not about to wrap. *)
Definition wf (k : string) (s : Store) : Prop :=
  store_ok (default [] (s !! k)) ∧ Z.of_nat (length (default [] (s !! k))) < 2 ^ 64 - 1.

#[export] Instance laws : TemporalLaws store.
Proof.
  refine {| temporal_wf := wf |}.
  - intros now k d who msg s s' v n [Hok Hlen]. simpl. unfold sr_map_err.
    rewrite (append_ok (H:=time) (T:=OctadSnapshot) now k d who msg s Hok Hlen). simpl. intros [= <- <-].
    unfold history, Temporal.history, values. simpl. rewrite lookup_insert_eq. simpl.
    by rewrite fmap_app; cbn [fmap list_fmap]; rewrite reverse_snoc.
  - intros now k' d who msg k n s Hk. simpl. unfold sr_map_err, history, Temporal.history, values.
    simpl. unfold Temporal.append. simpl. by rewrite lookup_insert_ne.
Defined.

End chrono.
End Versions.

Module Lineage.
Section chrono.
Context `{C : Chrono} (rfc : DateTime → string) (obj : list (string * json) → string)
  (sha : list byte → string).

#[local] Instance env : ProvenanceEnv :=
  {| Provenance.DateTime := DateTime; Provenance.to_rfc3339 := rfc; json_object := obj;
     sha256_hex := sha |}.

(** The text of a [ProvenanceError]. *)
Definition provenance_error_display (e : ProvenanceError) : string :=
  match e with
  | Provenance.NotFound entity => cat ["Provenance chain not found for entity: "; entity]
  | ChainCorrupted entity reason => cat ["Provenance chain corrupted for entity "; entity; ": "; reason]
  | HashMismatch entity index =>
      cat ["Hash mismatch at index "; fmt_u64 (Z.of_nat index); " for entity "; entity]
  | IoError msg => cat ["Provenance I/O error: "; msg]
  end.

Definition record (now : DateTime) (k : string) (ev : ProvenanceEventType) (who : string)
    (src : option string) (descr : string) : SR (gmap string ProvenanceChain) string unit :=
  sr_map_err provenance_error_display (record_event now k ev who src descr);; mret ().

Definition chain_length (k : string) (s : gmap string ProvenanceChain) : result string nat :=
  c ← map_err provenance_error_display (get_chain s k); Ok (chain_len c).

Definition store : ProvenanceStore :=
  {| ProvenanceState := gmap string ProvenanceChain; provenance_record := record;
     provenance_chain_len := chain_length |}.

Lemma laws : ProvenanceStoreLaws store.
Proof.
  split; simpl.
  - intros now k ev who src descr s s'. unfold record, sr_map_err, record_event. sr_unfold. simpl.
    intros [= <-]. unfold chain_length, get_chain. rewrite lookup_insert_eq. simpl.
    unfold chain_len, chain_append. simpl. rewrite length_app.
    destruct (s !! k); simpl; f_equal; lia.
  - intros now k' ev who src descr k s Hk. unfold record, sr_map_err, record_event, chain_length, get_chain.
    sr_unfold. simpl. by rewrite lookup_insert_ne.
Qed.

End chrono.
End Lineage.
