(* ===== verification/OctadStore.v ===== *)
(** The octad store (verisim-octad/src/store.rs): one entity in eight modality
    stores, written under transaction locks and logged to the write-ahead log.

    The state is the registry of statuses, the transaction manager of
    [Transaction], the optional log writer of [WalWriter] and the modality
    stores of [Modalities].  What a call reads from its environment (clock,
    fresh identifiers, outcomes of system calls) is its first argument. *)

From S2P Require Import Prelude Machine Text Float64 LockTable Transaction Provenance WalEntry WalSegment WalReader WalWriter OctadTypes Modalities.

Local Open Scope string_scope.
Local Open Scope Z_scope.

(** ** External code *)

(** Text of identifiers, numbers, times and decoding errors; Unicode lower
    case; serde_json's encoding of an input ([None] on an error). *)
Class OctadEnv `{Chrono} := {
  uuid_display : Uuid → string;
  octad_fmt_f64 :: FmtF64;
  to_rfc3339 : DateTime → string;
  utf8_error_display : list byte → string;
  to_lowercase : string → string;
  to_vec : OctadInput → option (list byte);
  from_slice : list byte → option OctadInput;
}.

Section errors.
Context `{OctadEnv}.

(** [Display for TransactionError]. *)
Definition state_debug (st : TransactionState) : string :=
  match st with Active => "Active" | Committed => "Committed" | RolledBack => "RolledBack" end.

Definition txn_error_display (e : TransactionError) : string :=
  match e with
  | InvalidState tid current expected =>
      cat ["Transaction "; uuid_display tid; ": state is "; state_debug current; ", expected "; expected]
  | LockConflict entity m held_by =>
      cat ["Lock conflict on "; entity; "/"; m; " held by "; uuid_display held_by]
  | DeadlockDetected tid cycle =>
      cat ["Deadlock detected for "; uuid_display tid; ": cycle "; debug_list uuid_display cycle]
  | TransactionNotFound tid => cat ["Transaction not found: "; uuid_display tid]
  | LockTable.InvalidModality m => cat ["Invalid modality: "; m]
  | VersionConflict entity expected actual =>
      cat ["Version conflict on "; entity; ": expected v"; fmt_u64 expected; ", found v"; fmt_u64 actual]
  end.

(** [Display for WalError], as derived by thiserror. *)
Definition wal_error_display (e : WalError) : string :=
  match e with
  | Io msg => cat ["WAL I/O error: "; msg]
  | CrcMismatch sequence expected actual =>
      cat ["CRC mismatch at sequence "; fmt_u64 sequence; ": expected "; fmt_hex32 expected;
           ", got "; fmt_hex32 actual]
  | EntryTooLarge sequence length max_length =>
      cat ["Entry at sequence "; fmt_u64 sequence; " declares length "; fmt_u64 length;
           " bytes, exceeding maximum "; fmt_u64 max_length]
  | InvalidOperation b => cat ["Invalid operation byte: "; fmt_u64 b]
  | WalEntry.InvalidModality b => cat ["Invalid modality byte: "; fmt_u64 b]
  | TruncatedEntry offset segment =>
      cat ["Truncated entry at offset "; fmt_u64 offset; " in segment "; segment]
  | Json msg => cat ["JSON error in WAL payload: "; msg]
  | InvalidEntityId raw => cat ["Invalid UTF-8 in entity ID: "; utf8_error_display raw]
  | DirectoryNotFound dir => cat ["WAL directory not found or inaccessible: "; dir]
  | UnexpectedEof offset => cat ["Unexpected end of segment at offset "; fmt_u64 offset]
  end.

End errors.

(** ** State *)

Record OctadConfig := mkConfig {
  base_iri : string; vector_dimension : nat; require_complete : bool }.

Definition config_default : OctadConfig := mkConfig "https://verisim.db/entity" 384 false.

(** What one call reads from outside.  Readings are named by the place in the
    code that takes them, so that nothing relates one to another. *)
Record Call `{Chrono} := mkCall {
  clock : string → DateTime;
  new_octad : string;
  new_txn : Uuid;
  io : string → Sys;
}.

Section store.
Context `{C : Chrono} `{K : Crc32} `{R : ReadDir} `{SetIter} `{!OctadEnv} `{M : !Modalities}.
Context (config : OctadConfig).

Record OctadStore := mkStore {
  octads : gmap string OctadStatus;
  txns : TransactionManager DateTime;
  wal : option World;
  graph_st : GraphState;
  vector_st : VectorState;
  document_st : DocumentState;
  tensor_st : TensorState;
  semantic_st : SemanticState;
  temporal_st : TemporalState;
  provenance_st : ProvenanceState;
  spatial_st : SpatialState;
}.

Abbreviation OM := (SR OctadStore OctadError).

Definition set_octads (f : gmap string OctadStatus → gmap string OctadStatus) (s : OctadStore) :=
  mkStore (f (octads s)) (txns s) (wal s) (graph_st s) (vector_st s) (document_st s) (tensor_st s)
    (semantic_st s) (temporal_st s) (provenance_st s) (spatial_st s).
Definition set_txn (t : TransactionManager DateTime) (s : OctadStore) :=
  mkStore (octads s) t (wal s) (graph_st s) (vector_st s) (document_st s) (tensor_st s)
    (semantic_st s) (temporal_st s) (provenance_st s) (spatial_st s).
Definition set_wal (w : option World) (s : OctadStore) :=
  mkStore (octads s) (txns s) w (graph_st s) (vector_st s) (document_st s) (tensor_st s)
    (semantic_st s) (temporal_st s) (provenance_st s) (spatial_st s).
Definition set_graph (x : GraphState) (s : OctadStore) :=
  mkStore (octads s) (txns s) (wal s) x (vector_st s) (document_st s) (tensor_st s)
    (semantic_st s) (temporal_st s) (provenance_st s) (spatial_st s).
Definition set_vector (x : VectorState) (s : OctadStore) :=
  mkStore (octads s) (txns s) (wal s) (graph_st s) x (document_st s) (tensor_st s)
    (semantic_st s) (temporal_st s) (provenance_st s) (spatial_st s).
Definition set_document (x : DocumentState) (s : OctadStore) :=
  mkStore (octads s) (txns s) (wal s) (graph_st s) (vector_st s) x (tensor_st s)
    (semantic_st s) (temporal_st s) (provenance_st s) (spatial_st s).
Definition set_tensor (x : TensorState) (s : OctadStore) :=
  mkStore (octads s) (txns s) (wal s) (graph_st s) (vector_st s) (document_st s) x
    (semantic_st s) (temporal_st s) (provenance_st s) (spatial_st s).
Definition set_semantic (x : SemanticState) (s : OctadStore) :=
  mkStore (octads s) (txns s) (wal s) (graph_st s) (vector_st s) (document_st s) (tensor_st s)
    x (temporal_st s) (provenance_st s) (spatial_st s).
Definition set_temporal (x : TemporalState) (s : OctadStore) :=
  mkStore (octads s) (txns s) (wal s) (graph_st s) (vector_st s) (document_st s) (tensor_st s)
    (semantic_st s) x (provenance_st s) (spatial_st s).
Definition set_provenance (x : ProvenanceState) (s : OctadStore) :=
  mkStore (octads s) (txns s) (wal s) (graph_st s) (vector_st s) (document_st s) (tensor_st s)
    (semantic_st s) (temporal_st s) x (spatial_st s).
Definition set_spatial (x : SpatialState) (s : OctadStore) :=
  mkStore (octads s) (txns s) (wal s) (graph_st s) (vector_st s) (document_st s) (tensor_st s)
    (semantic_st s) (temporal_st s) (provenance_st s) x.

(** [InMemoryOctadStore::new], on given modality stores, and [with_wal]. *)
Definition new (g : GraphState) (v : VectorState) (d : DocumentState) (t : TensorState)
    (sem : SemanticState) (tm : TemporalState) (p : ProvenanceState) (l : SpatialState) : OctadStore :=
  mkStore ∅ TransactionManager_new None g v d t sem tm p l.

Definition with_wal (t : Z) (wal_dir : string) (d : option (gmap string file)) (mode : SyncMode)
    (s : OctadStore) : result OctadError OctadStore :=
  match open t wal_dir d mode with
  | Ok w => Ok (set_wal (Some w) s)
  | Err e => Err (ModalityError "wal" (cat ["Failed to open WAL: "; wal_error_display e]))
  end.

(** ** Calls of the other components *)

Definition modality_op {T A} (name : string) (get : OctadStore → T) (put : T → OctadStore → OctadStore)
    (m : SR T string A) : OM A :=
  sr_map_err (ModalityError name) (sr_zoom get put m).

Definition txn_op {A} (m : SR (TransactionManager DateTime) TransactionError A) :
    SR OctadStore TransactionError A := sr_zoom txns set_txn m.

Definition begin_txn (c : Call) : OM Uuid :=
  sr_modify (λ s, set_txn (begin (new_txn c) (clock c "begin") ReadCommitted (txns s)).1 s);;
  mret (new_txn c).

Definition rollback_txn (c : Call) (T : Uuid) : OM unit :=
  sr_ok (txn_op (rollback (clock c "rollback") T)).

(** ** The log *)

Definition pending_entry (c : Call) (label : string) (op : WalOperation) (entity : string)
    (payload : list byte) : WalEntry :=
  mkWalEntry 0 (clock c label) op All entity payload.

Definition wal_append (c : Call) (label : string) (op : WalOperation) (entity : string)
    (payload : list byte) : OM unit := λ s,
  match wal s with
  | None => (s, Ok ())
  | Some w =>
      let '(w, r) := append (io c label) (pending_entry c label op entity payload) w in
      (set_wal (Some w) s,
       match r with
       | Ok _ => Ok ()
       | Err e => Err (ModalityError "wal" (cat ["WAL append failed: "; wal_error_display e]))
       end)
  end.

Definition wal_checkpoint (c : Call) : OM unit := λ s,
  match wal s with
  | None => (s, Ok ())
  | Some w =>
      let '(w, r) := checkpoint (io c "checkpoint") (clock c "checkpoint") w in
      (set_wal (Some w) s,
       match r with
       | Ok _ => Ok ()
       | Err e => Err (ModalityError "wal" (cat ["WAL checkpoint failed: "; wal_error_display e]))
       end)
  end.

Definition COMMITTED : list byte := as_bytes "COMMITTED".

(** The marker and the checkpoint that end every operation; both [.ok()]. *)
Definition wal_committed (c : Call) (entity : string) : OM unit :=
  sr_ok (wal_append c "committed" Checkpoint entity COMMITTED : OM unit);;
  sr_ok (wal_checkpoint c : OM unit).

Definition graceful_shutdown (c : Call) : OM unit := wal_checkpoint c.

(** ** The modalities of one entity *)

Fixpoint insert_edges (node : GraphNode) (rels : list (string * string)) : OM unit :=
  match rels with
  | [] => mret ()
  | (pred, target_id) :: rels =>
      let edge := mkEdge node (GraphNode_new (cat [base_iri config; "/"; pred]))
                    (Node (GraphNode_new (cat [base_iri config; "/"; target_id]))) in
      modality_op "graph" graph_st set_graph (graph_insert edge);;
      insert_edges node rels
  end.

Definition process_graph (id : string) (i : OctadGraphInput) : OM GraphNode :=
  let node := GraphNode_new (to_iri id (base_iri config)) in
  insert_edges node (relationships i);; mret node.

Definition process_vector (id : string) (i : OctadVectorInput) : OM Embedding :=
  let len := length (embedding i) in
  if negb (len =? vector_dimension config)%nat then
    sr_fail (ValidationError (cat ["Vector dimension mismatch: expected ";
      fmt_u64 (Z.of_nat (vector_dimension config)); ", got "; fmt_u64 (Z.of_nat len)]))
  else
    let e := Embedding_new id (embedding i) in
    modality_op "vector" vector_st set_vector (vector_upsert e);; mret e.

(** The fields are added in the map's iteration order. *)
Definition process_document (id : string) (i : OctadDocumentInput) : OM Document :=
  let doc := foldl (λ doc p, with_field p.1 p.2 doc) (Document_new id (in_title i) (in_body i))
               (map_to_list (in_fields i)) in
  modality_op "document" document_st set_document (document_index doc);;
  modality_op "document" document_st set_document document_commit;;
  mret doc.

Definition process_tensor (id : string) (i : OctadTensorInput) : OM Tensor :=
  match Tensor_new id (in_shape i) (in_data i) with
  | Err e => sr_fail (ModalityError "tensor" (tensor_error_display e))
  | Ok t => modality_op "tensor" tensor_st set_tensor (tensor_put t);; mret t
  end.

Definition process_semantic (c : Call) (id : string) (i : OctadSemanticInput) : OM SemanticAnnotation :=
  let typed v := TypedLiteral v "https://www.w3.org/2001/XMLSchema#string" in
  let props := foldl (λ m p, <[p.1 := typed p.2]> m) ∅ (map_to_list (in_properties i)) in
  let ann := mkAnnotation id (in_types i) props (SemProvenance_default (to_rfc3339 (clock c "semantic"))) in
  modality_op "semantic" semantic_st set_semantic (semantic_annotate ann);; mret ann.

Definition event_type_of (name : string) : ProvenanceEventType :=
  let lower := to_lowercase name in
  if String.eqb lower "created" then Created
  else if String.eqb lower "modified" then Modified
  else if String.eqb lower "imported" then Imported
  else if String.eqb lower "normalized" then Normalized
  else if String.eqb lower "drift_repaired" then DriftRepaired
  else if String.eqb lower "deleted" then Deleted
  else if String.eqb lower "merged" then Merged
  else Custom lower.

Definition process_provenance (c : Call) (id : string) (i : OctadProvenanceInput) : OM Z :=
  modality_op "provenance" provenance_st set_provenance
    (provenance_record (clock c "provenance") id (event_type_of (event_type i)) (actor i) (source i)
       (description i));;
  len ← sr_read (λ s, map_err (ModalityError "provenance") (provenance_chain_len id (provenance_st s)));
  mret (Z.of_nat len).

Definition geometry_of (name : option string) : GeometryType :=
  match name with
  | Some n =>
      if String.eqb n "LineString" then LineString
      else if String.eqb n "Polygon" then Polygon
      else if String.eqb n "MultiPoint" then MultiPoint
      else if String.eqb n "MultiPolygon" then MultiPolygon
      else Point
  | None => Point
  end.

Definition process_spatial (id : string) (i : OctadSpatialInput) : OM SpatialData :=
  match Coordinates_new (in_latitude i) (in_longitude i) (in_altitude i) with
  | Err e => sr_fail (ValidationError (spatial_error_display e))
  | Ok coords =>
      let d := with_geometry coords (geometry_of (in_geometry_type i)) (default 4326 (in_srid i)) in
      let d := mkSpatialData (coordinates d) (geometry_type d) (srid d) (in_sp_properties i) in
      modality_op "spatial" spatial_st set_spatial (spatial_index id d);; mret d
  end.

(** Compensation of a failed [create]: three of the modalities, each [.ok()]. *)
Definition rollback_create (id : string) (written : ModalityStatus) : OM unit :=
  sr_when (vec written) (sr_ok (modality_op "vector" vector_st set_vector (vector_delete id) : OM unit));;
  sr_when (document written)
    (sr_ok (modality_op "document" document_st set_document (document_delete id) : OM unit));;
  sr_when (tensor written) (sr_ok (modality_op "tensor" tensor_st set_tensor (tensor_delete id) : OM unit)).

(** ** The steps that [create] and [update] share *)

Definition present {A} (o : option A) : bool := match o with Some _ => true | None => false end.

(** The names whose flag is set, in the order of the code's array. *)
Definition flagged (l : list (bool * string)) : list string := snd <$> retain fst l.

Definition modality_names (i : OctadInput) : list string :=
  flagged [(present (in_graph i), "graph"); (present (in_vector i), "vector");
           (present (in_document i), "document"); (present (in_tensor i), "tensor");
           (present (in_semantic i), "semantic"); (present (in_provenance i), "provenance");
           (present (in_spatial i), "spatial"); (true, "temporal")].

(** Lock every modality, or roll back and report the first refusal. *)
Fixpoint lock_all (c : Call) (T : Uuid) (entity suffix : string) (ms : list string) : OM unit :=
  match ms with
  | [] => mret ()
  | m :: ms => λ s,
      match txn_op (acquire_lock T entity m Exclusive) s with
      | (s, Ok _) => lock_all c T entity suffix ms s
      | (s, Err e) =>
          (rollback_txn c T;;
           sr_fail (ConsistencyViolation
             (cat ["Failed to acquire lock on "; m; suffix; ": "; txn_error_display e]))) s
      end
  end.

Definition set_flag (m : string) (ms : ModalityStatus) : ModalityStatus :=
  let on (name : string) (b : bool) := if String.eqb m name then true else b in
  mkMS (on "graph" (graph ms)) (on "vector" (vec ms)) (on "tensor" (tensor ms))
    (on "semantic" (semantic ms)) (on "document" (document ms)) (on "temporal" (temporal ms))
    (on "provenance" (provenance ms)) (on "spatial" (spatial ms)).

(** One modality: nothing to do, or process it and record an undo entry, or
    clean up, roll back and return the error. *)
Definition write_modality {I A} (cleanup : ModalityStatus → OM unit) (c : Call) (T : Uuid)
    (entity m : string) (ver : Z) (input : option I) (process : I → OM A) (ms : ModalityStatus) :
    OM (option A * ModalityStatus) :=
  match input with
  | None => mret (None, ms)
  | Some i => λ s,
      match process i s with
      | (s, Ok a) =>
          (sr_ok (txn_op (record_undo (clock c (cat ["undo "; m])) T entity m None ver));;
           mret (Some a, set_flag m ms)) s
      | (s, Err e) => (cleanup ms;; rollback_txn c T;; sr_fail e) s
      end
  end.

Record Written := mkWritten {
  w_graph : option GraphNode; w_vector : option Embedding; w_document : option Document;
  w_tensor : option Tensor; w_semantic : option SemanticAnnotation; w_provenance : Z;
  w_spatial : option SpatialData }.

Definition write_all_modalities (cleanup : ModalityStatus → OM unit) (c : Call) (T : Uuid)
    (id : string) (ver : Z) (i : OctadInput) (ms : ModalityStatus) : OM (Written * ModalityStatus) :=
  '(g, ms) ← write_modality cleanup c T id "graph" ver (in_graph i) (process_graph id) ms;
  '(v, ms) ← write_modality cleanup c T id "vector" ver (in_vector i) (process_vector id) ms;
  '(d, ms) ← write_modality cleanup c T id "document" ver (in_document i) (process_document id) ms;
  '(t, ms) ← write_modality cleanup c T id "tensor" ver (in_tensor i) (process_tensor id) ms;
  '(sem, ms) ← write_modality cleanup c T id "semantic" ver (in_semantic i) (process_semantic c id) ms;
  '(p, ms) ← write_modality cleanup c T id "provenance" ver (in_provenance i) (process_provenance c id) ms;
  '(l, ms) ← write_modality cleanup c T id "spatial" ver (in_spatial i) (process_spatial id) ms;
  mret (mkWritten g v d t sem (default 0 p) l, ms).

Definition create_snapshot (c : Call) (id : string) (i : OctadInput) (ms : ModalityStatus) : OctadSnapshot :=
  mkSnapshot id i ms (clock c "snapshot").

(** The version snapshot, with the same compensation on failure. *)
Definition write_version (cleanup : ModalityStatus → OM unit) (c : Call) (T : Uuid) (id msg : string)
    (i : OctadInput) (ms : ModalityStatus) : OM Z := λ s,
  match modality_op "temporal" temporal_st set_temporal
          (temporal_append (clock c "temporal") id (create_snapshot c id i ms) "system" (Some msg)) s with
  | (s, Ok v) => (s, Ok v)
  | (s, Err e) => (cleanup ms;; rollback_txn c T;; sr_fail e) s
  end.

Definition commit_txn (cleanup : OM unit) (c : Call) (T : Uuid) (during : string) : OM unit := λ s,
  match txn_op (commit (clock c "commit") T) s with
  | (s, Ok _) => (s, Ok ())
  | (s, Err e) =>
      (cleanup;;
       sr_fail (ConsistencyViolation
         (cat ["Transaction commit failed"; during; ": "; txn_error_display e]))) s
  end.

Definition no_cleanup (ms : ModalityStatus) : OM unit := mret ().

Definition octad_of (id : string) (st : OctadStatus) (w : Written) (count : Z) : Octad :=
  mkOctad id st (w_graph w) (w_vector w) (w_tensor w) (w_semantic w) (w_document w) count
    (w_provenance w) (w_spatial w).

(** ** Operations *)

Definition create (c : Call) (input : OctadInput) : OM Octad :=
  let id := new_octad c in
  let now := clock c "now" in
  wal_append c "pending" Insert id (default [] (to_vec input));;
  T ← begin_txn c;
  lock_all c T id "" (modality_names input);;
  '(w, ms) ← write_all_modalities (rollback_create id) c T id 0 input ms_default;
  ver ← write_version (rollback_create id) c T id "Initial creation" input ms;
  let ms := set_flag "temporal" ms in
  commit_txn (rollback_create id ms) c T "";;
  let st := mkStatus id now now (in_observed_at <$> in_temporal input) ver ms in
  sr_modify (set_octads <[id := st]>);;
  wal_committed c id;;
  mret (octad_of id st w 1).

(** [update] first reads the status, releasing the registry, then runs with it. *)
Definition update_with (existing : OctadStatus) (c : Call) (id : string) (input : OctadInput) : OM Octad :=
  let now := clock c "now" in
  wal_append c "pending" Update id (default [] (to_vec input));;
  T ← begin_txn c;
  lock_all c T id "" (modality_names input);;
  '(w, ms) ← write_all_modalities no_cleanup c T id (version existing) input (modality_status existing);
  ver ← write_version no_cleanup c T id "Update" input ms;
  commit_txn (mret ()) c T "";;
  let observed := match in_observed_at <$> in_temporal input with
                  | Some t => Some t | None => observed_at existing end in
  let st := mkStatus id (created_at existing) now observed ver ms in
  sr_modify (set_octads <[id := st]>);;
  wal_committed c id;;
  mret (octad_of id st w ver).

Definition find_existing (id : string) : OM OctadStatus :=
  sr_read (λ s, ok_or (octads s !! id) (NotFound id)).

Definition update (c : Call) (id : string) (input : OctadInput) : OM Octad :=
  existing ← find_existing id; update_with existing c id input.

Definition populated (ms : ModalityStatus) : list string :=
  flagged [(graph ms, "graph"); (vec ms, "vector"); (document ms, "document"); (tensor ms, "tensor");
           (semantic ms, "semantic"); (provenance ms, "provenance"); (spatial ms, "spatial");
           (true, "temporal")].

Fixpoint undo_all (c : Call) (T : Uuid) (entity : string) (ver : Z) (ms : list string) : OM unit :=
  match ms with
  | [] => mret ()
  | m :: ms =>
      sr_ok (txn_op (record_undo (clock c (cat ["undo "; m])) T entity m None ver));;
      undo_all c T entity ver ms
  end.

Definition delete_with (existing : OctadStatus) (c : Call) (id : string) : OM unit :=
  wal_append c "pending" Delete id [];;
  T ← begin_txn c;
  let names := populated (modality_status existing) in
  lock_all c T id " for delete" names;;
  undo_all c T id (version existing) names;;
  sr_ok (modality_op "vector" vector_st set_vector (vector_delete id) : OM unit);;
  sr_ok (modality_op "document" document_st set_document (document_delete id) : OM unit);;
  sr_ok (modality_op "tensor" tensor_st set_tensor (tensor_delete id) : OM unit);;
  commit_txn (mret ()) c T " during delete";;
  sr_modify (set_octads (delete id));;
  wal_committed c id.

Definition delete_octad (c : Call) (id : string) : OM unit :=
  existing ← find_existing id; delete_with existing c id.

(** ** Queries *)

Definition when_flag {A} (b : bool) (r : result OctadError (option A)) : result OctadError (option A) :=
  if b then r else Ok None.

Definition load_octad (id : string) (s : OctadStore) : result OctadError (option Octad) :=
  match octads s !! id with
  | None => Ok None
  | Some st =>
      let ms := modality_status st in
      let node := if graph ms then Some (GraphNode_new (to_iri id (base_iri config))) else None in
      emb ← when_flag (vec ms) (map_err (ModalityError "vector") (vector_get id (vector_st s)));
      doc ← when_flag (document ms) (map_err (ModalityError "document") (document_get id (document_st s)));
      ten ← when_flag (tensor ms) (map_err (ModalityError "tensor") (tensor_get id (tensor_st s)));
      sem ← when_flag (semantic ms) (map_err (ModalityError "semantic") (semantic_get id (semantic_st s)));
      let versions := match temporal_history id 1000 (temporal_st s) with
                      | Ok h => Z.of_nat (length h) | Err _ => 0 end in
      let chain := if provenance ms then
                     match provenance_chain_len id (provenance_st s) with
                     | Ok n => Z.of_nat n | Err _ => 0 end
                   else 0 in
      sp ← when_flag (spatial ms) (map_err (ModalityError "spatial") (spatial_get id (spatial_st s)));
      Ok (Some (mkOctad id st node emb ten sem doc versions chain sp))
  end.

Definition get (id : string) (s : OctadStore) : result OctadError (option Octad) := load_octad id s.

Definition get_status (id : string) (s : OctadStore) : result OctadError (option OctadStatus) :=
  Ok (octads s !! id).

(** The loop that loads the entities of a result, skipping those that are gone. *)
Fixpoint load_all (ids : list string) (s : OctadStore) : result OctadError (list Octad) :=
  match ids with
  | [] => Ok []
  | id :: ids =>
      o ← load_octad id s;
      rest ← load_all ids s;
      Ok (match o with Some o => o :: rest | None => rest end)
  end.

Definition search_similar (q : list f32) (k : nat) (s : OctadStore) : result OctadError (list Octad) :=
  results ← map_err (ModalityError "vector") (vector_search q k (vector_st s));
  load_all results.*1 s.

(** [None]: the search of the document store panics. *)
Definition search_text (q : string) (limit : nat) (s : OctadStore) : option (result OctadError (list Octad)) :=
  answer ← document_search q limit (document_st s);
  Some (results ← map_err (ModalityError "document") answer;
        load_all results.*1 s).

(** The entity an edge with predicate [p] points to. *)
Definition related_target (p : string) (e : GraphEdge) : option string :=
  if String.eqb (iri (predicate e)) p then
    match object e with
    | Node target => Some (default (iri target) (strip_prefix (cat [base_iri config; "/"]) (iri target)))
    | Literal _ _ => None
    end
  else None.

Definition query_related (id pred : string) (s : OctadStore) : result OctadError (list Octad) :=
  let node := GraphNode_new (to_iri id (base_iri config)) in
  edges ← map_err (ModalityError "graph") (graph_outgoing node (graph_st s));
  load_all (omap (related_target (cat [base_iri config; "/"; pred])) edges) s.

(** [order]: the iteration order of the registry's keys. *)
Definition list_octads (order : gmap string OctadStatus → list string) (limit offset : nat)
    (s : OctadStore) : result OctadError (list Octad) :=
  load_all (take limit (drop offset (order (octads s)))) s.

(** The current state under the number and time of an older version. *)
Definition as_version (ver : Z) (time : DateTime) (o : option Octad) : option Octad :=
  h ← o;
  let st := status h in
  Some (mkOctad (oc_id h)
    (mkStatus (st_id st) (created_at st) time (observed_at st) ver (modality_status st))
    (graph_node h) (oc_embedding h) (oc_tensor h) (oc_semantic h) (oc_document h)
    (version_count h) (provenance_chain_length h) (spatial_data h)).

Definition at_time (id : string) (t : DateTime) (s : OctadStore) : result OctadError (option Octad) :=
  v ← map_err (ModalityError "temporal") (temporal_at_time id t (temporal_st s));
  match v with
  | None => Ok None
  | Some (ver, time) => o ← load_octad id s; Ok (as_version ver time o)
  end.

(** ** Recovery *)

(** What the scan of the log collects: the entities with a commit marker, those
    without one, and the last operation of each. *)
Record Recovered := mkRecovered {
  committed : gset string;
  uncommitted : gset string;
  entity_ops : gmap string (WalOperation * list byte);
}.

Definition recovered_empty : Recovered := mkRecovered ∅ ∅ ∅.

Definition scan_entry (r : Recovered) (e : WalEntry) : Recovered :=
  match operation e with
  | Checkpoint =>
      if bool_decide (payload e = COMMITTED)
      then mkRecovered ({[entity_id e]} ∪ committed r) (uncommitted r ∖ {[entity_id e]}) (entity_ops r)
      else r
  | op =>
      mkRecovered (committed r)
        (if bool_decide (entity_id e ∈ committed r) then uncommitted r
         else {[entity_id e]} ∪ uncommitted r)
        (<[entity_id e := (op, payload e)]> (entity_ops r))
  end.

Definition input_status (i : OctadInput) : ModalityStatus :=
  mkMS (present (in_graph i)) (present (in_vector i)) (present (in_tensor i)) (present (in_semantic i))
    (present (in_document i)) true (present (in_provenance i)) (present (in_spatial i)).

(** One committed entity; [now] is the clock when it is reached. *)
Definition recover_entity (now : string → DateTime) (ops : gmap string (WalOperation * list byte))
    (acc : gmap string OctadStatus * nat) (id : string) : gmap string OctadStatus * nat :=
  let '(reg, recovered) := acc in
  match ops !! id with
  | Some (Insert, pl) | Some (Update, pl) =>
      match from_slice pl with
      | Some i =>
          let ver := match reg !! id with Some st => wrap 64 (version st + 1) | None => 1 end in
          (<[id := mkStatus id (now id) (now id) (in_observed_at <$> in_temporal i) ver
                     (input_status i)]> reg, S recovered)
      | None => (reg, recovered)
      end
  | Some (Delete, _) => (delete id reg, S recovered)
  | Some (Checkpoint, _) | None => (reg, recovered)
  end.

(** [wal_dir] is the directory of the log, [d] its contents; [order] the
    iteration order of the set of committed entities. *)
Definition replay_wal (c : Call) (now : string → DateTime) (order : gset string → list string)
    (wal_dir : string) (d : option (gmap string file)) : OM nat := λ s,
  match reader_open wal_dir d with
  | Err (DirectoryNotFound _) => (s, Ok 0%nat)
  | Err e => (s, Err (ModalityError "wal" (cat ["Failed to open WAL reader: "; wal_error_display e])))
  | Ok reader =>
      match replay_all (clock c "decode") reader d with
      | Err e => (s, Err (ModalityError "wal" (cat ["WAL replay_from failed: "; wal_error_display e])))
      | Ok it =>
          if bool_decide (entries it = []) then (s, Ok 0%nat)
          else
            let r := foldl scan_entry recovered_empty (entries it) in
            let '(reg, recovered) :=
              foldl (recover_entity now (entity_ops r)) (octads s, 0%nat) (order (committed r)) in
            (sr_ok (wal_checkpoint c : OM unit);; mret recovered) (set_octads (λ _, reg) s)
      end
  end.

End store.

Arguments OctadStore {C} M.
