(* ===== verification/OctadLemmas.v ===== *)
(** What each step of an octad operation leaves alone and what it establishes:
    the registry, the transaction it runs in, and the log.  [OctadOutcomes] and
    [OctadRecovery] assemble these. *)

From S2P Require Import Prelude Machine Text LockTable Transaction TransactionSteps TransactionTheorems Provenance WalEntry WalSegment WalReader WalWriter OctadTypes Modalities OctadStore.

Local Open Scope Z_scope.

(** ** Frames of the steps *)

Section frames.
Context `{C : Chrono} `{K : Crc32} `{SetIter} `{!OctadEnv} `{M : !Modalities}.
Context (config : OctadConfig).
Context {U : Type} (f : OctadStore M → U).

#[export] Instance modality_op_keeps {T A} name (get : OctadStore M → T) put (m : SR T string A) :
  Indep f put → Keeps f (modality_op name get put m).
Proof. intros. unfold modality_op. apply _. Qed.

#[export] Instance rollback_txn_keeps c T : Indep f set_txn → Keeps f (rollback_txn c T).
Proof. intros. unfold rollback_txn, txn_op. apply _. Qed.

#[export] Instance begin_txn_keeps c : Indep f set_txn → Keeps f (begin_txn c).
Proof. intros Hp s. apply Hp. Qed.

#[export] Instance wal_append_keeps c l op e p : Indep f set_wal → Keeps f (wal_append c l op e p).
Proof.
  intros Hp s. unfold wal_append. destruct (wal s) as [w|]; [|done].
  destruct (append _ _ w) as [w' r]. apply Hp.
Qed.

#[export] Instance wal_checkpoint_keeps c : Indep f set_wal → Keeps f (wal_checkpoint c).
Proof.
  intros Hp s. unfold wal_checkpoint. destruct (wal s) as [w|]; [|done].
  destruct (checkpoint _ _ w) as [w' r]. apply Hp.
Qed.

#[export] Instance wal_committed_keeps c e : Indep f set_wal → Keeps f (wal_committed c e).
Proof. intros. unfold wal_committed. apply _. Qed.

#[export] Instance insert_edges_keeps node rels :
  Indep f set_graph → Keeps f (insert_edges config node rels).
Proof. intros Hp. induction rels as [|[p t] rels IH]; simpl; apply _. Qed.

#[export] Instance process_graph_keeps id i : Indep f set_graph → Keeps f (process_graph config id i).
Proof. intros. unfold process_graph. apply _. Qed.
#[export] Instance process_vector_keeps id i : Indep f set_vector → Keeps f (process_vector config id i).
Proof. intros. unfold process_vector. case_match; apply _. Qed.
#[export] Instance process_document_keeps id i : Indep f set_document → Keeps f (process_document id i).
Proof. intros. unfold process_document. apply _. Qed.
#[export] Instance process_tensor_keeps id i : Indep f set_tensor → Keeps f (process_tensor id i).
Proof. intros. unfold process_tensor. case_match; apply _. Qed.
#[export] Instance process_semantic_keeps c id i : Indep f set_semantic → Keeps f (process_semantic c id i).
Proof. intros. unfold process_semantic. apply _. Qed.
#[export] Instance process_provenance_keeps c id i :
  Indep f set_provenance → Keeps f (process_provenance c id i).
Proof. intros. unfold process_provenance. apply _. Qed.
#[export] Instance process_spatial_keeps id i : Indep f set_spatial → Keeps f (process_spatial id i).
Proof. intros. unfold process_spatial. case_match; apply _. Qed.

#[export] Instance rollback_create_keeps id ms :
  Indep f set_vector → Indep f set_document → Indep f set_tensor → Keeps f (rollback_create id ms).
Proof. intros. unfold rollback_create. apply _. Qed.
#[export] Instance no_cleanup_keeps ms : Keeps f (no_cleanup (M:=M) ms).
Proof. unfold no_cleanup. apply _. Qed.

#[export] Instance lock_all_keeps c T e suffix ms :
  Indep f set_txn → Keeps f (lock_all c T e suffix ms).
Proof.
  intros Hp. induction ms as [|m ms IH]; cbn [lock_all]; [apply _|]. intros s.
  pose proof (keeps_zoom f txns set_txn (acquire_lock T e m Exclusive) Hp s) as Hk.
  unfold txn_op. destruct (sr_zoom _ _ _ s) as [s1 [a|err]]; cbn [fst] in Hk |- *.
  { by rewrite IH. }
  by keeps_step.
Qed.

#[export] Instance undo_all_keeps c T e ver ms : Indep f set_txn → Keeps f (undo_all c T e ver ms).
Proof. intros Hp. induction ms as [|m ms IH]; simpl; unfold txn_op; apply _. Qed.

#[export] Instance write_modality_keeps {I A} cleanup c T e m ver (i : option I)
    (process : I → SR (OctadStore M) OctadError A) ms :
  Indep f set_txn → (∀ ms, Keeps f (cleanup ms)) → (∀ x, Keeps f (process x)) →
  Keeps f (write_modality cleanup c T e m ver i process ms).
Proof.
  intros Hp Hc Hi. unfold write_modality. destruct i as [x|]; [|apply _]. intros s.
  specialize (Hi x s). destruct (process x s) as [s' [a|err]]; cbn [fst] in Hi; rewrite <- Hi.
  - unfold txn_op. by keeps_step.
  - by keeps_step.
Qed.

#[export] Instance write_version_keeps cleanup c T id msg i ms :
  Indep f set_txn → Indep f set_temporal → (∀ ms, Keeps f (cleanup ms)) →
  Keeps f (write_version cleanup c T id msg i ms).
Proof.
  intros Hp Ht Hc s. unfold write_version.
  match goal with |- context [modality_op ?n ?g ?p ?m s] =>
    pose proof (modality_op_keeps n g p m Ht s) as Hk;
    destruct (modality_op n g p m s) as [s' [v|err]]; cbn [fst] in Hk end; [done|].
  by keeps_step.
Qed.

#[export] Instance commit_txn_keeps cleanup c T during :
  Indep f set_txn → Keeps f cleanup → Keeps f (commit_txn cleanup c T during).
Proof.
  intros Hp Hc s. unfold commit_txn.
  pose proof (keeps_zoom f txns set_txn (commit (clock c "commit") T) Hp s) as Hk.
  unfold txn_op. destruct (sr_zoom _ _ _ s) as [s' [a|err]]; cbn [fst] in Hk; [done|].
  by keeps_step.
Qed.

End frames.

(** Nothing but the registry update changes the registry: an instance for
    [write_all_modalities] from those of its parts. *)
Section all_frames.
Context `{C : Chrono} `{K : Crc32} `{SetIter} `{!OctadEnv} `{M : !Modalities}.
Context (config : OctadConfig).

#[export] Instance write_all_keeps_octads cleanup c T id ver i ms :
  (∀ ms, Keeps octads (cleanup ms)) →
  Keeps octads (write_all_modalities config cleanup c T id ver i ms).
Proof.
  intros. unfold write_all_modalities.
  repeat (apply keeps_bind; [apply _ | intros [??]]). apply _.
Qed.

#[export] Instance write_all_keeps_wal cleanup c T id ver i ms :
  (∀ ms, Keeps wal (cleanup ms)) →
  Keeps wal (write_all_modalities config cleanup c T id ver i ms).
Proof.
  intros. unfold write_all_modalities.
  repeat (apply keeps_bind; [apply _ | intros [??]]). apply _.
Qed.

End all_frames.

(** ** The transaction of an operation *)

Section transaction.
Context `{SetIterLaws} {DateTime : Type}.
Implicit Types (s : TransactionManager DateTime) (T : Uuid).

(** [T] is a new identifier. *)
Definition fresh_txn T s : Prop :=
  active_transactions s !! T = None ∧ ∀ k i, i ∈ holders_of (lock_table s) k → holder i ≠ T.

(** [T] runs; apart from it and its locks nothing has changed since [s0]. *)
Record in_txn T s0 s : Prop := mkInTxn {
  it_active : ∃ t, active_transactions s !! T = Some t ∧ state t = Active ∧
                   isolation_level t = ReadCommitted;
  it_locks k : others T (holders_of (lock_table s) k) = holders_of (lock_table s0) k;
  it_others U : U ≠ T → active_transactions s !! U = active_transactions s0 !! U;
  it_versions : version_table s = version_table s0;
}.

(** [T] does not run (any more); who holds what is as in [s0]. *)
Record left_txn T s0 s : Prop := mkLeftTxn {
  lt_ended t : active_transactions s !! T = Some t → state t ≠ Active;
  lt_locks k : holders_of (lock_table s) k = holders_of (lock_table s0) k;
  lt_others U : U ≠ T → active_transactions s !! U = active_transactions s0 !! U;
}.

Lemma begin_in T now s : fresh_txn T s → in_txn T s (begin T now ReadCommitted s).1.
Proof.
  intros [Hn Hk]. split; simpl; [|intros k|intros U HU|done].
  - rewrite lookup_insert_eq. by eexists.
  - apply others_notin, Hk.
  - by rewrite lookup_insert_ne.
Qed.

Lemma fresh_left T s : fresh_txn T s → left_txn T s s.
Proof. intros [Hn Hk]. split; [congruence | done | done]. Qed.

Lemma others_snoc_self T ty hs : others T (others T hs ++ [mkLockInfo T ty]) = others T hs.
Proof.
  unfold others. rewrite retain_app, retain_retain. cbn [retain holder].
  rewrite bool_decide_eq_true_2 by done. simpl. apply app_nil_r.
Qed.

Lemma acquire_others T e m ty lt k :
  others T (holders_of (acquire T e m ty lt).1 k) = others T (holders_of lt k).
Proof.
  unfold acquire. destruct (inspect _ _ _ _); simpl; try done.
  - rewrite holders_of_grant. case_decide as Hk; [|done]. subst k. apply others_snoc_self.
  - by destruct (detect_cycle _ T).
  - rewrite holders_of_grant. case_decide as Hk; [|done]. subst k. apply others_snoc_self.
Qed.

(** Changing the record of [T] without ending it. *)
Lemma alter_in T s0 s f :
  (∀ t, state (f t) = state t ∧ isolation_level (f t) = isolation_level t) →
  in_txn T s0 s → in_txn T s0 (set_txns (alter f T) s).
Proof.
  intros Hf [(t & Ht & Ha & Hi) Hl Ho Hv]. split; simpl; [|done|intros U HU|done].
  - rewrite lookup_alter_eq, Ht. destruct (Hf t) as [Hs Hil]. exists (f t). split_and!; [done|congruence..].
  - rewrite lookup_alter_ne by done. by apply Ho.
Qed.

Lemma set_table_in T s0 s lt :
  (∀ k, others T (holders_of lt k) = others T (holders_of (lock_table s) k)) →
  in_txn T s0 s → in_txn T s0 (set_table (λ _, lt) s).
Proof. intros Hl [Ha Hk Ho Hv]. split; [done| |done|done]. intros k. simpl. by rewrite Hl. Qed.

Lemma acquire_lock_in T s0 s e m ty :
  in_txn T s0 s → in_txn T s0 (acquire_lock T e m ty s).1.
Proof.
  intros Hi. destruct (acquire_lock_cases T e m ty s) as [(err & ->)|(_ & ->)]; [done|].
  pose proof (set_table_in T s0 s (acquire T e m ty (lock_table s)).1
    (acquire_others T e m ty _) Hi) as Hi'.
  destruct (acquire T e m ty (lock_table s)).2; [by apply alter_in | done].
Qed.

Lemma record_undo_in T s0 s now e m data v :
  in_txn T s0 s → in_txn T s0 (record_undo now T e m data v s).1.
Proof.
  intros Hi. destruct (record_undo_cases now T e m data v s) as [(err & ->)|(_ & ->)]; [done|].
  by apply alter_in.
Qed.

(** Ending a running transaction. *)
Lemma finished_left T s0 s st now :
  st ≠ Active → in_txn T s0 s → left_txn T s0 (finished T st now s).
Proof.
  intros Hst [_ Hl Ho Hv]. split; simpl.
  - intros t. rewrite lookup_alter_eq. by destruct (_ !! T); simpl; [intros [= <-]|].
  - intros k. rewrite holders_of_release. apply Hl.
  - intros U HU. rewrite lookup_alter_ne by done. by apply Ho.
Qed.

Lemma rollback_left T s0 s now :
  in_txn T s0 s → left_txn T s0 (rollback now T s).1 ∧
    version_table (rollback now T s).1 = version_table s0.
Proof.
  intros Hi. destruct (it_active _ _ _ Hi) as (t & Ht & Ha & _).
  destruct (rollback_cases now T s) as [(e & _ & Hg)|(t' & _ & _ & ->)].
  - by rewrite (get_active_Some _ _ _ Ht Ha) in Hg.
  - split; [by apply finished_left | apply Hi].
Qed.

(** A transaction that reads committed data commits. *)
Lemma commit_left T s0 s now :
  in_txn T s0 s → ∃ s', commit now T s = (s', Ok ()) ∧ left_txn T s0 s'.
Proof.
  intros Hi. destruct (it_active _ _ _ Hi) as (t & Ht & Ha & Hr).
  destruct (commit_cases now T s) as [(e & _ & Hg)|[(t' & r & v & Ht' & _ & Hst & _)|(t' & Ht' & _ & _ & ->)]].
  - by rewrite (get_active_Some _ _ _ Ht Ha) in Hg.
  - exfalso. unfold stale_read in Hst. assert (t' = t) as -> by congruence.
    by rewrite bool_decide_eq_false_2 in Hst by by rewrite Hr.
  - eexists. split; [done|]. destruct (finished_left T s0 s Committed now ltac:(done) Hi) as [H1 H2 H3].
    by split.
Qed.

End transaction.

(** ** The steps of an operation run in its transaction *)

Section steps.
Context `{C : Chrono} `{K : Crc32} `{SetIterLaws} `{!OctadEnv} `{M : !Modalities}.
Context (config : OctadConfig).
Implicit Types (s : OctadStore M) (R : gmap string OctadStatus).

(** In, and out of, transaction [T], with registry [R]. *)
Definition in_op R T tm s : Prop := octads s = R ∧ in_txn T tm (txns s).
Definition left_op R T tm s : Prop := octads s = R ∧ left_txn T tm (txns s).
(** ... having written nothing to the version table. *)
Definition aborted R T tm s : Prop := left_op R T tm s ∧ version_table (txns s) = version_table tm.

Lemma in_op_keeps {E A} R T tm (m : SR (OctadStore M) E A) s :
  Keeps octads m → Keeps txns m → in_op R T tm s → in_op R T tm (m s).1.
Proof. intros H1 H2 [Hr Hi]. split; by keeps_step. Qed.

Lemma triple_abort {A} R T tm c (cleanup : SR (OctadStore M) OctadError unit) (e : OctadError) :
  Keeps octads cleanup → Keeps txns cleanup → (∀ s, is_ok (cleanup s).2 = true) →
  sr_triple (in_op R T tm) (cleanup;; rollback_txn c T;; sr_fail e)
    (λ (_ : A) _, False) (λ _, aborted R T tm).
Proof.
  intros H1 H2 Hok s Hi. pose proof (in_op_keeps R T tm cleanup s _ _ Hi) as [Hr Hs].
  specialize (Hok s). unfold mbind, sr_bind. destruct (cleanup s) as [s1 [[]|e']]; [|done].
  unfold rollback_txn. rewrite sr_ok_eq. simpl in Hr, Hs |- *.
  destruct (rollback_left T tm _ (clock c "rollback") Hs) as [Hl Hv]. by split.
Qed.

Lemma rollback_create_ok id ms s : is_ok (rollback_create id ms s).2 = true.
Proof. unfold rollback_create. sr_unfold. by destruct (vec ms), (document ms), (tensor ms). Qed.

Lemma lock_all_in R T tm c e suffix ms :
  sr_triple (in_op R T tm) (lock_all (M:=M) c T e suffix ms) (λ _, in_op R T tm) (λ _, aborted R T tm).
Proof.
  induction ms as [|m ms IH]; cbn [lock_all]; [by apply triple_ret|].
  intros s [Hr Hi]. unfold txn_op, sr_zoom at 1.
  pose proof (acquire_lock_in T tm (txns s) e m Exclusive Hi) as Ha.
  destruct (acquire_lock T e m Exclusive (txns s)) as [t [[]|err]]; simpl in Ha; cbn [fst snd].
  - by apply IH.
  - destruct (rollback_left T tm t (clock c "rollback") Ha) as [Hl Hv]. done.
Qed.

Lemma write_modality_in {I A} R T tm cleanup c e m ver (i : option I)
    (process : I → SR (OctadStore M) OctadError A) ms :
  (∀ ms, Keeps octads (cleanup ms)) → (∀ ms, Keeps txns (cleanup ms)) →
  (∀ ms s, is_ok (cleanup ms s).2 = true) →
  (∀ x, Keeps octads (process x)) → (∀ x, Keeps txns (process x)) →
  sr_triple (in_op R T tm) (write_modality cleanup c T e m ver i process ms)
    (λ _, in_op R T tm) (λ _, aborted R T tm).
Proof.
  intros H1 H2 H3 H4 H5. unfold write_modality. destruct i as [x|]; [|by apply triple_ret].
  intros s Hi. pose proof (in_op_keeps R T tm (process x) s _ _ Hi) as Hi'.
  destruct (process x s) as [s' [a|err]]; cbn [fst] in Hi'.
  - unfold mbind, sr_bind. rewrite sr_ok_eq. simpl. destruct Hi' as [Hr Hi'].
    split; [done | by apply record_undo_in].
  - pose proof (triple_abort (A:=option A * ModalityStatus) R T tm c (cleanup ms) err _ _ (H3 ms) s' Hi') as Ht.
    by destruct ((cleanup ms;; rollback_txn c T;; sr_fail err) s') as [s1 [b|e']].
Qed.

Lemma write_all_in R T tm cleanup c id ver i ms :
  (∀ ms, Keeps octads (cleanup ms)) → (∀ ms, Keeps txns (cleanup ms)) →
  (∀ ms s, is_ok (cleanup ms s).2 = true) →
  sr_triple (in_op R T tm) (write_all_modalities config cleanup c T id ver i ms)
    (λ _, in_op R T tm) (λ _, aborted R T tm).
Proof.
  intros H1 H2 H3. unfold write_all_modalities.
  repeat (eapply triple_bind; [apply write_modality_in; done || apply _ | intros [??]]).
  by apply triple_ret.
Qed.

Lemma write_version_in R T tm cleanup c id msg i ms :
  Keeps octads (cleanup ms) → Keeps txns (cleanup ms) →
  (∀ s, is_ok (cleanup ms s).2 = true) →
  sr_triple (in_op R T tm) (write_version (M:=M) cleanup c T id msg i ms)
    (λ _, in_op R T tm) (λ _, aborted R T tm).
Proof.
  intros H1 H2 H3 s Hi. unfold write_version. set (m := modality_op _ _ _ _).
  pose proof (in_op_keeps R T tm m s _ _ Hi) as Hi'.
  destruct (m s) as [s' [v|err]]; cbn [fst] in Hi'; [done|].
  pose proof (triple_abort (A:=Z) R T tm c (cleanup ms) err _ _ H3 s' Hi') as Ht.
  by destruct ((cleanup ms;; rollback_txn c T;; sr_fail err) s') as [s1 [b|e']].
Qed.

Lemma commit_txn_in R T tm cleanup c during :
  sr_triple (in_op R T tm) (commit_txn (M:=M) cleanup c T during) (λ _, left_op R T tm) (λ _ _, False).
Proof.
  intros s [Hr Hi]. unfold commit_txn, txn_op, sr_zoom.
  by destruct (commit_left T tm (txns s) (clock c "commit") Hi) as (t & -> & Hl).
Qed.

Lemma begin_txn_in R tm c :
  sr_triple (λ s, octads s = R ∧ txns s = tm ∧ fresh_txn (new_txn c) tm) (begin_txn (M:=M) c)
    (λ T s, T = new_txn c ∧ in_op R T tm s) (λ _ _, False).
Proof.
  intros s (Hr & Ht & Hf). unfold begin_txn. sr_unfold. split; [done|]. split; [done|].
  simpl. rewrite Ht. by apply begin_in.
Qed.

Lemma undo_all_in R T tm c e ver ms :
  sr_triple (in_op R T tm) (undo_all (M:=M) c T e ver ms) (λ _, in_op R T tm) (λ _ _, False).
Proof.
  induction ms as [|m ms IH]; cbn [undo_all]; [by apply triple_ret|].
  eapply (triple_bind _ _ (λ _, in_op R T tm)); [|done].
  apply triple_ok. intros s [Hr Hi]. split; [done|]. simpl. by apply record_undo_in.
Qed.

(** The log calls at either end touch neither. *)
Lemma triple_keeps {E A} (P : OctadStore M → Prop) (m : SR (OctadStore M) E A) :
  (∀ s, P s → P (m s).1) → sr_triple P m (λ _, P) (λ _, P).
Proof. intros Hm s Hs. specialize (Hm s Hs). by destruct (m s) as [s' [a|e]]. Qed.

Lemma left_op_keeps {E A} R T tm (m : SR (OctadStore M) E A) s :
  Keeps octads m → Keeps txns m → left_op R T tm s → left_op R T tm (m s).1.
Proof. intros H1 H2 [Hr Hi]. split; by keeps_step. Qed.

End steps.

(** ** Values the steps return *)

Section values.
Context `{C : Chrono} `{K : Crc32} `{SetIter} `{!OctadEnv} `{M : !Modalities}.
Context (config : OctadConfig).

(** The flags after writing what the input has. *)
Definition merge_status (ms : ModalityStatus) (i : OctadInput) : ModalityStatus :=
  mkMS (graph ms || present (in_graph i)) (vec ms || present (in_vector i))
    (tensor ms || present (in_tensor i)) (semantic ms || present (in_semantic i))
    (document ms || present (in_document i)) (temporal ms)
    (provenance ms || present (in_provenance i)) (spatial ms || present (in_spatial i)).

Lemma write_modality_Ok {I A} cleanup c T e m ver (i : option I)
    (process : I → SR (OctadStore M) OctadError A) ms s s' a ms' :
  write_modality cleanup c T e m ver i process ms s = (s', Ok (a, ms')) →
  ms' = (if present i then set_flag m ms else ms) ∧
  match i with
  | None => a = None ∧ s' = s
  | Some x => ∃ v s1, process x s = (s1, Ok v) ∧ a = Some v ∧
      s' = set_txn (record_undo (clock c (Text.cat ["undo "; m])) T e m None ver (txns s1)).1 s1
  end.
Proof.
  unfold write_modality. destruct i as [x|].
  - destruct (process x s) as [s1 [v|err]].
    + rewrite sr_bind_Ok. intros (s2 & [] & [= <-] & [= <- <- <-]). split; [done|]. by exists v, s1.
    + rewrite sr_bind_Ok. intros (s2 & ? & _ & Hf). apply sr_bind_Ok in Hf as (? & ? & _ & [=]).
  - intros [= <- <- <-]. done.
Qed.

Lemma merge_status_spec ms i :
  (if present (in_spatial i) then set_flag "spatial" else Datatypes.id)
  ((if present (in_provenance i) then set_flag "provenance" else Datatypes.id)
  ((if present (in_semantic i) then set_flag "semantic" else Datatypes.id)
  ((if present (in_tensor i) then set_flag "tensor" else Datatypes.id)
  ((if present (in_document i) then set_flag "document" else Datatypes.id)
  ((if present (in_vector i) then set_flag "vector" else Datatypes.id)
  ((if present (in_graph i) then set_flag "graph" else Datatypes.id) ms)))))) = merge_status ms i.
Proof.
  destruct ms, i as [[] [] [] [] [] ? [] [] ?]; unfold merge_status, set_flag, Datatypes.id; simpl;
    f_equal; rewrite ?orb_true_r, ?orb_false_r; reflexivity.
Qed.

Lemma write_all_Ok cleanup c T id ver i ms s s' w ms' :
  write_all_modalities config cleanup c T id ver i ms s = (s', Ok (w, ms')) → ms' = merge_status ms i.
Proof.
  unfold write_all_modalities. intros Hw. rewrite <- merge_status_spec.
  repeat (apply sr_bind_Ok in Hw as (? & [??] & [-> _]%write_modality_Ok & Hw)).
  injection Hw as _ _ <-. by repeat match goal with |- context [present ?x] => destruct (present x) end.
Qed.

Lemma merge_status_default i : set_flag "temporal" (merge_status ms_default i) = input_status i.
Proof. done. Qed.

End values.
