(* ===== verification/OctadOutcomes.v ===== *)
(** The outcome of [create], [update] and [delete] on the registry and on the
    transaction they run in, whether they succeed or fail, and the errors they can
    end with. *)

From S2P Require Import Prelude Machine Text LockTable Transaction TransactionSteps TransactionTheorems Provenance WalEntry WalSegment WalReader WalWriter OctadTypes Modalities OctadStore OctadLemmas.

Local Open Scope Z_scope.

Section outcomes.
Context `{C : Chrono} `{K : Crc32} `{SetIterLaws} `{!OctadEnv} `{M : !Modalities}.
Context (config : OctadConfig).
Implicit Types (s : OctadStore M) (R : gmap string OctadStatus).

Lemma wal_append_start R tm c l op e p :
  fresh_txn (new_txn c) tm →
  sr_triple (λ s, octads s = R ∧ txns s = tm) (wal_append (M:=M) c l op e p)
    (λ _ s, octads s = R ∧ txns s = tm ∧ fresh_txn (new_txn c) tm) (λ _, aborted R (new_txn c) tm).
Proof.
  intros Hf s [Hr Ht].
  assert (octads (wal_append c l op e p s).1 = R) by by keeps_step.
  assert (txns (wal_append c l op e p s).1 = tm) as Ht' by by keeps_step.
  destruct (wal_append c l op e p s) as [s' [[]|err]]; [done|]. split; [split|]; [done|..].
  - simpl in Ht'. rewrite Ht'. by apply fresh_left.
  - simpl in Ht'. by rewrite Ht'.
Qed.

Lemma finish_op {A} R T tm c id (f : gmap string OctadStatus → gmap string OctadStatus) (a : A) :
  sr_triple (left_op R T tm)
    (sr_modify (set_octads (M:=M) f);; wal_committed c id;; mret a)
    (λ a' s, a' = a ∧ left_op (f R) T tm s) (λ (_ : OctadError) _, False).
Proof.
  intros s [Hr Hl]. unfold mbind, sr_bind, sr_modify.
  pose proof (left_op_keeps (f R) T tm (wal_committed c id) (set_octads f s) _ _) as Hk.
  destruct (wal_committed c id _) as [s' [[]|e]] eqn:E; simpl in Hk.
  - split; [done|]. apply Hk. split; [simpl; by rewrite Hr | done].
  - unfold wal_committed in E. by apply (f_equal (is_ok ∘ snd)) in E.
Qed.

(** The status a successful [create] registers. *)
Definition created_status (c : Call) (input : OctadInput) (o : Octad) : Prop :=
  let st := status o in
  oc_id o = new_octad c ∧ st_id st = new_octad c ∧ created_at st = clock c "now" ∧
  modified_at st = clock c "now" ∧ observed_at st = in_observed_at <$> in_temporal input ∧
  modality_status st = input_status input.

Lemma create_in R tm c input :
  fresh_txn (new_txn c) tm →
  sr_triple (λ s, octads s = R ∧ txns s = tm) (create (M:=M) config c input)
    (λ o s, left_op (<[new_octad c := status o]> R) (new_txn c) tm s ∧ created_status c input o)
    (λ _, aborted R (new_txn c) tm).
Proof.
  intros Hf. unfold create.
  eapply triple_bind; [by apply wal_append_start|]. intros [].
  eapply triple_bind; [eapply triple_conseq; [apply begin_txn_in| |done|done]; naive_solver|].
  intros T. apply triple_pure. intros ->.
  eapply triple_bind; [apply lock_all_in|]. intros [].
  eapply triple_bind.
  { eapply (triple_value (λ a, a.2 = merge_status ms_default input)).
    - apply write_all_in; try apply _. intros. apply rollback_create_ok.
    - intros ? ? [w ms] Hw. by apply write_all_Ok in Hw. }
  intros [w ms]. apply triple_pure. intros Hms. simpl in Hms. subst ms.
  eapply triple_bind; [apply write_version_in; try apply _; intros; apply rollback_create_ok|].
  intros ver.
  eapply triple_bind; [eapply triple_conseq; [apply commit_txn_in|done|done|done]|]. intros [].
  eapply triple_conseq; [apply finish_op|done| |done].
  intros o s [-> Hl]. by split.
Qed.

(** The status a successful [update] of [existing] registers. *)
Definition updated_status (c : Call) (id : string) (existing : OctadStatus) (input : OctadInput)
    (o : Octad) : Prop :=
  let st := status o in
  oc_id o = id ∧ st_id st = id ∧ created_at st = created_at existing ∧
  modified_at st = clock c "now" ∧
  observed_at st = match in_observed_at <$> in_temporal input with
                   | Some t => Some t | None => observed_at existing end ∧
  modality_status st = merge_status (modality_status existing) input ∧
  version_count o = version st.

Lemma update_with_in R tm existing c id input :
  fresh_txn (new_txn c) tm →
  sr_triple (λ s, octads s = R ∧ txns s = tm) (update_with (M:=M) config existing c id input)
    (λ o s, left_op (<[id := status o]> R) (new_txn c) tm s ∧ updated_status c id existing input o)
    (λ _, aborted R (new_txn c) tm).
Proof.
  intros Hf. unfold update_with.
  eapply triple_bind; [by apply wal_append_start|]. intros [].
  eapply triple_bind; [eapply triple_conseq; [apply begin_txn_in| |done|done]; naive_solver|].
  intros T. apply triple_pure. intros ->.
  eapply triple_bind; [apply lock_all_in|]. intros [].
  eapply triple_bind.
  { eapply (triple_value (λ a, a.2 = merge_status (modality_status existing) input)).
    - by apply write_all_in; try apply _.
    - intros ? ? [w ms] Hw. by apply write_all_Ok in Hw. }
  intros [w ms]. apply triple_pure. intros Hms. simpl in Hms. subst ms.
  eapply triple_bind; [by apply write_version_in; try apply _|].
  intros ver.
  eapply triple_bind; [eapply triple_conseq; [apply commit_txn_in|done|done|done]|]. intros [].
  eapply triple_conseq; [apply finish_op|done| |done].
  intros o s [-> Hl]. by split.
Qed.

Lemma delete_with_in R tm existing c id :
  fresh_txn (new_txn c) tm →
  sr_triple (λ s, octads s = R ∧ txns s = tm) (delete_with (M:=M) existing c id)
    (λ _ s, left_op (delete id R) (new_txn c) tm s) (λ _, aborted R (new_txn c) tm).
Proof.
  intros Hf. unfold delete_with.
  eapply triple_bind; [by apply wal_append_start|]. intros [].
  eapply triple_bind; [eapply triple_conseq; [apply begin_txn_in| |done|done]; naive_solver|].
  intros T. apply triple_pure. intros ->.
  eapply triple_bind; [apply lock_all_in|]. intros [].
  eapply triple_bind; [eapply triple_conseq; [apply undo_all_in|done|done|done]|]. intros [].
  do 3 (eapply triple_bind; [apply triple_ok; intros ? ?; by apply in_op_keeps; try apply _|]; intros []).
  eapply triple_bind; [eapply triple_conseq; [apply commit_txn_in|done|done|done]|]. intros [].
  eapply (triple_bind _ _ (λ _, left_op (delete id R) (new_txn c) tm)).
  - intros s [Hr Hl]. split; [simpl; by rewrite Hr | done].
  - intros []. intros s Hl.
    pose proof (left_op_keeps (delete id R) (new_txn c) tm (wal_committed c id) s _ _ Hl) as Hk.
    destruct (wal_committed c id s) as [s' [[]|e]] eqn:E; simpl in Hk; [done|].
    unfold wal_committed in E. by apply (f_equal (is_ok ∘ snd)) in E.
Qed.

End outcomes.

(** ** Errors: on an entity it has found, no operation ends with [NotFound] *)

(** A computation whose errors satisfy [P], by its structure. *)
Class Fails {S E A} (P : E → Prop) (m : SR S E A) : Prop := fails s s' e : m s = (s', Err e) → P e.

Section fails.
Context {S E : Type} (P : E → Prop).

#[export] Instance fails_ret {A} (a : A) : Fails P (mret a : SR S E A).
Proof. done. Qed.
#[export] Instance fails_ok {F A} (m : SR S F A) : Fails P (sr_ok m : SR S E unit).
Proof. done. Qed.
#[export] Instance fails_modify (f : S → S) : Fails P (sr_modify f : SR S E unit).
Proof. done. Qed.
#[export] Instance fails_bind {A B} (m : SR S E A) (g : A → SR S E B) :
  Fails P m → (∀ a, Fails P (g a)) → Fails P (m ≫= g).
Proof.
  intros Hm Hg s s' e. unfold mbind, sr_bind. destruct (m s) as [s1 [a|e1]] eqn:E1; [apply Hg|].
  intros [= <- <-]. by eapply Hm.
Qed.
#[export] Instance fails_when b (m : SR S E unit) : Fails P m → Fails P (sr_when b m).
Proof. by destruct b. Qed.
Lemma fails_fail {A} e : P e → Fails P (sr_fail e : SR S E A).
Proof. by intros He s s' e' [= _ <-]. Qed.
Lemma fails_map_err {F A} (h : F → E) (m : SR S F A) : (∀ e, P (h e)) → Fails P (sr_map_err h m).
Proof. intros Hh s s' e. unfold sr_map_err. destruct (m s) as [s1 [a|e1]]; cbn; [done|]. by intros [= _ <-]. Qed.

End fails.

Definition not_missing (e : OctadError) : Prop := match e with NotFound _ => False | _ => True end.

Section octads.
Context `{C : Chrono} `{K : Crc32} `{SetIter} `{!OctadEnv} `{M : !Modalities}.
Context (config : OctadConfig).

Abbreviation FailsFound m := (Fails (S := OctadStore M) not_missing m).

#[local] Hint Extern 0 (Fails not_missing (sr_fail _)) => (apply fails_fail; exact I) : typeclass_instances.

#[export] Instance fails_modality {T A} name (get : OctadStore M → T) put (m : SR T string A) :
  FailsFound (modality_op name get put m).
Proof. by apply fails_map_err. Qed.

#[export] Instance fails_wal c l op e p : FailsFound (wal_append c l op e p).
Proof.
  intros s s' err. unfold wal_append. case_match; [|done]. destruct (append _ _ _) as [? []]; [done|].
  by intros [= _ <-].
Qed.
#[export] Instance fails_begin c : FailsFound (begin_txn c).
Proof. unfold begin_txn. apply _. Qed.
#[export] Instance fails_rollback c T : FailsFound (rollback_txn c T).
Proof. unfold rollback_txn. apply _. Qed.
#[export] Instance fails_lock_all c T e suffix ms : FailsFound (lock_all c T e suffix ms).
Proof.
  induction ms as [|m ms IH]; [apply _|]. intros s s' err. cbn [lock_all].
  destruct (txn_op _ s) as [s1 [a|e1]]; [apply IH|]. apply (_ : FailsFound (rollback_txn c T;; sr_fail _)).
Qed.

#[export] Instance fails_edges node rels : FailsFound (insert_edges config node rels).
Proof. induction rels as [|[p t] rels IH]; simpl; apply _. Qed.
#[export] Instance fails_graph id i : FailsFound (process_graph config id i).
Proof. unfold process_graph. apply _. Qed.
#[export] Instance fails_vector id i : FailsFound (process_vector config id i).
Proof. unfold process_vector. case_match; apply _. Qed.
#[export] Instance fails_document id i : FailsFound (process_document id i).
Proof. unfold process_document. apply _. Qed.
#[export] Instance fails_tensor id i : FailsFound (process_tensor id i).
Proof. unfold process_tensor. case_match; apply _. Qed.
#[export] Instance fails_semantic c id i : FailsFound (process_semantic c id i).
Proof. unfold process_semantic. apply _. Qed.
#[export] Instance fails_provenance c id i : FailsFound (process_provenance c id i).
Proof.
  unfold process_provenance. apply fails_bind; [apply _|]. intros []. apply fails_bind; [|apply _].
  intros s s' e. unfold sr_read, map_err. case_match; [done|]. by intros [= _ <-].
Qed.
#[export] Instance fails_spatial id i : FailsFound (process_spatial id i).
Proof. unfold process_spatial. case_match; apply _. Qed.
#[export] Instance fails_cleanup id ms : FailsFound (rollback_create id ms).
Proof. unfold rollback_create. apply _. Qed.
#[export] Instance fails_no_cleanup ms : FailsFound (no_cleanup ms).
Proof. unfold no_cleanup. apply _. Qed.

Section with_cleanup.
Context (cleanup : ModalityStatus → SR (OctadStore M) OctadError unit) `{!∀ ms, Fails not_missing (cleanup ms)}.

(** Clean up, roll back and return the error. *)
Lemma fails_refused {A} c T ms e :
  not_missing e → Fails not_missing (cleanup ms;; rollback_txn c T;; (sr_fail e : SR (OctadStore M) OctadError A)).
Proof. intros He. repeat (apply fails_bind; [apply _ | intros []]). by apply fails_fail. Qed.

#[export] Instance fails_write {I A} c T e m ver (i : option I) (process : I → SR (OctadStore M) OctadError A) ms :
  (∀ i, Fails not_missing (process i)) → Fails not_missing (write_modality cleanup c T e m ver i process ms).
Proof.
  intros Hp. destruct i as [i|]; [|apply _]. intros s s' err. cbn. specialize (Hp i s).
  destruct (process i s) as [s1 [a|e1]]; [apply (_ : Fails not_missing (_ ;; mret _))|].
  apply fails_refused. by eapply Hp.
Qed.

#[export] Instance fails_write_all c T id ver i ms :
  Fails not_missing (write_all_modalities config cleanup c T id ver i ms).
Proof. unfold write_all_modalities. repeat (apply fails_bind; [apply _ | intros [??]]). apply _. Qed.

#[export] Instance fails_version c T id msg i ms : Fails not_missing (write_version cleanup c T id msg i ms).
Proof.
  intros s s' err. unfold write_version. pose proof (fails_modality "temporal" temporal_st set_temporal
    (temporal_append (clock c "temporal") id (create_snapshot c id i ms) "system" (Some msg)) s) as Hm.
  destruct (modality_op _ _ _ _ s) as [s1 [a|e1]]; [done|].
  apply fails_refused. by eapply Hm.
Qed.
End with_cleanup.

#[export] Instance fails_commit (cleanup : SR (OctadStore M) OctadError unit) c T during :
  Fails not_missing cleanup → Fails not_missing (commit_txn cleanup c T during).
Proof.
  intros Hc s s' err. unfold commit_txn. destruct (txn_op _ s) as [s1 [a|e1]]; [done|].
  apply (_ : Fails not_missing (cleanup;; sr_fail _)).
Qed.

#[export] Instance fails_committed c e : FailsFound (wal_committed c e).
Proof. unfold wal_committed. apply _. Qed.

#[export] Instance fails_update existing c id i : FailsFound (update_with config existing c id i).
Proof. unfold update_with. repeat (apply fails_bind; [apply _ | intros ?]; try case_match); apply _. Qed.

#[export] Instance fails_undo c T e ver ms : FailsFound (undo_all c T e ver ms).
Proof. induction ms; cbn [undo_all]; apply _. Qed.

#[export] Instance fails_delete existing c id : FailsFound (delete_with existing c id).
Proof. unfold delete_with. apply _. Qed.

End octads.
