(* ===== verification/OctadRecovery.v ===== *)
(** Recovery of the octad store: what its operations write to the log, what the
    replay of a log collects, and the abstract specification that ties them:
    the last logged input of every live entity. *)

From S2P Require Import Prelude Machine Text Collections LockTable Transaction TransactionSteps TransactionTheorems WalEntry WalSegment WalReader WalWriter WalLog WalRecovery WalTheorems OctadTypes Modalities OctadStore OctadLemmas OctadOutcomes.

Local Open Scope Z_scope.

(** ** The log of one operation *)

Section logging.
Context `{C : Chrono} `{K : Crc32} `{R : ReadDir} `{!ChronoLaws C} `{!Crc32Laws K} `{!ReadDirLaws R}.
Context `{SetIterLaws} `{!OctadEnv} `{M : !Modalities}.
Context (config : OctadConfig).
Implicit Types (s : OctadStore M) (log : list WalEntry).

(** System calls succeed. *)
Definition io_good (c : Call) : Prop := ∀ l, ∃ t, io c l = io_ok t.

(** What the log can carry: a valid identifier, and an entry the reader takes. *)
Definition loggable (id : string) (pl : list byte) : Prop :=
  utf8_string id = true ∧
  30 + Z.of_nat (length (as_bytes id)) + Z.of_nat (length pl) ≤ MAX_ENTRY_SIZE.

Lemma loggable_readable n t op m id pl :
  in_u 64 n → loggable id pl → readable (mkWalEntry n t op m id pl).
Proof.
  intros Hn [Hu Hl]. pose proof (length_inner_bytes (mkWalEntry n t op m id pl)) as Hlen.
  cbn [entity_id payload] in Hlen. unfold readable, wf_entry, entry_len, MAX_ENTRY_SIZE in *.
  rewrite Hlen. cbn [sequence entity_id]. split_and!; [apply Hn..|done| |]; lia.
Qed.

(** The log is written synchronously and holds exactly [log]. *)
Definition logged n log s : Prop :=
  ∃ w, wal s = Some w ∧ inv w log ∧ next_sequence (writer w) = n ∧ sync_mode (writer w) = Fsync ∧
       durable w.

Lemma append_Fsync w log t e :
  inv w log → next_sequence (writer w) + 1 < 2 ^ 64 → sync_mode (writer w) = Fsync →
  readable (with_sequence (next_sequence (writer w)) e) →
  ∃ w', append (io_ok t) e w = (w', Ok (next_sequence (writer w))) ∧
    inv w' (log ++ [with_sequence (next_sequence (writer w)) e]) ∧
    next_sequence (writer w') = next_sequence (writer w) + 1 ∧ sync_mode (writer w') = Fsync ∧
    durable w'.
Proof.
  intros Hi Hn Hm Hr.
  destruct (append_inv w log t e Hi Hn Hr) as (w' & Ha & Hi' & Hn' & _ & Hm' & Hd & _).
  exists w'. split_and!; try done; [congruence | auto].
Qed.

Lemma checkpoint_Fsync w log t now :
  inv w log → next_sequence (writer w) + 1 < 2 ^ 64 → sync_mode (writer w) = Fsync →
  readable (with_sequence (next_sequence (writer w)) (checkpoint_entry now)) →
  ∃ w', checkpoint (io_ok t) now w = (w', Ok (next_sequence (writer w))) ∧
    inv w' (log ++ [with_sequence (next_sequence (writer w)) (checkpoint_entry now)]) ∧
    next_sequence (writer w') = next_sequence (writer w) + 1 ∧ sync_mode (writer w') = Fsync ∧
    durable w'.
Proof.
  intros Hi Hn Hm Hr.
  destruct (append_Fsync w log t _ Hi Hn Hm Hr) as (w1 & Ha & Hi1 & Hn1 & Hm1 & _).
  destruct (sync_inv w1 _ t Hi1) as (w2 & Hs & Hi2 & Hd & Hn2 & _ & _ & Hm2).
  exists w2. unfold checkpoint, mbind, sr_bind. rewrite Ha. cbn [final_sync_ok io_ok instant].
  rewrite Hs. split_and!; try done; congruence.
Qed.

(** [wal_append] on a working log. *)
Lemma wal_append_logged n log c l op id pl :
  io_good c → loggable id pl → 0 ≤ n → n + 1 < 2 ^ 64 →
  sr_triple (logged n log) (wal_append (M:=M) c l op id pl)
    (λ _, logged (n + 1) (log ++ [with_sequence n (pending_entry c l op id pl)])) (λ _ _, False).
Proof.
  intros Hio Hl Hn0 Hn s (w & Hw & Hi & Hnx & Hm & Hd). unfold wal_append. rewrite Hw.
  destruct (Hio l) as [t ->]. subst n.
  destruct (append_Fsync w log t (pending_entry c l op id pl) Hi Hn Hm) as (w' & -> & Hi' & Hn' & Hm' & Hd').
  { apply loggable_readable; [by split; [|lia] | done]. }
  exists w'. by split_and!.
Qed.

Lemma wal_checkpoint_logged n log c :
  io_good c → 0 ≤ n → n + 1 < 2 ^ 64 →
  sr_triple (logged n log) (wal_checkpoint (M:=M) c)
    (λ _, logged (n + 1) (log ++ [with_sequence n (checkpoint_entry (clock c "checkpoint"))]))
    (λ _ _, False).
Proof.
  intros Hio Hn0 Hn s (w & Hw & Hi & Hnx & Hm & Hd). unfold wal_checkpoint. rewrite Hw.
  destruct (Hio "checkpoint") as [t ->]. subst n.
  destruct (checkpoint_Fsync w log t (clock c "checkpoint") Hi Hn Hm) as (w' & -> & Hi' & Hn' & Hm' & Hd').
  { apply loggable_readable; [by split; [|lia] | done]. }
  exists w'. by split_and!.
Qed.

(** The three entries of an operation. *)
Definition marker (n : Z) (c : Call) (id : string) : WalEntry :=
  with_sequence n (pending_entry c "committed" Checkpoint id COMMITTED).
Definition chk (n : Z) (c : Call) : WalEntry :=
  with_sequence n (checkpoint_entry (clock c "checkpoint")).
Definition done_entries (n : Z) (c : Call) (id : string) : list WalEntry :=
  [marker n c id; chk (n + 1) c].
Definition intent (n : Z) (c : Call) (op : WalOperation) (id : string) (pl : list byte) : WalEntry :=
  with_sequence n (pending_entry c "pending" op id pl).

Lemma triple_drop {E A} (P : OctadStore M → Prop) (m : SR (OctadStore M) E A) Q :
  sr_triple P m (λ _, Q) (λ _ _, False) →
  sr_triple P (sr_ok m : SR (OctadStore M) OctadError unit) (λ _, Q) (λ _ _, False).
Proof. intros Hm s Hs. specialize (Hm s Hs). unfold sr_ok. by destruct (m s) as [s' [a|e]]. Qed.

Lemma wal_committed_logged n log c id :
  io_good c → loggable id COMMITTED → 0 ≤ n → n + 2 < 2 ^ 64 →
  sr_triple (logged n log) (wal_committed (M:=M) c id)
    (λ _, logged (n + 2) (log ++ done_entries n c id)) (λ _ _, False).
Proof.
  intros Hio Hl Hn0 Hn. unfold wal_committed, done_entries.
  eapply triple_bind; [apply triple_drop, wal_append_logged; done || lia|]. intros [].
  eapply triple_conseq; [apply triple_drop, (wal_checkpoint_logged (n + 1)); done || lia|done| |done].
  intros [] s. rewrite <- (assoc_L (++)). by replace (n + 2) with (n + 1 + 1) by lia.
Qed.

(** A step that does not write the log. *)
Lemma quiet {A} n log (m : SR (OctadStore M) OctadError A) :
  Keeps wal m → sr_triple (logged n log) m (λ _, logged n log) (λ _, logged n log).
Proof.
  intros Hk s (w & Hw & Hr). specialize (Hk s). destruct (m s) as [s' [a|e]]; simpl in Hk;
    exists w; by rewrite Hk.
Qed.

Lemma finish_logged {A} n log c id f (a : A) :
  io_good c → loggable id COMMITTED → 0 ≤ n → n + 2 < 2 ^ 64 →
  sr_triple (logged n log) (sr_modify (set_octads (M:=M) f);; wal_committed c id;; mret a)
    (λ _, logged (n + 2) (log ++ done_entries n c id)) (λ _, logged n log).
Proof.
  intros Hio Hl Hn0 Hn. eapply (triple_bind _ _ (λ _, logged n log)); [intros s Hs; exact Hs|]. intros [].
  eapply (triple_bind _ _ (λ _, logged (n + 2) (log ++ done_entries n c id)));
    [|intros []; by apply triple_ret].
  eapply triple_conseq; [by apply (wal_committed_logged n)|done|done|done].
Qed.

Section operation.
Context (n : Z) (log : list WalEntry) (c : Call) (Hio : io_good c) (Hn0 : 0 ≤ n) (Hn : n + 3 < 2 ^ 64).

Definition after (op : WalOperation) (id : string) (pl : list byte) : list WalEntry :=
  log ++ [intent n c op id pl].

Lemma create_logged input :
  loggable (new_octad c) (default [] (to_vec input)) → loggable (new_octad c) COMMITTED →
  let log' := after Insert (new_octad c) (default [] (to_vec input)) in
  sr_triple (logged n log) (create (M:=M) config c input)
    (λ _, logged (n + 3) (log' ++ done_entries (n + 1) c (new_octad c))) (λ _, logged (n + 1) log').
Proof.
  intros Hl Hl' log'. unfold create. replace (n + 3) with (n + 1 + 2) by lia.
  eapply triple_bind; 
    [eapply triple_conseq; [apply (wal_append_logged n log); done || lia|done|done|done]|]. intros [].
  eapply triple_bind; [apply quiet, _|]. intros T.
  eapply triple_bind; [apply quiet, _|]. intros [].
  eapply triple_bind; [apply quiet, _|]. intros [w ms].
  eapply triple_bind; [apply quiet, _|]. intros ver.
  eapply triple_bind; [apply quiet, _|]. intros [].
  apply finish_logged; done || lia.
Qed.

Lemma update_logged existing id input :
  loggable id (default [] (to_vec input)) → loggable id COMMITTED →
  let log' := after Update id (default [] (to_vec input)) in
  sr_triple (logged n log) (update_with (M:=M) config existing c id input)
    (λ _, logged (n + 3) (log' ++ done_entries (n + 1) c id)) (λ _, logged (n + 1) log').
Proof.
  intros Hl Hl' log'. unfold update_with. replace (n + 3) with (n + 1 + 2) by lia.
  eapply triple_bind; 
    [eapply triple_conseq; [apply (wal_append_logged n log); done || lia|done|done|done]|]. intros [].
  eapply triple_bind; [apply quiet, _|]. intros T.
  eapply triple_bind; [apply quiet, _|]. intros [].
  eapply triple_bind; [apply quiet, _|]. intros [w ms].
  eapply triple_bind; [apply quiet, _|]. intros ver.
  eapply triple_bind; [apply quiet, _|]. intros [].
  apply finish_logged; done || lia.
Qed.

Lemma delete_logged existing id :
  loggable id COMMITTED →
  let log' := after Delete id [] in
  sr_triple (logged n log) (delete_with (M:=M) existing c id)
    (λ _, logged (n + 3) (log' ++ done_entries (n + 1) c id)) (λ _, logged (n + 1) log').
Proof.
  intros Hl log'. unfold delete_with. replace (n + 3) with (n + 1 + 2) by lia.
  assert (loggable id []) by (destruct Hl as [? Hl]; split; [done | simpl in *; lia]).
  eapply triple_bind; 
    [eapply triple_conseq; [apply (wal_append_logged n log); done || lia|done|done|done]|]. intros [].
  eapply triple_bind; [apply quiet, _|]. intros T.
  do 5 (eapply triple_bind; [apply quiet, _|]; intros []).
  eapply triple_bind; [apply quiet, _|]. intros [].
  eapply (triple_bind _ _ (λ _, logged (n + 1) log')); [intros s Hs; exact Hs|]. intros [].
  eapply triple_conseq; [apply (wal_committed_logged (n + 1)); done || lia|done|done|done].
Qed.

End operation.
End logging.

(** ** Nobody else holds a lock *)

Section sole.
Context `{C : Chrono} `{K : Crc32} `{R : ReadDir} `{!ChronoLaws C} `{!Crc32Laws K} `{!ReadDirLaws R}.
Context `{SetIterLaws} `{!OctadEnv} `{M : !Modalities}.
Implicit Types (s : OctadStore M) (log : list WalEntry).

Definition no_locks (tm : TransactionManager DateTime) : Prop :=
  ∀ k, holders_of (lock_table tm) k = [].

Definition sole (T : Uuid) (tm : TransactionManager DateTime) : Prop :=
  ∀ k i, i ∈ holders_of (lock_table tm) k → i = mkLockInfo T Exclusive.

Lemma acquire_sole T e m lt :
  (∀ k i, i ∈ holders_of lt k → i = mkLockInfo T Exclusive) →
  (acquire T e m Exclusive lt).2 = Ok () ∧
  ∀ k i, i ∈ holders_of (acquire T e m Exclusive lt).1 k → i = mkLockInfo T Exclusive.
Proof.
  intros Hs. unfold acquire. destruct (holders_of lt (mkLockKey e m)) as [|i l] eqn:E; simpl.
  - split; [done|]. intros k i. rewrite holders_of_grant, E. case_decide; [|apply Hs].
    by intros ->%list_elem_of_singleton.
  - rewrite (Hs (mkLockKey e m) i) by (rewrite E; by left). simpl.
    by rewrite bool_decide_eq_true_2.
Qed.

Lemma acquire_lock_sole T e m tm :
  m ∈ MODALITIES → (∃ t, active_transactions tm !! T = Some t ∧ state t = Active) → sole T tm →
  (acquire_lock T e m Exclusive tm).2 = Ok () ∧ sole T (acquire_lock T e m Exclusive tm).1.
Proof.
  intros Hm (t & Ht & Ha) Hs. destruct (acquire_sole T e m (lock_table tm) Hs) as [Hr Hs'].
  unfold acquire_lock, lock_check, check_modality. rewrite bool_decide_eq_true_2 by done. sr_unfold.
  rewrite (get_active_Some _ _ _ Ht Ha). unfold lock_take.
  by destruct (acquire T e m Exclusive (lock_table tm)) as [lt [[]|err]].
Qed.

Lemma lock_all_sole R' T tm c e suffix ms :
  Forall (λ m, m ∈ MODALITIES) ms →
  sr_triple (λ s, in_op R' T tm s ∧ sole T (txns s)) (lock_all (M:=M) c T e suffix ms)
    (λ _, in_op R' T tm) (λ _ _, False).
Proof.
  induction 1 as [|m ms Hm _ IH]; cbn [lock_all]; [apply triple_ret; by intros s []|].
  intros s [[Hr Hi] Hs]. unfold txn_op, sr_zoom at 1.
  destruct (it_active _ _ _ Hi) as (t & Ht & Ha & _).
  pose proof (acquire_lock_in T tm (txns s) e m Exclusive Hi) as Hi'.
  destruct (acquire_lock_sole T e m (txns s)) as [Hok Hs']; [done|by exists t|done|].
  destruct (acquire_lock T e m Exclusive (txns s)) as [t' [[]|err]]; [|done]. cbn [fst snd] in *.
  by apply IH.
Qed.

Lemma populated_modalities ms : Forall (λ m, m ∈ MODALITIES) (populated ms).
Proof. by destruct ms as [[] [] [] [] [] [] [] []]; apply (bool_decide_unpack _); vm_compute. Qed.

(** Running alone, a delete of an existing entity cannot be refused. *)
Lemma delete_alone n log existing c id tm :
  io_good c → loggable id [] → 0 ≤ n → n + 1 < 2 ^ 64 → no_locks tm → fresh_txn (new_txn c) tm →
  sr_triple (λ s, txns s = tm ∧ logged n log s) (delete_with (M:=M) existing c id)
    (λ _ _, True) (λ _ _, False).
Proof.
  intros Hio Hl Hn0 Hn Hno Hf s0 [Ht Hlog]. set (R' := octads s0). unfold delete_with.
  eapply (triple_bind (λ s, octads s = R' ∧ txns s = tm ∧ logged n log s) _
    (λ _ s, octads s = R' ∧ txns s = tm)); [| |by split_and!].
  { intros s (Hr & Htm & Hlg).
    pose proof (wal_append_logged n log c "pending" Delete id [] Hio Hl Hn0 Hn s Hlg) as Hw.
    assert (octads (wal_append c "pending" Delete id [] s).1 = octads s) as H1 by by keeps_step.
    assert (txns (wal_append c "pending" Delete id [] s).1 = txns s) as H2 by by keeps_step.
    destruct (wal_append _ _ _ _ _ s) as [s' [[]|err]]; [|done]. simpl in *. split; congruence. }
  intros [].
  eapply (triple_bind _ _ (λ T s, T = new_txn c ∧ in_op R' T tm s ∧ sole T (txns s))).
  { intros s [Hr Htm]. unfold begin_txn. sr_unfold. split_and!; [done| |].
    - split; [done|]. simpl. rewrite Htm. by apply begin_in.
    - simpl. rewrite Htm. intros k i. simpl. rewrite Hno. by intros ?%elem_of_nil. }
  intros T. apply triple_pure. intros ->.
  eapply triple_bind; [apply lock_all_sole, populated_modalities|]. intros [].
  eapply triple_bind; [apply undo_all_in|]. intros [].
  do 3 (eapply triple_bind; [apply triple_ok; intros ? ?; by apply in_op_keeps; try apply _|]; intros []).
  eapply triple_bind; [apply commit_txn_in|]. intros [].
  eapply (triple_bind _ _ (λ _ _, True)); [done|]. intros [].
  intros s _. by destruct (wal_committed c id s) as [s' [[]|e]] eqn:E;
    [|unfold wal_committed in E; apply (f_equal (is_ok ∘ snd)) in E].
Qed.

End sole.

(** ** What a scan of the log collects *)

Section scan.
Context `{C : Chrono} `{K : Crc32} `{!OctadEnv}.
Implicit Types (log : list WalEntry) (spec : gmap string OctadInput).

Definition collected log : Recovered := foldl scan_entry recovered_empty log.

Lemma scan_stored now log r : foldl scan_entry r (stored now <$> log) = foldl scan_entry r log.
Proof. revert r. induction log as [|e log IH]; intros r; [done|]. simpl. by rewrite IH. Qed.

(** The entities with a commit marker whose last operation is an insert or
    update of input [i] are those [spec] maps to [i]; the others' last
    operation is a delete. *)
Definition tracks log spec : Prop :=
  ∀ k, match spec !! k with
       | Some i => k ∈ committed (collected log) ∧
           ∃ op pl, entity_ops (collected log) !! k = Some (op, pl) ∧ (op = Insert ∨ op = Update) ∧
                    from_slice pl = Some i
       | None => k ∈ committed (collected log) →
           ∃ pl, entity_ops (collected log) !! k = Some (Delete, pl)
       end.

Lemma tracks_nil : tracks [] ∅.
Proof. intros k. rewrite lookup_empty. by intros ?%elem_of_empty. Qed.

Lemma collected_intent log n c op id pl :
  op ≠ Checkpoint →
  committed (collected (log ++ [intent n c op id pl])) = committed (collected log) ∧
  entity_ops (collected (log ++ [intent n c op id pl])) =
    <[id := (op, pl)]> (entity_ops (collected log)).
Proof. intros Hop. unfold collected. rewrite foldl_app. simpl. unfold scan_entry. by destruct op. Qed.

Lemma collected_done log n c id :
  committed (collected (log ++ done_entries n c id)) = {[id]} ∪ committed (collected log) ∧
  entity_ops (collected (log ++ done_entries n c id)) = entity_ops (collected log).
Proof.
  unfold collected. rewrite foldl_app. cbn [done_entries foldl].
  unfold scan_entry at 1. cbn [chk with_sequence checkpoint_entry operation payload].
  rewrite bool_decide_eq_false_2 by done.
  unfold scan_entry at 1. cbn [marker with_sequence pending_entry operation payload entity_id].
  by rewrite bool_decide_eq_true_2.
Qed.

(** A logged and committed write. *)
Lemma tracks_write log spec n m c op id pl i :
  tracks log spec → (op = Insert ∨ op = Update) → from_slice pl = Some i →
  tracks ((log ++ [intent n c op id pl]) ++ done_entries m c id) (<[id := i]> spec).
Proof.
  intros Ht Hop Hpl k. destruct (collected_done (log ++ [intent n c op id pl]) m c id) as [-> ->].
  destruct (collected_intent log n c op id pl) as [-> ->]; [by destruct Hop; subst|].
  destruct (decide (id = k)) as [<-|Hne].
  - rewrite !lookup_insert_eq. split; [set_solver|]. by exists op, pl.
  - rewrite !lookup_insert_ne by done. specialize (Ht k).
    destruct (spec !! k); [destruct Ht as [? ?]; split; [set_solver|done] | set_solver].
Qed.

(** A logged write without its marker: an update of a live entity counts, an
    insert of a new one does not. *)
Lemma tracks_update_intent log spec n c id pl i :
  tracks log spec → id ∈ dom spec → from_slice pl = Some i →
  tracks (log ++ [intent n c Update id pl]) (<[id := i]> spec).
Proof.
  intros Ht [i0 Hi]%elem_of_dom Hpl k. destruct (collected_intent log n c Update id pl) as [-> ->]; [done|].
  destruct (decide (id = k)) as [<-|Hne].
  - rewrite !lookup_insert_eq. specialize (Ht id). rewrite Hi in Ht. destruct Ht as [? _].
    split; [done|]. exists Update, pl. auto.
  - rewrite !lookup_insert_ne by done. apply Ht.
Qed.

Lemma tracks_insert_intent log spec n c id pl :
  tracks log spec → id ∉ committed (collected log) → tracks (log ++ [intent n c Insert id pl]) spec.
Proof.
  intros Ht Hid k. destruct (collected_intent log n c Insert id pl) as [-> ->]; [done|].
  specialize (Ht k). destruct (decide (id = k)) as [<-|Hne].
  - destruct (spec !! id); [by destruct Ht | done].
  - by rewrite lookup_insert_ne.
Qed.

Lemma tracks_delete log spec n m c id pl :
  tracks log spec → tracks ((log ++ [intent n c Delete id pl]) ++ done_entries m c id) (delete id spec).
Proof.
  intros Ht k. destruct (collected_done (log ++ [intent n c Delete id pl]) m c id) as [-> ->].
  destruct (collected_intent log n c Delete id pl) as [-> ->]; [done|].
  destruct (decide (id = k)) as [<-|Hne].
  - rewrite lookup_delete_eq, lookup_insert_eq. eauto.
  - rewrite lookup_delete_ne, lookup_insert_ne by done. specialize (Ht k).
    destruct (spec !! k); [destruct Ht as [? ?]; split; [set_solver|done] | set_solver].
Qed.

(** ** The registry a replay rebuilds *)

Definition recovered_status (now : string → DateTime) (id : string) (i : OctadInput) : OctadStatus :=
  mkStatus id (now id) (now id) (in_observed_at <$> in_temporal i) 1 (input_status i).

Definition rebuilt (now : string → DateTime) spec : gmap string OctadStatus :=
  map_imap (λ k i, Some (recovered_status now k i)) spec.

Lemma recover_other now ops l acc k :
  k ∉ l → (foldl (recover_entity now ops) acc l).1 !! k = acc.1 !! k.
Proof.
  revert acc. induction l as [|id l IH]; intros [reg n] Hk; [done|]. cbn [foldl].
  rewrite IH by set_solver. assert (id ≠ k) by set_solver. unfold recover_entity.
  destruct (ops !! id) as [[[] pl]|]; try done; try (destruct (from_slice pl)); simpl;
    try done; by rewrite ?lookup_insert_ne, ?lookup_delete_ne.
Qed.

(** What replay does to entity [k], once, when it is committed. *)
Definition recover_at (now : string → DateTime) (ops : gmap string (WalOperation * list byte))
    (k : string) : option OctadStatus :=
  match ops !! k with
  | Some (Insert, pl) | Some (Update, pl) => recovered_status now k <$> from_slice pl
  | _ => None
  end.

Lemma recover_at_in now ops l k :
  NoDup l → k ∈ l → ∀ acc, acc.1 !! k = None →
  (foldl (recover_entity now ops) acc l).1 !! k = recover_at now ops k.
Proof.
  induction 1 as [|id l Hid _ IH]; [by intros ?%elem_of_nil|].
  intros Hk [reg n] Hn. cbn [foldl]. simpl in Hn.
  destruct (decide (k = id)) as [->|Hne].
  - rewrite recover_other by done. unfold recover_entity, recover_at.
    destruct (ops !! id) as [[[] pl]|]; try done.
    + destruct (from_slice pl); simpl; [|done]. by rewrite lookup_insert_eq, Hn.
    + destruct (from_slice pl); simpl; [|done]. by rewrite lookup_insert_eq, Hn.
    + simpl. by rewrite lookup_delete_eq.
  - apply IH; [set_solver|]. unfold recover_entity.
    destruct (ops !! id) as [[[] pl]|]; simpl; try done; try (destruct (from_slice pl)); simpl;
      try done; by rewrite ?lookup_insert_ne, ?lookup_delete_ne.
Qed.

Lemma rebuild_tracked now log spec l :
  tracks log spec → l ≡ₚ elements (committed (collected log)) →
  (foldl (recover_entity now (entity_ops (collected log))) (∅, 0%nat) l).1 = rebuilt now spec.
Proof.
  intros Ht Hl. apply map_eq. intros k. unfold rebuilt. rewrite map_lookup_imap.
  assert (Hmem : k ∈ l ↔ k ∈ committed (collected log)) by (rewrite Hl; apply elem_of_elements).
  assert (NoDup l) by (rewrite Hl; apply NoDup_elements).
  specialize (Ht k). destruct (decide (k ∈ l)) as [Hk|Hk].
  - rewrite recover_at_in by done. apply Hmem in Hk. unfold recover_at.
    destruct (spec !! k) as [i|]; simpl.
    + destruct Ht as (_ & op & pl & -> & [->| ->] & ->); done.
    + destruct (Ht Hk) as (pl & ->). done.
  - rewrite recover_other by done. cbn [fst]. rewrite lookup_empty. rewrite Hmem in Hk.
    destruct (spec !! k) as [i|]; [by destruct Ht | done].
Qed.

End scan.

(** ** Sequences of requests *)

Section requests.
Context `{C : Chrono} `{K : Crc32} `{R : ReadDir} `{!ChronoLaws C} `{!Crc32Laws K} `{!ReadDirLaws R}.
Context `{SetIterLaws} `{!OctadEnv} `{M : !Modalities}.
Context (config : OctadConfig).
Implicit Types (s : OctadStore M) (log : list WalEntry) (spec : gmap string OctadInput).

Inductive request :=
  | Create (c : Call) (i : OctadInput)
  | UpdateOf (c : Call) (id : string) (i : OctadInput)
  | DeleteOf (c : Call) (id : string).

Definition call_of (r : request) : Call :=
  match r with Create c _ | UpdateOf c _ _ | DeleteOf c _ => c end.

Definition serve (r : request) s : OctadStore M * bool :=
  match r with
  | Create c i => let '(s, o) := create config c i s in (s, is_ok o)
  | UpdateOf c id i => let '(s, o) := update config c id i s in (s, is_ok o)
  | DeleteOf c id => let '(s, o) := delete_octad c id s in (s, is_ok o)
  end.

(** The specification of recovery: the last logged input of every live
    entity.  A failed create is not live; a failed update has been logged. *)
Definition spec_step (r : request) (ok : bool) spec : gmap string OctadInput :=
  match r with
  | Create c i => if ok then <[new_octad c := i]> spec else spec
  | UpdateOf _ id i => if bool_decide (id ∈ dom spec) then <[id := i]> spec else spec
  | DeleteOf _ id => if ok then delete id spec else spec
  end.

Definition serve_spec (st : OctadStore M * gmap string OctadInput) (r : request) :
    OctadStore M * gmap string OctadInput :=
  let '(s, ok) := serve r st.1 in (s, spec_step r ok st.2).

(** The input round-trips through its encoding, which the log can carry. *)
Definition encodable (id : string) (i : OctadInput) : Prop :=
  ∃ pl, to_vec i = Some pl ∧ from_slice pl = Some i ∧ loggable id pl ∧ loggable id COMMITTED.

Definition target_ok (r : request) : Prop :=
  match r with
  | Create c i => encodable (new_octad c) i
  | UpdateOf _ id i => encodable id i
  | DeleteOf _ id => loggable id COMMITTED
  end.

(** Identifiers are new: [ids] and [ts] are those already used. *)
Fixpoint requests_ok (ids : gset string) (ts : gset Uuid) (rs : list request) : Prop :=
  match rs with
  | [] => True
  | r :: rs =>
      io_good (call_of r) ∧ (new_txn (call_of r) ∉ ts) ∧ target_ok r ∧
      match r with Create c _ => new_octad c ∉ ids | _ => True end ∧
      requests_ok ({[new_octad (call_of r)]} ∪ ids) ({[new_txn (call_of r)]} ∪ ts) rs
  end.

Record run_inv (ids : gset string) (ts : gset Uuid) (n : Z) spec s : Prop := mkRunInv {
  ri_log : ∃ log, logged n log s ∧ tracks log spec ∧ committed (collected log) ⊆ ids;
  ri_dom : dom (octads s) = dom spec;
  ri_ids : dom spec ⊆ ids;
  ri_locks : no_locks (txns s);
  ri_txns : dom (active_transactions (txns s)) ⊆ ts;
}.

Lemma run_inv_fresh ids ts n spec s c :
  run_inv ids ts n spec s → new_txn c ∉ ts → fresh_txn (new_txn c) (txns s).
Proof.
  intros Hi Hc. split.
  - apply not_elem_of_dom. intros Hd. by apply Hc, (ri_txns _ _ _ _ _ Hi).
  - intros k i. rewrite (ri_locks _ _ _ _ _ Hi). by intros ?%elem_of_nil.
Qed.

(** What a finished operation leaves of the locks and transactions. *)
Lemma left_run ids ts n spec s c tm' :
  run_inv ids ts n spec s → left_txn (new_txn c) (txns s) tm' →
  no_locks tm' ∧ dom (active_transactions tm') ⊆ {[new_txn c]} ∪ ts.
Proof.
  intros Hi [_ Hl Ho]. split.
  - intros k. rewrite Hl. apply (ri_locks _ _ _ _ _ Hi).
  - intros T HT. destruct (decide (T = new_txn c)) as [->|Hne]; [set_solver|].
    apply elem_of_union_r, (ri_txns _ _ _ _ _ Hi). apply elem_of_dom in HT. apply elem_of_dom.
    by rewrite <- (Ho T).
Qed.

Lemma loggable_nil id pl : loggable id pl → loggable id [].
Proof. intros [? Hl]. split; [done|]. simpl. lia. Qed.

Lemma in_dom_insert (m : gmap string OctadStatus) spec id st i :
  dom m = dom spec → dom (<[id := st]> m) = dom (<[id := i]> spec).
Proof. intros E. by rewrite !dom_insert_L, E. Qed.

Lemma same_dom_insert spec id i : id ∈ dom spec → dom (<[id := i]> spec) = dom spec.
Proof. intros Hid. rewrite dom_insert_L. set_solver. Qed.

(** Assembling the invariant after an operation. *)
Lemma run_inv_step ids ts n n' log' spec spec' s s' c :
  run_inv ids ts n spec s → left_txn (new_txn c) (txns s) (txns s') →
  logged n' log' s' → tracks log' spec' →
  committed (collected log') ⊆ {[new_octad c]} ∪ ids →
  dom (octads s') = dom spec' → dom spec' ⊆ {[new_octad c]} ∪ ids →
  run_inv ({[new_octad c]} ∪ ids) ({[new_txn c]} ∪ ts) n' spec' s'.
Proof.
  intros Hi Hl Hlog Ht Hc Hd Hids. destruct (left_run ids ts n spec s c (txns s') Hi Hl).
  split; try done. by exists log'.
Qed.

Section one.
Context (ids : gset string) (ts : gset Uuid) (n : Z) (spec : gmap string OctadInput) (s : OctadStore M).
Context (Hinv : run_inv ids ts n spec s) (Hn0 : 0 ≤ n) (Hn : n + 3 < 2 ^ 64).
Context (c : Call) (Hio : io_good c) (HT : new_txn c ∉ ts).

(** The conclusion of the three step lemmas. *)
Definition step_ok (st : OctadStore M * gmap string OctadInput) : Prop :=
  ∃ n', n' ≤ n + 3 ∧ 0 ≤ n' ∧ run_inv ({[new_octad c]} ∪ ids) ({[new_txn c]} ∪ ts) n' st.2 st.1.

Lemma serve_create i :
  encodable (new_octad c) i → new_octad c ∉ ids → step_ok (serve_spec (s, spec) (Create c i)).
Proof.
  intros (pl & Hv & Hs & Hl & Hl') Hid. unfold serve_spec. cbn [fst snd serve].
  destruct (ri_log _ _ _ _ _ Hinv) as (log & Hlog & Htr & Hcm).
  assert (Hnc : new_octad c ∉ committed (collected log)) by set_solver.
  pose proof (run_inv_fresh _ _ _ _ _ _ Hinv HT) as Hf.
  pose proof (create_logged config n log c Hio Hn0 Hn i) as Hlg. rewrite Hv in Hlg. simpl in Hlg.
  specialize (Hlg Hl Hl' s Hlog). unfold after in Hlg.
  pose proof (create_in config (octads s) (txns s) c i Hf s) as Ho. specialize (Ho ltac:(done)).
  destruct (create config c i s) as [s' [o|err]]; cbn [is_ok spec_step fst snd] in *.
  - destruct Ho as [[Hoc Hlt] _]. exists (n + 3). split; [lia|]. split; [lia|].
    eapply run_inv_step; try done.
    + apply (tracks_write log spec n (n + 1) c Insert); auto.
    + destruct (collected_done (log ++ [intent n c Insert (new_octad c) pl]) (n + 1) c (new_octad c)) as [-> _].
      destruct (collected_intent log n c Insert (new_octad c) pl) as [-> _]; [done|]. set_solver.
    + simpl. rewrite Hoc. apply in_dom_insert, (ri_dom _ _ _ _ _ Hinv).
    + simpl. rewrite dom_insert_L. pose proof (ri_ids _ _ _ _ _ Hinv). set_solver.
  - destruct Ho as [[Hoc Hlt] _]. exists (n + 1). split; [lia|]. split; [lia|].
    eapply run_inv_step; try done.
    + by apply tracks_insert_intent.
    + destruct (collected_intent log n c Insert (new_octad c) pl) as [-> _]; [done|]. set_solver.
    + simpl. rewrite Hoc. apply (ri_dom _ _ _ _ _ Hinv).
    + simpl. pose proof (ri_ids _ _ _ _ _ Hinv). set_solver.
Qed.

Lemma serve_update id i : encodable id i → step_ok (serve_spec (s, spec) (UpdateOf c id i)).
Proof.
  intros (pl & Hv & Hs & Hl & Hl'). unfold serve_spec. cbn [fst snd serve].
  destruct (ri_log _ _ _ _ _ Hinv) as (log & Hlog & Htr & Hcm).
  pose proof (ri_dom _ _ _ _ _ Hinv) as Hdom. pose proof (ri_ids _ _ _ _ _ Hinv) as Hids.
  unfold update, find_existing, sr_read, mbind, sr_bind.
  destruct (octads s !! id) as [existing|] eqn:E; cbn [ok_or].
  - assert (Hid : id ∈ dom spec) by (rewrite <- Hdom; apply elem_of_dom; eauto).
    assert (Hci : id ∈ committed (collected log)).
    { apply elem_of_dom in Hid as [i0 Hi0]. specialize (Htr id). rewrite Hi0 in Htr. apply Htr. }
    pose proof (run_inv_fresh _ _ _ _ _ _ Hinv HT) as Hf.
    pose proof (update_logged config n log c Hio Hn0 Hn existing id i) as Hlg. rewrite Hv in Hlg.
    simpl in Hlg. specialize (Hlg Hl Hl' s Hlog). unfold after in Hlg.
    pose proof (update_with_in config (octads s) (txns s) existing c id i Hf s) as Ho.
    specialize (Ho ltac:(done)). cbn [spec_step].
    rewrite (bool_decide_eq_true_2 (id ∈ dom spec)) by done.
    destruct (update_with config existing c id i s) as [s' [o|err]]; cbn [is_ok fst snd] in *.
    + destruct Ho as [[Hoc Hlt] _]. exists (n + 3). split; [lia|]. split; [lia|].
      eapply run_inv_step; try done.
      * apply (tracks_write log spec n (n + 1) c Update); auto.
      * destruct (collected_done (log ++ [intent n c Update id pl]) (n + 1) c id) as [-> _].
        destruct (collected_intent log n c Update id pl) as [-> _]; [done|]. set_solver.
      * simpl. rewrite Hoc. by apply in_dom_insert.
      * simpl. rewrite same_dom_insert by done. set_solver.
    + destruct Ho as [[Hoc Hlt] _]. exists (n + 1). split; [lia|]. split; [lia|].
      eapply run_inv_step; try done.
      * by apply tracks_update_intent.
      * destruct (collected_intent log n c Update id pl) as [-> _]; [done|]. set_solver.
      * simpl. by rewrite Hoc, same_dom_insert.
      * simpl. rewrite same_dom_insert by done. set_solver.
  - assert (Hid : id ∉ dom spec) by (rewrite <- Hdom; by apply not_elem_of_dom).
    cbn [is_ok spec_step]. rewrite bool_decide_eq_false_2 by done. cbn [fst snd].
    exists n. split; [lia|]. split; [lia|]. eapply run_inv_step; try done; [|set_solver..].
    by apply fresh_left, (run_inv_fresh _ _ _ _ _ _ Hinv).
Qed.

Lemma serve_delete id : loggable id COMMITTED → step_ok (serve_spec (s, spec) (DeleteOf c id)).
Proof.
  intros Hl. unfold serve_spec. cbn [fst snd serve].
  destruct (ri_log _ _ _ _ _ Hinv) as (log & Hlog & Htr & Hcm).
  pose proof (ri_dom _ _ _ _ _ Hinv) as Hdom. pose proof (ri_ids _ _ _ _ _ Hinv) as Hids.
  unfold delete_octad, find_existing, sr_read, mbind, sr_bind.
  pose proof (run_inv_fresh _ _ _ _ _ _ Hinv HT) as Hf.
  destruct (octads s !! id) as [existing|] eqn:E; cbn [ok_or].
  - assert (Hid : id ∈ dom spec) by (rewrite <- Hdom; apply elem_of_dom; eauto).
    assert (Hci : id ∈ committed (collected log)).
    { apply elem_of_dom in Hid as [i0 Hi0]. specialize (Htr id). rewrite Hi0 in Htr. apply Htr. }
    pose proof (delete_logged n log c Hio Hn0 Hn existing id Hl s Hlog) as Hlg. unfold after in Hlg.
    pose proof (delete_with_in (octads s) (txns s) existing c id Hf s) as Ho. specialize (Ho ltac:(done)).
    pose proof (delete_alone n log existing c id (txns s) Hio (loggable_nil _ _ Hl) Hn0 ltac:(lia)
      (ri_locks _ _ _ _ _ Hinv) Hf s ltac:(done)) as Hal.
    destruct (delete_with existing c id s) as [s' [[]|err]]; [|done]. cbn [is_ok spec_step fst snd] in *.
    destruct Ho as [Hoc Hlt]. exists (n + 3). split; [lia|]. split; [lia|].
    eapply run_inv_step; try done.
    + by apply tracks_delete.
    + destruct (collected_done (log ++ [intent n c Delete id []]) (n + 1) c id) as [-> _].
      destruct (collected_intent log n c Delete id []) as [-> _]; [done|]. set_solver.
    + simpl. by rewrite Hoc, !dom_delete_L, Hdom.
    + simpl. rewrite dom_delete_L. set_solver.
  - cbn [is_ok spec_step fst snd]. exists n. split; [lia|]. split; [lia|].
    eapply run_inv_step; try done; [|set_solver..]. by apply fresh_left.
Qed.

End one.

Lemma serve_all ids ts n spec s rs :
  run_inv ids ts n spec s → 0 ≤ n → n + 3 * Z.of_nat (length rs) < 2 ^ 64 → requests_ok ids ts rs →
  ∃ ids' ts' n' s' spec', foldl serve_spec (s, spec) rs = (s', spec') ∧ run_inv ids' ts' n' spec' s'.
Proof.
  revert ids ts n spec s. induction rs as [|r rs IH]; intros ids ts n spec s Hi Hn0 Hn Hok.
  { by exists ids, ts, n, s, spec. }
  destruct Hok as (Hio & HT & Htg & Hid & Hok). cbn [length] in Hn.
  assert (Hst : ∃ n', n' ≤ n + 3 ∧ 0 ≤ n' ∧
    run_inv ({[new_octad (call_of r)]} ∪ ids) ({[new_txn (call_of r)]} ∪ ts) n'
      (serve_spec (s, spec) r).2 (serve_spec (s, spec) r).1).
  { destruct r as [c i|c id i|c id]; cbn [call_of target_ok] in *.
    - apply serve_create; done || lia.
    - apply serve_update; done || lia.
    - apply serve_delete; done || lia. }
  destruct Hst as (n' & Hle & Hn0' & Hi'). cbn [foldl].
  destruct (serve_spec (s, spec) r) as [s1 spec1]. apply (IH _ _ n' spec1 s1 Hi' Hn0'); [lia | done].
Qed.

End requests.
