(* ===== verification/OctadTheorems.v ===== *)
(** What the octad store guarantees: the outcome of its operations, what a
    created entity reads back as, which entities an operation can change, what
    a crash leaves, and what refused or failed operations leave behind. *)

From S2P Require Import Prelude Machine Text Collections Float64 LockTable Transaction TransactionSteps TransactionTheorems Temporal Provenance WalEntry WalSegment WalReader WalWriter WalLog WalRecovery WalTheorems OctadTypes Modalities ModalityStores OctadStore OctadLemmas OctadOutcomes OctadRecovery.

Local Open Scope Z_scope.

(** ** Reading back *)

Section reads.
Context `{C : Chrono} `{K : Crc32} `{SetIterLaws} `{!OctadEnv} `{M : !Modalities} `{!ModalityLaws M}.
Context (config : OctadConfig).
Implicit Types (s : OctadStore M).

Lemma keeps_eq {E A U} (f : OctadStore M → U) (m : SR (OctadStore M) E A) s s' r :
  Keeps f m → m s = (s', r) → f s' = f s.
Proof. intros Hk E0. specialize (Hk s). by rewrite E0 in Hk. Qed.

Lemma modality_op_Ok {T A} name (get : OctadStore M → T) put (m : SR T string A) s s' a :
  modality_op name get put m s = (s', Ok a) → ∃ t, m (get s) = (t, Ok a) ∧ s' = put t s.
Proof.
  unfold modality_op, sr_map_err, sr_zoom. simpl.
  destruct (m (get s)) as [t [b|e]]; simpl; intros [= <-]; subst. by exists t.
Qed.

Lemma process_vector_Ok id i s s' e :
  process_vector config id i s = (s', Ok e) → vector_get id (vector_st s') = Ok (Some e).
Proof.
  unfold process_vector. case_match; [done|]. rewrite sr_bind_Ok.
  intros (s1 & [] & (t & Hu & ->)%modality_op_Ok & [= <- <-]). by apply vector_get_upsert in Hu.
Qed.

Lemma with_fields_id d l : doc_id (foldl (λ doc p, with_field p.1 p.2 doc) d l) = doc_id d.
Proof. revert d. induction l as [|p l IH]; intros d; [done|]. simpl. by rewrite IH. Qed.

Lemma process_document_Ok id i s s' d :
  process_document id i s = (s', Ok d) → document_get id (document_st s') = Ok (Some d).
Proof.
  unfold process_document. rewrite sr_bind_Ok.
  intros (s1 & [] & (t & Hi & ->)%modality_op_Ok & (s2 & [] & (t' & Hc & ->)%modality_op_Ok & [= <- <-])%sr_bind_Ok).
  simpl. apply document_get_index in Hi. rewrite with_fields_id in Hi. cbn [doc_id Document_new] in Hi.
  pose proof (document_get_commit id t) as Hk. simpl in Hc. by rewrite Hc, Hi in Hk.
Qed.

Lemma process_tensor_Ok id i s s' t :
  process_tensor id i s = (s', Ok t) → tensor_get id (tensor_st s') = Ok (Some t).
Proof.
  unfold process_tensor. destruct (Tensor_new id (in_shape i) (in_data i)) as [t'|err] eqn:E; [|done].
  rewrite sr_bind_Ok. intros (s1 & [] & (st & Hp & ->)%modality_op_Ok & [= <- <-]).
  apply tensor_get_put in Hp. unfold Tensor_new in E. case_match; [|done]. by injection E as <-.
Qed.

Lemma process_semantic_Ok c id i s s' a :
  process_semantic c id i s = (s', Ok a) → semantic_get id (semantic_st s') = Ok (Some a).
Proof.
  unfold process_semantic. rewrite sr_bind_Ok.
  intros (s1 & [] & (t & Ha & ->)%modality_op_Ok & [= <- <-]). by apply semantic_get_annotate in Ha.
Qed.

Lemma process_provenance_Ok c id i s s' n :
  process_provenance c id i s = (s', Ok n) →
  ∃ len, provenance_chain_len id (provenance_st s') = Ok len ∧ n = Z.of_nat len.
Proof.
  unfold process_provenance. rewrite sr_bind_Ok. intros (s1 & [] & _ & Hr).
  apply sr_bind_Ok in Hr as (s2 & len & Hl & [= <- <-]). unfold sr_read in Hl.
  destruct (provenance_chain_len id (provenance_st s1)) as [l|e] eqn:E; [|done].
  injection Hl as <- <-. by exists l.
Qed.

Lemma process_spatial_Ok id i s s' d :
  process_spatial id i s = (s', Ok d) → spatial_get id (spatial_st s') = Ok (Some d).
Proof.
  unfold process_spatial. case_match; [|done]. rewrite sr_bind_Ok.
  intros (s1 & [] & (t & Hi & ->)%modality_op_Ok & [= <- <-]). by apply spatial_get_index in Hi.
Qed.

Lemma process_graph_Ok id i s s' n :
  process_graph config id i s = (s', Ok n) → n = GraphNode_new (to_iri id (base_iri config)).
Proof. unfold process_graph. rewrite sr_bind_Ok. by intros (s1 & [] & _ & [= _ <-]). Qed.

(** What [write_all_modalities] returns is what the stores hold. *)
Record reads_back (id : string) (i : OctadInput) (w : Written) s : Prop := mkReadsBack {
  rb_graph : w_graph w = if present (in_graph i) then Some (GraphNode_new (to_iri id (base_iri config)))
                         else None;
  rb_vector : when_flag (present (in_vector i)) (map_err (ModalityError "vector") (vector_get id (vector_st s)))
              = Ok (w_vector w);
  rb_document : when_flag (present (in_document i))
    (map_err (ModalityError "document") (document_get id (document_st s))) = Ok (w_document w);
  rb_tensor : when_flag (present (in_tensor i)) (map_err (ModalityError "tensor") (tensor_get id (tensor_st s)))
              = Ok (w_tensor w);
  rb_semantic : when_flag (present (in_semantic i))
    (map_err (ModalityError "semantic") (semantic_get id (semantic_st s))) = Ok (w_semantic w);
  rb_provenance : (if present (in_provenance i) then
                     match provenance_chain_len id (provenance_st s) with
                     | Ok n => Z.of_nat n | Err _ => 0 end
                   else 0) = w_provenance w;
  rb_spatial : when_flag (present (in_spatial i)) (map_err (ModalityError "spatial") (spatial_get id (spatial_st s)))
               = Ok (w_spatial w);
}.

(** One modality: if [process] leaves [read] as it returns, so does the step. *)
Lemma write_modality_reads {I A B} (read : OctadStore M → B) (ret : option A → B)
    cleanup c T e m ver (i : option I) (process : I → SR (OctadStore M) OctadError A) ms s s' a ms' :
  (∀ t s, read (set_txn t s) = read s) →
  (∀ x s s' v, process x s = (s', Ok v) → read s' = ret (Some v)) →
  write_modality cleanup c T e m ver i process ms s = (s', Ok (a, ms')) →
  if present i then read s' = ret a else a = None.
Proof.
  intros Hr Hp [_ Hw]%write_modality_Ok. destruct i as [x|]; simpl; [|by destruct Hw].
  destruct Hw as (v & s1 & Hx & -> & ->). rewrite Hr. by eapply Hp.
Qed.

(** A successful step leaves alone what its [process] leaves alone. *)
Lemma write_modality_kept {I A B} (f : OctadStore M → B) cleanup c T e m ver (i : option I)
    (process : I → SR (OctadStore M) OctadError A) ms s s' r :
  write_modality cleanup c T e m ver i process ms s = (s', Ok r) →
  Indep f set_txn → (∀ x, Keeps f (process x)) → f s' = f s.
Proof.
  destruct r as [a ms']. intros [_ Hw]%write_modality_Ok Hi Hp. destruct i as [x|]; [|by destruct Hw as [_ ->]].
  destruct Hw as (v & s1 & Hx & _ & ->). rewrite indep. by eapply keeps_eq.
Qed.

Ltac kept H :=
  match goal with |- ?f _ = _ => rewrite (write_modality_kept f _ _ _ _ _ _ _ _ _ _ _ _ H _ _) end.

Lemma write_all_reads cleanup c T id ver i ms s s' w ms' :
  write_all_modalities config cleanup c T id ver i ms s = (s', Ok (w, ms')) → reads_back id i w s'.
Proof.
  unfold write_all_modalities. intros Hw.
  apply sr_bind_Ok in Hw as (s1 & [g m1] & H1 & Hw). apply sr_bind_Ok in Hw as (s2 & [v m2] & H2 & Hw).
  apply sr_bind_Ok in Hw as (s3 & [d m3] & H3 & Hw). apply sr_bind_Ok in Hw as (s4 & [t m4] & H4 & Hw).
  apply sr_bind_Ok in Hw as (s5 & [a m5] & H5 & Hw). apply sr_bind_Ok in Hw as (s6 & [p m6] & H6 & Hw).
  apply sr_bind_Ok in Hw as (s7 & [l m7] & H7 & Hw). injection Hw as <- <- <-.
  split; cbn [w_graph w_vector w_document w_tensor w_semantic w_provenance w_spatial].
  - apply write_modality_Ok in H1 as [_ H1]. destruct (in_graph i); simpl; [|by destruct H1].
    destruct H1 as (n & s0 & Hp & -> & _). by apply process_graph_Ok in Hp as ->.
  - assert (vector_st s7 = vector_st s2) as -> by (kept H7; kept H6; kept H5; kept H4; by kept H3).
    apply (write_modality_reads (λ s, vector_get id (vector_st s)) Ok) in H2; [|done|intros; by eapply process_vector_Ok].
    destruct (present (in_vector i)); simpl; [by rewrite H2|by subst].
  - assert (document_st s7 = document_st s3) as -> by (kept H7; kept H6; kept H5; by kept H4).
    apply (write_modality_reads (λ s, document_get id (document_st s)) Ok) in H3; [|done|intros; by eapply process_document_Ok].
    destruct (present (in_document i)); simpl; [by rewrite H3|by subst].
  - assert (tensor_st s7 = tensor_st s4) as -> by (kept H7; kept H6; by kept H5).
    apply (write_modality_reads (λ s, tensor_get id (tensor_st s)) Ok) in H4; [|done|intros; by eapply process_tensor_Ok].
    destruct (present (in_tensor i)); simpl; [by rewrite H4|by subst].
  - assert (semantic_st s7 = semantic_st s5) as -> by (kept H7; by kept H6).
    apply (write_modality_reads (λ s, semantic_get id (semantic_st s)) Ok) in H5; [|done|intros; by eapply process_semantic_Ok].
    destruct (present (in_semantic i)); simpl; [by rewrite H5|by subst].
  - assert (provenance_st s7 = provenance_st s6) as -> by by kept H7.
    apply (write_modality_reads (λ s, match provenance_chain_len id (provenance_st s) with
      | Ok n => Z.of_nat n | Err _ => 0 end) (default 0)) in H6; [|done|].
    + destruct (present (in_provenance i)); [done|by subst].
    + intros x s0 s0' n Hp. by apply process_provenance_Ok in Hp as (len & -> & ->).
  - apply (write_modality_reads (λ s, spatial_get id (spatial_st s)) Ok) in H7; [|done|intros; by eapply process_spatial_Ok].
    destruct (present (in_spatial i)); simpl; [by rewrite H7|by subst].
Qed.

Lemma commit_txn_Ok cleanup c T during s s' :
  commit_txn (M:=M) cleanup c T during s = (s', Ok ()) → ∃ t, s' = set_txn t s.
Proof.
  unfold commit_txn, txn_op, sr_zoom. destruct (commit (clock c "commit") T (txns s)) as [t [[]|e]]; simpl.
  - intros [= <-]. by exists t.
  - rewrite sr_bind_Ok. by intros (? & ? & _ & ?).
Qed.

Lemma write_version_Ok cleanup c T id msg i ms s s' v :
  write_version (M:=M) cleanup c T id msg i ms s = (s', Ok v) →
  ∃ t, temporal_append (clock c "temporal") id (create_snapshot c id i ms) "system" (Some msg)
         (temporal_st s) = (t, Ok v) ∧ s' = set_temporal t s.
Proof.
  unfold write_version. destruct (modality_op _ _ _ _ s) as [s1 [v'|e]] eqn:E.
  - intros [= <- <-]. by apply modality_op_Ok in E.
  - rewrite sr_bind_Ok. intros (? & ? & _ & Hx). by apply sr_bind_Ok in Hx as (? & ? & _ & ?).
Qed.

Lemma reads_back_same id i w s s' :
  vector_st s' = vector_st s → document_st s' = document_st s → tensor_st s' = tensor_st s →
  semantic_st s' = semantic_st s → provenance_st s' = provenance_st s → spatial_st s' = spatial_st s →
  reads_back id i w s → reads_back id i w s'.
Proof. intros H1 H2 H3 H4 H5 H6 [? ? ? ? ? ? ?]. split; by rewrite ?H1, ?H2, ?H3, ?H4, ?H5, ?H6. Qed.

(** A write does not touch the version store. *)
#[local] Instance write_all_keeps_temporal cleanup c T id ver i ms :
  (∀ ms, Keeps temporal_st (cleanup ms)) →
  Keeps temporal_st (write_all_modalities config cleanup c T id ver i ms).
Proof.
  intros. unfold write_all_modalities. repeat (apply keeps_bind; [apply _ | intros [??]]). apply _.
Qed.

(** The state after a successful [create], seen through what was written. *)
Lemma create_Ok c input s s' o :
  create config c input s = (s', Ok o) →
  ∃ w ver t, reads_back (new_octad c) input w s' ∧
    temporal_append (clock c "temporal") (new_octad c)
      (create_snapshot c (new_octad c) input (merge_status ms_default input)) "system"
      (Some "Initial creation"%string) (temporal_st s) = (t, Ok ver) ∧ temporal_st s' = t ∧
    o = octad_of (new_octad c)
          (mkStatus (new_octad c) (clock c "now") (clock c "now") (in_observed_at <$> in_temporal input)
             ver (input_status input)) w 1 ∧
    octads s' !! new_octad c = Some (status o).
Proof.
  unfold create. intros Hc.
  apply sr_bind_Ok in Hc as (s1 & [] & H1 & Hc). apply sr_bind_Ok in Hc as (s2 & T & H2 & Hc).
  apply sr_bind_Ok in Hc as (s3 & [] & H3 & Hc). apply sr_bind_Ok in Hc as (s4 & [w ms] & H4 & Hc).
  apply sr_bind_Ok in Hc as (s5 & ver & H5 & Hc). apply sr_bind_Ok in Hc as (s6 & [] & H6 & Hc).
  apply sr_bind_Ok in Hc as (s7 & [] & H7 & Hc). apply sr_bind_Ok in Hc as (s8 & [] & H8 & Hc).
  injection Hc as <- <-. pose proof (write_all_Ok _ _ _ _ _ _ _ _ _ _ _ _ H4) as ->.
  apply write_all_reads in H4 as Hr. apply write_version_Ok in H5 as (t & Ht & ->).
  apply commit_txn_Ok in H6 as (tm & ->). injection H7 as <-.
  assert (Ht0 : temporal_st s4 = temporal_st s).
  { rewrite (keeps_eq temporal_st _ _ _ _ _ H4), (keeps_eq temporal_st _ _ _ _ _ H3),
      (keeps_eq temporal_st _ _ _ _ _ H2). by apply keeps_eq with (f:=temporal_st) in H1; [|apply _]. }
  rewrite Ht0 in Ht. exists w, ver, t. split_and!; [|done| |done|].
  - revert Hr. apply reads_back_same;
      match goal with |- ?f _ = _ => by rewrite (keeps_eq f _ _ _ _ _ H8) end.
  - by rewrite (keeps_eq temporal_st _ _ _ _ _ H8).
  - rewrite (keeps_eq octads _ _ _ _ _ H8). simpl. by rewrite lookup_insert_eq.
Qed.

End reads.

(** ** What an operation can change *)

Section isolation.
Context `{C : Chrono} `{K : Crc32} `{SetIterLaws} `{!OctadEnv} `{M : !Modalities} `{!ModalityLaws M}.
Context (config : OctadConfig) (k : string).
Implicit Types (s : OctadStore M).

(** Everything [load_octad k] depends on. *)
Definition view s :=
  (octads s !! k, vector_get k (vector_st s), document_get k (document_st s),
   tensor_get k (tensor_st s), semantic_get k (semantic_st s),
   temporal_history k 1000 (temporal_st s), provenance_chain_len k (provenance_st s),
   spatial_get k (spatial_st s)).

Lemma load_view s s' : view s' = view s → load_octad config k s' = load_octad config k s.
Proof.
  unfold view, load_octad. intros [= Ho -> -> -> -> -> -> ->].
  by rewrite Ho.
Qed.

Context (id : string) (Hk : k ≠ id).

Lemma keeps_view {T A} name (get : OctadStore M → T) put (m : SR T string A) :
  (∀ s, view (put (m (get s)).1 s) = view s) → Keeps view (modality_op name get put m).
Proof. intros Hm s. apply Hm. Qed.

#[local] Instance view_vector e : emb_id e = id → Keeps view (modality_op "vector" vector_st set_vector (vector_upsert e)).
Proof. intros <-. apply keeps_view. intros s. unfold view. simpl. by rewrite vector_upsert_frame. Qed.
#[local] Instance view_vector_delete : Keeps view (modality_op "vector" vector_st set_vector (vector_delete id)).
Proof. apply keeps_view. intros s. unfold view. simpl. by rewrite vector_delete_frame. Qed.
#[local] Instance view_document_delete :
  Keeps view (modality_op "document" document_st set_document (document_delete id)).
Proof. apply keeps_view. intros s. unfold view. simpl. by rewrite document_delete_frame. Qed.
#[local] Instance view_tensor_delete : Keeps view (modality_op "tensor" tensor_st set_tensor (tensor_delete id)).
Proof. apply keeps_view. intros s. unfold view. simpl. by rewrite tensor_delete_frame. Qed.
#[local] Instance view_commit : Keeps view (modality_op "document" document_st set_document document_commit).
Proof. apply keeps_view. intros s. unfold view. simpl. by rewrite document_get_commit. Qed.

#[local] Instance view_process_vector i : Keeps view (process_vector config id i).
Proof. unfold process_vector. case_match; [apply _|]. apply keeps_bind; [by apply view_vector|apply _]. Qed.

#[local] Instance view_process_document i : Keeps view (process_document id i).
Proof.
  unfold process_document. apply keeps_bind; [|intros []; apply _].
  apply keeps_view. intros s. unfold view. simpl. by rewrite document_index_frame by by rewrite with_fields_id.
Qed.

#[local] Instance view_process_tensor i : Keeps view (process_tensor id i).
Proof.
  unfold process_tensor. destruct (Tensor_new _ _ _) as [t|e] eqn:E; [|apply _].
  apply keeps_bind; [|intros []; apply _].
  assert (tensor_id t = id) by (unfold Tensor_new in E; case_match; [by injection E as <- | done]).
  apply keeps_view. intros s. unfold view. simpl. rewrite tensor_put_frame; [done | congruence].
Qed.

#[local] Instance view_process_semantic c i : Keeps view (process_semantic c id i).
Proof.
  unfold process_semantic. apply keeps_bind; [|intros []; apply _].
  apply keeps_view. intros s. unfold view. simpl. by rewrite semantic_annotate_frame.
Qed.

#[local] Instance view_process_provenance c i : Keeps view (process_provenance c id i).
Proof.
  unfold process_provenance. apply keeps_bind; [|intros []; apply _].
  apply keeps_view. intros s. unfold view. simpl. by rewrite provenance_record_frame.
Qed.

#[local] Instance view_process_spatial i : Keeps view (process_spatial id i).
Proof.
  unfold process_spatial. case_match; [|apply _]. apply keeps_bind; [|intros []; apply _].
  apply keeps_view. intros s. unfold view. simpl. by rewrite spatial_index_frame.
Qed.

#[local] Instance view_rollback_create ms : Keeps view (rollback_create id ms).
Proof. unfold rollback_create. apply _. Qed.

#[local] Instance view_write_all cleanup c T ver i ms :
  (∀ ms, Keeps view (cleanup ms)) → Keeps view (write_all_modalities config cleanup c T id ver i ms).
Proof.
  intros. unfold write_all_modalities. repeat (apply keeps_bind; [apply _ | intros [??]]). apply _.
Qed.

#[local] Instance view_write_version cleanup c T msg i ms :
  (∀ ms, Keeps view (cleanup ms)) → Keeps view (write_version cleanup c T id msg i ms).
Proof.
  intros Hc s. unfold write_version. set (m := modality_op _ _ _ _).
  assert (Hm : Keeps view m).
  { apply keeps_view. intros s'. unfold view. simpl. by rewrite temporal_append_frame. }
  specialize (Hm s). destruct (m s) as [s' [v|err]]; cbn [fst] in Hm; [done|]. rewrite <- Hm. by keeps_step.
Qed.

Lemma view_registry f : (∀ R, f R !! k = R !! k) → Keeps view (sr_modify (set_octads (M:=M) f) : SR _ OctadError _).
Proof. intros Hf s. unfold view. simpl. by rewrite Hf. Qed.

Lemma view_create c i : new_octad c = id → Keeps view (create config c i).
Proof.
  intros E. unfold create. rewrite E. cbv zeta.
  repeat (apply keeps_bind; [apply _ | intros ?]; try apply _).
  destruct a2 as [w ms].
  repeat (apply keeps_bind; [first [apply _ | apply view_registry; intros; by apply lookup_insert_ne] | intros ?]; try apply _).
Qed.

Lemma view_update existing c i : Keeps view (update_with config existing c id i).
Proof.
  unfold update_with. cbv zeta.
  repeat (apply keeps_bind; [apply _ | intros ?]; try apply _).
  destruct a2 as [w ms].
  repeat (apply keeps_bind; [first [apply _ | apply view_registry; intros; by apply lookup_insert_ne] | intros ?]; try apply _).
Qed.

Lemma view_delete existing c : Keeps view (delete_with (M:=M) existing c id).
Proof.
  unfold delete_with. cbv zeta.
  repeat (apply keeps_bind; [first [apply _ | apply view_registry; intros; by apply lookup_delete_ne] | intros ?]; try apply _).
Qed.

End isolation.

(** ** Properties *)

Section properties.
Context `{C : Chrono} `{K : Crc32} `{SetIterLaws} `{!OctadEnv} `{M : !Modalities}.
Context (config : OctadConfig).
Implicit Types (s : OctadStore M).

(** C4 (atomicity of the registry and the locks).  Run with a new transaction
    identifier, [create], [update] and [delete] change the registry exactly
    when they succeed, at their entity only and to the status they report;
    either way their transaction is over, every lock is held by exactly whom
    it was held by before, and a failed operation has bumped no version. *)
Theorem octad_operations_outcome s c existing id i :
  fresh_txn (new_txn c) (txns s) →
  (match create config c i s with
   | (s', Ok o) => octads s' = <[new_octad c := status o]> (octads s) ∧ created_status c i o ∧
                   left_txn (new_txn c) (txns s) (txns s')
   | (s', Err _) => octads s' = octads s ∧ left_txn (new_txn c) (txns s) (txns s') ∧
                    version_table (txns s') = version_table (txns s)
   end) ∧
  (match update_with config existing c id i s with
   | (s', Ok o) => octads s' = <[id := status o]> (octads s) ∧ updated_status c id existing i o ∧
                   left_txn (new_txn c) (txns s) (txns s')
   | (s', Err _) => octads s' = octads s ∧ left_txn (new_txn c) (txns s) (txns s') ∧
                    version_table (txns s') = version_table (txns s)
   end) ∧
  (match delete_with existing c id s with
   | (s', Ok _) => octads s' = delete id (octads s) ∧ left_txn (new_txn c) (txns s) (txns s')
   | (s', Err _) => octads s' = octads s ∧ left_txn (new_txn c) (txns s) (txns s') ∧
                    version_table (txns s') = version_table (txns s)
   end).
Proof.
  intros Hf. split_and!.
  - pose proof (create_in config (octads s) (txns s) c i Hf s ltac:(done)) as Ho.
    destruct (create config c i s) as [s' [o|e]]; unfold aborted, left_op in Ho; tauto.
  - pose proof (update_with_in config (octads s) (txns s) existing c id i Hf s ltac:(done)) as Ho.
    destruct (update_with config existing c id i s) as [s' [o|e]]; unfold aborted, left_op in Ho; tauto.
  - pose proof (delete_with_in (octads s) (txns s) existing c id Hf s ltac:(done)) as Ho.
    destruct (delete_with existing c id s) as [s' [[]|e]]; unfold aborted, left_op in Ho; tauto.
Qed.

(** What [create] wrote is what the stores read. *)
Lemma created_reads_back `{!ModalityLaws M} c i s s' o :
  create config c i s = (s', Ok o) →
  temporal_wf (new_octad c) (temporal_st s) →
  temporal_history (new_octad c) 999 (temporal_st s) = Ok [] →
  get config (new_octad c) s' = Ok (Some o).
Proof.
  intros Hc Hwf Hh. destruct (create_Ok config c i s s' o Hc) as (w & ver & t & Hr & Ht & <- & -> & Hl).
  unfold get, load_octad. rewrite Hl. cbn [octad_of status modality_status input_status graph vec document tensor
    semantic provenance spatial].
  destruct Hr as [Hg Hv Hd Hten Hsem Hp Hsp]. rewrite Hv, Hd, Hten, Hsem, Hsp. cbn [mbind result_bind].
  rewrite (temporal_history_append _ _ _ _ _ _ _ _ 999 Hwf Ht), Hh. rewrite <- Hg, Hp. done.
Qed.

(** C6 (reading back).  What [create] returns is what [get] then returns: all
    modalities, the version count and the length of the provenance chain, for
    an entity without earlier versions. *)
Theorem create_then_get `{!ModalityLaws M} c i s s' o :
  create config c i s = (s', Ok o) →
  temporal_wf (new_octad c) (temporal_st s) →
  temporal_history (new_octad c) 999 (temporal_st s) = Ok [] →
  get config (new_octad c) s' = Ok (Some o).
Proof. apply created_reads_back. Qed.

(** C11 (isolation).  No operation on one entity, successful or failed, changes
    what [get] returns for another. *)
Theorem operations_isolated `{!ModalityLaws M} k c existing id i s :
  k ≠ new_octad c → k ≠ id →
  get config k (create config c i s).1 = get config k s ∧
  get config k (update_with config existing c id i s).1 = get config k s ∧
  get config k (delete_with existing c id s).1 = get config k s.
Proof.
  intros Hk Hk'. split_and!; apply load_view.
  - by apply (view_create config k (new_octad c)).
  - by apply (view_update config k id).
  - by apply (view_delete k id).
Qed.

(** A stale update wins.  [update] reads the status and only then takes
    its locks.  What happened to the entity in between is overwritten: a
    modality that another update has added is unflagged again, so [get] no
    longer returns it, and an entity that has been deleted is registered again. *)
Theorem stale_update_overwrites s s' existing c id i o :
  fresh_txn (new_txn c) (txns s) → update_with config existing c id i s = (s', Ok o) →
  octads s' !! id = Some (status o) ∧
  modality_status (status o) = merge_status (modality_status existing) i ∧
  (vec (modality_status existing) = false → in_vector i = None →
   ∀ o', get config id s' = Ok (Some o') → oc_embedding o' = None).
Proof.
  intros Hf Hu. pose proof (update_with_in config (octads s) (txns s) existing c id i Hf s ltac:(done)) as Ho.
  rewrite Hu in Ho. destruct Ho as [[Ho _] (_ & _ & _ & _ & _ & Hst & _)].
  assert (Hl : octads s' !! id = Some (status o)) by by rewrite Ho, lookup_insert_eq.
  split_and!; [done..|]. intros Hv Hi o'. unfold get, load_octad. rewrite Hl.
  assert (vec (modality_status (status o)) = false) as -> by (rewrite Hst; simpl; by rewrite Hv, Hi).
  intros (emb & [= <-] & Hl')%bind_Ok.
  repeat (apply bind_Ok in Hl' as (? & _ & Hl')). by injection Hl' as <-.
Qed.

(** A deleted entity.  After a successful [delete] the entity is gone for
    [get] and [status]; but its edges, annotations, provenance chain, versions
    and coordinates stay in their stores. *)
Theorem delete_outcome s s' existing c id :
  fresh_txn (new_txn c) (txns s) → delete_with existing c id s = (s', Ok ()) →
  get config id s' = Ok None ∧ get_status id s' = Ok None ∧
  graph_st s' = graph_st s ∧ semantic_st s' = semantic_st s ∧ temporal_st s' = temporal_st s ∧
  provenance_st s' = provenance_st s ∧ spatial_st s' = spatial_st s.
Proof.
  intros Hf Hd. pose proof (delete_with_in (octads s) (txns s) existing c id Hf s ltac:(done)) as Ho.
  rewrite Hd in Ho. destruct Ho as [Ho _].
  assert (Hk : ∀ U (f : OctadStore M → U), Indep f set_txn → Indep f set_wal → Indep f set_vector →
    Indep f set_document → Indep f set_tensor → (∀ g s, f (set_octads g s) = f s) → f s' = f s).
  { intros U f ? ? ? ? ? Hreg. apply (keeps_eq f (delete_with existing c id) s s' (Ok ())); [|done].
    unfold delete_with. cbv zeta.
    repeat (apply keeps_bind; [first [apply _ | intros ?; apply Hreg] | intros ?]; try apply _). }
  unfold get, load_octad, get_status. rewrite Ho, lookup_delete_eq.
  split_and!; [done..| | | | |]; by apply Hk.
Qed.

(** The edges of a graph input, and their insertion as one computation. *)
Definition edges_of (id : string) (g : OctadGraphInput) : list GraphEdge :=
  (λ p, mkEdge (GraphNode_new (to_iri id (base_iri config)))
          (GraphNode_new (cat [base_iri config; "/"; p.1]))
          (Node (GraphNode_new (cat [base_iri config; "/"; p.2])))) <$> relationships g.

Fixpoint insert_all (es : list GraphEdge) : SR GraphState string unit :=
  match es with [] => mret () | e :: es => graph_insert e;; insert_all es end.

Lemma process_graph_inserts id g gs s :
  insert_all (edges_of id g) (graph_st s) = (gs, Ok ()) →
  process_graph config id g s = (set_graph gs s, Ok (GraphNode_new (to_iri id (base_iri config)))).
Proof.
  unfold process_graph, edges_of. cbv zeta. intros Hi. apply sr_bind_Ok. exists (set_graph gs s), ().
  split; [|done]. revert s Hi. induction (relationships g) as [|[p t] rels IH]; intros s Hi.
  - injection Hi as <-. by destruct s.
  - cbn [fmap list_fmap insert_all fst snd] in Hi.
    apply sr_bind_Ok in Hi as (g1 & [] & H1 & Hi). cbn [insert_edges]. apply sr_bind_Ok.
    exists (set_graph g1 s), (). split.
    + unfold modality_op, sr_map_err, sr_zoom. by rewrite H1.
    + by rewrite (IH (set_graph g1 s) Hi).
Qed.

Lemma write_modality_step {I A} cleanup c T e m ver (x : I)
    (process : I → SR (OctadStore M) OctadError A) ms s s1 v :
  process x s = (s1, Ok v) →
  ∃ t, write_modality cleanup c T e m ver (Some x) process ms s =
       (set_txn t s1, Ok (Some v, set_flag m ms)).
Proof. intros Hp. unfold write_modality. rewrite Hp. eexists. reflexivity. Qed.

Lemma write_modality_fail {I A} cleanup c T e m ver (x : I)
    (process : I → SR (OctadStore M) OctadError A) ms s s1 err :
  (∀ ms s, is_ok (cleanup ms s).2 = true) → process x s = (s1, Err err) →
  ∃ t, write_modality cleanup c T e m ver (Some x) process ms s =
       (set_txn t (cleanup ms s1).1, Err err).
Proof.
  intros Hok Hp. unfold write_modality. rewrite Hp. specialize (Hok ms s1).
  unfold mbind, sr_bind. destruct (cleanup ms s1) as [s2 [[]|e']]; [|done]. eexists. reflexivity.
Qed.

(** [write_all_modalities] stopped by the embedding, with the edges written. *)
Lemma refused_vector cleanup c T id i g v gs s :
  (∀ ms, Keeps graph_st (cleanup ms)) → (∀ ms, Keeps octads (cleanup ms)) →
  (∀ ms s, is_ok (cleanup ms s).2 = true) →
  in_graph i = Some g → in_vector i = Some v → length (embedding v) ≠ vector_dimension config →
  process_graph config id g s = (set_graph gs s, Ok (GraphNode_new (to_iri id (base_iri config)))) →
  ∃ s' msg, write_all_modalities config cleanup c T id 0 i ms_default s = (s', Err (ValidationError msg)) ∧
    graph_st s' = gs ∧ octads s' = octads s.
Proof.
  intros Hkg Hko Hok Hg Hv Hd Hp. unfold write_all_modalities. rewrite Hg, Hv.
  destruct (write_modality_step cleanup c T id "graph" 0 g (process_graph config id) ms_default s _ _ Hp) as [t Hw].
  rewrite (sr_bind_step _ _ _ _ _ Hw). set (s1 := set_txn t _). cbv beta iota.
  assert (Hpv : ∃ msg, process_vector config id v s1 = (s1, Err (ValidationError msg))).
  { unfold process_vector. rewrite (proj2 (Nat.eqb_neq _ _)) by done. by eexists. }
  destruct Hpv as [msg Hpv].
  destruct (write_modality_fail cleanup c T id "vector" 0 v (process_vector config id)
    (set_flag "graph" ms_default) s1 _ _ Hok Hpv) as [t' Hw'].
  exists (set_txn t' (cleanup (set_flag "graph" ms_default) s1).1), msg.
  rewrite (sr_bind_stop _ _ _ _ _ Hw'). split_and!; [done| |]; cbn [graph_st octads set_txn]; by keeps_step.
Qed.

(** No compensation outside three modalities.  When the embedding of a
    new entity is refused, its edges have been inserted and stay: [create]
    fails and the entity is unknown, but the graph has its edges. *)
Theorem failed_create_keeps_edges s c i g v gs :
  wal s = None → no_locks (txns s) → fresh_txn (new_txn c) (txns s) → octads s !! new_octad c = None →
  in_graph i = Some g → in_vector i = Some v → length (embedding v) ≠ vector_dimension config →
  insert_all (edges_of (new_octad c) g) (graph_st s) = (gs, Ok ()) →
  ∃ s' msg, create config c i s = (s', Err (ValidationError msg)) ∧ graph_st s' = gs ∧
    get config (new_octad c) s' = Ok None.
Proof.
  intros Hw Hno Hf Hn Hg Hv Hd Hi. set (T := new_txn c).
  assert (Hlocks : sr_triple (λ s0, in_op (octads s) T (txns s) s0 ∧ sole T (txns s0))
    (lock_all c T (new_octad c) "" (modality_names i)) (λ _ s0, in_op (octads s) T (txns s) s0) (λ _ _, False)).
  { apply lock_all_sole. by destruct i as [[] [] [] [] [] ? [] [] ?]; apply (bool_decide_unpack _); vm_compute. }
  assert (Ha : wal_append c "pending" Insert (new_octad c) (default [] (to_vec i)) s = (s, Ok ()))
    by (unfold wal_append; by rewrite Hw).
  set (s2 := set_txn (begin T (clock c "begin") ReadCommitted (txns s)).1 s).
  assert (Hb : begin_txn c s = (s2, Ok T)) by done.
  assert (Hs2 : in_op (octads s) T (txns s) s2 ∧ sole T (txns s2)).
  { split; [split; [done | by apply begin_in]|]. intros k h. simpl. rewrite Hno. by intros ?%elem_of_nil. }
  specialize (Hlocks s2 Hs2).
  destruct (lock_all c T (new_octad c) "" (modality_names i) s2) as [s3 [[]|e]] eqn:E3; [|done].
  assert (Hg3 : graph_st s3 = graph_st s).
  { apply (keeps_eq graph_st _ _ _ _ _) in E3. by rewrite E3. }
  rewrite <- Hg3 in Hi. pose proof (process_graph_inserts (new_octad c) g gs s3 Hi) as Hp.
  unfold create. cbv zeta. rewrite (sr_bind_step _ _ _ _ _ Ha), (sr_bind_step _ _ _ _ _ Hb),
    (sr_bind_step _ _ _ _ _ E3).
  destruct (refused_vector (rollback_create (new_octad c)) c T (new_octad c) i g v gs s3) as (s' & msg & Hw' & Hgr & Ho);
    try done; [apply _|apply _|intros; apply rollback_create_ok|].
  exists s', msg. rewrite (sr_bind_stop _ _ _ _ _ Hw'). split_and!; [done..|].
  unfold get, load_octad. destruct Hlocks as [Hr _]. by rewrite Ho, Hr, Hn.
Qed.

(** A lock somebody else holds refuses an exclusive request. *)
Lemma acquire_other_refused T e m lt h :
  table_inv lt → h ∈ holders_of lt (mkLockKey e m) → holder h ≠ T →
  is_ok (acquire T e m Exclusive lt).2 = false.
Proof.
  intros Hi Hh Hne. pose proof (grants_compatible T Exclusive _ (holders_of_ok lt (mkLockKey e m) Hi)) as Hg.
  assert (Hf : grants (inspect T Exclusive (holders_of lt (mkLockKey e m)) (holders_of lt (mkLockKey e m))) ≠ true).
  { rewrite Hg, Forall_forall. intros Hc. by destruct (Hc h Hh) as [?|[_ ?]]. }
  unfold acquire. destruct (inspect _ _ _ _); simpl in *; try done. by destruct (detect_cycle _ T).
Qed.

(** Locking an array that contains the modality fails, before anything is
    written. *)
Lemma lock_all_refused R T tm c e suffix ms m h :
  m ∈ ms → h ∈ holders_of (lock_table tm) (mkLockKey e m) → holder h ≠ T →
  sr_triple (λ s, in_op R T tm s ∧ table_inv (lock_table (txns s))) (lock_all (M:=M) c T e suffix ms)
    (λ _ _, False) (λ err _, ∃ msg, err = ConsistencyViolation msg).
Proof.
  intros Hm Hh Hne. induction ms as [|m0 ms IH]; [by apply elem_of_nil in Hm|]. cbn [lock_all].
  intros s [[Hr Hin] Htab]. unfold txn_op, sr_zoom at 1.
  pose proof (acquire_lock_in T tm (txns s) e m0 Exclusive Hin) as Hin'.
  assert (Htab' : table_inv (lock_table (acquire_lock T e m0 Exclusive (txns s)).1)).
  { destruct (acquire_lock_cases T e m0 Exclusive (txns s)) as [(err & ->)|(_ & ->)]; [done|].
    destruct (acquire T e m0 Exclusive (lock_table (txns s))).2; apply acquire_inv, Htab. }
  destruct (acquire_lock T e m0 Exclusive (txns s)) as [t [[]|err]] eqn:E; cbn [fst snd] in *.
  - apply elem_of_cons in Hm as [->|Hm]; [|by apply IH]. exfalso.
    destruct (acquire_lock_cases T e m0 Exclusive (txns s)) as [(err & E')|(_ & E')]; [congruence|].
    assert (Hh' : h ∈ holders_of (lock_table (txns s)) (mkLockKey e m0)).
    { rewrite <- (it_locks _ _ _ Hin) in Hh. by apply elem_of_others in Hh as [? _]. }
    pose proof (acquire_other_refused T e m0 _ h Htab Hh' Hne) as Hf. rewrite E in E'.
    by destruct (acquire T e m0 Exclusive (lock_table (txns s))).2.
  - by eexists.
Qed.

(** The modality stores of a state. *)
Definition modality_states s :=
  (graph_st s, vector_st s, document_st s, tensor_st s, semantic_st s, temporal_st s, provenance_st s, spatial_st s).

(** A conflicting writer is refused.  An [update] that needs a modality
    of the entity on which another transaction holds a lock never succeeds,
    and writes nothing to any modality. *)
Theorem conflicting_update_refused s existing c id i m h :
  fresh_txn (new_txn c) (txns s) → table_inv (lock_table (txns s)) →
  m ∈ modality_names i → h ∈ holders_of (lock_table (txns s)) (mkLockKey id m) →
  ∃ s' err, update_with config existing c id i s = (s', Err err) ∧
    modality_states s' = modality_states s ∧ octads s' = octads s ∧
    (wal s = None → ∃ msg, err = ConsistencyViolation msg).
Proof.
  intros Hf Htab Hm Hh. set (T := new_txn c).
  pose proof (wal_append_start (octads s) (txns s) c "pending" Update id (default [] (to_vec i)) Hf s ltac:(done)) as Ha.
  assert (Hwn : wal s = None → wal_append c "pending" Update id (default [] (to_vec i)) s = (s, Ok ()))
    by (unfold wal_append; by intros ->).
  destruct (wal_append c "pending" Update id (default [] (to_vec i)) s) as [s1 [[]|err]] eqn:E1.
  2: { exists s1, err. unfold update_with. cbv zeta. rewrite (sr_bind_stop _ _ _ _ _ E1).
       split_and!; [done| |by destruct Ha as [[? _] _]|by intros ?%Hwn].
       apply (keeps_eq modality_states _ _ _ _ _) in E1. done. }
  destruct Ha as (Ho1 & Ht1 & _).
  set (s2 := set_txn (begin T (clock c "begin") ReadCommitted (txns s1)).1 s1).
  assert (Hb : begin_txn c s1 = (s2, Ok T)) by done.
  assert (Hin : in_op (octads s) T (txns s) s2).
  { split; [done|]. simpl. rewrite Ht1. by apply begin_in. }
  assert (Htab2 : table_inv (lock_table (txns s2))) by (simpl; by rewrite Ht1).
  assert (Hne : holder h ≠ T) by (destruct Hf as [_ Hf]; by eapply Hf).
  pose proof (lock_all_refused (octads s) T (txns s) c id "" _ m h Hm Hh Hne s2 ltac:(done)) as Hl.
  pose proof (lock_all_in (octads s) T (txns s) c id "" (modality_names i) s2 Hin) as Hl'.
  destruct (lock_all c T id "" (modality_names i) s2) as [s3 [[]|err]] eqn:E3; [done|].
  exists s3, err. unfold update_with. cbv zeta.
  rewrite (sr_bind_step _ _ _ _ _ E1), (sr_bind_step _ _ _ _ _ Hb), (sr_bind_stop _ _ _ _ _ E3).
  split_and!; [done| |by destruct Hl' as [[? _] _]|done].
  apply (keeps_eq modality_states _ _ _ _ _) in E3. rewrite E3.
  apply (keeps_eq modality_states _ _ _ _ _) in E1. by rewrite <- E1.
Qed.

End properties.

(** ** Recovery *)

Section recovery.
Context `{C : Chrono} `{K : Crc32} `{R : ReadDir} `{!ChronoLaws C} `{!Crc32Laws K} `{!ReadDirLaws R}.
Context `{SetIterLaws} `{!OctadEnv} `{M : !Modalities}.
Implicit Types (s : OctadStore M) (spec : gmap string OctadInput).

(** Replaying a crashed log into an empty registry. *)
Lemma replay_logged n log spec s keep c now order wd s1 :
  logged n log s → tracks log spec → (∀ X, order X ≡ₚ elements X) → octads s1 = ∅ →
  ∃ w count, wal s = Some w ∧
    let '(s2, r) := replay_wal c now order wd (Some (crash keep (disk w))) s1 in
    r = Ok count ∧ octads s2 = rebuilt now spec.
Proof.
  intros (w & Hw & Hi & _ & _ & Hd) Ht Hord H1.
  destruct (replay_crash (clock c "decode") wd keep w log Hi) as (k & _ & Hk & _ & Hr).
  rewrite (Hk Hd), firstn_all in Hr.
  exists w. unfold replay_wal. cbn [reader_open]. rewrite Hr. cbn [entries].
  case_bool_decide as He.
  - exists 0%nat. split_and!; [done..|]. rewrite H1.
    assert (log = []) as -> by (by apply fmap_nil_inv in He).
    apply map_eq. intros k'. unfold rebuilt. rewrite map_lookup_imap, lookup_empty.
    specialize (Ht k'). destruct (spec !! k'); [|done]. destruct Ht as [Hx _]. by apply elem_of_empty in Hx.
  - rewrite scan_stored. fold (collected log). rewrite H1.
    pose proof (rebuild_tracked now log spec (order (committed (collected log))) Ht (Hord _)) as Hb.
    destruct (foldl _ _ _) as [reg count]. simpl in Hb. subst reg. exists count.
    split; [done|]. rewrite (sr_bind_step _ _ _ _ () (sr_ok_eq _ _)). simpl.
    split; [done|]. by keeps_step.
Qed.

(** A store opened on a new directory. *)
Lemma open_run_inv t wd g v d ten sem tm p l s0 :
  with_wal t wd None Fsync (new g v d ten sem tm p l) = Ok s0 → run_inv ∅ ∅ 1 ∅ s0.
Proof.
  intros Hopen.
  destruct (inv_fresh t wd Fsync DEFAULT_MAX_SEGMENT_SIZE ltac:(done)) as (w0 & Ho & Hi & Hn & Hm).
  unfold with_wal, open in Hopen. rewrite Ho in Hopen. injection Hopen as <-.
  assert (Hdur : durable w0).
  { unfold open_with_max_size in Ho. cbn [default option.from_option] in Ho.
    change (∅ : gmap string file) with (dir_of []) in Ho.
    rewrite list_segments_dir_of in Ho by (split; constructor). injection Ho as <-.
    intros name f Hl. simpl in Hl. apply lookup_insert_Some in Hl as [[_ <-]|[_ Hl]]; [done|].
    unfold dir_of in Hl. simpl in Hl. by rewrite lookup_empty in Hl. }
  split; simpl; try done. exists []. split_and!; [by exists w0|apply tracks_nil|done].
Qed.

(** C5 (refinement: recovery).  Start an empty store with a synchronous log,
    serve any sequence of creates, updates and deletes -- failing ones
    included -- one after the other, and crash at the end, whatever the
    operating system had flushed.  The store's entities are those of the
    specification, and replaying what is left of the log into an empty
    registry rebuilds exactly these entities, each with the modalities and the
    observation time of its last logged input.  The inputs encode as JSON, the
    log's system calls succeed and the identifiers are fresh ([requests_ok]). *)
Theorem recovery_refines_spec config t wd g v d ten sem tm p l s0 rs s spec keep c now order :
  with_wal t wd None Fsync (new g v d ten sem tm p l) = Ok s0 →
  requests_ok ∅ ∅ rs → 1 + 3 * Z.of_nat (length rs) < 2 ^ 64 →
  foldl (serve_spec config) (s0, ∅) rs = (s, spec) → (∀ X, order X ≡ₚ elements X) →
  dom (octads s) = dom spec ∧
  ∃ w count, wal s = Some w ∧
    let '(s2, r) := replay_wal c now order wd (Some (crash keep (disk w))) (new g v d ten sem tm p l) in
    r = Ok count ∧ octads s2 = rebuilt now spec.
Proof.
  intros Hopen Hrs Hlen Hrun Hord. pose proof (open_run_inv _ _ _ _ _ _ _ _ _ _ _ Hopen) as Hinv.
  destruct (serve_all config ∅ ∅ 1 ∅ _ rs Hinv ltac:(lia) Hlen Hrs)
    as (ids' & ts' & n' & s' & spec' & Hrun' & Hinv').
  rewrite Hrun in Hrun'. injection Hrun' as <- <-.
  split; [apply (ri_dom _ _ _ _ _ Hinv')|]. destruct (ri_log _ _ _ _ _ Hinv') as (log & Hlog & Ht & _).
  by eapply replay_logged.
Qed.

(** A refused delete is replayed.  A delete is logged before its locks
    are taken.  Refused because another transaction holds a lock, it reports
    an error and the entity stays; but after a crash the replay drops the
    entity, whose earlier commit marker the scan takes for the delete's. *)
Theorem refused_delete_is_replayed s n log spec existing c id m h keep c' now order wd s1 :
  logged n log s → tracks log spec → id ∈ dom spec → octads s !! id = Some existing →
  io_good c → 0 ≤ n → n + 3 < 2 ^ 64 → loggable id COMMITTED →
  fresh_txn (new_txn c) (txns s) → table_inv (lock_table (txns s)) →
  m ∈ populated (modality_status existing) →
  h ∈ holders_of (lock_table (txns s)) (mkLockKey id m) →
  (∀ X, order X ≡ₚ elements X) → octads s1 = ∅ →
  ∃ s' err w count, delete_octad c id s = (s', Err err) ∧ octads s' !! id = Some existing ∧
    wal s' = Some w ∧
    let '(s2, r) := replay_wal c' now order wd (Some (crash keep (disk w))) s1 in
    r = Ok count ∧ octads s2 !! id = None.
Proof.
  intros Hlog Ht Hid He Hio Hn0 Hn Hl Hf Htab Hm Hh Hord H1. set (T := new_txn c).
  assert (Hne : holder h ≠ T) by (destruct Hf as [_ Hf]; by eapply Hf).
  pose proof (delete_with_in (octads s) (txns s) existing c id Hf s ltac:(done)) as Ho.
  pose proof (delete_logged n log c Hio Hn0 Hn existing id Hl s Hlog) as Hlg. unfold after in Hlg.
  assert (Hrun : delete_octad c id s = delete_with existing c id s).
  { unfold delete_octad, find_existing, sr_read, mbind, sr_bind. by rewrite He. }
  assert (Hfail : is_ok (delete_with existing c id s).2 = false).
  { clear Ho Hlg Hrun. unfold delete_with. cbv zeta.
    pose proof (wal_append_logged n log c "pending" Delete id [] Hio (loggable_nil _ _ Hl) Hn0 ltac:(lia) s Hlog) as Hw.
    assert (Htx : txns (wal_append c "pending" Delete id [] s).1 = txns s) by by keeps_step.
    destruct (wal_append c "pending" Delete id [] s) as [s1' [[]|err]] eqn:E1; [|done].
    rewrite (sr_bind_step _ _ _ _ _ E1).
    set (s2 := set_txn (begin T (clock c "begin") ReadCommitted (txns s1')).1 s1').
    assert (Hb : begin_txn c s1' = (s2, Ok T)) by done. rewrite (sr_bind_step _ _ _ _ _ Hb). simpl in Htx.
    assert (Hin : in_op (octads s1') T (txns s) s2) by (split; [done|]; simpl; rewrite Htx; by apply begin_in).
    assert (Htab2 : table_inv (lock_table (txns s2))) by (simpl; by rewrite Htx).
    pose proof (lock_all_refused (octads s1') T (txns s) c id " for delete" _ m h Hm Hh Hne s2 ltac:(done)) as Hla.
    destruct (lock_all c T id " for delete" (populated (modality_status existing)) s2) as [s3 [[]|err]] eqn:E3; [done|].
    by rewrite (sr_bind_stop _ _ _ _ _ E3). }
  rewrite Hrun. destruct (delete_with existing c id s) as [s' [[]|err]]; [done|].
  destruct Ho as [[Ho _] _].
  assert (Ht' : tracks (log ++ [intent n c Delete id []]) (delete id spec)).
  { intros k. destruct (collected_intent log n c Delete id []) as [-> ->]; [done|]. specialize (Ht k).
    destruct (decide (id = k)) as [<-|Hk].
    - rewrite lookup_delete_eq, lookup_insert_eq. eauto.
    - by rewrite lookup_delete_ne, lookup_insert_ne. }
  destruct (replay_logged _ _ _ s' keep c' now order wd s1 Hlg Ht' Hord H1) as (w & count & Hw & Hr).
  exists s', err, w, count. split_and!; [done|by rewrite Ho|done|].
  destruct (replay_wal _ _ _ _ _ s1) as [s2 r]. destruct Hr as [Hr ->]. split; [done|].
  unfold rebuilt. by rewrite map_lookup_imap, lookup_delete_eq.
Qed.

(** A registered status is that of its key, with a version snapshot taken. *)
Definition registry_ok (reg : gmap string OctadStatus) : Prop :=
  ∀ k st, reg !! k = Some st → st_id st = k ∧ temporal (modality_status st) = true.

Lemma registry_ok_insert reg k st :
  registry_ok reg → st_id st = k → temporal (modality_status st) = true → registry_ok (<[k := st]> reg).
Proof. intros Hr Hi Ht k' st' [[<- <-]|[_ Hl]]%lookup_insert_Some; [done | by apply Hr]. Qed.

Lemma recover_entity_ok now ops acc id :
  registry_ok acc.1 → registry_ok (recover_entity now ops acc id).1.
Proof.
  intros Hr. destruct acc as [reg n]. unfold recover_entity. simpl in *.
  destruct (ops !! id) as [[[] pl]|]; simpl; try done.
  - destruct (from_slice pl); simpl; [by apply registry_ok_insert | done].
  - destruct (from_slice pl); simpl; [by apply registry_ok_insert | done].
  - intros k st [_ Hl]%lookup_delete_Some. by apply Hr.
Qed.

(** C37 (the registry is well formed).  Every request, whether it succeeds or
    fails, and every replay of a log, whatever it contains, keeps each status
    registered under its own identifier and marked as versioned. *)
Theorem registry_well_formed config s :
  registry_ok (octads s) →
  (∀ r, fresh_txn (new_txn (call_of r)) (txns s) → registry_ok (octads (serve config r s).1)) ∧
  (∀ c now order wd d, registry_ok (octads (replay_wal c now order wd d s).1)).
Proof.
  intros Hr. split.
  - intros [c i|c id i|c id] Hf; simpl in Hf |- *.
    + pose proof (create_in config (octads s) (txns s) c i Hf s ltac:(done)) as Ho.
      destruct (create config c i s) as [s' [o|e]]; destruct Ho as [[Ho _] Hst]; cbn [fst]; rewrite Ho; [|done].
      destruct Hst as (_ & Hid & _ & _ & _ & Hms). apply registry_ok_insert; [done..|by rewrite Hms].
    + unfold update, find_existing, sr_read, mbind, sr_bind.
      destruct (octads s !! id) as [existing|] eqn:E; [|done]. cbn [ok_or].
      pose proof (update_with_in config (octads s) (txns s) existing c id i Hf s ltac:(done)) as Ho.
      destruct (update_with config existing c id i s) as [s' [o|e]]; destruct Ho as [[Ho _] Hst]; cbn [fst]; rewrite Ho; [|done].
      destruct Hst as (_ & Hid & _ & _ & _ & Hms & _). apply registry_ok_insert; [done..|].
      rewrite Hms. simpl. by destruct (Hr _ _ E).
    + unfold delete_octad, find_existing, sr_read, mbind, sr_bind.
      destruct (octads s !! id) as [existing|] eqn:E; [|done]. cbn [ok_or].
      pose proof (delete_with_in (octads s) (txns s) existing c id Hf s ltac:(done)) as Ho.
      destruct (delete_with existing c id s) as [s' [[]|e]].
      * destruct Ho as [Ho _]. cbn [fst]. rewrite Ho. intros k st [_ Hl]%lookup_delete_Some. by apply Hr.
      * destruct Ho as [[Ho _] _]. cbn [fst]. by rewrite Ho.
  - intros c now order wd d. unfold replay_wal. destruct (reader_open wd d) as [reader|[]]; try done.
    destruct (replay_all _ _ _) as [it|e]; [|done]. case_bool_decide; [done|].
    assert (Hfold : ∀ ops l acc, registry_ok acc.1 → registry_ok (foldl (recover_entity now ops) acc l).1).
    { intros ops l. induction l as [|k l IH]; intros acc Ha; [done|]. by apply IH, recover_entity_ok. }
    specialize (Hfold (entity_ops (foldl scan_entry recovered_empty (entries it)))
      (order (committed (foldl scan_entry recovered_empty (entries it)))) (octads s, 0%nat) Hr).
    destruct (foldl (recover_entity _ _) _ _) as [reg count]. simpl in Hfold.
    rewrite (sr_bind_step _ _ _ _ () (sr_ok_eq _ _)). cbn [mret sr_ret fst]. by keeps_step.
Qed.

End recovery.

(** ** Witnesses *)

Module Witness.
Import WalTheorems.Example.

(** The repository's stores over trivial third-party parts. *)
#[export] Instance set_order : SetIter := elements.
#[export] Instance set_order_laws : SetIterLaws set_order.
Proof. intros s. reflexivity. Qed.
#[export] Instance map_order : MapIter := λ A m, map_to_list m.
#[export] Instance key_order : KeyIter := {| key_iter := elements; iri_iter := elements |}.
#[export] Instance no_regex : Regex := λ _ _, None.
#[export] Instance libm : Libm := {| f64_sin := λ x, x; f64_cos := λ x, x; f64_asin := λ x, x |}.
#[export] Instance fmt : FmtF64 := λ _, "f"%string.
#[export] Instance leb : ChronoLeb := λ a b, ms a <=? ms b.
#[export] Instance tantivy : Tantivy :=
  {| IndexState := unit; index_delete_term := λ _ i, i; index_add := λ _, mret (); index_commit := mret ();
     ParsedQuery := string; parse_query := λ q _, Ok q;
     search_top := λ _ n _, match n with O => None | S _ => Some (Ok []) end |}.
#[export] Instance tantivy_laws : TantivyLaws tantivy.
Proof. done. Qed.

#[export] Instance stores : Modalities :=
  {| graph_store := Graph.store; vector_store := Vector.store; document_store := Documents.store;
     tensor_store := Tensors.store; semantic_store := Semantics.store; temporal_store := Versions.store;
     provenance_store := Lineage.store (λ _, ""%string) (λ _, ""%string) (λ _, ""%string);
     spatial_store := SpatialIndex.store |}.
#[export] Instance stores_laws : ModalityLaws stores.
Proof.
  exact (Build_ModalityLaws _ stores Vector.laws Documents.laws Tensors.laws Semantics.laws Versions.laws
    (Lineage.laws _ _ _) SpatialIndex.laws).
Defined.

(** Two inputs, and an encoding that tells them apart. *)
Definition doc : OctadInput := with_relationships [("knows", "e2")]%string (with_document "t" "b" input_default).
Definition vect : OctadInput := with_embedding [f64_one] input_default.
Definition both : OctadInput := with_relationships [("knows", "e2")]%string (with_embedding [] input_default).

#[export] Instance env : OctadEnv :=
  {| uuid_display := λ _, "u"%string; to_rfc3339 := λ _, "now"%string; utf8_error_display := λ _, ""%string;
     to_lowercase := λ s, s;
     to_vec := λ i, Some [if present (in_vector i) then Byte.x01 else Byte.x00];
     from_slice := λ l, match l with [Byte.x01] => Some vect | [Byte.x00] => Some doc | _ => None end |}.

Definition cfg : OctadConfig := mkConfig "https://x" 1 false.
Definition call (n : Uuid) (id : string) : Call :=
  mkCall _ (λ _, epoch) id n (λ _, io_ok 0).

Definition fresh_store : OctadStore stores :=
  new Graph.new (Vector.new 1 Vector.Cosine) (Documents.mkDocuments () ∅) ∅ (Semantics.mkSemantics ∅ ∅) ∅ ∅ ∅.

Lemma fresh_fresh T : fresh_txn T (txns fresh_store).
Proof. split; [done|]. by intros k i ?%elem_of_nil. Qed.

Definition existing : OctadStatus := mkStatus "e1" epoch epoch None 1 (input_status doc).
Definition c1 : Call := call 1 "e1".
Definition c2 : Call := call 2 "e2".

Lemma octad_operations_outcome_witness : ∃ o, octads (create cfg c1 doc fresh_store).1 = <["e1"%string := status o]> ∅.
Proof.
  destruct (octad_operations_outcome cfg fresh_store c1 existing "e1" doc (fresh_fresh 1)) as [Ho _].
  destruct (create cfg c1 doc fresh_store) as [s' [o|e]] eqn:E.
  - exists o. apply Ho.
  - exfalso. apply (f_equal (is_ok ∘ snd)) in E. vm_compute in E. discriminate.
Defined.

Lemma create_then_get_witness : ∃ o, get cfg "e1" (create cfg c1 doc fresh_store).1 = Ok (Some o).
Proof.
  destruct (create cfg c1 doc fresh_store) as [s' [o|e]] eqn:E.
  - exists o. apply (create_then_get cfg c1 doc fresh_store s' o E); [|done].
    change (Versions.wf "e1" (temporal_st fresh_store)). split; [|done].
    intros i k v Hi. by destruct i.
  - exfalso. apply (f_equal (is_ok ∘ snd)) in E. vm_compute in E. discriminate.
Defined.

Lemma operations_isolated_witness : get cfg "e2" (create cfg c1 doc fresh_store).1 = Ok None.
Proof. destruct (operations_isolated cfg "e2" c1 existing "e1" doc fresh_store) as [-> _]; done. Defined.

Lemma stale_update_overwrites_witness :
  ∃ o, octads (update_with cfg existing c2 "e1" doc fresh_store).1 !! "e1"%string = Some (status o).
Proof.
  destruct (update_with cfg existing c2 "e1" doc fresh_store) as [s' [o|e]] eqn:E.
  - exists o. by apply (stale_update_overwrites cfg fresh_store s' existing c2 "e1" doc o (fresh_fresh 2) E).
  - exfalso. apply (f_equal (is_ok ∘ snd)) in E. vm_compute in E. discriminate.
Defined.

Lemma delete_outcome_witness :
  get cfg "e1" (delete_with (M:=stores) existing c2 "e1" fresh_store).1 = Ok None.
Proof.
  destruct (delete_with (M:=stores) existing c2 "e1" fresh_store) as [s' [[]|e]] eqn:E.
  - by apply (delete_outcome cfg fresh_store s' existing c2 "e1" (fresh_fresh 2) E).
  - exfalso. apply (f_equal (is_ok ∘ snd)) in E. vm_compute in E. discriminate.
Defined.

Lemma failed_create_keeps_edges_witness :
  ∃ s' msg, create cfg c1 both fresh_store = (s', Err (ValidationError msg)) ∧
    graph_st s' ≠ graph_st fresh_store ∧ get cfg "e1" s' = Ok None.
Proof.
  edestruct (failed_create_keeps_edges cfg fresh_store c1 both) as (s' & msg & Hc & Hg & Hn);
    [done| |apply fresh_fresh|done|done|done|done|reflexivity|].
  - by intros k.
  - exists s', msg. split_and!; [done| |done]. rewrite Hg. intros E.
    apply (f_equal (λ g, size (Graph.edges g))) in E. vm_compute in E. discriminate.
Defined.

(** Transaction 7 locks the document of "e1". *)
Definition lock_doc (s : OctadStore stores) : OctadStore stores :=
  set_txn (acquire_lock 7 "e1" "document" Exclusive (begin 7 epoch ReadCommitted (txns s)).1).1 s.
Definition busy : OctadStore stores := lock_doc fresh_store.

Lemma lock_doc_logged n log s : logged n log s → logged n log (lock_doc s).
Proof. intros Hl. exact Hl. Qed.
Lemma lock_doc_octads s : octads (lock_doc s) = octads s.
Proof. done. Qed.

Lemma busy_table : table_inv (lock_table (txns busy)).
Proof. change (table_inv (acquire 7 "e1" "document" Exclusive empty_table).1). apply acquire_inv, empty_table_inv. Qed.

Lemma busy_fresh : fresh_txn 1 (txns busy).
Proof.
  split; [done|]. intros k i.
  change (lock_table (txns busy)) with (acquire 7 "e1" "document" Exclusive empty_table).1.
  intros [Hi|(_ & -> & _)]%holders_acquire; [by apply elem_of_nil in Hi | done].
Qed.

Lemma busy_held : mkLockInfo 7 Exclusive ∈ holders_of (lock_table (txns busy)) (mkLockKey "e1" "document").
Proof.
  assert (holders_of (lock_table (txns busy)) (mkLockKey "e1" "document") = [mkLockInfo 7 Exclusive]) as ->
    by (vm_compute; reflexivity).
  by left.
Qed.

Lemma conflicting_update_refused_witness :
  ∃ s' err, update_with cfg existing c1 "e1" doc busy = (s', Err err).
Proof.
  destruct (conflicting_update_refused cfg busy existing c1 "e1" doc "document" (mkLockInfo 7 Exclusive))
    as (s' & err & Hu & _); [apply busy_fresh|apply busy_table| |apply busy_held|by exists s', err].
  apply (bool_decide_unpack _). vm_compute. done.
Defined.

(** Creates, an update and a delete, then a crash that keeps nothing unsynchronised. *)
Definition requests : list request :=
  [Create c1 doc; UpdateOf c2 "e1" vect; Create (call 3 "e3") doc; DeleteOf (call 4 "e3") "e3"].

Lemma loggable_short id pl :
  utf8_string id = true →
  (30 + Z.of_nat (length (as_bytes id)) + Z.of_nat (length pl) <=? MAX_ENTRY_SIZE) = true → loggable id pl.
Proof. intros H1 H2. split; [done | by apply Z.leb_le]. Qed.

Lemma encodable_doc id : utf8_string id = true → loggable id COMMITTED → encodable id doc ∧ encodable id vect.
Proof.
  intros Hu Hl. assert (∀ b, loggable id [b]).
  { intros b. destruct Hl as [_ Hl]. split; [done|]. simpl in Hl |- *. lia. }
  split; eexists; (split; [reflexivity|]); (split; [reflexivity|]); by split.
Qed.

Lemma requests_fine : requests_ok ∅ ∅ requests.
Proof.
  assert (Hio : ∀ n id, io_good (call n id)) by (intros n id l; by exists 0).
  assert (He : ∀ id, id = "e1"%string ∨ id = "e3"%string →
            loggable id COMMITTED ∧ encodable id doc ∧ encodable id vect).
  { intros id [->| ->]; (split; [by apply loggable_short|]);
      by apply encodable_doc; [|apply loggable_short]. }
  destruct (He "e1"%string) as (H1 & H2 & H3); [by left|].
  destruct (He "e3"%string) as (H4 & H5 & H6); [by right|].
  cbn [requests requests_ok call_of target_ok new_octad new_txn call c1 c2].
  split_and!; try done; try apply Hio; apply (bool_decide_unpack _); vm_compute; done.
Qed.

Lemma recovery_refines_spec_witness :
  ∃ s0 s spec, with_wal 0 "wal" None Fsync fresh_store = Ok s0 ∧
    foldl (serve_spec cfg) (s0, ∅) requests = (s, spec) ∧ dom (octads s) = dom spec.
Proof.
  destruct (with_wal 0 "wal" None Fsync fresh_store) as [s0|e] eqn:E0; [|discriminate E0].
  destruct (foldl (serve_spec cfg) (s0, ∅) requests) as [s spec] eqn:E. exists s0, s, spec.
  split; [done|]. split; [exact E|].
  apply (recovery_refines_spec cfg 0 "wal" _ _ _ _ _ _ _ _ s0 requests s spec (λ _, 0%nat) c1
    (λ _, epoch) elements E0 requests_fine ltac:(done) E (λ X, reflexivity _)).
Defined.

Lemma registry_well_formed_witness : registry_ok (octads (serve cfg (Create c1 doc) fresh_store).1).
Proof.
  destruct (registry_well_formed cfg fresh_store) as [Hr _]; [by intros k st|].
  apply Hr, fresh_fresh.
Defined.

(** "e1" created in a store with a log, then locked by transaction 7. *)
Definition logged_store : OctadStore stores :=
  match with_wal 0 "wal" None Fsync fresh_store with
  | Ok s => (create cfg c1 doc s).1 | Err _ => fresh_store
  end.
Definition locked_store : OctadStore stores := lock_doc logged_store.

Lemma logged_store_inv :
  ∃ n spec, 0 ≤ n ≤ 4 ∧ "e1"%string ∈ dom spec ∧ ∃ log, logged n log logged_store ∧ tracks log spec.
Proof.
  unfold logged_store. destruct (with_wal 0 "wal" None Fsync fresh_store) as [s0|e] eqn:E0; [|discriminate E0].
  pose proof (open_run_inv _ _ _ _ _ _ _ _ _ _ _ E0) as Hi. destruct requests_fine as (Hio & HT & Ht & Hid & _).
  destruct (serve_create cfg ∅ ∅ 1 ∅ s0 Hi ltac:(lia) ltac:(lia) c1 Hio HT doc Ht Hid) as (n & Hn & Hn0 & Hi').
  assert (E : (serve_spec cfg (s0, ∅) (Create c1 doc)).1 = (create cfg c1 doc s0).1).
  { unfold serve_spec. simpl. by destruct (create cfg c1 doc s0). }
  assert (Hd : "e1"%string ∈ dom (serve_spec cfg (s0, ∅) (Create c1 doc)).2).
  { injection E0 as <-. apply (bool_decide_unpack _). vm_compute. done. }
  rewrite E in Hi'. exists n, (serve_spec cfg (s0, ∅) (Create c1 doc)).2. split; [lia|]. split; [done|].
  destruct (ri_log _ _ _ _ _ Hi') as (log & ? & ? & _). by exists log.
Qed.

Lemma refused_delete_is_replayed_witness :
  ∃ s' err, delete_octad (call 2 "x") "e1" locked_store = (s', Err err) ∧ is_Some (octads s' !! "e1"%string).
Proof.
  destruct logged_store_inv as (n & spec & Hn & Hd & log & Hlog & Ht).
  assert (Htab : lock_table (txns logged_store) = empty_table) by (vm_compute; reflexivity).
  assert (Hlt : lock_table (txns locked_store) = (acquire 7 "e1" "document" Exclusive empty_table).1)
    by (vm_compute; reflexivity).
  assert (Hms : modality_status <$> octads locked_store !! "e1"%string = Some (input_status doc))
    by (vm_compute; reflexivity).
  destruct (octads locked_store !! "e1"%string) as [st|] eqn:Est; [|discriminate Hms].
  injection Hms as Hms.
  edestruct (refused_delete_is_replayed locked_store n log spec st (call 2 "x") "e1" "document"
    (mkLockInfo 7 Exclusive) (λ _, 0%nat) c1 (λ _, epoch) elements "wal" fresh_store)
    as (s' & err & _ & _ & Hdel & Hst & _).
  - by apply lock_doc_logged.
  - exact Ht.
  - exact Hd.
  - exact Est.
  - intros l. by exists 0.
  - lia.
  - lia.
  - by apply loggable_short.
  - split; [vm_compute; reflexivity|]. intros k i. rewrite Hlt.
    intros [Hi|(_ & -> & _)]%holders_acquire; [by apply elem_of_nil in Hi | done].
  - rewrite Hlt. apply acquire_inv, empty_table_inv.
  - rewrite Hms. apply (bool_decide_unpack _). vm_compute. done.
  - rewrite Hlt. assert (holders_of (acquire 7 "e1" "document" Exclusive empty_table).1 (mkLockKey "e1" "document")
      = [mkLockInfo 7 Exclusive]) as -> by (vm_compute; reflexivity). by left.
  - intros X. reflexivity.
  - done.
  - exists s', err. split; [done|]. by exists st.
Defined.

End Witness.
