(* ===== verification/OctadUpdates.v ===== *)
(** What an entity reads back as after an update: the modalities of the input
    are those the update wrote, the others are those it had. *)

From S2P Require Import Prelude Machine Text Float64 LockTable Transaction Temporal Provenance WalEntry WalSegment WalReader WalWriter WalTheorems OctadTypes Modalities ModalityStores OctadStore OctadLemmas OctadOutcomes OctadTheorems.

Local Open Scope Z_scope.

Section updates.
Context `{C : Chrono} `{K : Crc32} `{SetIterLaws} `{!OctadEnv} `{M : !Modalities} `{!ModalityLaws M}.
Context (config : OctadConfig).
Implicit Types (s : OctadStore M).

(** A modality store the input does not name is left alone. *)
Record untouched (i : OctadInput) s s' : Prop := mkUntouched {
  un_graph : in_graph i = None → graph_st s' = graph_st s;
  un_vector : in_vector i = None → vector_st s' = vector_st s;
  un_document : in_document i = None → document_st s' = document_st s;
  un_tensor : in_tensor i = None → tensor_st s' = tensor_st s;
  un_semantic : in_semantic i = None → semantic_st s' = semantic_st s;
  un_provenance : in_provenance i = None → provenance_st s' = provenance_st s;
  un_spatial : in_spatial i = None → spatial_st s' = spatial_st s;
}.

Lemma untouched_trans i s1 s2 s3 : untouched i s1 s2 → untouched i s2 s3 → untouched i s1 s3.
Proof. intros H1 H2. split; intros E; (etrans; [by apply H2|by apply H1]). Qed.

Lemma write_modality_none {I A} cleanup c T e m ver (i : option I)
    (process : I → SR (OctadStore M) OctadError A) ms s s' r :
  write_modality cleanup c T e m ver i process ms s = (s', Ok r) → i = None → s' = s.
Proof. destruct r. intros [_ Hw]%write_modality_Ok ->. by destruct Hw. Qed.

(** A step that writes one store touches no other; one without input touches none. *)
Ltac step_untouched H :=
  split; intros; first [eapply write_modality_kept; [exact H|apply _..] | by rewrite (write_modality_none _ _ _ _ _ _ _ _ _ _ _ _ H)].

Lemma write_all_untouched cleanup c T id ver i ms s s' r :
  write_all_modalities config cleanup c T id ver i ms s = (s', Ok r) → untouched i s s'.
Proof.
  unfold write_all_modalities. intros Hw.
  apply sr_bind_Ok in Hw as (s1 & [g m1] & H1 & Hw). apply sr_bind_Ok in Hw as (s2 & [v m2] & H2 & Hw).
  apply sr_bind_Ok in Hw as (s3 & [d m3] & H3 & Hw). apply sr_bind_Ok in Hw as (s4 & [t m4] & H4 & Hw).
  apply sr_bind_Ok in Hw as (s5 & [a m5] & H5 & Hw). apply sr_bind_Ok in Hw as (s6 & [p m6] & H6 & Hw).
  apply sr_bind_Ok in Hw as (s7 & [l m7] & H7 & Hw). injection Hw as <- _.
  apply (untouched_trans _ _ s1); [step_untouched H1|]. apply (untouched_trans _ _ s2); [step_untouched H2|].
  apply (untouched_trans _ _ s3); [step_untouched H3|]. apply (untouched_trans _ _ s4); [step_untouched H4|].
  apply (untouched_trans _ _ s5); [step_untouched H5|]. apply (untouched_trans _ _ s6); [step_untouched H6|].
  step_untouched H7.
Qed.

(** Steps that write no modality store. *)
Lemma keeps_untouched {E A} (m : SR (OctadStore M) E A) i s s' r :
  m s = (s', r) → Keeps graph_st m → Keeps vector_st m → Keeps document_st m → Keeps tensor_st m → Keeps semantic_st m →
  Keeps provenance_st m → Keeps spatial_st m → untouched i s s'.
Proof. intros Hm ???????. by split; intros _; eapply keeps_eq. Qed.

#[local] Instance no_cleanup_keeps {B} (f : OctadStore M → B) ms : Keeps f (no_cleanup ms).
Proof. apply keeps_ret. Qed.
#[local] Existing Instance write_all_keeps_temporal.

(** The state after a successful [update], seen through what was written. *)
Lemma update_Ok c existing id i s s' o :
  update_with config existing c id i s = (s', Ok o) →
  ∃ w ver t, reads_back config id i w s' ∧ untouched i s s' ∧
    (∃ d msg, temporal_append (clock c "temporal") id d "system" msg (temporal_st s) = (t, Ok ver)) ∧ temporal_st s' = t ∧
    o = octad_of id (mkStatus id (created_at existing) (clock c "now")
          (match in_observed_at <$> in_temporal i with Some t => Some t | None => observed_at existing end)
          ver (merge_status (modality_status existing) i)) w ver ∧
    octads s' !! id = Some (status o).
Proof.
  unfold update_with. cbv zeta. intros Hc.
  apply sr_bind_Ok in Hc as (s1 & [] & H1 & Hc). apply sr_bind_Ok in Hc as (s2 & T & H2 & Hc).
  apply sr_bind_Ok in Hc as (s3 & [] & H3 & Hc). apply sr_bind_Ok in Hc as (s4 & [w ms] & H4 & Hc).
  apply sr_bind_Ok in Hc as (s5 & ver & H5 & Hc). apply sr_bind_Ok in Hc as (s6 & [] & H6 & Hc).
  apply sr_bind_Ok in Hc as (s7 & [] & H7 & Hc). apply sr_bind_Ok in Hc as (s8 & [] & H8 & Hc).
  injection Hc as <- <-. pose proof (write_all_Ok _ _ _ _ _ _ _ _ _ _ _ _ H4) as ->.
  pose proof (write_all_untouched _ _ _ _ _ _ _ _ _ _ H4) as Hun.
  apply write_all_reads in H4 as Hr. apply write_version_Ok in H5 as (t & Ht & ->).
  apply commit_txn_Ok in H6 as (tm & ->). injection H7 as <-.
  assert (Ht0 : temporal_st s4 = temporal_st s).
  { rewrite (keeps_eq temporal_st _ _ _ _ _ H4), (keeps_eq temporal_st _ _ _ _ _ H3),
      (keeps_eq temporal_st _ _ _ _ _ H2). by apply keeps_eq with (f:=temporal_st) in H1; [|apply _]. }
  rewrite Ht0 in Ht. exists w, ver, t. split_and!; [| | | |done|].
  - revert Hr. apply reads_back_same;
      match goal with |- ?f _ = _ => by rewrite (keeps_eq f _ _ _ _ _ H8) end.
  - apply (untouched_trans _ _ s1); [eapply keeps_untouched; [exact H1|apply _..]|].
    apply (untouched_trans _ _ s2); [eapply keeps_untouched; [exact H2|apply _..]|].
    apply (untouched_trans _ _ s3); [eapply keeps_untouched; [exact H3|apply _..]|].
    apply (untouched_trans _ _ s4); [exact Hun|]. eapply untouched_trans; [|eapply keeps_untouched; [exact H8|apply _..]].
    by split.
  - by eexists _, _.
  - by rewrite (keeps_eq temporal_st _ _ _ _ _ H8).
  - rewrite (keeps_eq octads _ _ _ _ _ H8). simpl. by rewrite lookup_insert_eq.
Qed.
(** ** The updated entity *)

(** What the input names comes from [new], the rest from [old]; [n] versions. *)
Definition overlay (i : OctadInput) (old new : Octad) (n : Z) : Octad :=
  let pick {A} (b : bool) (x y : A) := if b then x else y in
  mkOctad (oc_id old) (status new)
    (pick (present (in_graph i)) (graph_node new) (graph_node old))
    (pick (present (in_vector i)) (oc_embedding new) (oc_embedding old))
    (pick (present (in_tensor i)) (oc_tensor new) (oc_tensor old))
    (pick (present (in_semantic i)) (oc_semantic new) (oc_semantic old))
    (pick (present (in_document i)) (oc_document new) (oc_document old))
    n
    (pick (present (in_provenance i)) (provenance_chain_length new) (provenance_chain_length old))
    (pick (present (in_spatial i)) (spatial_data new) (spatial_data old)).

(** One modality of the loaded entity, by its flag and its store. *)
Lemma flag_overlay {I A} (flag : bool) (i : option I) (before after : result OctadError (option A)) (old new : option A) :
  (i = None → after = before) → when_flag flag before = Ok old → when_flag (present i) after = Ok new →
  when_flag (flag || present i) after = Ok (if present i then new else old).
Proof.
  intros Hi Hold Hnew. destruct i as [x|]; cbn in *; [by rewrite orb_true_r|].
  rewrite orb_false_r. by rewrite Hi.
Qed.

(** What [get] returns after a successful [update]. *)
Lemma update_read c i id s s' o old :
  update config c id i s = (s', Ok o) → temporal_wf id (temporal_st s) → get config id s = Ok (Some old) →
  get config id s' =
    Ok (Some (overlay i old o (match temporal_history id 999 (temporal_st s) with
                               | Ok h => Z.of_nat (S (length h)) | Err _ => 0 end))).
Proof.
  intros Hu Hwf Hold. unfold update in Hu. apply sr_bind_Ok in Hu as (s0 & existing & Hex & Hu).
  unfold find_existing, sr_read in Hex. injection Hex as <- Hex%ok_or_Ok.
  apply update_Ok in Hu as (w & ver & t & Hr & Hun & (d & msg & Ht) & Ht' & -> & Hl).
  unfold get, load_octad in *. rewrite Hex in Hold. rewrite Hl.
  apply bind_Ok in Hold as (e & He & Hold). apply bind_Ok in Hold as (dd & Hd & Hold).
  apply bind_Ok in Hold as (ten & Hten & Hold). apply bind_Ok in Hold as (sem & Hsem & Hold).
  apply bind_Ok in Hold as (sp & Hsp & Hold). injection Hold as <-.
  cbn [octad_of status modality_status merge_status graph vec document tensor semantic provenance spatial].
  destruct Hr as [Hg Hv Hdoc Ht2 Hs Hp Hspa].
  rewrite (flag_overlay _ (in_vector i) _ _ _ _ (λ E, f_equal _ (f_equal (vector_get id) (un_vector _ _ _ Hun E))) He Hv).
  cbn [mbind result_bind].
  rewrite (flag_overlay _ (in_document i) _ _ _ _ (λ E, f_equal _ (f_equal (document_get id) (un_document _ _ _ Hun E))) Hd Hdoc).
  cbn [mbind result_bind].
  rewrite (flag_overlay _ (in_tensor i) _ _ _ _ (λ E, f_equal _ (f_equal (tensor_get id) (un_tensor _ _ _ Hun E))) Hten Ht2).
  cbn [mbind result_bind].
  rewrite (flag_overlay _ (in_semantic i) _ _ _ _ (λ E, f_equal _ (f_equal (semantic_get id) (un_semantic _ _ _ Hun E))) Hsem Hs).
  cbn [mbind result_bind].
  rewrite (flag_overlay _ (in_spatial i) _ _ _ _ (λ E, f_equal _ (f_equal (spatial_get id) (un_spatial _ _ _ Hun E))) Hsp Hspa).
  cbn [mbind result_bind]. unfold overlay. cbn [oc_id status graph_node oc_embedding oc_tensor oc_semantic oc_document
    provenance_chain_length spatial_data].
  rewrite Ht', (temporal_history_append _ _ _ _ _ _ _ _ 999 Hwf Ht). do 3 f_equal.
  - cbn [graph_node octad_of]. rewrite Hg. destruct (in_graph i); cbn; [by rewrite orb_true_r|by rewrite orb_false_r].
  - by destruct (temporal_history id 999 (temporal_st s)).
  - cbn [provenance_chain_length octad_of]. rewrite <- Hp. destruct (in_provenance i) eqn:E; cbn; [by rewrite orb_true_r|].
    by rewrite orb_false_r, (un_provenance _ _ _ Hun E).
Qed.

(** What [update] does to the stores. *)
Lemma update_stores c i id s s' o :
  update config c id i s = (s', Ok o) →
  untouched i s s' ∧
  ∃ d msg ver, temporal_append (clock c "temporal") id d "system" msg (temporal_st s) = (temporal_st s', Ok ver).
Proof.
  unfold update. intros (s0 & existing & Hex & Hu)%sr_bind_Ok. unfold find_existing, sr_read in Hex.
  injection Hex as <- _. apply update_Ok in Hu as (w & ver & t & _ & Hun & (d & msg & Ht) & <- & _).
  split; [done|]. by exists d, msg, ver.
Qed.

(** C15 (an update replaces what it names).  When the entity could be read
    before a successful [update], [get] afterwards returns it with the
    modalities of the input as [update] returned them, every other modality as it was,
    the status [update] registered and one more version, counted up to a thousand. *)
Theorem update_then_get c i id s s' o old :
  update config c id i s = (s', Ok o) → temporal_wf id (temporal_st s) → get config id s = Ok (Some old) →
  get config id s' =
    Ok (Some (overlay i old o (match temporal_history id 999 (temporal_st s) with
                               | Ok h => Z.of_nat (S (length h)) | Err _ => 0 end))).
Proof. apply update_read. Qed.

End updates.

(** ** Witness *)

Module Witness.
Import WalTheorems.Example OctadTheorems.Witness.

(** A vector added to a created document. *)
Definition created : OctadStore stores := (create cfg c1 doc fresh_store).1.

Lemma wf_single (m : gmap string (@VersionMap Versions.time OctadSnapshot)) (k : string) :
  (λ p : Z * @Temporal.Version Versions.time OctadSnapshot, (p.1, Temporal.version p.2)) <$> default [] (m !! k) = [(1, 1)] → Versions.wf k m.
Proof.
  unfold Versions.wf. destruct (default [] (m !! k)) as [|[n v] [|? ?]]; [done| |done]. cbn. intros [= -> Hv].
  split; [|cbn; lia]. intros [|i] n' v' [= <- <-]. by rewrite Hv.
Qed.

Lemma created_wf : Versions.wf "e1" (temporal_st created).
Proof. apply wf_single. vm_compute. reflexivity. Qed.

Definition found (r : result OctadError (option Octad)) : bool := match r with Ok (Some _) => true | _ => false end.

Lemma update_then_get_witness :
  ∃ old o, get cfg "e1" (update cfg c2 "e1" vect created).1 = Ok (Some (overlay vect old o 2)).
Proof.
  destruct (update cfg c2 "e1" vect created) as [s' [o|e]] eqn:E.
  - destruct (get cfg "e1" created) as [[old|]|e] eqn:G.
    + exists old, o. apply (update_then_get cfg c2 vect "e1" created s' o old E); [|done]. exact created_wf.
    + exfalso. apply (f_equal found) in G. vm_compute in G. discriminate.
    + exfalso. apply (f_equal found) in G. vm_compute in G. discriminate.
  - exfalso. apply (f_equal (is_ok ∘ snd)) in E. vm_compute in E. discriminate.
Defined.

End Witness.
