(* ===== verification/ModalityTheorems.v ===== *)
(** Properties of the in-memory modality stores: the graph's indices and its
    neighbourhood search, and the ranked searches of the vector and spatial
    stores. *)

From S2P Require Import Prelude Machine Text Float64 Collections OctadTypes Modalities ModalityStores.

Local Open Scope Z_scope.

(** ** The graph *)

Section graph.
Context `{KeyIterLaws}.
Implicit Types (g : Graph.Store) (e : GraphEdge) (u v : string).

(** Every edge is filed under its key and its subject, and the subject index
    holds nothing else; an edge to a node is in that node's entry. *)
Record graph_ok g : Prop := mkGraphOk {
  go_key key e : Graph.edges g !! key = Some e → Graph.from_edge e = key;
  go_subject u keys : Graph.subject_idx g !! u = Some keys → keys ≠ ∅;
  go_subject_iff u key :
    key ∈ default ∅ (Graph.subject_idx g !! u) ↔ is_Some (Graph.edges g !! key) ∧ key.1.1 = u;
  go_object key e n : Graph.edges g !! key = Some e → object e = Node n →
    key ∈ default ∅ (Graph.object_idx g !! iri n);
}.

Lemma idx_insert_iff k key idx u x :
  x ∈ default ∅ (Graph.idx_insert k key idx !! u) ↔ (u = k ∧ x = key) ∨ x ∈ default ∅ (idx !! u).
Proof.
  unfold Graph.idx_insert. destruct (decide (u = k)) as [->|Hne].
  - rewrite lookup_insert_eq. simpl. set_solver.
  - rewrite lookup_insert_ne by done. naive_solver.
Qed.

Lemma idx_remove_iff k key idx u x :
  x ∈ default ∅ (Graph.idx_remove k key idx !! u) ↔ ¬ (u = k ∧ x = key) ∧ x ∈ default ∅ (idx !! u).
Proof.
  unfold Graph.idx_remove. destruct (idx !! k) as [keys|] eqn:E.
  - case_bool_decide as He; destruct (decide (u = k)) as [->|Hne];
      rewrite ?lookup_delete_eq, ?lookup_insert_eq, ?lookup_delete_ne, ?lookup_insert_ne, ?E by done; simpl;
      set_solver.
  - destruct (decide (u = k)) as [->|Hne]; [rewrite E; simpl; set_solver | naive_solver].
Qed.

Lemma idx_insert_nonempty k key idx u keys :
  (∀ u keys, idx !! u = Some keys → keys ≠ ∅) → Graph.idx_insert k key idx !! u = Some keys → keys ≠ ∅.
Proof. intros Hi. unfold Graph.idx_insert. intros [[_ <-]|[_ Hu]]%lookup_insert_Some; [set_solver | eauto]. Qed.

Lemma idx_remove_nonempty k key idx u keys :
  (∀ u keys, idx !! u = Some keys → keys ≠ ∅) → Graph.idx_remove k key idx !! u = Some keys → keys ≠ ∅.
Proof.
  intros Hi. unfold Graph.idx_remove. destruct (idx !! k) as [ks|]; [|by apply Hi].
  case_bool_decide as He; [intros [_ Hu]%lookup_delete_Some; eauto|].
  intros [[_ <-]|[_ Hu]]%lookup_insert_Some; [done | eauto].
Qed.

Lemma graph_new_ok : graph_ok Graph.new.
Proof.
  split; simpl.
  - intros key e. by rewrite lookup_empty.
  - intros u keys. by rewrite lookup_empty.
  - intros u key. rewrite lookup_empty. simpl. rewrite elem_of_empty, lookup_empty.
    split; [done | by intros [[? ?] _]].
  - intros key e n. by rewrite lookup_empty.
Qed.

Lemma graph_insert_ok e g : graph_ok g → graph_ok (Graph.insert e g).1.
Proof.
  intros [Hk Hn Hs Ho]. split; simpl.
  - intros key e' [[<- <-]|[_ Hl]]%lookup_insert_Some; [done | by apply Hk].
  - intros u keys. by apply idx_insert_nonempty.
  - intros u key. rewrite idx_insert_iff, Hs, lookup_insert_is_Some'. split.
    + intros [[-> ->]|[? ?]]; [split; [by left | done] | split; [by right | done]].
    + intros [[<-|?] ?]; [by left; split | by right].
  - intros key e' n [[<- <-]|[Hne Hl]]%lookup_insert_Some Hob.
    + rewrite Hob, idx_insert_iff. by left.
    + pose proof (Ho _ _ _ Hl Hob). destruct (object e); [rewrite idx_insert_iff; by right | done].
Qed.

Lemma graph_delete_ok e g : graph_ok g → graph_ok (Graph.delete_edge e g).1.
Proof.
  intros [Hk Hn Hs Ho]. split; simpl.
  - intros key e' [_ Hl]%lookup_delete_Some. by apply Hk.
  - intros u keys. by apply idx_remove_nonempty.
  - intros u key. rewrite idx_remove_iff, Hs, lookup_delete_is_Some. split.
    + intros (Hne & Hl & Hu). split; [|done]. split; [|done]. intros <-. by apply Hne.
    + intros ((Hne & Hl) & Hu). split; [|done]. intros [_ ->]. done.
  - intros key e' n [Hne Hl]%lookup_delete_Some Hob. pose proof (Ho _ _ _ Hl Hob).
    destruct (object e); [rewrite idx_remove_iff; split; [naive_solver|done] | done].
Qed.

Lemma elem_of_lookup_keys idx u g e :
  e ∈ Graph.lookup_keys idx u g ↔ ∃ key, key ∈ default ∅ (idx !! u) ∧ Graph.edges g !! key = Some e.
Proof.
  unfold Graph.lookup_keys. destruct (idx !! u) as [keys|]; simpl.
  - rewrite list_elem_of_omap. split; intros (key & Hin & He); exists key; (split; [|done]).
    + by rewrite key_iter_perm, elem_of_elements in Hin.
    + by rewrite key_iter_perm, elem_of_elements.
  - split; [by intros ?%elem_of_nil | by intros (? & ?%elem_of_empty & _)].
Qed.

(** ** Neighbourhoods *)

(** One hop, in either direction, as [outgoing] and [incoming] answer. *)
Definition adjacent g u v : Prop :=
  (∃ e n, e ∈ Graph.lookup_keys (Graph.subject_idx g) u g ∧ object e = Node n ∧ iri n = v) ∨
  (∃ e, e ∈ Graph.lookup_keys (Graph.object_idx g) u g ∧ iri (subject e) = v).

Fixpoint within g (hops : nat) (u v : string) : Prop :=
  match hops with
  | O => u = v
  | S hops => within g hops u v ∨ ∃ x, within g hops u x ∧ adjacent g x v
  end.

Implicit Types (st : gset string * list GraphNode).

(** What a fold of visits achieves: [fs] is the list of nodes visited. *)
Definition visits (l : list string) st st' : Prop :=
  (∀ v, v ∈ st'.1 ↔ v ∈ st.1 ∨ v ∈ l) ∧
  (∀ v, v ∈ st'.1 → v ∈ st.1 ∨ v ∈ iri <$> st'.2) ∧
  (∀ v, v ∈ iri <$> st.2 → v ∈ iri <$> st'.2) ∧
  (∀ v, v ∈ iri <$> st'.2 → v ∈ iri <$> st.2 ∨ v ∈ st'.1).

Lemma visits_nil st : visits [] st st.
Proof. split_and!; set_solver. Qed.

Lemma visits_app l1 l2 st1 st2 st3 :
  visits l1 st1 st2 → visits l2 st2 st3 → visits (l1 ++ l2) st1 st3.
Proof.
  intros (A1 & A2 & A3 & A4) (B1 & B2 & B3 & B4). split_and!; intros v.
  - rewrite B1, A1, elem_of_app. tauto.
  - intros [Hv|Hv]%B2; [apply A2 in Hv as [?|?]; auto | auto].
  - auto.
  - intros [Hv|Hv]%B4; [apply A4 in Hv as [?|?]; [auto|right; apply B1; auto] | auto].
Qed.

Lemma visits_visit n st : visits [iri n] st (Graph.visit n st).
Proof.
  unfold visits, Graph.visit. case_bool_decide as Hv; simpl; split_and!; intros v;
    rewrite ?elem_of_union, ?elem_of_singleton, ?fmap_app, ?elem_of_app; set_solver.
Qed.

Lemma foldl_visits {A} (f : gset string * list GraphNode → A → gset string * list GraphNode)
    (ls : A → list string) (l : list A) st :
  (∀ x st, visits (ls x) st (f st x)) → visits (mjoin (ls <$> l)) st (foldl f st l).
Proof.
  intros Hf. revert st. induction l as [|x l IH]; intros st; simpl; [apply visits_nil|].
  eapply visits_app; [apply Hf | apply IH].
Qed.

Definition out_of g u : list string :=
  mjoin ((λ e, match object e with Node n => [iri n] | Literal _ _ => [] end) <$>
    Graph.lookup_keys (Graph.subject_idx g) u g).
Definition in_of g u : list string :=
  mjoin ((λ e, [iri (subject e)]) <$> Graph.lookup_keys (Graph.object_idx g) u g).

Lemma adjacent_iff g u v : adjacent g u v ↔ v ∈ out_of g u ++ in_of g u.
Proof.
  unfold adjacent, out_of, in_of. rewrite elem_of_app, !list_elem_of_join. split.
  - intros [(e & n & He & Ho & <-)|(e & He & <-)]; [left; exists [iri n] | right; exists [iri (subject e)]];
      (split; [by left|]); apply list_elem_of_fmap; exists e; [by rewrite Ho | done].
  - intros [(l & Hv & (e & -> & He)%list_elem_of_fmap)|(l & Hv & (e & -> & He)%list_elem_of_fmap)].
    + left. destruct (object e) as [n|] eqn:Ho; [|by apply elem_of_nil in Hv].
      apply list_elem_of_singleton in Hv as ->. eauto.
    + right. apply list_elem_of_singleton in Hv as ->. eauto.
Qed.

Lemma expand_visits g n st : visits (out_of g (iri n) ++ in_of g (iri n)) st (Graph.expand g st n).
Proof.
  unfold Graph.expand. eapply visits_app; apply foldl_visits.
  - intros e st'. unfold Graph.visit_out. destruct (object e); [apply visits_visit | apply visits_nil].
  - intros e st'. apply visits_visit.
Qed.

(** After [k] hops: what is within [k], and the frontier covers what is not yet
    expanded. *)
Definition bfs_ok g u (k : nat) st : Prop :=
  (∀ v, v ∈ st.1 ↔ within g k u v) ∧ (∀ v, v ∈ iri <$> st.2 → v ∈ st.1) ∧
  (∀ v x, v ∈ st.1 → adjacent g v x → x ∈ st.1 ∨ v ∈ iri <$> st.2).

Lemma hop_ok g u k st : bfs_ok g u k st → bfs_ok g u (S k) (Graph.hop g st).
Proof.
  intros (Hv & Hf & Ha).
  assert (Hs : visits (mjoin ((λ n, out_of g (iri n) ++ in_of g (iri n)) <$> st.2)) (st.1, []) (Graph.hop g st))
    by (apply foldl_visits; intros; apply expand_visits).
  destruct Hs as (S1 & S2 & _ & S4). simpl in *.
  assert (Hl : ∀ x, x ∈ mjoin ((λ n, out_of g (iri n) ++ in_of g (iri n)) <$> st.2) ↔
                 ∃ v, v ∈ iri <$> st.2 ∧ adjacent g v x).
  { intros x. rewrite list_elem_of_join. split.
    - intros (l & Hx & (n & -> & Hn)%list_elem_of_fmap). exists (iri n).
      rewrite adjacent_iff. split; [by apply list_elem_of_fmap_2 | done].
    - intros (v & (n & -> & Hn)%list_elem_of_fmap & Hx%adjacent_iff). eexists. split; [exact Hx|].
      apply list_elem_of_fmap. eauto. }
  assert (H1 : ∀ x, x ∈ (Graph.hop g st).1 ↔ within g (S k) u x).
  { intros x. rewrite S1, Hl. cbn [within]. rewrite Hv. split.
    - intros [?|(v & Hin & Hadj)]; [by left|]. right. exists v. split; [by apply Hv, Hf | done].
    - intros [?|(v & Hw & Hadj)]; [by left|]. apply Hv in Hw.
      destruct (Ha v x Hw Hadj) as [Hx|Hx]; [left; by apply Hv | right; eauto]. }
  split_and!; [done| |].
  - intros v Hin. apply S4 in Hin as [Hin|?]; [by apply elem_of_nil in Hin | done].
  - intros v x Hin Hadj. apply S2 in Hin as [Hin|?]; [|by right].
    left. apply H1. cbn [within]. right. exists v. split; [by apply Hv | done].
Qed.

(** Neighbourhood search.  [neighborhood] with [hops] returns, once each,
    exactly the nodes that some walk of at most [hops] steps reaches, a step
    following an outgoing or an incoming edge. *)
Theorem neighborhood_reachable n hops g :
  ∃ l, Graph.neighborhood n hops g = Ok l ∧ NoDup (iri <$> l) ∧
    ∀ v, v ∈ iri <$> l ↔ within g hops (iri n) v.
Proof.
  eexists. split; [reflexivity|].
  assert (Hiri : iri <$> (GraphNode_new <$> iri_iter (Graph.reached n hops g)) = iri_iter (Graph.reached n hops g)).
  { rewrite <- list_fmap_compose. apply list_fmap_id. }
  rewrite Hiri. split; [rewrite iri_iter_perm; apply NoDup_elements|].
  intros v. rewrite iri_iter_perm, elem_of_elements. unfold Graph.reached.
  assert (Hok : bfs_ok g (iri n) hops (Nat.iter hops (Graph.hop g) ({[iri n]}, [n]))).
  { clear Hiri. induction hops as [|hops IH]; [|by apply hop_ok]. split_and!; simpl.
    - intros x. set_solver.
    - intros x. set_solver.
    - intros x y ->%elem_of_singleton _. right. by left. }
  apply Hok.
Qed.

(** The graph's answers.  In a graph built by insertions and deletions
    [outgoing] returns exactly the stored edges with that subject. *)
Theorem outgoing_exact n g :
  graph_ok g →
  ∃ l, Graph.outgoing n g = Ok l ∧
    ∀ e, e ∈ l ↔ Graph.edges g !! Graph.from_edge e = Some e ∧ iri (subject e) = iri n.
Proof.
  intros Hg. eexists. split; [reflexivity|]. intros e. rewrite elem_of_lookup_keys. split.
  - intros (key & Hin & He). pose proof (go_key g Hg _ _ He) as <-. split; [done|].
    by apply (go_subject_iff g Hg) in Hin as [_ ?].
  - intros [He Hs]. exists (Graph.from_edge e). split; [|done].
    apply (go_subject_iff g Hg). split; [by eexists | done].
Qed.

End graph.

(** ** Ranked searches *)

Section searches.
Context `{MapIterLaws} `{Libm} `{FmtF64}.

(** The similarity of every stored embedding to the query. *)
Definition scores (query : list f32) (s : Vector.Store) : list (string * f32) :=
  (λ p, (p.1, Vector.similarity (Vector.metric s) query (vector p.2))) <$> map_to_list (Vector.embeddings s).

(** Vector search.  [search] refuses a query of the wrong dimension and
    otherwise returns the [k] most similar stored embeddings, or all of them
    when there are fewer, best first, whatever order the map is iterated in;
    the similarities must be numbers. *)
Theorem vector_search_best query k (s : Vector.Store) :
  numbers snd (scores query s) →
  if (length query =? Vector.dimension s)%nat then
    ∃ l, Vector.search query k s = Ok l ∧ best (descending snd) k (scores query s) l
  else Vector.search query k s = Err (Vector.mismatch (Vector.dimension s) (length query)).
Proof.
  intros Hn. unfold Vector.search. destruct (length query =? _)%nat; [|done].
  eexists. split; [reflexivity|].
  set (l := _ <$> map_iter _).
  assert (Hl : l ≡ₚ scores query s) by (unfold l, scores; by rewrite map_iter_perm).
  eapply best_perm; [exact Hl|]. apply (ranked_descending snd). unfold numbers. by rewrite Hl.
Qed.

(** The distance of every stored location to a point. *)
Definition distances (p : Coordinates) (s : SpatialIndex.Store) : list SpatialIndex.SpatialSearchResult :=
  SpatialIndex.result_from p <$> map_to_list s.

(** Radius search.  [search_radius] returns the nearest [limit] of
    exactly the entities within the radius, nearest first. *)
Theorem search_radius_best center radius limit (s : SpatialIndex.Store) :
  numbers SpatialIndex.distance_km (distances center s) →
  ∃ l, SpatialIndex.search_radius center radius limit s = Ok l ∧
    best (ascending SpatialIndex.distance_km) limit
      (retain (λ r, f64_leb (SpatialIndex.distance_km r) radius) (distances center s)) l.
Proof.
  intros Hn. eexists. split; [reflexivity|]. unfold SpatialIndex.ranked.
  set (l := retain _ (_ <$> map_iter s)).
  assert (Hl : l ≡ₚ retain (λ r, f64_leb (SpatialIndex.distance_km r) radius) (distances center s)).
  { unfold l, distances. by rewrite map_iter_perm. }
  eapply best_perm; [exact Hl|]. apply (ranked_ascending SpatialIndex.distance_km).
  unfold numbers. rewrite Hl. apply Forall_forall. intros r [Hin _]%elem_of_retain.
  by eapply (proj1 (Forall_forall _ _) Hn).
Qed.

End searches.

(** ** The tensor store *)

Section tensors.
Import Tensors.
Context `{N : Ndarray}.

(** The number of elements of a shape, and the lanes of an axis: the elements
    whose indices differ in that axis only, by the other indices in row-major
    order. *)
Definition volume (s : list Z) : Z := foldr Z.mul 1 s.
Definition lane_at (d : list f64) (n inner o j : Z) : list f64 :=
  (λ i, default f64_zero (d !! Z.to_nat ((o * n + i) * inner + j))) <$> seqZ 0 n.
Definition lanes (s : list Z) (d : list f64) (k : nat) : list (list f64) :=
  let n := default 0 (s !! k) in
  let inner := volume (drop (S k) s) in
  o ← seqZ 0 (volume (take k s)); lane_at d n inner o <$> seqZ 0 inner.

Class NdarrayLaws := {
  from_shape_vec_Some s d a : from_shape_vec s d = Some a →
    arr_shape a = s ∧ arr_iter a = d ∧ volume s = Z.of_nat (length d);
  from_shape_vec_fits s d : Forall (λ n, 0 < n) s → volume s = Z.of_nat (length d) → is_Some (from_shape_vec s d);
  sum_axis_shape k a : (k < length (arr_shape a))%nat → arr_shape (sum_axis k a) = delete k (arr_shape a);
  mean_axis_Some k a n : arr_shape a !! k = Some n → 0 < n →
    ∃ b, mean_axis k a = Some b ∧ arr_shape b = delete k (arr_shape a);
  map_axis_spec k f a : (k < length (arr_shape a))%nat →
    arr_shape (map_axis k f a) = delete k (arr_shape a) ∧
    arr_iter (map_axis k f a) = f <$> lanes (arr_shape a) (arr_iter a) k;
}.
Context `{!NdarrayLaws}.

(** Reduction.  A tensor whose shape has no empty axis and fits its data can be
    reduced along each of its axes without a panic: the axis disappears from
    the shape, and the maximum, the minimum and the product are those of each
    lane; an axis out of range is refused. *)
Theorem reduce_outcome id axis op (s : Store) t :
  s !! id = Some t → Forall (λ n, 0 < n) (shape t) → volume (shape t) = Z.of_nat (length (tensor_data t)) → 0 ≤ axis →
  (Z.of_nat (length (shape t)) ≤ axis ∧ ∃ m, reduce id axis op s = Some (Err (TensorInvalidOperation m))) ∨
  (axis < Z.of_nat (length (shape t)) ∧
   ∃ r, reduce id axis op s = Some (Ok r) ∧ tensor_id r = cat [tensor_id t; "_reduced"%string] ∧
     shape r = delete (Z.to_nat axis) (shape t) ∧
     let ls := lanes (shape t) (tensor_data t) (Z.to_nat axis) in
     match op with
     | Max => tensor_data r = lane_max <$> ls
     | Min => tensor_data r = lane_min <$> ls
     | Prod => tensor_data r = lane_product <$> ls
     | Sum | Mean => True
     end).
Proof.
  intros Hs Hpos Hv Ha. unfold reduce. rewrite Hs. destruct (Z.leb_spec (Z.of_nat (length (shape t))) axis) as [Hl|Hl]; [left; eauto|].
  right. split; [done|]. unfold to_ndarray. destruct (from_shape_vec_fits _ _ Hpos Hv) as [a Ea]. rewrite Ea. cbn.
  destruct (from_shape_vec_Some _ _ _ Ea) as (Es & Ed & _).
  assert (Z.to_nat axis < length (arr_shape a))%nat as Hk by (rewrite Es; lia).
  destruct (lookup_lt_is_Some_2 _ _ Hk) as [n Hn].
  assert (0 < n) as Hn0. { rewrite Es in Hn. by apply (Forall_lookup_1 _ _ _ _ Hpos Hn). }
  rewrite <- Es, <- Ed. destruct op; cbn.
  - eexists. split_and!; [done..| |done]. by apply sum_axis_shape.
  - destruct (mean_axis_Some _ _ _ Hn Hn0) as (b & Eb & Hb). rewrite Eb. cbn. by eexists.
  - destruct (map_axis_spec _ lane_max _ Hk) as [E1 E2]. eexists. by split_and!.
  - destruct (map_axis_spec _ lane_min _ Hk) as [E1 E2]. eexists. by split_and!.
  - destruct (map_axis_spec _ lane_product _ Hk) as [E1 E2]. eexists. by split_and!.
Qed.

(** The length of the data is compared with a product that has wrapped: a
    tensor without data and with an astronomical shape can be made and stored,
    and reducing it panics. *)
Lemma wrapped_shape_panics id op :
  ∃ t, Tensor_new id [2 ^ 32; 2 ^ 32] [] = Ok t ∧ reduce id 0 op (put t ∅).1 = None.
Proof.
  eexists. split; [done|]. unfold reduce, put. cbn. rewrite lookup_insert_eq. cbn. unfold to_ndarray. cbn.
  destruct (from_shape_vec _ _) as [a|] eqn:E; [|done]. by apply from_shape_vec_Some in E as (_ & _ & Hv).
Qed.

End tensors.

(** ** Witnesses *)

Module Witness.

#[export] Instance map_order : MapIter := λ A m, map_to_list m.
#[export] Instance map_order_laws : MapIterLaws map_order.
Proof. intros A m. reflexivity. Defined.
#[export] Instance key_order : KeyIter := {| key_iter := elements; iri_iter := elements |}.
#[export] Instance key_order_laws : KeyIterLaws key_order.
Proof. by split. Defined.
#[export] Instance libm : Libm := {| f64_sin := λ x, x; f64_cos := λ x, x; f64_asin := λ x, x |}.
#[export] Instance fmt : FmtF64 := λ _, "f"%string.

Definition knows : GraphEdge :=
  mkEdge (GraphNode_new "a") (GraphNode_new "knows") (Node (GraphNode_new "b")).

Lemma outgoing_exact_witness :
  ∃ l, Graph.outgoing (GraphNode_new "a") (Graph.insert knows Graph.new).1 = Ok l ∧ knows ∈ l.
Proof.
  destruct (outgoing_exact (GraphNode_new "a") (Graph.insert knows Graph.new).1) as (l & Hl & He).
  - apply graph_insert_ok, graph_new_ok.
  - exists l. split; [done|]. apply He. split; [apply lookup_insert_eq | reflexivity].
Defined.

Lemma neighborhood_reachable_witness :
  ∃ l, Graph.neighborhood (GraphNode_new "b") 1 (Graph.insert knows Graph.new).1 = Ok l ∧ "a"%string ∈ iri <$> l.
Proof.
  destruct (neighborhood_reachable (GraphNode_new "b") 1 (Graph.insert knows Graph.new).1) as (l & Hl & _ & He).
  exists l. split; [exact Hl|]. apply He. right. exists "b"%string. split; [reflexivity|]. apply adjacent_iff. vm_compute. by left.
Defined.

Definition near : Vector.Store :=
  Vector.mkVectors 1 Vector.DotProduct
    {["a"%string := mkEmbedding "a" [f64_one] ∅; "b"%string := mkEmbedding "b" [f64_zero] ∅]}.

Lemma vector_search_best_witness : ∃ l, Vector.search [f64_one] 1 near = Ok l ∧ length l = 1%nat.
Proof.
  destruct (vector_search_best [f64_one] 1 near) as (l & Hl & Hlen & _).
  - repeat constructor.
  - exists l. split; [exact Hl|]. by rewrite Hlen.
Defined.

Definition here : Coordinates := mkCoordinates f64_zero f64_zero None.
Definition places : SpatialIndex.Store := {["a"%string := mkSpatialData here Point 4326 ∅]}.

Lemma search_radius_best_witness :
  ∃ l, SpatialIndex.search_radius here f64_one 5 places = Ok l ∧ length l = 1%nat.
Proof.
  destruct (search_radius_best here f64_one 5 places) as (l & Hl & Hlen & _).
  - repeat constructor.
  - exists l. split; [exact Hl|]. by rewrite Hlen.
Defined.

(** Arrays as shape and data. *)
#[local] Instance arrays : Tensors.Ndarray := {|
  Tensors.ArrayD := list Z * list f64;
  Tensors.from_shape_vec := λ s d, if volume s =? Z.of_nat (length d) then Some (s, d) else None;
  Tensors.arr_shape := fst; Tensors.arr_iter := snd;
  Tensors.sum_axis := λ k a, (delete k a.1, f64_sum <$> lanes a.1 a.2 k);
  Tensors.mean_axis := λ k a,
    n ← a.1 !! k; if n =? 0 then None else
    Some (delete k a.1, (λ l, f64_div (f64_sum l) (f64_of_u64 n)) <$> lanes a.1 a.2 k);
  Tensors.map_axis := λ k f a, (delete k a.1, f <$> lanes a.1 a.2 k) |}.

#[local] Instance array_laws : NdarrayLaws.
Proof.
  split; cbn.
  - intros s d a. case_match eqn:E; [|done]. apply Z.eqb_eq in E. by intros [= <-].
  - intros s d _ ->. rewrite Z.eqb_refl. by eexists.
  - done.
  - intros k a n -> Hn. cbn. destruct (Z.eqb_spec n 0); [lia|]. by eexists.
  - done.
Qed.

Definition matrix : Tensor :=
  mkTensor "m" [2; 3] Float64 (f64_of_u64 <$> [1; 5; 3; 4; 2; 6]) ∅.

(** The column maxima of [[1, 5, 3], [4, 2, 6]]. *)
Lemma reduce_outcome_witness :
  ∃ r, Tensors.reduce "m" 0 Tensors.Max {["m"%string := matrix]} = Some (Ok r) ∧ tensor_data r = f64_of_u64 <$> [4; 5; 6].
Proof.
  destruct (reduce_outcome "m" 0 Tensors.Max {["m"%string := matrix]} matrix) as [[H _]|(_ & r & Hr & _ & _ & Hd)];
    [done|repeat constructor|done|done|by cbn in H|].
  exists r. split; [done|]. rewrite Hd. vm_compute. reflexivity.
Defined.

End Witness.
