(* ===== verification/Format.v ===== *)
(** Text the planner builds and inspects: ASCII and Unicode case, substrings,
    byte slices of a string, numbers with a fixed number of decimals, and the
    casts between floating-point numbers and integers. *)

From Stdlib Require Import Strings.Ascii.
From S2P Require Import Prelude Machine Text Float64.

Local Open Scope string_scope.
Local Open Scope Z_scope.

(** ** Case *)

(** [str::to_lowercase] and [to_uppercase] follow Unicode's tables; on ASCII
    they change letters only. *)
Class UnicodeCase := { str_lower : string → string; str_upper : string → string }.

Definition between (lo hi : Z) (a : ascii) : bool :=
  (lo <=? Z.of_N (N_of_ascii a)) && (Z.of_N (N_of_ascii a) <=? hi).
Definition shift_ascii (d : Z) (a : ascii) : ascii := ascii_of_N (Z.to_N (Z.of_N (N_of_ascii a) + d)).

Definition ascii_lower (a : ascii) : ascii := if between 65 90 a then shift_ascii 32 a else a.
Definition ascii_upper (a : ascii) : ascii := if between 97 122 a then shift_ascii (-32) a else a.

Fixpoint map_ascii (f : ascii → ascii) (s : string) : string :=
  match s with "" => "" | String a s => String (f a) (map_ascii f s) end.
Fixpoint all_ascii (P : ascii → bool) (s : string) : bool :=
  match s with "" => true | String a s => P a && all_ascii P s end.
Definition is_ascii (s : string) : bool := all_ascii (between 0 127) s.

Class UnicodeCaseLaws (U : UnicodeCase) := {
  str_lower_ascii s : is_ascii s = true → str_lower s = map_ascii ascii_lower s;
  str_upper_ascii s : is_ascii s = true → str_upper s = map_ascii ascii_upper s;
}.

Lemma ascii_ind_fun (f g : ascii → ascii) :
  forallb (λ n, Ascii.eqb (f (ascii_of_nat n)) (g (ascii_of_nat n))) (seq 0 256) = true → ∀ a, f a = g a.
Proof.
  intros H a. rewrite forallb_forall in H. apply Ascii.eqb_eq.
  rewrite <- (ascii_nat_embedding a). apply H. apply in_seq. pose proof (nat_ascii_bounded a). lia.
Qed.

Lemma ascii_lower_lower a : ascii_lower (ascii_lower a) = ascii_lower a.
Proof. revert a. by apply ascii_ind_fun. Qed.
Lemma ascii_upper_lower a : ascii_upper (ascii_lower a) = ascii_upper a.
Proof. revert a. by apply ascii_ind_fun. Qed.
Lemma ascii_lower_upper a : ascii_lower (ascii_upper a) = ascii_lower a.
Proof. revert a. by apply ascii_ind_fun. Qed.

Lemma map_ascii_compose f g s : map_ascii f (map_ascii g s) = map_ascii (f ∘ g) s.
Proof. induction s as [|a s IH]; simpl; [done|]. by rewrite IH. Qed.

Lemma map_ascii_ext f g s : (∀ a, f a = g a) → map_ascii f s = map_ascii g s.
Proof. intros H. induction s as [|a s IH]; simpl; [done|]. by rewrite H, IH. Qed.

(** ** Substrings *)

(** [s.contains(p)]. *)
Fixpoint contains (p s : string) : bool :=
  starts_with p s || match s with "" => false | String _ s => contains p s end.

(** A double quote and a line break. *)
Definition dquote : string := String "034" "".
Definition newline : string := String "010" "".

(** Does a character end where this byte starts? *)
Definition starts_char (a : ascii) : bool := negb (between 128 191 a).

(** [&s[..i]]: panics unless [i] is a character boundary. *)
Definition is_char_boundary (i : nat) (s : string) : bool :=
  match String.get i s with Some a => starts_char a | None => (i =? String.length s)%nat end.
Definition slice_to (i : nat) (s : string) : option string :=
  if is_char_boundary i s then Some (String.substring 0 i s) else None.

(** ** Numbers *)

(** [x as u64]: towards zero, saturating, NaN to zero. *)
Definition f64_to_u64 (x : f64) : Z :=
  match x with
  | S754_finite false m e => Z.min U64_MAX (if 0 <=? e then Z.pos m * 2 ^ e else Z.pos m / 2 ^ (Z.opp e))
  | S754_infinity false => U64_MAX
  | _ => 0
  end.

(** [f64::is_finite]. *)
Definition f64_is_finite (x : f64) : bool :=
  match x with S754_zero _ | S754_finite _ _ _ => true | _ => false end.

Definition round_half_even (n d : Z) : Z :=
  let q := n / d in
  let r := n mod d in
  if 2 * r <? d then q else if d <? 2 * r then q + 1 else q + q mod 2.

(** Decimal digits of a number of any size. *)
Definition fmt_big (z : Z) : string := digits (num_digits (S (Z.to_nat (Z.log2 z))) z) z "".

(** [z / 10 ^ prec] in decimal. *)
Definition fmt_scaled (prec : nat) (z : Z) : string :=
  let p := 10 ^ Z.of_nat prec in
  match prec with
  | O => fmt_big z
  | _ => cat [fmt_big (z / p); "."; fmt_width prec (z mod p)]
  end.

(** [format!("{x:.prec$}")]: the exact value, rounded half to even. *)
Definition fmt_fixed (prec : nat) (x : f64) : string :=
  let sign (s : bool) := if s then "-" else "" in
  match x with
  | S754_nan => "NaN"
  | S754_infinity s => cat [sign s; "inf"]
  | S754_zero s => cat [sign s; fmt_scaled prec 0]
  | S754_finite s m e =>
      let n := Z.pos m * Z.pow 10 (Z.of_nat prec) in
      cat [sign s; fmt_scaled prec (if 0 <=? e then n * 2 ^ e else round_half_even n (2 ^ (Z.opp e)))]
  end.

Lemma f64_to_u64_range x : in_u 64 (f64_to_u64 x).
Proof.
  unfold f64_to_u64, in_u, U64_MAX. destruct x as [[]|[]| |[] m e]; try lia.
  case_match; [|pose proof (Z.div_pos (Z.pos m) (2 ^ (Z.opp e))); lia]. lia.
Qed.
