(* ===== verification/PlannerTypes.v ===== *)
(** The query planner's data (verisim-planner/src/lib.rs, config.rs, error.rs,
    plan.rs and the records of cost.rs): modalities, configuration, logical and
    physical plans.

    [HashMap<Modality, V>] is [gmap Modality V]. *)

From stdpp Require Import countable.
From S2P Require Import Prelude Machine Text Float64 Format.

Local Open Scope string_scope.
Local Open Scope Z_scope.

(** ** Modalities *)

Inductive Modality := Graph | Vector | Tensor | Semantic | Document | Temporal.

Definition ALL : list Modality := [Graph; Vector; Tensor; Semantic; Document; Temporal].

#[export] Instance Modality_eq_dec : EqDecision Modality.
Proof. solve_decision. Defined.

Definition Modality_index (m : Modality) : nat :=
  match m with
  | Graph => 0 | Vector => 1 | Tensor => 2 | Semantic => 3 | Document => 4 | Temporal => 5
  end.

#[export] Instance Modality_countable : Countable Modality.
Proof. by refine (inj_countable Modality_index (λ n, ALL !! n) _); intros []. Defined.

Definition execution_priority (m : Modality) : Z :=
  match m with
  | Temporal => 10 | Vector => 20 | Document => 30 | Graph => 40 | Tensor => 50 | Semantic => 90
  end.

Definition modality_display (m : Modality) : string :=
  match m with
  | Graph => "graph" | Vector => "vector" | Tensor => "tensor"
  | Semantic => "semantic" | Document => "document" | Temporal => "temporal"
  end.

(** ** Errors *)

Inductive PlannerError :=
  | EmptyPlan
  | UnknownModality (name : string)
  | InvalidConfig (msg : string)
  | CostEstimation (msg : string)
  | Serialization (msg : string).

Definition planner_error_display (e : PlannerError) : string :=
  match e with
  | EmptyPlan => "empty plan: no modality nodes to optimize"
  | UnknownModality m => cat ["unknown modality: "; m]
  | InvalidConfig m => cat ["invalid configuration: "; m]
  | CostEstimation m => cat ["cost estimation failed: "; m]
  | Serialization m => cat ["serialization error: "; m]
  end.

(** The arms of [from_str]. *)
Definition modality_of_name (name : string) : option Modality :=
  if decide (name = "graph") then Some Graph
  else if decide (name = "vector") then Some Vector
  else if decide (name = "tensor") then Some Tensor
  else if decide (name = "semantic") then Some Semantic
  else if decide (name = "document") then Some Document
  else if decide (name = "temporal") then Some Temporal
  else None.

Definition modality_from_str `{UnicodeCase} (s : string) : result PlannerError Modality :=
  ok_or (modality_of_name (str_lower s)) (UnknownModality s).

(** ** Configuration *)

Inductive OptimizationMode := Conservative | Balanced | Aggressive.

#[export] Instance OptimizationMode_eq_dec : EqDecision OptimizationMode.
Proof. solve_decision. Defined.

Definition cost_multiplier (m : OptimizationMode) : f64 :=
  match m with Conservative => f64_lit 3 2 | Balanced => f64_one | Aggressive => f64_lit 8 10 end.
Definition selectivity_multiplier (m : OptimizationMode) : f64 :=
  match m with Conservative => f64_of_u64 2 | Balanced => f64_one | Aggressive => f64_lit 1 2 end.

Record PlannerConfig := mkPlannerConfig {
  global_mode : OptimizationMode;
  modality_overrides : gmap Modality OptimizationMode;
  statistics_weight : f64;
  enable_adaptive : bool;
  parallel_threshold : nat;
}.

Definition mode_for (c : PlannerConfig) (m : Modality) : OptimizationMode :=
  default (global_mode c) (modality_overrides c !! m).

Definition config_default : PlannerConfig :=
  mkPlannerConfig Balanced
    (<[Semantic := Conservative]> (<[Graph := Conservative]> (<[Vector := Aggressive]> ∅)))
    (f64_lit 7 10) true 2.

(** ** Logical plans *)

Inductive QuerySource :=
  | Octad
  | Federation (nodes : list string)
  | Store (modality : Modality).

Inductive ConditionKind :=
  | Equality (field value : string)
  | Range (field low high : string)
  | Fulltext (query : string)
  | Similarity (k : nat)
  | Traversal (predicate : string) (depth : option Z)
  | AtTime (timestamp : string)
  | ProofVerification (contract : string)
  | TensorOp (operation : string)
  | Predicate (expression : string).

Record PlanNode := mkNode {
  modality : Modality;
  conditions : list ConditionKind;
  projections : list string;
  early_limit : option Z;
}.

Inductive PostProcessing :=
  | OrderBy (fields : list (string * bool))
  | Limit (count : Z)
  | GroupBy (fields aggregates : list string)
  | Project (columns : list string).

Record LogicalPlan := mkLogical {
  source : QuerySource;
  nodes : list PlanNode;
  post_processing : list PostProcessing;
}.

(** ** Physical plans *)

Record CostEstimate := mkCost {
  time_ms : f64;
  estimated_rows : Z;
  selectivity : f64;
  io_cost : f64;
  cpu_cost : f64;
}.

Inductive ExecutionStrategy := Sequential | Parallel.

#[export] Instance ExecutionStrategy_eq_dec : EqDecision ExecutionStrategy.
Proof. solve_decision. Defined.

Record PlanStep := mkStep {
  step : nat;
  operation : string;
  step_modality : Modality;
  cost : CostEstimate;
  optimization_hint : option string;
  pushed_predicates : list string;
}.

Record PhysicalPlan := mkPhysical {
  steps : list PlanStep;
  strategy : ExecutionStrategy;
  total_cost : CostEstimate;
  notes : list string;
}.
