(* ===== verification/PlannerCost.v ===== *)
(** The planner's cost model (verisim-planner/src/cost.rs), store statistics
    and adaptive tuning (stats.rs).

    The binary logarithm is the platform's. *)

From S2P Require Import Prelude Machine Text Float64 WalEntry Format PlannerTypes.

Local Open Scope string_scope.
Local Open Scope Z_scope.

(** ** Base costs *)

Record BaseCost := mkBase { base_ms : f64; base_selectivity : f64; hint : string }.

Definition for_modality (m : Modality) : BaseCost :=
  match m with
  | Graph => mkBase (f64_of_u64 150) (f64_lit 2 10) "Graph traversal — O(E) scan"
  | Vector => mkBase (f64_of_u64 50) (f64_lit 1 100) "HNSW approximate nearest neighbor"
  | Tensor => mkBase (f64_of_u64 200) (f64_lit 5 10) "Tensor reduction — shape dependent"
  | Semantic => mkBase (f64_of_u64 300) (f64_lit 8 10) "ZKP verification — expensive"
  | Document => mkBase (f64_of_u64 80) (f64_lit 5 100) "Tantivy inverted index lookup"
  | Temporal => mkBase (f64_of_u64 30) (f64_lit 1 10) "Version tree lookup — cached"
  end.

(** ** Combining estimates *)

Definition sequential (a b : CostEstimate) : CostEstimate :=
  mkCost (f64_add (time_ms a) (time_ms b)) (Z.max (estimated_rows a) (estimated_rows b))
    (f64_mul (selectivity a) (selectivity b)) (f64_add (io_cost a) (io_cost b))
    (f64_add (cpu_cost a) (cpu_cost b)).

Definition parallel (a b : CostEstimate) : CostEstimate :=
  mkCost (f64_max (time_ms a) (time_ms b)) (Z.max (estimated_rows a) (estimated_rows b))
    (f64_mul (selectivity a) (selectivity b)) (f64_add (io_cost a) (io_cost b))
    (f64_add (cpu_cost a) (cpu_cost b)).

Definition combine (estimates : list CostEstimate) (par : bool) : CostEstimate :=
  match estimates with
  | [] => mkCost f64_zero 0 f64_one f64_zero f64_zero
  | e :: es => foldl (λ acc est, if par then parallel acc est else sequential acc est) e es
  end.

(** ** Proof obligations *)

Record ProofCost := mkProof { verify_ms : f64; circuit_ms : f64; parallelizable : bool }.

(** The arms of [for_type], on a lower-case name. *)
Definition proof_cost_of_name (name : string) : ProofCost :=
  if decide (name = "existence") then mkProof (f64_of_u64 1) f64_zero true
  else if decide (name = "citation") then mkProof (f64_of_u64 5) f64_zero true
  else if decide (name = "access") then mkProof (f64_of_u64 15) f64_zero true
  else if decide (name = "integrity") then mkProof (f64_of_u64 50) (f64_of_u64 10) true
  else if decide (name = "provenance") then mkProof (f64_of_u64 30) f64_zero false
  else mkProof (f64_of_u64 200) (f64_of_u64 100) false.

Definition for_type `{UnicodeCase} (proof_type : string) : ProofCost :=
  proof_cost_of_name (str_lower proof_type).

Definition total_ms (p : ProofCost) : f64 := f64_add (verify_ms p) (circuit_ms p).

Definition known_types : list string :=
  ["existence"; "citation"; "access"; "integrity"; "provenance"; "zkp"].

Definition extract_proof_type `{UnicodeCase} (contract : string) : string :=
  let lower := str_lower contract in
  default "custom" (head (retain (λ t, contains t lower) known_types)).

(** ** Post-processing *)

Class Log2 := f64_log2 : f64 → f64.

Definition rows_f64 (row_count : Z) : f64 := f64_of_u64 (Z.max row_count 1).
Definition len_f64 {A} (l : list A) : f64 := f64_of_u64 (Z.of_nat (length l)).

Definition post_processing_cost `{Log2} (pp : PostProcessing) (row_count : Z) : CostEstimate :=
  let n := rows_f64 row_count in
  match pp with
  | OrderBy fields =>
      let sort_time :=
        f64_mul (f64_mul (f64_mul n (f64_max (f64_log2 n) f64_one)) (f64_lit 1 1000)) (len_f64 fields) in
      mkCost sort_time row_count f64_one f64_zero sort_time
  | Limit count =>
      let out_rows := Z.min row_count count in
      mkCost (f64_lit 1 10) out_rows (f64_div (f64_of_u64 out_rows) n) f64_zero (f64_lit 1 10)
  | GroupBy fields aggregates =>
      let group_time := f64_mul (f64_mul n (f64_lit 2 1000)) (len_f64 fields) in
      let agg_time :=
        f64_mul (f64_mul n (f64_lit 1 1000)) (f64_of_u64 (Z.max (Z.of_nat (length aggregates)) 1)) in
      let total := f64_add group_time agg_time in
      let est_groups := f64_to_u64 (f64_max (f64_div n (f64_of_u64 10)) f64_one) in
      mkCost total est_groups (f64_div (f64_of_u64 est_groups) n) f64_zero total
  | Project columns =>
      let project_time := f64_mul (f64_mul n (f64_lit 1 10000)) (len_f64 columns) in
      mkCost project_time row_count f64_one f64_zero project_time
  end.

(** ** Cross-modal conditions *)

(** The time per row and the selectivity. *)
Definition cross_modal_rates (condition : ConditionKind) : f64 * f64 :=
  match condition with
  | Predicate expression =>
      if contains "cross_modal" expression then (f64_lit 1 100, f64_lit 3 10)
      else if contains "drift" expression then (f64_lit 5 10, f64_lit 5 10)
      else if contains "consistency" expression then (f64_one, f64_lit 7 10)
      else if contains "exists" expression || contains "not_exists" expression then
        (f64_lit 1 1000, f64_lit 5 10)
      else (f64_lit 1 100, f64_lit 5 10)
  | _ => (f64_lit 1 100, f64_lit 5 10)
  end.

Definition cross_modal_cost (condition : ConditionKind) (row_count : Z) : CostEstimate :=
  let n := rows_f64 row_count in
  let '(per_row_ms, sel) := cross_modal_rates condition in
  let total_time := f64_mul n per_row_ms in
  mkCost total_time (f64_to_u64 (f64_max (f64_mul n sel) f64_one)) sel f64_zero total_time.

(** ** Store statistics *)

Section stats.
Context `{Chrono}.

Record StoreStatistics := mkStats {
  stats_modality : Modality;
  total_rows : Z;
  avg_latency_ms : f64;
  avg_rows_returned : Z;
  query_count : Z;
  last_updated : DateTime;
}.

Definition StoreStatistics_new (now : DateTime) (m : Modality) : StoreStatistics :=
  mkStats m 0 f64_zero 0 0 now.

Abbreviation StatisticsCollector := (gmap Modality StoreStatistics).

(** [now m] is the clock when [m]'s entry is created. *)
Definition StatisticsCollector_new (now : Modality → DateTime) : StatisticsCollector :=
  foldl (λ stats m, <[m := StoreStatistics_new (now m) m]> stats) ∅ ALL.

Definition get_stats (m : Modality) (c : StatisticsCollector) : option StoreStatistics := c !! m.

(** The exponential moving average of weight 0.1. *)
Definition ema (x avg : f64) : f64 := f64_add (f64_mul (f64_lit 1 10) x) (f64_mul (f64_lit 9 10) avg).

Definition record_entry (latency_ms : f64) (rows_returned : Z) (now : DateTime) (e : StoreStatistics) :
    StoreStatistics :=
  let query_count := wrap 64 (query_count e + 1) in
  if query_count =? 1 then mkStats (stats_modality e) (total_rows e) latency_ms rows_returned query_count now
  else mkStats (stats_modality e) (total_rows e) (ema latency_ms (avg_latency_ms e))
         (f64_to_u64 (ema (f64_of_u64 rows_returned) (f64_of_u64 (avg_rows_returned e)))) query_count now.

(** [created] is the clock when the entry is missing, [now] at the end. *)
Definition record_execution (m : Modality) (latency_ms : f64) (rows_returned : Z) (created now : DateTime)
    (c : StatisticsCollector) : StatisticsCollector :=
  let entry := default (StoreStatistics_new created m) (c !! m) in
  <[m := record_entry latency_ms rows_returned now entry]> c.

Definition update_row_count (m : Modality) (rows : Z) (now : DateTime) (c : StatisticsCollector) :
    StatisticsCollector :=
  match c !! m with
  | Some e => <[m := mkStats (stats_modality e) rows (avg_latency_ms e) (avg_rows_returned e) (query_count e) now]> c
  | None => c
  end.

(** ** Adaptive tuning *)

Record AdaptiveTuner := mkTuner {
  aggressive_threshold : f64; conservative_threshold : f64; min_samples : Z }.

Definition AdaptiveTuner_new : AdaptiveTuner := mkTuner (f64_lit 5 10) (f64_of_u64 2) 10.
Definition with_thresholds (aggressive conservative : f64) (min_samples : Z) : AdaptiveTuner :=
  mkTuner aggressive conservative min_samples.

Definition suggestion (t : AdaptiveTuner) (ratio : f64) : OptimizationMode :=
  if f64_ltb ratio (aggressive_threshold t) then Aggressive
  else if f64_ltb (conservative_threshold t) ratio then Conservative
  else Balanced.

(** The loop body of [suggest_adjustments]. *)
Definition adjustment (t : AdaptiveTuner) (c : StatisticsCollector) (config : PlannerConfig) (m : Modality) :
    option (Modality * OptimizationMode) :=
  stats ← get_stats m c;
  if query_count stats <? min_samples t then None
  else
    let current_mode := mode_for config m in
    let estimated_ms := f64_mul (base_ms (for_modality m)) (cost_multiplier current_mode) in
    if f64_leb estimated_ms f64_zero then None
    else
      let suggested := suggestion t (f64_div (avg_latency_ms stats) estimated_ms) in
      if decide (suggested = current_mode) then None else Some (m, suggested).

Definition suggest_adjustments (t : AdaptiveTuner) (c : StatisticsCollector) (config : PlannerConfig) :
    list (Modality * OptimizationMode) := omap (adjustment t c config) ALL.

Definition set_override (config : PlannerConfig) (p : Modality * OptimizationMode) : PlannerConfig :=
  mkPlannerConfig (global_mode config) (<[p.1 := p.2]> (modality_overrides config))
    (statistics_weight config) (enable_adaptive config) (parallel_threshold config).

Definition apply (t : AdaptiveTuner) (c : StatisticsCollector) (config : PlannerConfig) : PlannerConfig :=
  if negb (enable_adaptive config) then config
  else foldl set_override config (suggest_adjustments t c config).

(** ** Estimating a plan node *)

(** Time, selectivity and the time of the proofs so far. *)
Definition condition_cost `{UnicodeCase} (acc : f64 * f64 * f64) (condition : ConditionKind) : f64 * f64 * f64 :=
  let '(time, sel, proof) := acc in
  match condition with
  | Equality _ _ => (f64_mul time (f64_lit 7 10), f64_mul sel (f64_lit 1 10), proof)
  | Range _ _ _ => (f64_mul time (f64_lit 8 10), f64_mul sel (f64_lit 3 10), proof)
  | Similarity k => (time, f64_min (f64_div (f64_of_u64 (Z.of_nat k)) (f64_of_u64 10000)) f64_one, proof)
  | Fulltext _ => (f64_mul time (f64_lit 6 10), sel, proof)
  | ProofVerification contract => (time, sel, f64_add proof (total_ms (for_type (extract_proof_type contract))))
  | _ => acc
  end.

(** The weight of the statistics. *)
Definition weighted (w base observed : f64) : f64 :=
  f64_add (f64_mul base (f64_sub f64_one w)) (f64_mul observed w).

Definition with_statistics (config : PlannerConfig) (stats : option StoreStatistics) (time sel : f64) : f64 * f64 :=
  match stats with
  | Some s =>
      if 0 <? query_count s then
        let w := statistics_weight config in
        (weighted w time (avg_latency_ms s),
         if 0 <? total_rows s then
           weighted w sel (f64_div (f64_of_u64 (avg_rows_returned s)) (f64_of_u64 (total_rows s)))
         else sel)
      else (time, sel)
  | None => (time, sel)
  end.

Definition with_limit (limit : option Z) (time sel : f64) : f64 * f64 :=
  match limit with
  | Some limit =>
      let limit_factor := f64_min (f64_div (f64_of_u64 limit) (f64_of_u64 1000)) f64_one in
      (f64_mul time (f64_add (f64_lit 5 10) (f64_mul (f64_lit 5 10) limit_factor)), f64_mul sel limit_factor)
  | None => (time, sel)
  end.

Definition estimate `{UnicodeCase} (node : PlanNode) (config : PlannerConfig) (stats : option StoreStatistics) :
    CostEstimate :=
  let base := for_modality (modality node) in
  let mode := mode_for config (modality node) in
  let time := f64_mul (base_ms base) (cost_multiplier mode) in
  let sel := f64_min (f64_mul (base_selectivity base) (selectivity_multiplier mode)) f64_one in
  let '(time, sel) := with_statistics config stats time sel in
  let '(time, sel) := with_limit (early_limit node) time sel in
  let '(time, sel, proof) := foldl condition_cost (time, sel, f64_zero) (conditions node) in
  let time := f64_add time proof in
  let rows :=
    match stats with
    | Some s => f64_to_u64 (f64_max (f64_mul (f64_of_u64 (total_rows s)) sel) f64_one)
    | None => f64_to_u64 (f64_max (f64_mul (f64_of_u64 1000) sel) f64_one)
    end in
  let query_time := f64_sub time proof in
  mkCost time rows sel (f64_mul query_time (f64_lit 6 10))
    (f64_add (f64_mul query_time (f64_lit 4 10)) proof).

(** ** The whole plan *)

Definition add_post_processing `{Log2} (acc : CostEstimate * Z) (pp : PostProcessing) : CostEstimate * Z :=
  let '(total, rows) := acc in
  let c := post_processing_cost pp rows in
  (mkCost (f64_add (time_ms total) (time_ms c)) (estimated_rows total) (selectivity total) (io_cost total)
     (f64_add (cpu_cost total) (cpu_cost c)),
   estimated_rows c).

Definition estimate_with_post_processing `{Log2} (modality_cost : CostEstimate) (pps : list PostProcessing) :
    CostEstimate :=
  let '(total, rows) := foldl add_post_processing (modality_cost, estimated_rows modality_cost) pps in
  mkCost (time_ms total) rows (selectivity total) (io_cost total) (cpu_cost total).

(** ** Hints *)

(** The text for one condition; [None] keeps the previous hint.  The outer
    option is a panic: the preview of a long query cuts it after 20 bytes. *)
Definition condition_hint (condition : ConditionKind) : option (option string) :=
  match condition with
  | Similarity k => Some (Some (cat ["HNSW ANN search (k="; fmt_u64 (Z.of_nat k); ")"]))
  | Fulltext query =>
      preview ← (if (20 <? String.length query)%nat then (λ p, cat [p; "..."]) <$> slice_to 20 query
                 else Some query);
      Some (Some (cat ["Tantivy fulltext: "; dquote; preview; dquote]))
  | Traversal predicate depth =>
      Some (Some (cat ["Graph traversal: "; predicate; " (depth="; fmt_u64 (default 1 depth); ")"]))
  | ProofVerification contract => Some (Some (cat ["ZKP verify: "; contract]))
  | Equality field _ => Some (Some (cat ["Index lookup on "; field]))
  | AtTime timestamp => Some (Some (cat ["Temporal snapshot at "; timestamp]))
  | _ => Some None
  end.

(** [None] when it panics. *)
Definition hint_for (node : PlanNode) : option (option string) :=
  Some <$> foldl (λ acc c, h ← acc; t ← condition_hint c; Some (default h t))
    (Some (hint (for_modality (modality node)))) (conditions node).

End stats.
