(* ===== verification/Planner.v ===== *)
(** The optimizer (verisim-planner/src/optimizer.rs) and the EXPLAIN output
    (explain.rs).

    The derived [Debug] text of a condition and the iteration order of a hash
    map keyed by modality are parameters. *)

From S2P Require Import Prelude Machine Text Float64 Collections WalEntry Format PlannerTypes PlannerCost.

Local Open Scope string_scope.
Local Open Scope Z_scope.

(** [format!("{c:?}")]. *)
Class DebugKind := debug_kind : ConditionKind → string.

Class ModalityIter := modality_iter (A : Type) : gmap Modality A → list (Modality * A).
#[global] Arguments modality_iter {_ A} m.
Class ModalityIterLaws (I : ModalityIter) :=
  modality_iter_perm (A : Type) (m : gmap Modality A) : modality_iter m ≡ₚ map_to_list m.

(** A node with its cost and its hint ([node_costs] has the node's index). *)
Abbreviation Costed := (PlanNode * CostEstimate * option string)%type.

Section planner.
Context `{Chrono} `{UnicodeCase} `{Log2} `{DebugKind}.

Record Planner := mkPlanner { config : PlannerConfig; planner_stats : gmap Modality StoreStatistics }.

Definition new (now : Modality → DateTime) (c : PlannerConfig) : Planner :=
  mkPlanner c (StatisticsCollector_new now).
Definition set_config (c : PlannerConfig) (p : Planner) : Planner := mkPlanner c (planner_stats p).

(** ** Optimizing *)

(** [None]: the hint panics. *)
Definition node_cost (p : Planner) (node : PlanNode) : option Costed :=
  let c := estimate node (config p) (get_stats (modality node) (planner_stats p)) in
  h ← hint_for node; Some (node, c, h).

(** The comparison is [Less]: by priority, then by time. *)
Definition cheaper (a b : Costed) : bool :=
  let pri_a := execution_priority (modality a.1.1) in
  let pri_b := execution_priority (modality b.1.1) in
  (pri_a <? pri_b) || ((pri_a =? pri_b) && f64_ltb (time_ms a.1.2) (time_ms b.1.2)).

Definition verb (m : Modality) : string :=
  match m with
  | Graph => "Graph traversal"
  | Vector => "Vector similarity search"
  | Tensor => "Tensor computation"
  | Semantic => "Semantic verification"
  | Document => "Document fulltext search"
  | Temporal => "Temporal version lookup"
  end.

Definition conditions_text (node : PlanNode) : string :=
  match conditions node with
  | [] => "(scan)"
  | cs => cat ["("; fmt_u64 (Z.of_nat (length cs)); " conditions)"]
  end.

Definition build_step (step_num : nat) (c : Costed) : PlanStep :=
  let '(node, cost, h) := c in
  mkStep (step_num + 1) (cat [verb (modality node); " "; conditions_text node]) (modality node) cost h
    (debug_kind <$> conditions node).

Definition select_strategy (p : Planner) (logical : LogicalPlan) : ExecutionStrategy :=
  if (parallel_threshold (config p) <=? length (nodes logical))%nat then Parallel else Sequential.

Definition hundred : f64 := f64_of_u64 100.

Definition selectivity_note (s : PlanStep) : option string :=
  if f64_ltb (f64_lit 5 10) (selectivity (cost s)) && f64_ltb hundred (time_ms (cost s)) then
    Some (cat ["Step "; fmt_u64 (Z.of_nat (step s)); ": "; modality_display (step_modality s);
               " has high selectivity ("; fmt_fixed 0 (f64_mul (selectivity (cost s)) hundred);
               "%) — may benefit from additional predicates"])
  else None.

Definition optimization_notes (par : bool) (steps : list PlanStep) (total : CostEstimate) : list string :=
  ((if par then [cat ["Parallel execution across "; fmt_u64 (Z.of_nat (length steps)); " modalities"]]
    else ["Sequential execution — single modality"]) ++
   (if f64_ltb (f64_of_u64 500) (time_ms total) then
      ["High estimated cost — consider adding LIMIT or more selective predicates"] else []) ++
   omap selectivity_note steps)%list.

(** Steps 3 to 6, on the sorted nodes. *)
Definition build_plan (p : Planner) (logical : LogicalPlan) (costed : list Costed) : PhysicalPlan :=
  let strategy := select_strategy p logical in
  let steps := imap build_step costed in
  let par := bool_decide (strategy = Parallel) in
  let modality_cost := combine ((λ c : Costed, c.1.2) <$> costed) par in
  let total := estimate_with_post_processing modality_cost (post_processing logical) in
  mkPhysical steps strategy total (optimization_notes par steps total).

(** [None] when it panics. *)
Definition optimize (p : Planner) (logical : LogicalPlan) : option (result PlannerError PhysicalPlan) :=
  match nodes logical with
  | [] => Some (Err EmptyPlan)
  | nodes =>
      node_costs ← mapM (node_cost p) nodes;
      Some (Ok (build_plan p logical (sort_by cheaper node_costs)))
  end.

(** ** EXPLAIN *)

Record ModalityCostBreakdown := mkBreakdown { cb_modality : Modality; cb_time_ms : f64; percentage : f64 }.

Record ExplainStep := mkExplainStep {
  ex_step : nat; ex_operation : string; ex_modality : Modality; estimated_cost_ms : f64;
  estimated_selectivity : f64; ex_rows : Z; ex_hint : option string }.

Record PerformanceHint := mkHint { severity : string; message : string }.

Record ExplainOutput := mkExplain {
  explain_steps : list ExplainStep;
  cost_breakdown : list ModalityCostBreakdown;
  performance_hints : list PerformanceHint;
  total_cost_ms : f64;
  explain_strategy : string;
  text_output : string;
}.

Definition strategy_debug (s : ExecutionStrategy) : string :=
  match s with Sequential => "Sequential" | Parallel => "Parallel" end.

Definition explain_step (s : PlanStep) : ExplainStep :=
  mkExplainStep (step s) (operation s) (step_modality s) (time_ms (cost s)) (selectivity (cost s))
    (estimated_rows (cost s)) (optimization_hint s).

(** [*entry(m).or_insert(0.0) += t]. *)
Definition add_time (acc : gmap Modality f64) (s : PlanStep) : gmap Modality f64 :=
  <[step_modality s := f64_add (default f64_zero (acc !! step_modality s)) (time_ms (cost s))]> acc.

Definition modality_costs (plan : PhysicalPlan) : gmap Modality f64 := foldl add_time ∅ (steps plan).

Definition larger_share (a b : ModalityCostBreakdown) : bool := f64_ltb (percentage b) (percentage a).

Definition breakdown `{ModalityIter} (plan : PhysicalPlan) : list ModalityCostBreakdown :=
  let costs := modality_iter (modality_costs plan) in
  let total := f64_sum costs.*2 in
  sort_by larger_share
    ((λ mt : Modality * f64,
        mkBreakdown mt.1 mt.2
          (if f64_ltb f64_zero total then f64_mul (f64_div mt.2 total) hundred else f64_zero)) <$> costs).

Definition step_hint (s : PlanStep) : option PerformanceHint :=
  if f64_ltb (f64_of_u64 200) (time_ms (cost s)) then
    Some (mkHint "info"
      (cat ["Step "; fmt_u64 (Z.of_nat (step s)); " ("; modality_display (step_modality s); ") costs ";
            fmt_fixed 0 (time_ms (cost s)); "ms — "; default "consider optimization" (optimization_hint s)]))
  else None.

Definition hints_for (plan : PhysicalPlan) : list PerformanceHint :=
  ((if f64_ltb (f64_of_u64 500) (time_ms (total_cost plan)) then
      [mkHint "warning" (cat ["Total estimated cost is "; fmt_fixed 0 (time_ms (total_cost plan));
                              "ms — consider adding LIMIT clause"])] else []) ++
   omap step_hint (steps plan) ++
   (match steps plan with
    | first :: _ =>
        if f64_ltb (f64_lit 1 10) (selectivity (cost first)) then
          [mkHint "suggestion"
            (cat ["First step ("; modality_display (step_modality first); ") has ";
                  fmt_fixed 0 (f64_mul (selectivity (cost first)) hundred);
                  "% selectivity — consider reordering or adding predicates"])]
        else []
    | [] => []
    end) ++
   (if (2 <=? length (steps plan))%nat && bool_decide (strategy plan = Sequential) then
      [mkHint "suggestion" "Multiple modalities could benefit from parallel execution"] else []))%list.

Definition render_step (s : ExplainStep) : string :=
  cat ["  Step "; fmt_u64 (Z.of_nat (ex_step s)); ": "; ex_operation s; " ["; modality_display (ex_modality s);
       "]"; newline;
       "    Cost: "; fmt_fixed 1 (estimated_cost_ms s); "ms | Selectivity: ";
       fmt_fixed 2 (f64_mul (estimated_selectivity s) hundred); "% | Rows: ~"; fmt_u64 (ex_rows s); newline;
       match ex_hint s with Some h => cat ["    Hint: "; h; newline] | None => "" end].

Definition render_breakdown (b : ModalityCostBreakdown) : string :=
  cat ["  "; modality_display (cb_modality b); ": "; fmt_fixed 1 (cb_time_ms b); "ms (";
       fmt_fixed 1 (percentage b); "%)"; newline].

Definition render_hint (h : PerformanceHint) : string :=
  cat ["  ["; severity h; "] "; message h; newline].

Definition render_text (steps : list ExplainStep) (breakdown : list ModalityCostBreakdown)
    (hints : list PerformanceHint) (strategy : string) (total : f64) : string :=
  cat ["=== VeriSimDB Query Plan ==="; newline; newline;
       "Strategy: "; strategy; newline;
       "Total Estimated Cost: "; fmt_fixed 1 total; "ms"; newline; newline;
       "--- Steps ---"; newline; cat (render_step <$> steps);
       newline; "--- Cost Breakdown ---"; newline; cat (render_breakdown <$> breakdown);
       match hints with
       | [] => ""
       | _ => cat [newline; "--- Performance Hints ---"; newline; cat (render_hint <$> hints)]
       end].

Definition from_physical_plan `{ModalityIter} (plan : PhysicalPlan) : ExplainOutput :=
  let steps := explain_step <$> steps plan in
  let cb := breakdown plan in
  let hints := hints_for plan in
  let strategy := strategy_debug (strategy plan) in
  let total := time_ms (total_cost plan) in
  mkExplain steps cb hints total strategy (render_text steps cb hints strategy total).

Definition explain `{ModalityIter} (p : Planner) (logical : LogicalPlan) :
    option (result PlannerError ExplainOutput) :=
  optimize p logical ≫= λ r : result PlannerError PhysicalPlan, Some (from_physical_plan <$> r).

End planner.
