(* ===== verification/PlanCache.v ===== *)
(** The plan cache (verisim-planner/src/prepared.rs).

    The two maps are behind locks and the counters are atomic: every critical
    section is one definition, and [prepare], which has two, composes them.
    chrono's comparisons, SHA-256 in lower-case hexadecimal, Unicode's tables
    and hash map iteration are parameters. *)

From Stdlib Require Import Strings.Ascii.
From S2P Require Import Prelude Machine Text Float64 Collections WalEntry Format PlannerTypes.

Local Open Scope string_scope.
Local Open Scope Z_scope.

(** [older_than s now t] is [now.signed_duration_since(t) > Duration::seconds(s)],
    [time_ltb] the order of instants. *)
Class CacheTime `{Chrono} := {
  older_than : Z → DateTime → DateTime → bool;
  time_ltb : DateTime → DateTime → bool;
}.

(** Instants are totally ordered; what was too old stays so, and an instant
    is not older than itself by a positive time. *)
Class CacheTimeLaws `(T : CacheTime) := {
  time_ltb_irrefl a : time_ltb a a = false;
  time_ltb_trans a b c : time_ltb a b = true → time_ltb b c = true → time_ltb a c = true;
  time_geb_trans a b c : time_ltb a b = false → time_ltb b c = false → time_ltb a c = false;
  older_than_later s t now now' : time_ltb now' now = false → older_than s now t = true → older_than s now' t = true;
  older_than_self s t : 0 ≤ s → older_than s t t = false;
}.

(** The lower-case hexadecimal SHA-256 of a string's bytes. *)
Class Sha256 := sha256_hex : string → string.

(** [char::is_alphanumeric] of a character given by its UTF-8 bytes. *)
Class CharClass := is_alphanumeric : string → bool.

(** ** Text *)

(** The white space characters of one, two and three bytes. *)
Definition code (a : ascii) : Z := Z.of_N (N_of_ascii a).
Definition ws1 (a : ascii) : bool := between 9 13 a || (code a =? 32).
Definition ws2 (a b : ascii) : bool := (code a =? 0xC2) && ((code b =? 0x85) || (code b =? 0xA0)).
Definition ws3 (a b c : ascii) : bool :=
  ((code a =? 0xE1) && (code b =? 0x9A) && (code c =? 0x80)) ||
  ((code a =? 0xE2) && (code b =? 0x80) && (between 0x80 0x8A c || between 0xA8 0xA9 c || (code c =? 0xAF))) ||
  ((code a =? 0xE2) && (code b =? 0x81) && (code c =? 0x9F)) ||
  ((code a =? 0xE3) && (code b =? 0x80) && (code c =? 0x80)).

(** One more byte in the first piece. *)
Definition push (a : ascii) (pieces : list string) : list string :=
  match pieces with [] => [String a ""] | p :: ps => String a p :: ps end.

(** [split(char::is_whitespace)]. *)
Fixpoint split_ws (s : string) : list string :=
  match s with
  | "" => [""]
  | String a s1 =>
      if ws1 a then "" :: split_ws s1 else
      match s1 with
      | "" => push a (split_ws s1)
      | String b s2 =>
          if ws2 a b then "" :: split_ws s2 else
          match s2 with
          | "" => push a (split_ws s1)
          | String c s3 => if ws3 a b c then "" :: split_ws s3 else push a (split_ws s1)
          end
      end
  end.

Definition nonempty (s : string) : bool := match s with "" => false | _ => true end.

(** [split_whitespace]: the non-empty pieces. *)
Definition split_whitespace (s : string) : list string := retain nonempty (split_ws s).

(** [chars()], each character as its bytes. *)
Fixpoint chars (s : string) : list string :=
  match s with
  | "" => []
  | String a s1 =>
      match s1 with
      | "" => [String a ""]
      | String b _ => if starts_char b then String a "" :: chars s1 else push a (chars s1)
      end
  end.

Definition keywords : list string :=
  ["SELECT"; "WHERE"; "FROM"; "SEARCH"; "LIMIT"; "ORDER"; "BY"; "GROUP";
   "AND"; "OR"; "NOT"; "JOIN"; "ON"; "AS"; "HAVING"; "INSERT"; "UPDATE";
   "DELETE"; "SET"; "INTO"; "VALUES"; "WITH"; "UNION"; "INTERSECT"; "EXCEPT";
   "EXISTS"; "BETWEEN"; "LIKE"; "IN"; "IS"; "NULL"; "TRUE"; "FALSE";
   "ASC"; "DESC"; "DISTINCT"; "ALL"; "ANY"; "SOME"; "CASE"; "WHEN"; "THEN";
   "ELSE"; "END";
   "PROOF"; "VERIFY"; "DRIFT"; "OCTAD"; "MODALITY"; "TYPE";
   "GRAPH"; "VECTOR"; "TENSOR"; "SEMANTIC"; "DOCUMENT"; "TEMPORAL"].

Section text.
Context `{UnicodeCase} `{Sha256} `{CharClass}.

Definition normal_token (token : string) : string :=
  if bool_decide (str_upper token ∈ keywords) then str_lower token else token.

Definition normalize_query (query : string) : string :=
  let collapsed := String.concat " " (split_whitespace query) in
  String.concat " " (normal_token <$> split_char " " collapsed).

Definition fingerprint (query : string) : string := sha256_hex (normalize_query query).

Definition word_char (c : string) : bool := is_alphanumeric c || bool_decide (c = "_").

(** [name.len() > 1 && seen.insert(name)] and [params.push(name)]. *)
Definition add_param (name : string) (params : list string) : list string :=
  if (1 <? String.length name)%nat && negb (bool_decide (name ∈ params)) then (params ++ [name])%list else params.

(** The loop, with the name being read, if any: the character that ends a name
    is looked at again. *)
Fixpoint scan_params (l : list string) (name : option string) (params : list string) : list string :=
  match l with
  | [] => from_option (λ n, add_param n params) params name
  | c :: l =>
      match name with
      | Some n => if word_char c then scan_params l (Some (cat [n; c])) params
                  else scan_params l (if decide (c = "$") then Some "$" else None) (add_param n params)
      | None => scan_params l (if decide (c = "$") then Some "$" else None) params
      end
  end.

Definition extract_parameters (query : string) : list string := scan_params (chars query) None [].

End text.

(** [&self.0[..12.min(len)]]: panics off a character boundary. *)
Definition prepared_id_display (id : string) : option string :=
  (λ p, cat ["prep_"; p]) <$> slice_to (Nat.min 12 (String.length id)) id.

Inductive ParamValue :=
  | PString (s : string) | PInt (i : Z) | PFloat (v : f64) | PBool (b : bool) | PVector (v : list f32) | PNull.

(** ** The cache *)

Record CacheConfig := mkCacheConfig {
  max_entries : nat;
  ttl_seconds : Z;
  enable_plan_cache : bool;
  enable_result_cache : bool;
  max_result_cache_bytes : Z;
}.

Definition CacheConfig_default : CacheConfig := mkCacheConfig 1024 3600 true false (64 * 1024 * 1024).

Inductive CacheError :=
  | NotFound (id : string)
  | ParameterMismatch (expected provided : list string)
  | Expired (id : string)
  | CacheFull.

(** [x as i64]. *)
Definition as_i64 (z : Z) : Z := if z <? 2 ^ 63 then z else z - 2 ^ 64.

Section cache.
Context `{CacheTime} `{UnicodeCase} `{Sha256} `{CharClass} `{MapIter}.

Record PreparedStatement := mkPrepared {
  id : string;
  original_query : string;
  parameter_names : list string;
  logical_plan : LogicalPlan;
  cached_physical_plan : option PhysicalPlan;
  created_at : DateTime;
  last_used : DateTime;
  use_count : Z;
  avg_execution_ms : f64;
}.

Definition set_last_used (t : DateTime) (s : PreparedStatement) : PreparedStatement :=
  mkPrepared (id s) (original_query s) (parameter_names s) (logical_plan s) (cached_physical_plan s)
    (created_at s) t (use_count s) (avg_execution_ms s).
Definition set_plan (p : PhysicalPlan) (s : PreparedStatement) : PreparedStatement :=
  mkPrepared (id s) (original_query s) (parameter_names s) (logical_plan s) (Some p)
    (created_at s) (last_used s) (use_count s) (avg_execution_ms s).
Definition count_use (t : DateTime) (s : PreparedStatement) : PreparedStatement :=
  mkPrepared (id s) (original_query s) (parameter_names s) (logical_plan s) (cached_physical_plan s)
    (created_at s) t (wrap 64 (use_count s + 1)) (avg_execution_ms s).

Record PlanCache := mkPlanCache {
  statements : gmap string PreparedStatement;
  fingerprints : gmap string string;
  generation : Z;
  hit_count : Z;
  miss_count : Z;
  eviction_count : Z;
}.

Definition new : PlanCache := mkPlanCache ∅ ∅ 0 0 0 0.

(** Assignments to one field. *)
Definition set_statements (m : gmap string PreparedStatement) (c : PlanCache) : PlanCache :=
  mkPlanCache m (fingerprints c) (generation c) (hit_count c) (miss_count c) (eviction_count c).
Definition set_fingerprints (m : gmap string string) (c : PlanCache) : PlanCache :=
  mkPlanCache (statements c) m (generation c) (hit_count c) (miss_count c) (eviction_count c).
Definition bump_generation (c : PlanCache) : PlanCache :=
  mkPlanCache (statements c) (fingerprints c) (wrap 64 (generation c + 1)) (hit_count c) (miss_count c) (eviction_count c).
Definition add_hit (c : PlanCache) : PlanCache :=
  mkPlanCache (statements c) (fingerprints c) (generation c) (wrap 64 (hit_count c + 1)) (miss_count c) (eviction_count c).
Definition add_miss (c : PlanCache) : PlanCache :=
  mkPlanCache (statements c) (fingerprints c) (generation c) (hit_count c) (wrap 64 (miss_count c + 1)) (eviction_count c).
Definition add_evictions (n : Z) (c : PlanCache) : PlanCache :=
  mkPlanCache (statements c) (fingerprints c) (generation c) (hit_count c) (miss_count c) (wrap 64 (eviction_count c + n)).

Context (config : CacheConfig).

Definition is_expired (now : DateTime) (s : PreparedStatement) : bool :=
  older_than (as_i64 (ttl_seconds config)) now (created_at s).

(** Remove a statement and the fingerprint of its query. *)
Definition remove_statement (c : PlanCache) (i : string) : PlanCache :=
  match statements c !! i with
  | Some s => set_fingerprints (delete (fingerprint (original_query s)) (fingerprints c))
                (set_statements (delete i (statements c)) c)
  | None => c
  end.

Definition evict_lru_inner (c : PlanCache) : PlanCache * nat :=
  match min_by_key time_ltb (λ p : string * PreparedStatement, last_used p.2) (map_iter (statements c)) with
  | Some (i, _) => (bump_generation (add_evictions 1 (remove_statement c i)), 1%nat)
  | None => (c, 0%nat)
  end.

(** ** Preparing *)

(** First section: is the statement there? *)
Definition prepare_check (query : string) (c : PlanCache) : bool :=
  bool_decide (is_Some (statements c !! fingerprint query)).

(** Second section when it is. *)
Definition prepare_touch (query : string) (now : DateTime) (c : PlanCache) : PlanCache :=
  let i := fingerprint query in
  bump_generation
    match statements c !! i with
    | Some s => set_statements (<[i := set_last_used now s]> (statements c)) c
    | None => c
    end.

Definition new_statement (query : string) (plan : LogicalPlan) (now : DateTime) : PreparedStatement :=
  mkPrepared (fingerprint query) query (extract_parameters query) plan None now now 0 f64_zero.

(** Second section when it is not. *)
Definition prepare_insert (query : string) (plan : LogicalPlan) (now : DateTime) (c : PlanCache) : PlanCache :=
  let fp := fingerprint query in
  let c := if (max_entries config <=? size (statements c))%nat then (evict_lru_inner c).1 else c in
  let c := set_statements (<[fp := new_statement query plan now]> (statements c)) c in
  bump_generation (set_fingerprints (<[fp := fp]> (fingerprints c)) c).

Definition prepare (query : string) (plan : LogicalPlan) (now : DateTime) (c : PlanCache) : PlanCache * string :=
  (if prepare_check query c then prepare_touch query now c else prepare_insert query plan now c,
   fingerprint query).

(** ** Looking up and executing *)

Definition get (i : string) (now : DateTime) (c : PlanCache) : PlanCache * option PreparedStatement :=
  match statements c !! i with
  | Some s => if is_expired now s then (add_miss c, None) else (add_hit c, Some s)
  | None => (add_miss c, None)
  end.

(** [now] is read for the expiry check and [now'] for [last_used]. *)
Definition execute_prepared (i : string) (params : gmap string ParamValue) (now now' : DateTime) :
    SR PlanCache CacheError PreparedStatement := λ c,
  match statements c !! i with
  | None => (c, Err (NotFound i))
  | Some s =>
      if is_expired now s then (set_statements (delete i (statements c)) c, Err (Expired i))
      else
        let provided := (map_iter params).*1 in
        if negb (bool_decide (parameter_names s = [])) &&
           negb (bool_decide (sort_strings (parameter_names s) = sort_strings provided)) then
          (c, Err (ParameterMismatch (parameter_names s) provided))
        else
          let s := count_use now' s in
          (bump_generation (add_hit (set_statements (<[i := s]> (statements c)) c)), Ok s)
  end.

Definition lookup_by_query (query : string) (c : PlanCache) : PlanCache * option string :=
  match fingerprints c !! fingerprint query with
  | Some i => (add_hit c, Some i)
  | None => (add_miss c, None)
  end.

Definition cache_plan (i : string) (plan : PhysicalPlan) (c : PlanCache) : PlanCache :=
  match statements c !! i with
  | Some s => bump_generation (set_statements (<[i := set_plan plan s]> (statements c)) c)
  | None => c
  end.

(** ** Removing *)

Definition invalidate (i : string) (c : PlanCache) : PlanCache * bool :=
  match statements c !! i with
  | Some _ => (bump_generation (add_evictions 1 (remove_statement c i)), true)
  | None => (c, false)
  end.

Definition invalidate_all (c : PlanCache) : PlanCache :=
  bump_generation (add_evictions (Z.of_nat (size (statements c)))
    (set_fingerprints ∅ (set_statements ∅ c))).

Definition expired_ids (now : DateTime) (c : PlanCache) : list string :=
  (retain (λ p : string * PreparedStatement, is_expired now p.2) (map_iter (statements c))).*1.

Definition evict_expired (now : DateTime) (c : PlanCache) : PlanCache * nat :=
  let expired := expired_ids now c in
  let count := length expired in
  let c := add_evictions (Z.of_nat count) (foldl remove_statement c expired) in
  (if (0 <? count)%nat then bump_generation c else c, count).

Definition evict_lru (c : PlanCache) : PlanCache * nat :=
  if (size (statements c) <=? max_entries config)%nat then (c, 0%nat) else evict_lru_inner c.

(** ** Statistics *)

Record CacheStats := mkCacheStats {
  total_entries : nat; hits : Z; misses : Z; evictions : Z; hit_ratio : f64; stats_generation : Z }.

Definition stats (c : PlanCache) : CacheStats :=
  let total_lookups := wrap 64 (hit_count c + miss_count c) in
  mkCacheStats 0 (hit_count c) (miss_count c) (eviction_count c)
    (if 0 <? total_lookups then f64_div (f64_of_u64 (hit_count c)) (f64_of_u64 total_lookups) else f64_zero)
    (generation c).

Definition stats_async (c : PlanCache) : CacheStats :=
  let s := stats c in
  mkCacheStats (size (statements c)) (hits s) (misses s) (evictions s) (hit_ratio s) (stats_generation s).

End cache.
