(* ===== verification/Lexing.v ===== *)
(** Text by characters: trimming, splitting and searching as [str] does, on the
    UTF-8 bytes that represent a string, and Rust's grammar of decimal numbers. *)

From Stdlib Require Import Strings.Ascii.
From S2P Require Import Prelude Machine Text Float64 Format PlanCache.

Local Open Scope string_scope.
Local Open Scope Z_scope.

(** ** Characters *)

Definition is_whitespace (c : string) : bool :=
  match c with
  | String a "" => ws1 a
  | String a (String b "") => ws2 a b
  | String a (String b (String d "")) => ws3 a b d
  | _ => false
  end.

Fixpoint drop_while {A} (p : A → bool) (l : list A) : list A :=
  match l with [] => [] | x :: l' => if p x then drop_while p l' else l end.
Definition drop_end_while {A} (p : A → bool) (l : list A) : list A := reverse (drop_while p (reverse l)).

(** [trim_start_matches], [trim_end_matches] and [trim]. *)
Definition trim_start (p : string → bool) (s : string) : string := cat (drop_while p (chars s)).
Definition trim_end (p : string → bool) (s : string) : string := cat (drop_end_while p (chars s)).
Definition trim (s : string) : string := trim_end is_whitespace (trim_start is_whitespace s).

(** [s.find(p)]: the byte offset of the first occurrence. *)
Fixpoint find_str (p s : string) : option nat :=
  if starts_with p s then Some O
  else match s with "" => None | String _ s => S <$> find_str p s end.

(** [&s[i..]]: panics unless [i] is a character boundary. *)
Definition slice_from (i : nat) (s : string) : option string :=
  if is_char_boundary i s then Some (String.substring i (String.length s - i) s) else None.

(** ** Numbers *)

(** The digits at the front: their value, how many there are and the rest. *)
Fixpoint take_digits (s : string) (v : Z) (n : nat) : Z * nat * string :=
  match s with
  | String a s' => match digit_val a with Some d => take_digits s' (10 * v + d) (S n) | None => (v, n, s) end
  | "" => (v, n, "")
  end.

(** [e] or [E], an optional sign and at least one digit, to the end. *)
Definition parse_exponent (s : string) : option Z :=
  match s with
  | "" => Some 0
  | String a s =>
      if negb (Ascii.eqb (ascii_lower a) "e") then None else
      let '(neg, s) := match s with
                       | String "-" s => (true, s) | String "+" s => (false, s) | _ => (false, s) end in
      match take_digits s 0 0 with
      | (v, S _, "") => Some (if neg : bool then - v else v)
      | _ => None
      end
  end.

(** [m * 10 ^ e] rounded once to the nearest binary32 number.  Outside the range
    of the exponents of its digits the result is an infinity or zero. *)
Definition f32_of_decimal (neg : bool) (m e : Z) (digits : nat) : f32 :=
  let signed (x : f32) := if neg then SFopp x else x in
  match m with
  | Z0 => S754_zero neg
  | Zpos p =>
      if 40 <? e then S754_infinity neg
      else if e <? - 60 - Z.of_nat digits then S754_zero neg
      else if 0 <=? e then signed (binary_normalize 24 128 (Zpos p * 10 ^ e) 0 false)
      else signed (f32_div (S754_finite false p 0) (S754_finite false (Z.to_pos (10 ^ (- e))) 0))
  | Zneg _ => S754_nan
  end.

(** The words, in any case. *)
Definition parse_special (s : string) : option f32 :=
  let l := map_ascii ascii_lower s in
  if String.eqb l "nan" then Some S754_nan
  else if String.eqb l "inf" || String.eqb l "infinity" then Some (S754_infinity false)
  else None.

Definition parse_decimal (neg : bool) (s : string) : option f32 :=
  let '(i, ni, s1) := take_digits s 0 0 in
  let '(v, nf, s2) := match s1 with String "." s => take_digits s i 0 | _ => (i, O, s1) end in
  e ← parse_exponent s2;
  if (ni + nf =? 0)%nat then None
  else Some (f32_of_decimal neg v (e - Z.of_nat nf) (ni + nf)).

(** [parse::<f32>()]. *)
Definition parse_f32 (s : string) : option f32 :=
  let '(neg, s) := match s with
                   | String "-" s => (true, s) | String "+" s => (false, s) | _ => (false, s) end in
  match parse_special s with
  | Some x => Some (if neg : bool then SFopp x else x)
  | None => parse_decimal neg s
  end.

(** ** Facts on ASCII text *)

Lemma is_ascii_app s t : is_ascii (s +:+ t) = is_ascii s && is_ascii t.
Proof.
  unfold is_ascii. induction s as [|a s IH]; [done|].
  change (between 0 127 a && all_ascii (between 0 127) (s +:+ t) = between 0 127 a && all_ascii (between 0 127) s && all_ascii (between 0 127) t).
  by rewrite IH, andb_assoc.
Qed.

Lemma string_app_nil_r s : s +:+ "" = s.
Proof. induction s as [|a s IH]; [done|]. change (String a (s +:+ "") = String a s). by rewrite IH. Qed.

Lemma ascii_starts_char a : between 0 127 a = true → starts_char a = true.
Proof. unfold starts_char, between. rewrite !andb_true_iff, !Z.leb_le, negb_true_iff, andb_false_iff, !Z.leb_gt. lia. Qed.

Lemma chars_cons a s : is_ascii s = true → chars (String a s) = String a "" :: chars s.
Proof.
  destruct s as [|b s]; [done|]. cbn [is_ascii all_ascii]. intros [Hb _]%andb_true_iff. cbn [chars].
  by rewrite (ascii_starts_char b Hb).
Qed.

Lemma chars_app s t : is_ascii s = true → is_ascii t = true → chars (s +:+ t) = (chars s ++ chars t)%list.
Proof.
  intros Hs Ht. induction s as [|a s IH]; [done|]. cbn [is_ascii all_ascii] in Hs.
  apply andb_true_iff in Hs as [_ Hs]. change (String a s +:+ t) with (String a (s +:+ t)).
  rewrite !chars_cons, IH by (rewrite ?is_ascii_app; try (apply andb_true_iff; split); done). done.
Qed.

Lemma cat_cons x l : cat (x :: l) = x +:+ cat l.
Proof. unfold cat. destruct l; [by rewrite string_app_nil_r|done]. Qed.

Lemma cat_push a l : cat (push a l) = String a (cat l).
Proof. destruct l as [|p l]; [done|]. cbn [push]. by rewrite !cat_cons. Qed.

Lemma cat_chars s : cat (chars s) = s.
Proof.
  induction s as [|a s IH]; [done|]. cbn [chars]. destruct s as [|b s]; [done|].
  destruct (starts_char b); [rewrite cat_cons|rewrite cat_push]; by rewrite IH.
Qed.

Lemma cat_app l l' : cat (l ++ l') = cat l +:+ cat l'.
Proof.
  induction l as [|x l IH]; [done|]. cbn [app]. rewrite !cat_cons, IH.
  induction x as [|a x IHx]; [done|]. change (String a (x +:+ (cat l +:+ cat l')) = String a ((x +:+ cat l) +:+ cat l')).
  by rewrite IHx.
Qed.

(** What trimming removes. *)
Lemma drop_while_split {A} (p : A → bool) l :
  ∃ w, l = (w ++ drop_while p l)%list ∧ Forall (λ x, p x = true) w ∧
       match drop_while p l with [] => True | x :: _ => p x = false end.
Proof.
  induction l as [|x l (w & E & Hw & Hd)]; [by exists []|]. cbn [drop_while]. destruct (p x) eqn:Ex.
  - exists (x :: w). split_and!; [by rewrite E at 1|by constructor|done].
  - by exists [].
Qed.

Lemma trim_start_split p s :
  ∃ w, s = cat w +:+ trim_start p s ∧ Forall (λ c, p c = true) w.
Proof.
  destruct (drop_while_split p (chars s)) as (w & E & Hw & _). exists w. split; [|done].
  unfold trim_start. by rewrite <- cat_app, <- E, cat_chars.
Qed.

Lemma trim_end_split p s :
  ∃ w, s = trim_end p s +:+ cat w ∧ Forall (λ c, p c = true) w.
Proof.
  destruct (drop_while_split p (reverse (chars s))) as (w & E & Hw & _). exists (reverse w).
  split; [|by apply Forall_reverse]. unfold trim_end, drop_end_while.
  by rewrite <- cat_app, <- reverse_app, <- E, reverse_involutive, cat_chars.
Qed.

(** A character that stays ends the trimming; one that goes is dropped. *)
Lemma trim_start_stays p a s :
  is_ascii (String a s) = true → p (String a "") = false → trim_start p (String a s) = String a s.
Proof.
  intros Hs Hp. unfold trim_start. pose proof Hs as Hs'. cbn [is_ascii all_ascii] in Hs'.
  apply andb_true_iff in Hs' as [_ Hs']. rewrite chars_cons by done. cbn [drop_while]. rewrite Hp.
  rewrite <- chars_cons by done. apply cat_chars.
Qed.
Lemma trim_start_drops p a s :
  is_ascii s = true → p (String a "") = true → trim_start p (String a s) = trim_start p s.
Proof. intros Hs Hp. unfold trim_start. rewrite chars_cons by done. cbn [drop_while]. by rewrite Hp. Qed.

Lemma trim_end_stays p a s :
  is_ascii (s +:+ String a "") = true → p (String a "") = false → trim_end p (s +:+ String a "") = s +:+ String a "".
Proof.
  intros Hs Hp. pose proof Hs as Hs'. rewrite is_ascii_app in Hs'. apply andb_true_iff in Hs' as [Hs1 Hs2].
  unfold trim_end, drop_end_while. rewrite chars_app, reverse_app by done. cbn [chars].
  change (reverse [String a ""]) with [String a ""]. cbn [app drop_while]. rewrite Hp.
  change (String a "" :: reverse (chars s)) with (reverse [String a ""] ++ reverse (chars s))%list.
  rewrite <- reverse_app, reverse_involutive. change [String a ""] with (chars (String a "")).
  rewrite <- chars_app by done. apply cat_chars.
Qed.
Lemma trim_end_drops p a s :
  is_ascii (s +:+ String a "") = true → p (String a "") = true → trim_end p (s +:+ String a "") = trim_end p s.
Proof.
  rewrite is_ascii_app. intros [Hs1 Hs2]%andb_true_iff Hp. unfold trim_end, drop_end_while.
  rewrite chars_app, reverse_app by done. cbn. by rewrite Hp.
Qed.

Lemma substring_all t : String.substring 0 (String.length t) t = t.
Proof.
  induction t as [|a t IH]; [done|].
  change (String a (String.substring 0 (String.length t) t) = String a t). by rewrite IH.
Qed.

Lemma substring_drop s t : String.substring (String.length s) (String.length t) (s +:+ t) = t.
Proof. induction s as [|a s IH]; [apply substring_all|done]. Qed.

Lemma get_app s t i : String.get (String.length s + i) (s +:+ t) = String.get i t.
Proof. by induction s. Qed.

(** The text after an ASCII prefix. *)
Lemma slice_from_app s t : is_ascii t = true → slice_from (String.length s) (s +:+ t) = Some t.
Proof.
  intros Ht. unfold slice_from, is_char_boundary. pose proof (get_app s t 0) as Hg.
  rewrite Nat.add_0_r in Hg. rewrite Hg, string_app_length.
  replace (String.length s + String.length t - String.length s)%nat with (String.length t) by lia.
  rewrite substring_drop. destruct t as [|a t]; cbn [String.get].
  - by rewrite Nat.add_0_r, Nat.eqb_refl.
  - cbn [is_ascii all_ascii] in Ht. apply andb_true_iff in Ht as [Ha _]. by rewrite ascii_starts_char.
Qed.

(** The first character of a trimmed text. *)
Lemma trim_start_head p a s r : is_ascii s = true → trim_start p s = String a r → p (String a "") = false.
Proof.
  induction s as [|b s IH]; [done|]. cbn [is_ascii all_ascii]. intros Hs Ht.
  destruct (p (String b "")) eqn:Eb.
  - apply andb_true_iff in Hs as [_ Hs]. rewrite trim_start_drops in Ht by done. by apply IH.
  - rewrite trim_start_stays in Ht by done. by injection Ht as <- _.
Qed.

Lemma trim_head a s r : is_ascii s = true → trim s = String a r → is_whitespace (String a "") = false.
Proof.
  unfold trim. intros Hs Ht. destruct (trim_end_split is_whitespace (trim_start is_whitespace s)) as (w & E & _).
  rewrite Ht in E. by apply (trim_start_head _ _ s _ Hs E).
Qed.

Lemma is_ascii_trim s : is_ascii s = true → is_ascii (trim s) = true.
Proof.
  intros Hs. unfold trim. destruct (trim_start_split is_whitespace s) as (w & E & _).
  destruct (trim_end_split is_whitespace (trim_start is_whitespace s)) as (w' & E' & _).
  rewrite E in Hs. rewrite is_ascii_app in Hs. apply andb_true_iff in Hs as [_ Hs]. rewrite E' in Hs.
  rewrite is_ascii_app in Hs. by apply andb_true_iff in Hs as [Hs _].
Qed.

Lemma is_ascii_trim_end p s : is_ascii s = true → is_ascii (trim_end p s) = true.
Proof.
  intros Hs. destruct (trim_end_split p s) as (w & E & _). rewrite E, is_ascii_app in Hs.
  by apply andb_true_iff in Hs as [Hs _].
Qed.
