(* ===== verification/PlanCacheTheorems.v ===== *)
(** What the plan cache guarantees: which queries share a statement, what
    preparing and executing do, the invariant of the two maps under any
    interleaving of critical sections, and what expiry leaves behind. *)

From Stdlib Require Import Strings.Ascii.
From S2P Require Import Prelude Machine Text Float64 Collections WalEntry Format PlannerTypes PlanCache.

Local Open Scope string_scope.
Local Open Scope Z_scope.

(** ** Splitting ASCII text *)

Lemma all_ascii_app P s t : all_ascii P (s +:+ t) = all_ascii P s && all_ascii P t.
Proof. induction s as [|a s IH]; [done|]. simpl. rewrite <- andb_assoc. f_equal. exact IH. Qed.

Lemma all_ascii_impl P Q s : (∀ a, P a = true → Q a = true) → all_ascii P s = true → all_ascii Q s = true.
Proof. intros H. induction s as [|a s IH]; simpl; [done|]. intros [Ha Hs]%andb_prop. by rewrite H, IH. Qed.

Lemma all_ascii_map P f s : all_ascii P (map_ascii f s) = all_ascii (P ∘ f) s.
Proof. induction s as [|a s IH]; simpl; [done|]. by rewrite IH. Qed.

(** A character of a token of an ASCII text. *)
Definition plain (a : ascii) : bool := between 0 127 a && negb (ws1 a).
Definition token (t : string) : Prop := nonempty t = true ∧ all_ascii plain t = true.

Lemma split_ws_cons a s :
  between 0 127 a = true → split_ws (String a s) = if ws1 a then "" :: split_ws s else push a (split_ws s).
Proof.
  intros Ha. assert (H2 : ∀ b, ws2 a b = false).
  { intros b. unfold ws2, code. unfold between in Ha. apply andb_false_iff. left. lia. }
  assert (H3 : ∀ b c, ws3 a b c = false).
  { intros b c. unfold ws3, code. unfold between in Ha. rewrite !orb_false_iff, !andb_false_iff. lia. }
  cbn [split_ws]. destruct (ws1 a); [done|]. destruct s as [|b s]; [done|]. rewrite H2.
  destruct s as [|c s]; [done|]. by rewrite H3.
Qed.

Lemma split_ws_tokens s : is_ascii s = true → Forall (λ t, all_ascii plain t = true) (split_ws s).
Proof.
  unfold is_ascii. induction s as [|a s IH]; cbn [all_ascii]; [by repeat constructor|].
  intros [Ha Hs]%andb_prop. rewrite split_ws_cons by done. specialize (IH Hs).
  destruct (ws1 a) eqn:Ew; [by constructor|].
  assert (Hp : plain a = true) by (unfold plain; by rewrite Ha, Ew).
  destruct IH as [|p ps Hq Hps]; cbn [push]; constructor; simpl; rewrite ?Hp; done.
Qed.

Lemma split_whitespace_tokens s : is_ascii s = true → Forall token (split_whitespace s).
Proof.
  intros Hs%split_ws_tokens. unfold split_whitespace. rewrite Forall_forall in *.
  intros t [Ht Hn]%elem_of_retain. split; [done|auto].
Qed.

Lemma split_ws_app t s :
  all_ascii plain t = true → split_ws (t +:+ String " " s) = t :: split_ws s.
Proof.
  induction t as [|a t IH]; cbn [all_ascii]; [done|].
  intros [[Ha Hw]%andb_prop Ht]%andb_prop. apply negb_true_iff in Hw.
  change (String a t +:+ String " " s) with (String a (t +:+ String " " s)).
  by rewrite split_ws_cons, Hw, IH.
Qed.

Lemma split_ws_plain t : all_ascii plain t = true → split_ws t = [t].
Proof.
  induction t as [|a t IH]; cbn [all_ascii]; [done|].
  intros [[Ha Hw]%andb_prop Ht]%andb_prop. apply negb_true_iff in Hw. by rewrite split_ws_cons, Hw, IH.
Qed.

Lemma plain_space a : plain a = true → a ≠ " "%char.
Proof. by intros H ->. Qed.

Lemma split_space_app t s :
  all_ascii plain t = true → split_char " " (t +:+ String " " s) = t :: split_char " " s.
Proof.
  induction t as [|a t IH]; cbn [all_ascii]; [done|]. intros [Ha Ht]%andb_prop.
  change (String a t +:+ String " " s) with (String a (t +:+ String " " s)). cbn [split_char].
  rewrite IH by done. by destruct (ascii_dec a " ") as [E|]; [apply plain_space in Ha|].
Qed.

Lemma split_space_plain t : all_ascii plain t = true → split_char " " t = [t].
Proof.
  induction t as [|a t IH]; cbn [all_ascii]; [done|]. intros [Ha Ht]%andb_prop. cbn [split_char].
  rewrite IH by done. by destruct (ascii_dec a " ") as [E|]; [apply plain_space in Ha|].
Qed.

Lemma concat_cons2 t u (l : list string) :
  String.concat " " (t :: u :: l) = t +:+ String " " (String.concat " " (u :: l)).
Proof. done. Qed.

Lemma split_space_concat l : l ≠ [] → Forall token l → split_char " " (String.concat " " l) = l.
Proof.
  intros Hl H. induction H as [|t l [_ Ht] H IH]; [done|]. destruct l as [|u l].
  - by apply split_space_plain.
  - rewrite concat_cons2, split_space_app by done. by rewrite IH.
Qed.

Lemma split_whitespace_concat l : Forall token l → split_whitespace (String.concat " " l) = l.
Proof.
  unfold split_whitespace. induction 1 as [|t l [Hn Ht] H IH]; [done|]. destruct l as [|u l].
  - cbn [String.concat]. rewrite split_ws_plain by done. simpl. by rewrite Hn.
  - rewrite concat_cons2, split_ws_app by done. cbn [retain]. by rewrite Hn, IH.
Qed.

Lemma concat_tokens_inj l k :
  Forall token l → Forall token k → String.concat " " l = String.concat " " k → l = k.
Proof. intros Hl Hk E. by rewrite <- (split_whitespace_concat l), <- (split_whitespace_concat k), E. Qed.

(** ** Normal forms *)

Section normal.
Context `{UnicodeCaseLaws} `{Sha256} `{CharClass}.

Lemma token_ascii t : token t → is_ascii t = true.
Proof. intros [_ Ht]. revert Ht. apply all_ascii_impl. by intros a [? _]%andb_prop. Qed.

Lemma lower_plain a : plain (ascii_lower a) = plain a.
Proof.
  apply eq_bool_prop_intro. revert a.
  assert (∀ a, Bool.eqb (plain (ascii_lower a)) (plain a) = true) as Hc.
  { intros a. pose proof (ascii_ind_fun (λ a, if Bool.eqb (plain (ascii_lower a)) (plain a) then "1"%char else "0"%char)
      (λ _, "1"%char) eq_refl a) as E. cbv beta in E. by destruct (Bool.eqb _ _). }
  intros a. specialize (Hc a). apply Bool.eqb_prop in Hc. by rewrite Hc.
Qed.

Lemma lower_token t : token t → token (str_lower t).
Proof.
  intros Ht. pose proof (token_ascii t Ht) as Ha. destruct Ht as [Hn Ht]. rewrite str_lower_ascii by done. split.
  - by destruct t.
  - rewrite all_ascii_map. revert Ht. apply all_ascii_impl. intros a. simpl. by rewrite lower_plain.
Qed.

Lemma normal_token_token t : token t → token (normal_token t).
Proof. intros Ht. unfold normal_token. case_bool_decide; [by apply lower_token | done]. Qed.

Lemma upper_lower t : token t → str_upper (str_lower t) = str_upper t.
Proof.
  intros Ht. pose proof (token_ascii _ (lower_token t Ht)). pose proof (token_ascii t Ht).
  rewrite !str_upper_ascii, str_lower_ascii, map_ascii_compose by done.
  apply map_ascii_ext. exact ascii_upper_lower.
Qed.

Lemma lower_lower t : token t → str_lower (str_lower t) = str_lower t.
Proof.
  intros Ht. pose proof (token_ascii _ (lower_token t Ht)). pose proof (token_ascii t Ht).
  rewrite (str_lower_ascii (str_lower t)), str_lower_ascii, map_ascii_compose by done.
  apply map_ascii_ext. exact ascii_lower_lower.
Qed.

Lemma normal_token_idem t : token t → normal_token (normal_token t) = normal_token t.
Proof.
  intros Ht. unfold normal_token at 2 3. case_bool_decide as Hk; unfold normal_token.
  - rewrite upper_lower, lower_lower by done. by rewrite bool_decide_eq_true_2.
  - by rewrite bool_decide_eq_false_2.
Qed.

Lemma normalize_tokens q :
  is_ascii q = true → normalize_query q = String.concat " " (normal_token <$> split_whitespace q).
Proof.
  intros Hq. unfold normalize_query. pose proof (split_whitespace_tokens q Hq) as Ht.
  destruct (split_whitespace q) as [|t l] eqn:E; [|by rewrite split_space_concat].
  simpl. unfold normal_token. rewrite str_upper_ascii by done.
  rewrite bool_decide_eq_false_2; [done|]. by apply (bool_decide_unpack (_ ∉ _)); vm_compute.
Qed.

Lemma concat_ascii l : Forall token l → is_ascii (String.concat " " l) = true.
Proof.
  induction 1 as [|t l Ht _ IH]; [done|]. destruct l as [|u l]; [by apply token_ascii|].
  rewrite concat_cons2. unfold is_ascii in *. rewrite all_ascii_app.
  pose proof (token_ascii t Ht) as E. unfold is_ascii in E. rewrite E. exact IH.
Qed.

(** The keyword written in two ways, or the same token. *)
Definition same_token (a b : string) : Prop :=
  a = b ∨ (str_upper a ∈ keywords ∧ str_upper b ∈ keywords ∧ str_lower a = str_lower b).

Lemma normal_token_eq a b : token a → token b → normal_token a = normal_token b ↔ same_token a b.
Proof.
  intros Ha Hb. unfold same_token, normal_token. split.
  - repeat case_bool_decide; intros E; auto; subst.
    + exfalso. revert select (_ ∉ keywords). intros Hn. apply Hn. by rewrite upper_lower.
    + exfalso. revert select (_ ∉ keywords). intros Hn. apply Hn. by rewrite upper_lower.
  - intros [->|(? & ? & ?)]; [done|]. by rewrite !bool_decide_eq_true_2.
Qed.

Lemma same_tokens_iff l k :
  Forall token l → Forall token k → normal_token <$> l = normal_token <$> k ↔ Forall2 same_token l k.
Proof.
  intros Hl. revert k. induction Hl as [|a l Ha Hl IH]; intros [|b k] Hk; try (by split; inversion 1).
  apply Forall_cons in Hk as [Hb Hk]. rewrite !fmap_cons, Forall2_cons, <- normal_token_eq, <- IH by done.
  split; [by intros [= -> ->] | by intros [-> ->]].
Qed.

(** C38 (which queries share a statement).  On ASCII queries normalisation is
    idempotent, and two queries have the same normal form exactly when their
    white-space separated tokens are pairwise equal or the same keyword in a
    different case; so they get the same statement id, unless SHA-256 collides
    on them, exactly then. *)
Theorem normalize_equiv q1 q2 :
  is_ascii q1 = true → is_ascii q2 = true →
  normalize_query (normalize_query q1) = normalize_query q1 ∧
  (normalize_query q1 = normalize_query q2 ↔ Forall2 same_token (split_whitespace q1) (split_whitespace q2)) ∧
  (Forall2 same_token (split_whitespace q1) (split_whitespace q2) → fingerprint q1 = fingerprint q2) ∧
  (fingerprint q1 = fingerprint q2 →
   Forall2 same_token (split_whitespace q1) (split_whitespace q2) ∨
   (normalize_query q1 ≠ normalize_query q2 ∧
    sha256_hex (normalize_query q1) = sha256_hex (normalize_query q2))).
Proof.
  intros A1 A2. pose proof (split_whitespace_tokens q1 A1) as T1. pose proof (split_whitespace_tokens q2 A2) as T2.
  assert (N : ∀ l, Forall token l → Forall token (normal_token <$> l)).
  { intros l Hl. apply Forall_fmap. by apply (Forall_impl _ _ _ Hl normal_token_token). }
  assert (Hiff : normalize_query q1 = normalize_query q2 ↔
                 Forall2 same_token (split_whitespace q1) (split_whitespace q2)).
  { rewrite !normalize_tokens, <- same_tokens_iff by done. split; [intros E; by apply concat_tokens_inj in E; auto|].
    by intros ->. }
  split_and!; [|done| |].
  - rewrite (normalize_tokens q1) by done.
    rewrite normalize_tokens by (by apply concat_ascii, N). rewrite split_whitespace_concat by (by apply N).
    f_equal. rewrite <- list_fmap_compose. apply list_fmap_ext. intros i t Ht.
    apply (normal_token_idem t), (Forall_lookup_1 _ _ _ _ T1 Ht).
  - intros E%Hiff. unfold fingerprint. by rewrite E.
  - intros E. destruct (decide (normalize_query q1 = normalize_query q2)) as [En|]; [left; by apply Hiff | by right].
Qed.

End normal.

(** ** The invariant of the two maps *)

Section invariant.
Context `{CacheTime} `{UnicodeCase} `{Sha256} `{CharClass} `{MapIterLaws}.
Context (config : CacheConfig).
Implicit Types (c : PlanCache) (i q : string) (now : DateTime) (s : PreparedStatement).

(** A statement is what its query prepares, under the query's fingerprint. *)
Definition statement_ok i s : Prop :=
  id s = i ∧ fingerprint (original_query s) = i ∧ parameter_names s = extract_parameters (original_query s).

(** The weakest invariant of every critical section: every statement can be
    found by its query, and the cache is never over capacity (it always has
    room for one statement). *)
Record cache_ok c : Prop := mkCacheOk {
  co_statement i s : statements c !! i = Some s → statement_ok i s;
  co_fingerprint k i : fingerprints c !! k = Some i → i = k;
  co_found i : is_Some (statements c !! i) → fingerprints c !! i = Some i;
  co_size : (size (statements c) ≤ Nat.max 1 (max_entries config))%nat;
}.

(** Counters do not matter. *)
Lemma cache_ok_same c c' :
  cache_ok c → statements c' = statements c → fingerprints c' = fingerprints c → cache_ok c'.
Proof. intros [A B C D] Hs Hf. split; rewrite ?Hs, ?Hf; auto. Qed.

Lemma bump_ok c : cache_ok c → cache_ok (bump_generation c).
Proof. intros Hc. by apply (cache_ok_same c). Qed.
Lemma hit_ok c : cache_ok c → cache_ok (add_hit c).
Proof. intros Hc. by apply (cache_ok_same c). Qed.
Lemma miss_ok c : cache_ok c → cache_ok (add_miss c).
Proof. intros Hc. by apply (cache_ok_same c). Qed.
Lemma evictions_ok n c : cache_ok c → cache_ok (add_evictions n c).
Proof. intros Hc. by apply (cache_ok_same c). Qed.
Hint Resolve bump_ok hit_ok miss_ok evictions_ok : core.

Lemma new_ok : cache_ok new.
Proof.
  split; simpl; [intros ??|intros ??|intros ?|rewrite map_size_empty; lia]; rewrite lookup_empty; [done..|].
  by intros [].
Qed.

(** Replacing a statement by one for the same query. *)
Lemma update_ok i s s' c :
  statements c !! i = Some s → statement_ok i s' → cache_ok c →
  cache_ok (set_statements (<[i := s']> (statements c)) c).
Proof.
  intros Hi Hs [A B C D]. split; simpl.
  - intros j t [[<- <-]|[_ Hj]]%lookup_insert_Some; auto.
  - exact B.
  - intros j [<-|[_ Hj]]%lookup_insert_is_Some; apply C; [by eexists | done].
  - rewrite map_size_insert_Some; [done|by eexists].
Qed.

Lemma drop_statement_ok i c : cache_ok c → cache_ok (set_statements (delete i (statements c)) c).
Proof.
  intros [A B C D]. split; simpl.
  - intros j t [_ Hj]%lookup_delete_Some. auto.
  - exact B.
  - intros j [_ Hj]%lookup_delete_is_Some. auto.
  - rewrite map_size_delete. case_match; simpl; lia.
Qed.

Lemma remove_statement_statements c i : statements (remove_statement c i) = delete i (statements c).
Proof. unfold remove_statement. destruct (statements c !! i) eqn:E; simpl; [done|]. by rewrite delete_id. Qed.

Lemma remove_statement_ok c i : cache_ok c → cache_ok (remove_statement c i).
Proof.
  intros Hc. unfold remove_statement. destruct (statements c !! i) as [s|] eqn:E; [|done].
  destruct Hc as [A B C D]. destruct (A _ _ E) as (_ & Hq & _). rewrite Hq. split; simpl.
  - intros j t [_ Hj]%lookup_delete_Some. auto.
  - intros k j [_ Hj]%lookup_delete_Some. auto.
  - intros j [Hne Hj]%lookup_delete_is_Some. rewrite lookup_delete_ne by done. auto.
  - rewrite map_size_delete. case_match; simpl; lia.
Qed.

(** ** Eviction *)

Lemma evict_lru_inner_cases c :
  (statements c = ∅ ∧ evict_lru_inner c = (c, 0%nat)) ∨
  ∃ i s, statements c !! i = Some s ∧
    min_by_key time_ltb (λ p : string * PreparedStatement, last_used p.2) (map_iter (statements c)) = Some (i, s) ∧
    evict_lru_inner c = (bump_generation (add_evictions 1 (remove_statement c i)), 1%nat).
Proof.
  unfold evict_lru_inner. destruct (min_by_key _ _ _) as [[i s]|] eqn:E.
  - right. exists i, s. split_and!; [|done..].
    apply min_by_key_elem in E. rewrite map_iter_perm in E. by apply elem_of_map_to_list in E.
  - left. split; [|done]. unfold min_by_key in E. case_match eqn:El; [|done].
    apply map_to_list_empty_iff. apply Permutation_nil_r. rewrite <- El. symmetry. apply map_iter_perm.
Qed.

Lemma evict_lru_inner_ok c : cache_ok c → cache_ok (evict_lru_inner c).1.
Proof.
  intros Hc. destruct (evict_lru_inner_cases c) as [[_ ->]|(i & s & _ & _ & ->)]; [done|].
  simpl. auto using remove_statement_ok.
Qed.

Lemma evict_lru_inner_size c :
  size (statements (evict_lru_inner c).1) = (size (statements c) - 1)%nat.
Proof.
  destruct (evict_lru_inner_cases c) as [[E ->]|(i & s & Hi & _ & ->)]; simpl.
  - by rewrite E, map_size_empty.
  - rewrite remove_statement_statements, map_size_delete, Hi. simpl. lia.
Qed.

(** Eviction.  Evicting from a cache that holds something removes one
    statement, with its fingerprint, and no remaining or removed statement was
    used less recently than it. *)
Theorem eviction_least_recent `{!CacheTimeLaws _} c :
  statements c ≠ ∅ →
  ∃ i s, statements c !! i = Some s ∧
    statements (evict_lru_inner c).1 = delete i (statements c) ∧
    fingerprints (evict_lru_inner c).1 = delete (fingerprint (original_query s)) (fingerprints c) ∧
    (evict_lru_inner c).2 = 1%nat ∧
    ∀ j t, statements c !! j = Some t → time_ltb (last_used t) (last_used s) = false.
Proof.
  intros Hc. destruct (evict_lru_inner_cases c) as [[E _]|(i & s & Hi & Hm & E)]; [done|].
  exists i, s. rewrite E. simpl. split_and!; [done|apply remove_statement_statements| |done|].
  - unfold remove_statement. by rewrite Hi.
  - intros j t Hj.
    apply (min_by_key_least _ _ _ _ time_ltb_trans time_geb_trans time_ltb_irrefl Hm (j, t)).
    rewrite map_iter_perm. by apply elem_of_map_to_list.
Qed.

(** ** Interleaved critical sections *)

(** One critical section of some task; what it returns is left out.
    [prepare_check] changes nothing. *)
Inductive cache_step : relation PlanCache :=
  | step_touch c q now : cache_step c (prepare_touch q now c)
  | step_insert c q plan now : cache_step c (prepare_insert config q plan now c)
  | step_get c i now : cache_step c (get config i now c).1
  | step_execute c i params now now' : cache_step c (execute_prepared config i params now now' c).1
  | step_lookup c q : cache_step c (lookup_by_query q c).1
  | step_cache_plan c i plan : cache_step c (cache_plan i plan c)
  | step_invalidate c i : cache_step c (invalidate i c).1
  | step_invalidate_all c : cache_step c (invalidate_all c)
  | step_evict_expired c now : cache_step c (evict_expired config now c).1
  | step_evict_lru c : cache_step c (evict_lru config c).1.

Lemma prepare_touch_ok q now c : cache_ok c → cache_ok (prepare_touch q now c).
Proof.
  intros Hc. unfold prepare_touch. apply bump_ok.
  destruct (statements c !! fingerprint q) as [s|] eqn:E; [|done].
  apply (update_ok _ s); [done| |done]. by apply (co_statement _ Hc) in E.
Qed.

Lemma prepare_insert_ok q plan now c : cache_ok c → cache_ok (prepare_insert config q plan now c).
Proof.
  intros Hc. unfold prepare_insert. case_match eqn:Hfull.
  - pose proof (evict_lru_inner_ok c Hc) as [A B C _]. pose proof (evict_lru_inner_size c) as Hs.
    pose proof (co_size c Hc). set (d := (evict_lru_inner c).1) in *. split; simpl.
    + intros j t [[<- <-]|[_ Hj]]%lookup_insert_Some; [by repeat split | auto].
    + intros k j [[<- <-]|[_ Hj]]%lookup_insert_Some; auto.
    + intros j [<-|[Hne Hj]]%lookup_insert_is_Some;
        [by rewrite lookup_insert_eq | rewrite lookup_insert_ne by done; auto].
    + rewrite map_size_insert. case_match; simpl; lia.
  - apply Nat.leb_gt in Hfull. destruct Hc as [A B C _]. split; simpl.
    + intros j t [[<- <-]|[_ Hj]]%lookup_insert_Some; [by repeat split | auto].
    + intros k j [[<- <-]|[_ Hj]]%lookup_insert_Some; auto.
    + intros j [<-|[Hne Hj]]%lookup_insert_is_Some;
        [by rewrite lookup_insert_eq | rewrite lookup_insert_ne by done; auto].
    + rewrite map_size_insert. case_match; simpl; lia.
Qed.

Lemma execute_ok i params now now' c : cache_ok c → cache_ok (execute_prepared config i params now now' c).1.
Proof.
  intros Hc. unfold execute_prepared. destruct (statements c !! i) as [s|] eqn:E; [|done].
  destruct (is_expired config now s); [by apply drop_statement_ok|].
  case_match; [done|]. simpl. apply bump_ok, hit_ok, (update_ok _ s); [done| |done]. by apply (co_statement _ Hc) in E.
Qed.

Lemma cache_step_ok c c' : cache_step c c' → cache_ok c → cache_ok c'.
Proof.
  intros [] Hc.
  - by apply prepare_touch_ok.
  - by apply prepare_insert_ok.
  - unfold get. repeat case_match; simpl; auto.
  - by apply execute_ok.
  - unfold lookup_by_query. case_match; simpl; auto.
  - unfold cache_plan. case_match eqn:E; [|done].
    eapply bump_ok, update_ok; [done| |done]. by apply (co_statement _ Hc) in E.
  - unfold invalidate. case_match; [|done]. simpl. auto using remove_statement_ok.
  - split; simpl; [intros ??|intros ??|intros ?|rewrite map_size_empty; lia]; rewrite lookup_empty; [done..|].
    by intros [].
  - unfold evict_expired.
    assert (∀ l d, cache_ok d → cache_ok (foldl remove_statement d l)) as Hl.
    { induction l as [|i l IH]; intros d Hd; simpl; [done|]. by apply IH, remove_statement_ok. }
    case_match; simpl; auto.
  - unfold evict_lru. case_match; [done|]. by apply evict_lru_inner_ok.
Qed.

(** C12 (the cache's invariant).  However the critical sections of concurrent
    tasks interleave, every statement is stored under the fingerprint of its
    query, with that query's parameters, and is found by that fingerprint; and
    the cache holds at most [max_entries] statements, or one when
    [max_entries] is zero. *)
Theorem cache_invariant c : rtc cache_step new c → cache_ok c.
Proof.
  intros Hr. assert (∀ d, rtc cache_step d c → cache_ok d → cache_ok c) as H'; [|eauto using new_ok].
  intros d. induction 1 as [|x y z Hs _ IH]; [done|]. intros Hx. by eapply IH, cache_step_ok.
Qed.

(** ** Preparing and executing *)

(** Preparing.  Preparing a query that is not in the cache stores its
    statement, evicting one other only when the cache is full, and the statement
    is then served until it expires; preparing one that is there stamps its last
    use and keeps everything else, the first plan included. *)
Theorem prepare_outcome q plan now c :
  let '(c', i) := prepare config q plan now c in
  i = fingerprint q ∧
  (∀ s, statements c !! i = Some s →
     statements c' = <[i := set_last_used now s]> (statements c) ∧ fingerprints c' = fingerprints c) ∧
  (statements c !! i = None →
     statements c' !! i = Some (new_statement q plan now) ∧ fingerprints c' !! i = Some i ∧
     statements c' = <[i := new_statement q plan now]>
       (if (max_entries config <=? size (statements c))%nat then statements (evict_lru_inner c).1 else statements c) ∧
     ∀ now', is_expired config now' (new_statement q plan now) = false →
       get config i now' c' = (add_hit c', Some (new_statement q plan now))).
Proof.
  unfold prepare, prepare_check. split; [done|]. split.
  - intros s Hs. rewrite bool_decide_eq_true_2 by (by eexists). unfold prepare_touch. by rewrite Hs.
  - intros Hn. rewrite bool_decide_eq_false_2 by (by rewrite Hn; intros []).
    assert (Hi : statements (prepare_insert config q plan now c) !! fingerprint q = Some (new_statement q plan now)).
    { unfold prepare_insert. simpl. apply lookup_insert_eq. }
    split_and!; [done| | |].
    + unfold prepare_insert. simpl. apply lookup_insert_eq.
    + unfold prepare_insert. by case_match.
    + intros now' Hx. unfold get. by rewrite Hi, Hx.
Qed.

(** Two queries, one plan.  When two queries have one normal form the
    second one prepared gets the first one's statement, and with it the first
    one's plan, text and parameters, whatever its own plan is.  Normalising
    looks inside literals: queries that differ in a literal's spacing, or in
    the case of a keyword in it, have one normal form. *)
Theorem shared_statement q1 q2 plan1 plan2 now1 now2 c :
  normalize_query q1 = normalize_query q2 → statements c !! fingerprint q1 = None →
  let '(c1, i1) := prepare config q1 plan1 now1 c in
  let '(c2, i2) := prepare config q2 plan2 now2 c1 in
  i1 = i2 ∧ statements c2 !! i2 = Some (set_last_used now2 (new_statement q1 plan1 now1)).
Proof.
  intros Hq Hn. unfold prepare. assert (Hf : fingerprint q2 = fingerprint q1) by (unfold fingerprint; by rewrite Hq).
  rewrite Hf. split; [done|].
  assert (Hc : prepare_check q1 c = false) by (apply bool_decide_eq_false_2; by rewrite Hn; intros []).
  rewrite Hc. clear Hc.
  assert (Hi : statements (prepare_insert config q1 plan1 now1 c) !! fingerprint q1 = Some (new_statement q1 plan1 now1)).
  { unfold prepare_insert. simpl. apply lookup_insert_eq. }
  unfold prepare_check. rewrite Hf, bool_decide_eq_true_2 by (by eexists).
  unfold prepare_touch. rewrite Hf, Hi. simpl. apply lookup_insert_eq.
Qed.

(** Executing.  Executing fails, changing nothing, when the statement is
    missing or its declared parameters, if it declares any, are not exactly the
    ones given; an expired statement is removed; otherwise the use is counted. *)
Theorem execute_outcome i params now now' c :
  match statements c !! i with
  | None => execute_prepared config i params now now' c = (c, Err (NotFound i))
  | Some s =>
      if is_expired config now s then
        execute_prepared config i params now now' c = (set_statements (delete i (statements c)) c, Err (Expired i))
      else
        ((parameter_names s = [] ∨ parameter_names s ≡ₚ (map_to_list params).*1) →
         ∃ c', execute_prepared config i params now now' c = (c', Ok (count_use now' s)) ∧
           statements c' = <[i := count_use now' s]> (statements c) ∧ hit_count c' = wrap 64 (hit_count c + 1)) ∧
        (parameter_names s ≠ [] → ¬ parameter_names s ≡ₚ (map_to_list params).*1 →
         ∃ provided, provided ≡ₚ (map_to_list params).*1 ∧
           execute_prepared config i params now now' c = (c, Err (ParameterMismatch (parameter_names s) provided)))
  end.
Proof.
  unfold execute_prepared. destruct (statements c !! i) as [s|] eqn:E; [|done].
  destruct (is_expired config now s); [done|].
  assert (Hp : (map_iter params).*1 ≡ₚ (map_to_list params).*1) by (by rewrite map_iter_perm). split.
  - intros Hs. rewrite (proj2 (andb_false_iff _ _)); [by eexists|].
    rewrite !negb_false_iff, !bool_decide_eq_true, sort_strings_eq, Hp. done.
  - intros Hne Hs. exists (map_iter params).*1. split; [done|]. rewrite (proj2 (andb_true_iff _ _)); [done|].
    rewrite !negb_true_iff, !bool_decide_eq_false, sort_strings_eq, Hp. done.
Qed.

(** ** Expiry *)

(** An expired statement.  Once a statement has expired, preparing its
    query again returns its id without renewing it: looking the id up fails
    from then on, and executing it fails.  After that failed execution the
    fingerprint map still leads to the removed statement. *)
Theorem expired_statement_stuck `{!CacheTimeLaws _} q plan now now1 now2 s c :
  cache_ok c → statements c !! fingerprint q = Some s → is_expired config now s = true →
  time_ltb now1 now = false → time_ltb now2 now = false →
  let '(c1, i) := prepare config q plan now1 c in
  (get config i now2 c1).2 = None ∧
  ∀ params now3, ∃ c2,
    execute_prepared config i params now2 now3 c1 = (c2, Err (Expired i)) ∧
    statements c2 !! i = None ∧ (lookup_by_query q c2).2 = Some i ∧ eviction_count c2 = eviction_count c.
Proof.
  intros Hc Hs Hx H1' H2'. unfold prepare, prepare_check. rewrite bool_decide_eq_true_2 by (by eexists).
  unfold prepare_touch. rewrite Hs. set (c1 := bump_generation _).
  assert (Hl : statements c1 !! fingerprint q = Some (set_last_used now1 s)) by apply lookup_insert_eq.
  assert (Hx2 : is_expired config now2 (set_last_used now1 s) = true) by (by apply (older_than_later _ _ now)).
  unfold get. rewrite Hl, Hx2. split; [done|]. intros params now3.
  unfold execute_prepared. rewrite Hl, Hx2. eexists. split_and!; [reflexivity|apply lookup_delete_eq| |done].
  unfold lookup_by_query. simpl. by rewrite (co_found c Hc) by (by eexists).
Qed.

End invariant.

(** ** Witnesses *)

Module Witness.

#[export] Instance seconds : Chrono :=
  {| DateTime := Z; timestamp_millis := λ t, t; timestamp_millis_opt := Some |}.
#[export] Instance seconds_time : CacheTime := {| older_than := λ s now t, s <? now - t; time_ltb := Z.ltb |}.
#[export] Instance seconds_laws : CacheTimeLaws seconds_time.
Proof. split; simpl; intros; rewrite ?Z.ltb_lt, ?Z.ltb_ge in *; lia. Defined.
#[export] Instance ascii_case : UnicodeCase :=
  {| str_lower := map_ascii ascii_lower; str_upper := map_ascii ascii_upper |}.
#[export] Instance ascii_case_laws : UnicodeCaseLaws ascii_case.
Proof. done. Defined.
#[export] Instance no_hash : Sha256 := λ s, s.
#[export] Instance no_alnum : CharClass := λ _, true.
#[export] Instance map_order : MapIter := λ A m, map_to_list m.
#[export] Instance map_order_laws : MapIterLaws map_order.
Proof. intros A m. reflexivity. Defined.

Definition at_time (z : Z) : DateTime := z.
Definition cfg : CacheConfig := mkCacheConfig 1 10 true false 0.
Definition plan0 : LogicalPlan := mkLogical Octad [] [].
Definition query0 : string := "SELECT x WHERE name = 'a  b and C'".
Definition query1 : string := "select  x where name = 'a b AND C'".
Definition one : PlanCache := (prepare cfg query0 plan0 (at_time 0) new).1.

Lemma normalize_equiv_witness : fingerprint query0 = fingerprint query1.
Proof.
  destruct (normalize_equiv query0 query1 eq_refl eq_refl) as (_ & Hiff & Hf & _).
  apply Hf, Hiff. by vm_compute.
Defined.

Lemma eviction_least_recent_witness : ∃ i, statements (evict_lru_inner one).1 = delete i (statements one).
Proof.
  destruct (eviction_least_recent one) as (i & s & _ & Hd & _).
  - intros E. apply (f_equal size) in E. by vm_compute in E.
  - exists i. exact Hd.
Defined.

Lemma one_reachable : rtc (cache_step cfg) new one.
Proof. apply rtc_once. exact (step_insert cfg new query0 plan0 (at_time 0)). Qed.

Lemma cache_invariant_witness : cache_ok cfg one.
Proof. apply (cache_invariant cfg one), one_reachable. Defined.

Lemma shared_statement_witness :
  let '(c1, i1) := prepare cfg query0 plan0 (at_time 0) new in
  let '(c2, i2) := prepare cfg query1 plan0 (at_time 1) c1 in
  i1 = i2 ∧ statements c2 !! i2 = Some (set_last_used (at_time 1) (new_statement query0 plan0 (at_time 0))).
Proof. apply (shared_statement cfg query0 query1 plan0 plan0 (at_time 0) (at_time 1) new); by vm_compute. Defined.

Lemma execute_outcome_witness :
  ∃ c, execute_prepared cfg (fingerprint query0) ∅ (at_time 5) (at_time 6) one =
         (c, Ok (count_use (at_time 6) (new_statement query0 plan0 (at_time 0)))).
Proof.
  destruct (execute_outcome cfg (fingerprint query0) ∅ (at_time 5) (at_time 6) one) as [Hok _].
  destruct Hok as (c & Hc & _); [left; by vm_compute|]. by exists c.
Defined.

Lemma expired_statement_stuck_witness :
  let '(c1, i) := prepare cfg query0 plan0 (at_time 20) one in (get cfg i (at_time 21) c1).2 = None.
Proof.
  apply (expired_statement_stuck cfg query0 plan0 (at_time 20) (at_time 20) (at_time 21) (new_statement query0 plan0 (at_time 0)) one);
    [apply cache_step_ok with new; [constructor | apply new_ok] | by vm_compute..].
Defined.

End Witness.
