(* ===== verification/QueryLog.v ===== *)
(** What the planner learns from executed queries: the slow query log
    (verisim-planner/src/slow_query.rs) and the profiler (profiler.rs).

    Log output is left out. *)

From S2P Require Import Prelude Machine Text Float64 Collections WalEntry Format PlannerTypes PlannerCost Planner.

Local Open Scope string_scope.
Local Open Scope Z_scope.

(** [iter().max_by(compare)], [gt x y] standing for [compare(x, y) == Greater]:
    the last of the greatest elements. *)
Definition max_by {A} (gt : A → A → bool) (l : list A) : option A :=
  match l with
  | [] => None
  | x :: l => Some (foldl (λ best y, if gt best y then best else y) x l)
  end.

(** A ratio to an estimate: infinite when nothing was estimated. *)
Definition ratio_to (actual estimated : f64) : f64 :=
  if f64_ltb f64_zero estimated then f64_div actual estimated else f64_infinity.

(** ** The slow query log *)

Module SlowQuery.

Record SlowQueryConfig := mkSlowConfig {
  threshold_ms : f64;
  max_entries : nat;
  enabled : bool;
  multi_modality_threshold : nat;
}.

Definition SlowQueryConfig_default : SlowQueryConfig := mkSlowConfig (f64_of_u64 100) 1000 true 0.

Record BottleneckInfo := mkBottleneck {
  bn_modality : Modality; bn_operation : string; bn_time_ms : f64; bn_percentage : f64 }.

Section log.
Context `{Chrono}.

Record SlowQueryEntry := mkSlowEntry {
  timestamp : DateTime;
  query_text : option string;
  actual_ms : f64;
  estimated_ms : f64;
  slowdown_ratio : f64;
  entry_strategy : string;
  modalities : list Modality;
  rows_returned : Z;
  bottleneck : option BottleneckInfo;
}.

Record SlowQueryLog := mkSlowLog { log_config : SlowQueryConfig; entries : list SlowQueryEntry }.

Definition new (c : SlowQueryConfig) : SlowQueryLog := mkSlowLog c [].

Definition StepTime : Type := Modality * f64 * Z.

Definition slower (a b : StepTime) : bool := f64_ltb b.1.2 a.1.2.

Definition find_bottleneck (actual : f64) (step_times : list StepTime) : option BottleneckInfo :=
  (λ s : StepTime,
     mkBottleneck s.1.1 (cat [modality_display s.1.1; " query"]) s.1.2
       (if f64_ltb f64_zero actual then f64_mul (f64_div s.1.2 actual) hundred else f64_zero))
  <$> max_by slower step_times.

Definition total_step_rows (step_times : list StepTime) : Z :=
  foldl (λ acc s, wrap 64 (acc + s.2)) 0 step_times.

Definition strategy_name (s : ExecutionStrategy) : string :=
  match s with Sequential => "sequential" | Parallel => "parallel" end.

Definition make_entry (now : DateTime) (query : option string) (actual : f64) (plan : PhysicalPlan)
    (step_times : list StepTime) : SlowQueryEntry :=
  let estimated := time_ms (total_cost plan) in
  mkSlowEntry now query actual estimated (ratio_to actual estimated) (strategy_name (strategy plan))
    (step_modality <$> steps plan) (total_step_rows step_times) (find_bottleneck actual step_times).

(** [while entries.len() > max { pop_front() }]. *)
Definition trim {A} (max : nat) (l : list A) : list A := drop (length l - max) l.

Definition is_logged (c : SlowQueryConfig) (actual : f64) (plan : PhysicalPlan) : bool :=
  let is_slow := f64_geb actual (threshold_ms c) in
  let is_multi := (0 <? multi_modality_threshold c)%nat &&
                  (multi_modality_threshold c <=? length (steps plan))%nat in
  enabled c && (is_slow || is_multi).

(** The configuration is read and released before the entries are locked:
    [c] is the configuration when the call starts. *)
Definition push_entry (c : SlowQueryConfig) (e : SlowQueryEntry) (l : SlowQueryLog) : SlowQueryLog :=
  mkSlowLog (log_config l) (trim (max_entries c) (entries l ++ [e])%list).

Definition record (now : DateTime) (query : option string) (actual : f64) (plan : PhysicalPlan)
    (step_times : list StepTime) (l : SlowQueryLog) : SlowQueryLog * bool :=
  let c := log_config l in
  if is_logged c actual plan then (push_entry c (make_entry now query actual plan step_times) l, true)
  else (l, false).

Definition recent (limit : nat) (l : SlowQueryLog) : list SlowQueryEntry := take limit (reverse (entries l)).
Definition all (l : SlowQueryLog) : list SlowQueryEntry := entries l.
Definition count (l : SlowQueryLog) : nat := length (entries l).
Definition clear (l : SlowQueryLog) : SlowQueryLog := mkSlowLog (log_config l) [].
Definition set_config (c : SlowQueryConfig) (l : SlowQueryLog) : SlowQueryLog := mkSlowLog c (entries l).

(** *** Summary *)

Record SlowQuerySummary := mkSummary {
  total_count : nat; avg_ms : f64; max_ms : f64; min_ms : f64; avg_slowdown_ratio : f64;
  top_bottleneck_modality : option Modality }.

Definition count_bottleneck (acc : gmap Modality Z) (e : SlowQueryEntry) : gmap Modality Z :=
  match bottleneck e with
  | Some b => <[bn_modality b := wrap 64 (default 0 (acc !! bn_modality b) + 1)]> acc
  | None => acc
  end.

Definition bottleneck_counts (l : SlowQueryLog) : gmap Modality Z := foldl count_bottleneck ∅ (entries l).

Definition summary `{ModalityIter} (l : SlowQueryLog) : SlowQuerySummary :=
  match entries l with
  | [] => mkSummary 0 f64_zero f64_zero f64_zero f64_zero None
  | es =>
      let total := f64_of_u64 (Z.of_nat (length es)) in
      let times := actual_ms <$> es in
      mkSummary (length es) (f64_div (f64_sum times) total) (foldl f64_max f64_zero times)
        (foldl f64_min f64_infinity times) (f64_div (f64_sum (slowdown_ratio <$> es)) total)
        (fst <$> max_by (λ a b : Modality * Z, b.2 <? a.2) (modality_iter (bottleneck_counts l)))
  end.

End log.
End SlowQuery.

(** ** The profiler *)

Module Profile.
Section profile.
Context `{Chrono}.

Record ProfileStep := mkProfileStep {
  step_name : string;
  ps_modality : Modality;
  estimated_ms : f64;
  actual_ms : f64;
  ps_estimated_rows : Z;
  actual_rows : Z;
  started_at : DateTime;
  ended_at : DateTime;
}.

Definition time_accuracy_ratio (s : ProfileStep) : f64 :=
  if f64_leb (estimated_ms s) f64_zero then f64_infinity else f64_div (actual_ms s) (estimated_ms s).
Definition row_accuracy_ratio (s : ProfileStep) : f64 :=
  if ps_estimated_rows s =? 0 then f64_infinity
  else f64_div (f64_of_u64 (actual_rows s)) (f64_of_u64 (ps_estimated_rows s)).

Record QueryProfile := mkProfile {
  plan_id : string;
  profile_steps : list ProfileStep;
  total_estimated_ms : f64;
  total_actual_ms : f64;
  optimization_hints : list string;
}.

Definition total_time_accuracy_ratio (p : QueryProfile) : f64 :=
  if f64_leb (total_estimated_ms p) f64_zero then f64_infinity
  else f64_div (total_actual_ms p) (total_estimated_ms p).

Definition render_profile_step (i : nat) (s : ProfileStep) : string :=
  cat ["  Step "; fmt_u64 (Z.of_nat (i + 1)); ": "; step_name s; " ["; modality_display (ps_modality s); "]"; newline;
       "    Estimated: "; fmt_fixed 1 (estimated_ms s); "ms / ~"; fmt_u64 (ps_estimated_rows s); " rows"; newline;
       "    Actual:    "; fmt_fixed 1 (actual_ms s); "ms / "; fmt_u64 (actual_rows s); " rows"; newline;
       "    Time accuracy: "; fmt_fixed 2 (time_accuracy_ratio s); "x | Row accuracy: ";
       fmt_fixed 2 (row_accuracy_ratio s); "x"; newline].

Definition render_profile (p : QueryProfile) (explain : ExplainOutput) : string :=
  cat ["=== VeriSimDB EXPLAIN ANALYZE ==="; newline; newline;
       "Plan ID: "; plan_id p; newline;
       "Strategy: "; explain_strategy explain; newline;
       "Total Estimated: "; fmt_fixed 1 (total_estimated_ms p); "ms | Total Actual: ";
       fmt_fixed 1 (total_actual_ms p); "ms | Accuracy: "; fmt_fixed 2 (total_time_accuracy_ratio p); "x";
       newline; newline;
       "--- Steps ---"; newline; cat (imap render_profile_step (profile_steps p));
       match optimization_hints p with
       | [] => ""
       | hs => cat [newline; "--- Optimization Hints ---"; newline;
                    cat ((λ h, cat ["  * "; h; newline]) <$> hs)]
       end].

(** *** Hints *)

Definition SLOW_THRESHOLD : f64 := f64_of_u64 2.
Definition FAST_THRESHOLD : f64 := f64_lit 5 10.
Definition ROW_OVER_THRESHOLD : f64 := f64_of_u64 3.
Definition ROW_UNDER_THRESHOLD : f64 := f64_lit 33 100.

Definition overall_hint (total_estimated total_actual : f64) : list string :=
  if f64_ltb f64_zero total_estimated then
    let overall_ratio := f64_div total_actual total_estimated in
    let text (word blame : string) :=
      cat ["Query was "; fmt_fixed 1 overall_ratio; "x "; word; " than estimated (";
           fmt_fixed 0 total_actual; "ms actual vs "; fmt_fixed 0 total_estimated;
           "ms estimated) — planner may be "; blame; " costs"] in
    if f64_ltb SLOW_THRESHOLD overall_ratio then [text "slower" "underestimating"]
    else if f64_ltb overall_ratio FAST_THRESHOLD then [text "faster" "overestimating"]
    else []
  else [].

Definition time_hint (s : ProfileStep) : option string :=
  let ratio := time_accuracy_ratio s in
  let text (word advice : string) :=
    cat ["Step '"; step_name s; "' ["; modality_display (ps_modality s); "]: "; fmt_fixed 1 ratio; "x "; word;
         " than estimated ("; fmt_fixed 0 (actual_ms s); "ms vs "; fmt_fixed 0 (estimated_ms s); "ms) — "; advice] in
  if f64_ltb SLOW_THRESHOLD ratio && f64_is_finite ratio then
    Some (text "slower" "consider updating cost model for this modality")
  else if f64_ltb ratio FAST_THRESHOLD then Some (text "faster" "aggressive mode may be appropriate")
  else None.

Definition row_hint (s : ProfileStep) : option string :=
  let ratio := row_accuracy_ratio s in
  let text (word level : string) :=
    cat ["Step '"; step_name s; "' ["; modality_display (ps_modality s); "]: returned "; fmt_fixed 1 ratio; "x ";
         word; " rows than estimated ("; fmt_u64 (actual_rows s); " vs "; fmt_u64 (ps_estimated_rows s);
         ") — selectivity estimate may be too "; level] in
  if f64_ltb ROW_OVER_THRESHOLD ratio && f64_is_finite ratio then Some (text "more" "low")
  else if f64_ltb ratio ROW_UNDER_THRESHOLD && (0 <? ps_estimated_rows s) then Some (text "fewer" "high")
  else None.

Definition generate_hints (steps : list ProfileStep) (total_estimated total_actual : f64) : list string :=
  (overall_hint total_estimated total_actual ++ omap time_hint steps ++ omap row_hint steps)%list.

(** *** Recording *)

Record Profiler := mkProfiler {
  prof_id : string;
  prof_plan : PhysicalPlan;
  recorded_steps : list (option ProfileStep);
}.

Definition new (plan_id : string) (plan : PhysicalPlan) : Profiler :=
  mkProfiler plan_id plan (replicate (length (steps plan)) None).

Definition profile_step (s : PlanStep) (actual : f64) (rows : Z) (started ended : DateTime) : ProfileStep :=
  mkProfileStep (operation s) (step_modality s) (time_ms (cost s)) actual (estimated_rows (cost s)) rows
    started ended.

(** [None]: the index is out of range, and the call panics. *)
Definition record_step (i : nat) (actual : f64) (rows : Z) (started ended : DateTime) (p : Profiler) :
    option Profiler :=
  s ← steps (prof_plan p) !! i;
  Some (mkProfiler (prof_id p) (prof_plan p)
    (<[i := Some (profile_step s actual rows started ended)]> (recorded_steps p))).

(** The steps that were not recorded count as zero. *)
Definition filled (now : nat → DateTime) (i : nat) (step : PlanStep) (recorded : option ProfileStep) : ProfileStep :=
  match recorded with
  | Some s => s
  | None => profile_step step f64_zero 0 (now i) (now i)
  end.

Definition filled_steps (now : nat → DateTime) (p : Profiler) : list ProfileStep :=
  imap (λ i sr, filled now i sr.1 sr.2) (zip (steps (prof_plan p)) (recorded_steps p)).

(** [created i] and [updated i] are the clocks when step [i] is fed. *)
Definition feed (created updated : nat → DateTime) (stats : gmap Modality StoreStatistics) (p : nat * ProfileStep) :=
  record_execution (ps_modality p.2) (actual_ms p.2) (actual_rows p.2) (created p.1) (updated p.1) stats.

Definition finish (now created updated : nat → DateTime) (p : Profiler)
    (stats : gmap Modality StoreStatistics) : gmap Modality StoreStatistics * QueryProfile :=
  let steps := filled_steps now p in
  let total_estimated := f64_sum (estimated_ms <$> steps) in
  let total_actual := f64_sum (actual_ms <$> steps) in
  (foldl (feed created updated) stats (imap pair steps),
   mkProfile (prof_id p) steps total_estimated total_actual (generate_hints steps total_estimated total_actual)).

(** *** EXPLAIN ANALYZE *)

Record ExplainAnalyzeOutput := mkAnalyze {
  an_explain : ExplainOutput; an_profile : QueryProfile; combined_hints : list PerformanceHint;
  an_text : string }.

Definition with_profile (explain : ExplainOutput) (profile : QueryProfile) : ExplainAnalyzeOutput :=
  mkAnalyze explain profile
    (performance_hints explain ++ (mkHint "analyze" <$> optimization_hints profile))%list
    (render_profile profile explain).

End profile.
End Profile.
