(* ===== verification/VclBridge.v ===== *)
(** From VCL queries to logical plans (verisim-planner/src/vcl_bridge.rs).

    serde and serde_json are parameters: a JSON value with its accessors, the
    derived deserialisers and the texts of their errors.  The hand-written
    visitors and parsers are modelled. *)

From S2P Require Import Prelude Machine Text Float64 Collections WalEntry Format PlannerTypes PlannerCost Planner.

Local Open Scope string_scope.
Local Open Scope Z_scope.

(** ** JSON *)

(** The members of an object are listed in the order they are visited. *)
Class Json := {
  Value : Type;
  as_object : Value → option (list (string * Value));
  as_str : Value → option string;
  as_array : Value → option (list Value);
  as_f64 : Value → option f64;
  as_u64 : Value → option Z;
  value_to_string : Value → string;
  depth : Value → nat;
}.

(** Values are finite trees. *)
Class JsonLaws (J : Json) :=
  depth_member v l k w : as_object v = Some l → (k, w) ∈ l → (depth w < depth v)%nat.

(** The conditions and the projections of each node. *)
Abbreviation Buckets := (gmap Modality (list ConditionKind)).
Abbreviation Projections := (gmap Modality (list string)).

(** ** The syntax tree *)

Inductive VclModality := VGraph | VVector | VTensor | VSemantic | VDocument | VTemporal | All.

Record VclFieldRef := mkField { field_modality : option VclModality; field_name : string }.

Inductive VclSource :=
  | SOctad (uuid : option string)
  | SFederation (nodes : list string) (drift_policy : option string)
  | SStore (modality : VclModality).

Section ast.
Context `{Json}.

Inductive VclSimpleCondition :=
  | FulltextContains (text : string)
  | VectorSimilar (embedding : list f64) (threshold : f64)
  | GraphPattern (predicate : string) (pattern_depth : option Z)
  | FieldCondition (field : VclFieldRef) (operator : string) (value : Value)
  | CrossModalFieldCompare (left : VclFieldRef) (operator : string) (right : VclFieldRef)
  | ModalityDrift (modality : VclModality) (threshold : f64)
  | ModalityExists (modality : VclModality)
  | ModalityNotExists (modality : VclModality)
  | ModalityConsistency (modalities : list VclModality) (threshold : f64).

Inductive VclCondition :=
  | And (lhs rhs : VclCondition)
  | Or (lhs rhs : VclCondition)
  | Not (inner : VclCondition)
  | Simple (s : VclSimpleCondition).

Record VclProjection := mkProjection { proj_field : VclFieldRef; proj_alias : option string }.

Record VclAggregate := mkAggregate {
  function : string; agg_field : option VclFieldRef; agg_alias : option string }.

Inductive VclProofType := Citation | Zkp | Attestation | Custom (tag : string).

Record VclProofSpec := mkProofSpec { proof_type : VclProofType; contract_name : string }.

Inductive VclDirection := Asc | Desc.

Record VclOrderBy := mkOrderBy { order_field : VclFieldRef; direction : VclDirection }.

Record VclQuery := mkQuery {
  modalities : list VclModality;
  vcl_source : VclSource;
  where_clause : option VclCondition;
  vcl_projections : option (list VclProjection);
  aggregates : option (list VclAggregate);
  group_by : option (list VclFieldRef);
  having : option VclCondition;
  proof : option (list VclProofSpec);
  order_by : option (list VclOrderBy);
  limit : option Z;
  offset : option Z;
}.

Inductive VclAst := Query (q : VclQuery).

(** ** Deserialising *)

(** serde's error texts, and the derived deserialisers. *)
Class Serde := {
  missing_field : string → string;
  unknown_variant : string → list string → string;
  invalid_type : string → Value → string;
  field_ref_from_value : Value → result string VclFieldRef;
  query_from_value : Value → result string VclQuery;
  (** The members of a JSON object in a text. *)
  parse_members : string → result string (list (string * Value));
}.

Context `{Serde}.

Definition next_string (v : Value) : result string string :=
  ok_or (as_str v) (invalid_type "a string" v).

(** The loop of the visitors: the last [TAG] counts. *)
Fixpoint read_tag (tag : option string) (l : list (string * Value)) : result string (option string) :=
  match l with
  | [] => Ok tag
  | (k, v) :: l => if decide (k = "TAG") then t ← next_string v; read_tag (Some t) l else read_tag tag l
  end.

Definition modality_tags : list string :=
  ["Graph"; "Vector"; "Tensor"; "Semantic"; "Document"; "Temporal"; "All"].

Definition modality_of_tag (tag : string) : option VclModality :=
  if decide (tag = "Graph") then Some VGraph
  else if decide (tag = "Vector") then Some VVector
  else if decide (tag = "Tensor") then Some VTensor
  else if decide (tag = "Semantic") then Some VSemantic
  else if decide (tag = "Document") then Some VDocument
  else if decide (tag = "Temporal") then Some VTemporal
  else if decide (tag = "All") then Some All
  else None.

Definition modality_visit_map (l : list (string * Value)) : result string VclModality :=
  tag ← read_tag None l;
  match tag with
  | Some t => ok_or (modality_of_tag t) (unknown_variant t modality_tags)
  | None => Err (missing_field "TAG")
  end.

Definition proof_type_visit_map (l : list (string * Value)) : result string VclProofType :=
  tag ← read_tag None l;
  match tag with
  | Some t =>
      Ok (if decide (t = "Citation") then Citation
          else if decide (t = "Zkp") then Zkp
          else if decide (t = "Attestation") then Attestation
          else Custom t)
  | None => Err (missing_field "TAG")
  end.

Definition direction_visit_map (l : list (string * Value)) : result string VclDirection :=
  tag ← read_tag None l;
  match tag with
  | Some t =>
      if decide (t = "Asc") then Ok Asc
      else if decide (t = "Desc") then Ok Desc
      else Err (unknown_variant t ["Asc"; "Desc"])
  | None => Err (missing_field "TAG")
  end.

(** [from_value] of a type whose visitor accepts objects only. *)
Definition modality_from_value (v : Value) : result string VclModality :=
  match as_object v with
  | Some l => modality_visit_map l
  | None => Err (invalid_type "a VCL modality object with TAG field" v)
  end.

Fixpoint collect {A B} (f : A → result string B) (l : list A) : result string (list B) :=
  match l with
  | [] => Ok []
  | x :: l => y ← f x; ys ← collect f l; Ok (y :: ys)
  end.

Definition modalities_from_value (v : Value) : result string (list VclModality) :=
  match as_array v with
  | Some l => collect modality_from_value l
  | None => Err (invalid_type "a sequence" v)
  end.

(** [obj.get(key)]. *)
Fixpoint member (key : string) (l : list (string * Value)) : option Value :=
  match l with
  | [] => None
  | (k, v) :: l => if decide (k = key) then Some v else member key l
  end.

Definition member_str (key : string) (l : list (string * Value)) : option string := member key l ≫= as_str.

Definition vector_component (v : Value) : result string f64 :=
  ok_or (as_f64 v) "VectorSimilar _0 contains non-numeric".

(** [d as u32]. *)
Definition as_u32 (d : Z) : Z := wrap 32 d.

Definition parse_simple_condition (value : Value) : result string VclSimpleCondition :=
  obj ← ok_or (as_object value) "simple condition must be a JSON object";
  tag ← ok_or (member_str "TAG" obj) "simple condition object missing TAG field";
  if decide (tag = "FulltextContains") then
    text ← ok_or (member_str "_0" obj) "FulltextContains missing _0 (search text)";
    Ok (FulltextContains text)
  else if decide (tag = "VectorSimilar") then
    arr ← ok_or (member "_0" obj ≫= as_array) "VectorSimilar missing _0 (embedding array)";
    embedding ← collect vector_component arr;
    threshold ← ok_or (member "_1" obj ≫= as_f64) "VectorSimilar missing _1 (threshold)";
    Ok (VectorSimilar embedding threshold)
  else if decide (tag = "GraphPattern") then
    predicate ← ok_or (member_str "_0" obj) "GraphPattern missing _0 (predicate)";
    Ok (GraphPattern predicate (as_u32 <$> (member "_1" obj ≫= as_u64)))
  else if decide (tag = "FieldCondition") then
    field_val ← ok_or (member "_0" obj) "FieldCondition missing _0 (field)";
    field ← field_ref_from_value field_val;
    operator ← ok_or (member_str "_1" obj) "FieldCondition missing _1 (operator)";
    val ← ok_or (member "_2" obj) "FieldCondition missing _2 (value)";
    Ok (FieldCondition field operator val)
  else if decide (tag = "CrossModalFieldCompare") then
    left_val ← ok_or (member "_0" obj) "CrossModalFieldCompare missing _0 (left)";
    left ← field_ref_from_value left_val;
    operator ← ok_or (member_str "_1" obj) "CrossModalFieldCompare missing _1 (operator)";
    right_val ← ok_or (member "_2" obj) "CrossModalFieldCompare missing _2 (right)";
    right ← field_ref_from_value right_val;
    Ok (CrossModalFieldCompare left operator right)
  else if decide (tag = "ModalityDrift") then
    mod_val ← ok_or (member "_0" obj) "ModalityDrift missing _0 (modality)";
    modality ← modality_from_value mod_val;
    threshold ← ok_or (member "_1" obj ≫= as_f64) "ModalityDrift missing _1 (threshold)";
    Ok (ModalityDrift modality threshold)
  else if decide (tag = "ModalityExists") then
    mod_val ← ok_or (member "_0" obj) "ModalityExists missing _0 (modality)";
    modality ← modality_from_value mod_val;
    Ok (ModalityExists modality)
  else if decide (tag = "ModalityNotExists") then
    mod_val ← ok_or (member "_0" obj) "ModalityNotExists missing _0 (modality)";
    modality ← modality_from_value mod_val;
    Ok (ModalityNotExists modality)
  else if decide (tag = "ModalityConsistency") then
    mods_val ← ok_or (member "_0" obj) "ModalityConsistency missing _0 (modalities)";
    modalities ← modalities_from_value mods_val;
    threshold ← ok_or (member "_1" obj ≫= as_f64) "ModalityConsistency missing _1 (threshold)";
    Ok (ModalityConsistency modalities threshold)
  else Err (cat ["unknown simple condition TAG: "; tag]).

(** One level of [parse_condition], given the parser for the operands. *)
Definition condition_arm (parse : Value → result string VclCondition) (value : Value) :
    result string VclCondition :=
  obj ← ok_or (as_object value) "condition must be a JSON object";
  tag ← ok_or (member_str "TAG" obj) "condition object missing TAG field";
  if decide (tag = "And") then
    lhs ← ok_or (member "_0" obj) "And condition missing _0 (left operand)";
    rhs ← ok_or (member "_1" obj) "And condition missing _1 (right operand)";
    l ← parse lhs; r ← parse rhs; Ok (And l r)
  else if decide (tag = "Or") then
    lhs ← ok_or (member "_0" obj) "Or condition missing _0 (left operand)";
    rhs ← ok_or (member "_1" obj) "Or condition missing _1 (right operand)";
    l ← parse lhs; r ← parse rhs; Ok (Or l r)
  else if decide (tag = "Not") then
    inner ← ok_or (member "_0" obj) "Not condition missing _0 (operand)";
    c ← parse inner; Ok (Not c)
  else if decide (tag = "Simple") then
    inner ← ok_or (member "_0" obj) "Simple condition missing _0";
    s ← parse_simple_condition inner; Ok (Simple s)
  else Err (cat ["unknown condition TAG: "; tag]).

(** The fuel is the depth of the value. *)
Fixpoint parse_condition_fuel (fuel : nat) (value : Value) : result string VclCondition :=
  match fuel with
  | O => Err "out of fuel"
  | S fuel => condition_arm (parse_condition_fuel fuel) value
  end.

Definition parse_condition (value : Value) : result string VclCondition :=
  parse_condition_fuel (S (depth value)) value.

(** The visitor of [VclAst]: the last [TAG] and [_0] count. *)
Fixpoint read_ast (tag : option string) (payload : option Value) (l : list (string * Value)) :
    result string (option string * option Value) :=
  match l with
  | [] => Ok (tag, payload)
  | (k, v) :: l =>
      if decide (k = "TAG") then t ← next_string v; read_ast (Some t) payload l
      else if decide (k = "_0") then read_ast tag (Some v) l
      else read_ast tag payload l
  end.

Definition ast_visit_map (l : list (string * Value)) : result string VclAst :=
  '(tag, payload) ← read_ast None None l;
  tag ← ok_or tag (missing_field "TAG");
  if decide (tag = "Query") then
    body ← ok_or payload (missing_field "_0");
    q ← query_from_value body; Ok (Query q)
  else Err (unknown_variant tag ["Query"]).

Definition from_json (json : string) : result PlannerError VclAst :=
  map_err Serialization (l ← parse_members json; ast_visit_map l).

(** ** Conversion *)

Definition vcl_modality_to_planner (vm : VclModality) : result PlannerError Modality :=
  match vm with
  | VGraph => Ok Graph
  | VVector => Ok Vector
  | VTensor => Ok Tensor
  | VSemantic => Ok Semantic
  | VDocument => Ok Document
  | VTemporal => Ok Temporal
  | All => Err (InvalidConfig "All modality should be expanded before individual mapping")
  end.

Definition ok {E A} (r : result E A) : option A := match r with Ok a => Some a | Err _ => None end.

Definition expand (vm : VclModality) : list Modality :=
  match vm with
  | All => ALL
  | other => option_list (ok (vcl_modality_to_planner other))
  end.

(** [retain(|m| seen.insert( *m))]. *)
Fixpoint dedup (seen : gset Modality) (l : list Modality) : list Modality :=
  match l with
  | [] => []
  | m :: l => if bool_decide (m ∈ seen) then dedup seen l else m :: dedup ({[m]} ∪ seen) l
  end.

Definition resolve_modalities (vcl_mods : list VclModality) : list Modality :=
  dedup ∅ (vcl_mods ≫= expand).

Definition map_source (src : VclSource) : result PlannerError QuerySource :=
  match src with
  | SOctad _ => Ok Octad
  | SFederation nodes _ => Ok (Federation nodes)
  | SStore modality => m ← vcl_modality_to_planner modality; Ok (Store m)
  end.

(** The derived [Debug] texts. *)
Class VclDebug := debug_simple : VclSimpleCondition → string.

Context `{DebugKind} `{VclDebug} `{FmtF64}.

Definition modality_debug (vm : VclModality) : string :=
  match vm with
  | VGraph => "Graph" | VVector => "Vector" | VTensor => "Tensor" | VSemantic => "Semantic"
  | VDocument => "Document" | VTemporal => "Temporal" | All => "All"
  end.

Fixpoint describe_condition (cond : VclCondition) : string :=
  match cond with
  | And l r => cat ["("; describe_condition l; " AND "; describe_condition r; ")"]
  | Or l r => cat ["("; describe_condition l; " OR "; describe_condition r; ")"]
  | Not inner => cat ["NOT("; describe_condition inner; ")"]
  | Simple s => debug_simple s
  end.

Definition value_text (v : Value) : string := default (value_to_string v) (as_str v).

Definition field_kind (field operator value : string) : ConditionKind :=
  if bool_decide (operator ∈ ["="; "=="; "!="; "<>"]) then Equality field value
  else if bool_decide (operator ∈ [">"; ">="; "<"; "<="; "BETWEEN"]) then Range field value value
  else Predicate (cat [field; " "; operator; " "; value]).

Definition side_text (f : VclFieldRef) : string :=
  cat [from_option modality_debug "?" (field_modality f); "."; field_name f].

Definition map_simple_condition (simple : VclSimpleCondition) :
    result PlannerError (option Modality * ConditionKind) :=
  match simple with
  | FulltextContains text => Ok (Some Document, Fulltext text)
  | VectorSimilar embedding _ => Ok (Some Vector, Similarity (length embedding))
  | GraphPattern predicate depth => Ok (Some Graph, Traversal predicate depth)
  | FieldCondition field operator value =>
      Ok (field_modality field ≫= (λ vm, ok (vcl_modality_to_planner vm)),
          field_kind (field_name field) operator (value_text value))
  | CrossModalFieldCompare l operator r =>
      Ok (None, Predicate (cat ["cross_modal: "; side_text l; " "; operator; " "; side_text r]))
  | ModalityDrift modality threshold =>
      m ← vcl_modality_to_planner modality;
      Ok (Some m, Predicate (cat ["drift("; modality_display m; ") > "; fmt_f64 threshold]))
  | ModalityExists modality =>
      m ← vcl_modality_to_planner modality;
      Ok (Some m, Predicate (cat ["exists("; modality_display m; ")"]))
  | ModalityNotExists modality =>
      m ← vcl_modality_to_planner modality;
      Ok (Some m, Predicate (cat ["not_exists("; modality_display m; ")"]))
  | ModalityConsistency modalities threshold =>
      let names := modality_display <$> omap (λ vm, ok (vcl_modality_to_planner vm)) modalities in
      Ok (None, Predicate (cat ["consistency("; String.concat ", " names; ") > "; fmt_f64 threshold]))
  end.

(** [out.entry(m).or_default().push(kind)]. *)
Definition push_condition (kind : ConditionKind) (out : Buckets) (m : Modality) : Buckets :=
  <[m := (default [] (out !! m) ++ [kind])%list]> out.

Definition broadcast (active : list Modality) (kind : ConditionKind) (out : Buckets) : Buckets :=
  foldl (push_condition kind) out active.

Fixpoint flatten_conditions (cond : VclCondition) (active : list Modality) (out : Buckets) :
    result PlannerError Buckets :=
  match cond with
  | And lhs rhs => out ← flatten_conditions lhs active out; flatten_conditions rhs active out
  | Or lhs rhs =>
      Ok (broadcast active (Predicate (cat ["OR("; describe_condition lhs; ", "; describe_condition rhs; ")"])) out)
  | Not inner => Ok (broadcast active (Predicate (cat ["NOT("; describe_condition inner; ")"])) out)
  | Simple simple =>
      '(target, kind) ← map_simple_condition simple;
      match target with
      | Some m =>
          if bool_decide (is_Some (out !! m)) then Ok (push_condition kind out m)
          else Ok (broadcast active
                 (Predicate (cat ["target_modality="; modality_display m; ": "; debug_kind kind])) out)
      | None => Ok (broadcast active kind out)
      end
  end.

Definition field_ref_name (f : VclFieldRef) : string :=
  match field_modality f with
  | Some m => cat [modality_debug m; "."; field_name f]
  | None => field_name f
  end.

Definition push_projection (name : string) (out : Projections) (m : Modality) : Projections :=
  <[m := (default [] (out !! m) ++ [name])%list]> out.

Definition add_projection (active : list Modality) (out : Projections) (p : VclProjection) : Projections :=
  let name := default (field_name (proj_field p)) (proj_alias p) in
  match field_modality (proj_field p) with
  | Some vm =>
      match vcl_modality_to_planner vm with
      | Ok m => if bool_decide (m ∈ active) then push_projection name out m else out
      | Err _ => out
      end
  | None => foldl (push_projection name) out active
  end.

Definition build_projection_map (active : list Modality) (projs : option (list VclProjection)) : Projections :=
  from_option (foldl (add_projection active) ∅) ∅ projs.

(** Every proof specification goes to the semantic bucket. *)
Definition add_proof (out : Buckets) (spec : VclProofSpec) : Buckets :=
  push_condition (ProofVerification (contract_name spec)) out Semantic.

Definition aggregate_text (a : VclAggregate) : string :=
  cat [function a; "("; from_option field_ref_name "*" (agg_field a); ")"].

Definition order_text (o : VclOrderBy) : string * bool :=
  (field_ref_name (order_field o), match direction o with Asc => true | Desc => false end).

Definition USIZE_MAX : Z := U64_MAX.

Definition is_limit (p : PostProcessing) : bool := match p with Limit _ => true | _ => false end.

(** The offset becomes a marker, after a limit made up when there is none. *)
Definition with_offset (offset : option Z) (pps : list PostProcessing) : list PostProcessing :=
  match offset with
  | Some skip =>
      if 0 <? skip then
        (pps ++ (if existsb is_limit pps then [] else [Limit (USIZE_MAX - skip)]) ++
         [Project [cat ["__offset="; fmt_u64 skip]]])%list
      else pps
  | None => pps
  end.

Definition final_projection (q : VclQuery) : list PostProcessing :=
  match group_by q, vcl_projections q with
  | None, Some projs =>
      match (λ p, default (field_ref_name (proj_field p)) (proj_alias p)) <$> projs with
      | [] => []
      | columns => [Project columns]
      end
  | _, _ => []
  end.

Definition post_processing_of (q : VclQuery) : list PostProcessing :=
  let grouped :=
    match group_by q with
    | Some fields => [GroupBy (field_ref_name <$> fields) (from_option (fmap aggregate_text) [] (aggregates q))]
    | None => []
    end in
  let ordered := match order_by q with Some fields => [OrderBy (order_text <$> fields)] | None => [] end in
  let limited := match limit q with Some count => [Limit count] | None => [] end in
  (with_offset (offset q) (grouped ++ ordered ++ limited) ++ final_projection q)%list.

(** [condition_map.entry(m).or_default()] for every active modality. *)
Definition initial_buckets (active : list Modality) : Buckets :=
  foldl (λ out m, <[m := default [] (out !! m)]> out) ∅ active.

Definition node_of (conditions : Buckets) (projections : Projections) (m : Modality) : PlanNode :=
  mkNode m (default [] (conditions !! m)) (default [] (projections !! m)) None.

Definition node_priority (n : PlanNode) : Z := execution_priority (modality n).

Definition to_logical_plan (ast : VclAst) : result PlannerError LogicalPlan :=
  let '(Query query) := ast in
  let active := resolve_modalities (modalities query) in
  ensure negb (bool_decide (active = [])) else EmptyPlan ;;
  src ← map_source (vcl_source query);
  let buckets := initial_buckets active in
  buckets ← from_option (λ cond, flatten_conditions cond active buckets) (Ok buckets) (where_clause query);
  let buckets := from_option (foldl add_proof buckets) buckets (proof query) in
  let projections := build_projection_map active (vcl_projections query) in
  let nodes := sort_by_key node_priority (node_of buckets projections <$> active) in
  Ok (mkLogical src nodes (post_processing_of query)).

End ast.
