(* ===== verification/PlannerTheorems.v ===== *)
(** What the planner guarantees: an optimised plan executes every node once, in
    priority order; the panic of a long full-text query; adaptive tuning that
    does not settle; the slow query log and the profiler. *)

From Stdlib Require Import Strings.Ascii.
From S2P Require Import Prelude Machine Text Float64 Collections WalEntry Format PlannerTypes PlannerCost Planner QueryLog.

Local Open Scope string_scope.
Local Open Scope Z_scope.

(** ** Optimizing *)

Section optimize.
Context `{Chrono} `{UnicodeCase} `{Log2} `{DebugKind}.
Implicit Types (p : Planner) (logical : LogicalPlan) (n : PlanNode).

(** A step, without its number. *)
Definition step_of p n (h : option string) : PlanStep :=
  build_step 0 (n, estimate n (config p) (get_stats (modality n) (planner_stats p)), h).

Definition renumber (k : nat) (s : PlanStep) : PlanStep :=
  mkStep k (operation s) (step_modality s) (cost s) (optimization_hint s) (pushed_predicates s).

Lemma mapM_node_cost p ns l :
  mapM (node_cost p) ns = Some l → Forall2 (λ n c, hint_for n = Some c.2 ∧
    c.1 = (n, estimate n (config p) (get_stats (modality n) (planner_stats p)))) ns l.
Proof.
  intros Hm%mapM_Some. apply (Forall2_impl _ _ _ _ Hm). intros n [c h].
  unfold node_cost. intros (h' & Hh & [= <- <-])%bind_Some. done.
Qed.

Lemma cheaper_priority (a b : Costed) :
  cheaper a b = true → execution_priority (modality a.1.1) ≤ execution_priority (modality b.1.1).
Proof. unfold cheaper. intros [?|[? _]%andb_prop]%orb_prop; lia. Qed.

Lemma not_cheaper_priority (a b : Costed) :
  cheaper a b = false → execution_priority (modality b.1.1) ≤ execution_priority (modality a.1.1).
Proof. unfold cheaper. intros [?%Z.ltb_ge ?]%orb_false_elim. lia. Qed.

Definition priority_le (a b : PlanStep) : Prop :=
  execution_priority (step_modality a) ≤ execution_priority (step_modality b).

Lemma sort_cheaper_sorted (l : list Costed) :
  StronglySorted (λ a b : Costed, execution_priority (modality a.1.1) ≤ execution_priority (modality b.1.1))
    (sort_by cheaper l).
Proof.
  apply (sort_by_sorted _ (λ _, True)); [| | |by apply Forall_true].
  - intros x y z _ _ _. lia.
  - intros x y _ _. apply cheaper_priority.
  - intros x y _ _. apply not_cheaper_priority.
Qed.

Lemma fmap_steps {A} (f : PlanStep → A) (l : list Costed) :
  (∀ k c, f (build_step k c) = f (build_step 0 c)) → f <$> imap build_step l = (f ∘ build_step 0) <$> l.
Proof. intros Hf. rewrite fmap_imap, <- imap_const. apply imap_ext. intros i [[n c] h] _. apply Hf. Qed.

Lemma step_numbers (l : list Costed) : step <$> imap build_step l = seq 1 (length l).
Proof.
  rewrite fmap_imap, <- fmap_S_seq, <- imap_seq_0. apply imap_ext. intros i [[n c] h] _. simpl. lia.
Qed.

Lemma StronglySorted_fmap {A B} (R : relation B) (f : A → B) l :
  StronglySorted R (f <$> l) ↔ StronglySorted (λ a b, R (f a) (f b)) l.
Proof.
  induction l as [|a l IH]; [split; constructor|]. rewrite fmap_cons. split;
    intros [Hs Hf]%StronglySorted_inv; constructor; try (by apply IH); by rewrite Forall_fmap in *.
Qed.

Lemma built_steps_sorted (l : list Costed) :
  StronglySorted (λ a b : Costed, execution_priority (modality a.1.1) ≤ execution_priority (modality b.1.1)) l →
  StronglySorted priority_le (imap build_step l).
Proof.
  intros Hl. unfold priority_le. apply (StronglySorted_fmap Z.le (λ a, execution_priority (step_modality a))).
  rewrite fmap_steps by by intros k [[n c] h].
  apply (StronglySorted_fmap Z.le (λ c : Costed, execution_priority (modality c.1.1))) in Hl.
  erewrite list_fmap_ext; [exact Hl|]. by intros i [[n c] h] _.
Qed.

Lemma node_cost_panics p ns : mapM (node_cost p) ns = None → ∃ n, n ∈ ns ∧ hint_for n = None.
Proof.
  intros (n & Hin & Hn)%mapM_None%Exists_exists. exists n. split; [done|].
  unfold node_cost in Hn. by destruct (hint_for n).
Qed.

(** Optimising.  Optimising a plan without nodes is an error.  Otherwise,
    unless building a hint panics, it gives a plan whose steps are the nodes'
    steps, each exactly once, numbered from one, in order of execution
    priority; it is parallel exactly when there are at least as many nodes as
    the threshold. *)
Theorem optimize_correct p logical :
  match optimize p logical with
  | None => ∃ n, n ∈ nodes logical ∧ hint_for n = None
  | Some (Err e) => e = EmptyPlan ∧ nodes logical = []
  | Some (Ok plan) =>
      nodes logical ≠ [] ∧
      (∃ hints, Forall2 (λ n h, hint_for n = Some h) (nodes logical) hints ∧
         renumber 0 <$> steps plan ≡ₚ renumber 0 <$> zip_with (step_of p) (nodes logical) hints) ∧
      step <$> steps plan = seq 1 (length (nodes logical)) ∧
      StronglySorted priority_le (steps plan) ∧
      (strategy plan = Parallel ↔ (parallel_threshold (config p) ≤ length (nodes logical))%nat)
  end.
Proof.
  unfold optimize. destruct (nodes logical) as [|n0 ns] eqn:En; [done|]. rewrite <- En.
  destruct (mapM (node_cost p) (nodes logical)) as [l|] eqn:Em; cbn [mbind option_bind].
  - pose proof (mapM_node_cost p _ _ Em) as Hl. split_and!.
    + by rewrite En.
    + exists (snd <$> l). split; [by apply Forall2_fmap_r; apply (Forall2_impl _ _ _ _ Hl); intros n c [? _]|].
      cbn [steps build_plan]. rewrite fmap_steps by by intros k [[n c] h].
      rewrite sort_by_perm.
      enough ((renumber 0 ∘ build_step 0) <$> l = renumber 0 <$> zip_with (step_of p) (nodes logical) (snd <$> l)) as -> by done.
      clear Em En.
      induction Hl as [|n [c h] ns' l [_ Hc] _ IH]; [done|]. simpl in Hc. subst c.
      rewrite !fmap_cons. cbn [zip_with fmap list_fmap]. f_equal. exact IH.
    + cbn [steps build_plan]. rewrite step_numbers, sort_by_perm. by apply Forall2_length in Hl as ->.
    + apply built_steps_sorted, sort_cheaper_sorted.
    + cbn [strategy build_plan]. unfold select_strategy. case_match eqn:E; rewrite ?Nat.leb_le, ?Nat.leb_gt in E;
        split; try done; lia.
  - by apply (node_cost_panics p).
Qed.

(** ** Hints that panic *)

Lemma get_length i q a : String.get i q = Some a → (i < String.length q)%nat.
Proof. revert i. induction q as [|b q IH]; intros [|i]; simpl; try done; [lia|]. intros Hg%IH. lia. Qed.

Lemma long_query_hint q a :
  String.get 20 q = Some a → starts_char a = false → condition_hint (Fulltext q) = None.
Proof.
  intros Hg Ha. pose proof (get_length _ _ _ Hg) as Hl. cbn [condition_hint].
  rewrite (proj2 (Nat.ltb_lt _ _) Hl). unfold slice_to, is_char_boundary. by rewrite Hg, Ha.
Qed.

Lemma hints_none_stays (cs : list ConditionKind) :
  foldl (λ acc c, h ← acc; t ← condition_hint c; Some (default h t)) (None : option string) cs = None.
Proof. induction cs; [done|]. simpl. done. Qed.

Lemma hint_panics n c : c ∈ conditions n → condition_hint c = None → hint_for n = None.
Proof.
  intros Hin Hc. unfold hint_for. generalize (Some (hint (for_modality (modality n)))) as acc.
  induction (conditions n) as [|d cs IH]; [by apply elem_of_nil in Hin|]. intros acc. simpl.
  apply elem_of_cons in Hin as [<-|Hin]; [|by apply IH].
  rewrite Hc. destruct acc; simpl; by rewrite hints_none_stays.
Qed.

(** A panic.  A plan with a full-text condition longer than 20 bytes whose
    twentieth byte is inside a character cannot be optimised or explained: the
    preview for the hint slices the query there and panics. *)
Theorem long_query_panics p logical n q a :
  n ∈ nodes logical → Fulltext q ∈ conditions n → String.get 20 q = Some a → starts_char a = false →
  optimize p logical = None.
Proof.
  intros Hn Hq Hg Ha. unfold optimize. destruct (nodes logical) as [|n0 ns] eqn:E; [by apply elem_of_nil in Hn|].
  rewrite <- E in *. rewrite mapM_None_2; [done|]. apply Exists_exists. exists n. split; [done|].
  unfold node_cost. by rewrite (hint_panics n _ Hq (long_query_hint q a Hg Ha)).
Qed.

End optimize.

(** ** Adaptive tuning *)

Section tuning.
Context `{Chrono}.
Implicit Types (stats : gmap Modality StoreStatistics).

(** Only document queries have run often enough, taking 200 ms. *)
Definition slow_documents stats : Prop :=
  (∃ e, stats !! Document = Some e ∧ 10 ≤ query_count e ∧ avg_latency_ms e = f64_of_u64 200) ∧
  ∀ m e, m ≠ Document → stats !! m = Some e → query_count e < 10.

Lemma slow_documents_apply stats config suggested :
  slow_documents stats → enable_adaptive config = true →
  suggestion AdaptiveTuner_new (f64_div (f64_of_u64 200)
    (f64_mul (f64_of_u64 80) (cost_multiplier (mode_for config Document)))) = suggested →
  suggested ≠ mode_for config Document →
  apply AdaptiveTuner_new stats config = set_override config (Document, suggested).
Proof.
  intros [(e & He & Hq & Hl) Ho] Ha Hs Hne. unfold apply. rewrite Ha. cbn [negb].
  assert (Hnone : ∀ m, m ≠ Document → adjustment AdaptiveTuner_new stats config m = None).
  { intros m Hm. unfold adjustment, get_stats. destruct (stats !! m) as [e'|] eqn:E; [|done].
    simpl. by rewrite (proj2 (Z.ltb_lt _ _) (Ho m e' Hm E)). }
  assert (Hdoc : adjustment AdaptiveTuner_new stats config Document = Some (Document, suggested)).
  { unfold adjustment, get_stats. rewrite He. cbn [mbind option_bind]. simpl (min_samples _).
    rewrite (proj2 (Z.ltb_ge _ _) Hq), Hl. cbn [base_ms for_modality].
    replace (f64_leb _ f64_zero) with false by (by destruct (mode_for config Document)).
    rewrite Hs. by rewrite decide_False. }
  unfold suggest_adjustments, ALL. cbn [omap list_omap].
  rewrite (Hnone Graph), (Hnone Vector), (Hnone Tensor), (Hnone Semantic), (Hnone Temporal), Hdoc by done. done.
Qed.

(** Tuning that oscillates.  The ratio compared with the thresholds is to
    the estimate under the current mode, so a steady latency of 200 ms makes the
    tuner switch the document store between balanced and conservative at every
    application, for ever. *)
Theorem tuning_oscillates stats config k :
  slow_documents stats → enable_adaptive config = true → mode_for config Document = Balanced →
  mode_for (Nat.iter (2 * k) (apply AdaptiveTuner_new stats) config) Document = Balanced ∧
  mode_for (Nat.iter (S (2 * k)) (apply AdaptiveTuner_new stats) config) Document = Conservative.
Proof.
  intros Hd Ha Hm.
  assert (Hstep : ∀ c, enable_adaptive c = true → mode_for c Document = Balanced →
    apply AdaptiveTuner_new stats c = set_override c (Document, Conservative)).
  { intros c Hc Hb. apply slow_documents_apply; rewrite ?Hb; [done|done|by vm_compute|done]. }
  assert (Hback : ∀ c, enable_adaptive c = true → mode_for c Document = Conservative →
    apply AdaptiveTuner_new stats c = set_override c (Document, Balanced)).
  { intros c Hc Hb. apply slow_documents_apply; rewrite ?Hb; [done|done|by vm_compute|done]. }
  assert (Hmode : ∀ c o, mode_for (set_override c (Document, o)) Document = o).
  { intros c o. unfold mode_for. simpl. by rewrite lookup_insert_eq. }
  assert (Heven : ∀ j, let c := Nat.iter (2 * j) (apply AdaptiveTuner_new stats) config in
    enable_adaptive c = true ∧ mode_for c Document = Balanced).
  { intros j. induction j as [|j [IHa IHm]]; [done|].
    replace (2 * S j)%nat with (S (S (2 * j))) by lia. cbn zeta. rewrite !Nat.iter_succ.
    rewrite (Hstep _ IHa IHm), Hback; [|done|apply Hmode]. split; [done|apply Hmode]. }
  destruct (Heven k) as [Hka Hkm]. split; [done|]. rewrite Nat.iter_succ, (Hstep _ Hka Hkm). apply Hmode.
Qed.

End tuning.

(** ** The slow query log *)

Section slow_log.
Context `{Chrono}.
Import SlowQuery.

(** A call of [record]. *)
Record Recorded := mkRecorded {
  r_now : DateTime; r_query : option string; r_actual : f64; r_plan : PhysicalPlan; r_times : list StepTime }.

Definition do_record (l : SlowQueryLog) (r : Recorded) : SlowQueryLog :=
  (record (r_now r) (r_query r) (r_actual r) (r_plan r) (r_times r) l).1.

(** The entry a call makes, if it is to be logged. *)
Definition logged_entry (c : SlowQueryConfig) (r : Recorded) : option SlowQueryEntry :=
  if is_logged c (r_actual r) (r_plan r)
  then Some (make_entry (r_now r) (r_query r) (r_actual r) (r_plan r) (r_times r)) else None.

Lemma trim_snoc {A} max (l : list A) x : trim max (trim max l ++ [x]) = trim max (l ++ [x]).
Proof.
  unfold trim. rewrite !length_app, length_drop. cbn [length].
  destruct (decide (length l ≤ max)%nat).
  - replace (length l - max)%nat with 0%nat by lia. by rewrite drop_0, Nat.sub_0_r.
  - rewrite <- (drop_app_le l [x] (length l - max)) by lia. rewrite drop_drop. f_equal. lia.
Qed.

Lemma trim_short {A} max (l : list A) : (length l ≤ max)%nat → trim max l = l.
Proof. intros Hl. unfold trim. by replace (length l - max)%nat with 0%nat by lia. Qed.

Lemma do_record_entry c l r :
  log_config l = c → do_record l r = from_option (λ e, push_entry c e l) l (logged_entry c r).
Proof. intros <-. unfold do_record, record, logged_entry. by case_match. Qed.

(** The slow query log.  Under one configuration the log holds, in order,
    the newest [max_entries] of the executions that were at least as slow as the
    threshold or used enough modalities, and [recent] returns them newest
    first. *)
Theorem slow_log_keeps_newest c (rs : list Recorded) limit :
  let l := foldl do_record (new c) rs in
  let logged := omap (logged_entry c) rs in
  log_config l = c ∧ all l = trim (max_entries c) logged ∧
  count l = Nat.min (max_entries c) (length logged) ∧
  recent limit l = take (Nat.min limit (max_entries c)) (reverse logged).
Proof.
  intros l logged.
  assert (Hl : log_config l = c ∧ all l = trim (max_entries c) logged).
  { subst l logged. unfold all. induction rs as [|r rs [IHc IHe]] using rev_ind; [done|].
    rewrite foldl_app, omap_app. cbn [foldl omap list_omap]. rewrite (do_record_entry c) by done.
    destruct (logged_entry c r); cbn [from_option push_entry log_config entries]; [|by rewrite app_nil_r].
    split; [done|]. by rewrite IHe, trim_snoc. }
  destruct Hl as [Hc Hall]. split_and!; [done|done| |].
  - unfold count. unfold all in Hall. rewrite Hall. unfold trim. rewrite length_drop. lia.
  - unfold recent. unfold all in Hall. rewrite Hall. unfold trim. rewrite <- take_reverse, take_take. done.
Qed.

End slow_log.

(** ** The profiler *)

Section profiler.
Context `{Chrono}.
Import Profile.
Implicit Types (stats : gmap Modality StoreStatistics) (p : Profiler).

(** The plan and its slots have the same length. *)
Definition profiler_ok p : Prop := length (recorded_steps p) = length (steps (prof_plan p)).

Lemma new_profiler_ok name plan : profiler_ok (new name plan).
Proof. apply length_replicate. Qed.

Lemma record_step_ok i actual rows started ended p p' :
  profiler_ok p → record_step i actual rows started ended p = Some p' → profiler_ok p'.
Proof.
  unfold profiler_ok, record_step. intros Hp (s & Hs & [= <-])%bind_Some. simpl. by rewrite length_insert.
Qed.

(** The number of queries recorded for a modality. *)
Definition count_of m stats : Z := from_option query_count 0 (stats !! m).
Definition steps_on m (l : list ProfileStep) : nat :=
  length (retain (λ s, bool_decide (ps_modality s = m)) l).

Lemma feed_count created updated stats (q : nat * ProfileStep) m :
  count_of m (feed created updated stats q) =
  if bool_decide (ps_modality q.2 = m) then wrap 64 (count_of m stats + 1) else count_of m stats.
Proof.
  unfold feed, record_execution, count_of. case_bool_decide as Hm.
  - subst m. rewrite lookup_insert_eq. simpl. unfold record_entry.
    destruct (stats !! ps_modality q.2); simpl; by repeat case_match.
  - by rewrite lookup_insert_ne.
Qed.

Lemma feed_counts created updated (l : list (nat * ProfileStep)) stats m :
  in_u 64 (count_of m stats) →
  count_of m (foldl (feed created updated) stats l) = wrap 64 (count_of m stats + Z.of_nat (steps_on m l.*2)).
Proof.
  revert stats. induction l as [|q l IH]; intros stats Hr; simpl.
  - rewrite Z.add_0_r. by rewrite wrap_small.
  - rewrite IH; rewrite feed_count; unfold steps_on; simpl; case_bool_decide; simpl; try done.
    + unfold wrap. rewrite Z.add_mod_idemp_l by done. f_equal. change (list_fmap _ _ snd l) with l.*2. lia.
    + apply wrap_range. lia.
Qed.

Lemma snd_imap_pair {A} (l : list A) : (imap pair l).*2 = l.
Proof. rewrite fmap_imap. rewrite <- (list_fmap_id l) at 2. by rewrite <- imap_const. Qed.

(** Profiling.  Recording a step fails exactly beyond the plan.  A profile
    has one entry per plan step: what was recorded for it last, or zero time and
    rows; and finishing counts one query per step in the statistics of its
    modality, the unrecorded steps included. *)
Theorem profiler_finish now created updated p stats :
  profiler_ok p →
  let '(stats', profile) := finish now created updated p stats in
  length (profile_steps profile) = length (steps (prof_plan p)) ∧
  (∀ i s, recorded_steps p !! i = Some (Some s) → profile_steps profile !! i = Some s) ∧
  (∀ i s, steps (prof_plan p) !! i = Some s → recorded_steps p !! i = Some None →
     profile_steps profile !! i = Some (profile_step s f64_zero 0 (now i) (now i))) ∧
  (∀ m, in_u 64 (count_of m stats) →
     count_of m stats' = wrap 64 (count_of m stats + Z.of_nat (steps_on m (profile_steps profile)))) ∧
  (∀ i actual rows started ended,
     is_Some (record_step i actual rows started ended p) ↔ (i < length (steps (prof_plan p)))%nat).
Proof.
  intros Hp. unfold finish. simpl.
  assert (Hz : ∀ i s r, steps (prof_plan p) !! i = Some s → recorded_steps p !! i = Some r →
    filled_steps now p !! i = Some (filled now i s r)).
  { intros i s r Hs Hr. unfold filled_steps. by rewrite list_lookup_imap, lookup_zip_with, Hs, Hr. }
  split_and!.
  - unfold filled_steps. rewrite length_imap, length_zip. unfold profiler_ok in Hp. lia.
  - intros i s Hr. destruct (lookup_lt_is_Some_2 (steps (prof_plan p)) i) as [st Hs].
    { rewrite <- Hp. by eapply lookup_lt_Some. }
    by rewrite (Hz _ _ _ Hs Hr).
  - intros i s Hs Hr. by rewrite (Hz _ _ _ Hs Hr).
  - intros m Hm. rewrite feed_counts by done. by rewrite snd_imap_pair.
  - intros i actual rows started ended. rewrite <- lookup_lt_is_Some. unfold record_step.
    destruct (steps (prof_plan p) !! i) as [st|]; simpl.
    + split; intros _; eexists; reflexivity.
    + split; intros []; done.
Qed.

End profiler.

(** ** Witnesses *)

Module Witness.

#[export] Instance clock : Chrono :=
  {| DateTime := Z; timestamp_millis := λ t, t; timestamp_millis_opt := Some |}.
#[export] Instance ascii_case : UnicodeCase :=
  {| str_lower := map_ascii ascii_lower; str_upper := map_ascii ascii_upper |}.
#[export] Instance log2 : Log2 := λ x, x.
#[export] Instance no_debug : DebugKind := λ _, "".

Definition epoch : DateTime := 0.

(** Nineteen letters and a two-byte character: its second byte is the one at 20. *)
Definition accented : string := "aaaaaaaaaaaaaaaaaaaé".
Definition document_node : PlanNode := mkNode Document [Fulltext accented] [] None.
Definition text_search : LogicalPlan := mkLogical Octad [document_node] [].
Definition planner : Planner := new (λ _, epoch) config_default.

Lemma long_query_panics_witness : optimize planner text_search = None.
Proof. by apply (long_query_panics planner text_search document_node accented "169"%char); [left|left|vm_compute|vm_compute]. Defined.

Definition busy : gmap Modality StoreStatistics :=
  {[Document := mkStats Document 0 (f64_of_u64 200) 0 10 epoch]}.

Lemma tuning_oscillates_witness :
  mode_for (Nat.iter 3 (apply AdaptiveTuner_new busy) config_default) Document = Conservative.
Proof.
  apply (tuning_oscillates busy config_default 1); [|done|done]. split; [by eexists|].
  intros m e Hm Hl. exfalso. revert Hl. unfold busy. by rewrite lookup_singleton_ne.
Defined.

Definition empty_plan : PhysicalPlan := mkPhysical [] Sequential (combine [] false) [].
Definition one_step : PhysicalPlan :=
  mkPhysical [mkStep 1 "scan" Graph (combine [] false) None []] Sequential (combine [] false) [].

Lemma profiler_finish_witness :
  length (Profile.profile_steps (Profile.finish (λ _, epoch) (λ _, epoch) (λ _, epoch)
    (Profile.new "p" one_step) ∅).2) = 1%nat.
Proof.
  destruct (profiler_finish (λ _, epoch) (λ _, epoch) (λ _, epoch) (Profile.new "p" one_step) ∅
    (new_profiler_ok "p" one_step)) as [Hl _].
  exact Hl.
Defined.

End Witness.
