(* ===== verification/VclTheorems.v ===== *)
(** What the VCL bridge guarantees: parsing conditions terminates, a query's
    plan has one node per requested modality with exactly the conditions the
    query gives it, the planner executes them in priority order, and what the
    translation drops. *)

From S2P Require Import Prelude Machine Text Float64 Collections WalEntry Format PlannerTypes PlannerCost Planner PlannerTheorems VclBridge.

Local Open Scope string_scope.
Local Open Scope Z_scope.
Local Open Scope list_scope.

(** ** Parsing conditions *)

Section parsing.
Context `{JsonLaws} `{!Serde}.
Implicit Types (v w : Value).

Lemma member_elem key (l : list (string * Value)) w : member key l = Some w → (key, w) ∈ l.
Proof.
  induction l as [|[k v] l IH]; simpl; [done|]. destruct (decide (k = key)) as [->|].
  - intros [= ->]. by left.
  - intros Hw. right. auto.
Qed.

Lemma operand_smaller v l key w : as_object v = Some l → member key l = Some w → (depth w < depth v)%nat.
Proof. intros Hv Hm%member_elem. by eapply depth_member. Qed.

(** A level looks at the operands only. *)
Lemma condition_arm_ext f g v :
  (∀ w, (depth w < depth v)%nat → f w = g w) → condition_arm f v = condition_arm g v.
Proof.
  intros Hfg. unfold condition_arm. destruct (as_object v) as [l|] eqn:Hv; [|done]. simpl.
  destruct (member_str "TAG" l) as [tag|]; [|done]. simpl.
  pose proof (λ w, operand_smaller v l "_0" w Hv) as Ha. pose proof (λ w, operand_smaller v l "_1" w Hv) as Hb.
  destruct (member "_0" l) as [a|], (member "_1" l) as [b|]; simpl;
    rewrite ?(Hfg a), ?(Hfg b) by eauto; done.
Qed.

Lemma parse_fuel_enough n m v :
  (depth v < n)%nat → (depth v < m)%nat → parse_condition_fuel n v = parse_condition_fuel m v.
Proof.
  revert m v. induction n as [|n IH]; intros [|m] v Hn Hm; try lia. cbn [parse_condition_fuel].
  apply condition_arm_ext. intros w Hw. apply IH; lia.
Qed.

(** Parsing terminates.  [parse_condition] never runs out of fuel: on every
    value it is one level of the parser whose operands are parsed by
    [parse_condition] itself, as the recursive function of the source is. *)
Theorem parse_condition_unfold v : parse_condition v = condition_arm parse_condition v.
Proof.
  unfold parse_condition at 1. cbn [parse_condition_fuel]. apply condition_arm_ext.
  intros w Hw. apply parse_fuel_enough; lia.
Qed.

End parsing.

(** ** Requested modalities *)

Lemma elem_of_dedup m seen l : m ∈ dedup seen l ↔ (m ∉ seen) ∧ m ∈ l.
Proof.
  revert seen. induction l as [|a l IH]; intros seen; simpl; [set_solver|].
  case_bool_decide; rewrite ?elem_of_cons, IH; [set_solver|]. destruct (decide (m = a)); set_solver.
Qed.

Lemma NoDup_dedup seen l : NoDup (dedup seen l).
Proof.
  revert seen. induction l as [|a l IH]; intros seen; simpl; [constructor|].
  case_bool_decide; [done|]. constructor; [|done]. rewrite elem_of_dedup. set_solver.
Qed.

(** The query asks for [m]. *)
Definition requested (vms : list VclModality) (m : Modality) : Prop :=
  All ∈ vms ∨ ∃ vm, vm ∈ vms ∧ vcl_modality_to_planner vm = Ok m.

Lemma elem_of_resolve vms m : m ∈ resolve_modalities vms ↔ requested vms m.
Proof.
  unfold resolve_modalities, requested. rewrite elem_of_dedup, list_elem_of_bind. split.
  - intros (_ & vm & Hm & Hvm). destruct vm; [right..|by left];
      simpl in Hm; apply list_elem_of_singleton in Hm as ->; eauto.
  - intros Hr. split; [set_solver|]. destruct Hr as [Ha|(vm & Hvm & Hm)].
    + exists All. split; [|done]. by destruct m; repeat (first [left; reflexivity|right]).
    + exists vm. split; [|done]. destruct vm; simpl in *; try done; injection Hm as <-; by left.
Qed.

Lemma resolve_NoDup vms : NoDup (resolve_modalities vms).
Proof. apply NoDup_dedup. Qed.

(** ** Buckets *)

Section buckets.
Context `{Json} `{!DebugKind} `{!VclDebug} `{!FmtF64}.
Implicit Types (out : Buckets) (active : list Modality) (m : Modality).

Definition bucket out m : list ConditionKind := default [] (out !! m).

Lemma bucket_push kind out t m :
  bucket (push_condition kind out t) m = bucket out m ++ (if decide (t = m) then [kind] else []).
Proof.
  unfold bucket, push_condition. destruct (decide (t = m)) as [->|].
  - by rewrite lookup_insert_eq.
  - by rewrite lookup_insert_ne, app_nil_r.
Qed.

Lemma push_dom kind out t m : is_Some (push_condition kind out t !! m) ↔ t = m ∨ is_Some (out !! m).
Proof. unfold push_condition. rewrite lookup_insert_is_Some'. done. Qed.

Lemma broadcast_dom active kind out m :
  is_Some (broadcast active kind out !! m) ↔ m ∈ active ∨ is_Some (out !! m).
Proof.
  unfold broadcast. revert out. induction active as [|a active IH]; intros out; simpl; [set_solver|].
  rewrite IH, push_dom, elem_of_cons. naive_solver.
Qed.

Lemma bucket_broadcast active kind out m :
  NoDup active → bucket (broadcast active kind out) m = bucket out m ++ (if decide (m ∈ active) then [kind] else []).
Proof.
  unfold broadcast. revert out. induction active as [|a active IH]; intros out; simpl; [by rewrite app_nil_r|].
  intros [Ha Hn]%NoDup_cons. rewrite IH, bucket_push by done. rewrite <- app_assoc. f_equal.
  destruct (decide (a = m)) as [->|]; repeat case_decide; set_solver.
Qed.

(** ** What the WHERE clause gives each node *)

(** The conjuncts of a condition. *)
Fixpoint conjuncts (c : VclCondition) : list VclCondition :=
  match c with And l r => conjuncts l ++ conjuncts r | c => [c] end.

(** What one conjunct gives the node of modality [m]. *)
Definition contribution active m (c : VclCondition) : list ConditionKind :=
  match c with
  | And _ _ => []
  | Or l r => [Predicate (cat ["OR("; describe_condition l; ", "; describe_condition r; ")"])]
  | Not c => [Predicate (cat ["NOT("; describe_condition c; ")"])]
  | Simple s =>
      match map_simple_condition s with
      | Ok (None, kind) => [kind]
      | Ok (Some t, kind) =>
          if decide (t ∈ active) then (if decide (t = m) then [kind] else [])
          else [Predicate (cat ["target_modality="; modality_display t; ": "; debug_kind kind])]
      | Err _ => []
      end
  end.

Lemma flatten_buckets c active out out' :
  NoDup active → (∀ m, is_Some (out !! m) ↔ m ∈ active) → flatten_conditions c active out = Ok out' →
  (∀ m, is_Some (out' !! m) ↔ m ∈ active) ∧
  ∀ m, m ∈ active → bucket out' m = bucket out m ++ (conjuncts c ≫= contribution active m).
Proof.
  intros Hnd. revert out out'.
  assert (Hb : ∀ kind out, (∀ m, is_Some (out !! m) ↔ m ∈ active) →
    (∀ m, is_Some (broadcast active kind out !! m) ↔ m ∈ active) ∧
    ∀ m, m ∈ active → bucket (broadcast active kind out) m = bucket out m ++ [kind]).
  { intros kind out Ho. split.
    - intros m. rewrite broadcast_dom, Ho. tauto.
    - intros m Hm. rewrite bucket_broadcast by done. by rewrite decide_True. }
  induction c as [l IHl r IHr|l _ r _|c _|s]; intros out out' Ho; cbn [flatten_conditions conjuncts].
  - intros (out1 & E1 & E2)%bind_Ok. destruct (IHl _ _ Ho E1) as [D1 B1]. destruct (IHr _ _ D1 E2) as [D2 B2].
    split; [done|]. intros m Hm. by rewrite B2, B1, bind_app, app_assoc.
  - intros [= <-]. simpl. by apply Hb.
  - intros [= <-]. simpl. by apply Hb.
  - intros ([t kind] & Es & E)%bind_Ok. simpl. rewrite Es. destruct t as [t|].
    + case_bool_decide as Ht; injection E as <-; rewrite Ho in Ht.
      * split; [intros m; rewrite push_dom, Ho; naive_solver|]. intros m Hm.
        rewrite bucket_push, app_nil_r. by rewrite (decide_True (P:=t ∈ active)).
      * match goal with |- context [broadcast active ?k out] => destruct (Hb k out Ho) as [D B] end.
        split; [exact D|]. intros m Hm. rewrite (decide_False (P:=t ∈ active)) by done. by apply B.
    + injection E as <-. by apply Hb.
Qed.

Lemma bucket_proofs out specs m :
  bucket (foldl add_proof out specs) m =
  bucket out m ++ (if decide (m = Semantic) then (λ s, ProofVerification (contract_name s)) <$> specs else []).
Proof.
  revert out. induction specs as [|s specs IH]; intros out; simpl; [by case_decide; rewrite app_nil_r|].
  unfold add_proof at 2. rewrite IH, bucket_push, <- app_assoc. f_equal.
  repeat case_decide; congruence || done.
Qed.

Lemma initial_spec active :
  (∀ m, is_Some (initial_buckets active !! m) ↔ m ∈ active) ∧ ∀ m, bucket (initial_buckets active) m = [].
Proof.
  unfold initial_buckets. assert (∀ out, (∀ m, bucket out m = []) →
    (∀ m, is_Some (foldl (λ out m, <[m := default [] (out !! m)]> out) out active !! m) ↔
          m ∈ active ∨ is_Some (out !! m)) ∧
    ∀ m, bucket (foldl (λ out m, <[m := default [] (out !! m)]> out) out active) m = []) as Hs.
  { induction active as [|a active IH]; intros out Ho; simpl; [split; [set_solver|done]|].
    destruct (IH (<[a := default [] (out !! a)]> out)) as [D B].
    { intros m. unfold bucket. destruct (decide (a = m)) as [->|];
        [rewrite lookup_insert_eq | rewrite lookup_insert_ne by done]; apply Ho. }
    split; [|done]. intros m. rewrite D, lookup_insert_is_Some', elem_of_cons. naive_solver. }
  destruct (Hs ∅) as [D B]; [by intros m; unfold bucket; rewrite lookup_empty|].
  split; [|done]. intros m. rewrite D, lookup_empty. split; [by intros [?|[]]|by left].
Qed.

End buckets.

(** ** Logical plans *)

Section plans.
Context `{Json} `{!DebugKind} `{!VclDebug} `{!FmtF64}.
Implicit Types (q : VclQuery) (m : Modality) (lp : LogicalPlan).

Lemma StronglySorted_filter {A} (R : relation A) (P : A → Prop) `{∀ x, Decision (P x)} l :
  StronglySorted R l → StronglySorted R (filter P l).
Proof.
  induction 1 as [|x l Hs IH Hf]; [constructor|]. rewrite filter_cons. case_decide; [|done].
  constructor; [done|]. rewrite Forall_forall in *. intros y [_ Hy]%list_elem_of_filter. auto.
Qed.

(** All modalities, by execution priority. *)
Definition PRIORITY_ORDER : list Modality := [Temporal; Vector; Document; Graph; Tensor; Semantic].

#[local] Instance requested_dec vms m : Decision (requested vms m).
Proof. refine (cast_if (decide (m ∈ resolve_modalities vms))); by rewrite <- elem_of_resolve. Defined.

Definition requested_in_order q : list Modality := filter (requested (modalities q)) PRIORITY_ORDER.

Lemma execution_priority_inj m m' : execution_priority m = execution_priority m' → m = m'.
Proof. by destruct m, m'. Qed.

Definition priority_before (m m' : Modality) : Prop := execution_priority m ≤ execution_priority m'.

Lemma sorted_by_priority (l k : list Modality) :
  StronglySorted priority_before l → StronglySorted priority_before k → l ≡ₚ k → l = k.
Proof.
  apply StronglySorted_unique_strong. unfold priority_before. intros x y _ _ ??.
  apply execution_priority_inj. lia.
Qed.

Lemma requested_in_order_sorted q : StronglySorted priority_before (requested_in_order q).
Proof.
  unfold requested_in_order. apply StronglySorted_filter. unfold priority_before.
  repeat (constructor; [|by repeat constructor]). constructor.
Qed.

Lemma requested_in_order_perm q : requested_in_order q ≡ₚ resolve_modalities (modalities q).
Proof.
  apply NoDup_Permutation; [|apply resolve_NoDup|].
  - apply NoDup_filter. by apply (bool_decide_unpack _); vm_compute.
  - intros m. unfold requested_in_order. rewrite list_elem_of_filter, elem_of_resolve.
    split; [by intros [? _]|]. intros Hr. split; [done|]. destruct m; set_solver.
Qed.

(** The conditions of [m]'s node. *)
Definition node_conditions q m : list ConditionKind :=
  from_option (λ c, conjuncts c ≫= contribution (resolve_modalities (modalities q)) m) [] (where_clause q) ++
  (if decide (m = Semantic) then from_option (fmap (λ s, ProofVerification (contract_name s))) [] (proof q) else []).

Lemma to_logical_plan_Ok q lp :
  to_logical_plan (Query q) = Ok lp →
  ∃ buckets, (∀ m, m ∈ resolve_modalities (modalities q) → bucket buckets m = node_conditions q m) ∧
    resolve_modalities (modalities q) ≠ [] ∧ map_source (vcl_source q) = Ok (source lp) ∧ post_processing lp = post_processing_of q ∧
    nodes lp = sort_by_key node_priority
      (node_of buckets (build_projection_map (resolve_modalities (modalities q)) (vcl_projections q)) <$>
       resolve_modalities (modalities q)).
Proof.
  cbn [to_logical_plan]. case_bool_decide as Hact; [done|]. cbn [negb].
  intros (src & Hsrc & (out & Hout & [= <-])%bind_Ok)%bind_Ok.
  set (active := resolve_modalities (modalities q)) in *.
  assert (Hb : ∀ m, m ∈ active → bucket out m =
    from_option (λ c, conjuncts c ≫= contribution active m) [] (where_clause q)).
  { intros m Hm. destruct (initial_spec active) as [Hd Hi]. destruct (where_clause q) as [c|]; simpl in *.
    - destruct (flatten_buckets c active _ _ (resolve_NoDup _) Hd Hout) as [_ Hf]. by rewrite Hf, Hi.
    - injection Hout as <-. apply Hi. }
  exists (from_option (foldl add_proof out) out (proof q)). split_and!; [|done..].
  intros m Hm. unfold node_conditions. fold active. rewrite <- (Hb m Hm). destruct (proof q) as [specs|]; simpl.
  - apply bucket_proofs.
  - by case_decide; rewrite app_nil_r.
Qed.

Lemma node_modalities (f : Modality → PlanNode) (l : list Modality) :
  (∀ m, modality (f m) = m) → modality <$> (f <$> l) = l.
Proof.
  intros Hf. rewrite <- list_fmap_compose. rewrite <- (list_fmap_id l) at 2.
  apply list_fmap_ext. intros i m _. apply Hf.
Qed.

Lemma sorted_nodes (l : list PlanNode) :
  StronglySorted (key_le node_priority) l → StronglySorted priority_before (modality <$> l).
Proof. intros Hs. by apply (StronglySorted_fmap priority_before modality). Qed.

Lemma plan_modalities q lp : to_logical_plan (Query q) = Ok lp → modality <$> nodes lp = requested_in_order q.
Proof.
  intros (b & _ & _ & _ & _ & Hn)%to_logical_plan_Ok. apply sorted_by_priority.
  - apply sorted_nodes. rewrite Hn. apply sort_by_key_sorted.
  - apply requested_in_order_sorted.
  - rewrite requested_in_order_perm, Hn, sort_by_key_perm. by rewrite node_modalities.
Qed.

(** The only error beside [EmptyPlan]: a modality that must be one is [All]. *)
Definition not_expanded : PlannerError :=
  InvalidConfig "All modality should be expanded before individual mapping".

Lemma vcl_modality_Err vm e : vcl_modality_to_planner vm = Err e → e = not_expanded.
Proof. by destruct vm; simpl; intros [= <-]. Qed.

Lemma bind_modality_Err {A} vm (f : Modality → A) e :
  (m ← vcl_modality_to_planner vm; Ok (f m)) = Err e → e = not_expanded.
Proof. by destruct vm; simpl; intros [= <-]. Qed.

Lemma flatten_Err c active out e : flatten_conditions c active out = Err e → e = not_expanded.
Proof.
  revert out. induction c as [l IHl r IHr| | |s]; intros out; cbn [flatten_conditions]; try done.
  - destruct (flatten_conditions l active out) as [out'|e'] eqn:E; simpl; [apply IHr|].
    intros [= <-]. by eapply IHl.
  - destruct (map_simple_condition s) as [[[t|] kind]|e'] eqn:E; simpl; [by case_match|done|].
    intros [= <-]. destruct s; simpl in E; try done; by apply bind_modality_Err in E.
Qed.

Lemma map_source_Err src e : map_source src = Err e → e = not_expanded.
Proof. destruct src; simpl; try done. apply bind_modality_Err. Qed.

Lemma to_logical_plan_Err q e :
  to_logical_plan (Query q) = Err e →
  resolve_modalities (modalities q) = [] ∧ e = EmptyPlan ∨ resolve_modalities (modalities q) ≠ [] ∧ e = not_expanded.
Proof.
  cbn [to_logical_plan]. case_bool_decide as Hr; cbn [negb]; [intros [= <-]; by left|].
  intros E. right. split; [done|].
  destruct (map_source (vcl_source q)) as [src|e'] eqn:Es; simpl in E;
    [|injection E as <-; by apply map_source_Err in Es].
  destruct (where_clause q) as [c|]; simpl in E; [|done].
  destruct (flatten_conditions c _ _) as [out|e'] eqn:Ef; simpl in E; [done|].
  injection E as <-. by apply flatten_Err in Ef.
Qed.

Lemma resolve_nonempty vms : vms ≠ [] → resolve_modalities vms ≠ [].
Proof.
  destruct vms as [|vm vms]; [done|]. intros _ Hr.
  assert (∃ m, requested (vm :: vms) m) as [m Hm%elem_of_resolve]; [|rewrite Hr in Hm; by apply elem_of_nil in Hm].
  destruct vm; try (eexists; right; eexists; split; [left|reflexivity]). exists Graph. left. left.
Qed.

Lemma plan_nonempty q lp : to_logical_plan (Query q) = Ok lp → nodes lp ≠ [].
Proof.
  intros Hq. pose proof (plan_modalities q lp Hq) as Hm. apply to_logical_plan_Ok in Hq as (_ & _ & Hne & _).
  intros E. apply Hne, Permutation_nil_r. rewrite <- requested_in_order_perm, <- Hm, E. done.
Qed.

(** Queries to plans.  The plan of a query has one node per requested
    modality, in priority order, and no other; each node has exactly the
    conditions the conjuncts of the WHERE clause give its modality, in order,
    and the semantic node the proof obligations after them.  A query without
    modalities is an error. *)
Theorem logical_plan_nodes q :
  match to_logical_plan (Query q) with
  | Ok lp =>
      modality <$> nodes lp = requested_in_order q ∧ nodes lp ≠ [] ∧
      (∀ n, n ∈ nodes lp → conditions n = node_conditions q (modality n)) ∧
      map_source (vcl_source q) = Ok (source lp)
  | Err EmptyPlan => modalities q = []
  | Err e => e = not_expanded ∧ modalities q ≠ []
  end.
Proof.
  destruct (to_logical_plan (Query q)) as [lp|e] eqn:E.
  - split; [by apply plan_modalities|]. split; [by apply plan_nonempty in E|].
    apply to_logical_plan_Ok in E as (b & Hb & _ & Hs & _ & Hn). split; [|done]. intros n Hin.
    rewrite Hn, sort_by_key_perm in Hin. apply list_elem_of_fmap in Hin as (m & -> & Hm'). by apply Hb.
  - apply to_logical_plan_Err in E as [[Hr ->]|[Hr ->]]; simpl.
    + destruct (modalities q) eqn:Em; [done|]. by apply resolve_nonempty in Hr.
    + split; [done|]. intros Hm. by rewrite Hm in Hr.
Qed.

(** ** What the translation drops *)

Definition with_proof p q : VclQuery :=
  mkQuery (modalities q) (vcl_source q) (where_clause q) (vcl_projections q) (aggregates q) (group_by q)
    (having q) p (order_by q) (limit q) (offset q).
Definition with_where c q : VclQuery :=
  mkQuery (modalities q) (vcl_source q) c (vcl_projections q) (aggregates q) (group_by q)
    (having q) (proof q) (order_by q) (limit q) (offset q).
Definition with_having h q : VclQuery :=
  mkQuery (modalities q) (vcl_source q) (where_clause q) (vcl_projections q) (aggregates q) (group_by q)
    h (proof q) (order_by q) (limit q) (offset q).

(** The PROOF clause.  When the semantic modality is not requested the
    proof obligations reach no node: the query has the plan it would have
    without its PROOF clause, or the same error. *)
Theorem proof_clause_dropped q :
  ¬ requested (modalities q) Semantic → to_logical_plan (Query q) = to_logical_plan (Query (with_proof None q)).
Proof.
  rewrite <- elem_of_resolve. intros Hs. cbn [to_logical_plan with_proof modalities vcl_source where_clause proof].
  case_bool_decide; [done|]. cbn [negb]. destruct (map_source _) as [src|]; [simpl|done].
  destruct (from_option _ _ (where_clause q)) as [b|]; [simpl|done].
  do 2 f_equal. apply (f_equal (sort_by_key node_priority)). apply list_fmap_ext.
  intros i m Hm%list_elem_of_lookup_2. unfold node_of. f_equal.
  change (bucket (from_option (foldl add_proof b) b (proof q)) m = bucket b m).
  destruct (proof q) as [specs|]; [simpl|done].
  rewrite bucket_proofs, decide_False by (by intros ->). apply app_nil_r.
Qed.

(** Comparisons.  A plan does not depend on which equality operator, or
    which ordering operator, a field is compared with: [=] and [!=], or [<]
    and [>=], give the same plan; nor does it depend on HAVING. *)
Theorem comparisons_lost q f op1 op2 v h :
  (op1 ∈ ["="; "=="; "!="; "<>"] ∧ op2 ∈ ["="; "=="; "!="; "<>"]) ∨
  (op1 ∈ [">"; ">="; "<"; "<="; "BETWEEN"] ∧ op2 ∈ [">"; ">="; "<"; "<="; "BETWEEN"]) →
  to_logical_plan (Query (with_where (Some (Simple (FieldCondition f op1 v))) q)) =
  to_logical_plan (Query (with_having h (with_where (Some (Simple (FieldCondition f op2 v))) q))).
Proof.
  intros Hop. assert (Hk : field_kind (field_name f) op1 (value_text v) = field_kind (field_name f) op2 (value_text v)).
  { unfold field_kind. destruct Hop as [[? ?]|[? ?]].
    - by rewrite !bool_decide_eq_true_2.
    - rewrite !(bool_decide_eq_true_2 (_ ∈ [">"; ">="; "<"; "<="; "BETWEEN"])) by done.
      rewrite !bool_decide_eq_false_2; [done|set_solver..]. }
  cbn [to_logical_plan with_where with_having modalities vcl_source where_clause proof from_option
    flatten_conditions map_simple_condition].
  by rewrite Hk.
Qed.

End plans.

(** ** Queries to execution *)

Section pipeline.
Context `{Json} `{!DebugKind} `{!VclDebug} `{!FmtF64} `{!Chrono} `{!UnicodeCase} `{!Log2}.

Lemma optimize_modalities p logical plan :
  optimize p logical = Some (Ok plan) →
  step_modality <$> steps plan ≡ₚ modality <$> nodes logical ∧ StronglySorted priority_before (step_modality <$> steps plan).
Proof.
  unfold optimize. destruct (nodes logical) as [|n0 ns] eqn:En; [done|]. rewrite <- En.
  intros (l & Hl & [= <-])%bind_Some. cbn [steps build_plan]. split.
  - rewrite fmap_steps by by intros k [[n c] h]. rewrite sort_by_perm.
    apply mapM_node_cost in Hl. clear En. induction Hl as [|n [c h] ns' l [_ Hc] _ IH]; [done|].
    simpl in Hc. subst c. rewrite !fmap_cons, IH. done.
  - apply (StronglySorted_fmap priority_before step_modality), built_steps_sorted, sort_cheaper_sorted.
Qed.

(** Queries to execution.  The steps of an optimised query are the
    requested modalities, each once, in priority order, whatever the costs; and
    a translated query never fails to be optimised with an error. *)
Theorem vcl_query_planned p q lp :
  to_logical_plan (Query q) = Ok lp →
  match optimize p lp with
  | Some (Ok plan) => step_modality <$> steps plan = requested_in_order q
  | Some (Err _) => False
  | None => ∃ n, n ∈ nodes lp ∧ hint_for n = None
  end.
Proof.
  intros Hq. pose proof (plan_modalities q lp Hq) as Hm. destruct (optimize p lp) as [[plan|e]|] eqn:E.
  - apply optimize_modalities in E as [Hp Hs]. apply sorted_by_priority; [done|apply requested_in_order_sorted|].
    by rewrite Hp, Hm.
  - apply plan_nonempty in Hq. unfold optimize in E.
    destruct (nodes lp); [done|]. by apply bind_Some in E as (? & _ & ?).
  - apply plan_nonempty in Hq. apply (node_cost_panics p). unfold optimize in E.
    destruct (nodes lp); [done|]. by destruct (mapM _ _).
Qed.

End pipeline.

(** ** Witnesses *)

Module Witness.

(** Texts and objects with a tag and two members. *)
Inductive tree := Leaf (s : string) | Node (tag : string) (l r : tree).

Fixpoint height (t : tree) : nat :=
  match t with Leaf _ => 0 | Node _ l r => S (Nat.max (height l) (height r)) end.

#[export] Instance tree_json : Json := {|
  Value := tree;
  as_object t := match t with Leaf _ => None | Node tag l r => Some [("TAG", Leaf tag); ("_0", l); ("_1", r)] end;
  as_str t := match t with Leaf s => Some s | _ => None end;
  as_array _ := None; as_f64 _ := None; as_u64 _ := None; value_to_string _ := ""; depth := height |}.

#[export] Instance tree_laws : JsonLaws tree_json.
Proof.
  intros [s|tag l r] m k w; [done|]. intros [= <-] Hin. simpl.
  repeat apply elem_of_cons in Hin as [[= -> ->]|Hin]; simpl; [lia..|by apply elem_of_nil in Hin].
Defined.

#[export] Instance serde : Serde := {|
  missing_field f := f; unknown_variant v _ := v; invalid_type e _ := e;
  field_ref_from_value _ := Err "field"; query_from_value _ := Err "query"; parse_members _ := Ok [] |}.

#[export] Instance clock : Chrono :=
  {| DateTime := Z; timestamp_millis := λ t, t; timestamp_millis_opt := Some |}.
#[export] Instance ascii_case : UnicodeCase :=
  {| str_lower := map_ascii ascii_lower; str_upper := map_ascii ascii_upper |}.
#[export] Instance log2 : Log2 := λ x, x.
#[export] Instance no_debug : DebugKind := λ _, "kind".
#[export] Instance no_debug_simple : VclDebug := λ _, "simple".
#[export] Instance no_float : FmtF64 := λ _, "f".

Definition text_condition : Value := Node "Simple" (Node "FulltextContains" (Leaf "rust") (Leaf "")) (Leaf "").
Definition negated : Value := Node "Not" text_condition (Leaf "").

Lemma parse_condition_unfold_witness : parse_condition negated = Ok (Not (Simple (FulltextContains "rust"))).
Proof. rewrite (parse_condition_unfold negated). reflexivity. Defined.

Definition x : Value := Leaf "x".
Definition field : VclFieldRef := mkField None "name".
Definition graph_query : VclQuery :=
  mkQuery [VVector; VGraph; VGraph] (SOctad None) (Some (Simple (FulltextContains "rust"))) None None None None
    (Some [mkProofSpec Zkp "access"]) None None None.

Lemma proof_clause_dropped_witness :
  to_logical_plan (Query graph_query) = to_logical_plan (Query (with_proof None graph_query)).
Proof.
  apply (proof_clause_dropped graph_query). rewrite <- elem_of_resolve.
  by apply (bool_decide_unpack (Semantic ∉ resolve_modalities [VVector; VGraph; VGraph])); vm_compute.
Defined.

Lemma comparisons_lost_witness :
  to_logical_plan (Query (with_where (Some (Simple (FieldCondition field "=" x))) graph_query)) =
  to_logical_plan (Query (with_having None (with_where (Some (Simple (FieldCondition field "!=" x))) graph_query))).
Proof.
  apply (comparisons_lost graph_query field "=" "!=" x None). left.
  split; apply (bool_decide_unpack _); by vm_compute.
Defined.

Definition epoch : DateTime := 0.
Definition planner : Planner := new (λ _, epoch) config_default.

Lemma vcl_query_planned_witness :
  ∃ lp plan, to_logical_plan (Query graph_query) = Ok lp ∧ optimize planner lp = Some (Ok plan) ∧
    step_modality <$> steps plan = requested_in_order graph_query.
Proof.
  destruct (to_logical_plan (Query graph_query)) as [lp|e] eqn:E; [|by vm_compute in E].
  pose proof (vcl_query_planned planner graph_query lp E) as Hp.
  destruct (optimize planner lp) as [[plan|e]|] eqn:Eo.
  - by exists lp, plan.
  - done.
  - exfalso. injection E as <-. apply (f_equal (λ o, bool_decide (is_Some o))) in Eo. by vm_compute in Eo.
Defined.

End Witness.
