(* ===== verification/Zkp.v ===== *)
(** Commitments, Merkle trees and privacy-aware proofs (verisim-semantic/src/zkp.rs,
    zkp_bridge.rs).  SHA-256 is a parameter from bytes to 32 bytes. *)

From S2P Require Import Prelude Machine Text Collections.

(** SHA-256. *)
Class Digest := digest : list byte → list byte.
Class DigestLaws (D : Digest) := digest_length l : length (digest l) = 32%nat.

(** ** Data *)

Record HashCommitment := mkCommitment { commitment : list byte }.

(** [is_left]: the sibling is on the left. *)
Record MerklePathElement := mkElement { el_hash : list byte; is_left : bool }.

Record MerkleProof := mkMerkle { leaf : list byte; path : list MerklePathElement; root : list byte }.

Inductive VerifiableProofData :=
| Commitment (commitment : list byte)
| Reveal (commitment : list byte) (secret : list byte)
| MerkleInclusion (proof : MerkleProof)
| ContentIntegrity (content_hash : list byte).

(** Every 32-byte array of a proof has 32 bytes. *)
Definition element_ok (e : MerklePathElement) : Prop := length (el_hash e) = 32%nat.
Definition proof_ok (p : MerkleProof) : Prop := Forall element_ok (path p) ∧ length (root p) = 32%nat.

(** [diff |= x ^ y] over both slices. *)
Definition constant_time_eq (a b : list byte) : bool :=
  if negb (length a =? length b)%nat then false
  else foldl (λ diff '(x, y), Z.lor diff (Z.lxor (Z_of_byte x) (Z_of_byte y))) 0 (zip a b) =? 0.

Section zkp.
Context `{Digest}.

Definition commit (claim secret : list byte) : HashCommitment := mkCommitment (digest (claim ++ secret)).

Definition verify_commitment (c : HashCommitment) (claim secret : list byte) : bool :=
  constant_time_eq (commitment c) (commitment (commit claim secret)).

(** ** Merkle trees *)

Definition hash (data : list byte) : list byte := digest data.
Definition hash_pair (l r : list byte) : list byte := digest (l ++ r).

(** An odd level is padded with a copy of its last hash. *)
Definition pad (level : list (list byte)) : list (list byte) :=
  if negb (length level mod 2 =? 0)%nat
  then match last level with Some h => level ++ [h] | None => level end else level.

(** [chunks(2)] of a padded level: every chunk has two elements. *)
Fixpoint next_level (level : list (list byte)) : list (list byte) :=
  match level with
  | l :: r :: level => hash_pair l r :: next_level level
  | _ => []
  end.

(** The loop that shrinks a level to one hash; each round halves it. *)
Fixpoint climb (fuel : nat) (level : list (list byte)) : list (list byte) :=
  match fuel with
  | O => level
  | S fuel => if (1 <? length level)%nat then climb fuel (next_level (pad level)) else level
  end.

Definition merkle_root (leaves : list (list byte)) : list byte :=
  match leaves with
  | [] => replicate 32 (byte_of_Z 0)
  | _ => default [] (head (climb (length leaves) (hash <$> leaves)))
  end.

Definition sibling_idx (idx : nat) : nat := if (idx mod 2 =? 0)%nat then idx + 1 else idx - 1.

(** One path element per level; the sibling is within the padded level. *)
Fixpoint proof_path (fuel : nat) (level : list (list byte)) (idx : nat) : list MerklePathElement :=
  match fuel with
  | O => []
  | S fuel =>
      if (1 <? length level)%nat then
        mkElement (default [] (pad level !! sibling_idx idx)) (negb (idx mod 2 =? 0)%nat)
          :: proof_path fuel (next_level (pad level)) (idx / 2)
      else []
  end.

Definition merkle_proof (leaves : list (list byte)) (index : nat) : option MerkleProof :=
  if (length leaves <=? index)%nat || (length leaves =? 0)%nat then None
  else Some (mkMerkle (default [] (leaves !! index))
               (proof_path (length leaves) (hash <$> leaves) index) (merkle_root leaves)).

Definition combine (current : list byte) (e : MerklePathElement) : list byte :=
  if is_left e then hash_pair (el_hash e) current else hash_pair current (el_hash e).

Definition verify_merkle_proof (p : MerkleProof) : bool :=
  constant_time_eq (foldl combine (hash (leaf p)) (path p)) (root p).

Definition verify_proof (data : VerifiableProofData) (claim : list byte) : bool :=
  match data with
  | Commitment _ => true
  | Reveal c secret => constant_time_eq c (commitment (commit claim secret))
  | MerkleInclusion p => verify_merkle_proof p
  | ContentIntegrity h => constant_time_eq h (hash claim)
  end.

End zkp.
