(* ===== verification/ZkpTheorems.v ===== *)
(** Merkle trees: what verification accepts and what the construction leaves
    open; commitments. *)

From S2P Require Import Prelude Machine Text Collections Zkp.

(** ** Comparing digests *)

Lemma lor_xor_zero a b d :
  length a = length b →
  foldl (λ diff '(x, y), Z.lor diff (Z.lxor (Z_of_byte x) (Z_of_byte y))) d (zip a b) = 0 ↔ d = 0 ∧ a = b.
Proof.
  revert b d. induction a as [|x a IH]; intros [|y b] d; simpl; try done; [naive_solver|].
  intros [= Hl]. rewrite IH, Z.lor_eq_0_iff by done. split.
  - intros [[-> Hx] ->]. apply Z.lxor_eq, Z_of_byte_inj in Hx as ->. done.
  - intros [-> [= -> ->]]. by rewrite Z.lxor_nilpotent.
Qed.

Lemma constant_time_eq_spec a b : constant_time_eq a b = true ↔ a = b.
Proof.
  unfold constant_time_eq. destruct (Nat.eqb_spec (length a) (length b)) as [Hl|Hl]; simpl.
  - rewrite Z.eqb_eq, lor_xor_zero by done. naive_solver.
  - split; [done|]. by intros ->.
Qed.

(** ** Levels *)

(** The rounds of the loop: [log2] of the number of leaves, rounded up. *)
Definition depth (n : nat) : nat := Nat.log2_up n.

Lemma depth_half n : (1 < n)%nat → depth n = S (depth ((n + 1) / 2)).
Proof.
  intros Hn. unfold depth. pose proof (Nat.div_mod n 2 ltac:(done)) as Hd.
  pose proof (Nat.mod_upper_bound n 2 ltac:(done)). remember (n / 2)%nat as k eqn:Hk. clear Hk.
  destruct (n mod 2)%nat as [|[|]] eqn:E; [| |lia]; rewrite ?Nat.add_0_r in Hd; subst n.
  - replace ((2 * k + 1) / 2)%nat with k by (apply (Nat.div_unique _ _ _ 1); lia).
    apply Nat.log2_up_double. lia.
  - replace ((2 * k + 1 + 1) / 2)%nat with (k + 1)%nat by (apply (Nat.div_unique _ _ _ 0); lia).
    rewrite Nat.log2_up_succ_double, (Nat.log2_up_eqn (k + 1)) by lia.
    by replace (Nat.pred (k + 1)) with k by lia.
Qed.

Section merkle.
Context `{Digest}.
Implicit Types (level leaves : list (list byte)).

Definition step level : list (list byte) := next_level (pad level).

Lemma length_pad level : length (pad level) = (2 * ((length level + 1) / 2))%nat.
Proof.
  unfold pad. pose proof (Nat.div_mod (length level) 2 ltac:(done)) as Hd.
  pose proof (Nat.mod_upper_bound (length level) 2 ltac:(done)).
  destruct (Nat.eqb_spec (length level mod 2) 0) as [E|E]; simpl negb; cbv iota.
  - rewrite <- (Nat.div_unique (length level + 1) 2 (length level / 2) 1); lia.
  - destruct (last level) as [h|] eqn:El; [|by apply last_None in El as ->].
    rewrite length_app. simpl length.
    rewrite <- (Nat.div_unique (length level + 1) 2 (length level / 2 + 1) 0); lia.
Qed.

Lemma pad_lookup level i h : level !! i = Some h → pad level !! i = Some h.
Proof.
  intros Hi. unfold pad. case_match; [|done]. case_match; [|done]. by apply lookup_app_l_Some.
Qed.

Lemma elem_of_pad level h : h ∈ pad level → h ∈ level.
Proof.
  unfold pad. case_match; [|done]. destruct (last level) as [x|] eqn:E; [|done].
  apply last_Some_elem_of in E. set_solver.
Qed.

(** Induction on a list two elements at a time. *)
Lemma list_two_ind {A} (P : list A → Prop) :
  P [] → (∀ x, P [x]) → (∀ x y l, P l → P (x :: y :: l)) → ∀ l, P l.
Proof.
  intros H0 H1 H2 l. enough (P l ∧ ∀ x, P (x :: l)) by tauto. induction l as [|y l [IH1 IH2]]; auto.
Qed.

Lemma next_level_lookup level k a b :
  level !! (2 * k)%nat = Some a → level !! (2 * k + 1)%nat = Some b →
  next_level level !! k = Some (hash_pair a b).
Proof.
  revert k. induction level as [|x|x y level IH] using list_two_ind; intros k.
  - done.
  - by destruct k.
  - destruct k as [|k]; [by intros [= ->] [= ->]|].
    replace (2 * S k)%nat with (S (S (2 * k))) by lia. simpl. by apply IH.
Qed.

Lemma length_next_level level : length (next_level level) = (length level / 2)%nat.
Proof.
  induction level as [|x|x y level IH] using list_two_ind; try done. cbn [next_level length]. rewrite IH.
  change (S (S (length level))) with (2 + length level)%nat.
  apply (Nat.div_unique _ _ _ (length level mod 2)); [by apply Nat.mod_upper_bound|].
  pose proof (Nat.div_mod (length level) 2 ltac:(done)). lia.
Qed.

Lemma length_step level : length (step level) = ((length level + 1) / 2)%nat.
Proof. unfold step. rewrite length_next_level, length_pad. by rewrite Nat.mul_comm, Nat.div_mul. Qed.

Lemma half_smaller n : (1 < n)%nat → ((n + 1) / 2 < n ∧ 0 < (n + 1) / 2)%nat.
Proof.
  intros Hn. split; [apply Nat.Div0.div_lt_upper_bound; lia|]. apply Nat.div_str_pos. lia.
Qed.

(** The loop runs [depth] rounds and ends at a single hash. *)
Lemma climb_depth fuel level :
  (0 < length level ≤ fuel)%nat →
  climb fuel level = Nat.iter (depth (length level)) step level ∧ length (climb fuel level) = 1%nat.
Proof.
  revert level. induction fuel as [|fuel IH]; intros level Hl; [lia|]. cbn [climb].
  destruct (Nat.ltb_spec 1 (length level)) as [H1|H1].
  - pose proof (half_smaller _ H1). fold (step level). destruct (IH (step level)) as [E Hl'].
    + rewrite length_step. lia.
    + split; [|done]. by rewrite (depth_half _ H1), Nat.iter_succ_r, E, length_step.
  - assert (length level = 1%nat) as E by lia. by rewrite E.
Qed.

(** ** Proofs that are built verify *)

Lemma combine_step level idx h :
  level !! idx = Some h → (1 < length level)%nat →
  step level !! (idx / 2)%nat =
    Some (combine h (mkElement (default [] (pad level !! sibling_idx idx)) (negb (idx mod 2 =? 0)%nat))).
Proof.
  intros Hh H1. apply pad_lookup in Hh as Hp. apply lookup_lt_Some in Hh.
  pose proof (length_pad level) as Hlen. pose proof (lookup_lt_Some _ _ _ Hp) as Hlt.
  pose proof (Nat.div_mod idx 2 ltac:(done)) as Hd.
  pose proof (Nat.mod_upper_bound idx 2 ltac:(done)).
  unfold step, combine, sibling_idx. destruct (Nat.eqb_spec (idx mod 2) 0) as [E|E]; cbn [negb is_left el_hash].
  - destruct (lookup_lt_is_Some_2 (pad level) (idx + 1)) as [s Hs]; [lia|]. rewrite Hs. change (default [] (Some s)) with s.
    apply next_level_lookup; [rewrite <- Hp | rewrite <- Hs]; f_equal; lia.
  - destruct (lookup_lt_is_Some_2 (pad level) (idx - 1)) as [s Hs]; [lia|]. rewrite Hs. change (default [] (Some s)) with s.
    apply next_level_lookup; [rewrite <- Hs | rewrite <- Hp]; f_equal; lia.
Qed.

Lemma proof_path_climbs fuel level idx h :
  (length level ≤ fuel)%nat → level !! idx = Some h →
  climb fuel level = [foldl combine h (proof_path fuel level idx)] ∧
  length (proof_path fuel level idx) = depth (length level).
Proof.
  revert level idx h. induction fuel as [|fuel IH]; intros level idx h Hl Hh.
  { destruct level; [done | simpl in Hl; lia]. }
  cbn [climb proof_path]. destruct (Nat.ltb_spec 1 (length level)) as [H1|H1].
  - pose proof (half_smaller _ H1). pose proof (combine_step level idx h Hh H1) as Hc.
    destruct (IH (step level) (idx / 2)%nat _ ltac:(rewrite length_step; lia) Hc) as [E1 E2].
    split; [exact E1|]. cbn [length]. by rewrite (depth_half _ H1), <- length_step, <- E2.
  - apply lookup_lt_Some in Hh as Hi. destruct level as [|x [|]]; simpl in *; try lia.
    assert (idx = 0%nat) as -> by lia. by injection Hh as ->.
Qed.

Lemma merkle_root_cons leaves :
  (0 < length leaves)%nat → climb (length leaves) (hash <$> leaves) = [merkle_root leaves].
Proof.
  intros Hl. destruct (climb_depth (length leaves) (hash <$> leaves)) as [_ E]; [rewrite length_fmap; lia|].
  unfold merkle_root. destruct leaves as [|l0 ls]; [simpl in Hl; lia|].
  destruct (climb _ _) as [|r [|]]; try done.
Qed.

(** Completeness.  For every index within the leaves, and no other,
    [merkle_proof] gives a proof of that leaf under the root of the tree; its
    path has the depth of the tree, and it verifies. *)
Theorem merkle_complete leaves i :
  match leaves !! i with
  | Some l => ∃ p, merkle_proof leaves i = Some p ∧ leaf p = l ∧ root p = merkle_root leaves ∧
                length (path p) = depth (length leaves) ∧ verify_merkle_proof p = true
  | None => merkle_proof leaves i = None
  end.
Proof.
  unfold merkle_proof. destruct (leaves !! i) as [l|] eqn:Hi.
  - apply lookup_lt_Some in Hi as Hlt.
    rewrite (proj2 (Nat.leb_gt _ _)) by lia. rewrite (proj2 (Nat.eqb_neq _ _)) by lia. simpl. eexists. split; [done|].
    destruct (proof_path_climbs (length leaves) (hash <$> leaves) i (hash l)) as [E1 E2].
    + by rewrite length_fmap.
    + by rewrite list_lookup_fmap, Hi.
    + rewrite length_fmap in E2. split_and!; try done.
      unfold verify_merkle_proof. apply constant_time_eq_spec. simpl.
      rewrite merkle_root_cons in E1 by lia. by injection E1 as <-.
  - apply lookup_ge_None in Hi. by rewrite (proj2 (Nat.leb_le _ _)) by done.
Qed.

(** ** What an accepted proof shows *)

Definition combine_input (current : list byte) (e : MerklePathElement) : list byte :=
  if is_left e then el_hash e ++ current else current ++ el_hash e.

Lemma combine_digest current e : combine current e = digest (combine_input current e).
Proof. unfold combine, combine_input. by destruct (is_left e). Qed.

(** The byte strings hashed to verify a proof and to build a tree. *)
Fixpoint path_inputs (current : list byte) (p : list MerklePathElement) : list (list byte) :=
  match p with
  | [] => []
  | e :: p => combine_input current e :: path_inputs (combine current e) p
  end.
Definition verify_inputs (p : MerkleProof) : list (list byte) := leaf p :: path_inputs (hash (leaf p)) (path p).

Fixpoint concat_pairs level : list (list byte) :=
  match level with l :: r :: level => (l ++ r) :: concat_pairs level | _ => [] end.
Fixpoint level_inputs (k : nat) level : list (list byte) :=
  match k with O => [] | S k => concat_pairs (pad level) ++ level_inputs k (step level) end.
Definition tree_inputs leaves : list (list byte) :=
  leaves ++ level_inputs (depth (length leaves)) (hash <$> leaves).

(** Two of them are different and hash alike. *)
Definition collision (xs ys : list (list byte)) : Prop :=
  ∃ a b, a ∈ xs ∧ b ∈ ys ∧ a ≠ b ∧ digest a = digest b.

Lemma collision_mono xs ys xs' ys' : collision xs ys → xs ⊆ xs' → ys ⊆ ys' → collision xs' ys'.
Proof. intros (a & b & Ha & Hb & ? & ?) Hx Hy. exists a, b. split_and!; auto. Qed.

Lemma next_level_pairs level : next_level level = digest <$> concat_pairs level.
Proof. induction level as [|x|x y level IH] using list_two_ind; try done. simpl. by rewrite IH. Qed.

Lemma elem_of_concat_pairs level x :
  x ∈ concat_pairs level → ∃ a b, a ∈ level ∧ b ∈ level ∧ x = a ++ b.
Proof.
  induction level as [|y|y z level IH] using list_two_ind; simpl; try by intros ?%elem_of_nil.
  intros [->|(a & b & Ha & Hb & ->)%IH]%elem_of_cons.
  - exists y, z. set_solver.
  - exists a, b. set_solver.
Qed.

Definition digests level : Prop := Forall (λ h, length h = 32%nat) level.

Lemma digests_step `{!DigestLaws _} level : digests (step level).
Proof. unfold digests, step. rewrite next_level_pairs. apply Forall_fmap, Forall_true. intros x. apply digest_length. Qed.

(** Climbing down one level. *)
Lemma combine_down `{!DigestLaws _} level current e :
  digests level → length current = 32%nat → element_ok e → combine current e ∈ step level →
  current ∈ level ∨ collision [combine_input current e] (concat_pairs (pad level)).
Proof.
  unfold step. rewrite next_level_pairs, combine_digest. intros Hl Hc He (x & Hx & Hin)%list_elem_of_fmap.
  apply elem_of_concat_pairs in Hin as Hin'. destruct Hin' as (a & b & Ha%elem_of_pad & Hb%elem_of_pad & ->).
  destruct (decide (combine_input current e = a ++ b)) as [E|E].
  - left. unfold digests in Hl. rewrite Forall_forall in Hl. unfold combine_input, element_ok in *.
    apply Hl in Ha as Ha'. destruct (is_left e).
    + apply app_inj_1 in E as [_ <-]; [done|congruence].
    + apply app_inj_1 in E as [<- _]; [done|congruence].
  - right. exists (combine_input current e), (a ++ b). split_and!; [by left|done..].
Qed.

Lemma path_down `{!DigestLaws _} p level current :
  digests level → length current = 32%nat → Forall element_ok p →
  foldl combine current p ∈ Nat.iter (length p) step level →
  current ∈ level ∨ collision (path_inputs current p) (level_inputs (length p) level).
Proof.
  intros Hl Hc Hp. revert level current Hl Hc. induction Hp as [|e p He _ IH]; intros level current Hl Hc; [by left|].
  cbn [foldl length path_inputs level_inputs]. rewrite Nat.iter_succ_r. intros Hin.
  destruct (IH (step level) (combine current e)) as [Hs|Hs]; try done.
  - apply digests_step.
  - rewrite combine_digest. apply digest_length.
  - apply combine_down in Hs as [?|Hs]; [by left|right|done..].
    eapply collision_mono; [exact Hs|set_solver..].
  - right. eapply collision_mono; [exact Hs|set_solver..].
Qed.

(** C24 (soundness).  A proof that verifies against the root of a tree and
    whose path has the depth of the tree proves a leaf of the tree, or two
    different byte strings, one hashed to verify it and one to build the tree,
    are a SHA-256 collision. *)
Theorem merkle_sound `{!DigestLaws _} leaves p :
  verify_merkle_proof p = true → root p = merkle_root leaves → (0 < length leaves)%nat →
  Forall element_ok (path p) → length (path p) = depth (length leaves) →
  leaf p ∈ leaves ∨ collision (verify_inputs p) (tree_inputs leaves).
Proof.
  intros Hv%constant_time_eq_spec Hr Hne Hp Hd. unfold verify_inputs, tree_inputs.
  destruct (climb_depth (length leaves) (hash <$> leaves)) as [E _]; [rewrite length_fmap; lia|].
  rewrite merkle_root_cons, length_fmap, <- Hd in E by done.
  destruct (path_down (path p) (hash <$> leaves) (hash (leaf p))) as [Hin|Hc].
  - apply Forall_fmap, Forall_true. intros x. apply digest_length.
  - apply digest_length.
  - done.
  - rewrite <- E, Hv, Hr. by left.
  - apply list_elem_of_fmap in Hin as (l & Hl & Hin). destruct (decide (leaf p = l)) as [->|Hne']; [by left|].
    right. exists (leaf p), l. split_and!; [by left|set_solver|done..].
  - right. rewrite Hd in Hc. eapply collision_mono; [exact Hc|set_solver..].
Qed.

(** ** What the construction leaves open *)

(** Inner nodes pass for leaves.  Leaves and inner nodes are hashed
    alike: folding the first step of an accepted proof into its leaf gives an
    accepted proof of those bytes, so without the depth of the tree a proof
    shows nothing about its leaves. *)
Theorem inner_node_proved l e p r :
  verify_merkle_proof (mkMerkle l (e :: p) r) = true →
  verify_merkle_proof (mkMerkle (combine_input (hash l) e) p r) = true.
Proof. unfold verify_merkle_proof, hash. simpl. by rewrite combine_digest. Qed.

(** Two lists of leaves, one root.  Repeating the last of an odd
    number of leaves, at least three, does not change the root. *)
Theorem repeated_leaf_same_root leaves x :
  (1 < length leaves)%nat → (length leaves mod 2 = 1)%nat → last leaves = Some x →
  merkle_root (leaves ++ [x]) = merkle_root leaves.
Proof.
  intros Hl Hodd Hx. enough ([merkle_root (leaves ++ [x])] = [merkle_root leaves]) as E by by injection E.
  assert (Hlen : length (leaves ++ [x]) = (length leaves + 1)%nat) by by rewrite length_app.
  rewrite <- !merkle_root_cons by lia.
  destruct (climb_depth (length (leaves ++ [x])) (hash <$> leaves ++ [x])) as [-> _]; [rewrite length_fmap; lia|].
  destruct (climb_depth (length leaves) (hash <$> leaves)) as [-> _]; [rewrite length_fmap; lia|].
  rewrite !length_fmap, Hlen, (depth_half (length leaves)) by lia.
  pose proof (Nat.div_mod (length leaves) 2 ltac:(done)) as Hd. rewrite Hodd in Hd.
  assert (Hdep : depth (length leaves + 1) = S (depth ((length leaves + 1) / 2))).
  { rewrite depth_half by lia. do 2 f_equal.
    rewrite <- (Nat.div_unique (length leaves + 1 + 1) 2 (length leaves / 2 + 1) 1),
      <- (Nat.div_unique (length leaves + 1) 2 (length leaves / 2 + 1) 0); lia. }
  rewrite Hdep, !Nat.iter_succ_r. f_equal. unfold step. f_equal. unfold pad.
  rewrite !length_fmap, Hlen, Hodd.
  assert (((length leaves + 1) mod 2 = 0)%nat) as ->
    by (symmetry; apply (Nat.mod_unique _ _ (length leaves / 2 + 1)); lia).
  simpl. rewrite fmap_app. simpl. by rewrite fmap_last, Hx.
Qed.

(** ** Commitments *)

(** What a commitment binds.  Verifying accepts exactly the claims
    and secrets whose concatenation hashes like the committed one: a commitment
    can be opened to every claim that moves the border between the two. *)
Theorem commitment_opens c s c' s' :
  (verify_commitment (commit c s) c' s' = true ↔ digest (c ++ s) = digest (c' ++ s')) ∧
  ∀ k, verify_commitment (commit c s) (take k (c ++ s)) (drop k (c ++ s)) = true.
Proof.
  unfold verify_commitment, commit. split; [apply constant_time_eq_spec|].
  intros k. apply constant_time_eq_spec. simpl. by rewrite take_drop.
Qed.

End merkle.

(** ** Witnesses *)

Module Witness.

#[export] Instance toy_digest : Digest := λ l, take 32 (l ++ replicate 32 (byte_of_Z 0)).
#[export] Instance toy_digest_laws : DigestLaws toy_digest.
Proof.
  intros l. unfold digest, toy_digest. rewrite length_take, length_app, length_replicate. lia.
Defined.

Definition names : list (list byte) := [as_bytes "a"; as_bytes "b"; as_bytes "c"].
Definition proof_c : MerkleProof := default (mkMerkle [] [] []) (merkle_proof names 2).

Lemma proof_c_ok : Forall element_ok (path proof_c).
Proof. repeat constructor. Qed.

Lemma merkle_sound_witness : leaf proof_c ∈ names ∨ collision (verify_inputs proof_c) (tree_inputs names).
Proof.
  apply (merkle_sound names proof_c).
  - by vm_compute.
  - by vm_compute.
  - simpl. lia.
  - exact proof_c_ok.
  - by vm_compute.
Defined.

Lemma inner_node_proved_witness :
  verify_merkle_proof (mkMerkle (combine_input (hash (leaf proof_c)) (mkElement (hash (as_bytes "c")) false))
    (drop 1 (path proof_c)) (root proof_c)) = true.
Proof. apply inner_node_proved. by vm_compute. Defined.

Lemma repeated_leaf_same_root_witness : merkle_root (names ++ [as_bytes "c"]) = merkle_root names.
Proof. apply repeated_leaf_same_root; [simpl; lia | reflexivity | reflexivity]. Defined.

End Witness.
