(* ===== verification/Circuits.v ===== *)
(** Custom proof circuits (verisim-semantic/src/circuit_registry.rs,
    circuit_compiler.rs, verification_keys.rs): the constraint system and its
    check in binary64, the compiler from gates, the registry and the
    verification keys.  JSON and the iteration order of hash maps are
    parameters; SHA-256 is that of [Zkp]. *)

From S2P Require Import Prelude Machine Text Collections Float64 Zkp.

(** ** Data *)

Inductive CircuitError :=
| NotFound (name : string)
| AlreadyExists (name : string)
| CompilationFailed (msg : string)
| VerificationFailed (msg : string)
| InvalidWitness (msg : string)
| LockPoisoned.

Definition circuit_error_display (e : CircuitError) : string :=
  match e with
  | NotFound n => cat ["Circuit not found: "; n]
  | AlreadyExists n => cat ["Circuit already registered: "; n]
  | CompilationFailed m => cat ["Compilation failed: "; m]
  | VerificationFailed m => cat ["Verification failed: "; m]
  | InvalidWitness m => cat ["Invalid witness: "; m]
  | LockPoisoned => "Lock poisoned"
  end.

Inductive GateType := And | Or | Xor | Not | LinearCombination.

(** [HashMap<usize, f64>]: wire to coefficient. *)
Abbreviation Terms := (gmap Z f64).

Record R1CSConstraint := mkConstraint { r_a : Terms; r_b : Terms; r_c : Terms }.

Record CircuitIR := mkIR {
  ir_name : string;
  num_public_inputs : Z;
  num_witness_wires : Z;
  num_wires : Z;
  constraints : list R1CSConstraint;
  parameter_map : gmap string Z;
}.

Record CompiledCircuit := mkCompiled {
  ir : CircuitIR;
  circuit_hash : string;
  verification_key : list byte;
}.

Record WireDef := mkWire { w_name : string; is_public : bool; is_output : bool }.
Record GateDef := mkGate { gate_type : GateType; inputs : list string; output : string }.
Record CircuitDef := mkCircuit {
  def_name : string; wires : list WireDef; gates : list GateDef; parameters : list string }.

(** External code: the order of a map's entries, and serde_json's output. *)
Class TermIter := term_iter : Terms → list (Z * f64).
Class TermIterLaws (I : TermIter) := term_iter_perm (m : Terms) : term_iter m ≡ₚ map_to_list m.
Class CircuitJson := { ir_json : CircuitIR → list byte; constraint_json : R1CSConstraint → list byte }.

(** [{:02x}] of every byte. *)
Definition hex_lower (l : list byte) : string :=
  foldr (λ b s, String (hex_digit (Z_of_byte b / 16)) (String (hex_digit (Z_of_byte b mod 16)) s)) "" l.

(** [HashMap::from] an array: later entries replace earlier ones. *)
Definition terms_from (l : list (Z * f64)) : Terms := foldl (λ m p, <[p.1 := p.2]> m) ∅ l.

(** ** Checking an assignment *)

(** [get(i)] on a slice. *)
Definition slice_get {A} (l : list A) (i : Z) : option A :=
  if (0 <=? i) && (i <? Z.of_nat (length l)) then l !! Z.to_nat i else None.

Definition EPSILON : f64 := f64_lit 1 (10 ^ 10).

Section verify.
Context `{TermIter}.

Definition eval_linear (terms : Terms) (assignment : list f64) : f64 :=
  f64_sum ((λ t, f64_mul t.2 (default f64_zero (slice_get assignment t.1))) <$> term_iter terms).

(** A constraint within the tolerance. *)
Definition satisfied (assignment : list f64) (c : R1CSConstraint) : bool :=
  let a_val := eval_linear (r_a c) assignment in
  let b_val := eval_linear (r_b c) assignment in
  let c_val := eval_linear (r_c c) assignment in
  negb (f64_ltb EPSILON (SFabs (f64_sub (f64_mul a_val b_val) c_val))).

Definition expected_witness_len (c : CircuitIR) : Z := wrap 64 (num_wires c - num_public_inputs c).

Definition verify (circuit : CompiledCircuit) (witness public_inputs : list f64) : result CircuitError bool :=
  let c := ir circuit in
  ensure Z.of_nat (length public_inputs) =? num_public_inputs c
    else InvalidWitness (cat ["Expected "; fmt_u64 (num_public_inputs c); " public inputs, got ";
           fmt_u64 (Z.of_nat (length public_inputs))]);;
  ensure Z.of_nat (length witness) =? expected_witness_len c
    else InvalidWitness (cat ["Expected "; fmt_u64 (expected_witness_len c); " witness values, got ";
           fmt_u64 (Z.of_nat (length witness))]);;
  Ok (forallb (satisfied (public_inputs ++ witness)) (constraints c)).

(** ** The registry *)

Abbreviation CircuitRegistry := (gmap string CompiledCircuit).

Definition registry_new : CircuitRegistry := ∅.

Definition register_circuit (name : string) (circuit : CompiledCircuit) (r : CircuitRegistry) :
    CircuitRegistry * result CircuitError unit :=
  match r !! name with
  | Some _ => (r, Err (AlreadyExists name))
  | None => (<[name := circuit]> r, Ok ())
  end.

Definition get_circuit (name : string) (r : CircuitRegistry) : result CircuitError (option CompiledCircuit) :=
  Ok (r !! name).

Definition verify_with_circuit (name : string) (witness public_inputs : list f64) (r : CircuitRegistry) :
    result CircuitError bool :=
  circuit ← ok_or (r !! name) (NotFound name); verify circuit witness public_inputs.

Definition list_circuits `{MapIter} (r : CircuitRegistry) : result CircuitError (list string) := Ok (map_iter r).*1.

Definition unregister_circuit (name : string) (r : CircuitRegistry) : CircuitRegistry * result CircuitError bool :=
  (delete name r, Ok (bool_decide (is_Some (r !! name)))).

End verify.

Abbreviation CircuitRegistry := (gmap string CompiledCircuit).

(** ** The compiler *)

(** Wires are numbered in the order of their definitions. *)
Definition number_wire (m : gmap string Z) (w : WireDef) : gmap string Z :=
  <[w_name w := Z.of_nat (size m)]> m.
Definition wire_map (ws : list WireDef) : gmap string Z := foldl number_wire ∅ ws.

Definition public_wires (ws : list WireDef) : list string :=
  w_name <$> retain (λ w, is_public w || is_output w) ws.
Definition witness_wires (ws : list WireDef) : list string :=
  w_name <$> retain (λ w, negb (is_public w || is_output w)) ws.

Definition resolve_wire (m : gmap string Z) (name : string) : result CircuitError Z :=
  ok_or (m !! name) (CompilationFailed (cat ["Unknown wire: "; name])).

Definition USIZE_MAX : Z := U64_MAX.
Definition one : f64 := f64_of_u64 1.
Definition minus_one : f64 := f64_neg one.
Definition two : f64 := f64_of_u64 2.

(** The wires of [gate.inputs[0]] and [gate.inputs[1]]; indexing past the end panics. *)
Definition resolve_two (m : gmap string Z) (l : list string) : option (result CircuitError (Z * Z)) :=
  match l with
  | [] => None
  | x :: l =>
      match resolve_wire m x with
      | Err e => Some (Err e)
      | Ok a => match l with
                | [] => None
                | y :: _ => Some (b ← resolve_wire m y; Ok (a, b))
                end
      end
  end.

(** One gate; [None] is a panic. *)
Definition compile_gate (m : gmap string Z) (g : GateDef) : option (result CircuitError R1CSConstraint) :=
  match m !! output g with
  | None => Some (Err (CompilationFailed (cat ["Unknown output wire: "; output g])))
  | Some o =>
      match gate_type g with
      | And =>
          if negb (length (inputs g) =? 2)%nat
          then Some (Err (CompilationFailed "AND gate requires exactly 2 inputs"))
          else r ← resolve_two m (inputs g);
               Some ('(a, b) ← r; Ok (mkConstraint (terms_from [(a, one)]) (terms_from [(b, one)])
                                        (terms_from [(o, one)])))
      | Or =>
          r ← resolve_two m (inputs g);
          Some ('(a, b) ← r; Ok (mkConstraint (terms_from [(a, one)]) (terms_from [(b, one)])
                                   (terms_from [(o, one)])))
      | Xor =>
          r ← resolve_two m (inputs g);
          Some ('(a, b) ← r; Ok (mkConstraint (terms_from [(a, one)]) (terms_from [(b, two)])
                                   (terms_from [(a, one); (b, one); (o, minus_one)])))
      | Not =>
          match inputs g with
          | [x] => Some (a ← resolve_wire m x;
                         Ok (mkConstraint (terms_from [(a, one)]) (terms_from [(USIZE_MAX, one)])
                               (terms_from [(a, one); (o, minus_one)])))
          | _ => Some (Err (CompilationFailed "NOT gate requires exactly 1 input"))
          end
      | LinearCombination =>
          Some (l ← (mapM (λ x, i ← resolve_wire m x; Ok (i, one)) (inputs g) : result CircuitError _);
                Ok (mkConstraint (terms_from l) (terms_from [(USIZE_MAX, one)]) (terms_from [(o, one)])))
      end
  end.

Fixpoint compile_gates (m : gmap string Z) (gs : list GateDef) :
    option (result CircuitError (list R1CSConstraint)) :=
  match gs with
  | [] => Some (Ok [])
  | g :: gs =>
      match compile_gate m g with
      | None => None
      | Some (Err e) => Some (Err e)
      | Some (Ok c) => r ← compile_gates m gs; Some (l ← r; Ok (c :: l))
      end
  end.

Section compile.
Context `{Digest} `{CircuitJson}.

Definition sha256_hex (data : list byte) : string := hex_lower (digest data).

Definition generate_verification_key (c : CircuitIR) : list byte :=
  digest (as_bytes (ir_name c) ++ to_le_bytes 8 (num_public_inputs c) ++ to_le_bytes 8 (num_wires c)
            ++ concat (constraint_json <$> constraints c)).

Definition lower (def : CircuitDef) (cs : list R1CSConstraint) : CircuitIR :=
  let m := wire_map (wires def) in
  mkIR (def_name def) (Z.of_nat (length (public_wires (wires def))))
    (Z.of_nat (length (witness_wires (wires def)))) (Z.of_nat (size m)) cs
    (foldl (λ pm p, match m !! p with Some i => <[p := i]> pm | None => pm end) ∅ (parameters def)).

Definition compile_circuit (def : CircuitDef) : option (result CircuitError CompiledCircuit) :=
  r ← compile_gates (wire_map (wires def)) (gates def);
  Some (cs ← r; let c := lower def cs in
                Ok (mkCompiled c (sha256_hex (ir_json c)) (generate_verification_key c))).

(** ** Verification keys *)

Record VerificationKeyEntry := mkEntry {
  key_circuit : string;
  active_key : list byte;
  key_version : Z;
  fingerprint : string;
  previous_key : option (list byte);
  key_created_at : string;
}.

Definition key_fingerprint (key : list byte) : string := hex_lower (digest key).

(** [now] is the current time in RFC 3339. *)
Definition entry_new (now circuit : string) (key : list byte) : VerificationKeyEntry :=
  mkEntry circuit key 1 (key_fingerprint key) None now.

Definition rotate (now : string) (new_key : list byte) (e : VerificationKeyEntry) : VerificationKeyEntry :=
  mkEntry (key_circuit e) new_key (wrap 64 (key_version e + 1)) (key_fingerprint new_key) (Some (active_key e)) now.

Definition matches (e : VerificationKeyEntry) (key : list byte) : bool :=
  bool_decide (active_key e = key) ||
  match previous_key e with Some prev => bool_decide (prev = key) | None => false end.

Record ExportedKey := mkExported { ex_circuit : string; ex_key : list byte; ex_version : Z; ex_fingerprint : string }.
Record KeyExportBundle := mkBundle { source_instance : string; bundle_keys : list ExportedKey }.

Record VerificationKeyStore := mkStore { keys : gmap string VerificationKeyEntry; instance_id : string }.

Definition store_new (inst : string) : VerificationKeyStore := mkStore ∅ inst.

Definition store_key (now circuit : string) (key : list byte) (s : VerificationKeyStore) :
    VerificationKeyStore * result CircuitError unit :=
  (mkStore (match keys s !! circuit with
            | Some e => <[circuit := rotate now key e]> (keys s)
            | None => <[circuit := entry_new now circuit key]> (keys s)
            end) (instance_id s), Ok ()).

Definition get_key (circuit : string) (s : VerificationKeyStore) : result CircuitError (option (list byte)) :=
  Ok (active_key <$> keys s !! circuit).

Definition get_entry (circuit : string) (s : VerificationKeyStore) : result CircuitError (option VerificationKeyEntry) :=
  Ok (keys s !! circuit).

Definition export_entry (e : VerificationKeyEntry) : ExportedKey :=
  mkExported (key_circuit e) (active_key e) (key_version e) (fingerprint e).

Definition export_keys `{MapIter} (s : VerificationKeyStore) : result CircuitError KeyExportBundle :=
  Ok (mkBundle (instance_id s) (export_entry <$> (map_iter (keys s)).*2)).

(** One key of a bundle, and how many keys were imported so far. *)
Definition import_key (now src : string) (st : gmap string VerificationKeyEntry * nat) (x : ExportedKey) :
    gmap string VerificationKeyEntry * nat :=
  let '(ks, imported) := st in
  let name := cat [src; ":"; ex_circuit x] in
  match ks !! name with
  | Some e => if key_version e <? ex_version x
              then (<[name := rotate now (ex_key x) e]> ks, S imported) else (ks, imported)
  | None => (<[name := entry_new now (ex_circuit x) (ex_key x)]> ks, S imported)
  end.

Definition import_keys (now : string) (b : KeyExportBundle) (s : VerificationKeyStore) :
    VerificationKeyStore * result CircuitError nat :=
  let '(ks, n) := foldl (import_key now (source_instance b)) (keys s, 0%nat) (bundle_keys b) in
  (mkStore ks (instance_id s), Ok n).

Definition list_keys `{MapIter} (s : VerificationKeyStore) : result CircuitError (list string) :=
  Ok (map_iter (keys s)).*1.

End compile.
