(* ===== verification/CircuitTheorems.v ===== *)
(** What a compiled circuit checks, and the rotation and federation of
    verification keys. *)

From S2P Require Import Prelude Machine Text Collections Float64 Zkp Circuits.

(** ** Boolean assignments *)

Definition bit (b : bool) : f64 := if b then one else f64_zero.

(** The value of a wire: the entry of the assignment at the wire's number. *)
Definition value (m : gmap string Z) (bits : list bool) (x : string) : bool :=
  default false (m !! x ≫= slice_get bits).

(** What the constraint of a gate says of the values of its wires. *)
Definition gate_relation (m : gmap string Z) (bits : list bool) (g : GateDef) : bool :=
  let v := value m bits in
  match gate_type g, inputs g with
  | And, [x; y] | Or, [x; y] => Bool.eqb (v (output g)) (v x && v y)
  | Xor, [x; y] => Bool.eqb (v (output g)) (xorb (v x) (v y))
  | Not, [x] => Bool.eqb (v (output g)) (v x)
  | _, _ => true
  end.

(** Gates with the right number of inputs, on different wires where the
    compiler builds a term from several. *)
Definition simple_gate (m : gmap string Z) (g : GateDef) : Prop :=
  match gate_type g, inputs g with
  | And, [x; y] | Or, [x; y] => True
  | Xor, [x; y] => NoDup [m !! x; m !! y; m !! output g]
  | Not, [x] => NoDup [m !! x; m !! output g]
  | _, _ => False
  end.

Lemma slice_get_fmap {A B} (f : A → B) l i : slice_get (f <$> l) i = f <$> slice_get l i.
Proof. unfold slice_get. rewrite length_fmap. case_match; [|done]. apply list_lookup_fmap. Qed.

Lemma default_bit o : default f64_zero (bit <$> o) = bit (default false o).
Proof. by destruct o. Qed.

Lemma terms_from_one i c : terms_from [(i, c)] = {[i := c]}.
Proof. done. Qed.

Lemma perm2 {A} (x y : A) l : l ≡ₚ [x; y] → l = [x; y] ∨ l = [y; x].
Proof. intros Hl%symmetry%permutations_Permutation. simpl in Hl. set_solver. Qed.
Lemma perm3 {A} (x y z : A) l :
  l ≡ₚ [x; y; z] →
  l = [x; y; z] ∨ l = [y; x; z] ∨ l = [y; z; x] ∨ l = [x; z; y] ∨ l = [z; x; y] ∨ l = [z; y; x].
Proof. intros Hl%symmetry%permutations_Permutation. simpl in Hl. set_solver. Qed.

(** Over the numbers 0 and 1 the sums are exact in whatever order. *)
Definition check (a b c : list f64) : bool :=
  negb (f64_ltb EPSILON (SFabs (f64_sub (f64_mul (f64_sum a) (f64_sum b)) (f64_sum c)))).

Lemma check_and a b o : check [f64_mul one (bit a)] [f64_mul one (bit b)] [f64_mul one (bit o)] = Bool.eqb o (a && b).
Proof. by destruct a, b, o; vm_compute. Qed.

Lemma check_xor a b o l :
  l ≡ₚ [f64_mul one (bit a); f64_mul one (bit b); f64_mul minus_one (bit o)] →
  check [f64_mul one (bit a)] [f64_mul two (bit b)] l = Bool.eqb o (xorb a b).
Proof.
  intros Hl%perm3. destruct_or! Hl; subst l; by destruct a, b, o; vm_compute.
Qed.

Lemma check_not a o l :
  l ≡ₚ [f64_mul one (bit a); f64_mul minus_one (bit o)] →
  check [f64_mul one (bit a)] [f64_mul one f64_zero] l = Bool.eqb o a.
Proof.
  intros Hl%perm2. destruct_or! Hl; subst l; by destruct a, o; vm_compute.
Qed.

Section circuits.
Context `{TermIterLaws}.
Implicit Types (m : gmap string Z) (bits : list bool).

(** The products a linear combination adds up. *)
Lemma eval_terms l assignment :
  NoDup l.*1 →
  ∃ k, eval_linear (terms_from l) assignment = f64_sum k ∧
    k ≡ₚ (λ t, f64_mul t.2 (default f64_zero (slice_get assignment t.1))) <$> l.
Proof.
  intros Hl. eexists. split; [done|]. apply fmap_Permutation. rewrite term_iter_perm.
  enough (terms_from l = list_to_map l) as -> by by apply map_to_list_to_map.
  unfold terms_from.
  enough (∀ m0 : Terms, foldl (λ t p, <[p.1:=p.2]> t) m0 l = list_to_map l ∪ m0) as E
    by by rewrite E, (right_id_L ∅ (∪)).
  induction l as [|[i c] l IH]; intros m0; simpl; [by rewrite (left_id_L ∅ (∪))|].
  apply NoDup_cons in Hl as [Hi Hl]. rewrite IH by done.
  rewrite <- insert_union_l, insert_union_r; [done|]. by apply not_elem_of_list_to_map_1.
Qed.

Lemma eval_one i c assignment :
  eval_linear (terms_from [(i, c)]) assignment =
  f64_sum [f64_mul c (default f64_zero (slice_get assignment i))].
Proof.
  destruct (eval_terms [(i, c)] assignment) as (k & -> & Hk); [apply NoDup_singleton|].
  by apply Permutation_singleton_r in Hk as ->.
Qed.

Lemma satisfied_check c assignment a b k :
  eval_linear (r_a c) assignment = f64_sum a → eval_linear (r_b c) assignment = f64_sum b →
  eval_linear (r_c c) assignment = f64_sum k → satisfied assignment c = check a b k.
Proof. intros Ha Hb Hk. unfold satisfied, check. by rewrite Ha, Hb, Hk. Qed.

Lemma resolve_two_Ok m x y l r :
  resolve_two m (x :: y :: l) = Some r → ∀ a b, r = Ok (a, b) → m !! x = Some a ∧ m !! y = Some b.
Proof.
  unfold resolve_two, resolve_wire. intros Hr a b ->.
  destruct (m !! x), (m !! y); simpl in *; naive_solver.
Qed.

Lemma bit_value m bits x i :
  m !! x = Some i → default f64_zero (slice_get (bit <$> bits) i) = bit (value m bits x).
Proof. intros Hx. unfold value. by rewrite Hx, slice_get_fmap, default_bit. Qed.

(** One gate. *)
Lemma gate_checked m bits g c :
  Z.of_nat (length bits) < 2 ^ 64 → simple_gate m g → compile_gate m g = Some (Ok c) →
  satisfied (bit <$> bits) c = gate_relation m bits g.
Proof.
  intros Hlen Hs Hc. unfold compile_gate in Hc. destruct (m !! output g) as [o|] eqn:Ho; [|done].
  unfold simple_gate in Hs. unfold gate_relation.
  destruct (gate_type g) eqn:Et, (inputs g) as [|x [|y [|]]] eqn:Ei; try done; cbn [length Nat.eqb negb] in Hc.
  1,2,3: apply bind_Some in Hc as (r & Hr & Hc); injection Hc as Hc; destruct r as [[a b]|]; [|done];
    injection Hc as <-; destruct (resolve_two_Ok _ _ _ _ _ Hr a b eq_refl) as [Hx Hy].
  - rewrite (satisfied_check (mkConstraint _ _ _) _ _ _ _ (eval_one _ _ _) (eval_one _ _ _) (eval_one _ _ _)).
    rewrite (bit_value m bits x), (bit_value m bits y), (bit_value m bits (output g)) by done. apply check_and.
  - rewrite (satisfied_check (mkConstraint _ _ _) _ _ _ _ (eval_one _ _ _) (eval_one _ _ _) (eval_one _ _ _)).
    rewrite (bit_value m bits x), (bit_value m bits y), (bit_value m bits (output g)) by done. apply check_and.
  - destruct (eval_terms [(a, one); (b, one); (o, minus_one)] (bit <$> bits)) as (k & Hk & Hp).
    { rewrite Hx, Hy, Ho in Hs. by apply (NoDup_fmap_1 Some). }
    rewrite (satisfied_check (mkConstraint _ _ _) _ _ _ k (eval_one _ _ _) (eval_one _ _ _) Hk).
    cbn [fmap list_fmap fst snd] in Hp. rewrite (bit_value m bits x), (bit_value m bits y), (bit_value m bits (output g)) in *
      by done. by apply check_xor.
  - unfold resolve_wire in Hc. destruct (m !! x) as [a|] eqn:Hx; [|done]. injection Hc as <-.
    destruct (eval_terms [(a, one); (o, minus_one)] (bit <$> bits)) as (k & Hk & Hp).
    { rewrite Ho in Hs. by apply (NoDup_fmap_1 Some). }
    rewrite (satisfied_check (mkConstraint _ _ _) _ _ _ k (eval_one _ _ _) (eval_one _ _ _) Hk).
    cbn [fmap list_fmap fst snd] in Hp. rewrite (bit_value m bits x), (bit_value m bits (output g)) in * by done.
    assert (slice_get (bit <$> bits) USIZE_MAX = None) as ->; [|apply check_not, Hp].
    unfold slice_get. rewrite length_fmap.
    assert ((USIZE_MAX <? Z.of_nat (length bits)) = false) as -> by (apply Z.ltb_ge; unfold USIZE_MAX, U64_MAX; lia).
    rewrite andb_false_r. reflexivity.
Qed.

Lemma gates_checked m bits gs cs :
  Z.of_nat (length bits) < 2 ^ 64 → Forall (simple_gate m) gs → compile_gates m gs = Some (Ok cs) →
  forallb (satisfied (bit <$> bits)) cs = forallb (gate_relation m bits) gs.
Proof.
  intros Hlen Hg. revert cs. induction Hg as [|g gs Hs _ IH]; intros cs; simpl; [by intros [= <-]|].
  destruct (compile_gate m g) as [[c|]|] eqn:Ec; try done.
  intros (r & Hr & Hc)%bind_Some. injection Hc as Hc. destruct r as [l|]; [|done]. injection Hc as <-. cbn [forallb].
  by rewrite (gate_checked _ _ _ _ Hlen Hs Ec), (IH l).
Qed.

End circuits.

(** ** Wire numbers *)

Lemma wire_map_snoc ws w : wire_map (ws ++ [w]) = <[w_name w := Z.of_nat (size (wire_map ws))]> (wire_map ws).
Proof. unfold wire_map. by rewrite foldl_app. Qed.

Lemma wire_map_dom ws : dom (wire_map ws) = list_to_set (w_name <$> ws).
Proof.
  induction ws as [|w ws IH] using rev_ind; [done|]. rewrite wire_map_snoc, dom_insert_L, IH, fmap_app.
  rewrite list_to_set_app_L. simpl. set_solver.
Qed.

Lemma wire_map_size ws : NoDup (w_name <$> ws) → size (wire_map ws) = length ws.
Proof.
  intros Hn. rewrite <- size_dom, wire_map_dom, size_list_to_set by done. by rewrite length_fmap.
Qed.

(** Wires are numbered by position, whatever their kind. *)
Lemma wire_map_position ws i w :
  NoDup (w_name <$> ws) → ws !! i = Some w → wire_map ws !! w_name w = Some (Z.of_nat i).
Proof.
  revert i w. induction ws as [|x ws IH] using rev_ind; intros i w; [done|].
  rewrite fmap_app. simpl. intros (Hn & Hx & _)%NoDup_app Hi. rewrite wire_map_snoc.
  apply lookup_snoc_Some in Hi as [[Hi Hw]|[-> ->]].
  - rewrite lookup_insert_ne; [by apply IH|]. intros E. apply (Hx (w_name w)).
    + apply list_elem_of_fmap_2. by eapply list_elem_of_lookup_2.
    + rewrite <- E. by left.
  - by rewrite lookup_insert_eq, wire_map_size.
Qed.

Lemma value_position ws bits i w :
  NoDup (w_name <$> ws) → ws !! i = Some w → value (wire_map ws) bits (w_name w) = default false (bits !! i).
Proof.
  intros Hn Hi. unfold value. rewrite (wire_map_position _ i w) by done. simpl. unfold slice_get.
  rewrite Nat2Z.id. case_match eqn:E; [done|]. apply andb_false_iff in E as [E|E].
  - apply Z.leb_gt in E. lia.
  - apply Z.ltb_ge in E. by rewrite lookup_ge_None_2 by lia.
Qed.

Section compiled.
Context `{TermIterLaws} `{Digest} `{CircuitJson}.

(** What a circuit checks.  For circuits of AND, OR, XOR and NOT gates on
    known wires, a Boolean assignment of the right length is accepted exactly
    when every AND gate holds -- and every OR gate as if it were an AND gate,
    every XOR gate, and every NOT gate as if it copied its input.  The values
    of the wires are read from the public inputs followed by the witness, at
    the position of the wire's definition. *)
Theorem compiled_circuit_checks def c pub wit :
  compile_circuit def = Some (Ok c) →
  Forall (simple_gate (wire_map (wires def))) (gates def) →
  Z.of_nat (length pub) = num_public_inputs (ir c) → Z.of_nat (length wit) = expected_witness_len (ir c) →
  Z.of_nat (length (pub ++ wit)) < 2 ^ 64 →
  verify c (bit <$> wit) (bit <$> pub) =
    Ok (forallb (gate_relation (wire_map (wires def)) (pub ++ wit)) (gates def)) ∧
  (NoDup (w_name <$> wires def) → ∀ i w, wires def !! i = Some w →
     value (wire_map (wires def)) (pub ++ wit) (w_name w) = default false ((pub ++ wit) !! i)).
Proof.
  intros Hd Hg Hp Hw Hlen. split; [|intros Hn i w; by apply value_position].
  revert Hd Hg Hp Hw Hlen. unfold compile_circuit. intros (r & Hr & Hc)%bind_Some Hg Hp Hw Hlen. injection Hc as Hc.
  destruct r as [cs|]; [|done]. injection Hc as <-. unfold verify. cbn [ir] in *.
  rewrite !length_fmap, <- Hp, <- Hw, !Z.eqb_refl, <- fmap_app. cbn [constraints lower].
  by rewrite (gates_checked _ _ _ _ Hlen Hg Hr).
Qed.

End compiled.

(** ** Verification keys *)

#[local] Arguments cat : simpl never.

Section keys.
Context `{Digest}.

(** [store_key] at several times, for one circuit. *)
Definition store_keys (circuit : string) (ks : list (string * list byte)) (s : VerificationKeyStore) :
    VerificationKeyStore :=
  foldl (λ s p, (store_key p.1 circuit p.2 s).1) s ks.

(** Rotation.  After storing keys for a new circuit the last one is
    active, the one before it is the previous key, the version counts them, and
    exactly these two keys match; the keys of other circuits are untouched. *)
Theorem rotation_window circuit ks k now s :
  keys s !! circuit = None → Z.of_nat (length ks) + 1 < 2 ^ 64 →
  let s' := store_keys circuit (ks ++ [(now, k)]) s in
  (∃ e, get_entry circuit s' = Ok (Some e) ∧ active_key e = k ∧ previous_key e = snd <$> last ks ∧
     key_version e = Z.of_nat (length ks) + 1 ∧ fingerprint e = key_fingerprint k ∧
     ∀ x, matches e x = true ↔ x = k ∨ Some x = snd <$> last ks) ∧
  ∀ c, c ≠ circuit → keys s' !! c = keys s !! c.
Proof.
  intros Hs Hn. cbv zeta.
  assert (Hm : ∀ e x, matches e x = true ↔ x = active_key e ∨ Some x = previous_key e).
  { intros e x. unfold matches. rewrite orb_true_iff, bool_decide_eq_true. destruct (previous_key e); [|naive_solver].
    rewrite bool_decide_eq_true. naive_solver. }
  revert k now Hn. induction ks as [|[now0 k0] ks IH] using rev_ind; intros k now Hn.
  - unfold store_keys, get_entry. simpl. rewrite Hs. simpl. split; [|intros; by rewrite lookup_insert_ne].
    exists (entry_new now circuit k). rewrite lookup_insert_eq. split_and!; try done.
  - rewrite length_app in *. simpl in Hn. destruct (IH k0 now0) as [(e & He & Ha & Hp & Hv & _) Ho]; [lia|].
    unfold store_keys in *. rewrite foldl_app. simpl. unfold get_entry in He. injection He as He.
    unfold store_key, get_entry. simpl. rewrite He. simpl. split; [|intros; rewrite lookup_insert_ne by done; auto].
    eexists. split; [by rewrite lookup_insert_eq|]. rewrite last_snoc. simpl.
    split_and!; [done|by rewrite Ha|rewrite Hv, wrap_small; [lia|split; lia]|done|].
    intros x. rewrite Hm. simpl. by rewrite Ha.
Qed.

Lemma import_one now src x s :
  let name := cat [src; ":"; ex_circuit x] in
  keys (import_keys now (mkBundle src [x]) s).1 =
    match keys s !! name with
    | Some e => if key_version e <? ex_version x then <[name := rotate now (ex_key x) e]> (keys s) else keys s
    | None => <[name := entry_new now (ex_circuit x) (ex_key x)]> (keys s)
    end.
Proof.
  unfold import_keys, import_key. cbn [source_instance bundle_keys foldl].
  destruct (keys s !! _) as [e|]; [destruct (key_version e <? ex_version x)|]; reflexivity.
Qed.

(** Importing again.  An imported key starts at version 1 whatever
    version was exported, so importing the same bundle again rotates the same
    key in as often as its version says; any older previous key is lost. *)
Theorem import_repeats now src x n s :
  keys s !! cat [src; ":"; ex_circuit x] = None → 1 ≤ ex_version x < 2 ^ 64 →
  let import s := (import_keys now (mkBundle src [x]) s).1 in
  ∃ e, keys (Nat.iter (S n) import s) !! cat [src; ":"; ex_circuit x] = Some e ∧
    key_version e = Z.min (Z.of_nat n + 1) (ex_version x) ∧ active_key e = ex_key x ∧
    previous_key e = (if key_version e =? 1 then None else Some (ex_key x)).
Proof.
  intros Hs Hv. cbv zeta. induction n as [|n (e & He & Hve & Ha & Hp)].
  - rewrite Nat.iter_succ, import_one. cbn [Nat.iter nat_rect]. rewrite Hs, lookup_insert_eq.
    eexists. split; [done|]. simpl. split_and!; try done. lia.
  - rewrite Nat.iter_succ, import_one, He. destruct (Z.ltb_spec (key_version e) (ex_version x)) as [Hl|Hl].
    + eexists. split; [by rewrite lookup_insert_eq|]. simpl. rewrite wrap_small by (split; lia).
      split_and!; [lia|done|]. rewrite Ha. by rewrite (proj2 (Z.eqb_neq _ _)) by lia.
    + exists e. split_and!; [done|lia|done|done].
Qed.

End keys.

(** ** Witnesses *)

Module Witness.

#[export] Instance term_order : TermIter := λ m, map_to_list m.
#[export] Instance term_order_laws : TermIterLaws term_order.
Proof. intros m. reflexivity. Defined.
#[export] Instance toy_digest : Digest := λ l, take 32 (l ++ replicate 32 (byte_of_Z 0)).
#[export] Instance json : CircuitJson := {| ir_json := λ c, as_bytes (ir_name c); constraint_json := λ _, [] |}.

(** [out = (x OR y)], with a NOT gate on [out]. *)
Definition or_not : CircuitDef :=
  mkCircuit "or-not" [mkWire "out" false true; mkWire "neg" true false; mkWire "x" false false; mkWire "y" false false]
    [mkGate Or ["x"; "y"] "out"; mkGate Not ["out"] "neg"] [].

Definition compiled : CompiledCircuit :=
  match compile_circuit or_not with
  | Some (Ok c) => c | _ => mkCompiled (mkIR "" 0 0 0 [] ∅) "" [] end.

(** [x = true, y = false] is not accepted with [out = true], but with [out = false = neg]. *)
Lemma compiled_circuit_checks_witness :
  verify compiled (bit <$> [true; false]) (bit <$> [true; false]) = Ok false ∧
  verify compiled (bit <$> [true; false]) (bit <$> [false; false]) = Ok true.
Proof.
  assert (Forall (simple_gate (wire_map (wires or_not))) (gates or_not)) as Hg.
  { constructor; [exact I|]. constructor; [|constructor]. apply (bool_decide_unpack _). by vm_compute. }
  split.
  - destruct (compiled_circuit_checks or_not compiled [true; false] [true; false]) as [-> _];
      first [exact Hg | vm_compute; reflexivity].
  - destruct (compiled_circuit_checks or_not compiled [false; false] [true; false]) as [-> _];
      first [exact Hg | vm_compute; reflexivity].
Defined.

Lemma rotation_window_witness :
  ∃ e, get_entry "c" (store_keys "c" [("t0", as_bytes "k0"); ("t1", as_bytes "k1")] (store_new "i")) = Ok (Some e) ∧
    matches e (as_bytes "k0") = true.
Proof.
  destruct (rotation_window "c" [("t0", as_bytes "k0")] (as_bytes "k1") "t1" (store_new "i")) as [(e & He & _ & _ & _ & _ & Hm) _].
  - reflexivity.
  - reflexivity.
  - exists e. split; [exact He|]. apply Hm. by right.
Defined.

Lemma import_repeats_witness :
  ∃ e, keys (Nat.iter 2 (λ s, (import_keys "t" (mkBundle "peer" [mkExported "c" (as_bytes "k") 3 ""]) s).1) (store_new "i"))
         !! "peer:c"%string = Some e ∧ key_version e = 2.
Proof.
  destruct (import_repeats "t" "peer" (mkExported "c" (as_bytes "k") 3 "") 1 (store_new "i")) as (e & He & Hv & _).
  - reflexivity.
  - split; [discriminate | reflexivity].
  - exists e. split; [exact He | exact Hv].
Defined.

End Witness.
