(* ===== verification/ZkpBridge.v ===== *)
(** Privacy-aware proofs (verisim-semantic/src/zkp_bridge.rs): generation and
    verification at the three privacy levels, and what verification depends
    on.  [now] is the generation time in RFC 3339. *)

From S2P Require Import Prelude Machine Text Collections Float64 Zkp Circuits ZkpTheorems.

Inductive PrivacyLevel := Public | Private | ZeroKnowledge.

Definition privacy_default : PrivacyLevel := Public.
Definition privacy_display (l : PrivacyLevel) : string :=
  match l with Public => "Public" | Private => "Private" | ZeroKnowledge => "ZeroKnowledge" end.

Record ZkpProofRequest := mkRequest {
  claim : list byte;
  privacy_level : PrivacyLevel;
  circuit_name : option string;
  witness : option (list f64);
  public_inputs : option (list f64);
  membership_set : option (list (list byte));
  membership_index : option nat;
}.

Record CircuitVerificationResult := mkResult {
  res_circuit : string; res_satisfied : bool; constraints_checked : nat }.

Record ZkpProof := mkProof {
  proof_level : PrivacyLevel;
  proof_data : VerifiableProofData;
  blinding_nonce : option (list byte);
  proof_commitment : option (list byte);
  proof_merkle_root : option (list byte);
  circuit_result : option CircuitVerificationResult;
  generated_at : string;
}.

Section bridge.
Context `{Digest}.

Definition generate_nonce (c : list byte) : list byte := digest (hash c ++ as_bytes "verisimdb-zkp-nonce-v1").

Definition generate_public_proof (now : string) (r : ZkpProofRequest) : result CircuitError ZkpProof :=
  Ok (mkProof Public (ContentIntegrity (hash (claim r))) None None None None now).

Definition out_of_bounds (index : nat) (set : list (list byte)) : CircuitError :=
  InvalidWitness (cat ["Membership index "; fmt_u64 (Z.of_nat index); " out of bounds for set of size ";
                       fmt_u64 (Z.of_nat (length set))]).

(** The inclusion proof of the requested member, or the bare commitment;
    [blind] is applied to the leaves. *)
Definition membership (blind : list byte → list byte) (c : HashCommitment) (r : ZkpProofRequest) :
    result CircuitError (VerifiableProofData * option (list byte)) :=
  match membership_set r, membership_index r with
  | Some set, Some index =>
      let leaves := blind <$> set in
      let root := merkle_root leaves in
      match merkle_proof leaves index with
      | Some mp => Ok (MerkleInclusion mp, Some root)
      | None => Err (out_of_bounds index set)
      end
  | _, _ => Ok (Commitment (commitment c), None)
  end.

Definition generate_private_proof (now : string) (r : ZkpProofRequest) : result CircuitError ZkpProof :=
  let nonce := generate_nonce (claim r) in
  let c := commit (claim r) nonce in
  '(data, root) ← membership (λ l, l) c r;
  Ok (mkProof Private data (Some nonce) (Some (commitment c)) root None now).

Definition generate_zk_proof (now : string) (r : ZkpProofRequest) : result CircuitError ZkpProof :=
  let nonce := generate_nonce (claim r) in
  let c := commit (claim r) nonce in
  '(data, root) ← membership (λ l, commitment (commit l nonce)) c r;
  Ok (mkProof ZeroKnowledge data (Some nonce) (Some (commitment c)) root None now).

Definition generate_zkp (now : string) (r : ZkpProofRequest) : result CircuitError ZkpProof :=
  match privacy_level r with
  | Public => generate_public_proof now r
  | Private => generate_private_proof now r
  | ZeroKnowledge => generate_zk_proof now r
  end.

Definition set_circuit_result (x : CircuitVerificationResult) (p : ZkpProof) : ZkpProof :=
  mkProof (proof_level p) (proof_data p) (blinding_nonce p) (proof_commitment p) (proof_merkle_root p)
    (Some x) (generated_at p).

Definition generate_zkp_with_circuit `{TermIter} (now : string) (r : ZkpProofRequest) (registry : CircuitRegistry) :
    result CircuitError ZkpProof :=
  p ← generate_zkp now r;
  match circuit_name r with
  | None => Ok p
  | Some name =>
      ok ← verify_with_circuit name (default [] (witness r)) (default [] (public_inputs r)) registry;
      c ← get_circuit name registry;
      let checked := match c with Some c => length (constraints (ir c)) | None => 0%nat end in
      Ok (set_circuit_result (mkResult name ok checked) p)
  end.

(** ** Verification *)

Definition verify_private_proof (p : ZkpProof) (c : list byte) : bool :=
  let opened := match blinding_nonce p, proof_commitment p with
                | Some nonce, Some h => bool_decide (commitment (commit c nonce) = h)
                | _, _ => true end in
  opened &&
  match proof_data p with
  | MerkleInclusion mp => verify_merkle_proof mp
  | Commitment _ => true
  | other => verify_proof other c
  end.

Definition verify_zk_proof (p : ZkpProof) : bool :=
  match proof_data p with
  | MerkleInclusion mp => verify_merkle_proof mp
  | Commitment _ => true
  | _ => false
  end.

Definition verify_zkp (p : ZkpProof) (c : list byte) : bool :=
  match proof_level p with
  | Public => verify_proof (proof_data p) c
  | Private => verify_private_proof p c
  | ZeroKnowledge => verify_zk_proof p
  end.

End bridge.

(** ** Theorems *)

Section theorems.
Context `{Digest}.

Lemma membership_cases blind c r :
  match membership blind c r with
  | Ok (MerkleInclusion mp, root) => verify_merkle_proof mp = true ∧ root = Some (Zkp.root mp) ∧
      ∃ set i, membership_set r = Some set ∧ membership_index r = Some i ∧
        blind <$> set !! i = Some (leaf mp) ∧ Zkp.root mp = merkle_root (blind <$> set)
  | Ok (d, root) => d = Commitment (commitment c) ∧ root = None ∧
      (membership_set r = None ∨ membership_index r = None)
  | Err e => ∃ set i, membership_set r = Some set ∧ membership_index r = Some i ∧ (length set ≤ i)%nat ∧
      e = out_of_bounds i set
  end.
Proof.
  unfold membership. destruct (membership_set r) as [set|]; [|by auto].
  destruct (membership_index r) as [i|]; [|by auto].
  pose proof (merkle_complete (blind <$> set) i) as Hc. rewrite list_lookup_fmap in Hc.
  destruct (set !! i) as [l|] eqn:E; simpl in Hc.
  - destruct Hc as (mp & -> & Hl & Hr & _ & Hv). split_and!; [done|by rewrite Hr|].
    exists set, i. rewrite E, Hl. done.
  - rewrite Hc. exists set, i. apply lookup_ge_None in E. done.
Qed.

(** What generation returns. *)
Lemma generated_verifies now r :
  match generate_zkp now r with
  | Ok p => verify_zkp p (claim r) = true ∧ proof_level p = privacy_level r
  | Err e => privacy_level r ≠ Public ∧ ∃ set i, membership_set r = Some set ∧ membership_index r = Some i ∧
      (length set ≤ i)%nat ∧ e = out_of_bounds i set
  end.
Proof.
  unfold generate_zkp, generate_private_proof, generate_zk_proof, generate_public_proof.
  destruct (privacy_level r).
  - split; [|done]. by apply constant_time_eq_spec.
  - pose proof (membership_cases (λ l, l) (commit (claim r) (generate_nonce (claim r))) r) as Hm.
    destruct (membership _ _ _) as [[d root]|e]; [|by destruct Hm as (set & i & Hm); split; [|exists set, i]].
    split; [|done]. unfold verify_zkp, verify_private_proof. simpl. rewrite bool_decide_true by done.
    destruct d; [done|naive_solver..].
  - pose proof (membership_cases (λ l, commitment (commit l (generate_nonce (claim r))))
      (commit (claim r) (generate_nonce (claim r))) r) as Hm.
    destruct (membership _ _ _) as [[d root]|e]; [|by destruct Hm as (set & i & Hm); split; [|exists set, i]].
    split; [|done]. unfold verify_zkp, verify_zk_proof. simpl. destruct d; [done|naive_solver..].
Qed.

(** The parts a generated proof carries. *)
Lemma generated_parts now r p :
  generate_zkp now r = Ok p →
  (∀ mp, proof_data p = MerkleInclusion mp → proof_merkle_root p = Some (Zkp.root mp)) ∧
  (∀ h, proof_commitment p = Some h → ∃ nonce, blinding_nonce p = Some nonce ∧ h = digest (claim r ++ nonce)).
Proof.
  unfold generate_zkp, generate_private_proof, generate_zk_proof, generate_public_proof.
  destruct (privacy_level r).
  - by intros [= <-].
  - pose proof (membership_cases (λ l, l) (commit (claim r) (generate_nonce (claim r))) r) as Hm.
    destruct (membership _ _ _) as [[d root]|e]; [|done]. intros [= <-].
    split; [intros mp E; simpl in E; subst d; naive_solver|intros h [= <-]; by eexists].
  - pose proof (membership_cases (λ l, commitment (commit l (generate_nonce (claim r))))
      (commit (claim r) (generate_nonce (claim r))) r) as Hm.
    destruct (membership _ _ _) as [[d root]|e]; [|done]. intros [= <-].
    split; [intros mp E; simpl in E; subst d; naive_solver|intros h [= <-]; by eexists].
Qed.

(** Proofs are complete.  Generating a proof fails exactly when a
    non-public proof asks for a member outside the set; a generated proof
    verifies for its claim at every privacy level, its commitment is to the
    claim, and its root is that of the set whose (blinded) member it includes. *)
Theorem generated_proofs_verify now r :
  match generate_zkp now r with
  | Ok p =>
      verify_zkp p (claim r) = true ∧ proof_level p = privacy_level r ∧
      (∀ mp, proof_data p = MerkleInclusion mp → proof_merkle_root p = Some (Zkp.root mp)) ∧
      (∀ h, proof_commitment p = Some h → ∃ nonce, blinding_nonce p = Some nonce ∧ h = digest (claim r ++ nonce))
  | Err e => privacy_level r ≠ Public ∧ ∃ set i, membership_set r = Some set ∧ membership_index r = Some i ∧
      (length set ≤ i)%nat ∧ e = out_of_bounds i set
  end.
Proof.
  pose proof (generated_verifies now r) as Hv. destruct (generate_zkp now r) as [p|e] eqn:E; [|exact Hv].
  destruct Hv as [Hv Hl], (generated_parts now r p E) as [Hr Hc]. by split_and!.
Qed.

(** The claim is not part of what is proved.  A private or
    zero-knowledge proof of membership is made and accepted for a claim that
    is not in the set at all; zero-knowledge verification never looks at the
    claim, and accepts every bare commitment. *)
Theorem membership_of_another_claim now r set i c :
  privacy_level r ≠ Public → membership_set r = Some set → membership_index r = Some i → (i < length set)%nat →
  ∃ p, generate_zkp now r = Ok p ∧ verify_zkp p (claim r) = true ∧
    (privacy_level r = ZeroKnowledge → verify_zkp p c = true ∧ ∀ h n a g m,
       verify_zkp (mkProof ZeroKnowledge (Commitment h) n a m g now) c = true).
Proof.
  intros Hl Hs Hi Hlt. pose proof (generated_verifies now r) as Hg.
  destruct (generate_zkp now r) as [p|e].
  - exists p. destruct Hg as (Hv & Hp). split_and!; [done..|]. intros Hz. split; [|done].
    unfold verify_zkp in *. rewrite Hp, Hz in *. done.
  - destruct Hg as (_ & set' & i' & Hs' & Hi' & Hge & _). simplify_eq. lia.
Qed.

End theorems.

(** ** Witnesses *)

Module Witness.

#[export] Instance toy_digest : Digest := λ l, take 32 (l ++ replicate 32 (byte_of_Z 0)).

Lemma membership_of_another_claim_witness :
  ∃ p, generate_zkp "t" (mkRequest (as_bytes "mallory") ZeroKnowledge None None None
                            (Some [as_bytes "alice"; as_bytes "bob"]) (Some 0%nat)) = Ok p ∧
    verify_zkp p (as_bytes "eve") = true.
Proof.
  destruct (membership_of_another_claim "t" (mkRequest (as_bytes "mallory") ZeroKnowledge None None None
    (Some [as_bytes "alice"; as_bytes "bob"]) (Some 0%nat)) [as_bytes "alice"; as_bytes "bob"] 0 (as_bytes "eve"))
    as (p & Hg & _ & Hz).
  - discriminate.
  - reflexivity.
  - reflexivity.
  - simpl. lia.
  - exists p. split; [exact Hg|]. by apply Hz.
Defined.

End Witness.
