(* ===== verification/Storage.v ===== *)
(** The key-value storage layer (verisim-storage/src/): the backend interface
    with what it promises ([backend.rs], [error.rs]), the in-memory backend
    ([memory.rs]), the typed store over any backend ([typed.rs]) and the
    metering wrapper ([metrics.rs]).  serde_json and lossy UTF-8 decoding are
    parameters. *)

From S2P Require Import Prelude Machine Text Collections Float64.

Abbreviation bytes := (list byte).

#[export] Instance byte_countable : Countable byte.
Proof. refine (inj_countable Byte.to_N Byte.of_N _). apply Byte.of_to_N. Defined.

Inductive StorageError :=
| Io (msg : string)
| NotFound (key : string)
| SerializationError (msg : string)
| CorruptedData (msg : string)
| BackendUnavailable (msg : string)
| KeyTooLarge (size max : Z)
| ValueTooLarge (size max : Z).

Definition storage_error_display (e : StorageError) : string :=
  match e with
  | Io m => cat ["I/O error: "; m]
  | NotFound k => cat ["key not found: "; k]
  | SerializationError m => cat ["serialization error: "; m]
  | CorruptedData m => cat ["corrupted data: "; m]
  | BackendUnavailable m => cat ["backend unavailable: "; m]
  | KeyTooLarge s m => cat ["key too large: "; fmt_u64 s; " bytes (max: "; fmt_u64 m; ")"]
  | ValueTooLarge s m => cat ["value too large: "; fmt_u64 s; " bytes (max: "; fmt_u64 m; ")"]
  end.

(** ** The interface *)

Class StorageBackend (B : Type) := {
  b_get : bytes → SR B StorageError (option bytes);
  b_put : bytes → bytes → SR B StorageError unit;
  b_delete : bytes → SR B StorageError bool;
  b_exists : bytes → SR B StorageError bool;
  b_scan_prefix : bytes → nat → SR B StorageError (list (bytes * bytes));
  b_multi_get : list bytes → SR B StorageError (list (option bytes));
  b_batch_put : list (bytes * bytes) → SR B StorageError unit;
  b_flush : SR B StorageError unit;
  b_name : B → string;
  b_approximate_size : SR B StorageError (option Z);
}.

(** Byte strings in lexicographic order. *)
Fixpoint bytes_leb (a b : bytes) : bool :=
  match a, b with
  | [], _ => true
  | _, [] => false
  | x :: a, y :: b =>
      if Z_of_byte x <? Z_of_byte y then true
      else if Z_of_byte y <? Z_of_byte x then false else bytes_leb a b
  end.

Fixpoint bytes_starts_with (p k : bytes) : bool :=
  match p, k with
  | [], _ => true
  | x :: p, y :: k => (Z_of_byte x =? Z_of_byte y) && bytes_starts_with p k
  | _, [] => false
  end.

(** The entries of a [BTreeMap], in the order of their keys. *)
Definition key_ltb (x y : bytes * bytes) : bool := negb (bytes_leb y.1 x.1).
Definition btree_iter (m : gmap bytes bytes) : list (bytes * bytes) := sort_by key_ltb (map_to_list m).

(** Later entries overwrite earlier ones. *)
Definition put_all (entries : list (bytes * bytes)) (m : gmap bytes bytes) : gmap bytes bytes :=
  foldl (λ m e, <[e.1 := e.2]> m) m entries.

(** What a scan promises: the entries under the prefix, in order, at most [limit]. *)
Definition scan_spec (p : bytes) (limit : nat) (m : gmap bytes bytes) : list (bytes * bytes) :=
  take limit (retain (λ e, bytes_starts_with p e.1) (btree_iter m)).

(** What the interface promises of the contents: a successful call answers
    from them and changes them as it says; a failed one leaves them alone. *)
Class StorageLaws {B} (S : StorageBackend B) (contents : B → gmap bytes bytes) := {
  law_get k m : sr_triple (λ s, contents s = m) (b_get k) (λ v s, v = m !! k ∧ contents s = m)
                  (λ _ s, contents s = m);
  law_put k v m : sr_triple (λ s, contents s = m) (b_put k v) (λ _ s, contents s = <[k := v]> m)
                    (λ _ s, contents s = m);
  law_delete k m : sr_triple (λ s, contents s = m) (b_delete k)
                     (λ b s, b = bool_decide (is_Some (m !! k)) ∧ contents s = delete k m)
                     (λ _ s, contents s = m);
  law_exists k m : sr_triple (λ s, contents s = m) (b_exists k)
                     (λ b s, b = bool_decide (is_Some (m !! k)) ∧ contents s = m) (λ _ s, contents s = m);
  law_scan p limit m : sr_triple (λ s, contents s = m) (b_scan_prefix p limit)
                         (λ l s, l = scan_spec p limit m ∧ contents s = m) (λ _ s, contents s = m);
  law_multi_get ks m : sr_triple (λ s, contents s = m) (b_multi_get ks)
                         (λ l s, l = (m !!.) <$> ks ∧ contents s = m) (λ _ s, contents s = m);
  law_batch es m : sr_triple (λ s, contents s = m) (b_batch_put es) (λ _ s, contents s = put_all es m)
                     (λ _ s, contents s = m);
  law_flush m : sr_triple (λ s, contents s = m) b_flush (λ _ s, contents s = m) (λ _ s, contents s = m);
  law_size m : sr_triple (λ s, contents s = m) b_approximate_size (λ _ s, contents s = m) (λ _ s, contents s = m);
}.

(** ** The in-memory backend *)

Module Memory.

Definition InMemoryBackend := gmap bytes bytes.

Definition new : InMemoryBackend := ∅.
Definition len (m : InMemoryBackend) : nat := size m.
Definition is_empty (m : InMemoryBackend) : bool := (size m =? 0)%nat.

Definition get (k : bytes) : SR InMemoryBackend StorageError (option bytes) := sr_read (λ m, Ok (m !! k)).
Definition put (k v : bytes) : SR InMemoryBackend StorageError unit := sr_modify (λ m, <[k := v]> m).
Definition remove (k : bytes) : SR InMemoryBackend StorageError bool :=
  λ m, (delete k m, Ok (bool_decide (is_Some (m !! k)))).
Definition contains_key (k : bytes) : SR InMemoryBackend StorageError bool :=
  sr_read (λ m, Ok (bool_decide (is_Some (m !! k)))).

(** [range(prefix..)] starts at the first key that is not below the prefix. *)
Definition range_from (p : bytes) (m : InMemoryBackend) : list (bytes * bytes) :=
  retain (λ e, bytes_leb p e.1) (btree_iter m).

Fixpoint take_while {A} (f : A → bool) (l : list A) : list A :=
  match l with [] => [] | x :: l => if f x then x :: take_while f l else [] end.

Definition scan_prefix (p : bytes) (limit : nat) : SR InMemoryBackend StorageError (list (bytes * bytes)) :=
  sr_read (λ m, Ok (take limit (take_while (λ e, bytes_starts_with p e.1) (range_from p m)))).

Definition multi_get (ks : list bytes) : SR InMemoryBackend StorageError (list (option bytes)) :=
  sr_read (λ m, Ok ((m !!.) <$> ks)).
Definition batch_put (es : list (bytes * bytes)) : SR InMemoryBackend StorageError unit :=
  sr_modify (put_all es).
Definition flush : SR InMemoryBackend StorageError unit := mret ().
Definition name : string := "in-memory".

Definition entry_size (e : bytes * bytes) : Z := Z.of_nat (length e.1 + length e.2).
Definition sum_u64 (l : list Z) : Z := foldl (λ a b, wrap 64 (a + b)) 0 l.
Definition approximate_size : SR InMemoryBackend StorageError (option Z) :=
  sr_read (λ m, Ok (Some (sum_u64 (entry_size <$> btree_iter m)))).

#[export] Instance backend : StorageBackend InMemoryBackend := {|
  b_get := get; b_put := put; b_delete := remove; b_exists := contains_key;
  b_scan_prefix := scan_prefix; b_multi_get := multi_get; b_batch_put := batch_put;
  b_flush := flush; b_name := λ _, name; b_approximate_size := approximate_size |}.

End Memory.

(** ** The metering wrapper *)

Module Metrics.

Record BackendStats := mkStats {
  get_count : Z; put_count : Z; delete_count : Z; scan_count : Z;
  get_latency_sum_ms : f64; put_latency_sum_ms : f64;
  total_bytes_read : Z; total_bytes_written : Z }.

Definition stats_default : BackendStats := mkStats 0 0 0 0 f64_zero f64_zero 0 0.

(** [timer]: the elapsed seconds the calls to come will measure. *)
Record MetricsBackend (B : Type) := mkMetrics { inner : B; stats : BackendStats; timer : list f64 }.
#[global] Arguments mkMetrics {B}.
#[global] Arguments inner {B}.
#[global] Arguments stats {B}.
#[global] Arguments timer {B}.

Section metrics.
Context {B : Type} `{!StorageBackend B}.

Definition new (b : B) (timer : list f64) : MetricsBackend B := mkMetrics b stats_default timer.
Definition stats_of (s : MetricsBackend B) : BackendStats := stats s.
Definition reset_stats (s : MetricsBackend B) : MetricsBackend B := mkMetrics (inner s) stats_default (timer s).

Definition add_u64 (a : Z) (n : Z) : Z := wrap 64 (a + n).

(** [elapsed * 1000.0] of a measured call. *)
Definition elapsed_ms (t : list f64) : f64 := f64_mul (default f64_zero (head t)) (f64_of_u64 1000).

(** One call of the inner backend, timed, and the update of the statistics
    from the milliseconds and the result. *)
Definition metered {A} (m : SR B StorageError A)
    (upd : f64 → result StorageError A → BackendStats → BackendStats) : SR (MetricsBackend B) StorageError A :=
  λ s, let '(b, r) := m (inner s) in (mkMetrics b (upd (elapsed_ms (timer s)) r (stats s)) (tail (timer s)), r).

(** A call that is not timed. *)
Definition counted {A} (m : SR B StorageError A)
    (upd : result StorageError A → BackendStats → BackendStats) : SR (MetricsBackend B) StorageError A :=
  λ s, let '(b, r) := m (inner s) in (mkMetrics b (upd r (stats s)) (timer s), r).

Definition on_get (n : Z) (ms : f64) (read : Z) (s : BackendStats) : BackendStats :=
  mkStats (add_u64 (get_count s) n) (put_count s) (delete_count s) (scan_count s)
    (f64_add (get_latency_sum_ms s) ms) (put_latency_sum_ms s)
    (add_u64 (total_bytes_read s) read) (total_bytes_written s).
Definition on_put (n : Z) (ms : f64) (written : Z) (s : BackendStats) : BackendStats :=
  mkStats (get_count s) (add_u64 (put_count s) n) (delete_count s) (scan_count s)
    (get_latency_sum_ms s) (f64_add (put_latency_sum_ms s) ms)
    (total_bytes_read s) (add_u64 (total_bytes_written s) written).
Definition on_delete (s : BackendStats) : BackendStats :=
  mkStats (get_count s) (put_count s) (add_u64 (delete_count s) 1) (scan_count s)
    (get_latency_sum_ms s) (put_latency_sum_ms s) (total_bytes_read s) (total_bytes_written s).
Definition on_scan (read : Z) (s : BackendStats) : BackendStats :=
  mkStats (get_count s) (put_count s) (delete_count s) (add_u64 (scan_count s) 1)
    (get_latency_sum_ms s) (put_latency_sum_ms s) (add_u64 (total_bytes_read s) read) (total_bytes_written s).

Definition zlen {A} (l : list A) : Z := Z.of_nat (length l).

Definition get (k : bytes) : SR (MetricsBackend B) StorageError (option bytes) :=
  metered (b_get k) (λ ms r, on_get 1 ms (match r with Ok (Some v) => zlen v | _ => 0 end)).
Definition put (k v : bytes) : SR (MetricsBackend B) StorageError unit :=
  metered (b_put k v) (λ ms r, on_put 1 ms (if is_ok r then zlen v else 0)).
Definition remove (k : bytes) : SR (MetricsBackend B) StorageError bool :=
  counted (b_delete k) (λ _, on_delete).
Definition contains_key (k : bytes) : SR (MetricsBackend B) StorageError bool :=
  counted (b_exists k) (λ _ s, s).
Definition scan_prefix (p : bytes) (limit : nat) : SR (MetricsBackend B) StorageError (list (bytes * bytes)) :=
  counted (b_scan_prefix p limit)
    (λ r, on_scan (match r with Ok l => Memory.sum_u64 (Memory.entry_size <$> l) | Err _ => 0 end)).
Definition multi_get (ks : list bytes) : SR (MetricsBackend B) StorageError (list (option bytes)) :=
  metered (b_multi_get ks)
    (λ ms r, on_get (zlen ks) ms
       (match r with Ok l => Memory.sum_u64 (zlen <$> omap (λ v, v) l) | Err _ => 0 end)).
Definition batch_put (es : list (bytes * bytes)) : SR (MetricsBackend B) StorageError unit :=
  metered (b_batch_put es)
    (λ ms r, on_put (zlen es) ms (if is_ok r then Memory.sum_u64 ((λ e, zlen e.2) <$> es) else 0)).
Definition flush : SR (MetricsBackend B) StorageError unit := counted b_flush (λ _ s, s).
Definition approximate_size : SR (MetricsBackend B) StorageError (option Z) :=
  counted b_approximate_size (λ _ s, s).

#[export] Instance backend : StorageBackend (MetricsBackend B) := {|
  b_get := get; b_put := put; b_delete := remove; b_exists := contains_key;
  b_scan_prefix := scan_prefix; b_multi_get := multi_get; b_batch_put := batch_put;
  b_flush := flush; b_name := λ s, b_name (inner s); b_approximate_size := approximate_size |}.

End metrics.
End Metrics.

(** ** The typed store *)

Module Typed.

(** serde_json on one type; errors are their texts. *)
Class Serde (T : Type) := {
  to_vec : T → result string bytes;
  from_slice : bytes → result string T;
}.
Class SerdeLaws {T} (S : Serde T) := from_to_vec v b : to_vec v = Ok b → from_slice b = Ok v.

(** [String::from_utf8_lossy]: the identity on valid UTF-8. *)
Class Utf8Lossy := from_utf8_lossy : bytes → string.
Class Utf8LossyLaws (U : Utf8Lossy) :=
  lossy_valid s : utf8_string s = true → from_utf8_lossy (as_bytes s) = s.

Record TypedStore (B : Type) := mkTyped { backend : B; namespace : string }.
#[global] Arguments mkTyped {B}.
#[global] Arguments backend {B}.
#[global] Arguments namespace {B}.

Definition prefixed_key (ns key : string) : bytes := as_bytes (cat [ns; ":"; key]).
Definition prefix_bytes (ns : string) : bytes := as_bytes (cat [ns; ":"]).

Section typed.
Context {B : Type} `{!StorageBackend B} {T : Type} `{!Serde T} `{!Utf8Lossy}.

Definition new (b : B) (ns : string) : TypedStore B := mkTyped b ns.
Definition set_backend (b : B) (s : TypedStore B) : TypedStore B := mkTyped b (namespace s).
Definition on_backend {A} (m : SR B StorageError A) : SR (TypedStore B) StorageError A :=
  sr_zoom backend set_backend m.

Definition decode (what key : string) (b : bytes) : result StorageError T :=
  map_err (λ err, SerializationError (cat [what; " '"; key; "': "; err])) (from_slice b).

Definition get (key : string) : SR (TypedStore B) StorageError (option T) :=
  s ← sr_get;
  v ← on_backend (b_get (prefixed_key (namespace s) key));
  match v with
  | Some b => sr_read (λ _, v ← decode "failed to deserialize value for key" key b; Ok (Some v))
  | None => mret None
  end.

Definition put (key : string) (v : T) : SR (TypedStore B) StorageError unit :=
  s ← sr_get;
  b ← sr_read (λ _, map_err (λ err, SerializationError (cat ["failed to serialize value for key '"; key; "': "; err]))
                      (to_vec v));
  on_backend (b_put (prefixed_key (namespace s) key) b).

Definition remove (key : string) : SR (TypedStore B) StorageError bool :=
  s ← sr_get; on_backend (b_delete (prefixed_key (namespace s) key)).

(** A scanned entry: its key without the namespace, its value decoded. *)
Definition logical_key (ns : string) (raw : bytes) : string :=
  if (length (prefix_bytes ns) <=? length raw)%nat
  then from_utf8_lossy (drop (length (prefix_bytes ns)) raw) else from_utf8_lossy raw.
Definition decode_entry (ns : string) (e : bytes * bytes) : result StorageError (string * T) :=
  let k := logical_key ns e.1 in
  v ← decode "failed to deserialize scanned value for key" k e.2; Ok (k, v).

Definition scan_prefix (key_prefix : string) (limit : nat) : SR (TypedStore B) StorageError (list (string * T)) :=
  s ← sr_get;
  raw ← on_backend (b_scan_prefix (prefixed_key (namespace s) key_prefix) limit);
  sr_read (λ _, mapM (decode_entry (namespace s)) raw).

End typed.
End Typed.
