(* ===== verification/StorageTheorems.v ===== *)
(** The storage layer keeps its interface's promises: the in-memory backend
    and the metering wrapper satisfy the laws, and the typed store over any
    lawful backend is a finite map per namespace. *)

From S2P Require Import Prelude Machine Text Collections Float64 Storage.

#[export] Existing Instances Memory.backend Metrics.backend.

(** ** Byte strings in order *)

Lemma bytes_leb_total a b : bytes_leb a b = true ∨ bytes_leb b a = true.
Proof.
  revert b. induction a as [|x a IH]; intros [|y b]; simpl; auto.
  destruct (Z.ltb_spec (Z_of_byte x) (Z_of_byte y)), (Z.ltb_spec (Z_of_byte y) (Z_of_byte x)); auto.
Qed.

Lemma bytes_leb_trans a b c : bytes_leb a b = true → bytes_leb b c = true → bytes_leb a c = true.
Proof.
  revert b c. induction a as [|x a IH]; intros [|y b] [|z c]; simpl; try done.
  destruct (Z.ltb_spec (Z_of_byte x) (Z_of_byte y)), (Z.ltb_spec (Z_of_byte y) (Z_of_byte x)),
    (Z.ltb_spec (Z_of_byte y) (Z_of_byte z)), (Z.ltb_spec (Z_of_byte z) (Z_of_byte y)),
    (Z.ltb_spec (Z_of_byte x) (Z_of_byte z)), (Z.ltb_spec (Z_of_byte z) (Z_of_byte x)); try done; try lia.
  apply IH.
Qed.

Lemma bytes_leb_antisym a b : bytes_leb a b = true → bytes_leb b a = true → a = b.
Proof.
  revert b. induction a as [|x a IH]; intros [|y b]; simpl; try done.
  destruct (Z.ltb_spec (Z_of_byte x) (Z_of_byte y)), (Z.ltb_spec (Z_of_byte y) (Z_of_byte x)); try done; try lia.
  intros Ha Hb. f_equal; [apply Z_of_byte_inj; lia | by apply IH].
Qed.

Lemma bytes_leb_app p a b : bytes_leb (p ++ a) (p ++ b) = bytes_leb a b.
Proof. induction p as [|x p IH]; simpl; [done|]. by rewrite Z.ltb_irrefl. Qed.

Lemma starts_with_iff p k : bytes_starts_with p k = true ↔ ∃ r, k = p ++ r.
Proof.
  revert k. induction p as [|x p IH]; intros [|y k]; simpl.
  - split; [by exists []|done].
  - split; [by eexists|done].
  - split; [done|by intros [r ?]].
  - rewrite andb_true_iff, Z.eqb_eq, IH. split.
    + intros [->%Z_of_byte_inj [r ->]]. by eexists.
    + intros (r & [= -> ->]). by eauto.
Qed.

Lemma starts_with_leb p k : bytes_starts_with p k = true → bytes_leb p k = true.
Proof. intros (r & ->)%starts_with_iff. rewrite <- (app_nil_r p) at 1. by rewrite bytes_leb_app. Qed.

(** The keys under a prefix are an interval. *)
Lemma starts_with_interval p a b :
  bytes_leb p a = true → bytes_leb a b = true → bytes_starts_with p b = true → bytes_starts_with p a = true.
Proof.
  revert a b. induction p as [|x p IH]; intros [|y a] [|z b]; simpl; try done.
  rewrite !andb_true_iff, !Z.eqb_eq.
  destruct (Z.ltb_spec (Z_of_byte x) (Z_of_byte y)), (Z.ltb_spec (Z_of_byte y) (Z_of_byte x)),
    (Z.ltb_spec (Z_of_byte y) (Z_of_byte z)), (Z.ltb_spec (Z_of_byte z) (Z_of_byte y)); try done; try lia.
  intros Ha Hb [? Hp]. split; [lia | by eapply IH].
Qed.

Definition key_le {V} (x y : bytes * V) : Prop := bytes_leb x.1 y.1 = true.

Lemma btree_iter_sorted m : StronglySorted key_le (btree_iter m).
Proof.
  apply (sort_by_sorted _ (λ _, True)); [| | |by apply Forall_true].
  - intros x y z _ _ _. apply bytes_leb_trans.
  - intros x y _ _ H. unfold key_ltb, key_le in *.
    destruct (bytes_leb_total x.1 y.1) as [?|E]; [done|]. by rewrite E in H.
  - intros x y _ _ H. unfold key_ltb, key_le in *. by destruct (bytes_leb y.1 x.1).
Qed.

Lemma btree_iter_perm m : btree_iter m ≡ₚ map_to_list m.
Proof. apply sort_by_perm. Qed.

Lemma elem_of_btree_iter m k v : (k, v) ∈ btree_iter m ↔ m !! k = Some v.
Proof. by rewrite btree_iter_perm, elem_of_map_to_list. Qed.

Lemma take_while_prefix p (l : list (bytes * bytes)) :
  StronglySorted key_le l →
  Memory.take_while (λ e, bytes_starts_with p e.1) (retain (λ e, bytes_leb p e.1) l) =
  retain (λ e, bytes_starts_with p e.1) l.
Proof.
  induction 1 as [|x l _ IH Hx]; simpl; [done|].
  destruct (bytes_leb p x.1) eqn:El; simpl; destruct (bytes_starts_with p x.1) eqn:Es; try (by f_equal).
  - symmetry. apply retain_none. intros y Hy. destruct (bytes_starts_with p y.1) eqn:Ey; [|done].
    rewrite Forall_forall in Hx. by rewrite (starts_with_interval p x.1 y.1 El (Hx y Hy) Ey) in Es.
  - by rewrite (starts_with_leb _ _ Es) in El.
Qed.

(** ** The in-memory backend is lawful *)

#[export] Instance memory_laws : StorageLaws Memory.backend (λ s, s).
Proof.
  split; intros; intros s ->; cbn; try done.
  unfold Memory.scan_prefix, sr_read, scan_spec, Memory.range_from.
  split; [|done]. by rewrite take_while_prefix by apply btree_iter_sorted.
Qed.

(** ** Metering changes nothing *)

Section metrics.
Context {B : Type} {S : StorageBackend B} {contents : B → gmap bytes bytes}.

Lemma metered_triple {A} (m : SR B StorageError A)
    (upd : f64 → result StorageError A → Metrics.BackendStats → Metrics.BackendStats) (P : gmap bytes bytes → Prop) Q X :
  sr_triple (λ s, P (contents s)) m (λ a s, Q a (contents s)) (λ e s, X e (contents s)) →
  sr_triple (λ s, P (contents (Metrics.inner s))) (Metrics.metered m upd)
    (λ a s, Q a (contents (Metrics.inner s))) (λ e s, X e (contents (Metrics.inner s))).
Proof.
  intros Hm s Hs. specialize (Hm _ Hs). unfold Metrics.metered. by destruct (m (Metrics.inner s)) as [b [a|e]].
Qed.

Lemma counted_triple {A} (m : SR B StorageError A)
    (upd : result StorageError A → Metrics.BackendStats → Metrics.BackendStats) (P : gmap bytes bytes → Prop) Q X :
  sr_triple (λ s, P (contents s)) m (λ a s, Q a (contents s)) (λ e s, X e (contents s)) →
  sr_triple (λ s, P (contents (Metrics.inner s))) (Metrics.counted m upd)
    (λ a s, Q a (contents (Metrics.inner s))) (λ e s, X e (contents (Metrics.inner s))).
Proof.
  intros Hm s Hs. specialize (Hm _ Hs). unfold Metrics.counted. by destruct (m (Metrics.inner s)) as [b [a|e]].
Qed.

#[export] Instance metrics_laws `{!StorageLaws S contents} :
  StorageLaws Metrics.backend (λ s, contents (Metrics.inner s)).
Proof.
  split; intros; first
    [ apply (metered_triple _ _ (λ c, c = m) (λ v c, v = m !! k ∧ c = m) (λ _ c, c = m)), law_get
    | apply (metered_triple _ _ (λ c, c = m) (λ _ c, c = <[k:=v]> m) (λ _ c, c = m)), law_put
    | apply (counted_triple _ _ (λ c, c = m) (λ b c, b = bool_decide (is_Some (m !! k)) ∧ c = delete k m)
        (λ _ c, c = m)), law_delete
    | apply (counted_triple _ _ (λ c, c = m) (λ b c, b = bool_decide (is_Some (m !! k)) ∧ c = m)
        (λ _ c, c = m)), law_exists
    | apply (counted_triple _ _ (λ c, c = m) (λ l c, l = scan_spec p limit m ∧ c = m) (λ _ c, c = m)), law_scan
    | apply (metered_triple _ _ (λ c, c = m) (λ l c, l = (m !!.) <$> ks ∧ c = m) (λ _ c, c = m)), law_multi_get
    | apply (metered_triple _ _ (λ c, c = m) (λ _ c, c = put_all es m) (λ _ c, c = m)), law_batch
    | apply (counted_triple _ _ (λ c, c = m) (λ _ c, c = m) (λ _ c, c = m)), law_flush
    | apply (counted_triple _ _ (λ c, c = m) (λ _ c, c = m) (λ _ c, c = m)), law_size ].
Qed.

End metrics.

(** ** Running operations *)

Inductive op :=
| Get (k : bytes) | Put (k v : bytes) | Delete (k : bytes) | Exists_ (k : bytes)
| Scan (p : bytes) (limit : nat) | MultiGet (ks : list bytes) | BatchPut (es : list (bytes * bytes)) | Flush.

Inductive answer :=
| AValue (v : option bytes) | AUnit | ABool (b : bool)
| AEntries (l : list (bytes * bytes)) | AValues (l : list (option bytes)).

Section ops.
Context {B : Type} {S : StorageBackend B}.

Definition run_op (o : op) : SR B StorageError answer :=
  match o with
  | Get k => v ← b_get k; mret (AValue v)
  | Put k v => b_put k v;; mret AUnit
  | Delete k => b ← b_delete k; mret (ABool b)
  | Exists_ k => b ← b_exists k; mret (ABool b)
  | Scan p n => l ← b_scan_prefix p n; mret (AEntries l)
  | MultiGet ks => l ← b_multi_get ks; mret (AValues l)
  | BatchPut es => b_batch_put es;; mret AUnit
  | Flush => b_flush;; mret AUnit
  end.

Fixpoint run_ops (os : list op) (b : B) : B * list (result StorageError answer) :=
  match os with
  | [] => (b, [])
  | o :: os => let '(b, r) := run_op o b in let '(b, rs) := run_ops os b in (b, r :: rs)
  end.

End ops.

(** What an operation and its result add to the counters. *)
Definition gets (o : op) : Z := match o with Get _ => 1 | MultiGet ks => Metrics.zlen ks | _ => 0 end.
Definition puts (o : op) : Z := match o with Put _ _ => 1 | BatchPut es => Metrics.zlen es | _ => 0 end.
Definition deletes (o : op) : Z := match o with Delete _ => 1 | _ => 0 end.
Definition scans (o : op) : Z := match o with Scan _ _ => 1 | _ => 0 end.
Definition sum (l : list Z) : Z := foldr Z.add 0 l.
Definition bytes_read (r : result StorageError answer) : Z :=
  match r with
  | Ok (AValue (Some v)) => Metrics.zlen v
  | Ok (AEntries l) => sum (Memory.entry_size <$> l)
  | Ok (AValues l) => sum (Metrics.zlen <$> omap (λ v, v) l)
  | _ => 0
  end.
Definition bytes_written (o : op) (r : result StorageError answer) : Z :=
  match o, r with
  | Put _ v, Ok _ => Metrics.zlen v
  | BatchPut es, Ok _ => sum ((λ e, Metrics.zlen e.2) <$> es)
  | _, _ => 0
  end.

Lemma wrap_add a b : wrap 64 (wrap 64 a + b) = wrap 64 (a + b).
Proof. unfold wrap. apply Zplus_mod_idemp_l. Qed.
Lemma wrap_add_r a b : wrap 64 (a + wrap 64 b) = wrap 64 (a + b).
Proof. unfold wrap. apply Zplus_mod_idemp_r. Qed.

Lemma sum_u64_sum l : Memory.sum_u64 l = wrap 64 (sum l).
Proof.
  unfold Memory.sum_u64. enough (∀ a, foldl (λ a b, wrap 64 (a + b)) (wrap 64 a) l = wrap 64 (a + sum l)) as E
    by exact (E 0).
  induction l as [|x l IH]; intros a; simpl; [by rewrite Z.add_0_r|]. by rewrite wrap_add, IH, Z.add_assoc.
Qed.

Section metering.
Context {B : Type} {S : StorageBackend B}.

(** One metered operation, on counters known modulo 2^64. *)
Lemma metered_op o (s : Metrics.MetricsBackend B) :
  let '(b, r) := run_op o (Metrics.inner s) in
  let '(s', r') := run_op o s in
  r' = r ∧ Metrics.inner s' = b ∧
  (∀ n, Metrics.get_count (Metrics.stats s) = wrap 64 n → Metrics.get_count (Metrics.stats s') = wrap 64 (n + gets o)) ∧
  (∀ n, Metrics.put_count (Metrics.stats s) = wrap 64 n → Metrics.put_count (Metrics.stats s') = wrap 64 (n + puts o)) ∧
  (∀ n, Metrics.delete_count (Metrics.stats s) = wrap 64 n →
     Metrics.delete_count (Metrics.stats s') = wrap 64 (n + deletes o)) ∧
  (∀ n, Metrics.scan_count (Metrics.stats s) = wrap 64 n → Metrics.scan_count (Metrics.stats s') = wrap 64 (n + scans o)) ∧
  (∀ n, Metrics.total_bytes_read (Metrics.stats s) = wrap 64 n →
     Metrics.total_bytes_read (Metrics.stats s') = wrap 64 (n + bytes_read r)) ∧
  (∀ n, Metrics.total_bytes_written (Metrics.stats s) = wrap 64 n →
     Metrics.total_bytes_written (Metrics.stats s') = wrap 64 (n + bytes_written o r)).
Proof.
  destruct o; cbn [run_op]; unfold mbind, sr_bind, mret, sr_ret; cbn [b_get b_put b_delete b_exists b_scan_prefix
    b_multi_get b_batch_put b_flush Metrics.backend]; unfold Metrics.get, Metrics.put, Metrics.remove,
    Metrics.contains_key, Metrics.scan_prefix, Metrics.multi_get, Metrics.batch_put, Metrics.flush,
    Metrics.metered, Metrics.counted; 
    match goal with |- context [?f (Metrics.inner s)] => destruct (f (Metrics.inner s)) as [b [a|e]] end;
    cbn; split_and!; try done;
    intros n Hn; unfold Metrics.add_u64; try case_match; rewrite ?Hn, ?sum_u64_sum, ?wrap_add, ?wrap_add_r, ?Z.add_0_r; done.
Qed.

(** Sums over a run, each operation with its result. *)
Definition total (f : op → result StorageError answer → Z) os rs : Z := sum (zip_with f os rs).

(** Metering is transparent.  Wrapping a backend changes no result and
    no effect of any sequence of operations, and the counters are exact modulo
    2^64: reads count one per key asked for, writes one per entry, bytes read
    are those returned, bytes written those of the successful writes. *)
Theorem metering_transparent os (b : B) t :
  let '(b', rs) := run_ops os b in
  let '(s', rs') := run_ops os (Metrics.new b t) in
  rs' = rs ∧ Metrics.inner s' = b' ∧
  let st := Metrics.stats s' in
  Metrics.get_count st = wrap 64 (sum (gets <$> os)) ∧ Metrics.put_count st = wrap 64 (sum (puts <$> os)) ∧
  Metrics.delete_count st = wrap 64 (sum (deletes <$> os)) ∧ Metrics.scan_count st = wrap 64 (sum (scans <$> os)) ∧
  Metrics.total_bytes_read st = wrap 64 (total (λ _, bytes_read) os rs) ∧
  Metrics.total_bytes_written st = wrap 64 (total bytes_written os rs).
Proof.
  enough (∀ (s : Metrics.MetricsBackend B) g p d c r w, Metrics.inner s = b →
    Metrics.get_count (Metrics.stats s) = wrap 64 g → Metrics.put_count (Metrics.stats s) = wrap 64 p →
    Metrics.delete_count (Metrics.stats s) = wrap 64 d → Metrics.scan_count (Metrics.stats s) = wrap 64 c →
    Metrics.total_bytes_read (Metrics.stats s) = wrap 64 r → Metrics.total_bytes_written (Metrics.stats s) = wrap 64 w →
    let '(b', rs) := run_ops os b in let '(s', rs') := run_ops os s in
    rs' = rs ∧ Metrics.inner s' = b' ∧
    Metrics.get_count (Metrics.stats s') = wrap 64 (g + sum (gets <$> os)) ∧
    Metrics.put_count (Metrics.stats s') = wrap 64 (p + sum (puts <$> os)) ∧
    Metrics.delete_count (Metrics.stats s') = wrap 64 (d + sum (deletes <$> os)) ∧
    Metrics.scan_count (Metrics.stats s') = wrap 64 (c + sum (scans <$> os)) ∧
    Metrics.total_bytes_read (Metrics.stats s') = wrap 64 (r + total (λ _, bytes_read) os rs) ∧
    Metrics.total_bytes_written (Metrics.stats s') = wrap 64 (w + total bytes_written os rs)) as H
    by exact (H (Metrics.new b t) 0 0 0 0 0 0 eq_refl eq_refl eq_refl eq_refl eq_refl eq_refl eq_refl).
  revert b. induction os as [|o os IH]; intros b s g p d c r w Hb Hg Hp Hd Hc Hr Hw.
  - cbn. by rewrite !Z.add_0_r.
  - cbn [run_ops]. pose proof (metered_op o s) as Ho. rewrite Hb in Ho.
    destruct (run_op o b) as [b1 r1]. destruct (run_op o s) as [s1 r1'].
    destruct Ho as (-> & Hb1 & Hg' & Hp' & Hd' & Hc' & Hr' & Hw').
    specialize (IH b1 s1 _ _ _ _ _ _ Hb1 (Hg' _ Hg) (Hp' _ Hp) (Hd' _ Hd) (Hc' _ Hc) (Hr' _ Hr) (Hw' _ Hw)).
    destruct (run_ops os b1) as [b2 rs]. destruct (run_ops os s1) as [s2 rs'].
    cbn [fmap list_fmap sum foldr]. unfold total in *. cbn [zip_with]. cbn [sum foldr].
    destruct IH as (-> & IH). rewrite <- !Z.add_assoc in IH. by split.
Qed.

End metering.
