(* ===== verification/TypedStoreTheorems.v ===== *)
(** The typed store is a finite map per namespace, over any lawful backend. *)

From S2P Require Import Prelude Machine Text Collections Float64 Storage StorageTheorems.
From Stdlib Require Import Strings.Ascii.

(** ** Namespaced keys *)

Lemma prefixed_key_app ns k : Typed.prefixed_key ns k = as_bytes ns ++ Byte.x3a :: as_bytes k.
Proof. change (as_bytes (ns +:+ String ":"%char k) = as_bytes ns ++ Byte.x3a :: as_bytes k). by rewrite as_bytes_app. Qed.

Lemma prefix_bytes_app ns : Typed.prefix_bytes ns = as_bytes ns ++ [Byte.x3a].
Proof. change (as_bytes (ns +:+ ":") = as_bytes ns ++ [Byte.x3a]). by rewrite as_bytes_app. Qed.

Lemma prefixed_key_inj ns k k' : Typed.prefixed_key ns k = Typed.prefixed_key ns k' → k = k'.
Proof. rewrite !prefixed_key_app. intros E%app_inv_head. injection E as E. by apply as_bytes_inj. Qed.

(** A namespace without a colon. *)
Definition plain_ns (ns : string) : Prop := Byte.x3a ∉ as_bytes ns.

Lemma app_sep_inj {A} (c : A) a a' x x' : c ∉ a → c ∉ a' → a ++ c :: x = a' ++ c :: x' → a = a'.
Proof.
  revert a'. induction a as [|y a IH]; intros [|y' a'] Ha Ha' E; simpl in *; try done.
  - injection E as -> _. set_solver.
  - injection E as -> _. set_solver.
  - injection E as -> E. f_equal. apply IH; set_solver.
Qed.

Lemma plain_ns_inj ns ns' k k' :
  plain_ns ns → plain_ns ns' → Typed.prefixed_key ns k = Typed.prefixed_key ns' k' → ns = ns'.
Proof. rewrite !prefixed_key_app. intros Hn Hn' E. by apply as_bytes_inj, (app_sep_inj _ _ _ _ _ Hn Hn' E). Qed.

(** ** Sorted lists *)

Lemma retain_sorted {A} (R : A → A → Prop) f l : StronglySorted R l → StronglySorted R (retain f l).
Proof.
  induction 1 as [|x l _ IH Hx]; simpl; [constructor|]. destruct (f x); [|done]. constructor; [done|].
  rewrite Forall_forall in *. intros y [Hy _]%elem_of_retain. auto.
Qed.

Lemma NoDup_retain {A} f (l : list A) : NoDup l → NoDup (retain f l).
Proof. intros Hl. eapply sublist_NoDup; [exact Hl | apply sublist_retain]. Qed.

Section typed.
Context {B : Type} {S : StorageBackend B} {contents : B → gmap bytes bytes} {laws : StorageLaws S contents}.
Context {T : Type} {J : Typed.Serde T} {json : Typed.SerdeLaws J} {U : Typed.Utf8Lossy} {lossy : Typed.Utf8LossyLaws U}.
Implicit Types (m : gmap bytes bytes) (t : gmap string T) (ns k : string).

(** The raw map holds the typed map under a namespace. *)
Definition represents ns m t : Prop := ∀ k,
  match t !! k with
  | Some v => ∃ b, m !! Typed.prefixed_key ns k = Some b ∧ Typed.to_vec v = Ok b
  | None => m !! Typed.prefixed_key ns k = None
  end.

(** Keys are Rust strings. *)
Definition utf8_keys t : Prop := ∀ k v, t !! k = Some v → utf8_string k = true.

Lemma represents_put ns m t k v b :
  represents ns m t → Typed.to_vec v = Ok b → represents ns (<[Typed.prefixed_key ns k := b]> m) (<[k := v]> t).
Proof.
  intros Hm Hv k'. destruct (decide (k = k')) as [<-|Hk].
  - rewrite !lookup_insert_eq. by exists b.
  - rewrite !lookup_insert_ne; [apply Hm| |done]. by intros ?%prefixed_key_inj.
Qed.

Lemma represents_delete ns m t k :
  represents ns m t → represents ns (delete (Typed.prefixed_key ns k) m) (delete k t).
Proof.
  intros Hm k'. destruct (decide (k = k')) as [<-|Hk].
  - by rewrite !lookup_delete_eq.
  - rewrite !lookup_delete_ne; [apply Hm| |done]. by intros ?%prefixed_key_inj.
Qed.

(** Changes under one namespace do not show under another. *)
Lemma represents_other ns ns' m m' t k :
  plain_ns ns → plain_ns ns' → ns ≠ ns' → represents ns' m t →
  (∀ x, x ≠ Typed.prefixed_key ns k → m' !! x = m !! x) → represents ns' m' t.
Proof.
  intros Hn Hn' Hne Hm E k'. specialize (Hm k'). rewrite E; [done|].
  intros E'. by apply Hne, (plain_ns_inj _ _ k k').
Qed.

(** The entries of the typed map in the order of their keys' bytes. *)
Definition str_key_ltb (x y : string * T) : bool := negb (bytes_leb (as_bytes y.1) (as_bytes x.1)).
Definition typed_iter t : list (string * T) := sort_by str_key_ltb (map_to_list t).
Definition typed_scan key_prefix limit t : list (string * T) :=
  take limit (retain (λ e, bytes_starts_with (as_bytes key_prefix) (as_bytes e.1)) (typed_iter t)).

Definition encode (v : T) : bytes := match Typed.to_vec v with Ok b => b | Err _ => [] end.
Definition raw ns (e : string * T) : bytes * bytes := (Typed.prefixed_key ns e.1, encode e.2).

Lemma represents_lookup ns m t k v : represents ns m t → t !! k = Some v →
  m !! Typed.prefixed_key ns k = Some (encode v) ∧ Typed.to_vec v = Ok (encode v).
Proof. intros Hm Hk. specialize (Hm k). rewrite Hk in Hm. destruct Hm as (b & Hb & Hv). unfold encode. by rewrite Hv. Qed.

Lemma typed_iter_sorted t : StronglySorted (λ x y, bytes_leb (as_bytes x.1) (as_bytes y.1) = true) (typed_iter t).
Proof.
  apply (sort_by_sorted _ (λ _, True)); [| | |by apply Forall_true].
  - intros x y z _ _ _. apply bytes_leb_trans.
  - intros x y _ _ H. unfold str_key_ltb in *. destruct (bytes_leb_total (as_bytes x.1) (as_bytes y.1)) as [?|E]; [done|].
    by rewrite E in H.
  - intros x y _ _ H. unfold str_key_ltb in *. by destruct (bytes_leb _ _).
Qed.

Lemma elem_of_typed_iter t k v : (k, v) ∈ typed_iter t ↔ t !! k = Some v.
Proof. unfold typed_iter. by rewrite sort_by_perm, elem_of_map_to_list. Qed.

Lemma raw_elem ns m t kp e :
  represents ns m t →
  e ∈ retain (λ e, bytes_starts_with (Typed.prefixed_key ns kp) e.1) (btree_iter m) ↔
  e ∈ raw ns <$> retain (λ e, bytes_starts_with (as_bytes kp) (as_bytes e.1)) (typed_iter t).
Proof.
  intros Hm. rewrite elem_of_retain, list_elem_of_fmap. destruct e as [k b]. rewrite elem_of_btree_iter. simpl. split.
  - intros [Hk (r & ->)%starts_with_iff].
    assert (Ek : Typed.prefixed_key ns kp ++ r = Typed.prefixed_key ns (kp +:+ String.string_of_list_byte r)).
    { rewrite !prefixed_key_app, as_bytes_app, as_bytes_surj. by rewrite <- app_assoc. }
    rewrite Ek in *. set (k' := kp +:+ String.string_of_list_byte r) in *.
    destruct (t !! k') as [v|] eqn:Et; [|specialize (Hm k'); rewrite Et in Hm; congruence].
    exists (k', v). destruct (represents_lookup _ _ _ _ _ Hm Et) as [Hb _]. unfold raw. simpl.
    split; [congruence|]. apply elem_of_retain. rewrite elem_of_typed_iter. split; [done|]. simpl.
    apply starts_with_iff. exists r. unfold k'. by rewrite as_bytes_app, as_bytes_surj.
  - intros ([k' v] & [= -> ->] & [Ht%elem_of_typed_iter (r & Hr)%starts_with_iff]%elem_of_retain).
    simpl in *. destruct (represents_lookup _ _ _ _ _ Hm Ht) as [Hb _]. split; [done|].
    apply starts_with_iff. exists r. rewrite !prefixed_key_app, Hr. by rewrite <- app_assoc.
Qed.

Lemma scan_raw ns m t kp limit :
  represents ns m t → scan_spec (Typed.prefixed_key ns kp) limit m = raw ns <$> typed_scan kp limit t.
Proof.
  intros Hm. unfold scan_spec, typed_scan. rewrite fmap_take. f_equal.
  apply (StronglySorted_unique_strong key_le).
  - intros [k b] [k' b'] H1 H2 Hle Hle'. unfold key_le in *. simpl in *.
    pose proof (bytes_leb_antisym _ _ Hle Hle') as ->. apply (raw_elem ns m t kp) in H2 as H2'; [|done].
    rewrite elem_of_retain in H1, H2'. destruct H1 as [H1 _], H2' as [H2' _].
    rewrite elem_of_btree_iter in H1, H2'. congruence.
  - apply retain_sorted, btree_iter_sorted.
  - induction (retain_sorted _ (λ e, bytes_starts_with (as_bytes kp) (as_bytes e.1)) _ (typed_iter_sorted t))
      as [|x l _ IH Hx]; simpl; constructor; [done|].
    rewrite Forall_fmap. rewrite Forall_forall in *. intros y Hy%Hx. unfold key_le, raw. simpl.
    rewrite !prefixed_key_app, bytes_leb_app. simpl. done.
  - apply NoDup_Permutation; [| |intros e; by apply raw_elem].
    + apply NoDup_retain. rewrite btree_iter_perm. apply NoDup_map_to_list.
    + assert (NoDup (retain (λ e, bytes_starts_with (as_bytes kp) (as_bytes e.1)) (typed_iter t)).*1) as Hn.
      { eapply sublist_NoDup; [|apply fmap_sublist, sublist_retain]. unfold typed_iter. rewrite sort_by_perm.
        apply NoDup_fst_map_to_list. }
      apply (NoDup_fmap_1 fst). rewrite <- list_fmap_compose.
      change (fst ∘ raw ns) with (Typed.prefixed_key ns ∘ fst (B:=T)). rewrite list_fmap_compose.
      apply NoDup_fmap_2; [|done]. intros x y. apply prefixed_key_inj.
Qed.

Lemma decode_raw ns m t k v :
  represents ns m t → utf8_keys t → t !! k = Some v → Typed.decode_entry ns (raw ns (k, v)) = Ok (k, v).
Proof.
  intros Hm Hu Hk. destruct (represents_lookup _ _ _ _ _ Hm Hk) as [_ Hv]. unfold Typed.decode_entry, Typed.decode, raw. simpl.
  rewrite (json _ _ Hv). simpl. unfold Typed.logical_key. rewrite prefix_bytes_app, prefixed_key_app.
  rewrite !length_app. simpl. rewrite (proj2 (Nat.leb_le _ _)) by lia.
  replace (as_bytes ns ++ Byte.x3a :: as_bytes k) with ((as_bytes ns ++ [Byte.x3a]) ++ as_bytes k)
    by by rewrite <- app_assoc.
  rewrite drop_app_length' by (rewrite length_app; simpl; lia). by rewrite (lossy _ (Hu _ _ Hk)).
Qed.

Lemma decode_all ns m t l :
  represents ns m t → utf8_keys t → (∀ k v, (k, v) ∈ l → t !! k = Some v) →
  mapM (Typed.decode_entry ns) (raw ns <$> l) = Ok l.
Proof.
  intros Hm Hu Hl. induction l as [|[k v] l IH]; simpl; [done|].
  pose proof (decode_raw ns m t k v Hm Hu (Hl k v ltac:(by left))) as ->. simpl.
  change (list_fmap _ _ (raw ns) l) with (raw ns <$> l). rewrite IH; [done|].
  intros k' v' ?. apply Hl. by right.
Qed.

(** The states of a typed store over a raw map. *)
Definition at_ ns m (s : Typed.TypedStore B) : Prop :=
  Typed.namespace s = ns ∧ contents (Typed.backend s) = m.

Lemma on_backend_triple {A} ns (m : SR B StorageError A) (P : gmap bytes bytes → Prop) Q X :
  sr_triple (λ s, P (contents s)) m (λ a s, Q a (contents s)) (λ e s, X e (contents s)) →
  sr_triple (λ s, Typed.namespace s = ns ∧ P (contents (Typed.backend s))) (Typed.on_backend m)
    (λ a s, Typed.namespace s = ns ∧ Q a (contents (Typed.backend s)))
    (λ e s, Typed.namespace s = ns ∧ X e (contents (Typed.backend s))).
Proof.
  intros Hm s [Hn Hs]. specialize (Hm _ Hs). unfold Typed.on_backend, sr_zoom.
  destruct (m (Typed.backend s)) as [b [a|e]]; simpl; done.
Qed.

Lemma with_namespace {A} ns m (f : Typed.TypedStore B → SR (Typed.TypedStore B) StorageError A) Q X :
  (∀ s, Typed.namespace s = ns → sr_triple (at_ ns m) (f s) Q X) →
  sr_triple (at_ ns m) (s ← sr_get; f s) Q X.
Proof. intros Hf s [Hn Hs]. specialize (Hf s Hn s (conj Hn Hs)). done. Qed.

(** C25 (the typed store is a map).  Over any lawful backend whose contents
    hold a typed map under the store's namespace, the operations that succeed
    answer from that map and change it as a map: reading, writing, deleting,
    and scanning a prefix in the order of the keys' bytes.  One that fails
    leaves the contents alone.  Whatever is held under another namespace stays
    as it was, when neither namespace contains a colon. *)
Theorem typed_store_refines ns m t :
  represents ns m t → utf8_keys t →
  (∀ k, sr_triple (at_ ns m) (Typed.get k) (λ v s, v = t !! k ∧ at_ ns m s) (λ _, at_ ns m)) ∧
  (∀ k v, sr_triple (at_ ns m) (Typed.put k v)
     (λ _ s, ∃ m', at_ ns m' s ∧ represents ns m' (<[k := v]> t) ∧
        ∀ ns' t', plain_ns ns → plain_ns ns' → ns ≠ ns' → represents ns' m t' → represents ns' m' t')
     (λ _, at_ ns m)) ∧
  (∀ k, sr_triple (at_ ns m) (Typed.remove k)
     (λ b s, b = bool_decide (is_Some (t !! k)) ∧ ∃ m', at_ ns m' s ∧ represents ns m' (delete k t) ∧
        ∀ ns' t', plain_ns ns → plain_ns ns' → ns ≠ ns' → represents ns' m t' → represents ns' m' t')
     (λ _, at_ ns m)) ∧
  (∀ kp limit, sr_triple (at_ ns m) (Typed.scan_prefix kp limit)
     (λ l s, l = typed_scan kp limit t ∧ at_ ns m s) (λ _, at_ ns m)).
Proof.
  intros Hm Hu. split_and!.
  - intros k. apply with_namespace. intros s0 ->. eapply triple_bind.
    { apply (on_backend_triple ns _ (λ c, c = m) (λ v c, v = m !! Typed.prefixed_key ns k ∧ c = m) (λ _ c, c = m)), law_get. }
    intros v s (Hn & -> & Hs). specialize (Hm k). destruct (t !! k) as [x|].
    + destruct Hm as (b & -> & Hb). cbn. unfold Typed.decode. by rewrite (json _ _ Hb).
    + by rewrite Hm.
  - intros k v. apply with_namespace. intros s0 ->. intros s [Hn Hs]. unfold mbind, sr_bind, sr_read.
    destruct (Typed.to_vec v) as [b|err] eqn:Ev; [|done]. cbn [map_err].
    pose proof (on_backend_triple ns _ (λ c, c = m) (λ _ c, c = <[Typed.prefixed_key ns k := b]> m) (λ _ c, c = m)
      (law_put (Typed.prefixed_key ns k) b m) s (conj Hn Hs)) as Ho.
    destruct (Typed.on_backend _ s) as [s' [[]|e]]; [|done]. destruct Ho as [Hn' Hc]. eexists. split; [by split|].
    split; [by apply represents_put|]. intros ns' t' Hp Hp' Hne Ht. eapply represents_other; [exact Hp|done..|].
    intros x Hx. by apply lookup_insert_ne.
  - intros k. apply with_namespace. intros s0 ->. intros s [Hn Hs].
    pose proof (on_backend_triple ns _ (λ c, c = m) (λ b c, b = bool_decide (is_Some (m !! Typed.prefixed_key ns k)) ∧
      c = delete (Typed.prefixed_key ns k) m) (λ _ c, c = m) (law_delete (Typed.prefixed_key ns k) m) s (conj Hn Hs)) as Ho.
    destruct (Typed.on_backend _ s) as [s' [b|e]]; [|done]. destruct Ho as (Hn' & -> & Hc). split.
    + apply bool_decide_ext. specialize (Hm k). destruct (t !! k) as [x|].
      * destruct Hm as (b & -> & _). by split.
      * by rewrite Hm.
    + eexists. split; [by split|]. split; [by apply represents_delete|].
      intros ns' t' Hp Hp' Hne Ht. eapply represents_other; [exact Hp|done..|]. intros x Hx. by apply lookup_delete_ne.
  - intros kp limit. apply with_namespace. intros s0 ->. eapply triple_bind.
    { apply (on_backend_triple ns _ (λ c, c = m) (λ l c, l = scan_spec (Typed.prefixed_key ns kp) limit m ∧ c = m)
        (λ _ c, c = m)), law_scan. }
    intros l s (Hn & -> & Hs). unfold sr_read. rewrite (scan_raw ns m t), (decode_all ns m t); [done|done|done| |done].
    intros k v (i & Hi & _)%elem_of_take. apply list_elem_of_lookup_2, elem_of_retain in Hi as [Hi _].
    by apply elem_of_typed_iter.
Qed.

End typed.

(** ** Namespaces with a colon *)

(** Two stores over one backend.  A namespace may contain the separator:
    what the store "a" writes under "b:c" is what the store "a:b" reads under
    "c", and the other way round. *)
Theorem namespaces_collide {T} {J : Typed.Serde T} {json : Typed.SerdeLaws J} a b c (v : T) bs m :
  Typed.to_vec v = Ok bs →
  let s := (Typed.put (cat [b; ":"; c]) v (Typed.new (B:=Memory.InMemoryBackend) m a)).1 in
  (Typed.get c (Typed.new (Typed.backend s) (cat [a; ":"; b]))).2 = Ok (Some v).
Proof.
  intros Hv. cbv zeta. unfold Typed.put, Typed.get, mbind, sr_bind, sr_get, sr_read. rewrite Hv. cbn -[Typed.prefixed_key cat].
  assert (Typed.prefixed_key (cat [a; ":"; b]) c = Typed.prefixed_key a (cat [b; ":"; c])) as ->.
  { rewrite !prefixed_key_app. change (cat [a; ":"; b]) with (a +:+ String ":"%char b).
    change (cat [b; ":"; c]) with (b +:+ String ":"%char c). rewrite !as_bytes_app, <- app_assoc. done. }
  unfold Typed.on_backend, sr_zoom, Memory.get, Memory.put, sr_read, sr_modify. cbn -[Typed.prefixed_key cat Typed.decode lookup insert].
  pose proof (lookup_insert_eq (M:=gmap bytes) m (Typed.prefixed_key a (cat [b; ":"; c])) bs) as E.
  unfold Memory.InMemoryBackend. rewrite E. unfold Typed.decode. by rewrite (json _ _ Hv).
Qed.

(** ** Witnesses *)

Module Witness.

#[export] Instance texts : Typed.Serde string :=
  {| Typed.to_vec := λ s, Ok (as_bytes s); Typed.from_slice := λ b, Ok (String.string_of_list_byte b) |}.
#[export] Instance texts_laws : Typed.SerdeLaws texts.
Proof. intros v b [= <-]. unfold Typed.from_slice. simpl. f_equal. apply String.string_of_list_byte_of_string. Defined.
#[export] Instance lossy : Typed.Utf8Lossy := String.string_of_list_byte.
#[export] Instance lossy_laws : Typed.Utf8LossyLaws lossy.
Proof. intros s _. apply String.string_of_list_byte_of_string. Defined.

Definition users : gmap string string := {["bob" := "x"; "alice" := "y"]}.
Definition raw_users : gmap bytes bytes :=
  {[Typed.prefixed_key "users" "bob" := as_bytes "x"; Typed.prefixed_key "users" "alice" := as_bytes "y"]}.

Lemma raw_users_ok : represents "users" raw_users users.
Proof. apply represents_put; [|done]. apply (represents_put "users" ∅ ∅ "alice"); [|done]. by intros k. Qed.

Lemma users_utf8 : utf8_keys users.
Proof.
  intros k v. unfold users. rewrite lookup_insert_Some, lookup_singleton_Some.
  intros [[<- _]|[_ [<- _]]]; by vm_compute.
Qed.

(** Scanning everything returns the users in order of their names. *)
Lemma typed_store_refines_witness :
  (Typed.scan_prefix "" 10 (Typed.new (B:=Memory.InMemoryBackend) raw_users "users")).2 =
  Ok [("alice", "y"); ("bob", "x")]%string.
Proof.
  destruct (typed_store_refines (S:=Memory.backend) (contents:=λ s, s) "users" raw_users users raw_users_ok users_utf8)
    as (_ & _ & _ & Hscan).
  specialize (Hscan "" 10%nat (Typed.new raw_users "users") (conj eq_refl eq_refl)).
  destruct (Typed.scan_prefix _ _ _) as [s [l|e]] eqn:E.
  - destruct Hscan as [-> _]. by vm_compute.
  - apply (f_equal (λ x, is_ok x.2)) in E. vm_compute in E. discriminate E.
Defined.

Lemma namespaces_collide_witness :
  (Typed.get "c" (Typed.new (Typed.backend (Typed.put "b:c" "v"%string (Typed.new (B:=Memory.InMemoryBackend) ∅ "a")).1)
                    "a:b")).2 = Ok (Some "v"%string).
Proof. exact (namespaces_collide "a" "b" "c" "v"%string (as_bytes "v") ∅ eq_refl). Defined.

End Witness.
