(* ===== verification/ApiTransaction.v ===== *)
(** The HTTP-level transaction registry (verisim-api/src/transaction.rs): it
    buffers the operations of a transaction and hands them out on commit.
    The clock, RFC 3339 text and the comparison with the timeout are
    parameters; identifiers come from SHA-256 of the clock and the process. *)

From S2P Require Import Prelude Machine Text Collections Zkp Circuits.

Inductive TransactionState := Active | Committed | RolledBack.
#[export] Instance state_eq_dec : EqDecision TransactionState.
Proof. solve_decision. Defined.

Inductive OperationType := Create | Update | Delete.

Record BufferedOperation := mkOp {
  entity_id : string; operation : OperationType; payload : list byte; op_timestamp : string }.

Record Transaction := mkTxn {
  id : string;
  state : TransactionState;
  operations : list BufferedOperation;
  started_at : string;
  completed_at : option string;
}.

Record TransactionStatus := mkStatus {
  status_id : string; status_state : TransactionState; operation_count : nat;
  status_started : string; status_completed : option string }.

Definition status_from (t : Transaction) : TransactionStatus :=
  mkStatus (id t) (state t) (length (operations t)) (started_at t) (completed_at t).

Inductive TransactionError :=
| NotFound (id : string)
| NotActive (id : string)
| AlreadyCommitted (id : string)
| AlreadyRolledBack (id : string)
| TooManyTransactions.

Definition error_display (e : TransactionError) : string :=
  match e with
  | NotFound i => cat ["transaction not found: "; i]
  | NotActive i => cat ["transaction not active: "; i]
  | AlreadyCommitted i => cat ["transaction already committed: "; i]
  | AlreadyRolledBack i => cat ["transaction already rolled back: "; i]
  | TooManyTransactions => "maximum concurrent transactions exceeded"
  end.

Record TransactionConfig := mkConfig { max_concurrent : nat; timeout_seconds : Z }.
Definition config_default : TransactionConfig := mkConfig 256 300.

(** An instant: its nanoseconds since the epoch, when they fit, and its text. *)
Class Clock := {
  Instant : Type;
  timestamp_nanos_opt : Instant → option Z;
  to_rfc3339 : Instant → string;
  parse_from_rfc3339 : string → option Instant;
  (** [now.signed_duration_since(then) > Duration::seconds(s)] *)
  longer_ago : Instant → Instant → Z → bool;
}.

Section manager.
Context `{Clock} `{Digest} (config : TransactionConfig).

Abbreviation Manager := (gmap string Transaction).

Definition manager_new : Manager := ∅.

(** [TransactionId::new]: 16 bytes of a hash of the nanoseconds and the process id. *)
Definition new_id (now : Instant) (pid : Z) : string :=
  hex_lower (take 16 (digest (to_le_bytes 8 (default 0 (timestamp_nanos_opt now)) ++ to_le_bytes 4 pid))).

Definition is_active (t : Transaction) : bool := bool_decide (state t = Active).
Definition active_count (m : Manager) : nat := length (retain is_active (map_to_list m).*2).

(** [now] is read for the identifier, [now'] for the start time. *)
Definition begin (now now' : Instant) (pid : Z) : SR Manager TransactionError string := λ m,
  if (max_concurrent config <=? active_count m)%nat then (m, Err TooManyTransactions)
  else
    let i := new_id now pid in
    (<[i := mkTxn i Active [] (to_rfc3339 now') None]> m, Ok i).

(** What an operation on a transaction that has ended answers. *)
Definition ended_error (i : string) (s : TransactionState) : TransactionError :=
  match s with RolledBack => AlreadyRolledBack i | _ => AlreadyCommitted i end.

(** The transaction [i], when active: its new state and the answer. *)
Definition on_active {A} (i : string) (f : Transaction → Transaction * A) : SR Manager TransactionError A := λ m,
  match m !! i with
  | None => (m, Err (NotFound i))
  | Some t =>
      match state t with
      | Active => let '(t', a) := f t in (<[i := t']> m, Ok a)
      | s => (m, Err (ended_error i s))
      end
  end.

Definition buffer_operation (i : string) (op : BufferedOperation) : SR Manager TransactionError unit :=
  on_active i (λ t, (mkTxn (id t) (state t) (operations t ++ [op]) (started_at t) (completed_at t), ())).

Definition commit (now : Instant) (i : string) : SR Manager TransactionError (list BufferedOperation) :=
  on_active i (λ t, (mkTxn (id t) Committed (operations t) (started_at t) (Some (to_rfc3339 now)), operations t)).

Definition rollback (now : Instant) (i : string) : SR Manager TransactionError nat :=
  on_active i (λ t, (mkTxn (id t) RolledBack [] (started_at t) (Some (to_rfc3339 now)), length (operations t))).

Definition status (i : string) (m : Manager) : result TransactionError TransactionStatus :=
  t ← ok_or (m !! i) (NotFound i); Ok (status_from t).

(** A time stamp older than the timeout. *)
Definition older (now : Instant) (stamp : string) : bool :=
  match parse_from_rfc3339 stamp with
  | Some t => longer_ago now t (timeout_seconds config)
  | None => false
  end.

Definition expired (now : Instant) (t : Transaction) : bool :=
  if is_active t then older now (started_at t)
  else match completed_at t with Some c => older now c | None => false end.

Definition cleanup_expired (now : Instant) (m : Manager) : Manager * nat :=
  let ids := (retain (λ p, expired now p.2) (map_to_list m)).*1 in
  (foldl (λ m i, delete i m) m ids, length ids).

(** ** Sequences of calls *)

Inductive call :=
| Begin (now now' : Instant) (pid : Z)
| Buffer (i : string) (op : BufferedOperation)
| Commit (now : Instant) (i : string)
| Rollback (now : Instant) (i : string)
| Cleanup (now : Instant).

Definition run_call (m : Manager) (c : call) : Manager :=
  match c with
  | Begin now now' pid => (begin now now' pid m).1
  | Buffer i op => (buffer_operation i op m).1
  | Commit now i => (commit now i m).1
  | Rollback now i => (rollback now i m).1
  | Cleanup now => (cleanup_expired now m).1
  end.

Lemma on_active_lookup {A} i f (m : Manager) j :
  ((on_active i f m).1 : Manager) !! j =
  if bool_decide (i = j)
  then t ← m !! j; Some (if is_active t then (f t : Transaction * A).1 else t)
  else m !! j.
Proof.
  unfold on_active, is_active. destruct (m !! i) as [t|] eqn:Ei.
  - destruct (bool_decide_reflect (i = j)) as [<-|Hj].
    + rewrite Ei. cbn. destruct (state t) eqn:Es; cbn.
      * destruct (f t) as [t1 a]. cbn [fst]. by rewrite lookup_insert_eq.
      * by rewrite Ei.
      * by rewrite Ei.
    + destruct (state t); [destruct (f t)|..]; cbn [fst]; [by rewrite lookup_insert_ne|done..].
  - destruct (bool_decide_reflect (i = j)) as [<-|]; [by rewrite Ei|done].
Qed.

Lemma foldl_delete_lookup (ids : list string) (m : Manager) j :
  foldl (λ m i, delete i m) m ids !! j = if bool_decide (j ∈ ids) then None else m !! j.
Proof.
  revert m. induction ids as [|i ids IH]; intros m; simpl.
  - done.
  - rewrite IH. destruct (decide (i = j)) as [<-|Hij].
    + rewrite lookup_delete_eq, (bool_decide_true (i ∈ i :: ids)) by by left. by destruct (bool_decide _).
    + rewrite lookup_delete_ne by done.
      rewrite (bool_decide_ext (j ∈ i :: ids) (j ∈ ids)) by (rewrite elem_of_cons; naive_solver). done.
Qed.

Lemma cleanup_lookup now (m : Manager) j :
  (cleanup_expired now m).1 !! j = t ← m !! j; if expired now t then None else Some t.
Proof.
  unfold cleanup_expired. cbn. rewrite foldl_delete_lookup. case_bool_decide as Hj.
  - apply list_elem_of_fmap in Hj as ([k t] & -> & [Hk He]%elem_of_retain). cbn in *.
    apply elem_of_map_to_list in Hk. rewrite Hk. cbn. by rewrite He.
  - destruct (m !! j) as [t|] eqn:E; [|done]. cbn. destruct (expired now t) eqn:He; [|done].
    exfalso. apply Hj, list_elem_of_fmap. exists (j, t). split; [done|].
    apply elem_of_retain. by rewrite elem_of_map_to_list.
Qed.

(** How one call can change one transaction: buffer, end it while it is
    active, remove it once expired, or put a new one in its place. *)
Definition txn_step (old new : option Transaction) : Prop :=
  new = old ∨
  (∃ i start, new = Some (mkTxn i Active [] start None)) ∨
  (∃ t op, old = Some t ∧ state t = Active ∧
     new = Some (mkTxn (id t) Active (operations t ++ [op]) (started_at t) (completed_at t))) ∨
  (∃ t now s ops, old = Some t ∧ state t = Active ∧ s ≠ Active ∧
     new = Some (mkTxn (id t) s ops (started_at t) (Some (to_rfc3339 now)))) ∨
  (∃ t now, old = Some t ∧ expired now t = true ∧ new = None).

Lemma run_call_step m c j : txn_step (m !! j) (run_call m c !! j).
Proof.
  destruct c as [now now' pid|i op|now i|now i|now]; cbn [run_call].
  - unfold begin. destruct (_ <=? _)%nat; [by left|]. cbn.
    destruct (decide (new_id now pid = j)) as [<-|]; [|left; by apply lookup_insert_ne].
    right; left. rewrite lookup_insert_eq. eauto.
  - unfold buffer_operation. rewrite on_active_lookup. case_bool_decide; [|by left].
    destruct (m !! j) as [t|]; cbn; [|by left]. destruct (is_active t) eqn:Ea; [|by left].
    apply bool_decide_eq_true in Ea. right; right; left. exists t, op. by rewrite Ea.
  - unfold commit. rewrite on_active_lookup. case_bool_decide; [|by left].
    destruct (m !! j) as [t|]; cbn; [|by left]. destruct (is_active t) eqn:Ea; [|by left].
    apply bool_decide_eq_true in Ea. right; right; right; left. by exists t, now, Committed, (operations t).
  - unfold rollback. rewrite on_active_lookup. case_bool_decide; [|by left].
    destruct (m !! j) as [t|]; cbn; [|by left]. destruct (is_active t) eqn:Ea; [|by left].
    apply bool_decide_eq_true in Ea. right; right; right; left. by exists t, now, RolledBack, [].
  - rewrite cleanup_lookup. destruct (m !! j) as [t|]; cbn; [|by left].
    destruct (expired now t) eqn:E; [|by left]. right; right; right; right. by exists t, now.
Qed.

(** ** The limit *)

Lemma length_active (l : list (string * Transaction)) :
  length (retain is_active l.*2) = length (filter (λ p, state p.2 = Active) l).
Proof.
  induction l as [|[k t] l IH]; [done|]. rewrite fmap_cons, filter_cons. cbn [retain snd].
  unfold is_active at 1. case_decide as Ht.
  - rewrite bool_decide_true by done. cbn [length]. by rewrite IH.
  - by rewrite bool_decide_false by done.
Qed.

Lemma active_count_size m : active_count m = size (filter (λ p, state p.2 = Active) m).
Proof.
  unfold active_count. rewrite length_active, <- length_map_to_list, map_filter_alt, map_to_list_to_map; [done|].
  eapply sublist_NoDup; [apply (NoDup_fst_map_to_list m)|]. apply fmap_sublist, sublist_filter.
Qed.

Lemma active_count_insert m i t :
  (active_count (<[i := t]> m) ≤ active_count m + (if is_active t then 1 else 0))%nat.
Proof.
  rewrite !active_count_size. unfold is_active. rewrite map_filter_insert. case_decide as Hd.
  - cbn in Hd. rewrite bool_decide_true by done. rewrite map_size_insert. case_match; unfold Datatypes.id; lia.
  - etrans; [apply map_subseteq_size, map_filter_subseteq_mono, delete_subseteq|]. lia.
Qed.

Lemma active_count_mono m m' :
  (∀ j t, m' !! j = Some t → state t = Active → ∃ t', m !! j = Some t' ∧ state t' = Active) →
  (active_count m' ≤ active_count m)%nat.
Proof.
  intros Hm. rewrite !active_count_size, <- !size_dom. apply subseteq_size. intros j.
  rewrite !elem_of_dom. intros [t [Ht Ha]%map_lookup_filter_Some]. cbn in Ha.
  destruct (Hm j t Ht Ha) as (t' & Ht' & Ha'). exists t'. by apply map_lookup_filter_Some.
Qed.

Lemma on_active_mono {A} i (f : Transaction → Transaction * A) m :
  (active_count (on_active i f m).1 ≤ active_count m)%nat.
Proof.
  apply active_count_mono. intros j t Ht Ha. rewrite on_active_lookup in Ht. case_bool_decide; [|by eauto].
  destruct (m !! j) as [t0|]; [|done]. cbn in Ht. exists t0. split; [done|].
  unfold is_active in Ht. case_bool_decide; [done|]. by simplify_eq.
Qed.

Lemma cleanup_mono now m : (active_count (cleanup_expired now m).1 ≤ active_count m)%nat.
Proof.
  apply active_count_mono. intros j t Ht Ha. rewrite cleanup_lookup in Ht.
  destruct (m !! j) as [t0|]; [|done]. cbn in Ht. case_match; simplify_eq. by eauto.
Qed.

(** The concurrency limit.  However calls follow each other, at most
    [max_concurrent] transactions are active; beginning one more fails and
    changes nothing. *)
Theorem active_transactions_bounded cs :
  let m := foldl run_call manager_new cs in
  (active_count m ≤ max_concurrent config)%nat ∧
  ∀ now now' pid, (begin now now' pid m).2 = Err TooManyTransactions ↔ active_count m = max_concurrent config.
Proof.
  cbv zeta. assert (active_count (foldl run_call manager_new cs) ≤ max_concurrent config)%nat as Hb.
  { induction cs as [|c cs IH] using rev_ind; [unfold active_count; cbn [foldl]; unfold manager_new; rewrite map_to_list_empty; cbn; lia|]. rewrite foldl_app. cbn.
    set (m := foldl run_call manager_new cs) in *. destruct c as [now now' pid|i op|now i|now i|now]; cbn [run_call].
    - unfold begin. destruct (Nat.leb_spec (max_concurrent config) (active_count m)) as [Hl|Hl]; cbn; [done|].
      etrans; [apply active_count_insert|]. destruct (is_active _); lia.
    - etrans; [apply on_active_mono | exact IH].
    - etrans; [apply on_active_mono | exact IH].
    - etrans; [apply on_active_mono | exact IH].
    - etrans; [apply cleanup_mono | exact IH]. }
  split; [exact Hb|]. intros now now' pid. unfold begin.
  destruct (Nat.leb_spec (max_concurrent config) (active_count (foldl run_call manager_new cs))); cbn; split; try done; lia.
Qed.

(** ** What a commit hands out *)

Definition buffered (i : string) (cs : list call) : list BufferedOperation :=
  omap (λ c, match c with Buffer j op => if bool_decide (j = i) then Some op else None | _ => None end) cs.

(** Calls that neither end nor replace the transaction [i], started at [start]. *)
Definition keeps_open (i start : string) (c : call) : Prop :=
  match c with
  | Begin now _ pid => new_id now pid ≠ i
  | Buffer _ _ => True
  | Commit _ j | Rollback _ j => j ≠ i
  | Cleanup now => older now start = false
  end.

Lemma open_step i start c m t :
  m !! i = Some t → state t = Active → started_at t = start → keeps_open i start c →
  ∃ t', run_call m c !! i = Some t' ∧ state t' = Active ∧ started_at t' = start ∧
    operations t' = operations t ++ buffered i [c].
Proof.
  intros Ht Ha Hs Hc. destruct c as [now now' pid|j op|now j|now j|now]; cbn [run_call buffered omap list_omap];
    rewrite ?app_nil_r.
  - exists t. split_and!; try done. unfold begin. destruct (_ <=? _)%nat; [done|]. cbn. by rewrite lookup_insert_ne.
  - unfold buffer_operation. rewrite on_active_lookup. case_bool_decide; [|by exists t; rewrite app_nil_r].
    rewrite Ht. cbn. unfold is_active. rewrite bool_decide_true by done. by eexists.
  - exists t. split_and!; try done. unfold commit. rewrite on_active_lookup. by rewrite bool_decide_false.
  - exists t. split_and!; try done. unfold rollback. rewrite on_active_lookup. by rewrite bool_decide_false.
  - exists t. split_and!; try done. rewrite cleanup_lookup, Ht. cbn. unfold expired, is_active.
    rewrite bool_decide_true by done. cbn in Hc. by rewrite Hs, Hc.
Qed.

(** What a commit hands out.  However the calls of other transactions
    come in between, committing an open transaction hands out the operations
    buffered for it, in order; a second commit or a rollback then reports that
    it is committed, and buffering is refused. *)
Theorem commit_hands_out m i t cs now :
  m !! i = Some t → state t = Active → Forall (keeps_open i (started_at t)) cs →
  let m1 := foldl run_call m cs in
  let '(m2, r) := commit now i m1 in
  r = Ok (operations t ++ buffered i cs) ∧
  (∀ now', (commit now' i m2).2 = Err (AlreadyCommitted i)) ∧ (∀ now', (rollback now' i m2).2 = Err (AlreadyCommitted i)) ∧
  (∀ op, buffer_operation i op m2 = (m2, Err (AlreadyCommitted i))) ∧ ∀ j, j ≠ i → m2 !! j = m1 !! j.
Proof.
  intros Ht Ha Hcs. cbv zeta.
  assert (∃ t', foldl run_call m cs !! i = Some t' ∧ state t' = Active ∧
    operations t' = operations t ++ buffered i cs) as (t' & Ht' & Ha' & Ho).
  { remember (started_at t) as start eqn:Hs. symmetry in Hs. revert m t Ht Ha Hs.
    induction Hcs as [|c cs Hc _ IH]; intros m t Ht Ha Hs; cbn [foldl].
    - exists t. by rewrite app_nil_r.
    - destruct (open_step _ _ _ _ _ Ht Ha Hs Hc) as (t1 & Ht1 & Ha1 & Hs1 & Ho1).
      destruct (IH _ _ Ht1 Ha1 Hs1) as (t' & ? & ? & Ho'). exists t'. split_and!; try done.
      rewrite Ho', Ho1. rewrite <- app_assoc. f_equal. unfold buffered. change (c :: cs) with ([c] ++ cs).
      by rewrite omap_app. }
  unfold commit, rollback, buffer_operation, on_active. rewrite Ht', Ha'. rewrite Ho. split; [done|].
  rewrite !lookup_insert_eq. cbn. split_and!; try done. intros j Hj. by rewrite lookup_insert_ne.
Qed.

(** Identifiers depend on the clock and the process only.  Beginning
    twice in one process within the resolution of the clock gives one
    identifier: the second begin discards what the first had buffered. *)
Theorem begin_replaces m now now1 now2 pid ops :
  let i := new_id now pid in
  (active_count m + 1 < max_concurrent config)%nat → m !! i = None →
  let m1 := foldl (λ m op, (buffer_operation i op m).1) (begin now now1 pid m).1 ops in
  (begin now now2 pid m1).2 = Ok i ∧ ∀ t, (commit t i (begin now now2 pid m1).1).2 = Ok [].
Proof.
  cbv zeta. intros Hl Hn. unfold begin at 2 4. rewrite (proj2 (Nat.leb_gt _ _)) by lia. cbn [fst].
  set (m0 := <[new_id now pid := _]> m). set (m1 := foldl _ m0 ops).
  assert (active_count m1 ≤ active_count m + 1)%nat as Hm1.
  { etrans; [|etrans; [apply (active_count_insert m (new_id now pid) (mkTxn (new_id now pid) Active [] (to_rfc3339 now1) None))|
      by destruct (is_active _); lia]]. fold m0. unfold m1. clearbody m0. clear m1. revert m0.
    induction ops as [|op ops IH]; intros m0; cbn; [done|]. etrans; [apply IH|]. apply on_active_mono. }
  unfold begin. rewrite (proj2 (Nat.leb_gt _ _)) by lia. cbn. split; [done|]. intros t.
  unfold commit, on_active. rewrite lookup_insert_eq. done.
Qed.

End manager.

(** ** Witnesses *)

Module Witness.

#[export] Instance clock : Clock := {|
  Instant := Z; timestamp_nanos_opt := Some; to_rfc3339 := fmt_u64; parse_from_rfc3339 := parse_u64;
  longer_ago := λ now t s, s * 1000000000 <? now - t |}.
#[export] Instance toy_digest : Digest := λ l, take 32 (l ++ replicate 32 (byte_of_Z 0)).

Definition at_ (t : Z) : Instant := t.
Definition op (s : string) : BufferedOperation := mkOp s Create (as_bytes "{}") "t".
Definition first : gmap string Transaction := (begin config_default (at_ 7) (at_ 8) 1 manager_new).1.
Definition first_id : string := new_id (at_ 7) 1.

Lemma commit_hands_out_witness :
  (commit (at_ 9) first_id
     (foldl (run_call config_default) first
        [Buffer first_id (op "a"); Begin (at_ 8) (at_ 8) 1; Buffer first_id (op "b")])).2 = Ok [op "a"; op "b"].
Proof.
  pose proof (commit_hands_out config_default first first_id (mkTxn first_id Active [] (fmt_u64 8) None)
    [Buffer first_id (op "a"); Begin (at_ 8) (at_ 8) 1; Buffer first_id (op "b")] (at_ 9)) as H.
  cbv zeta in H. destruct (commit _ _ _) as [m2 r]. apply H.
  - vm_compute. reflexivity.
  - reflexivity.
  - constructor; [exact I|]. constructor; [|constructor; [exact I|constructor]]. vm_compute. discriminate.
Defined.

Lemma begin_replaces_witness :
  (begin config_default (at_ 7) (at_ 9) 1
     (foldl (λ m o, (buffer_operation (new_id (at_ 7) 1) o m).1) first [op "a"])).2 = Ok (new_id (at_ 7) 1).
Proof.
  apply (begin_replaces config_default manager_new (at_ 7) (at_ 8) (at_ 9) 1 [op "a"]).
  - vm_compute. lia.
  - reflexivity.
Defined.

End Witness.
