(* ===== verification/Hnsw.v ===== *)
(** The HNSW vector index (verisim-vector/src/hnsw.rs): the layered graph, its
    beam search, insertion with pruned links, and the vector store built on
    it.  A [BinaryHeap] is the list of its elements in the order they are
    popped, which its documentation determines when the order of the elements
    is total, that is, when no distance is a NaN; [into_iter] may give any
    order, a parameter.  Indexing [nodes] is written as a lookup: that every
    index is in range is proved with the invariant of the graph. *)

From S2P Require Import Prelude Machine Text Collections Float64 Format OctadTypes Modalities ModalityStores.

Import Vector.

(** [HashMap]'s default hasher applied to an identifier and a counter, and
    the natural logarithm. *)
Class LevelHash := level_hash : string → Z → Z.
Class NatLog := f64_ln : f64 → f64.

(** The order in which [BinaryHeap::into_iter] gives the elements. *)
Class HeapIter := heap_iter : list (f32 * nat) → list (f32 * nat).
Class HeapIterLaws (I : HeapIter) := heap_iter_perm l : heap_iter l ≡ₚ l.

Definition MAX_LEVELS : nat := 16.

(** [f32::MAX], 1.0 and 0.0. *)
Definition f32_MAX : f32 := S754_finite false 16777215 104.
Definition f32_one : f32 := f32_of_u64 1.
Definition f32_zero : f32 := S754_zero false.
Definition f32_neg (x : f32) : f32 := SFopp x.
Definition f32_ltb (a b : f32) : bool := SFltb a b.

Record HnswConfig := mkHnswConfig {
  max_connections : nat; max_connections_layer0 : nat; ef_construction : nat; ef_search : nat }.

Definition hnsw_default : HnswConfig := mkHnswConfig 16 32 200 64.

(** [node_neighbors]: per layer, indices of nodes. *)
Record Node := mkHNode {
  node_id : string;
  node_vector : list f32;
  node_metadata : gmap string string;
  node_neighbors : list (list nat);
  node_level : nat;
  deleted : bool;
}.

Record Graph := mkGraph {
  nodes : list Node;
  id_map : gmap string nat;
  entry_point : option nat;
  current_max_level : nat;
}.

Definition graph_new : Graph := mkGraph [] ∅ None 0.

(** ** Distances *)

Definition distance (m : DistanceMetric) (a b : list f32) : f32 :=
  match m with
  | Cosine =>
      let '(dot, norm_a, norm_b) :=
        foldl (λ acc p, (f32_add acc.1.1 (f32_mul p.1 p.2), f32_add acc.1.2 (f32_mul p.1 p.1),
                         f32_add acc.2 (f32_mul p.2 p.2))) (f32_zero, f32_zero, f32_zero) (zip a b) in
      let denom := f32_mul (f32_sqrt norm_a) (f32_sqrt norm_b) in
      if f32_ltb f32_zero denom then f32_sub f32_one (f32_div dot denom) else f32_one
  | Euclidean => f32_sqrt (f32_sum (zip_with (λ x y, let d := f32_sub x y in f32_mul d d) a b))
  | DotProduct => f32_neg (f32_sum (zip_with f32_mul a b))
  end.

Definition distance_to_score (m : DistanceMetric) (d : f32) : f32 :=
  match m with
  | Cosine => f32_sub f32_one d
  | Euclidean => f32_div f32_one (f32_add f32_one d)
  | DotProduct => f32_neg d
  end.

(** ** Heaps *)

(** [Dist]'s [cmp], and the order of pairs. *)
Definition dist_cmp (a b : f32) : comparison := default Eq (SFcompare a b).
Definition pair_ltb (a b : f32 * nat) : bool :=
  match dist_cmp a.1 b.1 with Lt => true | Gt => false | Eq => (a.2 <? b.2)%nat end.

Abbreviation Heap := (list (f32 * nat)).

(** [BinaryHeap<Reverse<_>>], least first, and [BinaryHeap<_>], greatest first. *)
Definition push_min (x : f32 * nat) (h : Heap) : Heap := insert_lt pair_ltb x h.
Definition push_max (x : f32 * nat) (h : Heap) : Heap := insert_lt (λ a b, pair_ltb b a) x h.

(** [peek().map(..).unwrap_or(f32::MAX)]. *)
Definition furthest (results : Heap) : f32 := match results with (d, _) :: _ => d | [] => f32_MAX end.

(** ** Searching a layer *)

Record Beam := mkBeam { visited : gset nat; candidates : Heap; results : Heap }.

Section search.
Context `{HeapIter} (metric : DistanceMetric).

Definition start (ns : list Node) (query : list f32) (b : Beam) (ep : nat) : Beam :=
  match ns !! ep with
  | None => b
  | Some nd =>
      let d := distance metric query (node_vector nd) in
      mkBeam ({[ep]} ∪ visited b) (push_min (d, ep) (candidates b))
        (if deleted nd then results b else push_max (d, ep) (results b))
  end.

(** A live node enters the results when it is closer than the furthest of
    them or they are fewer than [ef]. *)
Definition offer (ef : nat) (x : f32 * nat) (r : Heap) : Heap :=
  if f32_ltb x.1 (furthest r) || (length r <? ef)%nat then
    let r := push_max x r in if (ef <? length r)%nat then tail r else r
  else r.

Definition visit (ns : list Node) (query : list f32) (ef : nat) (b : Beam) (n : nat) : Beam :=
  match ns !! n with
  | None => b
  | Some nd =>
      if bool_decide (n ∈ visited b) then b
      else
        let d := distance metric query (node_vector nd) in
        mkBeam ({[n]} ∪ visited b) (push_min (d, n) (candidates b))
          (if deleted nd then results b else offer ef (d, n) (results b))
  end.

(** The links of a node on a layer. *)
Definition links (ns : list Node) (layer n : nat) : list nat :=
  match ns !! n with Some nd => default [] (node_neighbors nd !! layer) | None => [] end.

(** The loop; [None] is out of fuel. *)
Fixpoint beam_loop (fuel : nat) (ns : list Node) (query : list f32) (ef layer : nat) (b : Beam) : option Beam :=
  match fuel with
  | O => None
  | S fuel =>
      match candidates b with
      | [] => Some b
      | (d, c) :: rest =>
          let b := mkBeam (visited b) rest (results b) in
          if f32_ltb (furthest (results b)) d && (ef <=? length (results b))%nat then Some b
          else beam_loop fuel ns query ef layer (foldl (visit ns query ef) b (links ns layer c))
      end
  end.

Definition closer (a b : f32 * nat) : bool := f32_ltb a.1 b.1.

(** One pop for every entry point and for every node, and the last check. *)
Definition beam_fuel (ns : list Node) (entry_points : list nat) : nat := S (length entry_points + length ns).

Definition search_layer (ns : list Node) (query : list f32) (entry_points : list nat) (ef layer : nat) : Heap :=
  let b := foldl (start ns query) (mkBeam ∅ [] []) entry_points in
  match beam_loop (beam_fuel ns entry_points) ns query ef layer b with
  | Some b => sort_by closer (heap_iter (results b))
  | None => []
  end.

(** [(lo..=hi).rev()] *)
Definition down (lo hi : nat) : list nat := reverse (seq lo (S hi - lo)).

(** One step of the greedy descent. *)
Definition descend (ns : list Node) (query : list f32) (ep : list nat) (layer : nat) : list nat :=
  match search_layer ns query ep 1 layer with (_, i) :: _ => [i] | [] => ep end.

Definition graph_search (g : Graph) (query : list f32) (k ef : nat) : Heap :=
  match entry_point g with
  | None => []
  | Some ep =>
      let current_ep := foldl (descend (nodes g) query) [ep] (down 1 (current_max_level g)) in
      take k (search_layer (nodes g) query current_ep (Nat.max ef k) 0)
  end.

(** ** Insertion *)

Definition set_neighbors (nb : list (list nat)) (nd : Node) : Node :=
  mkHNode (node_id nd) (node_vector nd) (node_metadata nd) nb (node_level nd) (deleted nd).

(** [neighbors[l].push(n)] where the layer exists. *)
Definition push_link (l n : nat) (nd : Node) : Node :=
  set_neighbors (alter (λ ns, ns ++ [n]) l (node_neighbors nd)) nd.

(** The layers up to [l] exist. *)
Definition grow (l : nat) (nd : Node) : Node :=
  set_neighbors (node_neighbors nd ++ replicate (S l - length (node_neighbors nd)) []) nd.

Definition vector_at (ns : list Node) (n : nat) : list f32 :=
  match ns !! n with Some nd => node_vector nd | None => [] end.

(** Keep the [cap] links nearest to the node. *)
Definition nearest_links (ns : list Node) (v : list f32) (cap : nat) (l : list nat) : list nat :=
  (take cap (sort_by closer ((λ n, (distance metric v (vector_at ns n), n)) <$> l))).*2.

Definition prune (ns : list Node) (l cap : nat) (nd : Node) : Node :=
  set_neighbors
    (alter (λ links, if (cap <? length links)%nat then nearest_links ns (node_vector nd) cap links else links)
       l (node_neighbors nd)) nd.

(** Link the new node [n] and [m] on layer [l], both ways. *)
Definition connect (l cap n : nat) (ns : list Node) (m : nat) : list Node :=
  let ns := alter (push_link l m) n ns in
  let ns := alter (λ nd, push_link l n (grow l nd)) m ns in
  alter (prune ns l cap) m ns.

Definition capacity (c : HnswConfig) (l : nat) : nat :=
  if (l =? 0)%nat then max_connections_layer0 c else max_connections c.

Definition select_neighbors (l : Heap) (m : nat) : list nat := (take m l).*2.

(** One layer of the second phase; [ep] is the entry point of the graph. *)
Definition link_layer (c : HnswConfig) (query : list f32) (n ep : nat) (acc : list Node * list nat) (l : nat) :
    list Node * list nat :=
  let '(ns, current_ep) := acc in
  let nearest := search_layer ns query current_ep (ef_construction c) l in
  let ns := foldl (connect l (capacity c l) n) ns (select_neighbors nearest (capacity c l)) in
  let current_ep := nearest.*2 in
  (ns, if (length current_ep =? 0)%nat then [ep] else current_ep).

Context `{LevelHash} `{NatLog}.

(** [count] is the global counter before it is incremented. *)
Definition assign_level (id : string) (max_conn : nat) (count : Z) : nat :=
  let hash := level_hash id count in
  let uniform := f64_div (f64_add (f64_of_u64 (hash ≫ 11)) f64_one) (f64_add (f64_of_u64 (2 ^ 53)) f64_one) in
  let ml := f64_div f64_one (f64_ln (f64_of_u64 (Z.of_nat max_conn))) in
  Nat.min (Z.to_nat (Z.min (f64_to_u64 (f64_mul (f64_neg (f64_ln uniform)) ml)) 15)) (MAX_LEVELS - 1).

(** A known identifier: the node's data changes in place. *)
Definition update_node (v : list f32) (md : gmap string string) (nd : Node) : Node :=
  mkHNode (node_id nd) v md (node_neighbors nd) (node_level nd) false.

(** The graph with the node linked at the level it was assigned. *)
Definition insert_at (c : HnswConfig) (level : nat) (id : string) (v : list f32) (md : gmap string string)
    (g : Graph) : Graph :=
  let n := length (nodes g) in
  let ns := nodes g ++ [mkHNode id v md (replicate (S level) []) level false] in
  let ids := <[id := n]> (id_map g) in
  match entry_point g with
  | None => mkGraph ns ids (Some n) level
  | Some ep =>
      let top := current_max_level g in
      let current_ep := if (level <? top)%nat then foldl (descend ns v) [ep] (down (S level) top) else [ep] in
      let '(ns, _) := foldl (link_layer c v n ep) (ns, current_ep) (down 0 (Nat.min level top)) in
      if (top <? level)%nat then mkGraph ns ids (Some n) level else mkGraph ns ids (Some ep) top
  end.

Definition insert (c : HnswConfig) (id : string) (v : list f32) (md : gmap string string) (gc : Graph * Z) : Graph * Z :=
  let '(g, count) := gc in
  match id_map g !! id with
  | Some i => (mkGraph (alter (update_node v md) i (nodes g)) (id_map g) (entry_point g) (current_max_level g), count)
  | None => (insert_at c (assign_level id (max_connections c) count) id v md g, wrap 64 (count + 1))
  end.

End search.

(** ** The store *)

(** [insert_counter] is global to the process: other indexes advance it too. *)
Record HnswVectorStore := mkHnsw {
  hnsw_config : HnswConfig;
  hnsw_dimension : nat;
  hnsw_metric : DistanceMetric;
  graph : Graph;
  insert_counter : Z;
}.

Definition hnsw_new (dim : nat) (m : DistanceMetric) (c : HnswConfig) (count : Z) : HnswVectorStore :=
  mkHnsw c dim m graph_new count.
Definition hnsw_with_defaults (dim : nat) (m : DistanceMetric) (count : Z) : HnswVectorStore :=
  hnsw_new dim m hnsw_default count.

Definition set_graph (g : Graph) (s : HnswVectorStore) : HnswVectorStore :=
  mkHnsw (hnsw_config s) (hnsw_dimension s) (hnsw_metric s) g (insert_counter s).

Definition hnsw_len (s : HnswVectorStore) : nat := length (retain (λ n, negb (deleted n)) (nodes (graph s))).
Definition hnsw_is_empty (s : HnswVectorStore) : bool := (hnsw_len s =? 0)%nat.

Section store.
Context `{HeapIter} `{LevelHash} `{NatLog}.

Definition hnsw_upsert (e : Embedding) : SR HnswVectorStore string unit := λ s,
  if negb (dim e =? hnsw_dimension s)%nat then (s, Err (mismatch (hnsw_dimension s) (dim e)))
  else
    let '(g, count) := insert (hnsw_metric s) (hnsw_config s) (emb_id e) (vector e) (emb_metadata e)
                         (graph s, insert_counter s) in
    (mkHnsw (hnsw_config s) (hnsw_dimension s) (hnsw_metric s) g count, Ok ()).

(** A search result: the identifier of the node and its score. *)
Definition result_of (s : HnswVectorStore) (p : f32 * nat) : string * f32 :=
  (match nodes (graph s) !! p.2 with Some nd => node_id nd | None => EmptyString end,
   distance_to_score (hnsw_metric s) p.1).

Definition hnsw_search (query : list f32) (k : nat) (s : HnswVectorStore) : result string (list (string * f32)) :=
  ensure (length query =? hnsw_dimension s)%nat else mismatch (hnsw_dimension s) (length query) ;;
  Ok (result_of s <$> graph_search (hnsw_metric s) (graph s) query k (ef_search (hnsw_config s))).

Definition hnsw_get (id : string) (s : HnswVectorStore) : result string (option Embedding) :=
  Ok (i ← id_map (graph s) !! id; nd ← nodes (graph s) !! i;
      if deleted nd then None else Some (mkEmbedding (node_id nd) (node_vector nd) (node_metadata nd))).

Definition mark_deleted (nd : Node) : Node :=
  mkHNode (node_id nd) (node_vector nd) (node_metadata nd) (node_neighbors nd) (node_level nd) true.

Definition hnsw_delete (id : string) : SR HnswVectorStore string unit :=
  sr_modify (λ s, let g := graph s in
    match id_map g !! id with
    | Some i => set_graph (mkGraph (alter mark_deleted i (nodes g)) (id_map g) (entry_point g) (current_max_level g)) s
    | None => s
    end).

End store.
