(* ===== verification/HnswBeam.v ===== *)
(** The beam search of one layer of the HNSW index: it always ends, what it
    returns are distinct live nodes reachable from the entry points, it returns
    all of them when the beam is wide enough, and in general it is locally
    optimal. *)

From S2P Require Import Prelude Machine Text Collections Float64 Format OctadTypes Modalities ModalityStores Hnsw.
Import Vector.

Section beam.
Context `{HeapIterLaws} (metric : DistanceMetric) (ns : list Node) (query : list f32).
Implicit Types (b : Beam) (n m : nat) (eps : list nat).

Abbreviation visit := (visit metric ns query).
Abbreviation start := (start metric ns query).

(** ** Nodes *)

Definition dist_to n : f32 := distance metric query (vector_at ns n).
Definition known n : Prop := (n < length ns)%nat.
Definition live n : Prop := ∃ nd, ns !! n = Some nd ∧ deleted nd = false.
#[export] Instance live_dec n : Decision (live n).
Proof.
  destruct (ns !! n) as [nd|] eqn:E.
  - destruct (deleted nd) eqn:Ed; [right|left; by exists nd]. intros (nd' & Hn & Hd). congruence.
  - right. by intros (nd & Hn & _); rewrite E in Hn.
Defined.

Lemma live_known n : live n → known n.
Proof. intros (nd & Hn & _). by eapply lookup_lt_Some. Qed.

(** Linked on a layer, to a node that exists. *)
Definition edge (layer : nat) n m : Prop := m ∈ links ns layer n ∧ known m.
Definition reachable (layer : nat) eps n : Prop := ∃ e, e ∈ eps ∧ rtc (edge layer) e n.

Lemma reachable_edge layer eps n m : reachable layer eps n → edge layer n m → reachable layer eps m.
Proof. intros (e & He & Hr) Hm. exists e. split; [done|]. by eapply rtc_r. Qed.

(** ** One visit

    What [start] and [visit] do for a node that is there. *)
Lemma start_eq b n :
  known n → start b n = mkBeam ({[n]} ∪ visited b) (push_min (dist_to n, n) (candidates b))
    (if decide (live n) then push_max (dist_to n, n) (results b) else results b).
Proof.
  intros [nd Hn]%lookup_lt_is_Some_2. unfold Hnsw.start, dist_to, vector_at. rewrite Hn.
  case_decide as Hl; destruct (deleted nd) eqn:Ed; try done.
  - destruct Hl as (nd' & Hn' & Hd). congruence.
  - destruct Hl. by exists nd.
Qed.

Lemma visit_eq ef b n :
  known n → n ∉ visited b →
  visit ef b n = mkBeam ({[n]} ∪ visited b) (push_min (dist_to n, n) (candidates b))
    (if decide (live n) then offer ef (dist_to n, n) (results b) else results b).
Proof.
  intros [nd Hn]%lookup_lt_is_Some_2 Hv. unfold Hnsw.visit, dist_to, vector_at. rewrite Hn.
  rewrite bool_decide_false by done. case_decide as Hl; destruct (deleted nd) eqn:Ed; try done.
  - destruct Hl as (nd' & Hn' & Hd). congruence.
  - destruct Hl. by exists nd.
Qed.

Lemma visit_skip ef b n : ¬ (known n ∧ n ∉ visited b) → visit ef b n = b.
Proof.
  intros Hs. unfold Hnsw.visit. destruct (ns !! n) as [nd|] eqn:En; [|done].
  case_bool_decide; [done|]. destruct Hs. split; [by eapply lookup_lt_Some | done].
Qed.

Lemma push_min_perm x h : push_min x h ≡ₚ x :: h.
Proof. apply insert_lt_perm. Qed.
Lemma push_max_perm x h : push_max x h ≡ₚ x :: h.
Proof. apply insert_lt_perm. Qed.

(** Every heap element is a node with its distance. *)
Definition scored (x : f32 * nat) : Prop := known x.2 ∧ x.1 = dist_to x.2.

Record beam_ok b : Prop := {
  ok_candidates : Forall scored (candidates b);
  ok_candidates_visited : ∀ n, n ∈ (candidates b).*2 → n ∈ visited b;
  ok_results : ∀ x, x ∈ results b → scored x ∧ live x.2 ∧ x.2 ∈ visited b;
  ok_nodup : NoDup (results b).*2;
  ok_visited : ∀ n, n ∈ visited b → known n;
}.

Lemma scored_dist n : known n → scored (dist_to n, n).
Proof. by split. Qed.

Lemma offer_incl ef x r y : y ∈ offer ef x r → y = x ∨ y ∈ r.
Proof.
  unfold offer. case_match; [|by right]. assert (Hp : ∀ y, y ∈ push_max x r → y = x ∨ y ∈ r).
  { intros y' Hy. rewrite push_max_perm in Hy. by apply elem_of_cons in Hy. }
  case_match; [|by auto]. intros Hy. apply Hp. destruct (push_max x r); [done|]. by right.
Qed.

Lemma offer_nodup ef x r : x.2 ∉ r.*2 → NoDup r.*2 → NoDup (offer ef x r).*2.
Proof.
  intros Hx Hr. unfold offer. case_match; [|done].
  assert (Hn : NoDup (push_max x r).*2) by (rewrite push_max_perm, fmap_cons; by constructor).
  case_match; [|done]. destruct (push_max x r); [done|]. cbn in *. by apply NoDup_cons in Hn as [_ Hn].
Qed.

(** Adding a node that was not visited; [r] are its results. *)
Lemma beam_ok_add b n r :
  beam_ok b → known n →
  (∀ x, x ∈ r → x ∈ results b ∨ (live n ∧ x = (dist_to n, n))) → NoDup r.*2 →
  beam_ok (mkBeam ({[n]} ∪ visited b) (push_min (dist_to n, n) (candidates b)) r).
Proof.
  intros [Hc Hcv Hr Hn Hv] Hk Hin Hnd. split; cbn.
  - rewrite push_min_perm. constructor; [by apply scored_dist|done].
  - intros m Hm. rewrite push_min_perm, fmap_cons in Hm. set_solver.
  - intros x Hx. destruct (Hin x Hx) as [Hx'|[Hl ->]].
    + destruct (Hr x Hx') as (? & ? & ?). split_and!; [done..|set_solver].
    + split_and!; [by apply scored_dist|done|cbn; set_solver].
  - done.
  - intros m [->%elem_of_singleton|?]%elem_of_union; auto.
Qed.

Lemma results_not_visited b n : beam_ok b → n ∉ visited b → n ∉ (results b).*2.
Proof.
  intros Hb Hn (x & -> & Hx)%list_elem_of_fmap. by apply (ok_results b Hb) in Hx as (_ & _ & ?).
Qed.

Lemma beam_ok_visit ef b n : beam_ok b → beam_ok (visit ef b n).
Proof.
  intros Hb. destruct (decide (known n ∧ n ∉ visited b)) as [[Hk Hn]|Hs].
  - rewrite visit_eq by done. apply beam_ok_add; [done..| |].
    + intros x. case_decide; [|by left]. intros [->|?]%offer_incl; auto.
    + case_decide; [|apply Hb]. apply offer_nodup; [by apply results_not_visited | apply Hb].
  - by rewrite visit_skip.
Qed.

Lemma beam_ok_fold ef b l : beam_ok b → beam_ok (foldl (visit ef) b l).
Proof. revert b. induction l as [|n l IH]; intros b Hb; [done|]. apply IH. by apply beam_ok_visit. Qed.

Lemma beam_ok_start b n : beam_ok b → known n → n ∉ visited b → beam_ok (start b n).
Proof.
  intros Hb Hk Hn. rewrite start_eq by done. apply beam_ok_add; [done..| |].
  - intros x. case_decide; [|by left]. rewrite push_max_perm, elem_of_cons. naive_solver.
  - case_decide; [|apply Hb]. rewrite push_max_perm, fmap_cons. constructor; [|apply Hb].
    by apply results_not_visited.
Qed.

Lemma beam_ok_pop b x rest :
  beam_ok b → candidates b = x :: rest → beam_ok (mkBeam (visited b) rest (results b)).
Proof.
  intros [Hc Hcv Hr Hn Hv] Hx. rewrite Hx in *. split; cbn; try done.
  - by apply Forall_cons in Hc as [_ Hc].
  - intros m Hm. apply Hcv. rewrite fmap_cons. set_solver.
Qed.

Lemma visited_fold ef b l n :
  n ∈ visited (foldl (visit ef) b l) ↔ n ∈ visited b ∨ (n ∈ l ∧ known n).
Proof.
  revert b. induction l as [|m l IH]; intros b; cbn [foldl]; [set_solver|]. rewrite IH, elem_of_cons.
  destruct (decide (known m ∧ m ∉ visited b)) as [[Hk Hm]|Hs].
  - rewrite visit_eq by done. cbn. rewrite elem_of_union, elem_of_singleton. naive_solver.
  - rewrite visit_skip by done. split; [naive_solver|]. intros [?|[[->|?] Hk]]; auto.
    left. destruct (decide (m ∈ visited b)); [done|]. by destruct Hs.
Qed.

(** ** Termination

    Every pop uses up a candidate and every new candidate a node. *)
Definition work b : nat := length (candidates b) + (length ns - size (visited b)).

Lemma size_visited b : beam_ok b → (size (visited b) ≤ length ns)%nat.
Proof.
  intros Hb. rewrite <- (length_seq (length ns) 0), <- (size_list_to_set (C := gset nat) (seq 0 (length ns))) by apply NoDup_seq.
  apply subseteq_size. intros n Hn%(ok_visited b Hb). apply elem_of_list_to_set, elem_of_seq. unfold known in Hn. lia.
Qed.

Lemma work_visit ef b n : beam_ok b → (work (visit ef b n) ≤ work b)%nat.
Proof.
  intros Hb. destruct (decide (known n ∧ n ∉ visited b)) as [[Hk Hn]|Hs].
  - pose proof (size_visited _ (beam_ok_visit ef b n Hb)) as Hsz. revert Hsz. rewrite visit_eq by done.
    unfold work. cbn [visited candidates]. rewrite push_min_perm. cbn [length].
    rewrite size_union, size_singleton by set_solver. lia.
  - by rewrite visit_skip.
Qed.

Lemma work_fold ef b l : beam_ok b → (work (foldl (visit ef) b l) ≤ work b)%nat.
Proof.
  revert b. induction l as [|n l IH]; intros b Hb; [done|]. cbn [foldl]. etrans; [by apply IH, beam_ok_visit|].
  by apply work_visit.
Qed.

(** Rule of the loop: an invariant of its iterations holds at its end, which
    is reached; there the candidates are used up or the beam is full of nodes
    closer than the next candidate. *)
Lemma beam_loop_ind (P : Beam → Prop) ef layer fuel b :
  (work b < fuel)%nat → beam_ok b → P b →
  (∀ b d c rest, beam_ok b → P b → candidates b = (d, c) :: rest →
     f32_ltb (furthest (results b)) d && (ef <=? length (results b))%nat = false →
     P (foldl (visit ef) (mkBeam (visited b) rest (results b)) (links ns layer c))) →
  ∃ b0 b', beam_loop metric fuel ns query ef layer b = Some b' ∧ beam_ok b0 ∧ P b0 ∧
    visited b' = visited b0 ∧ results b' = results b0 ∧
    (candidates b0 = [] ∨ ∃ d c rest, candidates b0 = (d, c) :: rest ∧
       f32_ltb (furthest (results b0)) d = true ∧ (ef ≤ length (results b0))%nat).
Proof.
  revert b. induction fuel as [|fuel IH]; intros b Hw Hb HP Hstep; [lia|]. cbn [beam_loop].
  destruct (candidates b) as [|[d c] rest] eqn:Ec; [by exists b, b; auto 10|]. cbn [results].
  destruct (f32_ltb (furthest (results b)) d && (ef <=? length (results b))%nat) eqn:E.
  - apply andb_true_iff in E as [E1 E2%Nat.leb_le]. exists b. eexists. split; [done|]. split_and!; try done.
    right. eauto 10.
  - apply IH; [|by eapply beam_ok_fold, beam_ok_pop|by eapply Hstep|done].
    eapply Nat.le_lt_trans; [by eapply work_fold, beam_ok_pop|]. revert Hw. unfold work. rewrite Ec. cbn. lia.
Qed.

(** ** The entry points *)

Definition initial eps : Beam := foldl start (mkBeam ∅ [] []) eps.

Lemma initial_ok eps :
  NoDup eps → Forall known eps →
  beam_ok (initial eps) ∧ visited (initial eps) = list_to_set eps ∧
  (candidates (initial eps)).*2 ≡ₚ eps ∧ (results (initial eps)).*2 ≡ₚ filter live eps.
Proof.
  unfold initial. induction eps as [|n eps IH] using rev_ind; intros Hn Hk.
  - cbn. split_and!; [|done|constructor|constructor]. split; cbn; set_solver.
  - apply NoDup_app in Hn as (Hn & Hd & _). apply Forall_app in Hk as [Hk [Hkn _]%Forall_cons].
    destruct (IH Hn Hk) as (Hb & Hv & Hc & Hr). clear IH. rewrite foldl_app. cbn [foldl].
    set (b := foldl start _ eps) in *.
    assert (Hnew : n ∉ visited b) by (rewrite Hv; set_solver).
    split; [by apply beam_ok_start|]. rewrite start_eq by done. cbn [visited candidates results].
    rewrite Hv, push_min_perm, fmap_cons, Hc, filter_app, filter_cons. cbn [snd]. split_and!.
    + rewrite list_to_set_app_L. set_solver.
    + by rewrite Permutation_cons_append.
    + case_decide; rewrite filter_nil.
      * rewrite push_max_perm, fmap_cons, Hr. by rewrite Permutation_cons_append.
      * by rewrite Hr, app_nil_r.
Qed.

Lemma initial_work eps : NoDup eps → Forall known eps → (work (initial eps) < beam_fuel ns eps)%nat.
Proof.
  intros Hn Hk. destruct (initial_ok eps Hn Hk) as (_ & _ & Hc & _). unfold work, beam_fuel.
  rewrite <- (length_fmap snd (candidates _)), Hc. lia.
Qed.

(** ** What every search returns *)

Lemma search_layer_results eps ef layer b :
  beam_loop metric (beam_fuel ns eps) ns query ef layer (initial eps) = Some b →
  search_layer metric ns query eps ef layer = sort_by closer (heap_iter (results b)).
Proof. unfold search_layer. fold (initial eps). by intros ->. Qed.

(** The rule of [search_layer]: an invariant of the iterations describes its
    result. *)
Lemma search_layer_ind (P : Beam → Prop) eps ef layer :
  NoDup eps → Forall known eps → P (initial eps) →
  (∀ b d c rest, beam_ok b → P b → candidates b = (d, c) :: rest →
     f32_ltb (furthest (results b)) d && (ef <=? length (results b))%nat = false →
     P (foldl (visit ef) (mkBeam (visited b) rest (results b)) (links ns layer c))) →
  ∃ b, beam_ok b ∧ P b ∧ search_layer metric ns query eps ef layer ≡ₚ results b ∧
    (candidates b = [] ∨ ∃ d c rest, candidates b = (d, c) :: rest ∧
       f32_ltb (furthest (results b)) d = true ∧ (ef ≤ length (results b))%nat).
Proof.
  intros Hn Hk HP Hs. destruct (initial_ok eps Hn Hk) as (Hb & _).
  destruct (beam_loop_ind P ef layer (beam_fuel ns eps) (initial eps)) as (b & b' & E & Hb' & HP' & _ & Hr & Hend);
    [by apply initial_work|done..|].
  exists b. split_and!; [done..| |done]. by rewrite (search_layer_results _ _ _ _ E), sort_by_perm, heap_iter_perm, Hr.
Qed.

(** Distinct live nodes with their distances, all reachable on the layer. *)
Lemma search_layer_sound eps ef layer :
  NoDup eps → Forall known eps →
  let r := search_layer metric ns query eps ef layer in
  NoDup r.*2 ∧ ∀ x, x ∈ r → live x.2 ∧ x.1 = dist_to x.2 ∧ reachable layer eps x.2.
Proof.
  intros Hn Hk. cbv zeta.
  destruct (search_layer_ind (λ b, ∀ n, n ∈ visited b → reachable layer eps n) eps ef layer) as (b & Hb & Hv & Hp & _); [done..| | |].
  - destruct (initial_ok eps Hn Hk) as (_ & -> & _). intros n Hin%elem_of_list_to_set. exists n. split; [done|constructor].
  - intros b d c rest Hb HP Hc _ n [?|[Hl Hkn]]%visited_fold; [by apply HP|].
    apply (reachable_edge _ _ c); [|done]. apply HP, (ok_candidates_visited b Hb). rewrite Hc. by left.
  - split; [rewrite Hp; apply Hb|]. intros x Hx. rewrite Hp in Hx.
    destruct (ok_results b Hb x Hx) as ([_ Hd] & Hl & Hvx). auto.
Qed.

Lemma search_layer_known eps ef layer :
  NoDup eps → Forall known eps → Forall known (search_layer metric ns query eps ef layer).*2.
Proof.
  intros Hn Hk. apply Forall_fmap, Forall_forall. intros x Hx.
  by apply live_known, (proj2 (search_layer_sound eps ef layer Hn Hk)).
Qed.

(** ** Closure

    The candidates are the visited nodes whose links are still to be looked at. *)
Definition frontier layer b : Prop :=
  ∀ n, n ∈ visited b → n ∈ (candidates b).*2 ∨ ∀ m, edge layer n m → m ∈ visited b.

Lemma fold_visit_ind (P : Beam → Prop) ef b l :
  beam_ok b → P b →
  (∀ b n, beam_ok b → P b → known n → n ∉ visited b → P (visit ef b n)) → P (foldl (visit ef) b l).
Proof.
  intros Hb HP Hs. revert b Hb HP. induction l as [|n l IH]; intros b Hb HP; [done|]. cbn [foldl].
  apply IH; [by apply beam_ok_visit|]. destruct (decide (known n ∧ n ∉ visited b)) as [[Hk Hn]|Hs'].
  - by apply Hs.
  - by rewrite visit_skip.
Qed.

(** What is on the list stays there. *)
Lemma candidates_fold ef b l n : n ∈ (candidates b).*2 → n ∈ (candidates (foldl (visit ef) b l)).*2.
Proof.
  revert b. induction l as [|m l IH]; intros b Hn; [done|]. apply IH.
  destruct (decide (known m ∧ m ∉ visited b)) as [[Hk Hm]|Hs]; [|by rewrite visit_skip].
  rewrite visit_eq by done. cbn. rewrite push_min_perm, fmap_cons. by right.
Qed.

Lemma new_candidates_fold ef b l n :
  n ∈ visited (foldl (visit ef) b l) → n ∈ visited b ∨ n ∈ (candidates (foldl (visit ef) b l)).*2.
Proof.
  revert b. induction l as [|m l IH]; intros b Hn; [by left|]. cbn [foldl] in *.
  destruct (IH _ Hn) as [Hn'|?]; [|by right].
  destruct (decide (known m ∧ m ∉ visited b)) as [[Hk Hm]|Hs]; [|rewrite visit_skip in Hn' by done; by left].
  rewrite visit_eq in Hn' by done. cbn in Hn'. apply elem_of_union in Hn' as [->%elem_of_singleton|?]; [|by left].
  right. apply candidates_fold. rewrite visit_eq by done. cbn. rewrite push_min_perm, fmap_cons. by left.
Qed.

Lemma frontier_step ef layer b d c rest :
  frontier layer b → candidates b = (d, c) :: rest →
  frontier layer (foldl (visit ef) (mkBeam (visited b) rest (results b)) (links ns layer c)).
Proof.
  intros Hf Hc n Hn. destruct (new_candidates_fold _ _ _ _ Hn) as [Hn'|?]; [|by left]. cbn in Hn'.
  assert (Hmono : ∀ m, m ∈ visited b → m ∈ visited (foldl (visit ef) (mkBeam (visited b) rest (results b)) (links ns layer c))).
  { intros m Hm. apply visited_fold. by left. }
  destruct (Hf n Hn') as [Hin|Hcl]; [|by right; auto]. rewrite Hc, fmap_cons in Hin. cbn [snd] in Hin.
  apply elem_of_cons in Hin as [->|Hin]; [|left; by apply candidates_fold].
  right. intros m [Hl Hk]. apply visited_fold. by right.
Qed.

Lemma frontier_initial layer eps : NoDup eps → Forall known eps → frontier layer (initial eps).
Proof.
  intros Hn Hk n. destruct (initial_ok eps Hn Hk) as (_ & -> & Hc & _). rewrite elem_of_list_to_set.
  left. by rewrite Hc.
Qed.

Lemma closed_reachable layer eps b :
  (∀ e, e ∈ eps → e ∈ visited b) → (∀ n m, n ∈ visited b → edge layer n m → m ∈ visited b) →
  ∀ n, reachable layer eps n → n ∈ visited b.
Proof.
  intros He Hc n (e & Hin & Hr). apply He in Hin. induction Hr as [|x y z Hxy _ IH]; [done|]. eauto.
Qed.

(** ** A wide beam *)

Lemma nodup_known_length l : NoDup l → Forall known l → (length l ≤ length ns)%nat.
Proof.
  intros Hn Hk. rewrite <- (length_seq (length ns) 0). apply submseteq_length, NoDup_submseteq; [done|].
  intros n Hin. rewrite Forall_forall in Hk. apply elem_of_seq. specialize (Hk n Hin). unfold known in Hk. lia.
Qed.

Lemma nodup_known_full l n : NoDup l → Forall known l → (length ns ≤ length l)%nat → known n → n ∈ l.
Proof.
  intros Hn Hk Hl Hkn. destruct (decide (n ∈ l)) as [|Hni]; [done|].
  assert (length (n :: l) ≤ length ns)%nat by (apply nodup_known_length; by constructor). cbn in *. lia.
Qed.

Lemma results_known b : beam_ok b → Forall known (results b).*2.
Proof. intros Hb. apply Forall_fmap, Forall_forall. intros x Hx. by apply (ok_results b Hb) in Hx as ([? _] & _). Qed.

Lemma length_results b : beam_ok b → (length (results b) ≤ length ns)%nat.
Proof. intros Hb. rewrite <- (length_fmap snd). apply nodup_known_length; [apply Hb | by apply results_known]. Qed.

(** A live node that was not visited finds room. *)
Lemma results_room ef b n :
  beam_ok b → known n → n ∉ visited b → (length ns ≤ ef)%nat → (length (results b) < ef)%nat.
Proof.
  intros Hb Hk Hn Hef. assert (length (n :: (results b).*2) ≤ length ns)%nat as Hl; [|cbn in Hl; rewrite length_fmap in Hl; lia].
  apply nodup_known_length; constructor; [by apply results_not_visited|apply Hb|done|by apply results_known].
Qed.

Lemma offer_wide ef x r : (length r < ef)%nat → offer ef x r = push_max x r.
Proof.
  intros Hl. unfold offer. rewrite (proj2 (Nat.ltb_lt _ _)), orb_true_r by lia.
  assert (length (push_max x r) = S (length r)) as -> by by rewrite push_max_perm.
  by rewrite (proj2 (Nat.ltb_ge _ _)) by lia.
Qed.

(** With a beam at least as wide as the graph, exactly the live nodes that can
    be reached on the layer. *)
Lemma search_layer_all eps ef layer :
  NoDup eps → Forall known eps → (length ns ≤ ef)%nat →
  ∀ n, n ∈ (search_layer metric ns query eps ef layer).*2 ↔ live n ∧ reachable layer eps n.
Proof.
  intros Hn Hk Hef.
  destruct (search_layer_ind (λ b, (∀ n, n ∈ visited b → live n → n ∈ (results b).*2) ∧ frontier layer b ∧
    ∀ e, e ∈ eps → e ∈ visited b) eps ef layer) as (b & Hb & (Hall & Hf & He) & Hp & Hend); [done..| | |].
  - destruct (initial_ok eps Hn Hk) as (_ & Hv & _ & Hr). rewrite Hv. split_and!.
    + intros n Hin Hl. rewrite Hr. apply elem_of_list_to_set in Hin. by apply list_elem_of_filter.
    + by apply frontier_initial.
    + intros e. by rewrite elem_of_list_to_set.
  - intros b d c rest Hb (Hall & Hf & He) Hc _. split_and!; [|by eapply frontier_step|intros e Hin; apply visited_fold; left; by apply He].
    apply (fold_visit_ind (λ b, ∀ n, n ∈ visited b → live n → n ∈ (results b).*2)); [by eapply beam_ok_pop|done|].
    clear b d c rest Hb Hall Hf He Hc. intros b n Hb Hall Hkn Hnv m. rewrite visit_eq by done. cbn [visited results].
    intros [->%elem_of_singleton|Hm]%elem_of_union Hl.
    + rewrite decide_True, offer_wide, push_max_perm, fmap_cons by (done || by eapply results_room). by left.
    + specialize (Hall m Hm Hl). case_decide; [|done].
      rewrite offer_wide, push_max_perm, fmap_cons by by eapply results_room. by right.
  - assert (Hlive : ∀ n, n ∈ (results b).*2 → live n).
    { intros n (x & -> & Hx)%list_elem_of_fmap. by apply (ok_results b Hb). }
    assert (Hreach : ∀ n, n ∈ (results b).*2 → reachable layer eps n).
    { intros n Hin. rewrite <- Hp in Hin. apply list_elem_of_fmap in Hin as (x & -> & Hx).
      by apply (proj2 (search_layer_sound eps ef layer Hn Hk)). }
    intros n. rewrite Hp. split; [by auto|]. intros [Hl Hr].
    destruct Hend as [Hc|(d & c & rest & _ & _ & Hlen)].
    + apply Hall; [|done]. apply (closed_reachable layer eps b He); [|done]. intros v m Hv Hm.
      destruct (Hf v Hv) as [Hin|Hcl]; [by rewrite Hc in Hin; apply elem_of_nil in Hin | by apply Hcl].
    + apply nodup_known_full; [apply Hb|by apply results_known|rewrite length_fmap; lia|by apply live_known].
Qed.

(** ** A narrow beam

    From here on no distance is a NaN: then the heaps are ordered. *)
Definition comparable : Prop := ∀ n, known n → f64_is_nan (dist_to n) = false.

Definition number (x : f32 * nat) : Prop := f64_is_nan x.1 = false.
Definition pair_lt (x y : f32 * nat) : Prop :=
  lex_lt (rank x.1) (rank y.1) ∨ (¬ lex_lt (rank y.1) (rank x.1) ∧ (x.2 < y.2)%nat).

Lemma f32_ltb_rank (x y : f32) :
  f64_is_nan x = false → f64_is_nan y = false → f32_ltb x y = true ↔ lex_lt (rank x) (rank y).
Proof. apply f64_ltb_rank. Qed.

Lemma pair_ltb_lt x y : number x → number y → pair_ltb x y = true ↔ pair_lt x y.
Proof.
  unfold number, pair_lt, pair_ltb, dist_cmp. intros Hx Hy.
  pose proof (f64_ltb_rank x.1 y.1 Hx Hy) as H1. pose proof (f64_ltb_rank y.1 x.1 Hy Hx) as H2.
  pose proof (f64_leb_ltb x.1 y.1 Hx Hy) as H3. unfold f64_ltb, SFltb in H1. unfold f64_leb, SFleb in H3.
  assert (SFcompare x.1 y.1 ≠ None) as Hc by by destruct x as [[] ?], y as [[] ?].
  destruct (SFcompare x.1 y.1) as [[]|]; unfold id, default; cbn [from_option]; [..|done].
  - rewrite Nat.ltb_lt. destruct (f64_ltb y.1 x.1); [done|]. naive_solver.
  - naive_solver.
  - destruct (f64_ltb y.1 x.1); [|done]. naive_solver.
Qed.

Definition rising (x y : f32 * nat) : Prop := ¬ pair_lt y x.
Definition falling (x y : f32 * nat) : Prop := ¬ pair_lt x y.

Lemma push_min_sorted x h :
  number x → Forall number h → StronglySorted rising h → StronglySorted rising (push_min x h).
Proof.
  intros Hx Hh. apply (insert_lt_sorted _ number); [..|done|done]; unfold rising.
  - intros a b c _ _ _. unfold pair_lt, lex_lt. lia.
  - intros a b Ha Hb Hlt%pair_ltb_lt; [|done..]. revert Hlt. unfold pair_lt, lex_lt. lia.
  - intros a b Ha Hb Hlt. rewrite <- pair_ltb_lt by done. by rewrite Hlt.
Qed.

Lemma push_max_sorted x h :
  number x → Forall number h → StronglySorted falling h → StronglySorted falling (push_max x h).
Proof.
  intros Hx Hh. apply (insert_lt_sorted _ number); [..|done|done]; unfold falling.
  - intros a b c _ _ _. unfold pair_lt, lex_lt. lia.
  - intros a b Ha Hb Hlt%pair_ltb_lt; [|done..]. revert Hlt. unfold pair_lt, lex_lt. lia.
  - intros a b Ha Hb Hlt. rewrite <- pair_ltb_lt by done. by rewrite Hlt.
Qed.

(** [x] is at most [y]. *)
Definition at_most (x y : f32) : Prop := ¬ lex_lt (rank y) (rank x).

Lemma falling_head x r y : StronglySorted falling (x :: r) → y ∈ x :: r → at_most y.1 x.1.
Proof.
  intros [_ Hx]%StronglySorted_inv Hy. unfold at_most. apply elem_of_cons in Hy as [->|Hy]; [unfold lex_lt; lia|].
  rewrite Forall_forall in Hx. specialize (Hx y Hy). revert Hx. unfold falling, pair_lt. tauto.
Qed.

Lemma rising_head x r y : StronglySorted rising (x :: r) → y ∈ x :: r → at_most x.1 y.1.
Proof.
  intros [_ Hx]%StronglySorted_inv Hy. unfold at_most. apply elem_of_cons in Hy as [->|Hy]; [unfold lex_lt; lia|].
  rewrite Forall_forall in Hx. specialize (Hx y Hy). revert Hx. unfold rising, pair_lt. tauto.
Qed.

Lemma at_most_trans (x y z : f32) : at_most x y → at_most y z → at_most x z.
Proof. unfold at_most, lex_lt. lia. Qed.

(** [x] is out of a full beam [r]: no closer than anything in it. *)
Definition beaten (ef : nat) (r : Heap) (x : f32) : Prop := length r = ef ∧ ∀ z, z ∈ r → at_most z.1 x.

#[export] Instance beaten_Permutation ef : Proper ((≡ₚ) ==> eq ==> iff) (beaten ef).
Proof. intros r r' Hp x _ <-. unfold beaten. by setoid_rewrite Hp. Qed.

Record sorted_beam (ef : nat) (r : Heap) : Prop := {
  sb_sorted : StronglySorted falling r;
  sb_numbers : Forall number r;
  sb_length : (length r ≤ ef)%nat;
}.

Lemma furthest_max ef r z :
  sorted_beam ef r → z ∈ r → at_most z.1 (furthest r) ∧ f64_is_nan (furthest r) = false.
Proof.
  intros [Hs Hn _] Hz. destruct r as [|[d n] r]; [by apply elem_of_nil in Hz|]. split.
  - by apply (falling_head (d, n) r).
  - by apply Forall_cons in Hn as [? _].
Qed.

Lemma push_sorted_beam ef x r :
  number x → sorted_beam ef r → (length r < ef)%nat → sorted_beam ef (push_max x r).
Proof.
  intros Hx [Hs Hn Hl] Hlt. split; [by apply push_max_sorted| |].
  - rewrite push_max_perm. by constructor.
  - rewrite push_max_perm. cbn. lia.
Qed.

(** What [offer] drops is beaten, and whatever was beaten stays so. *)
Lemma offer_best ef x r :
  (1 ≤ ef)%nat → number x → sorted_beam ef r →
  sorted_beam ef (offer ef x r) ∧
  (∀ y, y ∈ x :: r → y ∈ offer ef x r ∨ beaten ef (offer ef x r) y.1) ∧
  (∀ d, beaten ef r d → beaten ef (offer ef x r) d).
Proof.
  intros Hef Hx Hr. destruct (Nat.ltb_spec (length r) ef) as [Hlt|Hge].
  { rewrite offer_wide by done. split_and!; [by apply push_sorted_beam|..].
    - intros y Hy. left. by rewrite push_max_perm.
    - intros d [Hl _]. lia. }
  pose proof (sb_length _ _ Hr) as Hle. assert (length r = ef) as Hl by lia. unfold offer.
  rewrite (proj2 (Nat.ltb_ge (length r) ef)), orb_false_r by lia.
  destruct r as [|z0 r0] eqn:Er; [cbn in *; lia|]. rewrite <- Er in *.
  assert (Hz0 : z0 ∈ r) by (rewrite Er; by left).
  destruct (furthest_max ef r z0 Hr Hz0) as [_ Hnf].
  destruct (f32_ltb x.1 (furthest r)) eqn:Ef.
  - apply f32_ltb_rank in Ef; [|done..].
    assert (length (push_max x r) = S ef) as -> by (rewrite push_max_perm; cbn; lia).
    rewrite (proj2 (Nat.ltb_lt _ _)) by lia.
    assert (Hsp : StronglySorted falling (push_max x r)) by (apply push_max_sorted; by try apply Hr).
    assert (Hnp : Forall number (push_max x r)) by (rewrite push_max_perm; constructor; by try apply Hr).
    pose proof (push_max_perm x r) as Hp. destruct (push_max x r) as [|h r1] eqn:E1; [by apply Permutation_nil_cons in Hp|].
    assert (length r1 = ef) as Hl1 by (apply Permutation_length in Hp; cbn in Hp; lia). cbn [tail].
    assert (Hfull : ∀ d, (∀ z, z ∈ r1 → at_most z.1 d) → beaten ef r1 d) by by split.
    split_and!.
    + split; [by apply StronglySorted_inv in Hsp as [? _]|by apply Forall_cons in Hnp as [_ ?]|lia].
    + intros y Hy. rewrite <- Hp in Hy. apply elem_of_cons in Hy as [->|Hy]; [|by left]. right. apply Hfull.
      intros z Hz. apply (falling_head h r1); [done|by right].
    + intros d [_ Hd]. apply Hfull. intros z Hz.
      assert (z ∈ x :: r) as [->|Hzr]%elem_of_cons by (rewrite <- Hp; by right); [|by apply Hd].
      assert (Hfd : at_most (furthest r) d).
      { assert (∃ n, (furthest r, n) ∈ r) as [n Hfn] by (rewrite Er; destruct z0 as [d0 n0]; exists n0; by left).
        by apply (Hd (furthest r, n)). }
      revert Ef Hfd. unfold at_most, lex_lt. lia.
  - split_and!; [done|intros y [->|?]%elem_of_cons; [right|by left]|done].
    split; [done|]. intros z Hz. destruct (furthest_max ef r z Hr Hz) as [Hm _].
    eapply at_most_trans; [exact Hm|]. unfold at_most. rewrite <- f32_ltb_rank by done. by rewrite Ef.
Qed.

(** The invariant of a narrow beam: every live node visited is in the results
    or beaten. *)
Record best_beam (ef : nat) b : Prop := {
  bb_candidates : StronglySorted rising (candidates b);
  bb_results : sorted_beam ef (results b);
  bb_best : ∀ n, n ∈ visited b → live n → n ∈ (results b).*2 ∨ beaten ef (results b) (dist_to n);
}.

Lemma scored_number x : comparable → scored x → number x.
Proof. unfold number. intros Hc [Hk ->]. by apply Hc. Qed.

Lemma scored_numbers h : comparable → Forall scored h → Forall number h.
Proof. intros Hc Hs. eapply Forall_impl; [exact Hs|]. intros x. by apply scored_number. Qed.

Lemma best_visit ef b n :
  comparable → (1 ≤ ef)%nat → beam_ok b → best_beam ef b → known n → n ∉ visited b → best_beam ef (visit ef b n).
Proof.
  intros Hcmp Hef Hb [Hcs Hr Hbest] Hk Hn. rewrite visit_eq by done.
  destruct (offer_best ef (dist_to n, n) (results b)) as (Ho & Hin & Hbt); [done|by apply Hcmp|done|].
  split; cbn [candidates results visited].
  - apply push_min_sorted; [by apply Hcmp|by apply scored_numbers, Hb|done].
  - by case_decide.
  - intros m [->%elem_of_singleton|Hm]%elem_of_union Hl.
    + rewrite decide_True by done. destruct (Hin (dist_to n, n)) as [Hi|?]; [by left| |by right].
      left. by apply (list_elem_of_fmap_2 snd _ (dist_to n, n)).
    + case_decide; [|by apply Hbest]. destruct (Hbest m Hm Hl) as [(x & -> & Hx)%list_elem_of_fmap|?]; [|by auto].
      destruct (Hin x) as [?|Hx']; [by right|left; by apply list_elem_of_fmap_2|].
      destruct (ok_results b Hb x Hx) as ([_ Hd] & _). right. by rewrite <- Hd.
Qed.

Lemma best_pop ef b x rest :
  best_beam ef b → candidates b = x :: rest → best_beam ef (mkBeam (visited b) rest (results b)).
Proof. intros [Hc Hr Hb] E. rewrite E in Hc. apply StronglySorted_inv in Hc as [Hc _]. by split. Qed.

Lemma best_initial ef eps :
  comparable → NoDup eps → Forall known eps → (length eps ≤ ef)%nat → best_beam ef (initial eps).
Proof.
  intros Hcmp Hn Hk Hef. destruct (initial_ok eps Hn Hk) as (Hb & Hv & _ & Hr).
  assert (Hres : Forall number (results (initial eps))).
  { apply scored_numbers; [done|]. apply Forall_forall. intros x Hx. by apply (ok_results _ Hb). }
  split.
  - clear Hb Hv Hr Hres Hef. unfold initial. induction eps as [|n eps IH] using rev_ind; [constructor|].
    apply NoDup_app in Hn as (Hn & Hd & _). pose proof Hk as [Hk' [Hkn _]%Forall_cons]%Forall_app.
    rewrite foldl_app. cbn [foldl]. rewrite start_eq by done. cbn [candidates].
    destruct (initial_ok eps Hn Hk') as (Hb & _). apply push_min_sorted; [by apply Hcmp|by apply scored_numbers, Hb|by apply IH].
  - split; [|done|].
    + clear Hb Hv Hr Hres Hef. unfold initial. induction eps as [|n eps IH] using rev_ind; [constructor|].
      apply NoDup_app in Hn as (Hn & Hd & _). pose proof Hk as [Hk' [Hkn _]%Forall_cons]%Forall_app.
      rewrite foldl_app. cbn [foldl]. rewrite start_eq by done. cbn [results]. case_decide; [|by apply IH].
      destruct (initial_ok eps Hn Hk') as (Hb & _). apply push_max_sorted; [by apply Hcmp| |by apply IH].
      apply scored_numbers; [done|]. apply Forall_forall. intros x Hx. by apply (ok_results _ Hb).
    + rewrite <- (length_fmap snd), Hr. etrans; [|exact Hef]. apply length_filter.
  - rewrite Hv. intros n Hin%elem_of_list_to_set Hl. left. rewrite Hr. by apply list_elem_of_filter.
Qed.

Lemma sort_by_closer l : Forall number l → StronglySorted (ascending fst) (sort_by closer l).
Proof.
  intros Hl. destruct (ranked_ascending fst (length l) l Hl) as (_ & Hs & _).
  rewrite take_ge in Hs by by rewrite (sort_by_perm _ l). exact Hs.
Qed.

Lemma search_layer_sorted eps ef layer :
  (∀ n, live n → f64_is_nan (dist_to n) = false) → NoDup eps → Forall known eps → StronglySorted (ascending fst) (search_layer metric ns query eps ef layer).
Proof.
  intros Hcmp Hn Hk. destruct (search_layer_sound eps ef layer Hn Hk) as [_ Hx]. revert Hx. unfold search_layer.
  case_match; [|by constructor]. intros Hx. apply sort_by_closer, Forall_forall. intros x Hin. unfold number.
  rewrite <- (sort_by_perm closer) in Hin. destruct (Hx x Hin) as (Hl & -> & _). by apply Hcmp.
Qed.

(** Local optimality.  There is a set of visited nodes such that
    the result, nearest first, is the best of the live ones, and the links of
    every visited node that is no farther than some result lead to visited
    nodes -- of every visited node, when the result is not full. *)
Theorem search_layer_best eps ef layer :
  comparable → (1 ≤ ef)%nat → NoDup eps → Forall known eps → (length eps ≤ ef)%nat →
  let r := search_layer metric ns query eps ef layer in
  (length r ≤ ef)%nat ∧ StronglySorted (ascending fst) r ∧
  ∃ seen : gset nat,
    (∀ e, e ∈ eps → e ∈ seen) ∧ (∀ x, x ∈ r → x.2 ∈ seen) ∧
    (∀ n, n ∈ seen → live n → n ∈ r.*2 ∨ beaten ef r (dist_to n)) ∧
    (∀ n m, n ∈ seen → edge layer n m →
       (length r < ef)%nat ∨ (∃ x, x ∈ r ∧ at_most (dist_to n) x.1) → m ∈ seen).
Proof.
  intros Hcmp Hef Hn Hk Hle. cbv zeta.
  destruct (search_layer_ind (λ b, best_beam ef b ∧ frontier layer b ∧ ∀ e, e ∈ eps → e ∈ visited b) eps ef layer)
    as (b & Hb & (Hbb & Hf & He) & Hp & Hend); [done..| | |].
  - split_and!; [by apply best_initial|by apply frontier_initial|]. destruct (initial_ok eps Hn Hk) as (_ & -> & _).
    intros e. by rewrite elem_of_list_to_set.
  - intros b d c rest Hb (Hbb & Hf & He) Hc _.
    split_and!; [|by eapply frontier_step|intros e Hin; apply visited_fold; left; by apply He].
    apply (fold_visit_ind (best_beam ef)); [by eapply beam_ok_pop|by eapply best_pop|].
    intros b' n Hb' Hbb' Hkn Hnv. by apply best_visit.
  - destruct Hbb as [Hcs Hsb Hbest]. pose proof Hsb as [Hs Hnum Hlen].
    assert (Hlr : length (search_layer metric ns query eps ef layer) = length (results b)) by by rewrite Hp.
    rewrite Hlr. split_and!; [done|by apply search_layer_sorted; [intros n ?%live_known; apply Hcmp|..]|]. exists (visited b). split_and!.
    + done.
    + intros x Hx. rewrite Hp in Hx. by apply (ok_results b Hb).
    + intros n Hin Hl. rewrite Hp. by apply Hbest.
    + intros n m Hin Hm Hcl. destruct (Hf n Hin) as [Hc|Hcl']; [|by apply Hcl'].
      destruct Hend as [E|(d & c & rest & E & Hfd & Hfull)]; [rewrite E in Hc; by apply elem_of_nil in Hc|].
      destruct Hcl as [?|(x & Hx & Hat)]; [lia|]. rewrite Hp in Hx. exfalso.
      destruct (furthest_max ef _ x Hsb Hx) as [Hxf Hfn].
      pose proof (ok_candidates b Hb) as Hsc. rewrite E in Hsc, Hc, Hcs.
      assert (Hdn : f64_is_nan d = false) by (apply Forall_cons in Hsc as [Hsc _]; by apply (scored_number (d, c))).
      apply f32_ltb_rank in Hfd; [|done..].
      assert (Hdm : at_most d (dist_to n)).
      { apply list_elem_of_fmap in Hc as (y & -> & Hy).
        assert (scored y) as [_ <-] by by eapply (proj1 (Forall_forall _ _) Hsc).
        by apply (rising_head (d, c) rest). }
      revert Hxf Hfd Hdm Hat. unfold at_most, lex_lt. lia.
Qed.

End beam.
