(* ===== verification/HnswGraph.v ===== *)
(** Insertion into the HNSW graph: what linking a node does to the links of
    every layer, and the invariant of the graph that it keeps. *)

From S2P Require Import Prelude Machine Text Collections Float64 Format OctadTypes Modalities ModalityStores Hnsw HnswBeam.
Import Vector.
Local Open Scope nat_scope.

(** ** Links and data *)

Section links.
Context (metric : DistanceMetric).
Implicit Types (ns : list Node) (l n m : nat) (nd : Node).

(** Everything of a node but its links. *)
Definition data nd : string * list f32 * gmap string string * nat * bool :=
  (node_id nd, node_vector nd, node_metadata nd, node_level nd, deleted nd).

Definition layers ns n : nat := match ns !! n with Some nd => length (node_neighbors nd) | None => 0 end.

Lemma links_alter ns f l n m :
  links (alter f m ns) l n =
  if decide (n = m) then match ns !! n with Some nd => default [] (node_neighbors (f nd) !! l) | None => [] end
  else links ns l n.
Proof.
  unfold links. case_decide as Hn.
  - subst m. rewrite list_lookup_alter_eq. by destruct (ns !! n).
  - by rewrite list_lookup_alter_ne.
Qed.

Lemma layers_alter ns f n m :
  layers (alter f m ns) n =
  if decide (n = m) then match ns !! n with Some nd => length (node_neighbors (f nd)) | None => 0 end else layers ns n.
Proof.
  unfold layers. case_decide as Hn.
  - subst m. rewrite list_lookup_alter_eq. by destruct (ns !! n).
  - by rewrite list_lookup_alter_ne.
Qed.

Lemma data_alter ns f m : (∀ nd, data (f nd) = data nd) → data <$> alter f m ns = data <$> ns.
Proof.
  intros Hf. apply list_eq. intros i. rewrite !list_lookup_fmap. destruct (decide (i = m)) as [->|Hi].
  - rewrite list_lookup_alter_eq. destruct (ns !! m); [|done]. cbn. by rewrite Hf.
  - by rewrite list_lookup_alter_ne.
Qed.

Lemma data_lookup ns ns' n nd :
  data <$> ns' = data <$> ns → ns' !! n = Some nd → ∃ nd0, ns !! n = Some nd0 ∧ data nd = data nd0.
Proof.
  intros E Hn. assert ((data <$> ns') !! n = Some (data nd)) as Hd by by rewrite list_lookup_fmap, Hn.
  rewrite E, list_lookup_fmap in Hd. destruct (ns !! n) as [nd0|]; [|done]. cbn in Hd. exists nd0. split; [done|congruence].
Qed.

Lemma data_length ns ns' : data <$> ns' = data <$> ns → length ns' = length ns.
Proof. intros E. by rewrite <- (length_fmap data ns'), E, length_fmap. Qed.

Lemma data_live ns ns' n : data <$> ns' = data <$> ns → live ns' n ↔ live ns n.
Proof.
  assert (∀ a b, data <$> b = data <$> a → live b n → live a n) as H; [|by split; apply H].
  intros a b E (nd & Hn & Hd). destruct (data_lookup a b n nd E Hn) as (nd0 & Hn0 & Ed). exists nd0. split; [done|].
  unfold data in Ed. simplify_eq. congruence.
Qed.

Lemma data_vector ns ns' n : data <$> ns' = data <$> ns → vector_at ns' n = vector_at ns n.
Proof.
  intros E. unfold vector_at. destruct (ns' !! n) as [nd|] eqn:En.
  - destruct (data_lookup ns ns' n nd E En) as (nd0 & -> & Ed). unfold data in Ed. by simplify_eq.
  - apply lookup_ge_None in En. rewrite (data_length _ _ E) in En. by rewrite (proj2 (lookup_ge_None ns n)).
Qed.

(** ** Growing, pushing, pruning *)

Lemma grow_links l nd l' : default [] (node_neighbors (grow l nd) !! l') = default [] (node_neighbors nd !! l').
Proof.
  unfold grow. cbn. destruct (decide (l' < length (node_neighbors nd))%nat) as [Hl|Hl].
  - by rewrite lookup_app_l.
  - rewrite (proj2 (lookup_ge_None (node_neighbors nd) l')) by lia. rewrite lookup_app_r by lia.
    destruct (_ !! _) as [ks|] eqn:E; [|done]. apply lookup_replicate in E as [-> _]. done.
Qed.

Lemma grow_length l nd : length (node_neighbors (grow l nd)) = Nat.max (length (node_neighbors nd)) (S l).
Proof. unfold grow. cbn. rewrite length_app, length_replicate. lia. Qed.

(** The links a node keeps after one more was pushed. *)
Definition kept ns cap nd (ks : list nat) : list nat :=
  if (cap <? length ks)%nat then nearest_links metric ns (node_vector nd) cap ks else ks.

Lemma nearest_links_sub ns v cap ks :
  NoDup ks → nearest_links metric ns v cap ks ⊆ ks ∧ NoDup (nearest_links metric ns v cap ks) ∧
  (length (nearest_links metric ns v cap ks) ≤ cap)%nat.
Proof.
  unfold nearest_links. set (sorted := sort_by closer _). intros Hn.
  assert (Hp : sorted.*2 ≡ₚ ks).
  { unfold sorted. rewrite sort_by_perm, <- list_fmap_compose. cbn. by rewrite list_fmap_id. }
  rewrite fmap_take. split_and!.
  - intros x Hx. rewrite <- Hp. by eapply elem_of_take in Hx as (i & Hi & _); apply list_elem_of_lookup_2 in Hi.
  - eapply sublist_NoDup; [|apply sublist_take]. by rewrite Hp.
  - rewrite length_take. lia.
Qed.

Lemma kept_sub ns cap nd ks :
  NoDup ks → kept ns cap nd ks ⊆ ks ∧ NoDup (kept ns cap nd ks) ∧ (length (kept ns cap nd ks) ≤ cap)%nat.
Proof.
  intros Hn. unfold kept. destruct (Nat.ltb_spec cap (length ks)); [by apply nearest_links_sub|]. by split_and!.
Qed.

Lemma connect_data l cap n ns m : data <$> connect metric l cap n ns m = data <$> ns.
Proof. unfold connect. by rewrite !data_alter. Qed.

Lemma connect_layers l cap n ns m n' :
  n ≠ m → layers (connect metric l cap n ns m) n' = if decide (n' = m ∧ is_Some (ns !! m)) then Nat.max (layers ns m) (S l) else layers ns n'.
Proof.
  intros Hnm. unfold connect. rewrite !layers_alter. destruct (decide (n' = m)) as [->|Hn'].
  - rewrite !list_lookup_alter_eq, list_lookup_alter_ne by done. unfold layers. destruct (ns !! m) as [nd|]; cbn; [|by rewrite decide_False by (intros [_ []%is_Some_None])].
    rewrite decide_True by eauto. by rewrite !length_alter, length_app, length_replicate; lia.
  - destruct (decide (n' = m ∧ is_Some (ns !! m))) as [[? _]|_]; [done|]. case_decide as Hn; [|done]. subst n'. unfold layers.
    destruct (ns !! n) as [nd|]; [|done]. cbn. by rewrite length_alter.
Qed.

Lemma connect_links l cap n ns m l' n' :
  n ≠ m → (l < layers ns n)%nat → known ns m →
  ∃ ns' nd, data <$> ns' = data <$> ns ∧
  links (connect metric l cap n ns m) l' n' =
  if decide (l' = l) then
    if decide (n' = m) then kept ns' cap nd (links ns l m ++ [n])
    else if decide (n' = n) then links ns l n ++ [m] else links ns l n'
  else links ns l' n'.
Proof.
  intros Hnm Hl [nd Hm]%lookup_lt_is_Some_2. unfold connect.
  set (ns1 := alter (push_link l m) n ns). set (ns2 := alter (λ nd, push_link l n (grow l nd)) m ns1).
  exists ns2, (push_link l n (grow l nd)). split; [unfold ns2, ns1; by rewrite !data_alter|].
  assert (Hm1 : ns1 !! m = Some nd) by (unfold ns1; by rewrite list_lookup_alter_ne).
  rewrite links_alter. destruct (decide (n' = m)) as [->|Hn'].
  - unfold ns2 at 1. rewrite list_lookup_alter_eq, Hm1. cbn [fmap option_fmap option_map].
    unfold prune, push_link. cbn [node_neighbors set_neighbors].
    unfold links. rewrite Hm. rewrite <- (grow_links l nd l'), <- (grow_links l nd l).
    case_decide as Hll.
    + subst l'. rewrite !list_lookup_alter_eq.
      assert (is_Some (node_neighbors (grow l nd) !! l)) as [ks Hks].
      { apply lookup_lt_is_Some_2. rewrite grow_length. lia. }
      by rewrite Hks.
    + by rewrite !list_lookup_alter_ne by done.
  - unfold ns2. rewrite links_alter, decide_False by done. unfold ns1. rewrite links_alter.
    destruct (decide (n' = n)) as [->|Hn]; [|case_decide; by subst].
    unfold links, layers in *. destruct (ns !! n) as [ndn|]; [|lia]. unfold push_link. cbn.
    case_decide as Hll.
    + subst l'. rewrite list_lookup_alter_eq. apply lookup_lt_is_Some_2 in Hl as [ks ->]. done.
    + by rewrite list_lookup_alter_ne.
Qed.

End links.

(** ** Linking a node on a layer *)

Section link.
Context (metric : DistanceMetric) (c : HnswConfig).
Implicit Types (ns : list Node) (l n m : nat).

(** Links are distinct other nodes, as many as the layer allows. *)
Definition ok_links ns : Prop :=
  ∀ l n, NoDup (links ns l n) ∧ n ∉ links ns l n ∧ Forall (known ns) (links ns l n) ∧
    length (links ns l n) ≤ capacity c l.

Lemma data_known ns ns' n : data <$> ns' = data <$> ns → known ns' n ↔ known ns n.
Proof. intros E. unfold known. by rewrite (data_length _ _ E). Qed.

Lemma data_knowns ns ns' ks : data <$> ns' = data <$> ns → Forall (known ns) ks → Forall (known ns') ks.
Proof. intros E Hk. eapply Forall_impl; [exact Hk|]. intros n. by apply data_known. Qed.

(** The new node and the one it is linked with: what [connect] needs. *)
Record connectable ns l n m : Prop := {
  cn_layer : l < layers ns n;
  cn_known : known ns n ∧ known ns m;
  cn_new : n ≠ m ∧ m ∉ links ns l n ∧ n ∉ links ns l m;
  cn_room : length (links ns l n) < capacity c l;
}.

Lemma connect_ok ns l n m :
  ok_links ns → connectable ns l n m → ok_links (connect metric l (capacity c l) n ns m).
Proof.
  intros Hok [Hl [Hkn Hkm] (Hnm & Hmn & Hnl) Hr] l' n'.
  destruct (connect_links metric l (capacity c l) n ns m l' n' Hnm Hl Hkm) as (ns' & nd & _ & ->).
  assert (Hknown : ∀ ks, Forall (known ns) ks → Forall (known (connect metric l (capacity c l) n ns m)) ks).
  { intros ks. apply data_knowns, connect_data. }
  case_decide as El; [|destruct (Hok l' n') as (? & ? & ? & ?); by auto]. subst l'.
  case_decide as Em; [subst n'|case_decide as En; [subst n'|destruct (Hok l n') as (? & ? & ? & ?); by auto]].
  - destruct (Hok l m) as (Hnd & Hself & Hk & _).
    assert (Hnd' : NoDup (links ns l m ++ [n])).
    { apply NoDup_app. split_and!; [done| |apply NoDup_singleton]. intros x Hx ->%list_elem_of_singleton. done. }
    destruct (kept_sub metric ns' (capacity c l) nd _ Hnd') as (Hsub & Hndk & Hlen). split_and!; [done| | |done].
    + intros Hin%Hsub. apply elem_of_app in Hin as [?|?%list_elem_of_singleton]; congruence.
    + apply Hknown, Forall_forall. intros x Hx%Hsub. rewrite Forall_forall in Hk.
      apply elem_of_app in Hx as [?| ->%list_elem_of_singleton]; auto.
  - destruct (Hok l n) as (Hnd & Hself & Hk & _). split_and!.
    + apply NoDup_app. split_and!; [done| |apply NoDup_singleton]. intros x Hx ->%list_elem_of_singleton. done.
    + intros [?|?%list_elem_of_singleton]%elem_of_app; congruence.
    + apply Hknown, Forall_app. split; [done|]. by constructor.
    + rewrite length_app. cbn. lia.
Qed.

(** Linking the new node with [sel], one after the other. *)
Lemma connect_all l n ns sel :
  ok_links ns → known ns n → l < layers ns n → NoDup (links ns l n ++ sel) → n ∉ sel → Forall (known ns) sel →
  length (links ns l n ++ sel) ≤ capacity c l → (∀ m, m ∈ sel → n ∉ links ns l m) →
  let ns' := foldl (connect metric l (capacity c l) n) ns sel in
  data <$> ns' = data <$> ns ∧ ok_links ns' ∧ links ns' l n = links ns l n ++ sel ∧
  layers ns' n = layers ns n ∧ (∀ k, layers ns k ≤ layers ns' k) ∧
  (∀ l' k, l' ≠ l → links ns' l' k = links ns l' k) ∧
  (∀ k, k ∉ sel → k ≠ n → links ns' l k = links ns l k) ∧
  (∀ m, m ∈ sel → ∃ ns0 nd, links ns' l m = kept metric ns0 (capacity c l) nd (links ns l m ++ [n])).
Proof.
  revert ns. induction sel as [|m sel IH]; intros ns Hok Hkn Hl Hnd Hns Hks Hlen Hnl; cbn [foldl].
  { rewrite app_nil_r. split_and!; try done. by intros ? ?%elem_of_nil. }
  rewrite not_elem_of_cons in Hns. destruct Hns as [Hnm Hns]. apply Forall_cons in Hks as [Hkm Hks].
  assert (Hmn : m ∉ links ns l n ∧ m ∉ sel ∧ NoDup (links ns l n ++ sel)).
  { apply NoDup_app in Hnd as (H1 & H2 & [H3 H4]%NoDup_cons). split_and!; [set_solver|done|].
    apply NoDup_app. split_and!; [done|set_solver|done]. }
  destruct Hmn as (Hmn & Hms & Hnd').
  rewrite length_app in Hlen. cbn in Hlen.
  assert (Hc : connectable ns l n m) by (split; [done|done|split_and!; [done|done|apply Hnl; by left]|lia]).
  pose proof (connect_ok ns l n m Hok Hc) as Hok1. pose proof (connect_data metric l (capacity c l) n ns m) as Hd1.
  set (ns1 := connect metric l (capacity c l) n ns m) in *.
  assert (Hlk : ∀ l' k, ∃ ns' nd, links ns1 l' k =
    if decide (l' = l) then if decide (k = m) then kept metric ns' (capacity c l) nd (links ns l m ++ [n])
      else if decide (k = n) then links ns l n ++ [m] else links ns l k else links ns l' k).
  { intros l' k. destruct (connect_links metric l (capacity c l) n ns m l' k Hnm Hl Hkm) as (ns' & nd & _ & E). eauto. }
  assert (Hl1n : links ns1 l n = links ns l n ++ [m]).
  { destruct (Hlk l n) as (? & ? & ->). by rewrite decide_True, decide_False, decide_True. }
  assert (Hlay : ∀ k, layers ns1 k = if decide (k = m ∧ is_Some (ns !! m)) then Nat.max (layers ns m) (S l) else layers ns k).
  { intros k. by apply connect_layers. }
  assert (Hlayn : layers ns1 n = layers ns n) by (rewrite Hlay, decide_False; naive_solver).
  assert (Hother : ∀ k, k ≠ m → k ≠ n → links ns1 l k = links ns l k).
  { intros k ? ?. destruct (Hlk l k) as (? & ? & ->). by rewrite decide_True, !decide_False. }
  destruct (IH ns1) as (Hd & Hok' & Hln & Hln' & Hlm & Hl' & Hk & Hs).
  - done.
  - by apply (data_known _ _ _ Hd1).
  - by rewrite Hlayn.
  - rewrite Hl1n, <- (assoc_L (++)). done.
  - done.
  - by apply (data_knowns _ _ _ Hd1).
  - rewrite Hl1n, !length_app. cbn. lia.
  - intros k Hin. rewrite Hother by set_solver. apply Hnl. by right.
  - split_and!.
    + by rewrite Hd.
    + done.
    + by rewrite Hln, Hl1n, <- (assoc_L (++)).
    + by rewrite Hln', Hlayn.
    + intros k. etrans; [|apply Hlm]. rewrite Hlay. case_decide as Hk'; [destruct Hk' as [-> _]; lia|done].
    + intros l' k Hll. rewrite Hl' by done. destruct (Hlk l' k) as (? & ? & ->). by rewrite decide_False.
    + intros k [Hkm' Hks']%not_elem_of_cons Hkn'. by rewrite Hk, Hother.
    + intros k [->|Hin]%elem_of_cons.
      * rewrite (Hk m) by done. destruct (Hlk l m) as (ns0 & nd & ->). exists ns0, nd. by rewrite !decide_True.
      * rewrite <- (Hother k) by set_solver. by apply Hs.
Qed.

End link.

(** ** Insertion *)

Section insertion.
Context `{HeapIterLaws} (metric : DistanceMetric) (c : HnswConfig).
Implicit Types (ns : list Node) (l n m : nat) (g : Graph).

(** [ns'] is [ns] with the node [n] linked with [sel] on layer [l]. *)
Record joined ns ns' l n (sel : list nat) : Prop := {
  jn_data : data <$> ns' = data <$> ns;
  jn_ok : ok_links c ns';
  jn_links : links ns' l n = sel;
  jn_layers : layers ns' n = layers ns n;
  jn_grow : ∀ k, layers ns k ≤ layers ns' k;
  jn_other : ∀ l' k, l' ≠ l → links ns' l' k = links ns l' k;
  jn_unselected : ∀ k, k ∉ sel → k ≠ n → links ns' l k = links ns l k;
  jn_selected : ∀ m, m ∈ sel → ∃ ns0 nd, links ns' l m = kept metric ns0 (capacity c l) nd (links ns l m ++ [n]);
}.

(** No links lead to [n] on layer [l], and it has none there. *)
Definition unlinked ns l n : Prop := links ns l n = [] ∧ ∀ m, n ∉ links ns l m.

(** Where a search may start that is not to find [n]. *)
Record start_ok ns n (eps : list nat) : Prop := {
  st_nodup : NoDup eps; st_known : Forall (known ns) eps; st_new : n ∉ eps }.

Lemma reachable_old ns l n eps m :
  (∀ k, n ∉ links ns l k) → n ∉ eps → reachable ns l eps m → m ≠ n.
Proof.
  intros Hl He (e & Hin & [<-|(k & _ & Hk & _)]%rtc_inv_r) ->; [done|]. by apply (Hl k).
Qed.

(** The result of a search that starts away from [n] is a place to start. *)
Lemma search_start_ok ns query n eps ef l :
  (∀ k, n ∉ links ns l k) → start_ok ns n eps →
  start_ok ns n (search_layer metric ns query eps ef l).*2.
Proof.
  intros Hl [Hn Hk He]. destruct (search_layer_sound metric ns query eps ef l Hn Hk) as [Hnd Hx]. split; [done| |].
  - by apply search_layer_known.
  - intros (x & -> & Hin)%list_elem_of_fmap. destruct (Hx x Hin) as (_ & _ & Hr). by eapply reachable_old in Hr.
Qed.

Lemma start_ok_take ns n k eps : start_ok ns n eps → start_ok ns n (take k eps).
Proof.
  intros [Hn Hk He]. split; [|by apply Forall_take|].
  - eapply sublist_NoDup; [exact Hn|apply sublist_take].
  - intros (i & Hi & _)%elem_of_take. by apply list_elem_of_lookup_2 in Hi.
Qed.

Lemma start_ok_data ns ns' n eps : data <$> ns' = data <$> ns → start_ok ns n eps → start_ok ns' n eps.
Proof. intros E [Hn Hk He]. split; [done|by eapply data_knowns|done]. Qed.

Lemma descend_ok ns query n eps l :
  (∀ k, n ∉ links ns l k) → start_ok ns n eps → start_ok ns n (descend metric ns query eps l).
Proof.
  intros Hl Hs. pose proof (search_start_ok ns query n eps 1 l Hl Hs) as Hr. unfold descend.
  destruct (search_layer _ _ _ _ _ _) as [|[d i] r]; [done|]. by apply (start_ok_take _ _ 1) in Hr.
Qed.

Lemma descends_ok ns query n eps ls :
  (∀ l k, l ∈ ls → n ∉ links ns l k) → start_ok ns n eps → start_ok ns n (foldl (descend metric ns query) eps ls).
Proof.
  revert eps. induction ls as [|l ls IH]; intros eps Hl Hs; [done|]. cbn [foldl].
  apply IH; [intros l' k Hin; apply Hl; by right|]. apply descend_ok; [|done]. intros k. apply Hl. by left.
Qed.

Lemma descends_some ns query eps ls : eps ≠ [] → foldl (descend metric ns query) eps ls ≠ [].
Proof.
  revert eps. induction ls as [|l ls IH]; intros eps He; [done|]. apply IH. unfold descend. by repeat case_match.
Qed.

(** ** The layers of the new node *)

Lemma link_layer_joined ns query n ep cur l :
  ok_links c ns → known ns n → l < layers ns n → unlinked ns l n → start_ok ns n cur → start_ok ns n [ep] →
  ∃ ns' cur', link_layer metric c query n ep (ns, cur) l = (ns', cur') ∧
    joined ns ns' l n (take (capacity c l) (search_layer metric ns query cur (ef_construction c) l).*2) ∧
    start_ok ns' n cur' ∧ cur' ≠ [].
Proof.
  intros Hok Hkn Hl [Hln Hun] Hcur Hep. pose proof (search_start_ok ns query n cur (ef_construction c) l Hun Hcur) as Hr.
  unfold link_layer, select_neighbors. rewrite fmap_take.
  set (near := (search_layer _ _ _ _ _ _).*2) in *. pose proof (start_ok_take _ _ (capacity c l) _ Hr) as [Hn Hk He].
  destruct (connect_all metric c l n ns (take (capacity c l) near)) as (Hd & Hok' & Hl' & Hlay & Hg & Ho & Hus & Hs);
    rewrite ?Hln; try done; [cbn; rewrite length_take; lia|].
  eexists _, _. split; [reflexivity|]. split_and!.
  - split; try done. by rewrite Hl', Hln.
  - case_match; by eapply start_ok_data.
  - by destruct near.
Qed.

(** Linking on several layers: on each of them the new node gets links, other
    layers stay as they are. *)
Lemma link_layers ns query n ep cur ls :
  ok_links c ns → known ns n → NoDup ls → (∀ l, l ∈ ls → l < layers ns n ∧ unlinked ns l n) →
  start_ok ns n cur → start_ok ns n [ep] →
  ∃ ns' cur', foldl (link_layer metric c query n ep) (ns, cur) ls = (ns', cur') ∧
    data <$> ns' = data <$> ns ∧ ok_links c ns' ∧ (∀ k, layers ns k ≤ layers ns' k) ∧ layers ns' n = layers ns n ∧
    (∀ l k, l ∉ ls → links ns' l k = links ns l k) ∧ start_ok ns' n cur' ∧ (cur ≠ [] → cur' ≠ []).
Proof.
  revert ns cur. induction ls as [|l ls IH]; intros ns cur Hok Hkn Hnd Hls Hcur Hep.
  { exists ns, cur. by split_and!. }
  apply NoDup_cons in Hnd as [Hl Hnd]. destruct (Hls l) as [Hll Hun]; [by left|].
  destruct (link_layer_joined ns query n ep cur l) as (ns1 & cur1 & E & [Hd Hok1 _ Hlay Hg Ho _ _] & Hcur1 & Hne); [done..|].
  destruct (IH ns1 cur1) as (ns' & cur' & E' & Hd' & Hok' & Hg' & Hlay' & Ho' & Hcur' & Hne').
  - done.
  - by apply (data_known _ _ _ Hd).
  - done.
  - intros l' Hin. destruct (Hls l') as [Hl1 [Hl2 Hl3]]; [by right|]. assert (l' ≠ l) by congruence.
    rewrite Hlay. split; [done|]. split; [by rewrite Ho|intros m; by rewrite Ho].
  - done.
  - by eapply start_ok_data.
  - exists ns', cur'. cbn [foldl]. rewrite E. split_and!; [done|by rewrite Hd'|done| |by rewrite Hlay'| |done|by auto].
    + intros k. etrans; [apply Hg|apply Hg'].
    + intros l' k [Hl1 Hl2]%not_elem_of_cons. by rewrite Ho', Ho.
Qed.

(** ** The invariant *)

Record graph_wf g : Prop := {
  wf_ids : ∀ i n, id_map g !! i = Some n ↔ ∃ nd, nodes g !! n = Some nd ∧ node_id nd = i;
  wf_links : ok_links c (nodes g);
  wf_entry : match entry_point g with
             | Some ep => ∃ nd, nodes g !! ep = Some nd ∧ node_level nd = current_max_level g
             | None => nodes g = [] end;
  wf_levels : ∀ n nd, nodes g !! n = Some nd →
    node_level nd ≤ current_max_level g ∧ S (node_level nd) ≤ length (node_neighbors nd);
  wf_top : current_max_level g < MAX_LEVELS;
}.

Lemma graph_new_wf : graph_wf graph_new.
Proof.
  split; cbn; try done.
  - intros i n. rewrite lookup_empty. naive_solver.
  - intros l n. unfold links. rewrite lookup_nil. split_and!; [constructor|by intros ?%elem_of_nil|done|cbn; lia].
  - unfold MAX_LEVELS. lia.
Qed.

(** The node before it is linked. *)
Definition new_node (level : nat) (id : string) (v : list f32) (md : gmap string string) : Node :=
  mkHNode id v md (replicate (S level) []) level false.

Lemma links_snoc ns nd l n :
  links (ns ++ [nd]) l n = if decide (n = length ns) then default [] (node_neighbors nd !! l) else links ns l n.
Proof.
  unfold links. case_decide as Hn; [subst n; by rewrite list_lookup_middle|].
  destruct (decide (n < length ns)); [by rewrite lookup_app_l|].
  rewrite (proj2 (lookup_ge_None ns n)), (proj2 (lookup_ge_None (ns ++ [nd]) n)); [done|rewrite length_app; cbn; lia|lia].
Qed.

Section new.
Context (g : Graph) (Hwf : graph_wf g) (level : nat) (id : string) (v : list f32) (md : gmap string string).
Abbreviation N := (length (nodes g)).
Abbreviation ns := (nodes g ++ [new_node level id v md]).

Lemma new_links l n : links ns l n = links (nodes g) l n.
Proof.
  rewrite links_snoc. case_decide as Hn; [|done]. subst n. unfold links at 1.
  rewrite (proj2 (lookup_ge_None (nodes g) _)) by lia. cbn [node_neighbors new_node].
  destruct (replicate (S level) [] !! l) eqn:E; [|done]. by apply lookup_replicate in E as [-> _].
Qed.

Lemma new_known n : known ns n ↔ known (nodes g) n ∨ n = N.
Proof. unfold known. rewrite length_app. cbn. lia. Qed.

Lemma new_node_ok : ok_links c ns.
Proof.
  intros l n. rewrite new_links. destruct (wf_links g Hwf l n) as (? & ? & Hk & ?). split_and!; try done.
  eapply Forall_impl; [exact Hk|]. intros k Hkk. apply new_known. by left.
Qed.

Lemma new_unlinked l : unlinked ns l N.
Proof.
  split.
  - rewrite new_links. unfold links. by rewrite (proj2 (lookup_ge_None (nodes g) _)) by lia.
  - intros m. rewrite new_links. destruct (wf_links g Hwf l m) as (_ & _ & Hk & _). intros Hin.
    rewrite Forall_forall in Hk. specialize (Hk _ Hin). unfold known in Hk. lia.
Qed.

Lemma new_layers : layers ns N = S level.
Proof. unfold layers. rewrite list_lookup_middle by done. cbn [node_neighbors new_node]. by rewrite length_replicate. Qed.

Lemma new_start ep nd : nodes g !! ep = Some nd → start_ok ns N [ep].
Proof.
  intros Hep%lookup_lt_Some. split; [apply NoDup_singleton| |].
  - constructor; [apply new_known; by left|done].
  - intros E%list_elem_of_singleton. lia.
Qed.

Lemma down_nodup lo hi : NoDup (down lo hi).
Proof. unfold down. rewrite reverse_Permutation. apply NoDup_seq. Qed.

(** Both phases of an insertion into a graph that is not empty. *)
Lemma insertion_phases ep nd :
  nodes g !! ep = Some nd →
  let cur := if level <? current_max_level g
             then foldl (descend metric ns v) [ep] (down (S level) (current_max_level g)) else [ep] in
  start_ok ns N cur ∧
  ∃ ns' cur', foldl (link_layer metric c v N ep) (ns, cur) (down 0 (level `min` current_max_level g)) = (ns', cur') ∧
    data <$> ns' = data <$> ns ∧ ok_links c ns' ∧ ∀ k, layers ns k ≤ layers ns' k.
Proof.
  intros Hep. cbv zeta. pose proof (new_start ep nd Hep) as Hs.
  assert (Hcur : start_ok ns N (if level <? current_max_level g
             then foldl (descend metric ns v) [ep] (down (S level) (current_max_level g)) else [ep])).
  { case_match; [|done]. apply descends_ok; [|done]. intros l k _. by apply new_unlinked. }
  revert Hcur. generalize (if level <? current_max_level g then
    foldl (descend metric ns v) [ep] (down (S level) (current_max_level g)) else [ep]). intros cur Hcur.
  split; [done|]. destruct (link_layers ns v N ep cur (down 0 (level `min` current_max_level g)) new_node_ok) as
    (ns' & cur' & E & Hd & Hok & Hg & _); [apply new_known; by right|apply down_nodup| |exact Hcur|done|eauto 10].
  intros l. unfold down. rewrite elem_of_reverse, elem_of_seq. intros Hl. split; [|apply new_unlinked].
  rewrite new_layers. lia.
Qed.

(** The identifiers of the nodes, linked or not. *)
Lemma new_ids ns' :
  data <$> ns' = data <$> ns → id_map g !! id = None →
  ∀ i n, <[id := N]> (id_map g) !! i = Some n ↔ ∃ nd, ns' !! n = Some nd ∧ node_id nd = i.
Proof.
  intros Hd Hid i n.
  assert ((∃ nd, ns' !! n = Some nd ∧ node_id nd = i) ↔ ∃ nd, ns !! n = Some nd ∧ node_id nd = i) as ->.
  { split; intros (nd & Hn & <-).
    - destruct (data_lookup _ _ _ _ Hd Hn) as (nd0 & ? & E). exists nd0. unfold data in E. split; [done|congruence].
    - symmetry in Hd. destruct (data_lookup _ _ _ _ Hd Hn) as (nd0 & ? & E). exists nd0. unfold data in E. split; [done|congruence]. }
  destruct (decide (n = N)) as [->|Hn].
  - rewrite list_lookup_middle by done. rewrite lookup_insert_Some. split.
    + intros [[<- _]|[_ Hi]]; [by eexists|]. apply (wf_ids g Hwf) in Hi as (nd & Hnd%lookup_lt_Some & _). lia.
    + intros (nd & [= <-] & <-). by left.
  - rewrite lookup_insert_Some. split.
    + intros [[_ ?]|[Hi Hx]]; [congruence|]. apply (wf_ids g Hwf) in Hx as (nd & Hnd & <-). exists nd. split; [|done].
      rewrite lookup_app_l; [done|by eapply lookup_lt_Some].
    + intros (nd & Hnd & <-). apply lookup_app_Some in Hnd as [Hnd|[? [? ?]%list_lookup_singleton_Some]]; [|lia].
      assert (id_map g !! node_id nd = Some n) as Hin by (apply (wf_ids g Hwf); eauto). right. split; congruence.
Qed.

Lemma new_levels ns' top :
  data <$> ns' = data <$> ns → (∀ k, layers ns k ≤ layers ns' k) → current_max_level g ≤ top → level ≤ top →
  ∀ n nd, ns' !! n = Some nd → node_level nd ≤ top ∧ S (node_level nd) ≤ length (node_neighbors nd).
Proof.
  intros Hd Hg Ht Hl n nd Hn. destruct (data_lookup _ _ _ _ Hd Hn) as (nd0 & Hn0 & E).
  assert (node_level nd = node_level nd0) as -> by (unfold data in E; congruence).
  specialize (Hg n). unfold layers in Hg. rewrite Hn, Hn0 in Hg.
  apply lookup_app_Some in Hn0 as [Hn0|[_ [_ <-]%list_lookup_singleton_Some]].
  - destruct (wf_levels g Hwf n nd0 Hn0). lia.
  - cbn [node_level new_node node_neighbors] in *. rewrite length_replicate in Hg. lia.
Qed.

Lemma insert_at_wf :
  level < MAX_LEVELS → id_map g !! id = None → graph_wf (insert_at metric c level id v md g).
Proof.
  intros Hlev Hid. unfold insert_at. change (mkHNode id v md _ level false) with (new_node level id v md).
  destruct (entry_point g) as [ep|] eqn:Eep.
  - pose proof (wf_entry g Hwf) as He. rewrite Eep in He. destruct He as (nd & Hep & Htop).
    destruct (insertion_phases ep nd Hep) as (_ & ns' & cur' & E & Hd & Hok & Hg). rewrite E.
    assert (Hentry : ∀ e x, ns !! e = Some x → ∃ nd', ns' !! e = Some nd' ∧ node_level nd' = node_level x).
    { intros e x Hx. symmetry in Hd. destruct (data_lookup _ _ _ _ Hd Hx) as (nd' & ? & Ed). exists nd'.
      unfold data in Ed. split; [done|congruence]. }
    destruct (Nat.ltb_spec (current_max_level g) level) as [Hlt|Hge];
      (split; cbn [id_map nodes entry_point current_max_level]; [by apply new_ids|done| | |]).
    + apply (Hentry N (new_node level id v md)). by rewrite list_lookup_middle.
    + apply new_levels; [done|done|lia|done].
    + done.
    + rewrite <- Htop. apply (Hentry ep nd). by apply lookup_app_l_Some.
    + apply new_levels; [done|done|done|lia].
    + apply (wf_top g Hwf).
  - pose proof (wf_entry g Hwf) as He. rewrite Eep in He.
    split; cbn [id_map nodes entry_point current_max_level]; [by apply new_ids|apply new_node_ok| | |done].
    + exists (new_node level id v md). by rewrite list_lookup_middle.
    + intros n nd Hn. rewrite He in Hn. apply list_lookup_singleton_Some in Hn as [_ <-]. cbn. rewrite length_replicate. lia.
Qed.

Lemma insert_at_data :
  data <$> nodes (insert_at metric c level id v md g) = data <$> ns ∧
  id_map (insert_at metric c level id v md g) = <[id := N]> (id_map g).
Proof.
  unfold insert_at. change (mkHNode id v md _ level false) with (new_node level id v md).
  destruct (entry_point g) as [ep|] eqn:Eep; [|done]. pose proof (wf_entry g Hwf) as He. rewrite Eep in He.
  destruct He as (nd & Hep & _). destruct (insertion_phases ep nd Hep) as (_ & ns' & cur' & -> & Hd & _). by case_match.
Qed.

End new.

(** ** Changes in place *)

(** A node's data may change, not its identifier, level or links. *)
Lemma alter_wf g f i :
  (∀ nd, node_id (f nd) = node_id nd ∧ node_level (f nd) = node_level nd ∧ node_neighbors (f nd) = node_neighbors nd) →
  graph_wf g → graph_wf (mkGraph (alter f i (nodes g)) (id_map g) (entry_point g) (current_max_level g)).
Proof.
  intros Hf [Hids Hlinks Hentry Hlev Htop].
  assert (Hlk : ∀ n, ∃ h, alter f i (nodes g) !! n = h <$> (nodes g !! n) ∧
    ∀ nd, node_id (h nd) = node_id nd ∧ node_level (h nd) = node_level nd ∧ node_neighbors (h nd) = node_neighbors nd).
  { intros n. rewrite list_lookup_alter. case_decide; [subst; by exists f|]. exists Datatypes.id. split; [|done].
    by destruct (nodes g !! n). }
  assert (Hl : ∀ l n, links (alter f i (nodes g)) l n = links (nodes g) l n).
  { intros l n. unfold links. destruct (Hlk n) as (h & -> & Hh). destruct (nodes g !! n) as [nd|]; [|done]. cbn.
    by destruct (Hh nd) as (_ & _ & ->). }
  split; cbn [id_map nodes entry_point current_max_level]; [| | | |done].
  - intros j n. rewrite Hids. destruct (Hlk n) as (h & -> & Hh). destruct (nodes g !! n) as [nd|]; cbn; [|naive_solver].
    destruct (Hh nd) as (E & _). split; intros (? & [= <-] & <-); eexists; (split; [done|]); congruence.
  - intros l n. rewrite Hl. destruct (Hlinks l n) as (? & ? & Hk & ?). split_and!; try done.
    eapply Forall_impl; [exact Hk|]. intros k. unfold known. by rewrite length_alter.
  - destruct (entry_point g) as [ep|]; [|by rewrite Hentry]. destruct Hentry as (nd & Hep & <-).
    destruct (Hlk ep) as (h & -> & Hh). rewrite Hep. eexists. split; [done|]. apply Hh.
  - intros n nd. destruct (Hlk n) as (h & -> & Hh). destruct (nodes g !! n) as [nd0|] eqn:E; [|done].
    intros [= <-]. destruct (Hh nd0) as (_ & -> & ->). by apply Hlev with n.
Qed.

End insertion.
