(* ===== verification/HnswTheorems.v ===== *)
(** Properties of the HNSW vector store: the graph stays well formed, the
    store refines a map of embeddings (and so serves as the vector modality),
    searches return stored embeddings, small indexes are searched exactly, and
    what deletion and pruning lose. *)

From S2P Require Import Prelude Machine Text Collections Float64 Format OctadTypes Modalities ModalityStores.
From S2P Require Import Hnsw HnswBeam HnswGraph.
Import Vector.
Local Open Scope nat_scope.

Section hnsw.
Context `{HeapIterLaws} `{LevelHash} `{NatLog}.
Implicit Types (s : HnswVectorStore) (g : Graph) (m : gmap string Embedding) (e : Embedding).

(** ** Contents *)

Definition emb_of (nd : Node) : Embedding := mkEmbedding (node_id nd) (node_vector nd) (node_metadata nd).
Definition stored (ns : list Node) (n : nat) : option Embedding :=
  nd ← ns !! n; if deleted nd then None else Some (emb_of nd).
Definition entry g (i : string) : option Embedding := n ← id_map g !! i; stored (nodes g) n.

Lemma hnsw_get_entry i s : hnsw_get i s = Ok (entry (graph s) i).
Proof. done. Qed.

Lemma data_stored ns ns' n : data <$> ns' = data <$> ns → stored ns' n = stored ns n.
Proof.
  intros E. unfold stored. destruct (ns' !! n) as [nd|] eqn:En.
  - destruct (data_lookup ns ns' n nd E En) as (nd0 & -> & Ed). cbn. unfold emb_of.
    by injection Ed as -> -> -> _ ->.
  - apply lookup_ge_None in En. rewrite (data_length _ _ E) in En. by rewrite (proj2 (lookup_ge_None ns n)).
Qed.

Lemma stored_live ns n : live ns n ↔ is_Some (stored ns n).
Proof.
  unfold live, stored. destruct (ns !! n) as [nd|]; cbn; [|split; [naive_solver|by intros []%is_Some_None]].
  destruct (deleted nd) eqn:E; split; [naive_solver congruence|by intros []%is_Some_None|by eauto|by eauto].
Qed.

(** A live node and its entry. *)
Lemma entry_iff c g i e :
  graph_wf c g → entry g i = Some e ↔ ∃ n, stored (nodes g) n = Some e ∧ emb_id e = i.
Proof.
  intros Hwf. unfold entry. rewrite bind_Some. split.
  - intros (n & Hn & He). exists n. split; [done|]. apply (wf_ids c g Hwf) in Hn as (nd & Hnd & <-).
    unfold stored in He. rewrite Hnd in He. cbn in He. case_match; [done|]. by simplify_eq.
  - intros (n & He & <-). exists n. split; [|done]. apply (wf_ids c g Hwf).
    unfold stored in He. apply bind_Some in He as (nd & Hnd & He). case_match; [done|]. simplify_eq. by exists nd.
Qed.

(** What inserting a new identifier changes. *)
Lemma entry_insert_at metric c level id v md g i :
  graph_wf c g → id_map g !! id = None →
  entry (insert_at metric c level id v md g) i =
  if decide (i = id) then Some (mkEmbedding id v md) else entry g i.
Proof.
  intros Hwf Hid. destruct (insert_at_data metric c g Hwf level id v md) as [Hd Hi]. unfold entry. rewrite Hi.
  case_decide as E.
  - subst i. rewrite lookup_insert_eq. cbn. rewrite (data_stored _ _ _ Hd). unfold stored.
    by rewrite list_lookup_middle.
  - rewrite lookup_insert_ne by done. destruct (id_map g !! i) as [n|] eqn:En; [|done]. cbn.
    rewrite (data_stored _ _ _ Hd). unfold stored. apply (wf_ids c g Hwf) in En as (nd & Hnd & _).
    by rewrite lookup_app_l by by eapply lookup_lt_Some.
Qed.

(** Changing one node. *)
Lemma entry_alter c f g id n i :
  graph_wf c g → id_map g !! id = Some n →
  entry (mkGraph (alter f n (nodes g)) (id_map g) (entry_point g) (current_max_level g)) i =
  if decide (i = id) then nd ← nodes g !! n; if deleted (f nd) then None else Some (emb_of (f nd)) else entry g i.
Proof.
  intros Hwf Hid. unfold entry. cbn [id_map nodes]. case_decide as E.
  - subst i. rewrite Hid. cbn. unfold stored. rewrite list_lookup_alter_eq. by destruct (nodes g !! n).
  - destruct (id_map g !! i) as [k|] eqn:Ek; [|done]. cbn. unfold stored. rewrite list_lookup_alter_ne; [done|].
    intros <-. apply (wf_ids c g Hwf) in Hid as (nd & Hn & <-). apply (wf_ids c g Hwf) in Ek as (nd' & Hn' & <-).
    congruence.
Qed.

Lemma assign_level_bound id k count : assign_level id k count < MAX_LEVELS.
Proof. unfold assign_level, MAX_LEVELS. lia. Qed.

Lemma insert_wf metric c id v md g count :
  graph_wf c g → graph_wf c (insert metric c id v md (g, count)).1.
Proof.
  intros Hwf. unfold insert. destruct (id_map g !! id) as [n|] eqn:E.
  - by apply (alter_wf c g (update_node v md)).
  - apply insert_at_wf; [done|apply assign_level_bound|done].
Qed.

Lemma entry_insert metric c id v md g count i :
  graph_wf c g →
  entry (insert metric c id v md (g, count)).1 i = if decide (i = id) then Some (mkEmbedding id v md) else entry g i.
Proof.
  intros Hwf. unfold insert. destruct (id_map g !! id) as [n|] eqn:E; [|by apply (entry_insert_at metric c)].
  cbn [fst]. rewrite (entry_alter c _ _ id n) by done. case_decide; [|done]. subst i.
  apply (wf_ids c g Hwf) in E as (nd & -> & <-). done.
Qed.

(** ** The operations on a well-formed store *)

Definition store_wf s : Prop := graph_wf (hnsw_config s) (graph s).

(** [s] changes neither its parameters nor its well-formedness. *)
Record step_ok s s' : Prop := {
  sk_config : hnsw_config s' = hnsw_config s;
  sk_dimension : hnsw_dimension s' = hnsw_dimension s;
  sk_metric : hnsw_metric s' = hnsw_metric s;
  sk_wf : store_wf s → store_wf s';
}.

Lemma upsert_step e s : step_ok s (hnsw_upsert e s).1.
Proof.
  unfold hnsw_upsert. case_match; [by split|]. destruct (insert _ _ _ _ _ _) as [g count] eqn:E. split; cbn; try done.
  intros Hwf. apply (insert_wf (hnsw_metric s) _ (emb_id e) (vector e) (emb_metadata e) _ (insert_counter s)) in Hwf.
  rewrite E in Hwf. exact Hwf.
Qed.

Lemma upsert_entry e s i :
  store_wf s →
  entry (graph (hnsw_upsert e s).1) i =
  if decide (i = emb_id e ∧ dim e = hnsw_dimension s) then Some e else entry (graph s) i.
Proof.
  intros Hwf. unfold hnsw_upsert. destruct (Nat.eqb_spec (dim e) (hnsw_dimension s)) as [Hd|Hd]; cbn [negb].
  - pose proof (entry_insert (hnsw_metric s) _ (emb_id e) (vector e) (emb_metadata e) _ (insert_counter s) i Hwf) as He.
    destruct (insert _ _ _ _ _ _) as [g count]. cbn in *. rewrite He.
    destruct (decide (i = emb_id e)), (decide (i = emb_id e ∧ dim e = hnsw_dimension s)); try (tauto || done).
    by destruct e.
  - by rewrite decide_False by tauto.
Qed.

Lemma delete_step id s : step_ok s (hnsw_delete id s).1.
Proof.
  unfold hnsw_delete, sr_modify. cbn [fst]. destruct (id_map (graph s) !! id) as [n|]; [|by split]. split; try done.
  intros Hwf. by apply (alter_wf _ _ mark_deleted).
Qed.

Lemma delete_entry id s i :
  store_wf s → entry (graph (hnsw_delete id s).1) i = if decide (i = id) then None else entry (graph s) i.
Proof.
  intros Hwf. unfold hnsw_delete, sr_modify. cbn [fst]. destruct (id_map (graph s) !! id) as [n|] eqn:E.
  - cbn [graph set_graph]. rewrite (entry_alter (hnsw_config s) _ _ id n) by done. case_decide; [|done].
    by destruct (nodes (graph s) !! n).
  - case_decide; [|done]. subst i. unfold entry. by rewrite E.
Qed.

(** ** The vector modality

    A well-formed store is a vector store in the sense of [Modalities]. *)
Definition HnswState : Type := { s : HnswVectorStore | store_wf s }.

#[export] Program Instance hnsw_store : VectorStore := {|
  VectorState := HnswState;
  vector_upsert e (s : HnswState) := (exist _ (hnsw_upsert e (`s)).1 _, (hnsw_upsert e (`s)).2);
  vector_search q k (s : HnswState) := hnsw_search q k (`s);
  vector_get i (s : HnswState) := hnsw_get i (`s);
  vector_delete i (s : HnswState) := (exist _ (hnsw_delete i (`s)).1 _, (hnsw_delete i (`s)).2);
|}.
Next Obligation. intros e [s Hwf]. by apply upsert_step. Qed.
Next Obligation. intros i [s Hwf]. by apply delete_step. Qed.

(** What a step of the store is on the underlying one. *)
Lemma hnsw_state_inv (p p' : HnswState * result string unit) :
  p = p' → ` p.1 = ` p'.1 ∧ p.2 = p'.2.
Proof. by intros ->. Qed.

#[export] Instance hnsw_laws : VectorLaws hnsw_store.
Proof.
  split.
  - intros e [s Hwf] [s' Hwf'] E. destruct (hnsw_state_inv _ _ E) as [Es Er]. cbn [fst snd proj1_sig] in Es, Er.
    change (hnsw_get (emb_id e) s' = Ok (Some e)). rewrite hnsw_get_entry, <- Es. cbn [vector_upsert hnsw_store fst proj1_sig].
    rewrite upsert_entry by done. cbn in Er. unfold hnsw_upsert in Er.
    destruct (Nat.eqb_spec (dim e) (hnsw_dimension s)); [|done]. by rewrite decide_True.
  - intros k [s Hwf] [s' Hwf'] E. destruct (hnsw_state_inv _ _ E) as [Es _]. cbn [fst proj1_sig] in Es.
    change (hnsw_get k s' = Ok None). rewrite hnsw_get_entry, <- Es. cbn [vector_delete hnsw_store fst proj1_sig].
    by rewrite delete_entry, decide_True.
  - intros e k [s Hwf] Hk. change (hnsw_get k (hnsw_upsert e s).1 = hnsw_get k s).
    rewrite !hnsw_get_entry, upsert_entry by done. by rewrite decide_False by tauto.
  - intros k' k [s Hwf] Hk. change (hnsw_get k (hnsw_delete k' s).1 = hnsw_get k s).
    rewrite !hnsw_get_entry, delete_entry by done. by rewrite decide_False.
Qed.

(** ** A map of embeddings *)

Inductive hnsw_op := HUpsert (e : Embedding) | HDelete (id : string).

Definition run_op s (o : hnsw_op) : HnswVectorStore :=
  match o with HUpsert e => (hnsw_upsert e s).1 | HDelete i => (hnsw_delete i s).1 end.

(** The specification: only embeddings of the right dimension are stored. *)
Definition spec_op (dimension : nat) m (o : hnsw_op) : gmap string Embedding :=
  match o with
  | HUpsert e => if (dim e =? dimension)%nat then <[emb_id e := e]> m else m
  | HDelete i => delete i m
  end.

Record represents dimension metric c s m : Prop := {
  rp_wf : graph_wf c (graph s);
  rp_params : hnsw_config s = c ∧ hnsw_dimension s = dimension ∧ hnsw_metric s = metric;
  rp_entries : ∀ i, entry (graph s) i = m !! i;
}.

Lemma run_represents dimension metric c s m o :
  represents dimension metric c s m → represents dimension metric c (run_op s o) (spec_op dimension m o).
Proof.
  intros [Hwf (<- & <- & <-) He].
  assert (Hst : step_ok s (run_op s o)) by (destruct o; [apply upsert_step|apply delete_step]).
  destruct Hst as [Hc Hd Hm Hk]. split; [|done|].
  - unfold store_wf in Hk. rewrite Hc in Hk. by apply Hk.
  - intros i. destruct o as [e|id]; cbn [run_op spec_op].
    + rewrite upsert_entry, He by done. destruct (Nat.eqb_spec (dim e) (hnsw_dimension s)) as [Hdim|Hdim].
      * destruct (decide (i = emb_id e)) as [->|Hi]; [by rewrite decide_True, lookup_insert_eq by done|].
        by rewrite decide_False, lookup_insert_ne by naive_solver.
      * by rewrite decide_False by tauto.
    + rewrite delete_entry, He by done. case_decide as Hi; [by rewrite Hi, lookup_delete_eq|].
      by rewrite lookup_delete_ne.
Qed.

Lemma runs_represent dimension metric c count ops :
  represents dimension metric c (foldl run_op (hnsw_new dimension metric c count) ops) (foldl (spec_op dimension) ∅ ops).
Proof.
  induction ops as [|o ops IH] using rev_ind; [|rewrite !foldl_app; by apply run_represents].
  split; [apply graph_new_wf|done|]. intros i. cbn. unfold entry. by rewrite !lookup_empty.
Qed.

(** The identifiers of the live nodes are those of the map. *)
Lemma entries_count dimension metric c s m :
  represents dimension metric c s m → hnsw_len s = size m.
Proof.
  intros [Hwf _ He]. unfold hnsw_len. set (lives := retain _ _).
  assert (Hn : NoDup (node_id <$> lives)).
  { eapply sublist_NoDup; [|apply fmap_sublist, (sublist_retain (λ n, negb (deleted n)) (nodes (graph s)))].
    apply NoDup_alt. intros i j k. rewrite !list_lookup_fmap.
    destruct (nodes (graph s) !! i) as [x|] eqn:Hx, (nodes (graph s) !! j) as [y|] eqn:Hy; try done.
    intros [= <-] [= E]. assert (id_map (graph s) !! node_id x = Some i) as Hi by (apply (wf_ids _ _ Hwf); eauto).
    assert (id_map (graph s) !! node_id x = Some j) as Hj by (apply (wf_ids _ _ Hwf); eauto). congruence. }
  rewrite <- (length_fmap node_id), <- size_dom, <- (size_list_to_set (C := gset string)) by done. f_equal.
  apply set_eq. intros i. rewrite elem_of_list_to_set, elem_of_dom, <- He, list_elem_of_fmap. split.
  - intros (nd & -> & [Hin Hd]%elem_of_retain). apply list_elem_of_lookup in Hin as [n Hn'].
    exists (emb_of nd). apply (entry_iff c _ _ _ Hwf). exists n. split; [|done]. unfold stored. rewrite Hn'. cbn.
    by destruct (deleted nd).
  - intros [e Hent]. apply (entry_iff c _ _ _ Hwf) in Hent as (n & Hst & <-). unfold stored in Hst.
    apply bind_Some in Hst as (nd & Hn' & Hd). destruct (deleted nd) eqn:Ed; [done|]. simplify_eq. exists nd.
    split; [done|]. apply elem_of_retain. rewrite Ed. split; [by eapply list_elem_of_lookup_2|done].
Qed.

(** C30 (the index is a map).  Whatever is upserted and deleted, the store reads
    as the map of the embeddings written last and not deleted since, counts
    them, refuses embeddings of another dimension without a change, and its graph keeps its
    shape: identifiers and nodes correspond, every node links to distinct other
    nodes, on every layer no more than the configuration allows. *)
Theorem hnsw_refines_map dimension metric c count ops :
  let s := foldl run_op (hnsw_new dimension metric c count) ops in
  let m := foldl (spec_op dimension) ∅ ops in
  (∀ i, hnsw_get i s = Ok (m !! i)) ∧ hnsw_len s = size m ∧
  (∀ e, dim e ≠ dimension → hnsw_upsert e s = (s, Err (mismatch dimension (dim e)))) ∧
  (∀ i n, id_map (graph s) !! i = Some n ↔ ∃ nd, nodes (graph s) !! n = Some nd ∧ node_id nd = i) ∧
  (∀ l n, let ks := links (nodes (graph s)) l n in
     NoDup ks ∧ n ∉ ks ∧ Forall (known (nodes (graph s))) ks ∧ length ks ≤ capacity c l).
Proof.
  cbv zeta. generalize (runs_represent dimension metric c count ops).
  generalize (foldl run_op (hnsw_new dimension metric c count) ops), (foldl (spec_op dimension) ∅ ops). intros s m Hr.
  split_and!.
  - intros i. rewrite hnsw_get_entry. f_equal. apply Hr.
  - by eapply entries_count.
  - intros e Hd. destruct Hr as [_ (_ & <- & _) _]. unfold hnsw_upsert.
    by rewrite (proj2 (Nat.eqb_neq _ _)).
  - apply (wf_ids c _ (rp_wf _ _ _ _ _ Hr)).
  - apply (wf_links c _ (rp_wf _ _ _ _ _ Hr)).
Qed.

(** ** Searching *)

(** Distinct nodes to start from. *)
Definition starts (ns : list Node) (eps : list nat) : Prop := NoDup eps ∧ Forall (known ns) eps ∧ eps ≠ [].

Lemma descend_starts metric ns query eps l : starts ns eps → starts ns (descend metric ns query eps l).
Proof.
  intros (Hn & Hk & He). pose proof (search_layer_known metric ns query eps 1 l Hn Hk) as Hr. unfold descend.
  destruct (search_layer _ _ _ _ _ _) as [|[d i] r]; [done|]. cbn in Hr. apply Forall_cons in Hr as [Hi _].
  split_and!; [apply NoDup_singleton|by constructor|done].
Qed.

Lemma descends_starts metric ns query eps ls : starts ns eps → starts ns (foldl (descend metric ns query) eps ls).
Proof. revert eps. induction ls as [|l ls IH]; intros eps He; [done|]. by apply IH, descend_starts. Qed.

(** A search is one of the lowest layer, cut to [k]. *)
Lemma graph_search_layer metric c g query k ef :
  graph_wf c g →
  graph_search metric g query k ef = [] ∧ nodes g = [] ∨
  ∃ eps, starts (nodes g) eps ∧
    graph_search metric g query k ef = take k (search_layer metric (nodes g) query eps (Nat.max ef k) 0).
Proof.
  intros Hwf. pose proof (wf_entry c g Hwf) as He. unfold graph_search. destruct (entry_point g) as [ep|]; [|by left].
  right. eexists. split; [|reflexivity]. apply descends_starts. destruct He as (nd & Hep%lookup_lt_Some & _).
  split_and!; [apply NoDup_singleton|by constructor|done].
Qed.

Definition id_at (ns : list Node) (n : nat) : string := match ns !! n with Some nd => node_id nd | None => EmptyString end.

(** A found entity: its distance and identifier. *)
Definition found metric (query : list f32) m (p : f32 * string) : Prop :=
  ∃ e, m !! p.2 = Some e ∧ p.1 = distance metric query (vector e).

Definition scored_result metric (p : f32 * string) : string * f32 := (p.2, distance_to_score metric p.1).

Lemma live_entry dimension metric c s m query x :
  represents dimension metric c s m → live (nodes (graph s)) x.2 → x.1 = dist_to metric (nodes (graph s)) query x.2 →
  found metric query m (x.1, id_at (nodes (graph s)) x.2).
Proof.
  intros [Hwf _ He] Hl Hx. pose proof Hl as [e Hst]%stored_live.
  exists e. cbn. rewrite <- He. destruct Hl as (nd & Hnd & Hd). unfold id_at. rewrite Hnd. split.
  - apply (entry_iff c _ _ _ Hwf). exists x.2. split; [done|]. unfold stored in Hst. rewrite Hnd in Hst. cbn in Hst.
    rewrite Hd in Hst. by simplify_eq.
  - rewrite Hx. unfold dist_to, vector_at. rewrite Hnd. unfold stored in Hst. rewrite Hnd in Hst. cbn in Hst.
    rewrite Hd in Hst. by simplify_eq.
Qed.

(** All distances of the query to stored embeddings are numbers. *)
Definition all_numbers metric (query : list f32) m : Prop :=
  ∀ i e, m !! i = Some e → f64_is_nan (distance metric query (vector e)) = false.

Lemma live_number dimension metric c s m query n :
  represents dimension metric c s m → all_numbers metric query m → live (nodes (graph s)) n →
  f64_is_nan (dist_to metric (nodes (graph s)) query n) = false.
Proof.
  intros Hr Hnum Hl. destruct (live_entry _ _ _ _ _ query (dist_to metric (nodes (graph s)) query n, n) Hr Hl) as (e & He & Hd); [done|].
  cbn [fst] in Hd. rewrite Hd. by eapply Hnum.
Qed.

(** The identifier in place of the node. *)
Definition named (ns : list Node) (x : f32 * nat) : f32 * string := (x.1, id_at ns x.2).

Lemma result_of_named s x : result_of s x = scored_result (hnsw_metric s) (named (nodes (graph s)) x).
Proof. done. Qed.

Lemma named_nodup c g (r : list (f32 * nat)) :
  graph_wf c g → NoDup r.*2 → Forall (known (nodes g)) r.*2 → NoDup (named (nodes g) <$> r).*2.
Proof.
  intros Hwf Hn Hk. rewrite <- list_fmap_compose. apply NoDup_fmap_2_strong; [|by eapply NoDup_fmap_1].
  intros x y Hx Hy E. cbn in E. unfold id_at in E.
  assert (Hkn : ∀ z, z ∈ r → ∃ nd, nodes g !! z.2 = Some nd).
  { intros z Hz. apply lookup_lt_is_Some_2. rewrite Forall_forall in Hk. apply Hk. by apply list_elem_of_fmap_2. }
  destruct (Hkn x Hx) as [a Ha], (Hkn y Hy) as [b Hb]. rewrite Ha, Hb in E.
  assert (id_map g !! node_id a = Some x.2) as H1' by (apply (wf_ids c g Hwf); eauto).
  assert (id_map g !! node_id a = Some y.2) as H2' by (apply (wf_ids c g Hwf); eauto).
  assert (x.2 = y.2) as E2 by congruence. apply list_elem_of_lookup in Hx as [i Hi], Hy as [j Hj].
  assert (i = j) as ->; [|congruence]. apply (NoDup_lookup r.*2 i j x.2 Hn); rewrite list_lookup_fmap.
  - by rewrite Hi.
  - by rewrite Hj, E2.
Qed.

Lemma sorted_named ns r : StronglySorted (ascending fst) r → StronglySorted (ascending fst) (named ns <$> r).
Proof.
  induction 1 as [|x r _ IH Hx]; cbn; constructor; [done|]. apply Forall_fmap. eapply Forall_impl; [exact Hx|].
  by intros y.
Qed.

(** What a search returns.  A query of the wrong dimension is refused;
    otherwise at most [k] different stored embeddings are returned, each with
    the score of its distance to the query -- never a deleted or overwritten
    vector --, nearest first when the distances are numbers. *)
Theorem hnsw_search_sound dimension metric c count ops query k :
  let s := foldl run_op (hnsw_new dimension metric c count) ops in
  let m := foldl (spec_op dimension) ∅ ops in
  if (length query =? dimension)%nat then
    ∃ r, hnsw_search query k s = Ok (scored_result metric <$> r) ∧ length r ≤ k ∧ NoDup r.*2 ∧
      Forall (found metric query m) r ∧ (all_numbers metric query m → StronglySorted (ascending fst) r)
  else hnsw_search query k s = Err (mismatch dimension (length query)).
Proof.
  cbv zeta. generalize (runs_represent dimension metric c count ops).
  generalize (foldl run_op (hnsw_new dimension metric c count) ops), (foldl (spec_op dimension) ∅ ops). intros s m Hr.
  pose proof Hr as [Hwf (Hc & <- & <-) _]. unfold hnsw_search. destruct (length query =? hnsw_dimension s)%nat; [|done].
  exists (named (nodes (graph s)) <$> graph_search (hnsw_metric s) (graph s) query k (ef_search (hnsw_config s))).
  rewrite <- list_fmap_compose. split; [done|].
  destruct (graph_search_layer (hnsw_metric s) c (graph s) query k (ef_search (hnsw_config s)) Hwf)
    as [[-> _]|(eps & (Hn & Hk & _) & ->)].
  { split_and!; [cbn; lia|constructor|constructor|constructor]. }
  set (r := search_layer _ _ _ _ _ _).
  destruct (search_layer_sound (hnsw_metric s) (nodes (graph s)) query eps (Nat.max (ef_search (hnsw_config s)) k) 0 Hn Hk) as [Hnd Hx].
  pose proof (search_layer_known (hnsw_metric s) (nodes (graph s)) query eps (Nat.max (ef_search (hnsw_config s)) k) 0 Hn Hk) as Hkn.
  rewrite fmap_take. split_and!.
  - rewrite length_take. lia.
  - rewrite fmap_take. eapply sublist_NoDup; [|apply sublist_take]. by apply (named_nodup c).
  - apply Forall_take, Forall_fmap, Forall_forall. intros x Hin. destruct (Hx x Hin) as (Hl & Hd & _).
    by eapply live_entry.
  - intros Hnum. eapply (StronglySorted_app_1_l _ _ (drop k (named (nodes (graph s)) <$> r))).
    rewrite take_drop. apply sorted_named, search_layer_sorted; [|done..]. intros n. by eapply live_number.
Qed.

(** ** Small indexes *)

Definition complete (ns : list Node) : Prop := ∀ i j, known ns i → known ns j → i ≠ j → j ∈ links ns 0 i.
Definition all_live (ns : list Node) : Prop := ∀ n, known ns n → live ns n.

Lemma down_split k : down 0 k = (down 1 k ++ [0])%list.
Proof. unfold down. replace (S k - 0) with (S (S k - 1)) by lia. cbn [seq]. by rewrite reverse_cons. Qed.

(** What a wide search on a complete lowest layer finds. *)
Lemma search_complete metric ns query eps ef :
  complete ns → all_live ns → starts ns eps → length ns ≤ ef →
  ∀ n, n ∈ (search_layer metric ns query eps ef 0).*2 ↔ known ns n.
Proof.
  intros Hc Hl (Hn & Hk & He) Hef n. rewrite search_layer_all by done. split; [by intros [?%live_known _]|].
  intros Hkn. split; [by apply Hl|]. destruct eps as [|e eps]; [done|]. apply Forall_cons in Hk as [Hke _].
  exists e. split; [by left|]. destruct (decide (e = n)) as [->|Hen]; [constructor|].
  apply rtc_once. split; [by apply Hc|done].
Qed.

(** Joining a node with all others on the lowest layer. *)
Lemma joined_complete metric c ns ns' n sel :
  ok_links c ns → joined metric c ns ns' 0 n sel → unlinked ns 0 n → length ns ≤ S (max_connections_layer0 c) → known ns n →
  (∀ i, i ∈ sel ↔ known ns i ∧ i ≠ n) →
  (∀ i j, known ns i → known ns j → i ≠ n → j ≠ n → i ≠ j → j ∈ links ns 0 i) → complete ns'.
Proof.
  intros Hok [Hd _ Hl _ _ _ _ Hs] [_ Hun] Hlen Hkn Hsel Hold i j Hi Hj Hij.
  apply (data_known _ _ _ Hd) in Hi, Hj. destruct (decide (i = n)) as [->|Hin].
  { rewrite Hl. apply Hsel. by split. }
  destruct (Hs i) as (ns0 & nd & ->); [by apply Hsel|].
  assert (kept metric ns0 (capacity c 0) nd (links ns 0 i ++ [n]) = links ns 0 i ++ [n]) as ->.
  { unfold kept. rewrite (proj2 (Nat.ltb_ge _ _)); [done|]. destruct (Hok 0 i) as (Hnd & Hself & Hk & _).
    assert (length (i :: n :: links ns 0 i) ≤ length ns) as Hle; [|rewrite length_app; unfold capacity; cbn in *; lia].
    apply nodup_known_length; [|by repeat constructor].
    apply NoDup_cons. split; [intros [?|?]%elem_of_cons; [congruence|done]|]. apply NoDup_cons. by split; [apply Hun|]. }
  apply elem_of_app. destruct (decide (j = n)) as [->|Hjn]; [right; by apply list_elem_of_singleton|left; by apply Hold].
Qed.

(** All other nodes are found and selected when they fit. *)
Lemma near_all metric ns query n cur cap ef :
  known ns n → length ns ≤ S cap ∧ length ns ≤ ef → unlinked ns 0 n → start_ok ns n cur → cur ≠ [] →
  (∀ i, known ns i ∧ i ≠ n → live ns i) →
  (∀ i j, known ns i ∧ i ≠ n → known ns j ∧ j ≠ n → i ≠ j → j ∈ links ns 0 i) →
  ∀ i, i ∈ take cap (search_layer metric ns query cur ef 0).*2 ↔ known ns i ∧ i ≠ n.
Proof.
  intros Hn [Hcap Hef] [_ Hun] Hst Hne Hl Hc i. pose proof (search_start_ok metric ns query n cur ef 0 Hun Hst) as [Hnd Hk Hnew].
  pose proof Hst as [Hcn Hck Hcnew]. rewrite take_ge.
  - rewrite search_layer_all by done. split.
    + intros [?%live_known Hr]. split; [done|]. by eapply reachable_old.
    + intros [Hi Hin]. split; [by apply Hl|]. destruct cur as [|e cur]; [done|]. exists e. split; [by left|].
      destruct (decide (e = i)) as [->|Hei]; [constructor|]. apply rtc_once. split; [|done].
      apply Forall_cons in Hck as [He _]. apply not_elem_of_cons in Hcnew as [Hen _]. by apply Hc.
  - assert (length (n :: (search_layer metric ns query cur ef 0).*2) ≤ length ns) as Hle; [|cbn in Hle; lia].
    apply nodup_known_length; by constructor.
Qed.

Lemma insert_at_complete metric c level id v md g :
  graph_wf c g → complete (nodes g) → all_live (nodes g) →
  length (nodes g) ≤ max_connections_layer0 c → length (nodes g) < ef_construction c →
  complete (nodes (insert_at metric c level id v md g)).
Proof.
  intros Hwf Hc Hl Hm He. unfold insert_at. change (mkHNode id v md _ level false) with (new_node level id v md).
  pose proof (wf_entry c g Hwf) as Hent. destruct (entry_point g) as [ep|].
  2:{ rewrite Hent. intros i j Hi Hj. unfold known in *. cbn in *. lia. }
  destruct Hent as (nd & Hep & _). set (N := length (nodes g)). set (ns := nodes g ++ [new_node level id v md]).
  destruct (insertion_phases metric c g Hwf level id v md ep nd Hep) as [Hcur _]. fold N ns in Hcur |- *.
  set (cur := if level <? current_max_level g then _ else _) in *.
  assert (Hne : cur ≠ []) by (unfold cur; case_match; [by apply descends_some|done]).
  pose proof (new_start g level id v md ep nd Hep) as Hst. fold N ns in Hst.
  assert (Hkn : known ns N) by (apply new_known; by right).
  assert (Hnl : layers ns N = S level) by apply new_layers.
  rewrite down_split, foldl_app.
  destruct (link_layers metric c ns v N ep cur (down 1 (level `min` current_max_level g)))
    as (ns1 & cur1 & -> & Hd1 & Hok1 & _ & Hlay1 & Ho1 & Hs1 & Hne1); [by apply new_node_ok|done|apply down_nodup| |done|done|].
  { intros l. unfold down. rewrite elem_of_reverse, elem_of_seq. intros Hin. split; [lia|by apply (new_unlinked c)]. }
  assert (Hlow : ∀ k, links ns1 0 k = links (nodes g) 0 k).
  { intros k. rewrite Ho1; [by apply new_links|]. unfold down. rewrite elem_of_reverse, elem_of_seq. lia. }
  assert (Hun : unlinked ns1 0 N).
  { destruct (new_unlinked c g Hwf level id v md 0) as [Hu1 Hu2]. fold N ns in Hu1, Hu2.
    split; [|intros k]; rewrite Hlow, <- (new_links g level id v md); [done|apply Hu2]. }
  destruct (link_layer_joined metric c ns1 v N ep cur1 0) as (ns2 & cur2 & E & Hj & _);
    [done|by apply (data_known _ _ _ Hd1)|lia|done|done|by eapply start_ok_data|].
  cbn [foldl]. rewrite E.
  assert (complete ns2) as Hc2; [|by case_match].
  assert (Hold : ∀ i, known ns1 i ∧ i ≠ N ↔ known (nodes g) i).
  { intros i. rewrite (data_known _ _ _ Hd1). unfold ns. rewrite new_known. fold N. unfold known. fold N. lia. }
  eapply joined_complete; [done|exact Hj|done| |by apply (data_known _ _ _ Hd1)| |].
  - rewrite (data_length _ _ Hd1). unfold ns. rewrite length_app. cbn. lia.
  - eapply near_all; try done.
    + by apply (data_known _ _ _ Hd1).
    + rewrite (data_length _ _ Hd1). unfold ns. rewrite length_app. cbn. lia.
    + by apply Hne1.
    + intros i Hi. apply (data_live _ _ i Hd1). apply Hold, Hl in Hi as (x & Hx & Hdx).
      exists x. split; [by apply lookup_app_l_Some|done].
    + intros i j [Hi HiN] [Hj' HjN] Hij. rewrite Hlow. by apply Hc; [apply Hold|apply Hold|].
  - intros i j Hi Hj' HiN HjN Hij. rewrite Hlow. by apply Hc; [apply Hold|apply Hold|].
Qed.

Lemma all_live_size dimension metric c s m :
  represents dimension metric c s m → all_live (nodes (graph s)) → length (nodes (graph s)) = size m.
Proof.
  intros Hr Hl. rewrite <- (entries_count _ _ _ _ _ Hr). unfold hnsw_len. rewrite retain_all; [done|].
  intros nd [n Hn]%list_elem_of_lookup. destruct (Hl n) as (nd' & Hn' & Hd); [by eapply lookup_lt_Some|].
  assert (nd' = nd) as -> by congruence. by rewrite Hd.
Qed.

(** Without deletions the lowest layer of a small index stays complete. *)
Lemma upsert_complete dimension metric c s m e :
  represents dimension metric c s m → complete (nodes (graph s)) ∧ all_live (nodes (graph s)) →
  size (spec_op dimension m (HUpsert e)) ≤ S (max_connections_layer0 c) →
  size (spec_op dimension m (HUpsert e)) ≤ ef_construction c →
  complete (nodes (graph (run_op s (HUpsert e)))) ∧ all_live (nodes (graph (run_op s (HUpsert e)))).
Proof.
  intros Hr [Hc Hl]. pose proof (all_live_size _ _ _ _ _ Hr Hl) as Hsz. pose proof Hr as [Hwf (<- & <- & <-) He].
  cbn [spec_op run_op]. unfold hnsw_upsert. destruct (dim e =? hnsw_dimension s); cbn [negb]; [|done].
  unfold insert. destruct (id_map (graph s) !! emb_id e) as [n|] eqn:Hid; cbn [fst graph nodes].
  - intros _ _. assert (Hlk : ∀ k, links (alter (update_node (vector e) (emb_metadata e)) n (nodes (graph s))) 0 k =
      links (nodes (graph s)) 0 k).
    { intros k. rewrite links_alter. case_decide; [|done]. unfold links. by destruct (nodes (graph s) !! k). }
    split.
    + intros i j. unfold known. rewrite length_alter, Hlk. apply Hc.
    + intros i. unfold known. rewrite length_alter. intros Hi. destruct (Hl i Hi) as (nd & Hnd & Hd). unfold live.
      rewrite list_lookup_alter, Hnd. case_decide; [subst n; rewrite Hnd|]; cbn; eauto.
  - assert (Hm : m !! emb_id e = None) by (rewrite <- He; unfold entry; by rewrite Hid).
    rewrite map_size_insert_None by done. intros H1' H2'. split; [apply insert_at_complete; try done; lia|].
    intros i Hi.
    destruct (insert_at_data (hnsw_metric s) _ _ Hwf (assign_level (emb_id e) (max_connections (hnsw_config s)) (insert_counter s))
      (emb_id e) (vector e) (emb_metadata e)) as [Hd _].
    apply (data_live _ _ _ Hd). apply (data_known _ _ _ Hd), new_known in Hi as [Hi| ->].
    + destruct (Hl i Hi) as (nd & Hnd & Hdel). exists nd. split; [by apply lookup_app_l_Some|done].
    + eexists. split; [by rewrite list_lookup_middle|done].
Qed.

Lemma upserts_size dimension es es' :
  size (foldl (spec_op dimension) ∅ (HUpsert <$> es)) ≤ size (foldl (spec_op dimension) ∅ (HUpsert <$> es ++ es')).
Proof.
  rewrite fmap_app, foldl_app. generalize (foldl (spec_op dimension) ∅ (HUpsert <$> es)). intros m.
  revert m. induction es' as [|e es' IH]; intros m; cbn [fmap list_fmap foldl]; [done|]. etrans; [|apply IH].
  cbn [spec_op]. case_match; [|done]. rewrite map_size_insert. case_match; unfold Datatypes.id; lia.
Qed.

Lemma upserts_complete dimension metric c count es :
  size (foldl (spec_op dimension) ∅ (HUpsert <$> es)) ≤ S (max_connections_layer0 c) →
  size (foldl (spec_op dimension) ∅ (HUpsert <$> es)) ≤ ef_construction c →
  let s := foldl run_op (hnsw_new dimension metric c count) (HUpsert <$> es) in
  complete (nodes (graph s)) ∧ all_live (nodes (graph s)).
Proof.
  cbv zeta. induction es as [|e es IH] using rev_ind; intros H1' H2'.
  - split; [intros i j Hi|intros i Hi]; unfold known in Hi; cbn in Hi; lia.
  - pose proof (upserts_size dimension es [e]) as Hsz. rewrite fmap_app, !foldl_app in *. cbn [foldl fmap list_fmap] in *.
    eapply upsert_complete; [apply runs_represent|apply IH; lia|done|done].
Qed.

(** The stored embeddings with their distances to the query. *)
Definition candidates_of metric (query : list f32) m : list (f32 * string) :=
  (λ p, (distance metric query (vector p.2), p.1)) <$> map_to_list m.

Lemma named_candidates dimension metric c s m query (r : list (f32 * nat)) :
  represents dimension metric c s m → NoDup r.*2 →
  (∀ x, x ∈ r → live (nodes (graph s)) x.2 ∧ x.1 = dist_to metric (nodes (graph s)) query x.2) →
  (∀ n, live (nodes (graph s)) n → n ∈ r.*2) →
  named (nodes (graph s)) <$> r ≡ₚ candidates_of metric query m.
Proof.
  intros Hr Hn Hx Hall. pose proof Hr as [Hwf _ He].
  assert (Hkn : Forall (known (nodes (graph s))) r.*2).
  { apply Forall_fmap, Forall_forall. intros x Hin. by apply live_known, Hx. }
  apply NoDup_Permutation.
  - eapply (NoDup_fmap_1 snd). by apply (named_nodup c).
  - unfold candidates_of. eapply (NoDup_fmap_1 snd). rewrite <- list_fmap_compose. apply NoDup_fst_map_to_list.
  - intros [d i]. unfold candidates_of. rewrite !list_elem_of_fmap. split.
    + intros (x & E & Hin). destruct (Hx x Hin) as [Hl Hd].
      destruct (live_entry _ _ _ _ _ query x Hr Hl Hd) as (e & Hme & Hde). exists (i, e).
      unfold named in E. injection E as -> ->. cbn [fst snd] in *. split; [by rewrite Hde|]. by apply elem_of_map_to_list.
    + intros ([i' e] & E & Hin%elem_of_map_to_list). cbn in E. injection E as -> ->.
      rewrite <- He in Hin. apply (entry_iff c _ _ _ Hwf) in Hin as (n & Hst & <-).
      assert (Hl : live (nodes (graph s)) n) by by apply stored_live; rewrite Hst.
      pose proof (Hall n Hl) as ([d n'] & -> & Hin)%list_elem_of_fmap. exists (d, n'). split; [|done].
      destruct (Hx _ Hin) as [_ Hd]. cbn in Hd. unfold named, id_at. cbn.
      cbn [snd] in Hst. unfold stored in Hst. destruct (nodes (graph s) !! n') as [nd|] eqn:Hnd; [|done]. cbn in Hst.
      case_match; [done|]. injection Hst as <-. rewrite Hd. unfold dist_to, vector_at. by rewrite Hnd.
Qed.

(** Small indexes are exact.  As long as nothing was deleted and the
    index holds at most one embedding more than the lowest layer allows links
    ([max_connections_layer0], 32 by default), and no more than the widths of
    the beams, a search returns the [k] nearest of all stored embeddings. *)
Theorem small_index_exact dimension metric c count es query k :
  let s := foldl run_op (hnsw_new dimension metric c count) (HUpsert <$> es) in
  let m := foldl (spec_op dimension) ∅ (HUpsert <$> es) in
  size m ≤ S (max_connections_layer0 c) → size m ≤ ef_construction c → size m ≤ Nat.max (ef_search c) k →
  length query = dimension → all_numbers metric query m →
  ∃ r, hnsw_search query k s = Ok (scored_result metric <$> r) ∧ best (ascending fst) k (candidates_of metric query m) r.
Proof.
  cbv zeta. intros H1' H2' H3' Hdim Hnum. pose proof (runs_represent dimension metric c count (HUpsert <$> es)) as Hr.
  destruct (upserts_complete dimension metric c count es H1' H2') as [Hc Hl].
  set (s := foldl run_op _ _) in *. set (m := foldl _ ∅ _) in *.
  pose proof (all_live_size _ _ _ _ _ Hr Hl) as Hsz. pose proof Hr as [Hwf (Hcf & Hsd & Hsm) _]. 
  eexists (named (nodes (graph s)) <$> graph_search metric (graph s) query k (ef_search c)). split.
  { unfold hnsw_search. rewrite Hsd, Hdim, Nat.eqb_refl, Hsm, Hcf. f_equal. rewrite <- list_fmap_compose.
    apply list_fmap_ext. intros _ x _. by rewrite result_of_named, Hsm. }
  destruct (graph_search_layer metric c (graph s) query k (ef_search c) Hwf) as [[-> E]|(eps & Hst & ->)].
  { assert (m = ∅) as -> by (apply map_size_empty_inv; by rewrite <- Hsz, E).
    unfold candidates_of. rewrite map_to_list_empty. split_and!; [cbn; lia|apply SSorted_nil|exists []; split; [done|by intros ? ? ?%elem_of_nil]]. }
  pose proof Hst as (Hn & Hk & _).
  destruct (search_layer_sound metric (nodes (graph s)) query eps (Nat.max (ef_search c) k) 0 Hn Hk) as [Hnd Hx].
  rewrite fmap_take. apply best_take.
  - eapply named_candidates; [done|done|intros x Hin; by destruct (Hx x Hin) as (? & ? & _)|].
    intros n Hlv. apply search_complete; [done|done|done|lia|by apply live_known].
  - apply sorted_named, search_layer_sorted; [|done..]. intros n. by eapply live_number.
Qed.

(** ** Deleting everything *)

(** The first [K] nodes are deleted and link to each other only. *)
Record dead (ns : list Node) (K : nat) : Prop := {
  dd_known : K ≤ length ns;
  dd_deleted : ∀ n, n < K → ¬ live ns n;
  dd_links : ∀ l n, n < K → Forall (λ j, j < K) (links ns l n);
}.

Lemma dead_search metric ns query eps ef l K :
  dead ns K → NoDup eps → Forall (λ j, j < K) eps → search_layer metric ns query eps ef l = [].
Proof.
  intros [HK Hd Hl] Hn He. assert (Hk : Forall (known ns) eps).
  { eapply Forall_impl; [exact He|]. intros j Hj. cbn in Hj. unfold known. lia. }
  destruct (search_layer_sound metric ns query eps ef l Hn Hk) as [_ Hx].
  destruct (search_layer _ _ _ _ _ _) as [|x r]; [done|].
  destruct (Hx x) as (Hlive & _ & e & Hin & Hr); [by left|]. rewrite Forall_forall in He. apply He in Hin.
  exfalso. eapply Hd; [|exact Hlive]. clear Hlive Hx. induction Hr as [|a b z [Hab _] _ IH]; [done|].
  apply IH. eapply (proj1 (Forall_forall _ _) (Hl l a Hin)). exact Hab.
Qed.

Lemma dead_descend metric ns query K ep ls :
  dead ns K → ep < K → foldl (descend metric ns query) [ep] ls = [ep].
Proof.
  intros Hd He. induction ls as [|l ls IH]; [done|]. cbn [foldl]. unfold descend at 2.
  rewrite (dead_search _ _ _ _ _ _ K) by (try done; first [apply NoDup_singleton | by repeat constructor]). done.
Qed.

Lemma dead_link_layers metric c ns query n K ep ls :
  dead ns K → ep < K → (foldl (link_layer metric c query n ep) (ns, [ep]) ls) = (ns, [ep]).
Proof.
  intros Hd He. induction ls as [|l ls IH]; [done|]. cbn [foldl]. unfold link_layer at 2.
  rewrite (dead_search _ _ _ _ _ _ K) by (try done; first [apply NoDup_singleton | by repeat constructor]).
  unfold select_neighbors. rewrite take_nil. done.
Qed.

Lemma dead_snoc ns K nd : dead ns K → dead (ns ++ [nd]) K.
Proof.
  intros [HK Hd Hl]. split.
  - rewrite length_app. cbn. lia.
  - intros n Hn (x & Hx & Hdx). apply (Hd n Hn). exists x. rewrite lookup_app_l in Hx by lia. done.
  - intros l n Hn. rewrite links_snoc, decide_False by lia. by apply Hl.
Qed.

Lemma dead_insert metric c level id v md g K ep :
  dead (nodes g) K → entry_point g = Some ep → ep < K → level ≤ current_max_level g →
  insert_at metric c level id v md g =
  mkGraph (nodes g ++ [new_node level id v md]) (<[id := length (nodes g)]> (id_map g)) (Some ep) (current_max_level g).
Proof.
  intros Hd Hep HK Hlev. unfold insert_at. rewrite Hep. change (mkHNode id v md _ level false) with (new_node level id v md).
  pose proof (dead_snoc _ _ (new_node level id v md) Hd) as Hd'.
  assert ((if level <? current_max_level g then
    foldl (descend metric (nodes g ++ [new_node level id v md]) v) [ep] (down (S level) (current_max_level g)) else [ep]) = [ep]) as ->
    by (case_match; [by apply (dead_descend _ _ _ K)|done]).
  rewrite (dead_link_layers _ _ _ _ _ K) by done. by rewrite (proj2 (Nat.ltb_ge _ _)).
Qed.

(** An index whose first [K] nodes, the entry point among them, are dead. *)
Record dead_store s K : Prop := {
  ds_dead : dead (nodes (graph s)) K;
  ds_entry : ∃ ep, entry_point (graph s) = Some ep ∧ ep < K;
}.

Lemma dead_upsert s K e :
  dead_store s K → id_map (graph s) !! emb_id e = None →
  (∀ count, assign_level (emb_id e) (max_connections (hnsw_config s)) count ≤ current_max_level (graph s)) →
  let s' := (hnsw_upsert e s).1 in
  dead_store s' K ∧ current_max_level (graph s') = current_max_level (graph s) ∧
  ∀ i, i ≠ emb_id e → id_map (graph s') !! i = id_map (graph s) !! i.
Proof.
  intros [Hd (ep & Hep & HK)] Hid Hlev. cbv zeta. unfold hnsw_upsert. case_match; [by split_and!; [split; eauto|..]|].
  unfold insert. rewrite Hid. cbn [fst graph].
  rewrite (dead_insert _ _ _ _ _ _ _ K ep) by (done || apply Hlev). cbn [graph nodes id_map entry_point current_max_level].
  split_and!; [split; cbn; [by apply dead_snoc|by eauto]|done|]. intros i Hi. by rewrite lookup_insert_ne.
Qed.

Lemma dead_upserts s K es :
  dead_store s K → NoDup (emb_id <$> es) → Forall (λ e, id_map (graph s) !! emb_id e = None) es →
  Forall (λ e, ∀ count, assign_level (emb_id e) (max_connections (hnsw_config s)) count ≤ current_max_level (graph s)) es →
  dead_store (foldl run_op s (HUpsert <$> es)) K.
Proof.
  revert s. induction es as [|e es IH]; intros s Hd Hn Hid Hlev; [done|]. cbn [fmap list_fmap foldl run_op].
  apply NoDup_cons in Hn as [Hne Hn]. apply Forall_cons in Hid as [Hide Hid], Hlev as [Hleve Hlev].
  destruct (dead_upsert s K e Hd Hide Hleve) as (Hd' & Htop & Hids). apply IH; [done|done| |].
  - rewrite Forall_forall in *. intros x Hx. rewrite Hids; [by apply Hid|]. intros E. apply Hne. rewrite <- E.
    by apply list_elem_of_fmap_2.
  - rewrite Htop. assert (hnsw_config (hnsw_upsert e s).1 = hnsw_config s) as -> by apply upsert_step. done.
Qed.

(** A store that holds nothing any more. *)
Lemma cleared_dead dimension metric c s :
  represents dimension metric c s ∅ → entry_point (graph s) ≠ None → dead_store s (length (nodes (graph s))).
Proof.
  intros [Hwf _ He] Hne. pose proof (wf_entry c _ Hwf) as Hent. destruct (entry_point (graph s)) as [ep|] eqn:Eep; [|done].
  split.
  - split; [done| |].
    + intros n _ [e Hst]%stored_live. assert (entry (graph s) (emb_id e) = Some e) as Hx by (apply (entry_iff c _ _ _ Hwf); eauto).
      by rewrite He in Hx.
    + intros l n _. apply (wf_links c _ Hwf).
  - exists ep. split; [done|]. destruct Hent as (nd & ?%lookup_lt_Some & _). done.
Qed.

Lemma dead_store_search metric s K query k ef : dead_store s K → graph_search metric (graph s) query k ef = [].
Proof.
  intros [Hd (ep & Hep & HK)]. unfold graph_search. rewrite Hep, (dead_descend _ _ _ K) by done.
  rewrite (dead_search _ _ _ _ _ _ K) by (try done; first [apply NoDup_singleton | by repeat constructor]). by rewrite take_nil.
Qed.

Lemma upserts_lookup dimension es m e :
  NoDup (emb_id <$> es) → Forall (λ e, dim e = dimension) es → e ∈ es →
  foldl (spec_op dimension) m (HUpsert <$> es) !! emb_id e = Some e.
Proof.
  intros Hn Hd He. revert m. induction es as [|x es IH]; intros m; [by apply elem_of_nil in He|].
  apply NoDup_cons in Hn as [Hx Hn]. apply Forall_cons in Hd as [Hdx Hd]. cbn [fmap list_fmap foldl spec_op].
  rewrite Hdx, Nat.eqb_refl. apply elem_of_cons in He as [->|He]; [|by apply IH].
  assert (Hkeep : ∀ m, foldl (spec_op dimension) m (HUpsert <$> es) !! emb_id x = m !! emb_id x).
  { clear IH Hn Hd Hdx m. induction es as [|y es IH]; intros m; [done|]. cbn [fmap list_fmap foldl spec_op] in *.
    apply not_elem_of_cons in Hx as [Hxy Hx]. rewrite IH by done. case_match; [|done]. by rewrite lookup_insert_ne. }
  by rewrite Hkeep, lookup_insert_eq.
Qed.

(** After deleting everything.  Once every embedding has been deleted,
    new embeddings of levels up to the highest one are stored and can be read, but they
    are linked to nothing: no search ever finds any of them. *)
Theorem deleted_index_finds_nothing dimension metric c count ops es query k :
  let s := foldl run_op (hnsw_new dimension metric c count) ops in
  foldl (spec_op dimension) ∅ ops = ∅ → entry_point (graph s) ≠ None →
  NoDup (emb_id <$> es) →
  Forall (λ e, dim e = dimension ∧ id_map (graph s) !! emb_id e = None ∧
    ∀ count, assign_level (emb_id e) (max_connections c) count ≤ current_max_level (graph s)) es →
  length query = dimension →
  let s' := foldl run_op s (HUpsert <$> es) in
  hnsw_search query k s' = Ok [] ∧ ∀ e, e ∈ es → hnsw_get (emb_id e) s' = Ok (Some e).
Proof.
  cbv zeta. intros Hm Hne Hn Hes Hq. pose proof (runs_represent dimension metric c count ops) as Hr.
  pose proof (runs_represent dimension metric c count (ops ++ (HUpsert <$> es))) as Hr'.
  rewrite !foldl_app, Hm in Hr'. rewrite Hm in Hr.
  pose proof (cleared_dead _ _ _ _ Hr Hne) as Hds. pose proof Hr as [_ (Hc & _ & _) _].
  assert (Hds' : dead_store (foldl run_op (foldl run_op (hnsw_new dimension metric c count) ops) (HUpsert <$> es))
    (length (nodes (graph (foldl run_op (hnsw_new dimension metric c count) ops))))).
  { apply dead_upserts; [done|done|..]; (eapply Forall_impl; [exact Hes|]); rewrite ?Hc; by intros e (_ & ? & ?). }
  split.
  - destruct Hr' as [_ (_ & Hd & _) _]. unfold hnsw_search.
    by rewrite Hd, Hq, Nat.eqb_refl, (dead_store_search _ _ _ _ _ _ Hds').
  - intros e He. rewrite hnsw_get_entry, (rp_entries _ _ _ _ _ Hr'). f_equal. apply upserts_lookup; [done| |done].
    eapply Forall_impl; [exact Hes|]. by intros x (? & _).
Qed.

End hnsw.

(** ** Witnesses *)

Module Witness.

#[export] Instance heap_order : HeapIter := λ l, l.
#[export] Instance heap_order_laws : HeapIterLaws heap_order.
Proof. intros l. reflexivity. Defined.
#[export] Instance flat : LevelHash := λ _ _, (2 ^ 64 - 1)%Z.
#[export] Instance ln_identity : NatLog := λ x, x.

(** One-dimensional vectors. *)
Definition at_ (id : string) (x : Z) : Embedding := Embedding_new id [f32_of_u64 x].

Definition three : list Embedding := [at_ "a" 1; at_ "b" 5; at_ "c" 9].

Lemma small_index_exact_witness :
  ∃ r, hnsw_search [f32_of_u64 4] 2 (foldl run_op (hnsw_new 1 Euclidean hnsw_default 0) (HUpsert <$> three)) =
    Ok (scored_result Euclidean <$> r) ∧ length r = 2.
Proof.
  destruct (small_index_exact 1 Euclidean hnsw_default 0 three [f32_of_u64 4] 2) as (r & Hr & Hb & _).
  - vm_compute. lia.
  - vm_compute. lia.
  - vm_compute. lia.
  - reflexivity.
  - intros i e Hi. assert ((i, e) ∈ map_to_list (foldl (spec_op 1) ∅ (HUpsert <$> three))) as Hin
      by (by apply elem_of_map_to_list). revert Hin. vm_compute map_to_list.
    intros Hin. repeat (apply elem_of_cons in Hin as [[= -> ->]|Hin]; [vm_compute; reflexivity|]). by apply elem_of_nil in Hin.
  - exists r. split; [exact Hr|]. rewrite Hb. vm_compute. reflexivity.
Defined.

Definition three_nodes : list Node :=
  nodes (graph (foldl run_op (hnsw_new 1 Euclidean hnsw_default 0) (HUpsert <$> three))).

(** A beam of width one, started at the farthest node. *)
Lemma search_layer_best_witness :
  ∃ seen : gset nat, 2 ∈ seen ∧ ∀ n, n ∈ seen → live three_nodes n →
    n ∈ (search_layer Euclidean three_nodes [f32_of_u64 4] [2] 1 0).*2 ∨
    beaten 1 (search_layer Euclidean three_nodes [f32_of_u64 4] [2] 1 0) (dist_to Euclidean three_nodes [f32_of_u64 4] n).
Proof.
  destruct (search_layer_best Euclidean three_nodes [f32_of_u64 4] [2] 1 0) as (_ & _ & seen & He & _ & Hb & _).
  - intros n Hn. do 3 (destruct n as [|n]; [vm_compute; reflexivity|]).
    exfalso. revert Hn. unfold known. assert (length three_nodes = 3) as -> by (vm_compute; reflexivity). lia.
  - lia.
  - apply NoDup_singleton.
  - constructor; [|constructor]. unfold known. assert (length three_nodes = 3) as -> by (vm_compute; reflexivity). lia.
  - reflexivity.
  - exists seen. split; [apply He; by left|exact Hb].
Defined.

Definition emptied : list hnsw_op := [HUpsert (at_ "a" 1); HDelete "a"].

Lemma deleted_index_finds_nothing_witness :
  hnsw_search [f32_of_u64 2] 10 (foldl run_op (foldl run_op (hnsw_new 1 Euclidean hnsw_default 0) emptied) (HUpsert <$> [at_ "b" 2])) = Ok [].
Proof.
  apply (deleted_index_finds_nothing 1 Euclidean hnsw_default 0 emptied [at_ "b" 2] [f32_of_u64 2] 10).
  - vm_compute. reflexivity.
  - vm_compute. discriminate.
  - vm_compute. repeat constructor. by intros ?%elem_of_nil.
  - constructor; [|constructor]. split_and!; [reflexivity|vm_compute; reflexivity|]. intros count. vm_compute. lia.
  - reflexivity.
Defined.

Lemma hnsw_refines_map_witness :
  hnsw_len (foldl run_op (hnsw_new 1 Euclidean hnsw_default 0) (emptied ++ (HUpsert <$> three))) = 3.
Proof.
  destruct (hnsw_refines_map 1 Euclidean hnsw_default 0 (emptied ++ (HUpsert <$> three))) as (_ & -> & _).
  vm_compute. reflexivity.
Defined.

Lemma hnsw_search_sound_witness :
  ∃ r, hnsw_search [f32_of_u64 4] 2 (foldl run_op (hnsw_new 1 Euclidean hnsw_default 0) (HUpsert <$> three)) =
    Ok (scored_result Euclidean <$> r) ∧ NoDup r.*2.
Proof.
  destruct (hnsw_search_sound 1 Euclidean hnsw_default 0 (HUpsert <$> three) [f32_of_u64 4] 2) as (r & Hr & _ & Hn & _).
  exists r. by split.
Defined.

(** With the default configuration: 33 neighbouring vectors, then one far away. *)
Definition cluster : list Embedding := (λ i, at_ (fmt_u64 (Z.of_nat i)) (Z.of_nat i)) <$> seq 0 33.
Definition with_outlier : HnswVectorStore :=
  foldl run_op (hnsw_new 1 Euclidean hnsw_default 0) (HUpsert <$> (cluster ++ [at_ "far" 1000])).

(** Pruning loses the newest vector.  Every node keeps its 32 nearest links, so all
    33 drop the one to the new node: the vector is stored, but a search for it
    that asks for everything finds the other 33. *)
Theorem pruned_vector_lost :
  hnsw_get "far" with_outlier = Ok (Some (at_ "far" 1000)) ∧ hnsw_len with_outlier = 34 ∧
  ∃ l, hnsw_search [f32_of_u64 1000] 34 with_outlier = Ok l ∧ length l = 33 ∧ "far" ∉ l.*1.
Proof.
  split; [vm_compute; reflexivity|]. split; [vm_compute; reflexivity|].
  eexists. split; [vm_compute; reflexivity|]. split; [reflexivity|].
  apply (bool_decide_unpack _). vm_compute. exact I.
Qed.

End Witness.
