(* ===== verification/Drift.v ===== *)
(** Drift detection (verisim-drift/src/): the scores computed between
    modalities ([calculator.rs]) and the detector that records them, compares
    them with fixed or adaptive thresholds and reports events ([lib.rs]).
    Scores are binary64, as in the code.  Prometheus' gauges and counters are
    plain values; the event channel accepts events while it is open. *)

From S2P Require Import Prelude Machine Text Collections Float64 Format WalEntry.

(** ** Numbers *)

Abbreviation lit := f64_lit.
Definition f64_abs (x : f64) : f64 := SFabs x.
Definition f64_of_nat (n : nat) : f64 := f64_of_u64 (Z.of_nat n).

(** [x as f64] of an [f32]: the same number. *)
Definition f64_of_f32 (x : f32) : f64 :=
  match x with
  | S754_finite s m e => binary_normalize 53 1024 (if s then Zneg m else Zpos m) e s
  | _ => x
  end.

(** [f64::clamp]: a NaN stays one. *)
Definition clamp (lo hi x : f64) : f64 := if f64_ltb x lo then lo else if f64_ltb hi x then hi else x.
Definition clamp01 (x : f64) : f64 := clamp f64_zero f64_one x.

(** [x.powi(2)]. *)
Definition powi2 (x : f64) : f64 := f64_mul x x.

Definition wrap_i64 (z : Z) : Z := (z + 2 ^ 63) mod 2 ^ 64 - 2 ^ 63.

(** ** Types of drift *)

Inductive DriftType :=
| SemanticVectorDrift | GraphDocumentDrift | TemporalConsistencyDrift | TensorDrift
| SchemaDrift | ProvenanceDrift | SpatialDrift | QualityDrift.

#[export] Instance drift_type_eq_dec : EqDecision DriftType.
Proof. solve_decision. Defined.
Definition all_types : list DriftType :=
  [SemanticVectorDrift; GraphDocumentDrift; TemporalConsistencyDrift; TensorDrift;
   SchemaDrift; ProvenanceDrift; SpatialDrift; QualityDrift].
Definition type_index (t : DriftType) : nat :=
  match t with
  | SemanticVectorDrift => 0 | GraphDocumentDrift => 1 | TemporalConsistencyDrift => 2 | TensorDrift => 3
  | SchemaDrift => 4 | ProvenanceDrift => 5 | SpatialDrift => 6 | QualityDrift => 7
  end.
#[export] Instance drift_type_countable : Countable DriftType.
Proof. refine (inj_countable type_index (λ n, all_types !! n) _). by intros []. Defined.

Definition type_display (t : DriftType) : string :=
  match t with
  | SemanticVectorDrift => "semantic_vector_drift"
  | GraphDocumentDrift => "graph_document_drift"
  | TemporalConsistencyDrift => "temporal_consistency_drift"
  | TensorDrift => "tensor_drift"
  | SchemaDrift => "schema_drift"
  | ProvenanceDrift => "provenance_drift"
  | SpatialDrift => "spatial_drift"
  | QualityDrift => "quality_drift"
  end.

Inductive DriftSeverity := Info | Warning | Critical | Emergency.

(** ** The calculator *)

Module Calculator.

Definition cosine_similarity_f32 (a b : list f32) : f64 :=
  if negb (length a =? length b)%nat || (length a =? 0)%nat then f64_zero
  else
    let dot := f64_sum (zip_with (λ x y, f64_mul (f64_of_f32 x) (f64_of_f32 y)) a b) in
    let norm_a := f64_sqrt (f64_sum ((λ x, powi2 (f64_of_f32 x)) <$> a)) in
    let norm_b := f64_sqrt (f64_sum ((λ x, powi2 (f64_of_f32 x)) <$> b)) in
    if f64_ltb f64_zero norm_a && f64_ltb f64_zero norm_b then f64_div dot (f64_mul norm_a norm_b) else f64_zero.

Definition semantic_vector_drift (embedding : list f32) (semantic_types : list string)
    (type_embeddings : list (string * list f32)) : f64 :=
  if (length semantic_types =? 0)%nat || (length type_embeddings =? 0)%nat then f64_zero
  else
    let relevant := (retain (λ p, bool_decide (p.1 ∈ semantic_types)) type_embeddings).*2 in
    if (length relevant =? 0)%nat then f64_zero
    else
      let total := foldl (λ acc e, f64_add acc (cosine_similarity_f32 embedding e)) f64_zero relevant in
      clamp01 (f64_sub f64_one (f64_div total (f64_of_nat (length relevant)))).

Definition graph_document_drift (document_entities : list string) (graph_relationships : list (string * string)) : f64 :=
  if (length document_entities =? 0)%nat then f64_zero
  else
    let targets := graph_relationships.*2 in
    let matched := length (retain (λ e, existsb (λ t, contains e t || contains t e) targets) document_entities) in
    let coverage := f64_div (f64_of_nat matched) (f64_of_nat (length document_entities)) in
    let extra :=
      if (length graph_relationships =? 0)%nat then f64_zero
      else f64_div
             (f64_of_nat (length (retain (λ t, negb (existsb (λ e, contains e t) document_entities)) targets)))
             (f64_of_nat (length graph_relationships)) in
    clamp01 (f64_div (f64_add (f64_sub f64_one coverage) extra) (lit 2 1)).

(** [windows(2)]. *)
Definition windows2 {A} (l : list A) : list (A * A) := zip l (tail l).

Definition count_hash (m : gmap Z Z) (h : Z) : gmap Z Z := <[h := default 0 (m !! h) + 1]> m.

(** Half a point for a gap ten times the median, once there are three. *)
Definition gap_penalty (ts : list Z) : f64 :=
  let deltas := sort_by_key (λ d, d) ((λ w, wrap_i64 (w.2 - w.1)) <$> windows2 ts) in
  if (3 <=? length deltas)%nat then
    let median := default 0 (deltas !! (length deltas / 2)%nat) in
    let max := default 0 (last deltas) in
    if (0 <? median) && (wrap_i64 (median * 10) <? max) then lit 1 2 else f64_zero
  else f64_zero.

Definition temporal_consistency_drift (version_timestamps version_hashes : list Z) : f64 :=
  if (length version_timestamps <? 2)%nat then f64_zero
  else
    let total_checks := f64_of_nat (length version_timestamps - 1) in
    let issues := foldl (λ i w, if w.2 <? w.1 then f64_add i f64_one else i) f64_zero (windows2 version_timestamps) in
    let counts := foldl count_hash ∅ version_hashes in
    let duplicates := length (retain (λ c, 1 <? c) (map_to_list counts).*2) in
    let issues := f64_add issues (f64_mul (f64_of_nat duplicates) (lit 1 2)) in
    let issues := f64_add issues (gap_penalty version_timestamps) in
    clamp01 (f64_div issues (f64_add total_checks f64_one)).

Record TensorStats := mkTensorStats {
  mean : f64; std_dev : f64; smin : f64; smax : f64; has_nan : bool; has_inf : bool }.

Definition f64_is_infinite (x : f64) : bool := match x with S754_infinity _ => true | _ => false end.

Definition compute (data : list f64) : TensorStats :=
  let nan := existsb f64_is_nan data in
  let inf := existsb f64_is_infinite data in
  let valid := retain f64_is_finite data in
  if (length data =? 0)%nat then mkTensorStats f64_zero f64_zero f64_zero f64_zero false false
  else if (length valid =? 0)%nat then mkTensorStats f64_zero f64_zero f64_zero f64_zero nan inf
  else
    let n := f64_of_nat (length valid) in
    let mean := f64_div (f64_sum valid) n in
    let variance := f64_div (f64_sum ((λ x, powi2 (f64_sub x mean)) <$> valid)) n in
    mkTensorStats mean (f64_sqrt variance) (foldl f64_min f64_infinity valid)
      (foldl f64_max (f64_neg f64_infinity) valid) nan inf.

Definition tiny : f64 := lit 1 (10 ^ 10).

(** The difference of the dimensions both shapes have, relative to the expected ones. *)
Definition shape_diff (expected actual : list Z) : f64 :=
  f64_div
    (f64_sum (zip_with (λ e a, f64_div (f64_abs (f64_sub (f64_of_u64 e) (f64_of_u64 a))) (f64_of_u64 e)) expected actual))
    (f64_of_nat (Nat.max (length expected) (length actual))).

Definition stats_drift (expected actual : TensorStats) (score : f64) : f64 :=
  let score :=
    if f64_ltb tiny (f64_abs (mean expected))
    then f64_add score (f64_mul (f64_min (f64_div (f64_abs (f64_sub (mean actual) (mean expected)))
                                            (f64_abs (mean expected))) f64_one) (lit 2 10)) else score in
  let score :=
    if f64_ltb tiny (std_dev expected)
    then f64_add score (f64_mul (f64_min (f64_div (f64_abs (f64_sub (std_dev actual) (std_dev expected)))
                                            (std_dev expected)) f64_one) (lit 2 10)) else score in
  if has_nan actual || has_inf actual then f64_add score (lit 3 10) else score.

Definition tensor_drift (tensor_data : list f64) (expected_shape actual_shape : list Z)
    (expected_stats : option TensorStats) : f64 :=
  let score := f64_zero in
  let score := if bool_decide (expected_shape = actual_shape) then score
               else f64_add score (f64_mul (shape_diff expected_shape actual_shape) (lit 1 2)) in
  let score := match expected_stats with
               | Some e => stats_drift e (compute tensor_data) score
               | None => score end in
  clamp01 score.

Definition provenance_drift (chain_valid : bool) (chain_length : nat) (seconds_since_last_event : option Z)
    (expected_max_gap_seconds : Z) : f64 :=
  if negb chain_valid then f64_one
  else
    let score := if (chain_length =? 0)%nat then f64_add f64_zero (lit 1 2) else f64_zero in
    let score :=
      match seconds_since_last_event with
      | Some gap =>
          if (0 <? expected_max_gap_seconds) && (expected_max_gap_seconds <? gap)
          then f64_add score
                 (f64_mul (f64_min (f64_sub (f64_div (f64_of_u64 gap) (f64_of_u64 expected_max_gap_seconds)) f64_one)
                             f64_one) (lit 3 10))
          else score
      | None => score
      end in
    clamp01 score.

Definition spatial_drift (has_coordinates has_location_mentions coordinate_matches_mentions coordinates_valid : bool) : f64 :=
  if has_coordinates && negb coordinates_valid then lit 9 10
  else
    let score := f64_zero in
    let score := if has_location_mentions && negb has_coordinates then f64_add score (lit 4 10) else score in
    let score := if has_coordinates && has_location_mentions && negb coordinate_matches_mentions
                 then f64_add score (lit 5 10) else score in
    let score := if has_coordinates && negb has_location_mentions then f64_add score (lit 1 10) else score in
    clamp01 score.

Definition schema_drift (required_modalities present_modalities : list string)
    (schema_violations total_constraints : nat) : f64 :=
  let missing := length (retain (λ m, negb (bool_decide (m ∈ present_modalities))) required_modalities) in
  let score := if (length required_modalities =? 0)%nat then f64_zero
               else f64_add f64_zero (f64_mul (f64_div (f64_of_nat missing) (f64_of_nat (length required_modalities))) (lit 1 2)) in
  let score := if (0 <? total_constraints)%nat
               then f64_add score (f64_mul (f64_div (f64_of_nat schema_violations) (f64_of_nat total_constraints)) (lit 1 2))
               else score in
  clamp01 score.

Definition weighted (l : list (f64 * f64)) : f64 := clamp01 (f64_sum ((λ p, f64_mul p.1 p.2) <$> l)).

Definition quality_drift (semantic_vector graph_document temporal_consistency tensor schema : f64) : f64 :=
  weighted [(semantic_vector, lit 25 100); (graph_document, lit 25 100); (temporal_consistency, lit 20 100);
            (tensor, lit 15 100); (schema, lit 15 100)].

Definition quality_drift_octad
    (semantic_vector graph_document temporal_consistency tensor schema provenance spatial : f64) : f64 :=
  weighted [(semantic_vector, lit 20 100); (graph_document, lit 20 100); (temporal_consistency, lit 15 100);
            (tensor, lit 10 100); (schema, lit 10 100); (provenance, lit 15 100); (spatial, lit 10 100)].

(** [max_by]: the last of the greatest; pairs that do not compare count as equal. *)
Definition max_score (l : list (DriftType * f64)) : DriftType :=
  match l with
  | [] => QualityDrift
  | x :: l => (foldl (λ acc y, if f64_ltb y.2 acc.2 then acc else y) x l).1
  end.

Definition primary_drift_type (semantic_vector graph_document temporal_consistency tensor schema : f64) : DriftType :=
  max_score [(SemanticVectorDrift, semantic_vector); (GraphDocumentDrift, graph_document);
             (TemporalConsistencyDrift, temporal_consistency); (TensorDrift, tensor); (SchemaDrift, schema)].

Definition primary_drift_type_octad
    (semantic_vector graph_document temporal_consistency tensor schema provenance spatial : f64) : DriftType :=
  max_score [(SemanticVectorDrift, semantic_vector); (GraphDocumentDrift, graph_document);
             (TemporalConsistencyDrift, temporal_consistency); (TensorDrift, tensor); (SchemaDrift, schema);
             (ProvenanceDrift, provenance); (SpatialDrift, spatial)].

End Calculator.

(** ** The detector *)

Inductive DriftError :=
| MetricNotFound (msg : string) | InvalidThreshold (msg : string) | ChannelError (msg : string) | LockPoisoned.

Inductive ThresholdPolicy := Fixed (v : f64) | Adaptive (base sensitivity : f64).

Definition policy_threshold (p : ThresholdPolicy) (moving_average : f64) : f64 :=
  match p with
  | Fixed v => v
  | Adaptive base sensitivity => f64_add base (f64_mul moving_average sensitivity)
  end.

Record DriftThresholds := mkThresholds {
  semantic_vector : f64; graph_document : f64; temporal_consistency : f64; tensor : f64;
  schema : f64; provenance : f64; spatial : f64; quality : f64;
  adaptive_policies : gmap DriftType ThresholdPolicy;
}.

Definition thresholds_default : DriftThresholds :=
  mkThresholds (lit 3 10) (lit 4 10) (lit 2 10) (lit 35 100) (lit 1 10) (lit 1 10) (lit 3 10) (lit 25 100) ∅.

Definition fixed_threshold (th : DriftThresholds) (t : DriftType) : f64 :=
  match t with
  | SemanticVectorDrift => semantic_vector th
  | GraphDocumentDrift => graph_document th
  | TemporalConsistencyDrift => temporal_consistency th
  | TensorDrift => tensor th
  | SchemaDrift => schema th
  | ProvenanceDrift => provenance th
  | SpatialDrift => spatial th
  | QualityDrift => quality th
  end.

Definition effective_threshold (th : DriftThresholds) (t : DriftType) (moving_average : f64) : f64 :=
  match adaptive_policies th !! t with
  | Some p => policy_threshold p moving_average
  | None => fixed_threshold th t
  end.

Inductive HealthStatus := Healthy | HWarning | Degraded | HCritical.

Class DriftIter := drift_iter (A : Type) : gmap DriftType A → list (DriftType * A).
#[global] Arguments drift_iter {_ A} m.
Class DriftIterLaws (I : DriftIter) := drift_iter_perm (A : Type) (m : gmap DriftType A) : drift_iter m ≡ₚ map_to_list m.

Section detector.
Context `{Chrono}.

Record DriftEvent := mkEvent {
  drift_type : DriftType;
  severity : DriftSeverity;
  affected_entities : list string;
  score : f64;
  detected_at : DateTime;
  description : string;
  remediation : option string;
}.

Definition severity_of (score : f64) : DriftSeverity :=
  if f64_ltb (lit 9 10) score then Emergency
  else if f64_ltb (lit 7 10) score then Critical
  else if f64_ltb (lit 5 10) score then Warning else Info.

Definition event_new (now : DateTime) (t : DriftType) (score : f64) (desc : string) : DriftEvent :=
  mkEvent t (severity_of score) [] score now desc None.
Definition with_entities (entities : list string) (e : DriftEvent) : DriftEvent :=
  mkEvent (drift_type e) (severity e) entities (score e) (detected_at e) (description e) (remediation e).
Definition with_remediation (r : string) (e : DriftEvent) : DriftEvent :=
  mkEvent (drift_type e) (severity e) (affected_entities e) (score e) (detected_at e) (description e) (Some r).

Record DriftMetrics := mkMetrics {
  current_score : f64;
  moving_average : f64;
  max_score : f64;
  measurement_count : Z;
  last_measured : DateTime;
  history : list (DateTime * f64);
}.

Definition metrics_default (now : DateTime) : DriftMetrics := mkMetrics f64_zero f64_zero f64_zero 0 now [].

Definition ALPHA : f64 := lit 1 10.
Definition HISTORY : nat := 100.

(** [history.push(_)], then [remove(0)] beyond 100. *)
Definition push_history (x : DateTime * f64) (h : list (DateTime * f64)) : list (DateTime * f64) :=
  let h := (h ++ [x])%list in if (HISTORY <? length h)%nat then tail h else h.

(** [now] and [now'] are the two readings of the clock. *)
Definition metrics_record (now now' : DateTime) (x : f64) (m : DriftMetrics) : DriftMetrics :=
  mkMetrics x
    (f64_add (f64_mul ALPHA x) (f64_mul (f64_sub f64_one ALPHA) (moving_average m)))
    (if f64_ltb (max_score m) x then x else max_score m)
    (wrap 64 (measurement_count m + 1)) now (push_history (now', x) (history m)).

Definition exceeds_threshold (threshold : f64) (m : DriftMetrics) : bool := f64_ltb threshold (current_score m).

Definition average (l : list (DateTime * f64)) : f64 := f64_div (f64_sum l.*2) (f64_of_nat (length l)).

Definition trend (m : DriftMetrics) : f64 :=
  if (length (history m) <? 2)%nat then f64_zero
  else
    let recent := take 10 (reverse (history m)) in
    let older := take 10 (drop 10 (reverse (history m))) in
    if (length older =? 0)%nat then f64_zero else f64_sub (average recent) (average older).

(** [channel]: the events sent so far and whether the receiver still listens;
    [gauges] and [counters] once Prometheus is registered. *)
Record DriftDetector := mkDetector {
  thresholds : DriftThresholds;
  metrics : gmap DriftType DriftMetrics;
  channel : option (list DriftEvent * bool);
  gauges : option (gmap DriftType f64);
  counters : option (gmap DriftType f64);
}.

Definition set_metrics (m : gmap DriftType DriftMetrics) (d : DriftDetector) : DriftDetector :=
  mkDetector (thresholds d) m (channel d) (gauges d) (counters d).
Definition set_channel (c : option (list DriftEvent * bool)) (d : DriftDetector) : DriftDetector :=
  mkDetector (thresholds d) (metrics d) c (gauges d) (counters d).
Definition set_gauges (g : option (gmap DriftType f64)) (d : DriftDetector) : DriftDetector :=
  mkDetector (thresholds d) (metrics d) (channel d) g (counters d).
Definition set_counters (c : option (gmap DriftType f64)) (d : DriftDetector) : DriftDetector :=
  mkDetector (thresholds d) (metrics d) (channel d) (gauges d) c.

Definition detector_new (now : DateTime) (th : DriftThresholds) : DriftDetector :=
  mkDetector th (foldl (λ m t, <[t := metrics_default now]> m) ∅ all_types) None None None.
Definition with_defaults (now : DateTime) : DriftDetector := detector_new now thresholds_default.
Definition with_event_channel (d : DriftDetector) : DriftDetector := set_channel (Some ([], true)) d.

(** Both kinds of metrics start at zero; [registered] is what the registry answers. *)
Definition with_prometheus (registered : result string unit) (d : DriftDetector) : result DriftError DriftDetector :=
  match registered with
  | Err e => Err (InvalidThreshold e)
  | Ok _ => let zeros := foldl (λ m t, <[t := f64_zero]> m) ∅ all_types in
            Ok (set_counters (Some zeros) (set_gauges (Some zeros) d))
  end.

(** [now] is the clock when the metrics, their history and the event are stamped. *)
Record Readings := mkReadings { at_metrics : DateTime; at_history : DateTime; at_event : DateTime }.

Definition update_metrics (r : Readings) (t : DriftType) (x : f64) : SR DriftDetector DriftError unit :=
  sr_modify (λ d, match metrics d !! t with
                  | Some m => set_metrics (<[t := metrics_record (at_metrics r) (at_history r) x m]> (metrics d)) d
                  | None => d end).

Definition set_gauge (t : DriftType) (x : f64) : SR DriftDetector DriftError unit :=
  sr_modify (λ d, match gauges d with
                  | Some g => match g !! t with Some _ => set_gauges (Some (<[t := x]> g)) d | None => d end
                  | None => d end).

Definition inc_counter (t : DriftType) : SR DriftDetector DriftError unit :=
  sr_modify (λ d, match counters d with
                  | Some g => match g !! t with
                              | Some v => set_counters (Some (<[t := f64_add v f64_one]> g)) d | None => d end
                  | None => d end).

Definition send_event (e : DriftEvent) : SR DriftDetector DriftError unit := λ d,
  match channel d with
  | Some (sent, true) => (set_channel (Some (sent ++ [e], true)%list) d, Ok ())
  | Some (_, false) => (d, Err (ChannelError "channel closed"))
  | None => (d, Ok ())
  end.

Definition event_text (t : DriftType) (score threshold : f64) : string :=
  cat [type_display t; " detected with score "; fmt_fixed 3 score; " (threshold: "; fmt_fixed 3 threshold; ")"].

Definition current_threshold (t : DriftType) (d : DriftDetector) : f64 :=
  effective_threshold (thresholds d) t
    (match metrics d !! t with Some m => moving_average m | None => f64_zero end).

Definition record (r : Readings) (t : DriftType) (x : f64) (entities : list string) :
    SR DriftDetector DriftError (option DriftEvent) :=
  update_metrics r t x;;
  set_gauge t x;;
  d ← sr_get;
  let threshold := current_threshold t d in
  if f64_ltb threshold x then
    let e := with_entities entities (event_new (at_event r) t x (event_text t x threshold)) in
    inc_counter t;; send_event e;; mret (Some e)
  else mret None.

Definition get_metrics (t : DriftType) (d : DriftDetector) : result DriftError (option DriftMetrics) := Ok (metrics d !! t).
Definition all_metrics (d : DriftDetector) : result DriftError (gmap DriftType DriftMetrics) := Ok (metrics d).

Record DriftHealthStatus := mkHealth {
  status : HealthStatus; worst_drift_type : DriftType; worst_score : f64; checked_at : DateTime }.

Definition health_of (worst : f64) : HealthStatus :=
  if f64_ltb (lit 9 10) worst then HCritical
  else if f64_ltb (lit 7 10) worst then Degraded
  else if f64_ltb (lit 5 10) worst then HWarning else Healthy.

Definition worse (acc : f64 * DriftType) (p : DriftType * DriftMetrics) : f64 * DriftType :=
  if f64_ltb acc.1 (current_score p.2) then (current_score p.2, p.1) else acc.

Definition health_check `{DriftIter} (now : DateTime) (d : DriftDetector) : result DriftError DriftHealthStatus :=
  let '(worst, t) := foldl worse (f64_zero, QualityDrift) (drift_iter (metrics d)) in
  Ok (mkHealth (health_of worst) t worst now).

End detector.
