(* ===== verification/DriftTheorems.v ===== *)
(** The drift detector: what one measurement does, what its metrics keep, the
    range of the scores, and how a NaN silences it. *)

From S2P Require Import Prelude Machine Text Collections Float64 Format WalEntry Drift.

(** ** Scores *)

Definition unit_interval (x : f64) : Prop :=
  x = S754_nan ∨ (f64_leb f64_zero x = true ∧ f64_leb x f64_one = true).

Lemma clamp01_unit x : unit_interval (clamp01 x).
Proof.
  unfold unit_interval, clamp01, clamp. destruct (f64_is_nan x) eqn:En.
  { left. by destruct x. }
  right. destruct (f64_ltb x f64_zero) eqn:E0; [by split; vm_compute|].
  destruct (f64_ltb f64_one x) eqn:E1; [by split; vm_compute|].
  split; rewrite f64_leb_ltb by done; [by rewrite E0|by rewrite E1].
Qed.

Lemma zero_unit : unit_interval f64_zero.
Proof. right. by split; vm_compute. Qed.

(** Every score the calculator computes is between 0 and 1, or NaN. *)
Theorem scores_in_range :
  (∀ e ts tes, unit_interval (Calculator.semantic_vector_drift e ts tes)) ∧
  (∀ es rs, unit_interval (Calculator.graph_document_drift es rs)) ∧
  (∀ ts hs, unit_interval (Calculator.temporal_consistency_drift ts hs)) ∧
  (∀ data e a st, unit_interval (Calculator.tensor_drift data e a st)) ∧
  (∀ v n g m, unit_interval (Calculator.provenance_drift v n g m)) ∧
  (∀ c l m v, unit_interval (Calculator.spatial_drift c l m v)) ∧
  (∀ r p v n, unit_interval (Calculator.schema_drift r p v n)) ∧
  (∀ a b c d e, unit_interval (Calculator.quality_drift a b c d e)) ∧
  (∀ a b c d e f g, unit_interval (Calculator.quality_drift_octad a b c d e f g)).
Proof.
  split_and!; intros.
  - unfold Calculator.semantic_vector_drift. case_match; [apply zero_unit|]. case_match; [apply zero_unit|].
    apply clamp01_unit.
  - unfold Calculator.graph_document_drift. case_match; [apply zero_unit|apply clamp01_unit].
  - unfold Calculator.temporal_consistency_drift. case_match; [apply zero_unit|apply clamp01_unit].
  - apply clamp01_unit.
  - unfold Calculator.provenance_drift. destruct v; cbn [negb]; [apply clamp01_unit|]. right. by split; vm_compute.
  - unfold Calculator.spatial_drift. destruct (c && negb v); [right; by split; vm_compute|apply clamp01_unit].
  - apply clamp01_unit.
  - apply clamp01_unit.
  - apply clamp01_unit.
Qed.

(** NaN goes through every operation. *)
Lemma f64_add_nan_r x : f64_add x S754_nan = S754_nan.
Proof. by destruct x as [[]|[]| |[] ? ?]. Qed.
Lemma f64_add_nan_l x : f64_add S754_nan x = S754_nan.
Proof. done. Qed.
Lemma f64_mul_nan_r x : f64_mul x S754_nan = S754_nan.
Proof. by destruct x as [[]|[]| |[] ? ?]. Qed.
Lemma f64_sum_nan l : f64_sum (S754_nan :: l) = S754_nan.
Proof.
  unfold f64_sum. cbn [foldl]. rewrite f64_add_nan_r.
  induction l as [|x l IH]; cbn [foldl]; [done|]. by rewrite f64_add_nan_l.
Qed.

(** A dimension of zero.  When two different shapes share an empty
    first dimension the tensor drift is NaN, which exceeds no threshold: the
    difference is never reported. *)
Theorem zero_dimension_unnoticed data e a :
  e ≠ a → Calculator.tensor_drift data (0 :: e) (0 :: a) None = S754_nan ∧
  ∀ threshold, f64_ltb threshold (Calculator.tensor_drift data (0 :: e) (0 :: a) None) = false.
Proof.
  intros Hne. assert (Calculator.tensor_drift data (0 :: e) (0 :: a) None = S754_nan) as ->.
  { unfold Calculator.tensor_drift. rewrite bool_decide_false by congruence. unfold Calculator.shape_diff.
    cbn [zip_with]. change (f64_div (f64_abs (f64_sub (f64_of_u64 0) (f64_of_u64 0))) (f64_of_u64 0)) with S754_nan.
    rewrite f64_sum_nan. done. }
  split; [done|]. intros [[]|[]| |[] ? ?]; done.
Qed.

(** ** Recording *)

Section detector.
Context `{Chrono}.
Implicit Types (d : DriftDetector) (r : Readings) (t : DriftType).

Lemma record_eq r t x es d :
  let d1 := (set_gauge t x (update_metrics r t x d).1).1 in
  record r t x es d =
  (if f64_ltb (current_threshold t d1) x
   then let e := with_entities es (event_new (at_event r) t x (event_text t x (current_threshold t d1))) in
        (inc_counter t;; send_event e;; mret (Some e)) d1
   else (d1, Ok None)).
Proof.
  cbv zeta. unfold record, mbind, sr_bind, sr_get.
  destruct (update_metrics r t x d) as [d0 [[]|e0]] eqn:E0; [|by unfold update_metrics, sr_modify in E0].
  cbn [fst]. destruct (set_gauge t x d0) as [d1 [[]|e1]] eqn:E1; [|by unfold set_gauge, sr_modify in E1].
  cbn [fst]. by destruct (f64_ltb _ _).
Qed.

Definition measured r t x d : DriftDetector := (set_gauge t x (update_metrics r t x d).1).1.

Lemma measured_metrics r t x d :
  metrics (measured r t x d) = alter (metrics_record (at_metrics r) (at_history r) x) t (metrics d).
Proof.
  unfold measured, set_gauge, update_metrics, sr_modify. cbn [fst].
  assert (∀ d', metrics (match gauges d' with
                  | Some g => match g !! t with Some _ => set_gauges (Some (<[t := x]> g)) d' | None => d' end
                  | None => d' end) = metrics d') as ->.
  { intros d'. by repeat case_match. }
  apply map_eq. intros t'. destruct (metrics d !! t) as [m|] eqn:Em.
  - cbn [metrics set_metrics]. destruct (decide (t = t')) as [<-|Ht].
    + by rewrite lookup_insert_eq, lookup_alter_eq, Em.
    + by rewrite lookup_insert_ne, lookup_alter_ne by done.
  - destruct (decide (t = t')) as [<-|Ht]; [by rewrite lookup_alter_eq, Em|by rewrite lookup_alter_ne].
Qed.

Lemma measured_other r t x d :
  thresholds (measured r t x d) = thresholds d ∧ channel (measured r t x d) = channel d.
Proof. unfold measured, set_gauge, update_metrics, sr_modify. cbn [fst]. by repeat case_match. Qed.

Lemma inc_counter_keeps t d :
  (inc_counter t d).2 = Ok () ∧ metrics (inc_counter t d).1 = metrics d ∧
  thresholds (inc_counter t d).1 = thresholds d ∧ channel (inc_counter t d).1 = channel d.
Proof. unfold inc_counter, sr_modify. cbn [fst snd]. by repeat case_match. Qed.

Lemma measured_insert r t x d m :
  metrics d !! t = Some m →
  metrics (measured r t x d) = <[t := metrics_record (at_metrics r) (at_history r) x m]> (metrics d).
Proof.
  intros Hm. rewrite measured_metrics. apply map_eq. intros t'. destruct (decide (t = t')) as [<-|Ht].
  - by rewrite lookup_alter_eq, lookup_insert_eq, Hm.
  - by rewrite lookup_alter_ne, lookup_insert_ne by done.
Qed.

Lemma measured_threshold r t x d m :
  metrics d !! t = Some m →
  current_threshold t (measured r t x d) =
  effective_threshold (thresholds d) t (moving_average (metrics_record (at_metrics r) (at_history r) x m)).
Proof.
  intros Hm. unfold current_threshold. destruct (measured_other r t x d) as [-> _].
  by rewrite (measured_insert _ _ _ _ _ Hm), lookup_insert_eq.
Qed.

(** One measurement.  Recording a score always updates the metrics of
    its type, and of no other, then compares it with the threshold for the
    updated moving average.  A score above it is reported as an event with the
    severity of the score and the entities given, sent when somebody listens;
    when the receiver is gone the call fails although the measurement counts.
    Any other score is reported as nothing, and nothing is sent. *)
Theorem record_outcome r t x es d m :
  metrics d !! t = Some m →
  let m' := metrics_record (at_metrics r) (at_history r) x m in
  let threshold := effective_threshold (thresholds d) t (moving_average m') in
  let '(d', res) := record r t x es d in
  metrics d' = <[t := m']> (metrics d) ∧ thresholds d' = thresholds d ∧
  if f64_ltb threshold x then
    ∃ e, drift_type e = t ∧ score e = x ∧ severity e = severity_of x ∧ affected_entities e = es ∧
      detected_at e = at_event r ∧
      match channel d with
      | Some (sent, true) => res = Ok (Some e) ∧ channel d' = Some (sent ++ [e], true)%list
      | Some (_, false) => res = Err (ChannelError "channel closed") ∧ channel d' = channel d
      | None => res = Ok (Some e) ∧ channel d' = None
      end
  else res = Ok None ∧ channel d' = channel d.
Proof.
  intros Hm. cbv zeta. set (m' := metrics_record _ _ x m).
  pose proof (measured_insert r t x d m Hm) as Em. destruct (measured_other r t x d) as [Et Ec].
  pose proof (measured_threshold r t x d m Hm) as Eth. fold m' in Em, Eth.
  rewrite record_eq. fold (measured r t x d). rewrite Eth. destruct (f64_ltb _ x) eqn:E; [|done].
  set (e := with_entities _ _). destruct (inc_counter_keeps t (measured r t x d)) as (Hi & Im & It & Ic).
  unfold mbind, sr_bind. destruct (inc_counter t (measured r t x d)) as [d1 r1]. cbn [fst snd] in *. subst r1.
  unfold send_event. rewrite Ic, Ec. destruct (channel d) as [[sent []]|] eqn:Ech; cbn.
  - rewrite Im, It. split_and!; try done. exists e. by split_and!.
  - rewrite Im, It. split_and!; try done. exists e. rewrite Ic. by split_and!.
  - rewrite Im, It. split_and!; try done. exists e. rewrite Ic. by split_and!.
Qed.

(** ** Metrics over time *)

(** One measurement: its two clock readings and its score. *)
Definition measure (m : DriftMetrics) (p : DateTime * DateTime * f64) : DriftMetrics :=
  metrics_record p.1.1 p.1.2 p.2 m.

Lemma push_history_newest x l :
  push_history x (drop (length l - HISTORY) l) = drop (length (l ++ [x]) - HISTORY) (l ++ [x]).
Proof.
  unfold push_history. rewrite !length_app, length_drop. cbn [length].
  destruct (Nat.ltb_spec HISTORY (length l - (length l - HISTORY) + 1)) as [Hl|Hl].
  - rewrite <- drop_app_le by lia.
    replace (length l + 1 - HISTORY)%nat with (length l - HISTORY + 1)%nat by lia.
    rewrite <- drop_drop. by destruct (drop (length l - HISTORY) (l ++ [x])).
  - rewrite <- drop_app_le by lia. f_equal. lia.
Qed.

(** What the metrics keep.  After any measurements the history holds
    the newest hundred in order, the count is their number, and the current
    score is the last one. *)
Theorem metrics_keep_newest now l :
  let m := foldl measure (metrics_default now) l in
  history m = drop (length l - HISTORY) ((λ p, (p.1.2, p.2)) <$> l) ∧
  measurement_count m = wrap 64 (Z.of_nat (length l)) ∧
  current_score m = default f64_zero (snd <$> last l).
Proof.
  cbv zeta. induction l as [|p l (Hh & Hc & Hs)] using rev_ind; [done|]. rewrite foldl_app. cbn [foldl].
  split_and!.
  - cbn [history measure metrics_record]. rewrite Hh, fmap_app.
    rewrite <- (length_fmap (λ p, (p.1.2, p.2)) l), push_history_newest.
    by rewrite !length_app, !length_fmap.
  - cbn [measurement_count measure metrics_record]. rewrite Hc, length_app. unfold wrap. cbn [length].
    rewrite Zplus_mod_idemp_l. f_equal. lia.
  - by rewrite last_snoc.
Qed.

(** ** A NaN silences the detector *)

(** The moving average of a type is NaN and its policy adaptive. *)
Definition silenced t d : Prop :=
  (∃ base s, adaptive_policies (thresholds d) !! t = Some (Adaptive base s)) ∧
  ∃ m, metrics d !! t = Some m ∧ moving_average m = S754_nan.

Lemma record_keeps r t x es d :
  thresholds (record r t x es d).1 = thresholds d ∧
  metrics (record r t x es d).1 = alter (metrics_record (at_metrics r) (at_history r) x) t (metrics d).
Proof.
  rewrite record_eq. fold (measured r t x d). rewrite <- measured_metrics.
  destruct (measured_other r t x d) as [Et _]. rewrite <- Et. destruct (f64_ltb _ x); [|done].
  destruct (inc_counter_keeps t (measured r t x d)) as (Hi & Im & It & Ic).
  unfold mbind, sr_bind. destruct (inc_counter t (measured r t x d)) as [d1 r1]. cbn [fst snd] in *. subst r1.
  unfold send_event. destruct (channel d1) as [[sent []]|]; by cbn; rewrite ?Im, ?It.
Qed.

Lemma average_nan now now' x m : moving_average m = S754_nan ∨ x = S754_nan →
  moving_average (metrics_record now now' x m) = S754_nan.
Proof.
  intros [Hm| ->]; cbn [moving_average metrics_record].
  - rewrite Hm, f64_mul_nan_r. apply f64_add_nan_r.
  - by rewrite f64_mul_nan_r.
Qed.

Lemma silenced_record r t' x es t d : silenced t d → silenced t (record r t' x es d).1.
Proof.
  intros [Hp (m & Hm & Ha)]. destruct (record_keeps r t' x es d) as [Et Em]. unfold silenced. rewrite Et, Em.
  split; [done|]. destruct (decide (t' = t)) as [->|Ht].
  - rewrite lookup_alter_eq, Hm. eexists. split; [done|]. apply average_nan. by left.
  - rewrite lookup_alter_ne by done. by exists m.
Qed.

(** Recording one NaN under an adaptive policy.  Its moving average
    and so its threshold stay NaN for good: whatever is recorded afterwards, no
    score of that type, however bad, is ever reported again. *)
Theorem nan_silences_detector r t es d base s m (later : list (Readings * DriftType * f64 * list string)) r' x es' :
  adaptive_policies (thresholds d) !! t = Some (Adaptive base s) → metrics d !! t = Some m →
  let d1 := foldl (λ d p, (record p.1.1.1 p.1.1.2 p.1.2 p.2 d).1) (record r t S754_nan es d).1 later in
  (record r' t x es' d1).2 = Ok None.
Proof.
  intros Hp Hm. cbv zeta.
  assert (Hs : silenced t (record r t S754_nan es d).1).
  { destruct (record_keeps r t S754_nan es d) as [Et Em]. unfold silenced. rewrite Et, Em. split; [by eauto|].
    rewrite lookup_alter_eq, Hm. eexists. split; [done|]. apply average_nan. by right. }
  revert Hs. generalize (record r t S754_nan es d).1. induction later as [|p later IH]; intros d1 Hs; cbn [foldl].
  - destruct Hs as [(b & s' & Hp') (m1 & Hm1 & Ha)].
    rewrite record_eq. fold (measured r' t x d1). rewrite (measured_threshold r' t x d1 m1 Hm1).
    unfold effective_threshold. rewrite Hp'. unfold policy_threshold. rewrite average_nan by by left.
    change (f64_mul S754_nan s') with S754_nan. by rewrite f64_add_nan_r.
  - apply IH. by apply silenced_record.
Qed.

(** ** Health *)

Lemma foldl_worse l acc :
  f64_is_nan acc.1 = false →
  let '(w, t) := foldl worse acc l in
  f64_is_nan w = false ∧ f64_ltb w acc.1 = false ∧ (∀ p, p ∈ l → f64_ltb w (current_score p.2) = false) ∧
  ((w, t) = acc ∨ ∃ m, (t, m) ∈ l ∧ current_score m = w).
Proof.
  revert acc.
  induction l as [|p l IH]; intros acc Ha; cbn [foldl].
  - destruct acc as [w t]. cbn in *. split_and!; [done| | |by left].
    + apply not_true_iff_false. rewrite f64_ltb_rank by done. unfold lex_lt. lia.
    + by intros p ?%elem_of_nil.
  - unfold worse at 2. destruct (f64_ltb acc.1 (current_score p.2)) eqn:El.
    + assert (f64_is_nan (current_score p.2) = false) as Hn.
      { destruct (current_score p.2) as [| | |]; try done. by destruct acc.1 as [[]|[]| |[] ? ?]. }
      specialize (IH (current_score p.2, p.1) Hn). destruct (foldl worse _ l) as [w t].
      destruct IH as (Hw & Hp & Hl & Ho). cbn in Hp. split_and!; [done| | |].
      * apply not_true_iff_false. apply not_true_iff_false in Hp. rewrite f64_ltb_rank in * by done.
        unfold lex_lt in *. lia.
      * intros q [->|Hq]%elem_of_cons; auto.
      * right. destruct Ho as [[= -> ->]|(m & Hm & <-)]; [exists p.2; split; [rewrite <- surjective_pairing; by left|done]|].
        exists m. split; [by right|done].
    + specialize (IH acc Ha). destruct (foldl worse acc l) as [w t]. destruct IH as (Hw & Hp & Hl & Ho).
      split_and!; [done|done| |].
      * intros q [->|Hq]%elem_of_cons; [|auto]. destruct (f64_is_nan (current_score p.2)) eqn:Hn.
        { destruct (current_score p.2); try done. by destruct w as [[]|[]| |[] ? ?]. }
        apply not_true_iff_false. apply not_true_iff_false in Hp, El. rewrite f64_ltb_rank in * by done.
        unfold lex_lt in *. lia.
      * destruct Ho as [->|(m & Hm & <-)]; [by left|]. right. exists m. split; [by right|done].
Qed.

(** The worst score.  The reported score is at least every current
    score that is a number, and it is the current score of the reported type,
    or zero when no score is positive. *)
Theorem health_reports_worst `{DriftIterLaws} now d :
  ∃ h, health_check now d = Ok h ∧ status h = health_of (worst_score h) ∧
    (∀ t m, metrics d !! t = Some m → f64_ltb (worst_score h) (current_score m) = false) ∧
    ((worst_score h = f64_zero ∧ worst_drift_type h = QualityDrift) ∨
     ∃ m, metrics d !! worst_drift_type h = Some m ∧ current_score m = worst_score h).
Proof.
  unfold health_check. pose proof (foldl_worse (drift_iter (metrics d)) (f64_zero, QualityDrift) eq_refl) as Hf.
  assert (Hin : ∀ t m, (t, m) ∈ drift_iter (metrics d) ↔ metrics d !! t = Some m)
    by (intros t m; by rewrite drift_iter_perm, elem_of_map_to_list).
  destruct (foldl worse _ _) as [w t]. destruct Hf as (_ & _ & Hw & Ho). eexists. split; [done|]. cbn. split; [done|].
  split; [intros t' m' Ht'; by apply (Hw (t', m')), Hin|].
  destruct Ho as [[= -> ->]|(m & Hm%Hin & <-)]; [by left|right; eauto].
Qed.

End detector.

(** ** Witnesses *)

Module Witness.

#[export] Instance chrono : Chrono :=
  {| DateTime := Z; timestamp_millis := λ t, t; timestamp_millis_opt := Some |}.
#[export] Instance drift_order : DriftIter := λ A m, map_to_list m.
#[export] Instance drift_order_laws : DriftIterLaws drift_order.
Proof. intros A m. reflexivity. Defined.

Definition at_ (t : Z) : DateTime := t.
Definition readings : Readings := mkReadings (at_ 1) (at_ 2) (at_ 3).
Definition quiet : DriftDetector := with_event_channel (with_defaults (at_ 0)).
Definition fresh : DriftMetrics := metrics_default (at_ 0).

(** A tensor drift of 0.5 is above the fixed threshold of 0.35. *)
Lemma record_outcome_witness :
  ∃ e, (record readings TensorDrift (lit 1 2) ["x"%string] quiet).2 = Ok (Some e) ∧ score e = lit 1 2.
Proof.
  pose proof (record_outcome readings TensorDrift (lit 1 2) ["x"%string] quiet fresh) as H.
  cbv zeta in H. destruct (record readings TensorDrift (lit 1 2) ["x"%string] quiet) as [d' res].
  destruct H as (_ & _ & H); [vm_compute; reflexivity|].
  assert (f64_ltb (effective_threshold (thresholds quiet) TensorDrift
    (moving_average (metrics_record (at_metrics readings) (at_history readings) (lit 1 2) fresh))) (lit 1 2) = true) as E
    by (vm_compute; reflexivity).
  rewrite E in H. destruct H as (e & _ & Hs & _ & _ & _ & Hr & _). exists e. split; [exact Hr | exact Hs].
Defined.

Definition adaptive : DriftDetector :=
  detector_new (at_ 0) (mkThresholds f64_zero f64_zero f64_zero f64_zero f64_zero f64_zero f64_zero f64_zero
    {[TensorDrift := Adaptive (lit 1 10) (lit 1 2)]}).

Lemma nan_silences_detector_witness :
  (record readings TensorDrift f64_one [] (record readings TensorDrift S754_nan [] adaptive).1).2 = Ok None.
Proof.
  apply (nan_silences_detector readings TensorDrift [] adaptive (lit 1 10) (lit 1 2) fresh [] readings f64_one []).
  - vm_compute. reflexivity.
  - vm_compute. reflexivity.
Defined.

Lemma zero_dimension_unnoticed_witness : Calculator.tensor_drift [] [0; 3] [0; 4] None = S754_nan.
Proof. apply (zero_dimension_unnoticed [] [3] [4]). discriminate. Defined.

Lemma health_reports_worst_witness : ∃ h, health_check (at_ 9) quiet = Ok h ∧ status h = Healthy.
Proof.
  destruct (health_reports_worst (at_ 9) quiet) as (h & Hh & _ & _). exists h. split; [exact Hh|].
  vm_compute in Hh. injection Hh as <-. reflexivity.
Defined.

End Witness.
