(* ===== verification/Regeneration.v ===== *)
(** Regeneration of drifted modalities (verisim-normalizer/src/regeneration.rs).

    The engine decides which modality repairs which, by authority, and leaves
    the repair to a regenerator, which is an interface.  It keeps a queue of
    what needs a human and an audit trail.  A regenerator may panic: the panic
    unwinds through the engine, so the methods live in [SR _ Panic] and return
    their [Result] as a value. *)

From S2P Require Import Prelude Machine Text Float64 Collections Format WalEntry OctadTypes Conflict.

Local Open Scope string_scope.
Local Open Scope Z_scope.

Inductive Panic := panicked.

(** ** Errors (lib.rs) *)

Inductive NormalizerError :=
| NormalizationFailed (entity_id message : string)
| StrategyNotFound (s : string)
| NOctadError (s : string)
| NChannelError (s : string)
| MissingModality (s : string)
| StorageError (s : string)
| NoViableSource (s : string).

Definition normalizer_error_display (e : NormalizerError) : string :=
  match e with
  | NormalizationFailed i m => cat ["Normalization failed for "; i; ": "; m]
  | StrategyNotFound s => cat ["Strategy not found: "; s]
  | NOctadError s => cat ["Octad error: "; s]
  | NChannelError s => cat ["Channel error: "; s]
  | MissingModality s => cat ["Missing modality: "; s]
  | StorageError s => cat ["Storage error: "; s]
  | NoViableSource s => cat ["No viable source: "; s]
  end.

(** ** Modalities of an octad *)

Definition geometry_display (g : GeometryType) : string :=
  match g with
  | Point => "Point" | LineString => "LineString" | Polygon => "Polygon"
  | MultiPoint => "MultiPoint" | MultiPolygon => "MultiPolygon"
  end.

Definition strlen (s : string) : Z := Z.of_nat (String.length s).
Definition veclen {A} (l : list A) : Z := Z.of_nat (length l).

Section octads.
Context `{Chrono}.

Definition is_present_on (m : Modality) (o : Octad) : bool :=
  match m with
  | Document => bool_decide (is_Some (oc_document o))
  | Semantic => bool_decide (is_Some (oc_semantic o))
  | Graph => bool_decide (is_Some (graph_node o))
  | Vector => bool_decide (is_Some (oc_embedding o))
  | Tensor => bool_decide (is_Some (oc_tensor o))
  | Temporal => 0 <? version_count o
  | Provenance => 0 <? provenance_chain_length o
  | Spatial => bool_decide (is_Some (spatial_data o))
  end.

Definition summarize `{FmtF64} (m : Modality) (o : Octad) : option string :=
  match m with
  | Document => (λ d, cat ["document(title='"; title d; "', body_len="; fmt_u64 (strlen (body d)); ")"]) <$> oc_document o
  | Semantic => (λ s, cat ["semantic(types="; fmt_u64 (veclen (types s)); ", properties=";
                           fmt_u64 (Z.of_nat (size (properties s))); ")"]) <$> oc_semantic o
  | Graph => (λ g, cat ["graph(iri='"; iri g; "', local_name='"; local_name g; "')"]) <$> graph_node o
  | Vector => (λ e, cat ["vector(dim="; fmt_u64 (veclen (vector e)); ")"]) <$> oc_embedding o
  | Tensor => (λ t, cat ["tensor(shape="; debug_list fmt_u64 (shape t); ", len="; fmt_u64 (veclen (tensor_data t)); ")"]) <$> oc_tensor o
  | Temporal => if 0 <? version_count o then Some (cat ["temporal(versions="; fmt_u64 (version_count o); ")"]) else None
  | Provenance =>
      if 0 <? provenance_chain_length o
      then Some (cat ["provenance(chain_length="; fmt_u64 (provenance_chain_length o); ")"]) else None
  | Spatial => (λ s, cat ["spatial(lat="; fmt_f64 (latitude (coordinates s)); ", lon="; fmt_f64 (longitude (coordinates s));
                          ", type="; geometry_display (geometry_type s); ")"]) <$> spatial_data o
  end.

(** ** Configuration *)

Inductive RegenerationStrategy := FromAuthoritative | Merge | UserResolve.

#[export] Instance strategy_eq_dec : EqDecision RegenerationStrategy.
Proof. solve_decision. Defined.

Definition strategy_display (s : RegenerationStrategy) : string :=
  match s with FromAuthoritative => "from_authoritative" | Merge => "merge" | UserResolve => "user_resolve" end.

Record RegenerationConfig := mkRegenConfig {
  authority_order : list Modality;
  default_strategy : RegenerationStrategy;
  modality_strategies : gmap Modality RegenerationStrategy;
  drift_threshold : f64;
  regen_max_concurrent : Z;
}.

Definition regen_config_default : RegenerationConfig :=
  mkRegenConfig DEFAULT_AUTHORITY_ORDER FromAuthoritative ∅ (f64_lit 3 10) 10.

Definition strategy_for (c : RegenerationConfig) (m : Modality) : RegenerationStrategy :=
  default (default_strategy c) (modality_strategies c !! m).

(** [iter().position(|m| *m == modality)]. *)
Fixpoint position (m : Modality) (l : list Modality) : option nat :=
  match l with
  | [] => None
  | x :: l => if decide (x = m) then Some O else S <$> position m l
  end.

Definition f64_of_usize (n : nat) : f64 := f64_of_u64 (Z.of_nat n).

Definition authority_weight (c : RegenerationConfig) (m : Modality) : f64 :=
  match position m (authority_order c) with
  | Some idx => f64_sub (f64_of_usize (length (authority_order c))) (f64_of_usize idx)
  | None => f64_zero
  end.

(** ** Events, results and the queue *)

Record NormalizationEvent := mkNormEvent {
  ne_entity_id : string;
  ne_drifted_modality : Modality;
  strategy_used : RegenerationStrategy;
  source_modality : option Modality;
  pre_drift_score : f64;
  post_drift_score : option f64;
  ne_timestamp : DateTime;
  ne_success : bool;
}.

Inductive RegenerationResult :=
| Repaired (event : NormalizationEvent)
| PendingResolution (entity_id reason : string)
| NoActionNeeded
| RegenFailed (error : string).

Record PendingNormalization := mkPending {
  pn_entity_id : string;
  pn_drifted_modality : Modality;
  drift_score : f64;
  queued_at : DateTime;
}.

(** The queue is a vector behind a lock. *)
Definition enqueue (item : PendingNormalization) (q : list PendingNormalization) : list PendingNormalization := q ++ [item].

Definition pending_for (entity : string) (m : Modality) (p : PendingNormalization) : bool :=
  String.eqb (pn_entity_id p) entity && bool_decide (pn_drifted_modality p = m).

(** [position] of the first match, then [Vec::remove]. *)
Fixpoint resolve_pending (entity : string) (m : Modality) (q : list PendingNormalization) :
    list PendingNormalization * option PendingNormalization :=
  match q with
  | [] => ([], None)
  | p :: q => if pending_for entity m p then (q, Some p)
              else let '(q, r) := resolve_pending entity m q in (p :: q, r)
  end.

Definition drain (q : list PendingNormalization) : list PendingNormalization * list PendingNormalization := ([], q).

(** ** Regenerators *)

Class ModalityRegenerator := {
  RegenState : Type;
  regenerate_from : Octad → Modality → Modality → SR RegenState Panic (result NormalizerError string);
  merge_into : Octad → list (Modality * f64) → Modality → SR RegenState Panic (result NormalizerError string);
  measure_drift : Octad → Modality → SR RegenState Panic (result NormalizerError f64);
}.

(** [summarize(octad).unwrap_or_else(..)]. *)
Definition summary_or_empty `{FmtF64} (m : Modality) (o : Octad) : string :=
  default (cat [modality_display m; " (empty)"]) (summarize m o).

Definition summary_part `{FmtF64} (o : Octad) (p : Modality * f64) : string :=
  cat [modality_display p.1; "(w="; fmt_fixed 2 p.2; ") ["; summary_or_empty p.1 o; "]"].

(** The dry-run regenerator: it says what it would do. *)
Definition SummaryRegenerator `{FmtF64} : ModalityRegenerator := {|
  RegenState := unit;
  regenerate_from o src tgt :=
    mret (Ok (cat ["Regenerated "; modality_display tgt; " from "; modality_display src; " ["; summary_or_empty src o; "]"]));
  merge_into o sources tgt :=
    mret (Ok (cat ["Merged into "; modality_display tgt; " from: "; String.concat ", " (summary_part o <$> sources)]));
  measure_drift _ _ := mret (Ok f64_zero);
|}.

(** ** The engine *)

Section engine.
Context `{R : !ModalityRegenerator}.

Record RegenerationEngine := mkEngine {
  regen_config : RegenerationConfig;
  queue : list PendingNormalization;
  events : list NormalizationEvent;
  regenerator : RegenState;
}.

Definition with_regenerator (c : RegenerationConfig) (r : RegenState) : RegenerationEngine := mkEngine c [] [] r.

Definition set_queue (q : list PendingNormalization) (e : RegenerationEngine) : RegenerationEngine :=
  mkEngine (regen_config e) q (events e) (regenerator e).
Definition set_events (l : list NormalizationEvent) (e : RegenerationEngine) : RegenerationEngine :=
  mkEngine (regen_config e) (queue e) l (regenerator e).
Definition set_regenerator (r : RegenState) (e : RegenerationEngine) : RegenerationEngine :=
  mkEngine (regen_config e) (queue e) (events e) r.

Abbreviation EM := (SR RegenerationEngine Panic).

Definition on_regenerator {A} : SR RegenState Panic A → EM A := sr_zoom regenerator set_regenerator.

Definition record_event (ev : NormalizationEvent) : EM unit := sr_modify (λ e, set_events (events e ++ [ev]) e).

(** The clock when an item is queued and when the event is recorded. *)
Record RegenClock := mkRegenClock { at_queue : DateTime; at_record : DateTime }.

Section call.
Context (now : RegenClock) (o : Octad) (m : Modality) (x : f64).

Definition event_with (s : RegenerationStrategy) (src : option Modality) (post : option f64) (ok : bool) : NormalizationEvent :=
  mkNormEvent (oc_id o) m s src x post (at_record now) ok.

(** [.ok()] of a [Result] value. *)
Definition result_ok {E A} (r : result E A) : option A := match r with Ok a => Some a | Err _ => None end.

(** What both automatic strategies do with the answer of the regenerator. *)
Definition finish_regeneration (s : RegenerationStrategy) (src : option Modality)
    (answer : result NormalizerError string) : EM RegenerationResult :=
  match answer with
  | Ok _ =>
      post ← on_regenerator (measure_drift o m);
      let ev := event_with s src (result_ok post) true in
      record_event ev;;
      mret (Repaired ev)
  | Err e =>
      record_event (event_with s src None false);;
      mret (RegenFailed (normalizer_error_display e))
  end.

Definition usable (k : Modality) : bool := negb (bool_decide (k = m)) && is_present_on k o.

Definition execute_from_authoritative : EM RegenerationResult :=
  e ← sr_get;
  match List.find usable (authority_order (regen_config e)) with
  | None =>
      record_event (event_with FromAuthoritative None None false);;
      mret (RegenFailed (cat ["No authoritative source available for "; modality_display m; " on entity "; oc_id o]))
  | Some src =>
      answer ← on_regenerator (regenerate_from o src m);
      finish_regeneration FromAuthoritative (Some src) answer
  end.

Definition merge_sources (c : RegenerationConfig) : list (Modality * f64) :=
  (λ k, (k, authority_weight c k)) <$> retain usable (authority_order c).

Definition execute_merge : EM RegenerationResult :=
  e ← sr_get;
  match merge_sources (regen_config e) with
  | [] =>
      record_event (event_with Merge None None false);;
      mret (RegenFailed (cat ["No source modalities available for merge into "; modality_display m; " on entity "; oc_id o]))
  | sources =>
      answer ← on_regenerator (merge_into o sources m);
      finish_regeneration Merge None answer
  end.

Definition execute_user_resolve : EM RegenerationResult :=
  sr_modify (λ e, set_queue (enqueue (mkPending (oc_id o) m x (at_queue now)) (queue e)) e);;
  record_event (event_with UserResolve None None true);;
  mret (PendingResolution (oc_id o)
    (cat [modality_display m; " drift (score "; fmt_fixed 3 x; ") requires manual resolution per strategy config"])).

Definition regenerate : EM RegenerationResult :=
  e ← sr_get;
  if f64_leb x (drift_threshold (regen_config e)) then mret NoActionNeeded
  else
    match strategy_for (regen_config e) m with
    | FromAuthoritative => execute_from_authoritative
    | Merge => execute_merge
    | UserResolve => execute_user_resolve
    end.

End call.

(** The queue as external tooling uses it. *)
Definition resolve_item (entity : string) (m : Modality) : EM (option PendingNormalization) := λ e,
  let '(q, r) := resolve_pending entity m (queue e) in (set_queue q e, Ok r).
Definition drain_queue : EM (list PendingNormalization) := λ e,
  let '(q, r) := drain (queue e) in (set_queue q e, Ok r).

End engine.

End octads.

Local Close Scope string_scope.
Local Close Scope Z_scope.

(** ** Properties

    Properties of the regeneration engine, over any regenerator: what a call
    does on every branch, which source it chooses, and how the queue and the
    audit trail account for each other. *)

Section engine.
Context `{Chrono} `{FmtF64} `{R : !ModalityRegenerator}.
Implicit Types (e : RegenerationEngine) (o : Octad) (m k : Modality) (x : f64) (now : RegenClock).

(** ** One call *)

(** The event a call appends, and the answer that goes with it. *)
Record reports now o m x (s : RegenerationStrategy) (src : option Modality) (ev : NormalizationEvent)
    (r : RegenerationResult) : Prop := {
  rep_entity : ne_entity_id ev = oc_id o;
  rep_modality : ne_drifted_modality ev = m;
  rep_strategy : strategy_used ev = s;
  rep_source : source_modality ev = src;
  rep_score : pre_drift_score ev = x;
  rep_time : ne_timestamp ev = at_record now;
  rep_result : match r with
    | Repaired ev' => ev' = ev ∧ ne_success ev = true ∧ s ≠ UserResolve
    | PendingResolution id _ => id = oc_id o ∧ ne_success ev = true ∧ s = UserResolve ∧ post_drift_score ev = None
    | RegenFailed _ => ne_success ev = false ∧ s ≠ UserResolve ∧ post_drift_score ev = None
    | NoActionNeeded => False
    end;
}.

Lemma finish_cases now o m x s src answer e :
  s ≠ UserResolve →
  let '(e', r) := finish_regeneration now o m x s src answer e in
  regen_config e' = regen_config e ∧ queue e' = queue e ∧
  match r with
  | Ok res => ∃ ev, events e' = events e ++ [ev] ∧ reports now o m x s src ev res
  | Err _ => events e' = events e
  end.
Proof.
  intros Hs. unfold finish_regeneration. destruct answer as [a|err].
  - unfold mbind, sr_bind, on_regenerator, sr_zoom. cbn [fst snd].
    destruct (measure_drift o m (regenerator e)) as [g [post|p]]; cbn; [|by split_and!].
    split_and!; [done..|]. eexists. split; [reflexivity|]. by split.
  - cbn. split_and!; [done..|]. eexists. split; [reflexivity|]. by split.
Qed.

(** What the strategy chooses as the source. *)
Definition chosen_source (c : RegenerationConfig) o m : option Modality :=
  match strategy_for c m with
  | FromAuthoritative => List.find (usable o m) (authority_order c)
  | _ => None
  end.

Definition queued now o m x (s : RegenerationStrategy) : list PendingNormalization :=
  match s with UserResolve => [mkPending (oc_id o) m x (at_queue now)] | _ => [] end.

(** A zoomed call of the regenerator leaves the rest alone. *)
Lemma on_regenerator_cases {A} (f : SR RegenState Panic A) e :
  ∃ g, on_regenerator f e = (set_regenerator g e, (f (regenerator e)).2) ∧ g = (f (regenerator e)).1.
Proof. by eexists. Qed.

Lemma authoritative_cases now o m x e :
  let '(e', r) := execute_from_authoritative now o m x e in
  regen_config e' = regen_config e ∧ queue e' = queue e ∧
  match r with
  | Ok res => ∃ ev, events e' = events e ++ [ev] ∧
      reports now o m x FromAuthoritative (List.find (usable o m) (authority_order (regen_config e))) ev res
  | Err _ => events e' = events e
  end.
Proof.
  unfold execute_from_authoritative. unfold mbind at 1, sr_bind at 1, sr_get.
  destruct (List.find _ _) as [src|].
  - unfold mbind, sr_bind. unfold on_regenerator, sr_zoom.
    destruct (regenerate_from o src m (regenerator e)) as [g [answer|p]]; cbn [fst snd]; [|by split_and!].
    by apply (finish_cases now o m x FromAuthoritative (Some src) answer (set_regenerator g e)).
  - cbn. split_and!; [done..|]. eexists. split; [reflexivity|]. by split.
Qed.

Lemma merge_cases now o m x e :
  let '(e', r) := execute_merge now o m x e in
  regen_config e' = regen_config e ∧ queue e' = queue e ∧
  match r with
  | Ok res => ∃ ev, events e' = events e ++ [ev] ∧ reports now o m x Merge None ev res
  | Err _ => events e' = events e
  end.
Proof.
  unfold execute_merge. unfold mbind at 1, sr_bind at 1, sr_get.
  destruct (merge_sources o m (regen_config e)) as [|p l].
  - cbn. split_and!; [done..|]. eexists. split; [reflexivity|]. by split.
  - unfold mbind, sr_bind. unfold on_regenerator, sr_zoom.
    destruct (merge_into o (p :: l) m (regenerator e)) as [g [answer|q]]; cbn [fst snd]; [|by split_and!].
    by apply (finish_cases now o m x Merge None answer (set_regenerator g e)).
Qed.

(** C39 (one call, one event).  A score at or below the threshold changes
    nothing; any other score -- a NaN is one -- appends exactly one event, with the strategy
    configured for the modality, the source it chose and the score, successful
    unless the answer is a failure, and queues one item exactly when a human
    must decide.  Only a panic of the regenerator leaves no event. *)
Theorem regenerate_outcome now o m x e :
  let c := regen_config e in
  let '(e', r) := regenerate now o m x e in
  if f64_leb x (drift_threshold c) then e' = e ∧ r = Ok NoActionNeeded
  else regen_config e' = c ∧
    match r with
    | Ok res => ∃ ev, events e' = events e ++ [ev] ∧ reports now o m x (strategy_for c m) (chosen_source c o m) ev res ∧
                  queue e' = queue e ++ queued now o m x (strategy_for c m)
    | Err _ => events e' = events e ∧ queue e' = queue e ∧ strategy_for c m ≠ UserResolve
    end.
Proof.
  cbv zeta. unfold regenerate, chosen_source. unfold mbind, sr_bind, sr_get.
  destruct (f64_leb x _); [done|]. destruct (strategy_for (regen_config e) m).
  - generalize (authoritative_cases now o m x e). destruct (execute_from_authoritative now o m x e) as [e' [r|p]].
    + intros (-> & -> & ev & -> & Hr). split; [done|]. exists ev. by rewrite app_nil_r.
    + by intros (-> & -> & ->).
  - generalize (merge_cases now o m x e). destruct (execute_merge now o m x e) as [e' [r|p]].
    + intros (-> & -> & ev & -> & Hr). split; [done|]. exists ev. by rewrite app_nil_r.
    + by intros (-> & -> & ->).
  - cbn. split; [done|]. eexists. split_and!; [reflexivity|by split|done].
Qed.

Definition item_key (p : PendingNormalization) : string * Modality * f64 := (pn_entity_id p, pn_drifted_modality p, drift_score p).
Definition event_key (ev : NormalizationEvent) : string * Modality * f64 := (ne_entity_id ev, ne_drifted_modality ev, pre_drift_score ev).
Definition escalated (ev : NormalizationEvent) : bool := bool_decide (strategy_used ev = UserResolve).

(** What every call adds to the trail and to the queue. *)
Lemma regenerate_cases now o m x e :
  let '(e', r) := regenerate now o m x e in
  ∃ evs its, events e' = events e ++ evs ∧ queue e' = queue e ++ its ∧
    event_key <$> retain escalated evs = item_key <$> its.
Proof.
  unfold regenerate. unfold mbind, sr_bind, sr_get. destruct (f64_leb x _).
  { exists [], []. cbn. by rewrite !app_nil_r. }
  assert (Hauto : ∀ (s : RegenerationStrategy) src e' (r : result Panic RegenerationResult), s ≠ UserResolve → queue e' = queue e →
    match r with
    | Ok res => ∃ ev, events e' = events e ++ [ev] ∧ reports now o m x s src ev res
    | Err _ => events e' = events e
    end → ∃ evs its, events e' = events e ++ evs ∧ queue e' = queue e ++ its ∧
      event_key <$> retain escalated evs = item_key <$> its).
  { intros s src e' r Hs Hq. destruct r as [res|p].
    - intros (ev & Hev & Hr). exists [ev], []. rewrite app_nil_r. split_and!; [done..|]. cbn.
      unfold escalated. rewrite (rep_strategy _ _ _ _ _ _ _ _ Hr). by rewrite bool_decide_eq_false_2.
    - intros Hev. exists [], []. by rewrite !app_nil_r. }
  destruct (strategy_for (regen_config e) m).
  - generalize (authoritative_cases now o m x e). destruct (execute_from_authoritative now o m x e) as [e' r].
    intros (_ & Hq & Hr). by eapply (Hauto FromAuthoritative).
  - generalize (merge_cases now o m x e). destruct (execute_merge now o m x e) as [e' r].
    intros (_ & Hq & Hr). by eapply (Hauto Merge).
  - cbn. eexists [_], [_]. split_and!; reflexivity.
Qed.

(** ** Authority *)

Lemma find_retain {A} (f : A → bool) l : List.find f l = head (retain f l).
Proof. induction l as [|a l IH]; [done|]. cbn. by destruct (f a). Qed.

Lemma position_lookup m l i : NoDup l → l !! i = Some m → position m l = Some i.
Proof.
  revert i. induction l as [|a l IH]; intros [|i] Hn Hi; try done; apply NoDup_cons in Hn as [Ha Hn]; cbn in *.
  - simplify_eq. by rewrite decide_True.
  - rewrite decide_False by (intros ->; apply Ha; by eapply list_elem_of_lookup_2). by rewrite (IH i).
Qed.

Lemma modalities_bound (l : list Modality) : NoDup l → (length l ≤ 8)%nat.
Proof.
  intros Hn. apply (submseteq_length l DEFAULT_AUTHORITY_ORDER), NoDup_submseteq; [done|].
  intros [] _; repeat (apply elem_of_cons; (by left) || right).
Qed.

Definition weight_of (n i : nat) : f64 := f64_sub (f64_of_usize n) (f64_of_usize i).

(** Checked for all rankings of at most eight modalities. *)
Lemma weight_decreases n i j : (i < j)%nat → (j < n)%nat → (n ≤ 8)%nat → f64_ltb (weight_of n j) (weight_of n i) = true.
Proof.
  intros Hi Hj Hn.
  assert (forallb (λ n, forallb (λ j, forallb (λ i, f64_ltb (weight_of n j) (weight_of n i)) (seq 0 j)) (seq 0 n)) (seq 0 9) = true)
    as Hall by (vm_compute; reflexivity).
  rewrite forallb_forall in Hall. specialize (Hall n). rewrite in_seq in Hall. specialize (Hall ltac:(lia)).
  rewrite forallb_forall in Hall. specialize (Hall j). rewrite in_seq in Hall. specialize (Hall ltac:(lia)).
  rewrite forallb_forall in Hall. specialize (Hall i). rewrite in_seq in Hall. apply Hall. lia.
Qed.

Lemma authority_weight_lookup c m i :
  NoDup (authority_order c) → authority_order c !! i = Some m →
  authority_weight c m = weight_of (length (authority_order c)) i.
Proof. intros Hn Hi. unfold authority_weight. by rewrite (position_lookup m _ i). Qed.

Definition outranks c m k : Prop := f64_ltb (authority_weight c k) (authority_weight c m) = true.

Lemma ranking_sorted c : NoDup (authority_order c) → StronglySorted (outranks c) (authority_order c).
Proof.
  intros Hn. assert (∀ l pre, authority_order c = (pre ++ l)%list → StronglySorted (outranks c) l) as Hs; [|by apply (Hs _ [])].
  induction l as [|a l IH]; intros pre E; constructor.
  - apply (IH (pre ++ [a])%list). by rewrite <- app_assoc.
  - apply Forall_forall. intros b [j Hj]%list_elem_of_lookup. unfold outranks.
    assert (Ha : authority_order c !! length pre = Some a) by (rewrite E; by apply list_lookup_middle).
    assert (Hb : authority_order c !! (length pre + S j)%nat = Some b).
    { rewrite E, lookup_app_r by lia. by replace (length pre + S j - length pre)%nat with (S j) by lia. }
    rewrite (authority_weight_lookup c a _ Hn Ha), (authority_weight_lookup c b _ Hn Hb).
    apply weight_decreases; [lia|by eapply lookup_lt_Some|by apply modalities_bound].
Qed.

Lemma ranked_head c f m :
  NoDup (authority_order c) → List.find f (authority_order c) = Some m →
  ∃ rest, retain f (authority_order c) = m :: rest ∧ Forall (outranks c m) rest.
Proof.
  intros Hn. rewrite find_retain. pose proof (StronglySorted_retain _ f _ (ranking_sorted c Hn)) as Hsub.
  destruct (retain f (authority_order c)) as [|a rest]; [done|]. intros [= ->]. exists rest. split; [done|]. by apply StronglySorted_inv in Hsub as [_ ?].
Qed.

(** ** The queue and the audit trail *)

Inductive engine_op :=
| ORegenerate now o m x
| OResolve (entity : string) m
| ODrain.

(** The engine and the items handed out so far; a panic leaves the engine as it was reached. *)
Definition run_engine (st : RegenerationEngine * list PendingNormalization) (op : engine_op) :
    RegenerationEngine * list PendingNormalization :=
  let '(e, out) := st in
  match op with
  | ORegenerate now o m x => ((regenerate now o m x e).1, out)
  | OResolve entity m =>
      let '(e', r) := resolve_item entity m e in
      (e', out ++ match r with Ok (Some p) => [p] | _ => [] end)
  | ODrain => let '(e', r) := drain_queue e in (e', out ++ match r with Ok l => l | Err _ => [] end)
  end.

Lemma resolve_pending_perm entity m q :
  let '(q', r) := resolve_pending entity m q in q ≡ₚ q' ++ option_list r.
Proof.
  induction q as [|p q IH]; [constructor|]. cbn [resolve_pending]. destruct (pending_for entity m p); [apply Permutation_cons_append|].
  destruct (resolve_pending entity m q) as [q' r]. cbn. by rewrite IH.
Qed.

Definition accounted (st : RegenerationEngine * list PendingNormalization) : Prop :=
  event_key <$> retain escalated (events st.1) ≡ₚ item_key <$> (queue st.1 ++ st.2).

Lemma run_engine_accounted st op : accounted st → accounted (run_engine st op).
Proof.
  destruct st as [e out]. unfold accounted. cbn [fst snd]. intros Ha. destruct op as [now o m x|entity m|]; cbn.
  - generalize (regenerate_cases now o m x e). destruct (regenerate now o m x e) as [e' r]. cbn [fst].
    intros (evs & its & -> & -> & Hk). rewrite retain_app, fmap_app, Ha, Hk, <- fmap_app.
    apply fmap_Permutation. rewrite <- !app_assoc. apply Permutation_app_head, Permutation_app_comm.
  - unfold resolve_item. pose proof (resolve_pending_perm entity m (queue e)) as Hp.
    destruct (resolve_pending entity m (queue e)) as [q r]. cbn. rewrite Ha, Hp, <- app_assoc.
    apply fmap_Permutation, Permutation_app_head. destruct r; cbn; [|by rewrite app_nil_r]. apply Permutation_cons_append.
  - rewrite Ha. apply fmap_Permutation, Permutation_app_comm.
Qed.

(** Nothing escalated is lost.  However regenerations, manual resolutions
    and drains follow each other, the audit trail only grows, and the calls it records as left to a
    human are, one for one, the items that are still queued or were handed out. *)
Theorem escalations_accounted c r ops :
  let st0 := (with_regenerator c r, []) in
  let '(e, out) := foldl run_engine st0 ops in
  event_key <$> retain escalated (events e) ≡ₚ item_key <$> (queue e ++ out) ∧
  ∀ op, ∃ evs, events (run_engine (e, out) op).1 = events e ++ evs.
Proof.
  cbv zeta. assert (Ha : accounted (foldl run_engine (with_regenerator c r, []) ops)).
  { induction ops as [|op ops IH] using rev_ind; [by unfold accounted|]. rewrite foldl_app. by apply run_engine_accounted. }
  destruct (foldl _ _ _) as [e out]. split; [exact Ha|]. intros [now o m x|entity m|]; cbn.
  - generalize (regenerate_cases now o m x e). destruct (regenerate now o m x e) as [e' r']. cbn [fst].
    intros (evs & _ & -> & _). by exists evs.
  - unfold resolve_item. destruct (resolve_pending entity m (queue e)). exists []. by rewrite app_nil_r.
  - exists []. by rewrite app_nil_r.
Qed.

End engine.
