(* ===== verification/StorageRegenerator.v ===== *)
(** The regenerator that writes to the octad store
    (verisim-normalizer/src/storage_regenerator.rs): content fingerprints in
    place of embeddings, keywords, merging, and the measure of drift.

    It uses one operation of the store, [update], which is an interface here.
    Taking a fingerprint in zero dimensions panics ([% dim]). *)

From S2P Require Import Prelude Machine Text Collections Float64 Format WalEntry OctadTypes Conflict Regeneration.
From S2P Require PlanCache Drift.

Local Open Scope string_scope.
Local Open Scope Z_scope.

(** ** External code *)

(** The debug text of a provenance record, and a set's elements in some order
    is not needed: sets are only counted. *)
Class DebugProvenance := debug_provenance : SemProvenance → string.

(** What [update] of the octad store does ([Arc<dyn OctadStore>]). *)
Class OctadUpdates `{Chrono} := {
  UStore : Type;
  u_update : string → OctadInput → SR UStore OctadError Octad;
}.

(** ** Fingerprints *)

Definition FNV_OFFSET : Z := 0xcbf29ce484222325.
Definition FNV_PRIME : Z := 0x100000001b3.

Definition fnv1a (window : list byte) : Z :=
  foldl (λ h b, wrap 64 (Z.lxor h (Z_of_byte b) * FNV_PRIME)) FNV_OFFSET window.

(** The overlapping windows of the loop: all of length [min 3 len]. *)
Definition windows (bytes : list byte) : list (list byte) :=
  let w := Nat.min 3 (length bytes) in
  (λ i, take w (drop i bytes)) <$> seq 0 (S (length bytes - w)).

Definition f32_zero : f32 := S754_zero false.
Definition f32_one : f32 := f32_of_u64 1.
Definition f32_norm (v : list f32) : f32 := f32_sqrt (f32_sum ((λ x, f32_mul x x) <$> v)).

(** [if norm > 0.0 { *v /= norm }]. *)
Definition l2_normalize (v : list f32) : list f32 :=
  let norm := f32_norm v in
  if SFltb f32_zero norm then (λ x, f32_div x norm) <$> v else v.

Definition bucket (dim : nat) (w : list byte) : nat := Z.to_nat (fnv1a w mod Z.of_nat dim).

(** [embedding[idx] += 1.0]. *)
Definition bump (dim : nat) (v : list f32) (w : list byte) : list f32 := alter (λ x, f32_add x f32_one) (bucket dim w) v.

Definition bucket_counts (text : string) (dim : nat) : list f32 :=
  foldl (bump dim) (replicate dim f32_zero) (windows (as_bytes text)).

(** [None]: the remainder by zero panics. *)
Definition text_to_embedding (text : string) (dim : nat) : option (list f32) :=
  if String.eqb text "" then Some (replicate dim f32_zero)
  else if (dim =? 0)%nat then None
  else Some (l2_normalize (bucket_counts text dim)).

(** ** Keywords *)

Section keywords.
Context `{UnicodeCase} `{PlanCache.CharClass} `{MapIter}.

(** [chars().filter(is_alphanumeric).collect().to_lowercase()]. *)
Definition clean_word (w : string) : string := str_lower (cat (retain PlanCache.is_alphanumeric (PlanCache.chars w))).

Definition is_keyword (w : string) : bool := (3 <? String.length w)%nat.

(** [*freq.entry(clean).or_insert(0) += 1]. *)
Definition count_word (freq : gmap string Z) (w : string) : gmap string Z :=
  <[w := default 0 (freq !! w) + 1]> freq.

Definition words (text : string) : list string := retain is_keyword (clean_word <$> PlanCache.split_whitespace text).

Definition frequencies (text : string) : gmap string Z := foldl count_word ∅ (words text).

(** [sort_by(|a, b| b.1.cmp(&a.1))] is stable, on the order the map is iterated in. *)
Definition extract_keywords (text : string) (max_keywords : nat) : list string :=
  (take max_keywords (sort_by (λ a b : string * Z, b.2 <? a.2) (map_iter (frequencies text)))).*1.

Definition keyword_types (keywords : list string) : list string := (λ k, cat ["keyword:"; k]) <$> keywords.

End keywords.

(** ** Similarity *)

Definition sum_squares (a : list f32) : f64 :=
  f64_sum ((λ x, f64_mul (Drift.f64_of_f32 x) (Drift.f64_of_f32 x)) <$> a).

Definition cosine_similarity (a b : list f32) : f64 :=
  if negb (length a =? length b)%nat || (length a =? 0)%nat then f64_zero
  else
    let dot := f64_sum (zip_with (λ x y, f64_mul (Drift.f64_of_f32 x) (Drift.f64_of_f32 y)) a b) in
    let norm_a := f64_sqrt (sum_squares a) in
    let norm_b := f64_sqrt (sum_squares b) in
    if SFeqb norm_a f64_zero || SFeqb norm_b f64_zero then f64_zero else f64_div dot (f64_mul norm_a norm_b).

(** ** Regeneration over the store *)

(** A method body: it panics, or returns an error early. *)
Abbreviation Fault := (Panic + NormalizerError)%type.

Definition catch {S A} (m : SR S Fault A) : SR S Panic (result NormalizerError A) := λ s,
  match m s with
  | (s, Ok a) => (s, Ok (Ok a))
  | (s, Err (inl p)) => (s, Err p)
  | (s, Err (inr e)) => (s, Ok (Err e))
  end.

Definition unwrap_or_panic {S A} (o : option A) : SR S Fault A := sr_read (λ _, ok_or o (inl panicked)).
Definition require {S A} (o : option A) (e : NormalizerError) : SR S Fault A := sr_read (λ _, ok_or o (inr e)).

Definition EMBEDDING_DIM : nat := 384.

Section storage.
Context `{Chrono} `{FmtF64} `{UnicodeCase} `{PlanCache.CharClass} `{MapIter} `{DebugProvenance} `{U : !OctadUpdates}.

Abbreviation WM := (SR UStore Fault).

Definition write_back (o : Octad) (input : OctadInput) : WM unit := λ s,
  match u_update (oc_id o) input s with
  | (s, Ok _) => (s, Ok ())
  | (s, Err e) => (s, Err (inr (StorageError (octad_error_display e))))
  end.

Definition document_text (o : Octad) : option string := (λ d, cat [title d; " "; body d]) <$> oc_document o.
Definition joined_types (s : SemanticAnnotation) : string := String.concat " " (types s).

(** [OctadInput { field, ..Default::default() }]. *)
Definition vector_input (e : list f32) (model : string) : OctadInput :=
  mkInput None (Some (mkVectorInput e (Some model))) None None None None None None ∅.
Definition semantic_input (ts : list string) : OctadInput :=
  mkInput None None None (Some (mkSemanticInput ts ∅)) None None None None ∅.
Definition graph_input (r : list (string * string)) : OctadInput :=
  mkInput (Some (mkGraphInput r)) None None None None None None None ∅.
Definition document_input (title body : string) : OctadInput :=
  mkInput None None None None (Some (mkDocumentInput title body ∅)) None None None ∅.

Definition regenerate_pair (o : Octad) (src tgt : Modality) : WM string :=
  match src, tgt with
  | Document, Vector =>
      text ← require (document_text o) (MissingModality "Document");
      embedding ← unwrap_or_panic (text_to_embedding text EMBEDDING_DIM);
      write_back o (vector_input embedding "fnv1a-trigram-384");;
      mret (cat ["Regenerated Vector (dim="; fmt_u64 384; ") from Document (len="; fmt_u64 (strlen text); ")"])
  | Document, Semantic =>
      text ← require (document_text o) (MissingModality "Document");
      let ts := keyword_types (extract_keywords text 10) in
      write_back o (semantic_input ts);;
      mret (cat ["Regenerated Semantic ("; fmt_u64 (veclen ts); " types) from Document (len="; fmt_u64 (strlen text); ")"])
  | Document, Graph =>
      text ← require (document_text o) (MissingModality "Document");
      let r := (λ t, ("mentions", t)) <$> keyword_types (extract_keywords text 5) in
      write_back o (graph_input r);;
      mret (cat ["Regenerated Graph ("; fmt_u64 (veclen r); " edges) from Document"])
  | Semantic, Vector =>
      sem ← require (oc_semantic o) (MissingModality "Semantic");
      embedding ← unwrap_or_panic (text_to_embedding (joined_types sem) EMBEDDING_DIM);
      write_back o (vector_input embedding "fnv1a-trigram-384");;
      mret (cat ["Regenerated Vector from Semantic ("; fmt_u64 (veclen (types sem)); " types)"])
  | Semantic, Document =>
      sem ← require (oc_semantic o) (MissingModality "Semantic");
      let body := cat ["Types: "; String.concat ", " (types sem); newline; "Provenance: "; debug_provenance (ann_provenance sem)] in
      write_back o (document_input "[regenerated from semantic]" body);;
      mret (cat ["Regenerated Document (len="; fmt_u64 (strlen body); ") from Semantic"])
  | Graph, Document =>
      g ← require (graph_node o) (MissingModality "Graph");
      let body := cat ["Node: "; iri g; " ("; local_name g; ")"] in
      write_back o (document_input "[regenerated from graph]" body);;
      mret (cat ["Regenerated Document (len="; fmt_u64 (strlen body); ") from Graph"])
  | Graph, Semantic =>
      g ← require (graph_node o) (MissingModality "Graph");
      let ts := [cat ["graph:"; iri g]] in
      write_back o (semantic_input ts);;
      mret (cat ["Regenerated Semantic ("; fmt_u64 (veclen ts); " types) from Graph"])
  | _, _ =>
      mret (cat ["Passthrough regeneration: "; modality_display tgt; " from "; modality_display src;
                 " ["; summary_or_empty src o; "]"])
  end.

(** *** Merging *)

Definition mergeable_text (o : Octad) (m : Modality) : option string :=
  match m with
  | Document => document_text o
  | Semantic => joined_types <$> oc_semantic o
  | Graph => (λ g, cat [iri g; " "; local_name g]) <$> graph_node o
  | _ => None
  end.

(** [f64 as f32]: rounded to the nearest. *)
Definition f32_of_f64 (x : f64) : f32 :=
  match x with
  | S754_finite s m e => binary_normalize 24 128 (if s then Zneg m else Zpos m) e s
  | _ => x
  end.

(** [merged[i] += v * (weight as f32)] for the entries of [emb]. *)
Definition add_weighted (w : f64) (merged emb : list f32) : list f32 :=
  zip_with (λ a v, f32_add a (f32_mul v (f32_of_f64 w))) merged emb.

Definition merge_step (o : Octad) (acc : list f32 * f64) (p : Modality * f64) : option (list f32 * f64) :=
  match mergeable_text o p.1 with
  | Some text =>
      emb ← text_to_embedding text EMBEDDING_DIM;
      Some (add_weighted p.2 acc.1 emb, f64_add acc.2 p.2)
  | None => Some acc
  end.

Definition merge_embeddings (o : Octad) (sources : list (Modality * f64)) : option (list f32 * f64) :=
  acc ← foldl (λ acc p, acc ← acc; merge_step o acc p) (Some (replicate EMBEDDING_DIM f32_zero, f64_zero)) sources;
  Some (if f64_ltb f64_zero acc.2 then l2_normalize acc.1 else acc.1, acc.2).

Definition merge_types (o : Octad) (m : Modality) : list string :=
  match m with
  | Document => from_option (λ text, keyword_types (extract_keywords text 5)) [] (document_text o)
  | Graph => from_option (λ g, [cat ["graph:"; iri g]]) [] (graph_node o)
  | Semantic => from_option types [] (oc_semantic o)
  | _ => []
  end.

(** [Vec::dedup]: repeated neighbours go. *)
Fixpoint dedup (l : list string) : list string :=
  match l with
  | [] => []
  | x :: l' => match l' with y :: _ => if String.eqb x y then dedup l' else x :: dedup l' | [] => [x] end
  end.

(** [iter().max_by(partial_cmp or Equal)]: the last of the largest. *)
Definition heavier (best p : Modality * f64) : Modality * f64 := if f64_ltb p.2 best.2 then best else p.
Definition heaviest (sources : list (Modality * f64)) : option (Modality * f64) :=
  match sources with [] => None | p :: l => Some (foldl heavier p l) end.

Definition merge_pair (o : Octad) (sources : list (Modality * f64)) (tgt : Modality) : WM string :=
  match tgt with
  | Vector =>
      r ← unwrap_or_panic (merge_embeddings o sources);
      write_back o (vector_input r.1 "fnv1a-trigram-384-merged");;
      mret (cat ["Merged "; fmt_u64 (veclen sources); " sources (total weight="; fmt_fixed 2 r.2; ") into Vector (dim="; fmt_u64 384; ")"])
  | Semantic =>
      let ts := dedup (sort_strings (mjoin (merge_types o <$> sources.*1))) in
      write_back o (semantic_input ts);;
      mret (cat ["Merged "; fmt_u64 (veclen sources); " sources into Semantic ("; fmt_u64 (veclen ts); " types)"])
  | _ =>
      match heaviest sources with
      | Some (src, _) => regenerate_pair o src tgt
      | None => sr_fail (inr (NoViableSource (cat ["No sources provided for merge into "; modality_display tgt])))
      end
  end.

(** *** Measuring *)

Definition one_minus (x : f64) : f64 := f64_max (f64_sub f64_one x) f64_zero.

Definition vector_drift (o : Octad) : option f64 :=
  match document_text o, oc_embedding o with
  | Some text, Some stored =>
      expected ← text_to_embedding text (length (vector stored));
      Some (one_minus (cosine_similarity expected (vector stored)))
  | _, _ => Some (f64_lit 5 10)
  end.

Definition semantic_drift (o : Octad) : f64 :=
  match document_text o, oc_semantic o with
  | Some text, Some sem =>
      let expected : gset string := list_to_set (keyword_types (extract_keywords text 10)) in
      let stored : gset string := list_to_set (types sem) in
      if (size expected =? 0)%nat && (size stored =? 0)%nat then f64_zero
      else
        let union := size (expected ∪ stored) in
        let jaccard := if (0 <? union)%nat
                       then f64_div (f64_of_usize (size (expected ∩ stored))) (f64_of_usize union) else f64_zero in
        one_minus jaccard
  | _, _ => f64_lit 5 10
  end.

Definition presence (b : bool) (missing : f64) : f64 := if b then f64_zero else missing.

Definition drift_of (o : Octad) (m : Modality) : option f64 :=
  match m with
  | Vector => vector_drift o
  | Semantic => Some (semantic_drift o)
  | Document => Some (presence (is_present_on Document o) f64_one)
  | Graph => Some (presence (is_present_on Graph o) (f64_lit 8 10))
  | Provenance => Some (presence (is_present_on Provenance o) (f64_lit 6 10))
  | Temporal => Some (presence (is_present_on Temporal o) (f64_lit 3 10))
  | Spatial => Some (presence (is_present_on Spatial o) (f64_lit 5 10))
  | Tensor => Some (f64_lit 1 10)
  end.

#[export] Instance StorageRegenerator : ModalityRegenerator := {|
  RegenState := UStore;
  regenerate_from o src tgt := catch (regenerate_pair o src tgt);
  merge_into o sources tgt := catch (merge_pair o sources tgt);
  measure_drift o m := catch (unwrap_or_panic (drift_of o m));
|}.

End storage.
