(* ===== verification/StorageRegenTheorems.v ===== *)
(** Properties of the storage-backed regenerator: what a fingerprint depends
    on, which keywords are extracted, that merging follows the most
    authoritative source, and what a reported repair does not tell. *)

From S2P Require Import Prelude Machine Text Collections Float64 Format WalEntry OctadTypes Conflict Regeneration StorageRegenerator.
From S2P Require PlanCache Drift.

Local Open Scope string_scope.
Local Open Scope Z_scope.

(** ** Fingerprints *)

(** How often [+= 1.0] hits bucket [i]. *)
Definition hits (dim i : nat) (ws : list (list byte)) : nat := length (retain (λ w, (bucket dim w =? i)%nat) ws).
Definition tally (n : nat) : f32 := Nat.iter n (λ x, f32_add x f32_one) f32_zero.

Lemma bump_length dim v w : length (bump dim v w) = length v.
Proof. apply length_alter. Qed.

Lemma bumps_length dim ws v : length (foldl (bump dim) v ws) = length v.
Proof. revert v. induction ws as [|w ws IH]; intros v; [done|]. cbn [foldl]. by rewrite IH, bump_length. Qed.

Lemma bumps_lookup dim i ws v x :
  v !! i = Some x → foldl (bump dim) v ws !! i = Some (Nat.iter (hits dim i ws) (λ x, f32_add x f32_one) x).
Proof.
  revert v x. induction ws as [|w ws IH]; intros v x Hv; [done|]. cbn [foldl]. unfold hits. cbn [retain].
  destruct (Nat.eqb_spec (bucket dim w) i) as [E|E].
  - cbn [length]. rewrite Nat.iter_succ_r. apply IH. unfold bump. by rewrite E, list_lookup_alter_eq, Hv.
  - apply IH. unfold bump. by rewrite list_lookup_alter_ne.
Qed.

Lemma bucket_counts_lookup text dim i :
  (i < dim)%nat → bucket_counts text dim !! i = Some (tally (hits dim i (windows (as_bytes text)))).
Proof. intros Hi. apply bumps_lookup. by apply lookup_replicate_2. Qed.

#[export] Instance hits_perm dim i : Proper ((≡ₚ) ==> eq) (hits dim i).
Proof. intros l k E. unfold hits. by rewrite E. Qed.

(** What a fingerprint is.  Outside the two special cases -- the empty
    text gives zeros, any other text in no dimensions panics -- the fingerprint is the
    normalised vector of the numbers of overlapping three-byte windows that hash to each
    position; so it depends on the text only through the multiset of its windows. *)
Theorem fingerprint_counts text dim :
  text_to_embedding "" dim = Some (replicate dim f32_zero) ∧
  (text ≠ "" → text_to_embedding text 0 = None) ∧
  (text ≠ "" → dim ≠ 0%nat →
    text_to_embedding text dim = Some (l2_normalize ((λ i, tally (hits dim i (windows (as_bytes text)))) <$> seq 0 dim)) ∧
    ∀ text', text' ≠ "" → windows (as_bytes text') ≡ₚ windows (as_bytes text) →
      text_to_embedding text' dim = text_to_embedding text dim).
Proof.
  assert (Hc : ∀ t, bucket_counts t dim = (λ i, tally (hits dim i (windows (as_bytes t)))) <$> seq 0 dim).
  { intros t. apply list_eq. intros i. rewrite list_lookup_fmap. destruct (decide (i < dim)%nat) as [Hi|Hi].
    - by rewrite bucket_counts_lookup, lookup_seq_lt by done.
    - rewrite !lookup_ge_None_2; [done|rewrite length_seq; lia|]. unfold bucket_counts.
      rewrite bumps_length, length_replicate. lia. }
  split; [done|]. split.
  - intros Ht. unfold text_to_embedding. by rewrite (proj2 (String.eqb_neq text "") Ht).
  - intros Ht Hd. unfold text_to_embedding. rewrite (proj2 (String.eqb_neq text "") Ht), (proj2 (Nat.eqb_neq _ _) Hd).
    split; [by rewrite Hc|]. intros t' Ht' Hw. rewrite (proj2 (String.eqb_neq t' "") Ht'), !Hc. do 2 f_equal.
    apply list_fmap_ext. intros i x _. by rewrite Hw.
Qed.

(** ** Keywords *)

Section keywords.
Context `{UnicodeCase} `{PlanCache.CharClass} `{I : MapIter} `{!MapIterLaws I}.

(** The number of occurrences of a word. *)
Definition occurrences (w : string) (ws : list string) : Z := Z.of_nat (length (retain (String.eqb w) ws)).

Lemma count_words_lookup ws freq w :
  (∀ x n, freq !! x = Some n → 0 < n) →
  foldl count_word freq ws !! w =
    (let n := default 0 (freq !! w) + occurrences w ws in if 0 <? n then Some n else None).
Proof.
  revert freq. induction ws as [|x ws IH]; intros freq Hpos.
  - cbn. rewrite Z.add_0_r. destruct (freq !! w) as [n|] eqn:E; cbn; [|done].
    by rewrite (proj2 (Z.ltb_lt 0 n) (Hpos _ _ E)).
  - cbn [foldl]. rewrite IH.
    + unfold count_word, occurrences. cbn [retain]. destruct (String.eqb_spec w x) as [->|E].
      * rewrite lookup_insert_eq. cbn [length]. rewrite Nat2Z.inj_succ. cbv zeta.
        change (default 0 (Some (default 0 (freq !! x) + 1))) with (default 0 (freq !! x) + 1).
        by rewrite <- Z.add_assoc, (Z.add_comm 1), Z.add_1_r.
      * by rewrite lookup_insert_ne.
    + intros y n. unfold count_word. destruct (decide (x = y)) as [->|E].
      * rewrite lookup_insert_eq. intros [= <-]. destruct (freq !! y) eqn:F; cbn; [apply Hpos in F; lia|lia].
      * rewrite lookup_insert_ne by done. apply Hpos.
Qed.

Lemma frequencies_lookup text w n :
  frequencies text !! w = Some n ↔ n = occurrences w (words text) ∧ w ∈ words text.
Proof.
  unfold frequencies. rewrite count_words_lookup by (intros x k; by rewrite lookup_empty).
  rewrite lookup_empty. cbn. rewrite Z.add_0_l.
  assert (0 < occurrences w (words text) ↔ w ∈ words text) as Hw.
  { unfold occurrences. split.
    - intros Hl. destruct (retain (String.eqb w) (words text)) as [|y l] eqn:E; [cbn in Hl; lia|].
      assert (y ∈ retain (String.eqb w) (words text)) as Hy by (rewrite E; by left).
      apply elem_of_retain in Hy as [Hy ->%String.eqb_eq]. done.
    - intros Hin. assert (w ∈ retain (String.eqb w) (words text)) as Hy
        by (apply elem_of_retain; split; [done|by apply String.eqb_eq]).
      destruct (retain _ _); [by apply elem_of_nil in Hy|cbn; lia]. }
  destruct (Z.ltb_spec 0 (occurrences w (words text))) as [Hl|Hl].
  - split; [intros [= <-]; by rewrite <- Hw|by intros [-> _]].
  - split; [done|]. intros [_ Hin%Hw]. lia.
Qed.

Definition more_frequent (a b : string * Z) : Prop := b.2 ≤ a.2.

Lemma best_keywords text n :
  best more_frequent n (map_to_list (frequencies text))
    (take n (sort_by (λ a b : string * Z, b.2 <? a.2) (map_iter (frequencies text)))).
Proof.
  eapply best_perm; [apply (map_iter_perm (I:=I))|]. apply best_take; [apply sort_by_perm|].
  apply (sort_by_sorted _ (λ _, True)); unfold more_frequent; [lia|intros; lia|intros; lia|by apply Forall_true].
Qed.

(** The most frequent words.  Whatever order the hash map is iterated in,
    the keywords are different words of the text of more than three bytes, as many as asked
    for or as there are, in order of falling frequency, and no word left
    out occurs more often than one returned. *)
Theorem extract_keywords_best text n :
  let ks := extract_keywords text n in
  let occ w := occurrences w (words text) in
  NoDup ks ∧ length ks = (n `min` size (list_to_set (words text) : gset string))%nat ∧
  StronglySorted (λ a b, occ b ≤ occ a) ks ∧
  (∀ k, k ∈ ks → k ∈ words text ∧ (3 < String.length k)%nat) ∧
  (∀ k w, k ∈ ks → w ∈ words text → w ∉ ks → occ w ≤ occ k).
Proof.
  cbv zeta. destruct (best_keywords text n) as (Hlen & Hs & rest & Hp & Hr). unfold extract_keywords.
  set (l := take n _) in *.
  assert (Hocc : ∀ p, p ∈ (l ++ rest)%list → p.2 = occurrences p.1 (words text) ∧ p.1 ∈ words text).
  { intros [w k] Hin. rewrite <- Hp in Hin. apply elem_of_map_to_list in Hin. by apply frequencies_lookup. }
  assert (Hnd : NoDup ((l ++ rest)%list).*1).
  { eapply NoDup_Permutation_proper; [|apply (NoDup_fst_map_to_list (frequencies text))]. by rewrite Hp. }
  split_and!.
  - rewrite fmap_app in Hnd. by apply NoDup_app in Hnd as [? _].
  - rewrite length_fmap, Hlen. f_equal. rewrite length_map_to_list, <- size_dom. f_equal. apply set_eq. intros w.
    rewrite elem_of_dom, elem_of_list_to_set. split.
    + intros [k [_ Hw]%frequencies_lookup]. done.
    + intros Hw. exists (occurrences w (words text)). by apply frequencies_lookup.
  - clear Hlen Hp Hr Hnd. induction Hs as [|p l' Hs IH Hx]; cbn; constructor.
    + apply IH. intros q Hq. apply Hocc. cbn. by right.
    + apply Forall_forall. intros w ([w' k] & -> & Hq)%list_elem_of_fmap. rewrite Forall_forall in Hx.
      specialize (Hx _ Hq). unfold more_frequent in Hx.
      destruct (Hocc p) as [Ep _]; [cbn; by left|]. destruct (Hocc (w', k)) as [Eq _]; [cbn; right; apply elem_of_app; by left|].
      cbn in *. congruence.
  - intros k ([w c] & -> & Hq)%list_elem_of_fmap. destruct (Hocc (w, c)) as [_ Hw]; [apply elem_of_app; by left|].
    split; [done|]. unfold words in Hw. apply elem_of_retain in Hw as [_ Hk]. by apply Nat.ltb_lt in Hk.
  - intros k w ([k' c] & -> & Hq)%list_elem_of_fmap Hw Hno.
    assert ((w, occurrences w (words text)) ∈ rest) as Hin.
    { assert ((w, occurrences w (words text)) ∈ (l ++ rest)%list) as Hin.
      { rewrite <- Hp. apply elem_of_map_to_list. by apply frequencies_lookup. }
      apply elem_of_app in Hin as [Hin|]; [|done]. exfalso. apply Hno. by apply (list_elem_of_fmap_2 fst) in Hin. }
    specialize (Hr _ _ Hq Hin). destruct (Hocc (k', c)) as [Ek _]; [apply elem_of_app; by left|].
    unfold more_frequent in Hr. cbn in *. lia.
Qed.

End keywords.

(** ** Repairs *)

Section repairs.
Context `{Chrono} `{FmtF64} `{UnicodeCase} `{PlanCache.CharClass} `{MapIter} `{DebugProvenance} `{U : !OctadUpdates}.
Implicit Types (e : RegenerationEngine) (o : Octad) (m k : Modality) (x : f64) (now : RegenClock).

Lemma heavier_first p l : Forall (λ q, f64_ltb q.2 p.2 = true) l → foldl heavier p l = p.
Proof. induction 1 as [|q l Hq _ IH]; [done|]. cbn [foldl]. unfold heavier at 2. by rewrite Hq. Qed.

Lemma heaviest_source c o m src :
  NoDup (authority_order c) → List.find (usable o m) (authority_order c) = Some src →
  heaviest (merge_sources o m c) = Some (src, authority_weight c src).
Proof.
  intros Hn Hf. destruct (ranked_head c _ _ Hn Hf) as (rest & Hr & Ho). unfold merge_sources. rewrite Hr. cbn.
  rewrite heavier_first; [done|]. by apply Forall_fmap.
Qed.

(** Merging follows authority.  For every drifted modality other than the
    vector and the semantic annotations, the strategy Merge does to the store exactly what
    the strategy FromAuthoritative does, and repairs exactly when it does: all sources but the
    most authoritative are ignored. *)
Theorem merge_is_authoritative now o m x e :
  NoDup (authority_order (regen_config e)) → m ≠ Vector → m ≠ Semantic →
  let '(e1, r1) := execute_merge now o m x e in
  let '(e2, r2) := execute_from_authoritative now o m x e in
  regenerator e1 = regenerator e2 ∧ queue e1 = queue e2 ∧
  match r1, r2 with
  | Ok (Repaired a), Ok (Repaired b) => post_drift_score a = post_drift_score b
  | Ok (RegenFailed _), Ok (RegenFailed _) => True
  | Err _, Err _ => True
  | _, _ => False
  end.
Proof.
  intros Hn Hv Hs. unfold execute_merge, execute_from_authoritative. sr_unfold.
  destruct (List.find (usable o m) (authority_order (regen_config e))) as [src|] eqn:Hf.
  - pose proof (heaviest_source _ _ _ _ Hn Hf) as Hh. destruct (merge_sources o m (regen_config e)) as [|p l]; [done|].
    assert (Em : merge_into o (p :: l) m = regenerate_from o src m).
    { change (catch (merge_pair o (p :: l) m) = catch (regenerate_pair o src m)). apply f_equal.
      destruct m; try done; unfold merge_pair; by rewrite Hh. }
    rewrite Em. unfold on_regenerator, sr_zoom.
    destruct (regenerate_from o src m (regenerator e)) as [g [[a|err]|q]]; cbn [fst snd]; [|done..].
    unfold finish_regeneration, on_regenerator, sr_zoom. sr_unfold.
    by destruct (measure_drift o m (regenerator (set_regenerator g e))) as [g' [post|q]].
  - assert (merge_sources o m (regen_config e) = []) as ->; [|done].
    unfold merge_sources. rewrite find_retain in Hf. by destruct (retain _ _).
Qed.

(** A measure reads the octad it is given, never the store. *)
Lemma measure_drift_of o m s :
  measure_drift o m s = (s, match drift_of o m with Some y => Ok (Ok y) | None => Err panicked end).
Proof. cbn. unfold catch, unwrap_or_panic, sr_read. by destruct (drift_of o m). Qed.

(** The score after a repair.  The drift score a repair records as the
    one reached is measured on the octad as it was before the repair: whatever the
    store now holds, a score measured before is measured again. *)
Theorem repaired_score_is_stale now o m x e e' ev :
  regenerate now o m x e = (e', Ok (Repaired ev)) → post_drift_score ev = drift_of o m ∧ is_Some (drift_of o m).
Proof.
  assert (Hfin : ∀ s src answer e0, finish_regeneration now o m x s src answer e0 = (e', Ok (Repaired ev)) →
    post_drift_score ev = drift_of o m ∧ is_Some (drift_of o m)).
  { intros s src answer e0. unfold finish_regeneration. destruct answer as [a|err]; [|done].
    unfold mbind, sr_bind, on_regenerator, sr_zoom. rewrite measure_drift_of.
    destruct (drift_of o m) as [y|]; cbn; [|done]. intros [= _ <-]. by split. }
  unfold regenerate. sr_unfold. destruct (f64_leb x _); [done|].
  destruct (strategy_for (regen_config e) m).
  - unfold execute_from_authoritative. sr_unfold. destruct (List.find _ _) as [src|]; [|done].
    destruct (on_regenerator (regenerate_from o src m) e) as [e0 [answer|p]]; [|done]. apply Hfin.
  - unfold execute_merge. sr_unfold. destruct (merge_sources _ _ _) as [|p l]; [done|].
    unfold mbind, sr_bind. destruct (on_regenerator (merge_into o (p :: l) m) e) as [e0 [answer|q]]; [|done]. apply Hfin.
  - done.
Qed.

(** The pairs of modalities that are implemented. *)
Definition implemented (src tgt : Modality) : bool :=
  match src, tgt with
  | Document, Vector | Document, Semantic | Document, Graph | Semantic, Vector | Semantic, Document
  | Graph, Document | Graph, Semantic => true
  | _, _ => false
  end.

Lemma unimplemented_pair o src tgt s :
  implemented src tgt = false → ∃ msg, regenerate_pair o src tgt s = (s, Ok msg).
Proof. by destruct src, tgt; intros [=]; eexists. Qed.

(** Repairs that write nothing.  With the default configuration, tensor,
    provenance, spatial and temporal drift of an entity that has a document is always
    reported as repaired, and recorded as a success, although nothing is written to
    the store. *)
Theorem default_repairs_write_nothing now o m x e :
  regen_config e = regen_config_default → is_present_on Document o = true →
  m ∈ [Tensor; Provenance; Spatial; Temporal] → f64_leb x (f64_lit 3 10) = false →
  ∃ ev, regenerate now o m x e = (set_events (events e ++ [ev]) e, Ok (Repaired ev)) ∧
    ne_success ev = true ∧ source_modality ev = Some Document.
Proof.
  intros Hc Hd Hm Hx. destruct (drift_of o m) as [y|] eqn:Hy.
  2: { exfalso. set_unfold. destruct_or?; subst; done. }
  assert (Hi : implemented Document m = false) by (set_unfold; by destruct_or?; subst).
  destruct (unimplemented_pair o Document m (regenerator e) Hi) as [msg Hp].
  exists (event_with now o m x FromAuthoritative (Some Document) (Some y) true). split; [|done].
  assert (Hu : usable o m Document = true).
  { unfold usable. rewrite Hd, andb_true_r, negb_true_iff, bool_decide_eq_false. set_unfold. by destruct_or?; subst. }
  unfold regenerate. sr_unfold. rewrite Hc. cbn [drift_threshold regen_config_default].
  rewrite Hx. assert (strategy_for regen_config_default m = FromAuthoritative) as -> by done.
  unfold execute_from_authoritative. sr_unfold. rewrite Hc.
  cbn [authority_order regen_config_default DEFAULT_AUTHORITY_ORDER List.find]. rewrite Hu.
  unfold mbind, sr_bind, on_regenerator, sr_zoom. cbn [regenerate_from StorageRegenerator]. unfold catch. rewrite Hp.
  cbn [fst snd]. unfold finish_regeneration, mbind, sr_bind, on_regenerator, sr_zoom. rewrite measure_drift_of, Hy.
  destruct e. cbn in *. by rewrite Hc.
Qed.

End repairs.

(** ** Witnesses *)

Module Witness.

#[export] Instance ascii_case : UnicodeCase := {| str_lower := map_ascii ascii_lower; str_upper := map_ascii ascii_upper |}.
#[export] Instance letters : PlanCache.CharClass :=
  λ c, match c with String a "" => between 97 122 a || between 65 90 a || between 48 57 a | _ => false end.
#[export] Instance forwards : MapIter := λ A m, map_to_list m.
#[export] Instance forwards_laws : MapIterLaws forwards.
Proof. intros A m. reflexivity. Defined.
Definition backwards : MapIter := λ A m, reverse (map_to_list m).
Lemma backwards_laws : MapIterLaws backwards.
Proof. intros A m. apply reverse_Permutation. Qed.

Definition report : string := "Drift drift DRIFT, repair; repair? the map: other".

Lemma extract_keywords_best_witness :
  extract_keywords report 2 = ["drift"; "repair"] ∧ NoDup (extract_keywords report 2).
Proof. split; [vm_compute; reflexivity|]. apply (extract_keywords_best report 2). Defined.

(** Exchanging two stretches of a text between repetitions of "the " keeps the
    multiset of its windows, so the fingerprint: a document that says the
    opposite shows no drift. *)
Definition said : string := "the cat bit the dog and the end".
Definition unsaid : string := "the dog and the cat bit the end".

Theorem rewritten_text_unnoticed :
  said ≠ unsaid ∧ text_to_embedding said EMBEDDING_DIM = text_to_embedding unsaid EMBEDDING_DIM.
Proof. split; [done|]. vm_compute. reflexivity. Qed.

(** Which of equally frequent words become annotations depends on the order in
    which the hash map is iterated, which differs from run to run. *)
Theorem keywords_depend_on_map_order :
  extract_keywords (H1:=forwards) "alpha beta gamma" 1 ≠ extract_keywords (H1:=backwards) "alpha beta gamma" 1.
Proof. vm_compute. discriminate. Qed.

(** A store that accepts every update. *)
#[export] Instance tick : Chrono := {| DateTime := Z; timestamp_millis := λ t, t; timestamp_millis_opt := Some |}.
#[export] Instance fmt : FmtF64 := λ _, "f".
#[export] Instance debug : DebugProvenance := λ _, "p".

Definition some_status : OctadStatus := mkStatus "e" 0 0 None 1 ms_default.
Definition some_octad : Octad :=
  mkOctad "e" some_status (Some (GraphNode_new "x/y")) None None None (Some (Document_new "e" "t" "b")) 1 0 None.

#[export] Instance accepting : OctadUpdates :=
  {| UStore := nat; u_update id i := λ n, (S n, Ok some_octad) |}.

Definition idle : RegenerationEngine := with_regenerator regen_config_default 0%nat.
Definition noon : RegenClock := mkRegenClock 12 12.

Lemma merge_is_authoritative_witness :
  regenerator (execute_merge noon some_octad Graph f64_one idle).1 = 1%nat ∧
  regenerator (execute_from_authoritative noon some_octad Graph f64_one idle).1 = 1%nat.
Proof.
  pose proof (merge_is_authoritative noon some_octad Graph f64_one idle) as Hm.
  destruct (execute_merge noon some_octad Graph f64_one idle) as [e1 r1] eqn:E1.
  destruct (execute_from_authoritative noon some_octad Graph f64_one idle) as [e2 r2] eqn:E2.
  destruct Hm as [Hm _]; [|done|done|].
  - apply (bool_decide_unpack _). vm_compute. exact I.
  - cbn [fst]. rewrite Hm. apply (f_equal (λ p, regenerator p.1)) in E2. cbn [fst] in E2. rewrite <- E2.
    vm_compute. by split.
Defined.

Definition repaired (r : result Panic RegenerationResult) : bool := match r with Ok (Repaired _) => true | _ => false end.

Lemma repaired_score_is_stale_witness :
  match (regenerate noon some_octad Graph f64_one idle).2 with
  | Ok (Repaired ev) => post_drift_score ev = drift_of some_octad Graph
  | _ => False
  end.
Proof.
  destruct (regenerate noon some_octad Graph f64_one idle) as [e' r] eqn:E. destruct r as [[ev| | |]|].
  1: apply (repaired_score_is_stale noon some_octad Graph f64_one idle e' ev E).
  all: exfalso; apply (f_equal (λ p, repaired p.2)) in E; vm_compute in E; discriminate.
Defined.

Lemma default_repairs_write_nothing_witness :
  ∃ ev, regenerate noon some_octad Spatial f64_one idle = (set_events [ev] idle, Ok (Repaired ev)).
Proof.
  destruct (default_repairs_write_nothing noon some_octad Spatial f64_one idle) as (ev & Hr & _).
  - reflexivity.
  - reflexivity.
  - set_solver.
  - vm_compute. reflexivity.
  - exists ev. exact Hr.
Defined.

End Witness.
