(* ===== verification/RegenerationStore.v ===== *)
(** The regeneration engine over the octad store: the update interface of
    [StorageRegenerator] implemented by [OctadStore], and what a repaired
    vector reads back as. *)

From S2P Require Import Prelude Machine Text Collections Float64 Format LockTable Transaction Temporal Provenance WalEntry WalSegment WalReader WalWriter WalTheorems OctadTypes Modalities ModalityStores OctadStore OctadLemmas OctadOutcomes OctadTheorems OctadUpdates.
From S2P Require Import Conflict Regeneration StorageRegenerator StorageRegenTheorems.
From S2P Require PlanCache Drift.

Local Open Scope Z_scope.

Section store.
Context `{C : Chrono} `{K : Crc32} `{SetIter} `{E : !OctadEnv} `{M : !Modalities}.
Context (config : OctadConfig).

(** The store and the environment of the updates still to come. *)
Record Stored := mkStored { calls : nat → Call; octad_store : OctadStore M }.

#[export] Instance octad_updates : OctadUpdates := {|
  UStore := Stored;
  u_update id input s :=
    let '(st, r) := OctadStore.update config (calls s 0) id input (octad_store s) in (mkStored (λ n, calls s (S n)) st, r);
|}.

(** ** What a repaired vector reads back as *)

Context `{!SetIterLaws H} `{!ModalityLaws M}.
Context `{UnicodeCase} `{PlanCache.CharClass} `{MapIter} `{DebugProvenance}.

Lemma process_vector_value id i s s' e :
  process_vector (M:=M) config id i s = (s', Ok e) → e = Embedding_new id (embedding i).
Proof.
  unfold process_vector. case_match; [done|]. intros (s1 & [] & _ & [= _ <-])%sr_bind_Ok. done.
Qed.

(** An update with a vector returns it. *)
Lemma update_vector_value c existing id i v s s' o :
  update_with config existing c id i s = (s', Ok o) → in_vector i = Some v →
  oc_embedding o = Some (Embedding_new id (embedding v)).
Proof.
  unfold update_with. cbv zeta. intros Hc Hv.
  apply sr_bind_Ok in Hc as (s1 & [] & E1 & Hc). apply sr_bind_Ok in Hc as (s2 & T & E2 & Hc).
  apply sr_bind_Ok in Hc as (s3 & [] & E3 & Hc). apply sr_bind_Ok in Hc as (s4 & [w ms] & E4 & Hc).
  apply sr_bind_Ok in Hc as (s5 & ver & E5 & Hc). apply sr_bind_Ok in Hc as (s6 & [] & E6 & Hc).
  apply sr_bind_Ok in Hc as (s7 & [] & E7 & Hc). apply sr_bind_Ok in Hc as (s8 & [] & E8 & Hc).
  injection Hc as _ <-. cbn [octad_of oc_embedding]. unfold write_all_modalities in E4.
  apply sr_bind_Ok in E4 as (t1 & [g m1] & G1 & E4). apply sr_bind_Ok in E4 as (t2 & [e m2] & G2 & E4).
  repeat (apply sr_bind_Ok in E4 as (? & [? ?] & _ & E4)). injection E4 as _ <- _. cbn [w_vector].
  apply write_modality_Ok in G2 as [_ G2]. rewrite Hv in G2. destruct G2 as (emb & s0 & Hp & -> & _).
  by apply process_vector_value in Hp as ->.
Qed.

Implicit Types (e : RegenerationEngine) (x : f64) (now : RegenClock).
Abbreviation stored e := (octad_store (regenerator e)).

Lemma get_id id s o : get config id s = Ok (Some o) → oc_id o = id.
Proof.
  unfold get, load_octad. destruct (octads s !! id); [|done]. intros Hg.
  repeat (apply bind_Ok in Hg as (? & _ & Hg)). by injection Hg as <-.
Qed.

Definition text_of (d : OctadTypes.Document) : string := cat [title d; " "%string; body d].

Lemma text_of_nonempty d : text_of d ≠ ""%string.
Proof. unfold text_of, cat. cbn. by destruct (title d). Qed.

Lemma fingerprint_total d : ∃ v, text_to_embedding (text_of d) EMBEDDING_DIM = Some v.
Proof.
  unfold text_to_embedding. rewrite (proj2 (String.eqb_neq _ _) (text_of_nonempty d)).
  assert ((EMBEDDING_DIM =? 0)%nat = false) as -> by done. by eexists.
Qed.

(** A regeneration of the vector from the document is one update of the store. *)
Lemma vector_pair o d v s :
  oc_document o = Some d → text_to_embedding (text_of d) EMBEDDING_DIM = Some v →
  let '(st, r) := OctadStore.update config (calls s 0) (oc_id o) (vector_input v "fnv1a-trigram-384") (octad_store s) in
  ∃ answer, regenerate_pair o Document Vector s = (mkStored (λ n, calls s (S n)) st, answer) ∧ is_ok answer = is_ok r.
Proof.
  intros Hd Hv. unfold regenerate_pair, document_text. rewrite Hd. cbn [fmap option_fmap option_map].
  unfold require, unwrap_or_panic, sr_read, write_back. sr_unfold. cbn [ok_or].
  change (cat [title d; " "%string; body d]) with (text_of d). rewrite Hv. cbn [ok_or u_update octad_updates].
  destruct (OctadStore.update _ _ _ _ _) as [st [oo|err]]; by eexists.
Qed.

(** The modality stores that a vector update has nothing to write to. *)
Definition other_stores (s : OctadStore M) :=
  (graph_st s, document_st s, tensor_st s, semantic_st s, provenance_st s, spatial_st s).

(** C29 (a repaired vector is stored).  With the default configuration, when
    the vector of a stored entity with a document is reported as repaired, one
    update of the store has happened: reading the entity afterwards gives the
    fingerprint of title and body as its vector; its graph, document, tensor,
    semantic and spatial data and the length of its provenance chain are read back
    as before, and the stores of those six modalities are the same states, so its
    provenance chain and every other entity's data in them are too.  The update
    adds one version: the temporal history has it in front of what it had, and
    the version count read back is the number of the versions then, counted up to a
    thousand.  The recorded score is that of the old vector. *)
Theorem vector_repair_reads_back now o d x e e' ev :
  regen_config e = regen_config_default → get config (oc_id o) (stored e) = Ok (Some o) → oc_document o = Some d →
  temporal_wf (oc_id o) (temporal_st (stored e)) →
  regenerate now o Vector x e = (e', Ok (Repaired ev)) →
  ∃ v o' ver, text_to_embedding (text_of d) EMBEDDING_DIM = Some v ∧
    get config (oc_id o) (stored e') = Ok (Some o') ∧ oc_embedding o' = Some (Embedding_new (oc_id o) v) ∧
    oc_document o' = Some d ∧ graph_node o' = graph_node o ∧ oc_tensor o' = oc_tensor o ∧ oc_semantic o' = oc_semantic o ∧
    provenance_chain_length o' = provenance_chain_length o ∧ spatial_data o' = spatial_data o ∧
    other_stores (stored e') = other_stores (stored e) ∧
    (∀ n, temporal_history (oc_id o) (S n) (temporal_st (stored e')) =
      cons (ver, clock (calls (regenerator e) 0) "temporal") <$> temporal_history (oc_id o) n (temporal_st (stored e))) ∧
    version_count o' = match temporal_history (oc_id o) 1000 (temporal_st (stored e')) with
                       | Ok h => Z.of_nat (length h) | Err _ => 0 end ∧
    post_drift_score ev = vector_drift o.
Proof.
  intros Hc Hget Hd Hwf Hr. destruct (fingerprint_total d) as [v Hv]. exists v.
  pose proof (vector_pair o d v (regenerator e) Hd Hv) as Hp.
  destruct (OctadStore.update _ _ _ _ _) as [st r] eqn:Hu. destruct Hp as (answer & Hp & Hok).
  assert (Hus : List.find (usable o Vector) DEFAULT_AUTHORITY_ORDER = Some Document).
  { cbn. unfold usable at 1. cbn. by rewrite Hd. }
  revert Hr. unfold regenerate. sr_unfold. rewrite Hc. destruct (f64_leb x _); [done|].
  assert (strategy_for regen_config_default Vector = FromAuthoritative) as -> by done.
  unfold execute_from_authoritative. sr_unfold. rewrite Hc. cbn [authority_order regen_config_default]. rewrite Hus.
  unfold on_regenerator, sr_zoom. cbn [regenerate_from StorageRegenerator]. unfold catch at 1 2. rewrite Hp.
  destruct answer as [msg|[q|err]]; cbn [fst snd]; [|done|done].
  unfold finish_regeneration, on_regenerator, sr_zoom. sr_unfold. rewrite measure_drift_of. cbn [drift_of].
  destruct (vector_drift o) as [y|]; cbn [fst snd]; [|done]. intros [= <- <-].
  destruct r as [o1|err]; [|done].
  pose proof Hu as Hread. apply (update_read config) with (old := o) in Hread; [|done..].
  destruct (update_stores _ _ _ _ _ _ _ Hu) as ([Hg _ Hdo Hte Hse Hpr Hsp] & desc & said & ver & Ht).
  pose proof (λ n, temporal_history_append _ _ _ _ _ _ _ _ n Hwf Ht) as Hh.
  eexists _, ver. split; [done|]. split; [exact Hread|]. split_and!; try done.
  - cbn [overlay present in_vector vector_input oc_embedding]. unfold OctadStore.update in Hu.
    apply sr_bind_Ok in Hu as (s0 & existing & _ & Hu). by eapply (update_vector_value _ _ _ _ (mkVectorInput v _)) in Hu.
  - unfold other_stores. cbn. by rewrite Hg, Hdo, Hte, Hse, Hpr, Hsp.
  - cbn. rewrite Hh. by destruct (temporal_history _ 999 _).
Qed.

End store.

(** ** Witness *)

Module Witness.
Import WalTheorems.Example OctadTheorems.Witness.
Import StorageRegenTheorems.Witness (ascii_case, letters, debug).
#[local] Existing Instances ascii_case letters debug.

Definition cfg384 : OctadConfig := OctadStore.mkConfig "https://x" 384 false.
Definition empty_store : OctadStore stores :=
  new Graph.new (Vector.new 384 Vector.Cosine) (Documents.mkDocuments () ∅) ∅ (Semantics.mkSemantics ∅ ∅) ∅ ∅ ∅.
Definition with_doc : OctadStore stores := (create cfg384 c1 doc empty_store).1.

#[export] Instance updates : OctadUpdates := octad_updates cfg384.
Definition engine : RegenerationEngine  := with_regenerator  regen_config_default (mkStored (λ n, call (N.of_nat (S (S n))) "e2") with_doc).
Definition noon : RegenClock := mkRegenClock epoch epoch.

Lemma with_doc_wf : Versions.wf "e1" (temporal_st with_doc).
Proof. apply OctadUpdates.Witness.wf_single. vm_compute. reflexivity. Qed.

Definition repaired (r : result Panic RegenerationResult) : bool := match r with Ok (Repaired _) => true | _ => false end.

Definition entity : Octad :=
  match get cfg384 "e1" with_doc with
  | Ok (Some o) => o
  | _ => mkOctad "" existing None None None None None 0 0 None
  end.

Lemma entity_stored : get cfg384 "e1" with_doc = Ok (Some entity).
Proof.
  unfold entity. destruct (get cfg384 "e1" with_doc) as [[o|]|err] eqn:G; [done|exfalso..];
    apply (f_equal OctadUpdates.Witness.found) in G; vm_compute in G; discriminate.
Qed.

Lemma vector_repair_reads_back_witness :
  ∃ o', get cfg384 "e1" (octad_store (regenerator (regenerate noon entity Vector f64_one engine).1)) = Ok (Some o') ∧
    is_Some (oc_embedding o').
Proof.
  pose proof entity_stored as G. pose proof (get_id cfg384 _ _ _ G) as Hid. rewrite <- Hid in G |- *.
  destruct (oc_document entity) as [d|] eqn:Hd.
  - destruct (regenerate noon entity Vector f64_one engine) as [e' [[ev| | |]|]] eqn:E.
    1: destruct (vector_repair_reads_back cfg384 noon entity d f64_one engine e' ev) as (v & o' & ver & _ & Hg & Hv & _);
      [reflexivity|exact G|exact Hd|rewrite Hid; exact with_doc_wf|exact E|exists o'; rewrite Hv; by split].
    all: exfalso; apply (f_equal (λ p, repaired p.2)) in E; vm_compute in E; discriminate.
  - exfalso. apply (f_equal (λ o, match o with Some _ => true | None => false end)) in Hd. vm_compute in Hd. discriminate.
Defined.

End Witness.
