(* ===== verification/Normalizer.v ===== *)
(** The normalizer (verisim-normalizer/src/lib.rs): strategies chosen by the
    type of a drift event, what each of them proposes for an octad, and the
    engine that runs them and counts.

    A strategy is a trait object; the five of the repository compute their
    answer from the octad, the event and the clock alone.  [handle_drift] updates the status in two
    critical sections, before and after the strategy runs, so it is made of
    two definitions. *)

From S2P Require Import Prelude Machine Text Float64 Format WalEntry OctadTypes Modalities ModalityStores Drift.
From S2P Require Conflict.
From S2P Require Import Regeneration.

Local Open Scope string_scope.
Local Open Scope Z_scope.

(** ** Data *)

Inductive NormalizationType :=
| VectorRegeneration | GraphReconstruction | TemporalRepair | TensorSync | FullReconciliation.

Record NormalizationChange := mkChange {
  ch_modality : string;
  ch_field : string;
  old_value : option string;
  new_value : string;
  ch_reason : string;
}.

Record NormalizerConfig := mkNormConfig {
  auto_normalize : bool;
  max_concurrent : Z;
  min_score : f64;
  failure_backoff_secs : Z;
}.

Definition norm_config_default : NormalizerConfig := mkNormConfig true 10 (f64_lit 3 10) 60.

(** chrono's RFC 3339 text. *)
Class Rfc3339 `{Chrono} := rfc3339 : DateTime → string.

Section normalizer.
Context `{ChronoLeb} `{!Rfc3339}.

Record NormalizationResult := mkNormResult {
  nr_entity_id : string;
  normalization_type : NormalizationType;
  nr_success : bool;
  changes : list NormalizationChange;
  duration_ms : Z;
  completed_at : DateTime;
}.

(** What a strategy reads from the clock: the elapsed time and the instant. *)
Record StrategyClock := mkStrategyClock { elapsed : Z; finished : DateTime }.

(** A trait object. *)
Record NormalizationStrategy := mkStrategy {
  strategy_name : string;
  applies_to : DriftType → bool;
  normalize : StrategyClock → Octad → DriftEvent → result NormalizerError NormalizationResult;
}.

(** ** The strategies *)

Definition push_some {A} (o : option A) (f : A → NormalizationChange) (l : list NormalizationChange) :
    list NormalizationChange :=
  match o with Some a => (l ++ [f a])%list | None => l end.

Definition score_text (event : DriftEvent) : string := fmt_fixed 3 (score event).

Definition cannot (o : Octad) (msg : string) : result NormalizerError NormalizationResult :=
  Err (NormalizationFailed (oc_id o) msg).

Definition dims (v : list f32) : string := fmt_u64 (veclen v).

Definition SemanticVectorStrategy : NormalizationStrategy := mkStrategy "semantic-vector-sync"
  (λ t, match t with SemanticVectorDrift => true | _ => false end)
  (λ now o event,
    match oc_document o, oc_semantic o with
    | None, None => cannot o "Cannot regenerate vector: no document or semantic source available"
    | _, _ =>
        let old := from_option (λ e, cat [dims (vector e); "d vector"]) "none" (oc_embedding o) in
        let l := push_some (oc_document o) (λ d,
          mkChange "vector" "embedding" (Some old) (cat ["regenerate from document '"; title d; "'"])
            (cat ["Semantic-vector drift score "; score_text event; " — document is authoritative source"])) [] in
        let l := push_some (oc_semantic o) (λ s,
          mkChange "vector" "embedding_context" (Some old)
            (cat ["incorporate "; cat [fmt_u64 (veclen (types s)); " semantic types"]])
            "Semantic annotations provide additional context for embedding") l in
        Ok (mkNormResult (oc_id o) VectorRegeneration true l (elapsed now) (finished now))
    end).

Definition GraphDocumentStrategy : NormalizationStrategy := mkStrategy "graph-document-sync"
  (λ t, match t with GraphDocumentDrift => true | _ => false end)
  (λ now o event,
    let done_with c := Ok (mkNormResult (oc_id o) GraphReconstruction true [c] (elapsed now) (finished now)) in
    match oc_document o, graph_node o with
    | Some d, Some g =>
        done_with (mkChange "graph" "relationships" (Some (cat ["graph node IRI: "; iri g]))
          (cat ["reconstruct from document '"; title d; "'"])
          (cat ["Graph-document drift score "; score_text event; " — document is authoritative for content"]))
    | Some d, None =>
        done_with (mkChange "graph" "graph_node" None (cat ["create graph node from document '"; title d; "'"])
          "Graph modality missing — extract entities from document")
    | None, Some g =>
        done_with (mkChange "document" "document" None (cat ["create document from graph node '"; local_name g; "'"])
          "Document modality missing — generate from graph structure")
    | None, None => cannot o "Cannot reconcile graph-document: neither modality present"
    end).

Definition TensorRegenerationStrategy : NormalizationStrategy := mkStrategy "tensor-regeneration"
  (λ t, match t with TensorDrift => true | _ => false end)
  (λ now o event,
    match oc_embedding o, oc_document o with
    | None, None => cannot o "Cannot regenerate tensor: no vector or document source available"
    | _, _ =>
        let old := from_option (λ t, cat ["shape "; debug_list fmt_u64 (shape t)]) "none" (oc_tensor o) in
        let l := push_some (oc_embedding o) (λ e,
          mkChange "tensor" "data" (Some old)
            (cat ["reshape "; dims (vector e); "d embedding to [1, "; dims (vector e); "] tensor"])
            (cat ["Tensor drift score "; score_text event; " — regenerating from vector embedding"])) [] in
        let l := push_some (oc_document o) (λ d,
          mkChange "tensor" "features" (Some old) (cat ["compute TF-IDF features from document '"; title d; "'"])
            "Document content provides additional tensor features") l in
        Ok (mkNormResult (oc_id o) TensorSync true l (elapsed now) (finished now))
    end).

(** [if b { changes.push(c) }]. *)
Definition push_if (b : bool) (c : NormalizationChange) (l : list NormalizationChange) : list NormalizationChange :=
  if b then (l ++ [c])%list else l.

(** The three checks of the temporal strategy. *)
Definition created_late (o : Octad) : bool := negb (chrono_leb (created_at (OctadTypes.status o)) (modified_at (OctadTypes.status o))).
Definition unversioned (o : Octad) : bool := version (OctadTypes.status o) =? 0.
Definition miscounted (o : Octad) : bool := (0 <? version_count o) && (version_count o <? version (OctadTypes.status o)).

Definition TemporalRepairStrategy : NormalizationStrategy := mkStrategy "temporal-repair"
  (λ t, match t with TemporalConsistencyDrift => true | _ => false end)
  (λ now o event,
    let st := OctadTypes.status o in
    let l := push_if (created_late o)
      (mkChange "temporal" "modified_at" (Some (rfc3339 (modified_at st))) (rfc3339 (created_at st))
         "modified_at was before created_at — correcting to created_at") [] in
    let l := push_if (unversioned o)
      (mkChange "temporal" "version" (Some "0") "1" "Version was 0 — correcting to 1 (minimum valid version)") l in
    let l := push_if (miscounted o)
      (mkChange "temporal" "version_count" (Some (fmt_u64 (version_count o))) (fmt_u64 (version st))
         (cat ["Temporal drift score "; score_text event; " — version_count ("; fmt_u64 (version_count o);
               ") < version ("; fmt_u64 (version st); ")"])) l in
    let l := push_if (length l =? 0)%nat
      (mkChange "temporal" "consistency" None "verified"
         (cat ["Temporal drift score "; score_text event; " — checked ordering and duplicates, no repairs needed"])) l in
    Ok (mkNormResult (oc_id o) TemporalRepair true l (elapsed now) (finished now))).

(** The inner strategies in turn; one that cannot apply is skipped, any other
    error becomes a change and spoils the success. *)
Definition cascade_step (now : StrategyClock) (o : Octad) (event : DriftEvent)
    (acc : list NormalizationChange * bool) (s : NormalizationStrategy) : list NormalizationChange * bool :=
  match normalize s now o event with
  | Ok r => ((acc.1 ++ changes r)%list, acc.2)
  | Err (NormalizationFailed _ _) => acc
  | Err e =>
      ((acc.1 ++ [mkChange "quality" (strategy_name s) None (cat ["failed: "; normalizer_error_display e])
                    "Strategy error during quality reconciliation"])%list, true)
  end.

Definition quality_with (inner : list NormalizationStrategy) : NormalizationStrategy := mkStrategy "quality-reconciliation"
  (λ t, match t with QualityDrift | SchemaDrift => true | _ => false end)
  (λ now o event,
    let '(all_changes, any_failure) := foldl (cascade_step now o event) ([], false) inner in
    Ok (mkNormResult (oc_id o) FullReconciliation (negb any_failure) all_changes (elapsed now) (finished now))).

Definition QualityReconciliationStrategy : NormalizationStrategy :=
  quality_with [SemanticVectorStrategy; GraphDocumentStrategy; TensorRegenerationStrategy; TemporalRepairStrategy].

(** ** The engine *)

Record NormalizerStatus := mkNormStatus {
  running : bool;
  pending_count : Z;
  active_count : Z;
  completed_count : Z;
  failure_count : Z;
  last_normalization : option DateTime;
}.

(** [result_sender]: what was sent so far and whether the receiver still listens. *)
Record Normalizer := mkNormalizer {
  norm_config : NormalizerConfig;
  strategies : list NormalizationStrategy;
  norm_status : NormalizerStatus;
  result_sender : option (list NormalizationResult * bool);
}.

Definition normalizer_new (c : NormalizerConfig) : Normalizer :=
  mkNormalizer c [] (mkNormStatus false 0 0 0 0 None) None.
Definition normalizer_with_defaults : Normalizer := normalizer_new norm_config_default.

Definition set_norm_status (s : NormalizerStatus) (n : Normalizer) : Normalizer :=
  mkNormalizer (norm_config n) (strategies n) s (result_sender n).
Definition set_sender (c : option (list NormalizationResult * bool)) (n : Normalizer) : Normalizer :=
  mkNormalizer (norm_config n) (strategies n) (norm_status n) c.
Definition with_result_channel (n : Normalizer) : Normalizer := set_sender (Some ([], true)) n.

Definition register_strategy (s : NormalizationStrategy) (n : Normalizer) : Normalizer :=
  mkNormalizer (norm_config n) (strategies n ++ [s]) (norm_status n) (result_sender n).

Definition strategy_names (n : Normalizer) : list string := strategy_name <$> strategies n.

(** [find(|s| s.applies_to(..))], unless the score is too low. *)
Definition choose (n : Normalizer) (event : DriftEvent) : option NormalizationStrategy :=
  if f64_ltb (score event) (min_score (norm_config n)) then None
  else List.find (λ s, applies_to s (drift_type event)) (strategies n).

(** The first critical section on the status. *)
Definition started (st : NormalizerStatus) : NormalizerStatus :=
  mkNormStatus (running st) (pending_count st) (wrap 64 (active_count st + 1)) (completed_count st)
    (failure_count st) (last_normalization st).

(** The second one. *)
Definition ended (now : DateTime) (r : result NormalizerError NormalizationResult) (st : NormalizerStatus) : NormalizerStatus :=
  let active := wrap 64 (active_count st - 1) in
  match r with
  | Ok _ => mkNormStatus (running st) (pending_count st) active (wrap 64 (completed_count st + 1)) (failure_count st) (Some now)
  | Err _ => mkNormStatus (running st) (pending_count st) active (completed_count st) (wrap 64 (failure_count st + 1))
               (last_normalization st)
  end.

(** [sender.send(..)], with the text of the error as a parameter of the channel. *)
Definition notify (r : NormalizationResult) : SR Normalizer NormalizerError unit := λ n,
  match result_sender n with
  | Some (sent, true) => (set_sender (Some (sent ++ [r], true)%list) n, Ok ())
  | Some (_, false) => (n, Err (NChannelError "channel closed"))
  | None => (n, Ok ())
  end.

Definition on_status (f : NormalizerStatus → NormalizerStatus) : SR Normalizer NormalizerError unit :=
  sr_modify (λ n, set_norm_status (f (norm_status n)) n).

Definition handle_begin : SR Normalizer NormalizerError unit := on_status started.

(** Everything after the strategy has answered; [now] is the clock of the status. *)
Definition handle_end (now : DateTime) (r : result NormalizerError NormalizationResult) :
    SR Normalizer NormalizerError (option NormalizationResult) :=
  on_status (ended now r);;
  a ← sr_read (λ _, r);
  notify a;;
  mret (Some a).

Definition handle_drift (now : DateTime) (clock : StrategyClock) (o : Octad) (event : DriftEvent) :
    SR Normalizer NormalizerError (option NormalizationResult) :=
  n ← sr_get;
  match choose n event with
  | None => mret None
  | Some s => handle_begin;; handle_end now (normalize s clock o event)
  end.

Definition create_default_normalizer : Normalizer :=
  foldl (λ n s, register_strategy s n) normalizer_with_defaults
    [SemanticVectorStrategy; GraphDocumentStrategy; TensorRegenerationStrategy; TemporalRepairStrategy;
     QualityReconciliationStrategy].

End normalizer.
