(* ===== verification/NormalizerTheorems.v ===== *)
(** Properties of the normalizer: what handling an event does on every branch,
    its counters under interleaving, what the default strategies cover, and
    what the quality strategy makes of its inner ones. *)

From S2P Require Import Prelude Machine Text Float64 Format WalEntry OctadTypes Modalities ModalityStores Drift DriftTheorems Regeneration Normalizer.

Local Open Scope Z_scope.

Section normalizer.
Context `{ChronoLeb} `{!Rfc3339}.
Implicit Types (n : Normalizer) (s : NormalizationStrategy) (o : Octad) (event : DriftEvent) (clock : StrategyClock) (now : DateTime).

(** ** One event *)

Lemma choose_Some n event s :
  choose n event = Some s →
  s ∈ strategies n ∧ applies_to s (drift_type event) = true ∧ f64_ltb (score event) (min_score (norm_config n)) = false.
Proof.
  unfold choose. destruct (f64_ltb _ _); [done|]. intros [Hin Ha]%find_some. split_and!; [|done..].
  by apply list_elem_of_In.
Qed.

Lemma wrap_up_down a : in_u 64 a → wrap 64 (wrap 64 (a + 1) - 1) = a.
Proof.
  intros Ha. unfold wrap. rewrite Zminus_mod_idemp_l. replace (a + 1 - 1) with a by lia.
  by apply wrap_small.
Qed.

(** The answer that goes out: an error when the receiver is gone. *)
Definition answer_of n (a : NormalizationResult) : result NormalizerError (option NormalizationResult) :=
  match result_sender n with Some (_, false) => Err (NChannelError "channel closed") | _ => Ok (Some a) end.
Definition sender_after n (a : NormalizationResult) : option (list NormalizationResult * bool) :=
  match result_sender n with Some (sent, true) => Some ((sent ++ [a])%list, true) | c => c end.

(** Handling an event.  An event below the minimum score, or of a type
    no strategy applies to, changes nothing and has no answer.  Otherwise the first registered
    strategy that applies decides: its error is returned and counted as a failure, its
    result is counted as completed with the time, sent when a
    channel is set, and returned -- unless the receiver is gone, which is an error although the
    normalization counts as completed.  Nothing stays active, no strategy changes. *)
Theorem handle_drift_outcome now clock o event n :
  in_u 64 (active_count (norm_status n)) →
  let '(n', r) := handle_drift now clock o event n in
  let st := norm_status n in
  match choose n event with
  | None => n' = n ∧ r = Ok None
  | Some s =>
      s ∈ strategies n ∧ applies_to s (drift_type event) = true ∧
      strategies n' = strategies n ∧ norm_config n' = norm_config n ∧
      match normalize s clock o event with
      | Ok a =>
          r = answer_of n a ∧ result_sender n' = sender_after n a ∧
          norm_status n' = mkNormStatus (running st) (pending_count st) (active_count st) (wrap 64 (completed_count st + 1))
                             (failure_count st) (Some now)
      | Err e =>
          r = Err e ∧ result_sender n' = result_sender n ∧
          norm_status n' = mkNormStatus (running st) (pending_count st) (active_count st) (completed_count st)
                             (wrap 64 (failure_count st + 1)) (last_normalization st)
      end
  end.
Proof.
  intros Ha. unfold handle_drift. sr_unfold. destruct (choose n event) as [s|] eqn:Hc; [|done].
  apply choose_Some in Hc as (Hin & Happ & _). unfold handle_begin, handle_end, on_status, sr_read. sr_unfold. cbn [fst snd].
  destruct (normalize s clock o event) as [a|err]; cbn.
  - unfold notify, answer_of, sender_after. cbn [result_sender set_norm_status].
    destruct (result_sender n) as [[sent []]|] eqn:Es; cbn; rewrite wrap_up_down, ?Es by done; by split_and!.
  - rewrite wrap_up_down by done. by split_and!.
Qed.

(** ** Interleaving

    A call holds a read lock on the strategies to its end, so none is registered meanwhile. *)

(** The engine, the calls in flight by their answers, and how many ended well and badly. *)
Record NState := mkNState {
  engine : Normalizer; inflight : list (result NormalizerError NormalizationResult); good : Z; bad : Z }.

Inductive nstep : NState → NState → Prop :=
| step_begin n l g b s clock o event : choose n event = Some s →
    nstep (mkNState n l g b) (mkNState (handle_begin n).1 (normalize s clock o event :: l) g b)
| step_end n l1 l2 g b now r :
    nstep (mkNState n (l1 ++ r :: l2) g b)
      (mkNState (handle_end now r n).1 (l1 ++ l2) (g + if is_ok r then 1 else 0) (b + if is_ok r then 0 else 1))
| step_register n g b s : nstep (mkNState n [] g b) (mkNState (register_strategy s n) [] g b).

Definition counts (st : NState) : Prop :=
  active_count (norm_status (engine st)) = wrap 64 (Z.of_nat (length (inflight st))) ∧
  completed_count (norm_status (engine st)) = wrap 64 (good st) ∧
  failure_count (norm_status (engine st)) = wrap 64 (bad st).

Lemma notify_status a n : norm_status (notify a n).1 = norm_status n.
Proof. unfold notify. by destruct (result_sender n) as [[? []]|]. Qed.

Lemma handle_end_status now r n : norm_status (handle_end now r n).1 = ended now r (norm_status n).
Proof.
  unfold handle_end, on_status, sr_read. sr_unfold. destruct r as [a|err]; [|done]. cbn [fst snd].
  pose proof (notify_status a (set_norm_status (ended now (Ok a) (norm_status n)) n)) as Hn.
  destruct (notify a _) as [n' [[]|e]]; exact Hn.
Qed.

(** The rest of the engine is left alone. *)
#[local] Instance notify_keeps_config a : Keeps norm_config (notify a).
Proof. intros n. unfold notify. by destruct (result_sender n) as [[? []]|]. Qed.
#[local] Instance notify_keeps_strategies a : Keeps strategies (notify a).
Proof. intros n. unfold notify. by destruct (result_sender n) as [[? []]|]. Qed.

#[local] Instance on_status_keeps_config f : Keeps norm_config (on_status f).
Proof. done. Qed.
#[local] Instance on_status_keeps_strategies f : Keeps strategies (on_status f).
Proof. done. Qed.

Lemma handle_end_config now r n : norm_config (handle_end now r n).1 = norm_config n.
Proof. unfold handle_end. by keeps_step. Qed.
Lemma handle_end_strategies now r n : strategies (handle_end now r n).1 = strategies n.
Proof. unfold handle_end. by keeps_step. Qed.

Lemma nstep_counts st st' : nstep st st' → counts st → counts st'.
Proof.
  unfold counts. destruct 1 as [n l g b s clock o event Hc|n l1 l2 g b now r|n g b s];
    cbn [engine inflight good bad]; intros (Ha & Hg & Hb).
  - cbn. rewrite Ha, Hg, Hb. split_and!; [|done..]. unfold wrap. rewrite Zplus_mod_idemp_l. f_equal. lia.
  - rewrite handle_end_status, length_app. rewrite length_app in Ha. cbn [length] in Ha. destruct r as [a|e]; cbn.
    all: rewrite Ha, Hg, Hb; unfold wrap; rewrite ?Zminus_mod_idemp_l, ?Zplus_mod_idemp_l, ?Z.add_0_r.
    all: split_and!; try done; f_equal; lia.
  - done.
Qed.

(** The counters.  However calls interleave, the active count is the
    number of calls between their two critical sections, and the completed and failed
    counts are those of the strategies that returned a result and an error, all modulo 2^64; the
    strategies do not change while a call is in flight. *)
Theorem normalizer_counts c st :
  rtc nstep (mkNState (normalizer_new c) [] 0 0) st →
  active_count (norm_status (engine st)) = wrap 64 (Z.of_nat (length (inflight st))) ∧
  completed_count (norm_status (engine st)) = wrap 64 (good st) ∧
  failure_count (norm_status (engine st)) = wrap 64 (bad st) ∧
  norm_config (engine st) = c ∧
  ∀ st', nstep st st' → inflight st ≠ [] → strategies (engine st') = strategies (engine st).
Proof.
  intros Hr. assert (counts st ∧ norm_config (engine st) = c) as [(Ha & Hg & Hb) Hc].
  { remember (mkNState (normalizer_new c) [] 0 0) as st0 eqn:E.
    assert (counts st0 ∧ norm_config (engine st0) = c) as Hi by (by subst). clear E.
    induction Hr as [st1|st1 st2 st3 Hs _ IH]; [done|]. apply IH. destruct Hi as [Hi <-].
    split; [by eapply nstep_counts|]. destruct Hs; cbn; [done| |done]. by rewrite handle_end_config. }
  split_and!; [done..|]. intros st' Hs Hne. destruct Hs; cbn; [done| |done]. by rewrite handle_end_strategies.
Qed.

(** No limit on concurrency.  [max_concurrent] bounds nothing: as long as
    some event is handled, any number of calls can be between their two critical sections. *)
Theorem concurrency_unbounded c s clock o event k :
  f64_ltb (score event) (min_score c) = false → applies_to s (drift_type event) = true →
  ∃ st, rtc nstep (mkNState (normalizer_new c) [] 0 0) st ∧ length (inflight st) = k.
Proof.
  intros Hm Hs. assert (Hk : ∀ k, ∃ n, norm_config n = c ∧ strategies n = [s] ∧
    rtc nstep (mkNState (normalizer_new c) [] 0 0) (mkNState n (replicate k (normalize s clock o event)) 0 0)).
  { clear k. induction k as [|k (n & Hc & Hst & Hr)].
    - exists (register_strategy s (normalizer_new c)). split_and!; [done..|]. apply rtc_once. constructor.
    - exists (handle_begin n).1. split_and!; [done..|]. eapply rtc_r; [exact Hr|]. cbn [replicate]. constructor.
      unfold choose. rewrite Hc, Hst, Hm. cbn. by rewrite Hs. }
  destruct (Hk k) as (n & _ & _ & Hr). eexists. split; [exact Hr|]. apply length_replicate.
Qed.

(** ** The default strategies *)

Definition strategy_for_drift (t : DriftType) : option NormalizationStrategy :=
  match t with
  | SemanticVectorDrift => Some SemanticVectorStrategy
  | GraphDocumentDrift => Some GraphDocumentStrategy
  | TensorDrift => Some TensorRegenerationStrategy
  | TemporalConsistencyDrift => Some TemporalRepairStrategy
  | SchemaDrift | QualityDrift => Some QualityReconciliationStrategy
  | ProvenanceDrift | SpatialDrift => None
  end.

Lemma default_choice event :
  choose create_default_normalizer event =
  if f64_ltb (score event) (f64_lit 3 10) then None else strategy_for_drift (drift_type event).
Proof.
  unfold choose. change (min_score (norm_config create_default_normalizer)) with (f64_lit 3 10).
  destruct (f64_ltb _ _); [done|]. by destruct (drift_type event).
Qed.

(** What the default strategies cover.  The default normalizer has exactly
    one strategy for every type of drift but two: provenance and spatial drift, however
    large, are answered by doing nothing, as is every event below 0.3. *)
Theorem default_coverage now clock o event :
  let n := create_default_normalizer in
  let handled := match strategy_for_drift (drift_type event) with
                 | Some s => negb (f64_ltb (score event) (f64_lit 3 10)) | None => false end in
  length (retain (λ s, applies_to s (drift_type event)) (strategies n)) =
    match strategy_for_drift (drift_type event) with Some _ => 1%nat | None => 0%nat end ∧
  (handled = false → handle_drift now clock o event n = (n, Ok None)) ∧
  (handled = true → ∀ s, strategy_for_drift (drift_type event) = Some s →
     (handle_drift now clock o event n).2 = (a ← normalize s clock o event; Ok (Some a))).
Proof.
  cbv zeta. split; [by destruct (drift_type event)|]. unfold handle_drift. sr_unfold. rewrite default_choice.
  destruct (f64_ltb _ _).
  - split; [done|]. by case_match.
  - destruct (strategy_for_drift (drift_type event)) as [s|]; [|done]. split; [done|]. intros _ s' [= <-].
    unfold handle_begin, handle_end, on_status, sr_read. sr_unfold. cbn [fst snd]. by destruct (normalize s clock o event).
Qed.

(** *** The quality strategy *)

(** Does an inner strategy fail in a way that counts? *)
Definition spoils (r : result NormalizerError NormalizationResult) : bool :=
  match r with Ok _ | Err (NormalizationFailed _ _) => false | Err _ => true end.

Definition contribution (s : NormalizationStrategy) (r : result NormalizerError NormalizationResult) : list NormalizationChange :=
  match r with
  | Ok a => changes a
  | Err (NormalizationFailed _ _) => []
  | Err e => [mkChange "quality" (strategy_name s) None (cat ["failed: "%string; normalizer_error_display e])
                "Strategy error during quality reconciliation"]
  end.

Lemma cascade_spec clock o event inner l b :
  foldl (cascade_step clock o event) (l, b) inner =
  ((l ++ mjoin ((λ s, contribution s (normalize s clock o event)) <$> inner))%list,
   b || existsb (λ s, spoils (normalize s clock o event)) inner).
Proof.
  revert l b. induction inner as [|s inner IH]; intros l b; [by rewrite app_nil_r, orb_false_r|].
  cbn [foldl fmap list_fmap mjoin list_join existsb]. unfold cascade_step at 2.
  destruct (normalize s clock o event) as [a|[]]; cbn [fst snd]; rewrite IH; cbn [contribution spoils fst snd];
    (apply (f_equal2 pair); [by rewrite <- ?app_assoc|by destruct b]).
Qed.

(** Quality reconciliation.  A quality strategy over any inner ones never
    fails: its changes are those of the inner strategies in order, an inner strategy that cannot
    apply is passed over, and any other inner error is reported as a change and costs the
    success.  The default one always succeeds, with the temporal check among its changes. *)
Theorem quality_reconciles inner clock o event :
  (∃ r, normalize (quality_with inner) clock o event = Ok r ∧ nr_entity_id r = oc_id o ∧
    changes r = mjoin ((λ s, contribution s (normalize s clock o event)) <$> inner) ∧
    (nr_success r = true ↔ ∀ s, s ∈ inner → spoils (normalize s clock o event) = false)) ∧
  ∃ r t, normalize QualityReconciliationStrategy clock o event = Ok r ∧ nr_success r = true ∧
    normalize TemporalRepairStrategy clock o event = Ok t ∧ changes t ≠ [] ∧ changes t ⊆ changes r.
Proof.
  split.
  - cbn [normalize quality_with]. rewrite cascade_spec. cbn [app orb]. eexists. split; [reflexivity|]. split_and!; [done..|].
    cbn [nr_success]. rewrite negb_true_iff. split.
    + intros Hf s Hs. destruct (spoils _) eqn:E; [|done]. exfalso. apply not_true_iff_false in Hf. apply Hf.
      apply existsb_exists. exists s. split; [by apply list_elem_of_In|done].
    + intros Ha. apply not_true_iff_false. intros (s & Hs%list_elem_of_In & E)%existsb_exists. by rewrite (Ha s Hs) in E.
  - unfold QualityReconciliationStrategy. cbn [normalize quality_with]. rewrite cascade_spec.
    eexists _, _. split; [reflexivity|]. split_and!; [|reflexivity| |].
    + cbn [nr_success existsb orb]. rewrite !negb_orb. cbn [normalize SemanticVectorStrategy GraphDocumentStrategy
        TensorRegenerationStrategy TemporalRepairStrategy spoils].
      by destruct (oc_document o), (oc_semantic o), (graph_node o), (oc_embedding o).
    + cbn [changes]. destruct (created_late o), (unversioned o), (miscounted o); discriminate.
    + cbn [changes fmap list_fmap mjoin list_join]. intros c Hc. rewrite !elem_of_app. do 4 right. left. exact Hc.
Qed.

(** Temporal repair.  The temporal strategy finds nothing to repair exactly
    when the creation is not after the last change, the version is not zero, and it
    is not above the number of versions, if there are any. *)
Theorem temporal_repair_exact clock o event :
  ∃ r, normalize TemporalRepairStrategy clock o event = Ok r ∧ nr_success r = true ∧
    ((ch_field <$> changes r = ["consistency"%string]) ↔
     chrono_leb (created_at (OctadTypes.status o)) (modified_at (OctadTypes.status o)) = true ∧
     version (OctadTypes.status o) ≠ 0 ∧
     (0 < version_count o → version (OctadTypes.status o) ≤ version_count o)).
Proof.
  eexists. split; [reflexivity|]. split; [done|]. cbn [changes].
  assert (created_late o = false ↔ chrono_leb (created_at (OctadTypes.status o)) (modified_at (OctadTypes.status o)) = true) as <-
    by apply negb_false_iff.
  assert (unversioned o = false ↔ version (OctadTypes.status o) ≠ 0) as <- by apply Z.eqb_neq.
  assert (miscounted o = false ↔ (0 < version_count o → version (OctadTypes.status o) ≤ version_count o)) as <-.
  { unfold miscounted. rewrite andb_false_iff, !Z.ltb_ge. lia. }
  destruct (created_late o), (unversioned o), (miscounted o); cbn; naive_solver.
Qed.

(** ** Detector and normalizer *)

(** Between the two thresholds.  The default detector reports a drift whose
    score is above the threshold of its type; when it is below 0.3 as well, which is possible for
    temporal, schema, provenance and quality drift, the default normalizer
    drops the event. *)
Theorem reported_drift_ignored now clock o r t x es d m :
  metrics d !! t = Some m → thresholds d = thresholds_default → channel d = None →
  f64_ltb (fixed_threshold thresholds_default t) x = true → f64_ltb x (f64_lit 3 10) = true →
  ∃ d' e, record r t x es d = (d', Ok (Some e)) ∧
    handle_drift now clock o e create_default_normalizer = (create_default_normalizer, Ok None).
Proof.
  intros Hm Ht Hc Hlow Hhigh. rewrite record_eq. fold (measured r t x d). rewrite (measured_threshold r t x d m Hm), Ht.
  change (effective_threshold thresholds_default t _) with (fixed_threshold thresholds_default t). rewrite Hlow.
  destruct (measured_other r t x d) as [_ Ec]. set (e := with_entities _ _).
  destruct (inc_counter_keeps t (measured r t x d)) as (Hi & _ & _ & Ic). sr_unfold.
  destruct (inc_counter t (measured r t x d)) as [d1 r1]. cbn [fst snd] in *. subst r1.
  unfold send_event. rewrite Ic, Ec, Hc. eexists _, _. split; [reflexivity|].
  unfold handle_drift. sr_unfold. rewrite default_choice.
  change (score e) with x. by rewrite Hhigh.
Qed.

End normalizer.

(** ** Witnesses *)

Module Witness.

#[export] Instance tick : Chrono := {| DateTime := Z; timestamp_millis := λ t, t; timestamp_millis_opt := Some |}.
#[export] Instance tick_leb : ChronoLeb := Z.leb.
#[export] Instance rfc : Rfc3339 := λ t, fmt_u64 t.

Definition at_ (t : Z) : DateTime := t.
Definition noon : StrategyClock := mkStrategyClock 1 (at_ 12).
Definition entity : Octad :=
  mkOctad "e" (mkStatus "e" (at_ 0) (at_ 0) None 1 ms_default) None None None None (Some (Document_new "e" "t" "b")) 1 0 None.
Definition drifted (t : DriftType) : DriftEvent := event_new (at_ 12) t f64_one "d".

Lemma handle_drift_outcome_witness :
  is_ok (handle_drift (at_ 12) noon entity (drifted TensorDrift) create_default_normalizer).2 = true.
Proof.
  pose proof (handle_drift_outcome (at_ 12) noon entity (drifted TensorDrift) create_default_normalizer) as Ho.
  destruct (handle_drift (at_ 12) noon entity (drifted TensorDrift) create_default_normalizer) as [n' r].
  assert (choose create_default_normalizer (drifted TensorDrift) = Some TensorRegenerationStrategy) as E
    by (rewrite default_choice; reflexivity).
  rewrite E in Ho. destruct Ho as (_ & _ & _ & _ & -> & _); [|reflexivity]. split; [vm_compute; discriminate|vm_compute; reflexivity].
Defined.

Lemma normalizer_counts_witness :
  active_count (norm_status (engine (mkNState (normalizer_new norm_config_default) [] 0 0))) = 0.
Proof. apply (normalizer_counts norm_config_default). constructor. Defined.

Lemma concurrency_unbounded_witness :
  ∃ st, rtc nstep (mkNState (normalizer_new norm_config_default) [] 0 0) st ∧ length (inflight st) = 1000%nat.
Proof.
  apply (concurrency_unbounded norm_config_default TensorRegenerationStrategy noon entity (drifted TensorDrift)).
  - vm_compute. reflexivity.
  - reflexivity.
Defined.

Definition detector : DriftDetector := with_defaults (at_ 0).

Lemma reported_drift_ignored_witness :
  ∃ e, (record (mkReadings (at_ 1) (at_ 1) (at_ 1)) SchemaDrift (lit 2 10) ["e"%string] detector).2 = Ok (Some e) ∧
    handle_drift (at_ 12) noon entity e create_default_normalizer = (create_default_normalizer, Ok None).
Proof.
  destruct (reported_drift_ignored (at_ 12) noon entity (mkReadings (at_ 1) (at_ 1) (at_ 1)) SchemaDrift (lit 2 10) ["e"%string]
    detector (metrics_default (at_ 0))) as (d' & e & E & He).
  - vm_compute. reflexivity.
  - reflexivity.
  - reflexivity.
  - vm_compute. reflexivity.
  - vm_compute. reflexivity.
  - exists e. rewrite E. split; [reflexivity|exact He].
Defined.

End Witness.
