(* ===== verification/Groove.v ===== *)
(** The Groove protocol (verisim-api/src/groove.rs): the life cycle of the
    connections of peers, the mesh of their health, and feedback.

    Each of the three states is behind one lock that a handler holds once, so a
    handler is one step.  The clock and the entropy a handler reads are its
    arguments; an [Instant] is a number of nanoseconds. *)

From Stdlib Require Import Strings.Ascii.
From S2P Require Import Prelude Machine Text Float64 Collections Format PlanCache Lexing.
From S2P Require Circuits VclBridge.

Local Open Scope string_scope.
Local Open Scope Z_scope.

(** ** Connections *)

Inductive ConnectionState :=
  | Discovered | Negotiating | Connected | Active | Degraded | Reconnecting | Disconnecting | Disconnected | Rejected.

#[export] Instance connection_state_dec : EqDecision ConnectionState.
Proof. solve_decision. Defined.

Record ConnectionInfo := mkConnection {
  peer_id : string;
  conn_state : ConnectionState;
  connected_at_ms : Z;
  last_heartbeat_ms : Z;
  last_heartbeat_instant : Z;
  matched_capabilities : list string;
}.

Abbreviation GrooveState := (gmap string ConnectionInfo).

(** ** The manifest *)

Record Capability := mkCapability {
  cap_type : string; cap_description : string; cap_protocol : string; cap_endpoint : string;
  requires_auth : bool; panel_compatible : bool }.

Record Manifest := mkManifest {
  groove_version : string; service_id : string; service_version : string; capabilities : list Capability;
  consumes : list string; endpoints : list (string * string); health : string;
  interval_ms : Z; timeout_ms : Z }.

(** A capability is filed under its type. *)
Definition capability (type description endpoint : string) (panel : bool) : Capability :=
  mkCapability type description "http" endpoint false panel.

Definition manifest (version : string) : Manifest :=
  mkManifest "1" "verisimdb" version
    [capability "octad-storage" "8-modality entity storage with drift detection and self-normalisation" "/api/v1/octads" true;
     capability "drift-detection" "Cross-modal drift measurement and alerting" "/api/v1/drift/status" true;
     capability "provenance" "Hash-chain provenance tracking for entity lineage" "/api/v1/provenance" true;
     capability "vector-search" "HNSW similarity search over entity embeddings" "/api/v1/search/vector" false;
     capability "spatial-search" "R-tree geospatial queries (radius, bounds, nearest)" "/api/v1/spatial/search" false;
     capability "vcl" "VeriSim Consonance Language — type-safe multi-modal queries" "/api/v1/vcl/execute" true;
     capability "feedback" "Groove-routed feedback receiver — stores feedback targeted at VeriSimDB" "/.well-known/groove/feedback" false;
     capability "health-mesh" "Inter-service health mesh — monitors peer status via groove probing" "/.well-known/groove/mesh" true]
    ["integrity"; "scanning"]
    [("api", "http://localhost:8080/api/v1"); ("health", "http://localhost:8080/health");
     ("graphql", "http://localhost:8080/graphql")]
    "/health" 5000 15000.

Definition OFFERED_CAPABILITIES : list string :=
  ["octad-storage"; "drift-detection"; "provenance"; "vector-search"; "spatial-search"; "vcl"].

Definition HEARTBEAT_TIMEOUT_MS : Z := 15000.

(** ** Handlers of connections *)

Record ConnectRequest := mkConnect {
  req_service_id : option string; req_service_version : option string; req_consumes : option (list string) }.

Record ConnectResponse := mkConnectResponse {
  resp_ok : bool; session_id : option string; provider : string; resp_state : string;
  resp_error : option string; resp_matched : option (list string) }.

(** What a peer consumes of what is offered. *)
Definition offered (cap : string) : bool := bool_decide (cap ∈ OFFERED_CAPABILITIES).
Definition matched_of (r : ConnectRequest) : list string := retain offered (default [] (req_consumes r)).

(** [entropy]: the sixteen bytes read from the system's random source, zeros if
    it cannot be opened. *)
Definition generate_session_id (entropy : list byte) : string := Circuits.hex_lower entropy.

Definition is_nil {A} (l : list A) : bool := match l with [] => true | _ => false end.

(** The status code and the response. *)
Definition groove_connect_handler (entropy : list byte) (now_ms now : Z) (r : ConnectRequest) (g : GrooveState) :
    GrooveState * (Z * ConnectResponse) :=
  let peer_consumes := default [] (req_consumes r) in
  let matched := matched_of r in
  if is_nil matched && negb (is_nil peer_consumes) then
    (g, (409, mkConnectResponse false None "verisimdb" "rejected" (Some "no matching capabilities") None))
  else
    let session := generate_session_id entropy in
    (<[session := mkConnection (default "unknown" (req_service_id r)) Connected now_ms now_ms now matched]> g,
     (200, mkConnectResponse true (Some session) "verisimdb" "connected" None (Some matched))).

(** [true] is 200, [false] 404. *)
Definition groove_disconnect_handler (session : string) (g : GrooveState) : GrooveState * bool :=
  match g !! session with Some _ => (delete session g, true) | None => (g, false) end.

(** A heartbeat makes a connected or degraded peer active. *)
Definition beat (now_ms now : Z) (c : ConnectionInfo) : ConnectionInfo :=
  mkConnection (peer_id c)
    (match conn_state c with Connected | Degraded => Active | st => st end)
    (connected_at_ms c) now_ms now (matched_capabilities c).

(** [true] is 204, [false] 404. *)
Definition groove_heartbeat_handler (now_ms now : Z) (session : string) (g : GrooveState) : GrooveState * bool :=
  match g !! session with Some c => (<[session := beat now_ms now c]> g, true) | None => (g, false) end.

(** [duration_since] saturates at zero. *)
Definition elapsed_ms (now : Z) (c : ConnectionInfo) : Z :=
  wrap 64 (Z.max 0 (now - last_heartbeat_instant c) / 1000000).

Definition timed_out (now : Z) (c : ConnectionInfo) : bool := HEARTBEAT_TIMEOUT_MS <? elapsed_ms now c.

Definition set_conn_state (st : ConnectionState) (c : ConnectionInfo) : ConnectionInfo :=
  mkConnection (peer_id c) st (connected_at_ms c) (last_heartbeat_ms c) (last_heartbeat_instant c)
    (matched_capabilities c).

(** What the loop does to one connection; [None] is listed for removal. *)
Definition check_timeout (now : Z) (c : ConnectionInfo) : option ConnectionInfo :=
  if timed_out now c then
    match conn_state c with
    | Degraded => None
    | Active | Connected => Some (set_conn_state Degraded c)
    | _ => Some c
    end
  else Some c.

Record ConnectionStatus := mkConnStatus {
  cs_peer_id : string; cs_state : ConnectionState; cs_connected_at_ms : Z; cs_last_heartbeat_ms : Z;
  cs_matched : list string }.

Definition status_of (c : ConnectionInfo) : ConnectionStatus :=
  mkConnStatus (peer_id c) (conn_state c) (connected_at_ms c) (last_heartbeat_ms c) (matched_capabilities c).

(** The number of connections and their states, by session. *)
Definition groove_status_handler (now : Z) (g : GrooveState) : GrooveState * (nat * gmap string ConnectionStatus) :=
  let g := omap (check_timeout now) g in
  (g, (size g, status_of <$> g)).

(** ** The health mesh *)

Record PeerHealth := mkPeerHealth { ph_service_id : string; ph_port : Z; ph_status : string; last_seen_ms : Z }.

Record MeshState := mkMesh { peers : list PeerHealth; last_probe_ms : Z }.
Definition mesh_new : MeshState := mkMesh [] 0.

Definition MESH_PROBE_PORTS : list Z := [6473; 8000; 8081; 8091; 8092].

(** The blank line after the headers. *)
Definition crlf2 : string := String "013" (String "010" (String "013" (String "010" ""))).

Section mesh.
Context `{J : VclBridge.Json} (from_str : string → option VclBridge.Value).

(** [v.get(key)] of an object. *)
Definition get_member (key : string) (v : VclBridge.Value) : option VclBridge.Value :=
  l ← VclBridge.as_object v; snd <$> List.find (λ p : string * VclBridge.Value, String.eqb p.1 key) l.

Definition string_member (key : string) (v : VclBridge.Value) : option string :=
  w ← get_member key v; VclBridge.as_str w.

(** The slice starts right after an ASCII character. *)
Definition body_of (response : string) : string :=
  match find_str crlf2 response with
  | Some i => String.substring (i + 4) (String.length response - (i + 4)) response
  | None => response
  end.

Definition extract_service_id (response : string) : string :=
  match from_str (body_of response) with
  | Some v =>
      match string_member "service" v with
      | Some id => id
      | None => default "unknown" (string_member "service_id" v)
      end
  | None => "unknown"
  end.

(** [probe port] is [None] when the peer cannot be reached or written to, and
    otherwise the first bytes it answers, if any. *)
Definition probe_port (probe : Z → option (option string)) (now_ms port : Z) : option PeerHealth :=
  answer ← probe port;
  Some (mkPeerHealth (match answer with Some resp => extract_service_id resp | None => "unknown" end) port "up" now_ms).

Definition probe_mesh_peers (probe : Z → option (option string)) (now_ms : Z) (m : MeshState) : MeshState :=
  mkMesh (omap (probe_port probe now_ms) MESH_PROBE_PORTS) now_ms.

End mesh.

(** The time of the answer, that of the last probe, the number of peers and the peers. *)
Definition groove_mesh_handler (now_ms : Z) (m : MeshState) : Z * Z * nat * list PeerHealth :=
  (now_ms, last_probe_ms m, length (peers m), peers m).

(** ** Feedback *)

Section feedback.
Context {Metadata : Type}.

Record FeedbackEntry := mkEntry {
  fb_id : string; fb_timestamp_ms : Z; fb_source : string; fb_target : string; fb_category : string;
  fb_message : string; fb_metadata : Metadata }.

Definition MAX_FEEDBACK_ENTRIES : nat := Z.to_nat 10000.

(** With the defaults that serde fills in. *)
Record FeedbackRequest := mkFeedback {
  fr_type : string; fr_target : string; fr_category : string; fr_message : string; fr_metadata : Metadata;
  fr_source : string }.

Definition default_feedback_type : string := "feedback".
Definition default_verisimdb : string := "verisimdb".
Definition default_other : string := "other".
Definition default_unknown : string := "unknown".

Definition valid_categories : list string := ["bug"; "feature"; "ux"; "performance"; "other"].

Definition feedback_entry (now_ms : Z) (r : FeedbackRequest) : FeedbackEntry :=
  mkEntry (cat ["groove-feedback-"; fmt_u64 now_ms]) now_ms (fr_source r) (fr_target r) (fr_category r)
    (fr_message r) (fr_metadata r).

(** An invalid category is refused with its text; otherwise the target and the
    identifier are answered. *)
Definition groove_feedback_handler (now_ms : Z) (r : FeedbackRequest) (entries : list FeedbackEntry) :
    list FeedbackEntry * result string (string * string) :=
  if negb (bool_decide (fr_category r ∈ valid_categories)) then
    (entries, Err (cat ["invalid category: "; fr_category r]))
  else
    let entry := feedback_entry now_ms r in
    let entries := (entries ++ [entry])%list in
    (if (MAX_FEEDBACK_ENTRIES <? length entries)%nat then drop 1 entries else entries, Ok (fr_target r, fb_id entry)).

Definition groove_feedback_list_handler (entries : list FeedbackEntry) : nat * list FeedbackEntry :=
  (length entries, entries).

End feedback.
#[global] Arguments FeedbackEntry : clear implicits.
#[global] Arguments FeedbackRequest : clear implicits.

(** ** The life cycle of a connection *)

Inductive groove_event :=
  | Connect (entropy : list byte) (now_ms now : Z) (r : ConnectRequest)
  | Disconnect (session : string)
  | Heartbeat (now_ms now : Z) (session : string)
  | Status (now : Z).

Definition groove_run (g : GrooveState) (e : groove_event) : GrooveState :=
  match e with
  | Connect entropy now_ms now r => (groove_connect_handler entropy now_ms now r g).1
  | Disconnect session => (groove_disconnect_handler session g).1
  | Heartbeat now_ms now session => (groove_heartbeat_handler now_ms now session g).1
  | Status now => (groove_status_handler now g).1
  end.

(** The states a stored connection can be in. *)
Definition live (st : ConnectionState) : Prop := st = Connected ∨ st = Active ∨ st = Degraded.

(** A connect request is accepted when it asks for nothing or for something
    offered. *)
Definition acceptable (r : ConnectRequest) : Prop :=
  default [] (req_consumes r) = [] ∨
  ∃ cap, cap ∈ default [] (req_consumes r) ∧ cap ∈ OFFERED_CAPABILITIES.

(** Nothing heard for more than fifteen seconds, in whole milliseconds of 64 bits. *)
Definition silent (now : Z) (c : ConnectionInfo) : Prop :=
  15000 < wrap 64 (Z.max 0 (now - last_heartbeat_instant c) / 1000000).

(** The protocol, seen from the session [id]: what each event makes of what is
    stored for it. *)
Inductive life (id : string) : groove_event → option ConnectionInfo → option ConnectionInfo → Prop :=
  | life_open entropy now_ms now r st :
      id = generate_session_id entropy → acceptable r →
      life id (Connect entropy now_ms now r) st
        (Some (mkConnection (default "unknown" (req_service_id r)) Connected now_ms now_ms now (matched_of r)))
  | life_not_opened entropy now_ms now r st :
      id ≠ generate_session_id entropy ∨ ¬ acceptable r → life id (Connect entropy now_ms now r) st st
  | life_close st : life id (Disconnect id) st None
  | life_other_closed session st : session ≠ id → life id (Disconnect session) st st
  | life_beat now_ms now c :
      life id (Heartbeat now_ms now id) (Some c)
        (Some (mkConnection (peer_id c) Active (connected_at_ms c) now_ms now (matched_capabilities c)))
  | life_no_beat now_ms now session st :
      session ≠ id ∨ st = None → life id (Heartbeat now_ms now session) st st
  | life_heard now st : (∀ c, st = Some c → ¬ silent now c) → life id (Status now) st st
  | life_degrade now c : silent now c → conn_state c ≠ Degraded →
      life id (Status now) (Some c)
        (Some (mkConnection (peer_id c) Degraded (connected_at_ms c) (last_heartbeat_ms c)
                 (last_heartbeat_instant c) (matched_capabilities c)))
  | life_expire now c : silent now c → conn_state c = Degraded → life id (Status now) (Some c) None.

(** The protocol leaves no choice. *)
Lemma life_deterministic id e x y z : life id e x y → life id e x z → y = z.
Proof. intros H1 H2. destruct H1; inversion H2; subst; naive_solver. Qed.

Definition healthy (c : ConnectionInfo) : Prop :=
  live (conn_state c) ∧ ∀ cap, cap ∈ matched_capabilities c → cap ∈ OFFERED_CAPABILITIES.

Lemma matched_offered r cap : cap ∈ matched_of r → cap ∈ OFFERED_CAPABILITIES.
Proof. unfold matched_of, offered. rewrite elem_of_retain, bool_decide_eq_true. tauto. Qed.

Lemma beat_healthy now_ms now c : healthy c → healthy (beat now_ms now c).
Proof. intros [Hl Hm]. split; [|done]. unfold live in *. cbn. destruct Hl as [-> | [-> | ->]]; auto. Qed.

Lemma check_healthy now c c' : healthy c → check_timeout now c = Some c' → healthy c'.
Proof.
  intros [Hl Hm]. unfold check_timeout.
  destruct (timed_out now c); [|by intros [= <-]]. destruct Hl as [E|[E|E]]; rewrite E; intros [= <-]; (split; [unfold live; cbn; auto|done]).
Qed.

Lemma run_healthy g e : map_Forall (λ _, healthy) g → map_Forall (λ _, healthy) (groove_run g e).
Proof.
  intros Hg. destruct e; cbn [groove_run]; unfold groove_connect_handler, groove_disconnect_handler, groove_heartbeat_handler.
  - case_match; [done|]. apply map_Forall_insert_2; [|done]. split; [by left|]. intros cap. apply matched_offered.
  - case_match; [|done]. by apply map_Forall_delete.
  - case_match; [|done]. apply map_Forall_insert_2; [|done]. apply beat_healthy. by eapply Hg.
  - intros k c'. cbn. rewrite lookup_omap_Some. intros (c & Hc & Hk). by eapply check_healthy; [eapply Hg|].
Qed.

Lemma reached_healthy es : map_Forall (λ _, healthy) (foldl groove_run ∅ es).
Proof.
  induction es as [|e es IH] using rev_ind; [apply map_Forall_empty|]. rewrite foldl_app. by apply run_healthy.
Qed.

Lemma refused_iff r :
  is_nil (matched_of r) && negb (is_nil (default [] (req_consumes r))) = false ↔ acceptable r.
Proof.
  unfold acceptable, matched_of. set (l := default [] (req_consumes r)).
  assert (Hm : ∀ cap, cap ∈ retain offered l ↔ cap ∈ l ∧ cap ∈ OFFERED_CAPABILITIES).
  { intros cap. unfold offered. by rewrite elem_of_retain, bool_decide_eq_true. }
  destruct (retain offered l) as [|cap m] eqn:Em; cbn.
  - rewrite negb_false_iff. split; [destruct l; [by left|done]|].
    intros [->|(cap & Hc)]; [done|]. apply Hm in Hc. by apply elem_of_nil in Hc.
  - split; [|done]. intros _. right. exists cap. apply Hm. by left.
Qed.

Lemma timed_out_silent now c : timed_out now c = true ↔ silent now c.
Proof. apply Z.ltb_lt. Qed.

Lemma run_life g e id :
  map_Forall (λ _, healthy) g → life id e (g !! id) (groove_run g e !! id).
Proof.
  intros Hg. destruct e as [entropy now_ms now r|session|now_ms now session|now]; cbn [groove_run].
  - unfold groove_connect_handler. case_match eqn:Er; cbn [fst].
    { constructor. right. rewrite <- refused_iff. congruence. }
    apply refused_iff in Er. destruct (decide (generate_session_id entropy = id)) as [E|E].
    + rewrite E, lookup_insert_eq. by constructor.
    + rewrite lookup_insert_ne by done. constructor. left. congruence.
  - unfold groove_disconnect_handler. destruct (decide (session = id)) as [->|Hne].
    + destruct (g !! id) as [c|] eqn:Es; cbn [fst]; rewrite ?lookup_delete_eq, ?Es; constructor.
    + destruct (g !! session); cbn [fst]; rewrite ?lookup_delete_ne by done; by constructor.
  - unfold groove_heartbeat_handler. destruct (decide (session = id)) as [->|Hne].
    + destruct (g !! id) as [c|] eqn:Es; cbn [fst]; rewrite ?lookup_insert_eq, ?Es;
        [|by constructor; right]. unfold beat.
      destruct (Hg _ _ Es) as [[E|[E|E]] _]; rewrite E; constructor.
    + destruct (g !! session); cbn [fst]; rewrite ?lookup_insert_ne by done; by constructor; left.
  - cbn. rewrite lookup_omap. destruct (g !! id) as [c|] eqn:Ec; [|by constructor]. cbn. unfold check_timeout.
    destruct (timed_out now c) eqn:Et.
    + apply timed_out_silent in Et. unfold set_conn_state.
      destruct (Hg _ _ Ec) as [[E|[E|E]] _]; rewrite E; by constructor; rewrite ?E.
    + constructor. intros c' [= <-] Hs%timed_out_silent. congruence.
Qed.

(** C33 (the life cycle of a connection).  Whatever requests have come, every
    stored connection is connected, active or degraded and holds offered
    capabilities only, and the next request makes of a session exactly what the
    protocol says ([life], which leaves no choice): an accepted connect with its
    identifier opens it, a disconnect of it closes it, a heartbeat of it makes it
    active and restarts its clock, a status request degrades it when it has been
    silent for more than fifteen seconds, and removes it when it was degraded
    already; nothing else changes it. *)
Theorem connection_life_cycle es e id :
  let g := foldl groove_run ∅ es in
  (∀ after, life id e (g !! id) after ↔ groove_run g e !! id = after) ∧
  (∀ c, g !! id = Some c → live (conn_state c) ∧ ∀ cap, cap ∈ matched_capabilities c → cap ∈ OFFERED_CAPABILITIES).
Proof.
  intros g. pose proof (run_life g e id (reached_healthy es)) as Hl.
  split; [|intros c Hc; exact (reached_healthy es id c Hc)].
  intros after. split; [by apply life_deterministic|by intros <-].
Qed.

(** *** Silent peers *)

(** Time only adds to the silence, as long as the milliseconds fit 64 bits. *)
Lemma timed_out_later now now' c :
  now ≤ now' → now' - last_heartbeat_instant c < 2 ^ 64 * 1000000 → timed_out now c = true → timed_out now' c = true.
Proof.
  unfold timed_out, elapsed_ms, HEARTBEAT_TIMEOUT_MS. rewrite !Z.ltb_lt. intros Hn Hb.
  assert (∀ x, 0 ≤ x → x < 2 ^ 64 * 1000000 → wrap 64 (x / 1000000) = x / 1000000) as Hw.
  { intros x Hx Hx'. apply wrap_small. split; [by apply Z.div_pos|]. by apply Z.div_lt_upper_bound; lia. }
  rewrite !Hw by lia. intros H. eapply Z.lt_le_trans; [exact H|]. apply Z.div_le_mono; lia.
Qed.

Lemma degraded_removed now c : conn_state c = Degraded → timed_out now c = true → check_timeout now c = None.
Proof. unfold check_timeout. by intros -> ->. Qed.

(** Silence is noticed by status requests only.  A connection stays for as
    long as nobody asks for the status or disconnects it; once it has been
    silent for more than fifteen seconds two status requests remove it, however
    close they follow each other. *)
Theorem silent_peer_removed g id c now now' es :
  g !! id = Some c → live (conn_state c) → timed_out now c = true →
  now ≤ now' → now' - last_heartbeat_instant c < 2 ^ 64 * 1000000 →
  (Forall (λ e, match e with Status _ => False | Disconnect s => s ≠ id | _ => True end) es →
   is_Some (foldl groove_run g es !! id)) ∧
  foldl groove_run g [Status now; Status now'] !! id = None.
Proof.
  intros Hc Hl Ht Hn Hb. split.
  - clear Ht Hn Hb Hl. assert (is_Some (g !! id)) as Hs by by rewrite Hc. clear Hc c. revert g Hs.
    induction es as [|e es IH]; intros g Hs Hf; [done|]. apply Forall_cons in Hf as [He Hf]. cbn [foldl].
    apply IH; [|done]. destruct e as [entropy now_ms t r|session|now_ms t session|]; cbn [groove_run]; [| | |done].
    + unfold groove_connect_handler. case_match; [done|]. cbn [fst]. rewrite lookup_insert_is_Some'. by right.
    + unfold groove_disconnect_handler. case_match; [|done]. cbn [fst]. by rewrite lookup_delete_ne.
    + unfold groove_heartbeat_handler. case_match; [|done]. cbn [fst]. rewrite lookup_insert_is_Some'. by right.
  - cbn. rewrite !lookup_omap, Hc. cbn. unfold check_timeout at 2. rewrite Ht.
    pose proof (timed_out_later now now' c Hn Hb Ht) as Ht'.
    destruct Hl as [E|[E|E]]; rewrite E; cbn; [by apply degraded_removed..|done].
Qed.

(** *** What is advertised and what is offered *)

Definition accepts (caps : list string) : bool :=
  negb (is_nil (matched_of (mkConnect None None (Some caps))) && negb (is_nil caps)).

(** The manifest advertises two capabilities that no peer can connect for. *)
Theorem advertised_but_refused version c :
  c ∈ capabilities (manifest version) →
  accepts [cap_type c] = bool_decide (cap_type c ≠ "feedback" ∧ cap_type c ≠ "health-mesh").
Proof. cbn. rewrite !elem_of_cons, elem_of_nil. intros H. repeat destruct H as [-> | H]; [vm_compute; reflexivity..|done]. Qed.

(** ** Feedback keeps the newest entries *)

Definition feedback_run {M} (entries : list (FeedbackEntry M)) (p : Z * FeedbackRequest M) : list (FeedbackEntry M) :=
  (groove_feedback_handler p.1 p.2 entries).1.

Definition accepted {M} (reqs : list (Z * FeedbackRequest M)) : list (FeedbackEntry M) :=
  (λ p, feedback_entry p.1 p.2) <$> retain (λ p, bool_decide (fr_category p.2 ∈ valid_categories)) reqs.

(** Feedback keeps the newest.  However requests follow each other, the store
    holds the newest ten thousand accepted entries in their order. *)
Theorem feedback_keeps_newest {M} (reqs : list (Z * FeedbackRequest M)) :
  foldl feedback_run [] reqs = drop (length (accepted reqs) - MAX_FEEDBACK_ENTRIES) (accepted reqs).
Proof.
  induction reqs as [|p reqs IH] using rev_ind; [done|]. rewrite foldl_app, IH. cbn [foldl].
  unfold accepted in *. rewrite retain_app, fmap_app. cbn [retain].
  set (acc := (λ p, feedback_entry p.1 p.2) <$> retain (λ p, bool_decide (fr_category p.2 ∈ valid_categories)) reqs) in *.
  unfold feedback_run, groove_feedback_handler. destruct (bool_decide (fr_category p.2 ∈ valid_categories)); cbn [negb fst].
  2: { cbn. by rewrite app_nil_r. }
  cbn [fmap list_fmap]. rewrite !length_app, length_drop. cbn [length]. assert (0 < MAX_FEEDBACK_ENTRIES)%nat as Hn by (unfold MAX_FEEDBACK_ENTRIES; lia).
  revert Hn. generalize MAX_FEEDBACK_ENTRIES. intros n Hn.
  destruct (Nat.ltb_spec n (length acc - (length acc - n) + 1)).
  - rewrite drop_app_le by (rewrite length_drop; lia). rewrite drop_drop, drop_app_le by lia. do 2 f_equal. lia.
  - assert (length acc - n = 0)%nat as -> by lia. assert (length acc + 1 - n = 0)%nat as -> by lia. done.
Qed.

(** ** Witnesses *)

Module Witness.

Definition zeros : list byte := replicate 16 Byte.x00.
Definition burble : ConnectRequest := mkConnect (Some "burble") None (Some ["vcl"; "unknown"]).
Definition opened : GrooveState := groove_run ∅ (Connect zeros 0 0 burble).
Definition info : ConnectionInfo := mkConnection "burble" Connected 0 0 0 ["vcl"].
Definition late : Z := 15001000000.

(** Fifteen seconds and a millisecond after the connection, two requests at one time. *)
Lemma silent_peer_removed_witness :
  foldl groove_run opened [Status late; Status late] !! generate_session_id zeros = None.
Proof.
  apply (silent_peer_removed opened (generate_session_id zeros) info late late []); [vm_compute; reflexivity|by left|vm_compute; reflexivity|..];
    unfold late; cbn; lia.
Defined.

End Witness.
