(* ===== verification/Federation.v ===== *)
(** Federation (verisim-api/src/federation.rs): the registry of peer stores, who
    may join it, and queries that are fanned out to the peers.

    The registry is behind one lock.  Registration and deregistration take it
    once; a heartbeat takes it twice, once to check the peer's secret and once
    to note the time, and a query copies what it needs before it calls the
    peers.  What the HTTP client answers is a parameter. *)

From Stdlib Require Import Strings.Ascii.
From S2P Require Import Prelude Machine Text Float64 Collections Format PlanCache Lexing.
From S2P Require VclBridge.

Local Open Scope string_scope.
Local Open Scope Z_scope.

(** ** State *)

Inductive DriftPolicy := Strict | Repair | Tolerate | Latest.
Definition drift_policy_default : DriftPolicy := Tolerate.

Record PeerStore := mkPeer {
  store_id : string; endpoint : string; modalities : list string; trust_level : f64;
  last_seen : option string; response_time_ms : option Z; secret_hash : option string }.

Record FederationState := mkFederation {
  peers : gmap string PeerStore;
  self_store_id : string; self_endpoint : string;
  strict_drift_threshold : f64;
  federation_keys : gmap string string;
}.

Definition set_peers (p : gmap string PeerStore) (s : FederationState) : FederationState :=
  mkFederation p (self_store_id s) (self_endpoint s) (strict_drift_threshold s) (federation_keys s).

(** [splitn(2, c)] of a string that contains [c]. *)
Fixpoint split_once (c : ascii) (s : string) : option (string * string) :=
  match s with
  | "" => None
  | String a s => if Ascii.eqb a c then Some ("", s)
                  else '(l, r) ← split_once c s; Some (String a l, r)
  end.

Definition key_entry (pair : string) : option (string * string) :=
  '(id, key) ← split_once ":" pair; Some (trim id, trim key).

(** [val] is the variable [VERISIM_FEDERATION_KEYS]; later entries replace earlier ones. *)
Definition load_federation_keys (val : option string) : gmap string string :=
  match val with
  | None | Some "" => ∅
  | Some v => foldl (λ m p, <[p.1 := p.2]> m) ∅ (omap key_entry (split_char ","%char v))
  end.

Definition federation_new (self_id self_url : string) (val : option string) : FederationState :=
  mkFederation ∅ self_id self_url (f64_lit 3 10) (load_federation_keys val).

Definition registration_enabled (s : FederationState) : bool := negb (bool_decide (federation_keys s = ∅)).

Definition validate_psk (s : FederationState) (id secret : string) : bool :=
  match federation_keys s !! id with Some key => String.eqb key secret | None => false end.

(** ** Handlers *)

Definition FORBIDDEN : Z := 403.
Definition BAD_REQUEST : Z := 400.
Definition UNAUTHORIZED : Z := 401.

Record RegisterRequest := mkRegister {
  reg_store_id : string; reg_endpoint : string; reg_modalities : list string; reg_secret : option string }.

Record HeartbeatRequest := mkHeartbeat { hb_store_id : string; hb_drift_scores : list (string * f64) }.

Section handlers.
Context `{Sha256} `{CharClass} `{MapIter}.

(** [header] is the text of X-Federation-PSK, when there is one. *)
Definition validate_peer_header (s : FederationState) (id : string) (header : option string) : result Z unit :=
  let psk := default "" header in
  ensure nonempty psk else UNAUTHORIZED ;;
  match p ← peers s !! id; secret_hash p with
  | Some stored => if String.eqb stored (sha256_hex psk) then Ok () else Err UNAUTHORIZED
  | None => Err UNAUTHORIZED
  end.

Definition list_peers (modality : option string) (s : FederationState) : list PeerStore :=
  retain (λ p, match modality with Some m => bool_decide (m ∈ modalities p) | None => true end)
    (map_iter (peers s)).*2.

Definition store_char (c : string) : bool :=
  is_alphanumeric c || String.eqb c "-" || String.eqb c "_" || String.eqb c "/".

Definition valid_store_id (id : string) : bool :=
  nonempty id && (String.length id <=? 128)%nat && forallb store_char (chars id).

(** [now]: the time, as text. *)
Definition register_peer (now : string) (r : RegisterRequest) (s : FederationState) :
    FederationState * result Z PeerStore :=
  if negb (registration_enabled s) then (s, Err FORBIDDEN)
  else if negb (valid_store_id (reg_store_id r)) then (s, Err BAD_REQUEST)
  else
    let secret := default "" (reg_secret r) in
    if negb (validate_psk s (reg_store_id r) secret) then (s, Err UNAUTHORIZED)
    else
      let peer := mkPeer (reg_store_id r) (reg_endpoint r) (reg_modalities r) f64_one (Some now) None
                    (Some (sha256_hex secret)) in
      (set_peers (<[reg_store_id r := peer]> (peers s)) s, Ok peer).

Definition seen (now : string) (p : PeerStore) : PeerStore :=
  mkPeer (store_id p) (endpoint p) (modalities p) (trust_level p) (Some now) (response_time_ms p) (secret_hash p).

(** The second critical section of a heartbeat; [true] is 200, [false] 404. *)
Definition note_heartbeat (now id : string) (s : FederationState) : FederationState * bool :=
  match peers s !! id with
  | Some p => (set_peers (<[id := seen now p]> (peers s)) s, true)
  | None => (s, false)
  end.

Definition heartbeat (now : string) (header : option string) (r : HeartbeatRequest) (s : FederationState) :
    FederationState * result Z bool :=
  match validate_peer_header s (hb_store_id r) header with
  | Err code => (s, Err code)
  | Ok _ => let '(s, b) := note_heartbeat now (hb_store_id r) s in (s, Ok b)
  end.

Definition deregister_peer (id : string) (s : FederationState) : FederationState * bool :=
  match peers s !! id with
  | Some _ => (set_peers (delete id (peers s)) s, true)
  | None => (s, false)
  end.

End handlers.

(** ** Queries *)

Definition pattern_matches (pattern id : string) : bool :=
  if String.eqb pattern "*" then true
  else match strip_suffix "/*" pattern with
       | Some prefix => starts_with prefix id
       | None => String.eqb pattern id
       end.

(** The request to a peer. *)
Inductive PeerCall :=
  | GetText (url q limit : string)
  | PostVector (url : string) (vector : list f32) (k : Z)
  | GetList (url limit : string).

(** What becomes of it. *)
Inductive PeerReply (V : Type) :=
  | SendError (e : string)
  | BadStatus (status : string)
  | BadBody (e : string)
  | Items (l : list V)
  | TimedOut.
#[global] Arguments SendError {V} e.
#[global] Arguments BadStatus {V} status.
#[global] Arguments BadBody {V} e.
#[global] Arguments Items {V} l.
#[global] Arguments TimedOut {V}.

Section queries.
Context `{MapIter} `{J : VclBridge.Json}.

Record FederationQueryRequest := mkQuery {
  fq_pattern : string; fq_modalities : list string; fq_policy : DriftPolicy; fq_limit : option Z;
  fq_text : option string; fq_vector : option (list f32) }.

Record FederationResult := mkResult {
  source_store : string; fed_octad_id : string; fed_score : f64; drifted : bool; fed_data : VclBridge.Value }.

Record FederationQueryResponse := mkQueryResponse {
  results : list FederationResult; stores_queried : list string; stores_excluded : list string;
  resp_policy : DriftPolicy }.

(** [item[key]]: null when there is no such member. *)
Definition member (key : string) (v : VclBridge.Value) : option VclBridge.Value :=
  l ← VclBridge.as_object v; snd <$> List.find (λ p : string * VclBridge.Value, String.eqb p.1 key) l.

Definition peer_result (store : string) (item : VclBridge.Value) : FederationResult :=
  mkResult store (default "unknown" (v ← member "id" item; VclBridge.as_str v))
    (default f64_zero (v ← member "score" item; VclBridge.as_f64 v)) false item.

Definition peer_call (p : PeerStore) (text : option string) (vector : option (list f32)) (limit : Z) : PeerCall :=
  match text, vector with
  | Some q, _ => GetText (cat [endpoint p; "/search/text"]) q (fmt_u64 limit)
  | None, Some v => PostVector (cat [endpoint p; "/search/vector"]) v limit
  | None, None => GetList (cat [endpoint p; "/octads"]) (fmt_u64 limit)
  end.

Context (http : PeerCall → PeerReply VclBridge.Value).

Definition query_single_peer (p : PeerStore) (text : option string) (vector : option (list f32)) (limit : Z) :
    result string (list FederationResult) :=
  match http (peer_call p text vector limit) with
  | SendError e => Err (cat ["HTTP request to "; store_id p; " failed: "; e])
  | BadStatus st => Err (cat ["Peer "; store_id p; " returned status "; st])
  | BadBody e => Err (cat ["Failed to parse response from "; store_id p; ": "; e])
  | TimedOut => Err "timed out"
  | Items l => Ok (peer_result (store_id p) <$> l)
  end.

(** What a task returns: nothing, if the peer fails. *)
Definition peer_task (r : FederationQueryRequest) (limit : Z) (p : PeerStore) : list FederationResult :=
  match query_single_peer p (fq_text r) (fq_vector r) limit with Ok l => l | Err _ => [] end.

Definition matches (r : FederationQueryRequest) (p : PeerStore) : bool :=
  pattern_matches (fq_pattern r) (store_id p) && forallb (λ m, bool_decide (m ∈ modalities p)) (fq_modalities r).

Definition included (s : FederationState) (policy : DriftPolicy) (p : PeerStore) : bool :=
  match policy with
  | Strict => f64_geb (trust_level p) (f64_sub f64_one (strict_drift_threshold s))
  | Repair | Tolerate | Latest => true
  end.

(** The stores to query and those excluded; the store itself is neither. *)
Definition choose_stores (r : FederationQueryRequest) (s : FederationState) : list PeerStore * list string :=
  let others := retain (λ p, negb (String.eqb (store_id p) (self_store_id s)))
                  (retain (matches r) (map_iter (peers s)).*2) in
  (retain (included s (fq_policy r)) others,
   store_id <$> retain (λ p, negb (included s (fq_policy r) p)) others).

Definition federation_query (r : FederationQueryRequest) (s : FederationState) : FederationQueryResponse :=
  let limit := Z.min 1000 (default 100 (fq_limit r)) in
  let '(to_query, excluded) := choose_stores r s in
  let all := mjoin (peer_task r limit <$> to_query) in
  mkQueryResponse
    (take (Z.to_nat limit) (sort_by (λ a b, f64_ltb (fed_score b) (fed_score a)) all))
    (store_id <$> to_query) excluded (fq_policy r).

End queries.

(** ** Who is in the federation *)

Inductive federation_event :=
  | Register (now : string) (r : RegisterRequest)
  | Beat (now : string) (header : option string) (r : HeartbeatRequest)
  | Deregister (id : string).

Section membership.
Context `{Sha256} `{CharClass}.

Definition federation_run (s : FederationState) (e : federation_event) : FederationState :=
  match e with
  | Register now r => (register_peer now r s).1
  | Beat now header r => (heartbeat now header r s).1
  | Deregister id => (deregister_peer id s).1
  end.

(** A peer that proved to know its configured key. *)
Definition authentic (keys : gmap string string) (id : string) (p : PeerStore) : Prop :=
  store_id p = id ∧ trust_level p = f64_one ∧
  ∃ key, keys !! id = Some key ∧ secret_hash p = Some (sha256_hex key).

Lemma run_keys s e : federation_keys (federation_run s e) = federation_keys s.
Proof.
  destruct e; cbn [federation_run]; unfold register_peer, heartbeat, note_heartbeat, deregister_peer; repeat case_match; simplify_eq/=; done.
Qed.

Lemma run_threshold s e : strict_drift_threshold (federation_run s e) = strict_drift_threshold s.
Proof.
  destruct e; cbn [federation_run]; unfold register_peer, heartbeat, note_heartbeat, deregister_peer; repeat case_match; simplify_eq/=; done.
Qed.

Lemma seen_authentic keys now id p : authentic keys id p → authentic keys id (seen now p).
Proof. done. Qed.

Lemma run_authentic s e :
  map_Forall (authentic (federation_keys s)) (peers s) →
  map_Forall (authentic (federation_keys s)) (peers (federation_run s e)).
Proof.
  intros Hs. destruct e as [now r|now header r|id]; cbn [federation_run].
  - unfold register_peer. repeat (case_match; [done|]). apply negb_false_iff in H2, H3. cbn [fst peers set_peers].
    apply map_Forall_insert_2; [|done]. unfold validate_psk in H3.
    destruct (federation_keys s !! reg_store_id r) as [key|] eqn:Ek; [|done]. apply String.eqb_eq in H3 as ->.
    split_and!; [done..|]. by eexists.
  - unfold heartbeat, note_heartbeat. destruct (validate_peer_header _ _ _); [|done].
    destruct (peers s !! hb_store_id r) as [p|] eqn:Ep; [|done]. cbn [fst peers set_peers].
    apply map_Forall_insert_2; [|done]. apply seen_authentic. by eapply Hs.
  - unfold deregister_peer. case_match; [|done]. by apply map_Forall_delete.
Qed.

Lemma reached_authentic s es :
  peers s = ∅ →
  let s' := foldl federation_run s es in
  federation_keys s' = federation_keys s ∧ strict_drift_threshold s' = strict_drift_threshold s ∧
  map_Forall (authentic (federation_keys s)) (peers s').
Proof.
  intros He. induction es as [|e es IH] using rev_ind; cbn.
  - rewrite He. split_and!; [done..|]. apply map_Forall_empty.
  - rewrite foldl_app. cbn. destruct IH as (Hk & Ht & Ha). rewrite run_keys, run_threshold.
    split_and!; [done..|]. rewrite <- Hk in *. by apply run_authentic.
Qed.

(** C22 (the federation is closed).  Whatever requests have come, every registered
    peer is filed under its identifier, has a configured key, registered with
    that key and is fully trusted; a heartbeat of a peer is accepted for its
    key, unless the key is empty, and for no other secret unless SHA-256
    collides, and never on behalf of a store that is not registered. *)
Theorem federation_authentic self url val es now header r :
  let s := foldl federation_run (federation_new self url val) es in
  let id := hb_store_id r in
  federation_keys s = load_federation_keys val ∧
  (∀ i p, peers s !! i = Some p → authentic (federation_keys s) i p) ∧
  match peers s !! id, federation_keys s !! id with
  | Some p, Some key =>
      (header = Some key → key ≠ "" → heartbeat now header r s = (set_peers (<[id := seen now p]> (peers s)) s, Ok true)) ∧
      (is_ok (heartbeat now header r s).2 = true →
       ∃ psk, header = Some psk ∧ psk ≠ "" ∧ sha256_hex psk = sha256_hex key)
  | Some _, None => False
  | None, _ => heartbeat now header r s = (s, Err UNAUTHORIZED)
  end.
Proof.
  intros s id. destruct (reached_authentic (federation_new self url val) es eq_refl) as (Hk & _ & Ha).
  fold s in Hk, Ha. rewrite <- Hk in Ha. split_and!; [done|intros i p Hi; by apply Ha|].
  unfold heartbeat. fold id. unfold validate_peer_header, note_heartbeat.
  destruct (peers s !! id) as [p|] eqn:Ep.
  2: { cbn. by destruct (nonempty (default "" header)). }
  destruct (Ha _ _ Ep) as (_ & _ & key & Hkey & Hh). rewrite Hkey. cbn. rewrite Hh. split.
  - intros -> Hne. cbn. destruct key; [done|]. cbn [nonempty]. by rewrite String.eqb_refl.
  - destruct header as [psk|]; cbn; [|done]. destruct (nonempty psk) eqn:En; [|done].
    destruct (String.eqb_spec (sha256_hex key) (sha256_hex psk)) as [E|]; [|done]. intros _. exists psk.
    split_and!; [done|by intros ->|done].
Qed.

(** An empty key lets a store register without a secret, and no heartbeat in. *)
Lemma empty_key_no_heartbeat now r s : heartbeat now (Some "") r s = (s, Err UNAUTHORIZED).
Proof. done. Qed.
End membership.

(** ** What a query returns *)

(** The documented pattern matches more than the path below its prefix. *)
Lemma pattern_no_separator p s : p ≠ "" → pattern_matches (p +:+ "/*") (p +:+ s) = true.
Proof.
  intros Hp. unfold pattern_matches. destruct (String.eqb _ _) eqn:E; [done|]. rewrite strip_suffix_app.
  rewrite starts_with_strip_prefix, strip_prefix_app. done.
Qed.

(** serde_json has no number that is not finite. *)
Class JsonNumbers (J : VclBridge.Json) := json_number v x : VclBridge.as_f64 v = Some x → f64_is_nan x = false.

Section queries.
Context `{Sha256} `{CharClass} `{MapIterLaws} `{J : VclBridge.Json}.
Context (http : PeerCall → PeerReply VclBridge.Value).

Lemma retain_both {A} (f g : A → bool) (l : list A) : retain f (retain g l) = retain (λ x, g x && f x) l.
Proof. induction l as [|x l IH]; [done|]. cbn. destruct (g x); cbn; [|done]. by rewrite IH. Qed.

Lemma peer_listed (s : FederationState) p : p ∈ (map_iter (peers s)).*2 → ∃ id, peers s !! id = Some p.
Proof.
  intros ([id p'] & -> & Hp)%list_elem_of_fmap. rewrite (map_iter_perm _ _), elem_of_map_to_list in Hp. by exists id.
Qed.

Definition with_policy (policy : DriftPolicy) (r : FederationQueryRequest) : FederationQueryRequest :=
  mkQuery (fq_pattern r) (fq_modalities r) policy (fq_limit r) (fq_text r) (fq_vector r).

(** The policies do not differ.  Under each of the four drift policies a
    query asks the same stores and returns the same results, and excludes no
    store: trust is always full, and nothing lowers it. *)
Theorem policies_agree self url val es r policy :
  let s := foldl federation_run (federation_new self url val) es in
  let a := federation_query http r s in
  let b := federation_query http (with_policy policy r) s in
  results a = results b ∧ stores_queried a = stores_queried b ∧ stores_excluded a = [].
Proof.
  intros s a b. destruct (reached_authentic (federation_new self url val) es eq_refl) as (_ & Ht & Ha). fold s in Ht, Ha.
  assert (∀ q, choose_stores q s =
    (retain (λ p, negb (String.eqb (store_id p) (self_store_id s))) (retain (matches q) (map_iter (peers s)).*2), [])) as Hc.
  { intros q. unfold choose_stores.
    assert (∀ p, p ∈ retain (λ p, negb (String.eqb (store_id p) (self_store_id s))) (retain (matches q) (map_iter (peers s)).*2) →
      included s (fq_policy q) p = true) as Hi.
    { intros p. rewrite !elem_of_retain. intros [[Hp _] _]. apply peer_listed in Hp as [id Hp].
      destruct (Ha _ _ Hp) as (_ & Htr & _). unfold included. rewrite Htr, Ht. by destruct (fq_policy q); vm_compute. }
    rewrite retain_all by done. rewrite (retain_none (λ p, negb (included s (fq_policy q) p))); [done|]. intros p Hp. by rewrite Hi. }
  subst a b. unfold federation_query. rewrite !Hc. done.
Qed.

Lemma from_peer r limit l f :
  f ∈ mjoin (peer_task http r limit <$> l) →
  ∃ p item items, p ∈ l ∧ http (peer_call p (fq_text r) (fq_vector r) limit) = Items items ∧ item ∈ items ∧
    f = peer_result (store_id p) item.
Proof.
  rewrite list_elem_of_join. intros (x & Hf & (p & -> & Hp)%list_elem_of_fmap). unfold peer_task, query_single_peer in Hf.
  destruct (http _) eqn:Eh; try by apply elem_of_nil in Hf.
  apply list_elem_of_fmap in Hf as (item & -> & Hi). by exists p, item, l0.
Qed.

(** C23 (federated results).  Every result of a query is an item that a registered
    peer other than the store itself answered, one that matches the pattern and
    has every modality asked for; the results are the best by score of all that
    the asked peers answered, best first and at most a thousand, so a peer that
    fails or times out costs its own results only. *)
Theorem federation_query_sound `{!JsonNumbers J} s r :
  let limit := Z.min 1000 (default 100 (fq_limit r)) in
  let resp := federation_query http r s in
  let answered := mjoin (peer_task http r limit <$> (choose_stores r s).1) in
  best (descending fed_score) (Z.to_nat limit) answered (results resp) ∧
  (∀ f, f ∈ results resp → ∃ id p item items,
     peers s !! id = Some p ∧ store_id p ≠ self_store_id s ∧ pattern_matches (fq_pattern r) (store_id p) = true ∧
     (∀ m, m ∈ fq_modalities r → m ∈ modalities p) ∧ store_id p ∈ stores_queried resp ∧
     http (peer_call p (fq_text r) (fq_vector r) limit) = Items items ∧ item ∈ items ∧ f = peer_result (store_id p) item).
Proof.
  intros limit resp answered.
  assert (best (descending fed_score) (Z.to_nat limit) answered (results resp)) as Hb.
  { subst resp. unfold federation_query. fold limit. unfold answered. destruct (choose_stores r s) as [l ex]. cbn [results fst].
    apply ranked_descending. apply Forall_forall. intros f Hf. apply from_peer in Hf as (p & item & items & _ & _ & _ & ->).
    cbn [fed_score peer_result]. destruct (member "score" item) as [v|]; [|done]. cbn.
    destruct (VclBridge.as_f64 v) as [x|] eqn:Ex; [|done]. by apply (json_number v). }
  split; [done|]. intros f Hf. destruct Hb as (_ & _ & rest & Hp & _).
  assert (f ∈ answered) as Hin by (rewrite Hp; by apply elem_of_app; left).
  apply from_peer in Hin as (p & item & items & Hpl & Hh & Hi & ->).
  assert (stores_queried resp = store_id <$> (choose_stores r s).1) as Hq.
  { subst resp. unfold federation_query. by destruct (choose_stores r s). }
  pose proof Hpl as Hpl'. unfold choose_stores in Hpl. cbn [fst] in Hpl. rewrite !elem_of_retain in Hpl.
  destruct Hpl as [[[Hl Hm] Hn] _]. apply peer_listed in Hl as [id Hl]. exists id, p, item, items.
  apply negb_true_iff, String.eqb_neq in Hn. unfold matches in Hm. apply andb_true_iff in Hm as [Hpat Hmod].
  split_and!; [done|done|done| |rewrite Hq; by apply list_elem_of_fmap_2|done|done|done].
  intros m Hm. rewrite forallb_forall in Hmod. specialize (Hmod m (proj1 (list_elem_of_In _ _) Hm)). by apply bool_decide_eq_true in Hmod.
Qed.

End queries.

(** ** Witnesses *)

Module Witness.

#[export] Instance plain : Sha256 := λ s, s.
#[export] Instance letters : CharClass := λ _, true.
#[export] Instance map_order : MapIter := λ A m, map_to_list m.
#[export] Instance map_order_laws : MapIterLaws map_order.
Proof. intros A m. reflexivity. Defined.

(** A hit with an identifier and a score, or one of the two. *)
Inductive value := Id (s : string) | Score (n : Z) | Hit (s : string) (n : Z).

#[export] Instance hits : VclBridge.Json := {|
  VclBridge.Value := value;
  VclBridge.as_object v := match v with Hit s n => Some [("id", Id s); ("score", Score n)] | _ => None end;
  VclBridge.as_str v := match v with Id s => Some s | _ => None end;
  VclBridge.as_array _ := None;
  VclBridge.as_f64 v := match v with Score n => if n =? 0 then Some f64_zero else Some f64_one | _ => None end;
  VclBridge.as_u64 _ := None; VclBridge.value_to_string _ := ""; VclBridge.depth _ := 0%nat |}.
#[export] Instance hit_numbers : JsonNumbers hits.
Proof. intros [s|n|s n] x; cbn; [done| |done]. destruct (n =? 0); intros [= <-]; reflexivity. Defined.

(** Two peers join; one of them answers two hits, the other fails. *)
Definition joined : list federation_event :=
  [Register "t" (mkRegister "a" "http://a" ["graph"] (Some "k")); Register "t" (mkRegister "b" "http://b" ["graph"] (Some "l"))].
Definition members : FederationState := foldl federation_run (federation_new "self" "http://self" (Some "a:k, b:l")) joined.
Definition query (policy : DriftPolicy) : FederationQueryRequest := mkQuery "*" ["graph"] policy None (Some "q") None.
Definition net (c : PeerCall) : PeerReply VclBridge.Value :=
  match c with GetText "http://a/search/text" _ _ => Items [Hit "x" 0; Hit "y" 1] | _ => BadStatus "500" end.

Lemma policies_agree_witness :
  stores_excluded (federation_query net (query Strict) members) = [] ∧
  fed_octad_id <$> results (federation_query net (query Strict) members) = ["y"; "x"].
Proof.
  split; [|vm_compute; reflexivity].
  apply (policies_agree net "self" "http://self" (Some "a:k, b:l") joined (query Strict) Latest).
Defined.

Lemma federation_query_sound_witness :
  best (descending fed_score) 100 (mjoin (peer_task net (query Latest) 100 <$> (choose_stores (query Latest) members).1))
    (results (federation_query net (query Latest) members)).
Proof. apply (federation_query_sound net members (query Latest)). Defined.

End Witness.
