(* ===== verification/ProofBridges.v ===== *)
(** Proof blobs and the bridges that make them (verisim-semantic/src/lib.rs,
    proven_bridge.rs, sanctify_bridge.rs): what a stored proof is worth, the
    certificates of external provers, and the contracts over security reports.

    The encodings of serde_json and ciborium, the clock and chrono's parser are
    parameters; SHA-256 is [Zkp.Digest]. *)

From Stdlib Require Import Strings.Ascii.
From S2P Require Import Prelude Machine Text Collections.
From S2P Require Import Zkp ZkpTheorems.
From S2P Require Circuits.

Local Open Scope string_scope.
Local Open Scope Z_scope.

Inductive SemanticError :=
  | TypeNotFound (msg : string)
  | ConstraintViolation (msg : string)
  | InvalidProof (msg : string)
  | SerializationError (msg : string)
  | LockPoisoned.

Definition semantic_error_display (e : SemanticError) : string :=
  match e with
  | TypeNotFound m => cat ["Type not found: "; m]
  | ConstraintViolation m => cat ["Constraint violation: "; m]
  | InvalidProof m => cat ["Invalid proof: "; m]
  | SerializationError m => cat ["Serialization error: "; m]
  | LockPoisoned => "Lock poisoned: internal concurrency error"
  end.

(** ** Proof blobs (lib.rs) *)

Inductive ProofType := TypeAssignment | ConstraintSatisfaction | Derivation | Attestation.

Record ProofBlob := mkBlob {
  claim : string; proof_type : ProofType; data : list byte; blob_timestamp : string }.

(** ciborium: the text of an error, or the value. *)
Class Cbor := {
  cbor_proof : list byte → result string VerifiableProofData;
  cbor_of_blob : ProofBlob → result string (list byte);
  blob_of_cbor : list byte → result string ProofBlob;
}.

Module Proofs.
Section proofs.
Context `{Digest} `{Cbor}.

(** [now] is the reading of the clock. *)
Definition ProofBlob_new (claim : string) (ty : ProofType) (data : list byte) (now : string) : ProofBlob :=
  mkBlob claim ty data now.

Definition to_cbor (b : ProofBlob) : result SemanticError (list byte) :=
  map_err SerializationError (cbor_of_blob b).
Definition from_cbor (l : list byte) : result SemanticError ProofBlob :=
  map_err SerializationError (blob_of_cbor l).

Definition is_empty {A} (l : list A) : bool := match l with [] => true | _ => false end.

Definition verify (b : ProofBlob) : result SemanticError bool :=
  match cbor_proof (data b) with
  | Ok d => Ok (verify_proof d (as_bytes (claim b)))
  | Err _ =>
      match proof_type b with
      | Attestation => Ok true
      | ConstraintSatisfaction => Ok (negb (is_empty (data b)))
      | Derivation | TypeAssignment => Ok (negb (is_empty (data b)))
      end
  end.

(** The proofs of a store; they have a lock of their own. *)
Abbreviation Store := (gmap string (list ProofBlob)).

Definition store_proof (p : ProofBlob) : SR Store SemanticError unit :=
  sr_modify (λ s, <[claim p := (default [] (s !! claim p) ++ [p])%list]> s).
Definition get_proofs (c : string) (s : Store) : result SemanticError (list ProofBlob) :=
  Ok (default [] (s !! c)).

Definition counts (p : ProofBlob) : bool := match verify p with Ok b => b | Err _ => false end.

Definition verify_proofs (c : string) (s : Store) : result SemanticError (nat * nat) :=
  proofs ← get_proofs c s;
  Ok (length (retain counts proofs), length proofs).

End proofs.
End Proofs.

(** ** Certificates of external provers (proven_bridge.rs) *)

Inductive ProverKind := Z3 | Lean | Coq | Agda | Idris2 | Custom (name : string).

Definition prover_display (p : ProverKind) : string :=
  match p with
  | Z3 => "z3" | Lean => "lean" | Coq => "coq" | Agda => "agda" | Idris2 => "idris2"
  | Custom name => cat ["custom:"; name]
  end.

Record ProvenCertificate := mkCertificate {
  version : string;
  prover : ProverKind;
  statement : string;
  proof_term : option string;
  valid : bool;
  cert_message : option string;
  timestamp : string;
  signature : string;
}.

(** serde_json and ciborium on certificates, and [parse_from_rfc3339]. *)
Class CertificateText := {
  certificate_json : ProvenCertificate → result string (list byte);
  certificate_of_json : list byte → result string ProvenCertificate;
  certificate_of_cbor : list byte → result string ProvenCertificate;
  check_rfc3339 : string → result string unit;
}.

Module Certificates.
Section certificates.
Context `{Digest} `{CertificateText}.

(** What is hashed. *)
Definition signed_bytes (p : ProverKind) (st : string) (term : option string) : list byte :=
  (as_bytes (prover_display p) ++ as_bytes ":" ++ as_bytes st ++ as_bytes ":" ++ as_bytes (default "" term))%list.

Definition compute_signature (p : ProverKind) (st : string) (term : option string) : string :=
  cat ["sha256:"; Circuits.sha256_hex (signed_bytes p st term)].

Definition parse_proven_certificate (l : list byte) : result SemanticError ProvenCertificate :=
  map_err (λ e, SerializationError (cat ["Failed to parse proven certificate: "; e])) (certificate_of_json l).
Definition parse_proven_certificate_cbor (l : list byte) : result SemanticError ProvenCertificate :=
  map_err (λ e, SerializationError (cat ["Failed to parse proven certificate (CBOR): "; e])) (certificate_of_cbor l).

Definition verify_proven_certificate (c : ProvenCertificate) : result SemanticError bool :=
  ensure String.eqb (version c) "1.0"
  else InvalidProof (cat ["Unsupported certificate version: "; version c]);;
  if negb (String.eqb (signature c) (compute_signature (prover c) (statement c) (proof_term c))) then Ok false
  else
    _ ← map_err (λ e, InvalidProof (cat ["Invalid timestamp: "; e])) (check_rfc3339 (timestamp c));
    Ok (valid c).

Definition certificate_to_proof_blob (c : ProvenCertificate) : result SemanticError ProofBlob :=
  data ← map_err SerializationError (certificate_json c);
  Ok (mkBlob (statement c) Attestation data (timestamp c)).

Definition create_certificate (p : ProverKind) (st : string) (term : option string) (ok : bool)
    (message : option string) (now : string) : ProvenCertificate :=
  mkCertificate "1.0" p st term ok message now (compute_signature p st term).

End certificates.
End Certificates.

(** ** Contracts over security reports (sanctify_bridge.rs) *)

Inductive Severity := Info | Low | Medium | High | Critical.

#[export] Instance severity_dec : EqDecision Severity.
Proof. solve_decision. Defined.

Definition severity_display (s : Severity) : string :=
  match s with Info => "info" | Low => "low" | Medium => "medium" | High => "high" | Critical => "critical" end.

(** The derived order. *)
Definition severity_rank (s : Severity) : Z :=
  match s with Info => 0 | Low => 1 | Medium => 2 | High => 3 | Critical => 4 end.

Inductive IssueType :=
  | SqlInjection | CrossSiteScripting | CrossSiteRequestForgery | CommandInjection | PathTraversal
  | UnsafeDeserialization | WeakCryptography | HardcodedSecret | DangerousFunction | InsecureFileUpload
  | OpenRedirect | XPathInjection | LdapInjection | XXeVulnerability | InsecureRandom | MissingStrictTypes
  | TypeCoercionRisk.

Definition issue_type_display (t : IssueType) : string :=
  match t with
  | SqlInjection => "SqlInjection" | CrossSiteScripting => "CrossSiteScripting"
  | CrossSiteRequestForgery => "CrossSiteRequestForgery" | CommandInjection => "CommandInjection"
  | PathTraversal => "PathTraversal" | UnsafeDeserialization => "UnsafeDeserialization"
  | WeakCryptography => "WeakCryptography" | HardcodedSecret => "HardcodedSecret"
  | DangerousFunction => "DangerousFunction" | InsecureFileUpload => "InsecureFileUpload"
  | OpenRedirect => "OpenRedirect" | XPathInjection => "XPathInjection" | LdapInjection => "LdapInjection"
  | XXeVulnerability => "XXeVulnerability" | InsecureRandom => "InsecureRandom"
  | MissingStrictTypes => "MissingStrictTypes" | TypeCoercionRisk => "TypeCoercionRisk"
  end.

Record SecurityIssue := mkIssue {
  issue_type : IssueType; severity : Severity; file : string; line : Z; column : option Z;
  description : string; remedy : string; code : option string }.

Record IssueSummary := mkSummary { critical : Z; high : Z; medium : Z; low : Z; info : Z }.

Record SanctifyReport := mkReport {
  report_timestamp : string; report_version : string; files_analysed : Z;
  issues : list SecurityIssue; summary : IssueSummary }.

Record SanctifyContract := mkContract {
  contract_id : string; contract_octad : string; report : SanctifyReport;
  all_critical_resolved : bool; all_high_resolved : bool; created_at : string }.

Class ReportText := {
  report_of_json : list byte → result string SanctifyReport;
  contract_json : SanctifyContract → result string (list byte);
}.

Module Sanctify.

(** [usize] additions. *)
Definition total (s : IssueSummary) : Z :=
  wrap 64 (wrap 64 (wrap 64 (wrap 64 (critical s + high s) + medium s) + low s) + info s).

Definition summary_default : IssueSummary := mkSummary 0 0 0 0 0.

Definition count_issue (s : IssueSummary) (i : SecurityIssue) : IssueSummary :=
  match severity i with
  | Critical => mkSummary (wrap 64 (critical s + 1)) (high s) (medium s) (low s) (info s)
  | High => mkSummary (critical s) (wrap 64 (high s + 1)) (medium s) (low s) (info s)
  | Medium => mkSummary (critical s) (high s) (wrap 64 (medium s + 1)) (low s) (info s)
  | Low => mkSummary (critical s) (high s) (medium s) (wrap 64 (low s + 1)) (info s)
  | Info => mkSummary (critical s) (high s) (medium s) (low s) (wrap 64 (info s + 1))
  end.
Definition from_issues (l : list SecurityIssue) : IssueSummary := foldl count_issue summary_default l.

Definition nonempty (s : string) : bool := match s with "" => false | _ => true end.

Definition validate_contract (c : SanctifyContract) : result SemanticError bool :=
  ensure nonempty (contract_id c) else ConstraintViolation "Contract ID must not be empty";;
  ensure nonempty (contract_octad c) else ConstraintViolation "Octad ID must not be empty";;
  let computed := from_issues (issues (report c)) in
  ensure total computed =? total (summary (report c))
  else ConstraintViolation (cat ["Summary mismatch: computed "; fmt_u64 (total computed);
         " issues but summary says "; fmt_u64 (total (summary (report c)))]);;
  if all_critical_resolved c && (0 <? critical (summary (report c))) then Ok false
  else if all_high_resolved c && (0 <? high (summary (report c))) then Ok false
  else Ok true.

Section text.
Context `{ReportText}.

Definition parse_sanctify_report (l : list byte) : result SemanticError SanctifyReport :=
  map_err (λ e, SerializationError (cat ["Failed to parse sanctify report: "; e])) (report_of_json l).

Definition contract_to_proof_blob (c : SanctifyContract) : result SemanticError ProofBlob :=
  data ← map_err SerializationError (contract_json c);
  Ok (mkBlob (cat ["security-audit:"; contract_id c; " octad:"; contract_octad c; " issues:";
                   fmt_u64 (total (summary (report c)))])
        Attestation data (created_at c)).

End text.

Definition bind_contract_to_octad (id octad : string) (r : SanctifyReport) (now : string) : SanctifyContract :=
  mkContract id octad r (critical (summary r) =? 0) (high (summary r) =? 0) now.

End Sanctify.

(** ** Stored proofs *)

Module ProofTheorems.
Import Proofs.
Section theorems.
Context `{D : Digest} `{C : Cbor}.

(** The proofs that were stored for a claim, oldest first. *)
Definition about (c : string) (p : ProofBlob) : bool := String.eqb (claim p) c.

Lemma store_proof_get p s c :
  default [] ((store_proof p s).1 !! c) = (default [] (s !! c) ++ retain (about c) [p])%list.
Proof.
  unfold store_proof, about. cbn. destruct (String.eqb_spec (claim p) c) as [<-|Hn].
  - by rewrite lookup_insert_eq.
  - by rewrite lookup_insert_ne, app_nil_r by done.
Qed.

(** The store of proofs is a log.  After any sequence of stores, the proofs of
    a claim are the stored ones with this claim in the order they came, and
    verification counts those of them that verify. *)
Theorem proof_store_is_log (ps : list ProofBlob) c :
  let s := foldl (λ s p, (store_proof p s).1) ∅ ps in
  get_proofs c s = Ok (retain (about c) ps) ∧
  verify_proofs c s = Ok (length (retain (λ p, about c p && counts p) ps), length (retain (about c) ps)).
Proof.
  assert (∀ s, default [] (foldl (λ s p, (store_proof p s).1) s ps !! c) = (default [] (s !! c) ++ retain (about c) ps)%list) as Hg.
  { induction ps as [|p ps IH]; intros s; [by rewrite app_nil_r|]. cbn [foldl].
    rewrite IH, store_proof_get, <- app_assoc. change (p :: ps) with ([p] ++ ps)%list. by rewrite retain_app. }
  intros s. unfold verify_proofs, get_proofs. cbn. unfold s. rewrite Hg, lookup_empty. cbn. split; [done|].
  do 2 f_equal. clear. induction ps as [|p ps IH]; [done|]. cbn. destruct (about c p); cbn; [|done].
  destruct (counts p); cbn; by rewrite IH.
Qed.

(** A blob that is no zero-knowledge proof counts because it is an attestation. *)
Lemma attestation_counts b e :
  proof_type b = Attestation → cbor_proof (data b) = Err e → counts b = true.
Proof. intros Ht Hc. unfold counts, verify. by rewrite Hc, Ht. Qed.

Lemma counted_once_more b s v t :
  counts b = true → verify_proofs (claim b) s = Ok (v, t) →
  verify_proofs (claim b) (store_proof b s).1 = Ok (S v, S t).
Proof.
  intros Hc. unfold verify_proofs, get_proofs. cbn. rewrite lookup_insert_eq. intros [= <- <-]. cbn.
  rewrite retain_app, !length_app. cbn. rewrite Hc. cbn. by rewrite !Nat.add_1_r.
Qed.

End theorems.
End ProofTheorems.

(** ** Certificates *)

Module CertificateTheorems.
Import Proofs Certificates ProofTheorems.

Lemma hex_digit_inj d e : 0 ≤ d < 16 → 0 ≤ e < 16 → hex_digit d = hex_digit e → d = e.
Proof.
  intros Hd He E.
  assert (forallb (λ i, forallb (λ j, negb (Ascii.eqb (hex_digit (Z.of_nat i)) (hex_digit (Z.of_nat j))) || (i =? j)%nat)
    (seq 0 16)) (seq 0 16) = true) as Hf by done.
  rewrite forallb_forall in Hf. specialize (Hf (Z.to_nat d) ltac:(apply in_seq; lia)). rewrite forallb_forall in Hf.
  specialize (Hf (Z.to_nat e) ltac:(apply in_seq; lia)). rewrite !Z2Nat.id, E, Ascii.eqb_refl in Hf by lia.
  apply Nat.eqb_eq in Hf. lia.
Qed.

Lemma hex_lower_inj l k : Circuits.hex_lower l = Circuits.hex_lower k → l = k.
Proof.
  revert k. induction l as [|a l IH]; intros [|b k]; [done|done|done|]. cbn.
  intros [= Eh El E%IH]. pose proof (Z_of_byte_range a) as Ha. pose proof (Z_of_byte_range b) as Hb. f_equal; [|done].
  apply Z_of_byte_inj.
  assert (∀ z, 0 ≤ z < 256 → 0 ≤ z / 16 < 16) as Hr.
  { intros z Hz. split; [apply Z.div_pos; lia|]. apply Z.div_lt_upper_bound; lia. }
  apply hex_digit_inj in Eh; [|by apply Hr..]. apply hex_digit_inj in El; [|by apply Z.mod_pos_bound; lia..].
  rewrite (Z.div_mod (Z_of_byte a) 16), (Z.div_mod (Z_of_byte b) 16) by lia. by rewrite Eh, El.
Qed.

Lemma separator_inj {A} (x : A) l l' r r' : x ∉ l → x ∉ l' → (l ++ x :: r)%list = (l' ++ x :: r')%list → l = l' ∧ r = r'.
Proof.
  revert l'. induction l as [|a l IH]; intros [|b l']; cbn.
  - by intros _ _ [= <-].
  - intros _ Hn [= <- _]. by apply not_elem_of_cons in Hn as [].
  - intros Hn _ [= -> _]. by apply not_elem_of_cons in Hn as [].
  - intros [_ Hl]%not_elem_of_cons [_ Hl']%not_elem_of_cons [= <- E]. by apply IH in E as [-> ->].
Qed.

Section theorems.
Context `{D : Digest} `{T : CertificateText}.

Definition colon : byte := Byte.x3a.
Definition builtin (p : ProverKind) : bool := match p with Custom _ => false | _ => true end.

Lemma prover_plain p : builtin p = true → colon ∉ as_bytes (prover_display p).
Proof.
  destruct p; [..|done]; intros _; apply (bool_decide_unpack (colon ∉ _)); by vm_compute.
Qed.

Lemma prover_display_inj p q : builtin p = true → builtin q = true → prover_display p = prover_display q → p = q.
Proof. by destruct p, q. Qed.

(** C34 (what a signature commits to).  Two certificates with the same correct
    signature are about the same prover, statement and proof term unless
    SHA-256 collides, provided the provers are built in and the statements have
    no colon; an absent proof term is an empty one. *)
Theorem signature_binds c d :
  signature c = compute_signature (prover c) (statement c) (proof_term c) →
  signature d = compute_signature (prover d) (statement d) (proof_term d) →
  signature c = signature d →
  builtin (prover c) = true → builtin (prover d) = true →
  colon ∉ as_bytes (statement c) → colon ∉ as_bytes (statement d) →
  (prover c = prover d ∧ statement c = statement d ∧ default "" (proof_term c) = default "" (proof_term d)) ∨
  (∃ a b, a = signed_bytes (prover c) (statement c) (proof_term c) ∧ b = signed_bytes (prover d) (statement d) (proof_term d) ∧
     a ≠ b ∧ digest a = digest b).
Proof.
  intros -> -> E Hp Hq Hs Ht.
  assert (digest (signed_bytes (prover c) (statement c) (proof_term c)) =
          digest (signed_bytes (prover d) (statement d) (proof_term d))) as Ed.
  { apply hex_lower_inj. unfold compute_signature, Circuits.sha256_hex in E. cbn in E. by injection E. }
  destruct (decide (signed_bytes (prover c) (statement c) (proof_term c) = signed_bytes (prover d) (statement d) (proof_term d)))
    as [Eb|Hn]; [left|right; eauto 10].
  unfold signed_bytes in Eb. change (as_bytes ":") with [colon] in Eb. cbn in Eb.
  apply separator_inj in Eb as [E1 Eb]; [|by apply prover_plain..]. apply separator_inj in Eb as [E2 E3]; [|done..].
  split_and!; [by apply prover_display_inj, as_bytes_inj|by apply as_bytes_inj..].
Qed.

(** With a colon in the statement, the parts run into each other. *)
Lemma signature_ambiguous p a b c :
  compute_signature p (a +:+ ":" +:+ b) (Some c) = compute_signature p a (Some (b +:+ ":" +:+ c)).
Proof.
  assert (∀ x y, signed_bytes p x (Some y) =
    (as_bytes (prover_display p) ++ as_bytes ":" ++ as_bytes x ++ as_bytes ":" ++ as_bytes y)%list) as E by done.
  unfold compute_signature. rewrite !E. rewrite !as_bytes_app, <- !app_assoc. done.
Qed.

(** The verdict is not signed.  A certificate with a correct signature can be
    given any verdict, message and time and verifies as what it now claims: a
    failed proof becomes a valid one by changing one field. *)
Lemma verdict_not_signed c b m ts :
  version c = "1.0" → signature c = compute_signature (prover c) (statement c) (proof_term c) →
  check_rfc3339 ts = Ok () →
  verify_proven_certificate
    (mkCertificate (version c) (prover c) (statement c) (proof_term c) b m ts (signature c)) = Ok b.
Proof.
  intros Hv Hs Ht. unfold verify_proven_certificate. cbn. rewrite Hv, Hs, !String.eqb_refl. cbn. by rewrite Ht.
Qed.

(** When a certificate is accepted, refused or in error. *)
Lemma certificate_accepted c :
  verify_proven_certificate c = Ok true ↔
  version c = "1.0" ∧ signature c = compute_signature (prover c) (statement c) (proof_term c) ∧
  check_rfc3339 (timestamp c) = Ok () ∧ valid c = true.
Proof.
  unfold verify_proven_certificate. destruct (String.eqb_spec (version c) "1.0"); [|by split; [|intros (? & _)]].
  destruct (String.eqb_spec (signature c) (compute_signature (prover c) (statement c) (proof_term c))); cbn;
    [|by split; [|intros (_ & ? & _)]].
  destruct (check_rfc3339 (timestamp c)) as [[]|]; cbn; [|by split; [|intros (_ & _ & ? & _)]].
  split; [by intros [= ->]|by intros (_ & _ & _ & ->)].
Qed.

Context `{C : Cbor}.

(** A JSON object starts with a brace, which is no encoding of a proof in CBOR. *)
Definition json_is_no_proof : Prop :=
  ∀ l, head l = Some Byte.x7b → ∃ e, cbor_proof l = Err e.
Definition json_objects : Prop :=
  ∀ c l, certificate_json c = Ok l → head l = Some Byte.x7b.

(** Stored certificates always count.  Whatever the verification of a
    certificate says, even that its version is unknown, its signature wrong or
    its proof failed, the blob made from it is counted among the valid proofs
    of its statement; its own check is never run again. *)
Theorem any_certificate_counts c b s v t :
  json_is_no_proof → json_objects →
  certificate_to_proof_blob c = Ok b →
  verify_proofs (statement c) s = Ok (v, t) →
  claim b = statement c ∧ verify_proofs (statement c) (store_proof b s).1 = Ok (S v, S t).
Proof.
  intros Hj Ho Hb Hv. unfold certificate_to_proof_blob in Hb. destruct (certificate_json c) as [l|] eqn:El; [|done].
  cbn in Hb. injection Hb as <-. split; [done|]. apply (counted_once_more (mkBlob _ _ _ _)); [|done].
  destruct (Hj l (Ho _ _ El)) as [e He]. by apply (attestation_counts _ e).
Qed.

End theorems.
End CertificateTheorems.

(** ** Contracts *)

Module SanctifyTheorems.
Import Sanctify.

Definition of_severity (s : Severity) (i : SecurityIssue) : bool := bool_decide (severity i = s).
Definition number (s : Severity) (l : list SecurityIssue) : Z := Z.of_nat (length (retain (of_severity s) l)).

(** The summary of issues counts each severity. *)
Lemma from_issues_counts l :
  Z.of_nat (length l) < 2 ^ 64 →
  from_issues l = mkSummary (number Critical l) (number High l) (number Medium l) (number Low l) (number Info l).
Proof.
  induction l as [|i l IH] using rev_ind; [done|]. rewrite length_app. cbn [length]. intros Hl.
  assert (∀ s, 0 ≤ number s l < 2 ^ 64 - 1) as Hn.
  { intros s. unfold number. pose proof (length_retain (of_severity s) l). lia. }
  unfold from_issues. rewrite foldl_app. fold (from_issues l). rewrite IH by lia. cbn [foldl]. unfold count_issue.
  assert (∀ s, number s (l ++ [i]) = if of_severity s i then number s l + 1 else number s l) as Hs.
  { intros s. unfold number. rewrite retain_app, length_app. cbn. destruct (of_severity s i); cbn; lia. }
  assert (∀ s, wrap 64 (number s l + 1) = number s l + 1) as Hw.
  { intros s. apply wrap_small. specialize (Hn s). unfold in_u. lia. }
  rewrite !Hs. unfold of_severity. destruct (severity i); cbn; by rewrite Hw.
Qed.

Lemma number_split l :
  number Critical l + number High l + number Medium l + number Low l + number Info l = Z.of_nat (length l).
Proof.
  induction l as [|i l IH]; [done|].
  assert (∀ s, number s (i :: l) = if of_severity s i then 1 + number s l else number s l) as Hn.
  { intros s. unfold number. cbn [retain]. destruct (of_severity s i); cbn [length]; lia. }
  rewrite !Hn. unfold of_severity. destruct (severity i); repeat case_bool_decide; try congruence; cbn [length]; lia.
Qed.

Lemma total_small c h m l i :
  0 ≤ c → 0 ≤ h → 0 ≤ m → 0 ≤ l → 0 ≤ i → c + h + m + l + i < 2 ^ 64 →
  total (mkSummary c h m l i) = c + h + m + l + i.
Proof.
  intros. unfold total. cbn [critical high medium low info].
  rewrite (wrap_small 64 (c + h)), (wrap_small 64 (c + h + m)), (wrap_small 64 (c + h + m + l)), wrap_small; unfold in_u; lia.
Qed.

Lemma total_from_issues l : Z.of_nat (length l) < 2 ^ 64 → total (from_issues l) = Z.of_nat (length l).
Proof.
  intros Hl. rewrite from_issues_counts by done. pose proof (number_split l) as Hn.
  rewrite total_small; [lia|unfold number; lia..|lia].
Qed.

Lemma number_zero s l : number s l = 0 ↔ ∀ i, i ∈ l → severity i ≠ s.
Proof.
  unfold number, of_severity. split.
  - intros Hz i Hi Hs. assert (i ∈ retain (λ i, bool_decide (severity i = s)) l) as Hr.
    { apply elem_of_retain. split; [done|]. by apply bool_decide_eq_true. }
    destruct (retain _ l); [by apply elem_of_nil in Hr|done].
  - intros Hn. rewrite retain_none; [done|]. intros i Hi. apply bool_decide_eq_false. by apply Hn.
Qed.

(** A contract over a truthful report.  When the summary is the one computed
    from the issues, the contract bound from the report validates, and it
    claims that the critical (the high) issues are resolved exactly when the
    report lists none. *)
Theorem bound_contract_truthful id octad r now :
  id ≠ "" → octad ≠ "" → Z.of_nat (length (issues r)) < 2 ^ 64 → summary r = from_issues (issues r) →
  let c := bind_contract_to_octad id octad r now in
  validate_contract c = Ok true ∧ total (summary r) = Z.of_nat (length (issues r)) ∧
  (all_critical_resolved c = true ↔ ∀ i, i ∈ issues r → severity i ≠ Critical) ∧
  (all_high_resolved c = true ↔ ∀ i, i ∈ issues r → severity i ≠ High).
Proof.
  intros Hid Ho Hl Hs c.
  assert (nonempty id = true ∧ nonempty octad = true) as [Hi Hoc] by by destruct id, octad.
  split_and!.
  - unfold validate_contract, c, bind_contract_to_octad. cbn. rewrite Hi, Hoc, <- Hs, Z.eqb_refl.
    destruct (critical (summary r)), (high (summary r)); done.
  - by rewrite Hs, total_from_issues.
  - unfold c. cbn. rewrite Hs, from_issues_counts, Z.eqb_eq by done. cbn. apply number_zero.
  - unfold c. cbn. rewrite Hs, from_issues_counts, Z.eqb_eq by done. cbn. apply number_zero.
Qed.

Definition relabelled (r : SanctifyReport) : SanctifyReport :=
  mkReport (report_timestamp r) (report_version r) (files_analysed r) (issues r)
    (mkSummary 0 0 0 0 (Z.of_nat (length (issues r)))).

(** Only totals are compared.  Whatever a report lists, a summary that calls
    all of it informational makes the contract valid, with all critical and
    high issues resolved. *)
Theorem relabelled_report_validates id octad r now :
  id ≠ "" → octad ≠ "" → Z.of_nat (length (issues r)) < 2 ^ 64 →
  let c := bind_contract_to_octad id octad (relabelled r) now in
  validate_contract c = Ok true ∧ all_critical_resolved c = true ∧ all_high_resolved c = true ∧
  issues (report c) = issues r.
Proof.
  intros Hid Ho Hl c. split; [|done].
  unfold validate_contract, c, bind_contract_to_octad. cbn.
  assert (nonempty id = true ∧ nonempty octad = true) as [-> ->] by by destruct id, octad.
  rewrite total_from_issues, total_small by lia. by rewrite !Z.add_0_l, Z.eqb_refl.
Qed.

(** Contracts as blobs count whatever [validate_contract] says, as certificates do. *)
Lemma any_contract_counts `{Digest} `{Cbor} `{ReportText} c b e :
  contract_to_proof_blob c = Ok b → cbor_proof (data b) = Err e → Proofs.counts b = true.
Proof.
  unfold contract_to_proof_blob. destruct (contract_json c); [|done]. cbn. intros [= <-].
  by apply ProofTheorems.attestation_counts.
Qed.

End SanctifyTheorems.

(** ** Witnesses *)

Module Witness.
Import Proofs Certificates CertificateTheorems Sanctify SanctifyTheorems.

#[local] Instance digest : Digest := λ l, [byte_of_Z (Z.of_nat (length l))].
#[local] Instance cbor : Cbor :=
  {| cbor_proof := λ l, Err "invalid type"; cbor_of_blob := λ b, Ok (data b); blob_of_cbor := λ l, Err "eof" |}.
#[local] Instance text : CertificateText :=
  {| certificate_json := λ c, Ok (as_bytes ("{" +:+ statement c +:+ "}")); certificate_of_json := λ l, Err "eof";
     certificate_of_cbor := λ l, Err "eof";
     check_rfc3339 := λ s, if Proofs.is_empty (as_bytes s) then Err "premature end of input" else Ok () |}.

Definition proved : ProvenCertificate := create_certificate Z3 "x = x" (Some "refl") true None "now".
Definition copied : ProvenCertificate := create_certificate Z3 "x = x" (Some "refl") false None "later".
Definition failed : ProvenCertificate := mkCertificate "7.0" Lean "0 = 1" None false None "" "none".

Lemma signature_binds_witness :
  signature proved = signature copied ∧
  ((prover proved = prover copied ∧ statement proved = statement copied ∧
      default "" (proof_term proved) = default "" (proof_term copied)) ∨
   (∃ a b, a = signed_bytes (prover proved) (statement proved) (proof_term proved) ∧
      b = signed_bytes (prover copied) (statement copied) (proof_term copied) ∧
      a ≠ b ∧ Zkp.digest a = Zkp.digest b)).
Proof.
  split; [done|].
  apply (signature_binds proved copied); [done..| |]; apply (bool_decide_unpack (colon ∉ _)); by vm_compute.
Defined.

Lemma any_certificate_counts_witness :
  ∃ b, certificate_to_proof_blob failed = Ok b ∧ verify_proven_certificate failed = Err (InvalidProof "Unsupported certificate version: 7.0") ∧
    verify_proofs "0 = 1" (store_proof b ∅).1 = Ok (1, 1)%nat.
Proof.
  eexists. split; [done|]. split; [done|].
  eapply (any_certificate_counts failed _ ∅ 0 0); [intros l _; by eexists|by intros c l [= <-]|done|done].
Defined.

Definition injection_issue : SecurityIssue :=
  mkIssue SqlInjection Critical "login.php" 42 (Some 15) "Unsanitized input" "Use prepared statements" None.
Definition honest : SanctifyReport := mkReport "now" "0.1.0" 3 [injection_issue] (from_issues [injection_issue]).

Lemma bound_contract_truthful_witness :
  validate_contract (bind_contract_to_octad "audit-1" "octad-1" honest "now") = Ok true.
Proof. apply (bound_contract_truthful "audit-1" "octad-1" honest "now"); done. Defined.

Lemma relabelled_report_validates_witness :
  all_critical_resolved (bind_contract_to_octad "audit-1" "octad-1" (relabelled honest) "now") = true.
Proof. apply (relabelled_report_validates "audit-1" "octad-1" honest "now"); done. Defined.

End Witness.
