(* ===== verification/VclFormat.v ===== *)
(** The VCL formatter (verisim-repl/src/vcl_fmt.rs): its tokenizer, the two
    layouts, and that they keep the tokens of a query.

    A [String] is the list of its characters here, each as its UTF-8 bytes
    ([PlanCache.chars]).  Unicode's case table and its classes of letters are
    parameters. *)

From Stdlib Require Import Strings.Ascii.
From S2P Require Import Prelude Machine Text Format PlanCache Lexing.

Local Open Scope string_scope.
Local Open Scope Z_scope.

Abbreviation text := (list string).

(** [char::is_alphabetic]. *)
Class Alphabetic := is_alphabetic : string → bool.

(** ** Tokens *)

Inductive Token :=
  | Keyword (w : text) | Modality (w : text) | Word (w : text) | StringLiteral (s : text)
  | Number (n : text) | Whitespace | Punctuation (c : string).

Definition VCL_KEYWORDS : list string :=
  ["SELECT"; "FROM"; "WHERE"; "PROOF"; "LIMIT"; "OFFSET"; "ORDER"; "BY";
   "GROUP"; "HAVING"; "AS"; "AND"; "OR"; "NOT"; "IN"; "BETWEEN"; "LIKE";
   "EXISTS"; "CONTAINS"; "SIMILAR"; "TO"; "TRAVERSE"; "DEPTH"; "THRESHOLD";
   "DRIFT"; "CONSISTENCY"; "AT"; "TIME"; "EXPLAIN"; "INSERT"; "UPDATE";
   "DELETE"; "SET"; "INTO"; "VALUES"; "CREATE"; "DROP"; "ALTER"; "JOIN";
   "ON"; "WITH"; "FEDERATION"; "STORE"; "OCTAD"; "ALL"; "ASC"; "DESC";
   "COUNT"; "SUM"; "AVG"; "MIN"; "MAX"; "DISTINCT"; "ANALYZE"].
Definition VCL_MODALITIES : list string :=
  ["GRAPH"; "VECTOR"; "TENSOR"; "SEMANTIC"; "DOCUMENT"; "TEMPORAL"; "PROVENANCE"; "SPATIAL"].
Definition CLAUSE_STARTERS : list string :=
  ["SELECT"; "FROM"; "WHERE"; "ORDER"; "GROUP"; "HAVING"; "LIMIT";
   "OFFSET"; "JOIN"; "ON"; "WITH"; "SET"; "INTO"; "VALUES";
   "TRAVERSE"; "PROOF"; "EXPLAIN"].

Definition among (l : list string) (w : text) : bool := existsb (String.eqb (cat w)) l.

(** [char::is_ascii_digit], and some characters. *)
Definition is_digit (c : string) : bool := match c with String a "" => between 48 57 a | _ => false end.
Definition is_char (d c : string) : bool := String.eqb c d.
Definition dquote : string := String (ascii_of_nat 34) "".
Definition backslash : string := "\".
Definition newline : string := String (ascii_of_nat 10) "".

Definition is_quote (c : string) : bool := is_char "'" c || is_char dquote c.
Definition is_exponent (c : string) : bool := is_char "e" c || is_char "E" c.
Definition is_sign (c : string) : bool := is_char "+" c || is_char "-" c.
Definition digit_or_dot (c : string) : bool := is_digit c || is_char "." c.

(** A [while] loop over characters: those that pass, and the rest. *)
Fixpoint span (p : string → bool) (cs : text) : text * text :=
  match cs with
  | [] => ([], [])
  | c :: cs' => if p c then let '(w, r) := span p cs' in (c :: w, r) else ([], cs)
  end.

(** What follows an opening quote, to the closing one.  A backslash skips the
    next character; one at the end of the input moves the index past it, and
    the slice [chars[start..i]] panics ([None]). *)
Fixpoint scan_string (quote : string) (cs : text) : option (text * text) :=
  match cs with
  | [] => Some ([], [])
  | c :: cs =>
      if is_char quote c then Some ([c], cs)
      else if is_char backslash c then
        match cs with
        | [] => None
        | d :: cs => '(b, r) ← scan_string quote cs; Some (c :: d :: b, r)
        end
      else '(b, r) ← scan_string quote cs; Some (c :: b, r)
  end.

Definition scan_exponent (cs : text) : text * text :=
  match cs with
  | c :: r =>
      if is_exponent c then
        let '(sign, r) := match r with
                          | d :: r' => if is_sign d then ([d], r') else ([], r)
                          | [] => ([], r)
                          end in
        let '(digits, r) := span is_digit r in ((c :: sign ++ digits)%list, r)
      else ([], cs)
  | [] => ([], [])
  end.

Definition scan_number (cs : text) : text * text :=
  let '(sign, r) := match cs with
                    | c :: r => if is_char "-" c then ([c], r) else ([], cs)
                    | [] => ([], [])
                    end in
  let '(digits, r) := span digit_or_dot r in
  let '(e, r) := scan_exponent r in
  ((sign ++ digits ++ e)%list, r).

Definition starts_number (cs : text) : bool :=
  match cs with
  | c :: d :: _ => is_digit c || (is_char "-" c && is_digit d)
  | [c] => is_digit c
  | [] => false
  end.

Section formatter.
Context `{UnicodeCase} `{CharClass} `{Alphabetic}.

Definition word_char (c : string) : bool := is_alphanumeric c || is_char "_" c.

(** One round of the loop in [tokenize]. *)
Definition next_token (cs : text) : option (Token * text) :=
  match cs with
  | [] => None
  | c :: cs' =>
      if is_quote c then '(b, r) ← scan_string c cs'; Some (StringLiteral (c :: b), r)
      else if is_whitespace c then Some (Whitespace, drop_while is_whitespace cs)
      else if is_alphabetic c || is_char "_" c then let '(w, r) := span word_char cs in Some (Word w, r)
      else if starts_number cs then let '(n, r) := scan_number cs in Some (Number n, r)
      else Some (Punctuation c, cs')
  end.

Fixpoint tokenize_loop (fuel : nat) (cs : text) : option (list Token) :=
  match fuel, cs with
  | _, [] => Some []
  | O, _ => Some []
  | S fuel, _ => '(t, r) ← next_token cs; ts ← tokenize_loop fuel r; Some (t :: ts)
  end.

(** Every round takes at least one character. *)
Definition tokenize_chars (cs : text) : option (list Token) := tokenize_loop (length cs) cs.
Definition tokenize (input : string) : option (list Token) := tokenize_chars (chars input).

Definition uppercase_token (t : Token) : Token :=
  match t with
  | Word w =>
      let upper := chars (str_upper (cat w)) in
      if among VCL_KEYWORDS upper then Keyword upper
      else if among VCL_MODALITIES upper then Modality upper
      else Word w
  | other => other
  end.
Definition uppercase_keywords (ts : list Token) : list Token := uppercase_token <$> ts.

(** ** Layout by clauses *)

Definition is_space_token (t : Token) : bool := match t with Whitespace => true | _ => false end.

(** [while matches!(result.last(), Some(Whitespace)) { result.pop(); }]. *)
Definition pop_space (result : list Token) : list Token := drop_end_while is_space_token result.

(** The first of the two tokens before the [i]-th is EXPLAIN. *)
Definition prev_is_explain (ts : list Token) (i : nat) : bool :=
  (0 <? i)%nat && match ts !! (i - 2)%nat with Some (Keyword k) => String.eqb (cat k) "EXPLAIN" | _ => false end.

Definition clause_starter (t : Token) : bool :=
  match t with Keyword kw => among CLAUSE_STARTERS kw | _ => false end.
Definition connective (t : Token) : bool :=
  match t with Keyword kw => String.eqb (cat kw) "AND" || String.eqb (cat kw) "OR" | _ => false end.
Definition is_select (t : Token) : bool :=
  match t with Keyword kw => String.eqb (cat kw) "SELECT" | _ => false end.

(** One token of the input; the state is the result and [is_first_keyword]. *)
Definition indent_step (ts : list Token) (st : list Token * bool) (it : nat * Token) : list Token * bool :=
  let '(result, first) := st in
  let '(i, t) := it in
  if clause_starter t then
    if first then ((result ++ [t])%list, false)
    else if prev_is_explain ts i && is_select t then ((pop_space result ++ [Whitespace; t])%list, first)
    else ((pop_space result ++ [Punctuation newline; t])%list, first)
  else if connective t then ((pop_space result ++ [Punctuation newline; Word [" "; " "]; t])%list, first)
  else ((result ++ [t])%list, first).

Definition indent_clauses (ts : list Token) : list Token :=
  (foldl (indent_step ts) ([], true) (imap pair ts)).1.

Definition ends_with (c : string) (r : text) : bool :=
  match last r with Some d => is_char c d | None => false end.
Definition is_empty (r : text) : bool := match r with [] => true | _ => false end.

Definition normalize_step (r : text) (t : Token) : text :=
  match t with
  | Whitespace => if negb (is_empty r) && negb (ends_with newline r) && negb (ends_with " " r) then (r ++ [" "])%list else r
  | Keyword w | Modality w | Word w => (r ++ w)%list
  | StringLiteral s => (r ++ s)%list
  | Number n => (r ++ n)%list
  | Punctuation c => if is_char newline c then (drop_end_while (is_char " ") r ++ [newline])%list else (r ++ [c])%list
  end.

(** [trim]. *)
Definition trim_text (r : text) : text := drop_end_while is_whitespace (drop_while is_whitespace r).

Definition normalize_whitespace (ts : list Token) : text := trim_text (foldl normalize_step [] ts).

Definition format_vcl (query : string) : option string :=
  ts ← tokenize query;
  Some (cat (normalize_whitespace (indent_clauses (uppercase_keywords ts)))).

(** ** Compact layout *)

(** The state is the result and [prev_was_space]. *)
Definition compact_step (st : text * bool) (t : Token) : text * bool :=
  let '(r, space) := st in
  match t with
  | Whitespace => if negb space && negb (is_empty r) then ((r ++ [" "])%list, true) else (r, space)
  | Word w | Keyword w | Modality w => ((r ++ w)%list, false)
  | StringLiteral s => ((r ++ s)%list, false)
  | Number n => ((r ++ n)%list, false)
  | Punctuation c =>
      if is_char "," c || is_char ";" c
      then (((if ends_with " " r then removelast r else r) ++ [c; " "])%list, true)
      else ((r ++ [c])%list, false)
  end.

Definition format_vcl_compact (query : string) : option string :=
  ts ← tokenize query;
  Some (cat (trim_text (foldl compact_step ([], false) (uppercase_keywords ts)).1)).

End formatter.

(** ** Loops over characters *)

Lemma span_spec p cs w r :
  span p cs = (w, r) →
  cs = (w ++ r)%list ∧ Forall (λ c, p c = true) w ∧ (∀ c, head r = Some c → p c = false) ∧ span p w = (w, []).
Proof.
  revert w r. induction cs as [|c cs IH]; intros w r; cbn; [by intros [= <- <-]|].
  destruct (p c) eqn:Ep; [|by intros [= <- <-]; split_and!; [done|done|by intros ? [= <-]|]].
  destruct (span p cs) as [w' r'] eqn:Es. intros [= <- <-]. destruct (IH _ _ eq_refl) as (-> & Hw & Hr & Hs).
  split_and!; [done|by constructor|done|]. cbn. by rewrite Ep, Hs.
Qed.

Lemma span_app p l cs w r :
  span p l = (w, r) → (r = [] → ∀ c, head cs = Some c → p c = false) → span p (l ++ cs) = (w, (r ++ cs)%list).
Proof.
  revert w r. induction l as [|c l IH]; intros w r; cbn.
  - intros [= <- <-] Hc. destruct cs as [|c cs]; [done|]. cbn. by rewrite (Hc eq_refl c eq_refl).
  - destruct (p c); [|by intros [= <- <-]]. destruct (span p l) as [w' r']. intros [= <- <-] Hc.
    by rewrite (IH w' r').
Qed.

Lemma span_all p l : Forall (λ c, p c = true) l → span p l = (l, []).
Proof. induction 1 as [|c l Hc _ IH]; [done|]. cbn. by rewrite Hc, IH. Qed.

Lemma drop_end_snoc {A} (p : A → bool) l x :
  drop_end_while p (l ++ [x]) = if p x then drop_end_while p l else (l ++ [x])%list.
Proof.
  unfold drop_end_while. rewrite reverse_app. change (reverse [x]) with [x]. cbn [app drop_while].
  destruct (p x); [done|]. by rewrite reverse_cons, reverse_involutive.
Qed.

Lemma drop_end_prefix {A} (p : A → bool) l : ∃ w, l = (drop_end_while p l ++ w)%list ∧ Forall (λ x, p x = true) w.
Proof.
  induction l as [|x l IH] using rev_ind; [by exists []|]. rewrite drop_end_snoc. destruct (p x) eqn:Ep.
  - destruct IH as (w & E & Hw). exists (w ++ [x])%list. split; [by rewrite E at 1; rewrite <- app_assoc|].
    apply Forall_app. by repeat constructor.
  - exists []. by rewrite app_nil_r.
Qed.

Lemma drop_end_cons {A} (p : A → bool) x l :
  drop_end_while p (x :: l) =
  match drop_end_while p l with [] => if p x then [] else [x] | k => x :: k end.
Proof.
  induction l as [|y l IH] using rev_ind; [change [x] with ([] ++ [x])%list; by rewrite drop_end_snoc|].
  change (x :: l ++ [y]) with ((x :: l) ++ [y])%list. rewrite !drop_end_snoc. destruct (p y); [done|].
  by destruct l.
Qed.

Lemma drop_end_app {A} (p : A → bool) l k x :
  last l = Some x → p x = false → drop_end_while p (l ++ k) = (l ++ drop_end_while p k)%list.
Proof.
  intros Hl Hx. induction k as [|y k IH] using rev_ind.
  - rewrite app_nil_r. change (drop_end_while p []) with (@nil A). rewrite app_nil_r.
    apply last_Some in Hl as [l' ->]. by rewrite drop_end_snoc, Hx.
  - rewrite app_assoc, !drop_end_snoc, IH. destruct (p y); [done|]. by rewrite app_assoc.
Qed.

(** ** Characters *)

Definition ascii_char (c : string) : Prop := ∃ a, c = String a "" ∧ between 0 127 a = true.

(** A boolean fact about ASCII characters, by looking at all of them. *)
Definition all_chars (P : string → bool) : bool :=
  forallb (λ n, P (String (ascii_of_nat n) "")) (seq 0 128).

Lemma all_chars_spec (P : string → bool) c : all_chars P = true → ascii_char c → P c = true.
Proof.
  intros H (a & -> & Ha). unfold all_chars in H. rewrite forallb_forall in H.
  rewrite <- (ascii_nat_embedding a). apply H, in_seq. unfold between in Ha.
  apply andb_true_iff in Ha as [_ Ha%Z.leb_le]. unfold nat_of_ascii. lia.
Qed.

Lemma chars_ascii s : is_ascii s = true → Forall ascii_char (chars s).
Proof.
  induction s as [|a s IH]; [done|]. intros Hs. rewrite chars_cons.
  - cbn [is_ascii all_ascii] in Hs. apply andb_true_iff in Hs as [Ha Hs]. constructor; [by exists a|by apply IH].
  - cbn [is_ascii all_ascii] in Hs. by apply andb_true_iff in Hs as [].
Qed.

Lemma cat_ascii cs : Forall ascii_char cs → is_ascii (cat cs) = true ∧ chars (cat cs) = cs.
Proof.
  induction 1 as [|c cs (a & -> & Ha) _ [IH1 IH2]]; [done|]. rewrite cat_cons.
  change (String a "" +:+ cat cs) with (String a (cat cs)). split.
  - cbn [is_ascii all_ascii]. by rewrite Ha.
  - by rewrite chars_cons, IH2.
Qed.

Definition up (c : string) : string := map_ascii ascii_upper c.

Lemma up_ascii c : ascii_char c → ascii_char (up c).
Proof.
  intros Hc. pose proof Hc as (a & -> & _). exists (ascii_upper a). split; [done|].
  apply (all_chars_spec (λ c, match c with String a _ => between 0 127 (ascii_upper a) | _ => false end) (String a "")); [|done].
  by vm_compute.
Qed.

Lemma cat_up cs : Forall ascii_char cs → map_ascii ascii_upper (cat cs) = cat (up <$> cs).
Proof.
  induction 1 as [|c cs (a & -> & Ha) _ IH]; [done|]. rewrite fmap_cons, !cat_cons.
  change (String a "" +:+ cat cs) with (String a (cat cs)). cbn [map_ascii]. by rewrite IH.
Qed.

(** ** Numbers *)

(** Whether [c], right after the number [n], would still belong to it. *)
Definition number_extends (n : text) (c : string) : bool :=
  match (span (λ c, negb (is_exponent c)) n).2 with
  | [] => digit_or_dot c || is_exponent c
  | [_] => is_sign c || is_digit c
  | _ => is_digit c
  end.

Lemma plain_digits l : Forall (λ c, digit_or_dot c = true) l → Forall (λ c, negb (is_exponent c) = true) l.
Proof.
  intros H. eapply Forall_impl; [exact H|]. intros c. unfold digit_or_dot, is_exponent, is_char. intros Hc. apply negb_true_iff, orb_false_iff.
  split; apply String.eqb_neq; intros ->; done.
Qed.

Lemma exponent_spec cs e r :
  scan_exponent cs = (e, r) →
  cs = (e ++ r)%list ∧ scan_exponent e = (e, []) ∧
  (∀ c, head r = Some c → match e with
                          | [] => is_exponent c = false
                          | [_] => is_sign c || is_digit c = false
                          | _ => is_digit c = false
                          end).
Proof.
  unfold scan_exponent. destruct cs as [|c cs]; [by intros [= <- <-]|].
  destruct (is_exponent c) eqn:Ec; [|by intros [= <- <-]; split_and!; [done|done|by intros ? [= <-]]].
  assert (∀ sign k, (cs = sign ++ k)%list → (sign = [] ∧ (∀ d, head k = Some d → is_sign d = false) ∨ ∃ d, sign = [d] ∧ is_sign d = true) →
    (let '(digits, r) := span is_digit k in ((c :: sign ++ digits)%list, r)) = (e, r) →
    c :: cs = (e ++ r)%list ∧ scan_exponent e = (e, []) ∧
    (∀ x, head r = Some x → match e with [] => is_exponent x = false | [_] => is_sign x || is_digit x = false | _ => is_digit x = false end)) as Hgen.
  { intros sign k -> Hs. destruct (span is_digit k) as [digits r'] eqn:Ek. intros [= <- <-].
    apply span_spec in Ek as (-> & Hd & Hr & Hs2). split; [by rewrite <- app_comm_cons, <- app_assoc|]. split.
    - cbn. rewrite Ec. destruct Hs as [[-> Hk]|(d & -> & Hsd)]; cbn.
      + destruct digits as [|d digits]; [done|]. cbn in Hk. rewrite (Hk d eq_refl). by rewrite Hs2.
      + by rewrite Hsd, Hs2.
    - intros x Hx. specialize (Hr x Hx). destruct Hs as [[-> Hk]|(d & -> & Hsd)]; cbn; [|done].
      destruct digits as [|d digits]; [|done]. cbn in Hk, Hx. by rewrite (Hk x Hx), Hr. }
  destruct cs as [|d cs]; [apply (Hgen [] []); [done|by left]|]. destruct (is_sign d) eqn:Ed.
  - apply (Hgen [d] cs); [done|right; eauto].
  - apply (Hgen [] (d :: cs)); [done|]. left. split; [done|]. by intros ? [= <-].
Qed.

Lemma exponent_app l cs :
  scan_exponent l = (l, []) →
  (∀ c, head cs = Some c → match l with
                           | [] => is_exponent c = false
                           | [_] => is_sign c || is_digit c = false
                           | _ => is_digit c = false
                           end) →
  scan_exponent (l ++ cs) = (l, cs).
Proof.
  intros Hl Hc. destruct l as [|c l].
  { unfold scan_exponent. cbn. destruct cs as [|c cs]; [done|]. by rewrite (Hc c eq_refl). }
  unfold scan_exponent in *. cbn. destruct (is_exponent c); [|done]. destruct l as [|d l]; cbn.
  - destruct cs as [|d cs]; [done|]. specialize (Hc d eq_refl). apply orb_false_iff in Hc as [-> Hd].
    cbn. by rewrite Hd.
  - destruct (is_sign d).
    + destruct (span is_digit l) as [w r] eqn:El. injection Hl as [= E ->]. subst w.
      by rewrite (span_app _ _ cs _ _ El (λ _, Hc)).
    + destruct (span is_digit (d :: l)) as [w r] eqn:El. injection Hl as [= E ->]. subst w.
      change (d :: l ++ cs)%list with ((d :: l) ++ cs)%list. by rewrite (span_app _ _ cs _ _ El (λ _, Hc)).
Qed.

(** A number is its sign, its digits and its exponent. *)
Record number_parts (n sign digits e : text) : Prop := mkParts {
  np_eq : n = (sign ++ digits ++ e)%list;
  np_sign : sign = [] ∨ sign = ["-"];
  np_digits : Forall (λ c, digit_or_dot c = true) digits;
  np_start : digits ≠ [] ∧ ∀ d, head digits = Some d → is_digit d = true;
  np_exp : scan_exponent e = (e, []);
}.

Lemma not_minus d : is_digit d = true → is_char "-" d = false.
Proof. intros Hd. unfold is_char. apply String.eqb_neq. intros ->. done. Qed.

Lemma parts_extends n sign digits e c :
  number_parts n sign digits e → number_extends n c =
  match e with [] => digit_or_dot c || is_exponent c | [_] => is_sign c || is_digit c | _ => is_digit c end.
Proof.
  intros [-> Hs Hd _ He]. unfold number_extends.
  assert (Forall (λ c, negb (is_exponent c) = true) (sign ++ digits)) as Hf.
  { apply Forall_app. split; [|by apply plain_digits]. by destruct Hs as [-> | ->]; repeat constructor. }
  rewrite app_assoc, (span_app _ _ e _ _ (span_all _ _ Hf)); [done|]. intros _ x Hx. destruct e as [|y e]; [done|]. injection Hx as ->.
  unfold scan_exponent in He. by destruct (is_exponent x).
Qed.

Lemma scan_parts n sign digits e cs :
  number_parts n sign digits e → (∀ c, head cs = Some c → number_extends n c = false) →
  scan_number (n ++ cs) = (n, cs) ∧ starts_number (n ++ cs) = true.
Proof.
  intros Hp Hc.
  assert (∀ c, head cs = Some c →
    match e with [] => digit_or_dot c || is_exponent c | [_] => is_sign c || is_digit c | _ => is_digit c end = false) as Hc'.
  { intros c Hx. rewrite <- (parts_extends _ _ _ _ _ Hp). by apply Hc. }
  clear Hc. destruct Hp as [-> Hs Hd [Hne Hst] He]. destruct digits as [|d digits]; [done|]. specialize (Hst d eq_refl).
  assert (span digit_or_dot ((d :: digits) ++ e ++ cs) = (d :: digits, e ++ cs)%list) as E1.
  { rewrite (span_app _ _ _ _ _ (span_all _ _ Hd)); [done|]. intros _ c Hx. destruct e as [|x e]; cbn in Hx.
    - specialize (Hc' c Hx). cbn in Hc'. by apply orb_false_iff in Hc' as [].
    - injection Hx as ->. destruct (digit_or_dot c) eqn:Ed; [|done]. unfold scan_exponent in He.
      assert (Forall (λ c, negb (is_exponent c) = true) [c]) as Hx by (apply plain_digits; by constructor).
      apply Forall_inv in Hx. apply negb_true_iff in Hx. by rewrite Hx in He. }
  assert (scan_exponent (e ++ cs) = (e, cs)) as E2.
  { apply exponent_app; [done|]. intros c Hx. specialize (Hc' c Hx). destruct e as [|? [|? ?]]; [|done|done].
    by apply orb_false_iff in Hc' as []. }
  unfold scan_number. destruct Hs as [-> | ->]; cbn [app] in *.
  - rewrite (not_minus d Hst). rewrite <- app_assoc in *. rewrite E1, E2. split; [done|].
    destruct digits as [|? ?]; cbn; [destruct (e ++ cs)%list|]; cbn; by rewrite Hst.
  - rewrite <- app_assoc in *. change (is_char "-" "-") with true. cbn [app] in *. rewrite E1, E2. split; [done|]. cbn. by rewrite Hst, orb_true_r.
Qed.

Lemma scan_number_parts cs n r :
  starts_number cs = true → scan_number cs = (n, r) →
  cs = (n ++ r)%list ∧ (∃ sign digits e, number_parts n sign digits e) ∧
  (∀ c, head r = Some c → number_extends n c = false).
Proof.
  intros Hs Hn.
  assert (∃ sign k, (cs = sign ++ k)%list ∧ (sign = [] ∨ sign = ["-"]) ∧ (∃ d k', k = d :: k' ∧ is_digit d = true) ∧
    (let '(digits, r) := span digit_or_dot k in let '(e, r) := scan_exponent r in ((sign ++ digits ++ e)%list, r)) = (n, r)) as
    (sign & k & -> & Hsign & (d & k' & -> & Hd) & E).
  { unfold scan_number in Hn. destruct cs as [|c cs]; [done|]. destruct (is_char "-" c) eqn:Ec.
    - unfold is_char in Ec. apply String.eqb_eq in Ec as ->. exists ["-"], cs. split_and!; [done|by right| |done].
      destruct cs as [|d cs]; [done|]. cbn in Hs. by exists d, cs.
    - exists [], (c :: cs). split_and!; [done|by left| |done]. exists c, cs. split; [done|].
      destruct cs; cbn in Hs; [done|]. rewrite Ec, orb_false_r in Hs. done. }
  destruct (span digit_or_dot (d :: k')) as [digits r1] eqn:E1. destruct (scan_exponent r1) as [e r2] eqn:E2.
  injection E as <- <-. pose proof E1 as E1'. apply span_spec in E1 as (Ek & Hdig & Hr1 & _). apply exponent_spec in E2 as (-> & He & Hr2).
  assert (number_parts (sign ++ digits ++ e) sign digits e) as Hp.
  { split; [done..| |done]. cbn in E1'. unfold digit_or_dot in E1' at 1. rewrite Hd in E1'. cbn in E1'.
    destruct (span digit_or_dot k'). injection E1' as <- _. split; [done|]. by intros ? [= <-]. }
  split; [by rewrite Ek, <- !app_assoc|]. split; [eauto|]. intros c Hc. rewrite (parts_extends _ _ _ _ _ Hp).
  specialize (Hr2 c Hc). destruct e as [|? [|? ?]]; [|done|done]. cbn in Hr1. by rewrite (Hr1 c Hc), Hr2.
Qed.

(** ** String literals *)

(** What follows the opening quote ends in a closing one. *)
Fixpoint closed_body (quote : string) (b : text) : bool :=
  match b with
  | [] => false
  | c :: b =>
      if is_char quote c then is_empty b
      else if is_char backslash c then match b with [] => false | _ :: b => closed_body quote b end
      else closed_body quote b
  end.

Definition closed_token (t : Token) : bool :=
  match t with StringLiteral (q :: b) => closed_body q b | StringLiteral [] => false | _ => true end.

(** Induction along [scan_string], which may take two characters at once. *)
Lemma text_ind2 (P : text → Prop) :
  P [] → (∀ c, P [c]) → (∀ c d l, P l → P (d :: l) → P (c :: d :: l)) → ∀ l, P l.
Proof.
  intros H0 H1 H2 l. assert (P l ∧ ∀ c, P (c :: l)) as [? _]; [|done].
  induction l as [|d l [IH1 IH2]]; [done|]. split; [apply IH2|]. intros c. by apply H2.
Qed.

Lemma closed_scan q b cs : closed_body q b = true → scan_string q (b ++ cs) = Some (b, cs).
Proof.
  induction b as [|c|c d b IH1 IH2] using text_ind2; [done| |].
  - cbn. destruct (is_char q c); [done|]. by destruct (is_char backslash c).
  - cbn -[is_char] in IH2 |- *. destruct (is_char q c); [done|]. destruct (is_char backslash c); intros Hc.
    + by rewrite (IH1 Hc).
    + by rewrite (IH2 Hc).
Qed.

Lemma scan_string_split q cs b r : scan_string q cs = Some (b, r) → cs = (b ++ r)%list.
Proof.
  revert b r. induction cs as [|c|c d cs IH1 IH2] using text_ind2; intros b r; cbn.
  - by intros [= <- <-].
  - destruct (is_char q c); [by intros [= <- <-]|]. destruct (is_char backslash c); [done|]. by intros [= <- <-].
  - destruct (is_char q c); [by intros [= <- <-]|]. destruct (is_char backslash c); cbn.
    + destruct (scan_string q cs) as [[b' r']|]; [|done]. intros [= <- <-]. by rewrite (IH1 _ _ eq_refl).
    + cbn in IH2. destruct (if is_char q d then _ else _) as [[b' r']|]; [|done]. intros [= <- <-].
      by rewrite (IH2 _ _ eq_refl).
Qed.

Lemma closed_last q b : closed_body q b = true → last b = Some q.
Proof.
  induction b as [|c|c d b IH1 IH2] using text_ind2; [done| |]; cbn -[is_char last].
  - destruct (is_char q c) eqn:E; [apply String.eqb_eq in E as ->; done|]. by destruct (is_char backslash c).
  - destruct (is_char q c); [done|]. destruct (is_char backslash c); intros Hc.
    + destruct b as [|x b]; [done|]. by rewrite <- IH1.
    + by rewrite <- IH2.
Qed.

(** ASCII letters and digits are what Unicode says they are. *)
Class AsciiLetters `{CharClass} `{Alphabetic} := {
  alphabetic_ascii a : between 0 127 a = true → is_alphabetic (String a "") = between 65 90 a || between 97 122 a;
  alphanumeric_ascii a : between 0 127 a = true →
    is_alphanumeric (String a "") = between 65 90 a || between 97 122 a || between 48 57 a;
}.

Section theorems.
Context `{UnicodeCaseLaws} `{CC : CharClass} `{AL : Alphabetic} `{!AsciiLetters}.

Definition letter (c : string) : bool := match c with String a "" => between 65 90 a || between 97 122 a | _ => false end.

Lemma alphabetic_letter c : ascii_char c → is_alphabetic c = letter c.
Proof. intros (a & -> & Ha). by apply alphabetic_ascii. Qed.
Lemma word_char_letter c : ascii_char c → word_char c = letter c || is_digit c || is_char "_" c.
Proof. intros (a & -> & Ha). unfold word_char. by rewrite alphanumeric_ascii. Qed.

(** ** Tokens and the text they stand for *)

Definition text_of (t : Token) : text :=
  match t with
  | Keyword w | Modality w | Word w => w
  | StringLiteral s => s
  | Number n => n
  | Whitespace => []
  | Punctuation c => [c]
  end.

(** The token that the tokenizer reads back. *)
Definition plain (t : Token) : Token := match t with Keyword w | Modality w => Word w | t => t end.

Definition extends (t : Token) (c : string) : bool :=
  match t with
  | Keyword _ | Modality _ | Word _ => word_char c
  | Number n => number_extends n c
  | Punctuation d => is_char "-" d && is_digit c
  | StringLiteral _ | Whitespace => false
  end.

Definition good_word (w : text) : Prop :=
  Forall (λ c, word_char c = true) w ∧ ∃ c w', w = c :: w' ∧ (letter c || is_char "_" c) = true.

(** A token that stands for itself. *)
Definition good (t : Token) : Prop :=
  Forall ascii_char (text_of t) ∧
  match t with
  | Keyword w | Modality w | Word w => good_word w
  | StringLiteral s => ∃ q b, s = q :: b ∧ is_quote q = true ∧ closed_body q b = true
  | Number n => ∃ sign digits e, number_parts n sign digits e
  | Punctuation c => is_quote c || is_whitespace c || letter c || is_char "_" c || is_digit c = false
  | Whitespace => False
  end.

Lemma letter_is c : ascii_char c → letter c || is_char "_" c = true → is_quote c = false ∧ is_whitespace c = false.
Proof.
  intros Ha Hc. pose proof (all_chars_spec (λ c, negb (letter c || is_char "_" c) || negb (is_quote c || is_whitespace c)) c
    ltac:(by vm_compute) Ha) as Hall. cbn in Hall. rewrite Hc in Hall. cbn in Hall. by apply negb_true_iff, orb_false_iff in Hall.
Qed.

Lemma number_head n sign digits e :
  number_parts n sign digits e → Forall ascii_char n →
  ∃ c n', n = c :: n' ∧ is_quote c || is_whitespace c || letter c || is_char "_" c = false.
Proof.
  intros [-> Hs _ [Hne Hst] _] Ha. destruct digits as [|d digits]; [done|]. specialize (Hst d eq_refl).
  destruct Hs as [-> | ->]; cbn [app] in *; [|by exists "-", ((d :: digits) ++ e)%list].
  exists d, (digits ++ e)%list. split; [done|]. apply Forall_inv in Ha.
  pose proof (all_chars_spec (λ c, negb (is_digit c) || negb (is_quote c || is_whitespace c || letter c || is_char "_" c)) d
    ltac:(by vm_compute) Ha) as Hall. cbn in Hall. rewrite Hst in Hall. by apply negb_true_iff in Hall.
Qed.

(** A good token is read back when what follows does not extend it. *)
Lemma next_good t cs :
  good t → Forall ascii_char cs → (∀ c, head cs = Some c → extends t c = false) →
  next_token (text_of t ++ cs) = Some (plain t, cs).
Proof.
  intros [Ha Hg] Hcs Hc.
  assert (∀ w, good_word w → Forall ascii_char w → (∀ c, head cs = Some c → word_char c = false) →
    next_token (w ++ cs) = Some (Word w, cs)) as Hword.
  { intros w [Hw (c & w' & -> & Hl)] Haw He. pose proof (Forall_inv Haw) as Hac. destruct (letter_is c Hac Hl) as [Hq Hws].
    cbn [app next_token]. rewrite Hq, Hws, alphabetic_letter, Hl by done.
    change (c :: w' ++ cs)%list with ((c :: w') ++ cs)%list. by rewrite (span_app _ _ _ _ _ (span_all _ _ Hw) (λ _, He)). }
  destruct t as [w|w|w|s|n| |c]; cbn [text_of plain] in *; [by apply Hword..| | |done|].
  - destruct Hg as (q & b & -> & Hq & Hb). cbn [app next_token]. by rewrite Hq, (closed_scan _ _ _ Hb).
  - destruct Hg as (sign & digits & e & Hp). destruct (number_head _ _ _ _ Hp Ha) as (c & n' & En & Hn).
    rewrite !orb_false_iff in Hn. destruct Hn as [[[Hq Hw] Hl] Hu]. destruct (scan_parts _ _ _ _ cs Hp Hc) as [E1 E2].
    subst n. apply Forall_inv in Ha. cbn [app next_token] in *. rewrite Hq, Hw, alphabetic_letter, Hl, Hu by done. cbn [orb]. by rewrite E2, E1.
  - apply Forall_inv in Ha. rewrite !orb_false_iff in Hg. destruct Hg as [[[[Hq Hw] Hl] Hu] Hd]. cbn [app next_token].
    rewrite Hq, Hw, alphabetic_letter, Hl, Hu by done. cbn [orb].
    assert (starts_number (c :: cs) = false) as ->; [|done]. destruct cs as [|d cs]; cbn; [done|]. rewrite Hd. cbn. by apply Hc.
Qed.

Lemma next_spec cs t r :
  Forall ascii_char cs → next_token cs = Some (t, r) → closed_token t = true →
  (t = Whitespace ∧ ∃ w, cs = (w ++ r)%list ∧ w ≠ [] ∧ Forall (λ c, is_whitespace c = true) w) ∨
  (good t ∧ plain t = t ∧ cs = (text_of t ++ r)%list ∧ ∀ c, head r = Some c → extends t c = false).
Proof.
  intros Ha. unfold next_token. destruct cs as [|c cs]; [done|]. pose proof (Forall_inv Ha) as Hc.
  rewrite alphabetic_letter by done.
  destruct (is_quote c) eqn:Hq.
  { destruct (scan_string c cs) as [[b r']|] eqn:E; [|done]. intros [= <- <-] Hb. right. apply scan_string_split in E as ->.
    cbn. split_and!; [split; [by rewrite app_comm_cons in Ha; apply Forall_app in Ha as []|by exists c, b]|done..]. }
  destruct (is_whitespace c) eqn:Hw.
  { intros [= <- <-] _. left. split; [done|]. destruct (drop_while_split is_whitespace (c :: cs)) as (w & E & Hf & _).
    exists w. split_and!; [exact E| |done]. intros ->. cbn in E. rewrite Hw in E. apply (f_equal length) in E. cbn in E.
    destruct (drop_while_split is_whitespace cs) as (w' & E' & _). apply (f_equal length) in E'. rewrite length_app in E'. lia. }
  destruct (letter c || is_char "_" c) eqn:Hl.
  { destruct (span word_char (c :: cs)) as [w r'] eqn:E. intros [= <- <-] _. right.
    assert (word_char c = true) as Hwc. { rewrite word_char_letter by done. apply orb_true_iff in Hl as [-> | ->]; by rewrite ?orb_true_r. }
    pose proof E as E'. apply span_spec in E as (Ew & Hf & Hr & _). cbn. split_and!; [|done..].
    split; [by rewrite Ew in Ha; apply Forall_app in Ha as []|]. split; [done|]. cbn in E'. rewrite Hwc in E'.
    destruct (span word_char cs). injection E' as <- _. by eexists _, _. }
  destruct (starts_number (c :: cs)) eqn:Hn.
  { destruct (scan_number (c :: cs)) as [n r'] eqn:E. intros [= <- <-] _. right.
    apply scan_number_parts in E as (E & Hp & Hr); [|done]. cbn. split_and!; [|done..]. split; [|done].
    rewrite E in Ha. by apply Forall_app in Ha as []. }
  intros [= <- <-] _. right. cbn. split_and!; [|done..|].
  - split; [by constructor|]. apply orb_false_iff in Hl as [-> ->]. rewrite Hq, Hw. cbn. destruct cs; cbn in Hn; [done|].
    by apply orb_false_iff in Hn as [].
  - intros d Hd. destruct cs as [|x cs]; [done|]. injection Hd as ->. cbn in Hn. by apply orb_false_iff in Hn as [].
Qed.

(** ** Sequences of tokens *)

(** What the layouts insert. *)
Definition layout (t : Token) : bool :=
  match t with
  | Whitespace => true
  | Punctuation c => is_char newline c
  | Word w => match w with [a; b] => is_char " " a && is_char " " b | _ => false end
  | _ => false
  end.

Definition proper (t : Token) : Prop := layout t = true ∨ good t.

(** Neighbours that are not separated by layout do not run into each other. *)
Definition link (t t' : Token) : Prop :=
  layout t = false → layout t' = false → ∀ c, head (text_of t') = Some c → extends t c = false.
Definition linked (ts : list Token) : Prop := ∀ i t t', ts !! i = Some t → ts !! S i = Some t' → link t t'.

Lemma good_not_layout t : good t → layout t = false.
Proof.
  intros [Ha Hg]. destruct t as [| |w| | | |c]; cbn in *; try done.
  - destruct w as [|a [|b [|? ?]]]; try done. destruct Hg as [_ (c & w' & [= <- <-] & Hl)].
    destruct (letter_is a (Forall_inv Ha) Hl) as [_ Hw]. destruct (is_char " " a) eqn:E; [|done].
    unfold is_char in E. apply String.eqb_eq in E as ->. done.
  - destruct (is_char newline c) eqn:E; [|done]. unfold is_char in E. apply String.eqb_eq in E as ->. by vm_compute in Hg.
Qed.

Lemma good_nonempty t : good t → text_of t ≠ [].
Proof.
  intros [_ Hg]. destruct t; cbn in *; [by destruct Hg as [_ (? & ? & -> & _)]..| | |done|done].
  - by destruct Hg as (? & ? & -> & _).
  - destruct Hg as (? & ? & ? & Hp). destruct Hp as [-> _ _ [Hp _] _]. intros E. apply app_nil in E as [_ E].
    by apply app_nil in E as [].
Qed.

Lemma proper_solid t : proper t → layout t = false → good t.
Proof. by intros [-> |]. Qed.

Lemma linked_cons t ts : linked (t :: ts) ↔ (∀ t', head ts = Some t' → link t t') ∧ linked ts.
Proof.
  split.
  - intros Hl. split; [|intros i; apply (Hl (S i))]. intros t' Ht. destruct ts as [|x ts]; [done|]. injection Ht as ->.
    by apply (Hl 0%nat).
  - intros [H1 H2] [|i] a b Ha Hb; [|by apply (H2 i)]. cbn in Ha, Hb. injection Ha as <-. apply H1.
    destruct ts; [done|]. by injection Hb as ->.
Qed.

Lemma linked_snoc ts t : linked ts → (∀ t0, last ts = Some t0 → link t0 t) → linked (ts ++ [t]).
Proof.
  intros Hl Ht i a b Ha Hb. destruct (decide (S i < length ts)%nat) as [Hi|Hi].
  - rewrite lookup_app_l in Ha, Hb by lia. by apply (Hl i).
  - assert (S i = length ts) as E. { apply lookup_lt_Some in Hb. rewrite length_app in Hb. cbn in Hb. lia. }
    rewrite lookup_app_l in Ha by lia. rewrite lookup_app_r, <- E, Nat.sub_diag in Hb by lia. injection Hb as <-.
    apply Ht. rewrite last_lookup, <- E. done.
Qed.

Lemma linked_prefix ts ts' : linked (ts ++ ts') → linked ts.
Proof. intros Hl i a b Ha Hb. apply (Hl i); by apply lookup_app_l_Some. Qed.

Lemma link_layout_l t t' : layout t = true → link t t'.
Proof. unfold link. congruence. Qed.
Lemma link_layout_r t t' : layout t' = true → link t t'.
Proof. unfold link. congruence. Qed.

(** The tokenizer's output. *)
Lemma tokenize_linked fuel cs ts :
  (length cs ≤ fuel)%nat → Forall ascii_char cs → tokenize_loop fuel cs = Some ts → Forall (λ t, closed_token t = true) ts →
  Forall (λ t, t = Whitespace ∨ good t ∧ plain t = t) ts ∧ linked ts ∧
  (∀ t, head ts = Some t → layout t = false → head (text_of t) = head cs).
Proof.
  revert cs ts. induction fuel as [|fuel IH]; intros cs ts Hl Ha.
  { destruct cs; [|cbn in Hl; lia]. cbn. intros [= <-] _. split_and!; [by constructor|by intros ? ? ?|done]. }
  cbn. destruct cs as [|c cs]; [intros [= <-] _; split_and!; [by constructor|by intros ? ? ?|done]|].
  destruct (next_token (c :: cs)) as [[t r]|] eqn:En; [|done]. cbn.
  destruct (tokenize_loop fuel r) as [ts'|] eqn:El; [|done]. intros [= <-] [Hct Hc]%Forall_cons.
  pose proof (next_spec _ _ _ Ha En Hct) as Hn.
  assert (∃ w, (c :: cs = w ++ r)%list ∧ w ≠ []) as (w & Ew & Hw).
  { destruct Hn as [(_ & w & E & Hne & _)|(Hg & _ & E & _)]; [by exists w|]. exists (text_of t). split; [done|].
    by apply good_nonempty. }
  assert (length r ≤ fuel)%nat as Hr.
  { apply (f_equal length) in Ew. rewrite length_app in Ew. destruct w; [done|]. cbn in *. lia. }
  assert (Forall ascii_char r) as Har by (rewrite Ew in Ha; by apply Forall_app in Ha as []).
  destruct (IH r ts' Hr Har El Hc) as (H1 & H2 & H3). split_and!.
  - constructor; [|done]. destruct Hn as [[? _]|(? & ? & _)]; auto.
  - apply linked_cons. split; [|done]. intros t' Ht. destruct Hn as [[-> _]|(Hg & _ & _ & He)]; [by apply link_layout_l|].
    intros _ Hs d Hd. apply He. rewrite <- (H3 t') by done. done.
  - intros t0 [= <-] Hs. destruct Hn as [[-> _]|(Hg & _ & E & _)]; [done|]. pose proof (good_nonempty t Hg) as Ht.
    destruct (text_of t); [done|]. cbn in E. by injection E as <- _.
Qed.

(** Upper case. *)
Lemma letter_up c : ascii_char c → letter (up c) = letter c.
Proof.
  intros Ha. apply eqb_true_iff. apply (all_chars_spec (λ c, Bool.eqb (letter (up c)) (letter c))); [by vm_compute|done].
Qed.

(** Upper case belongs to no other token than lower case. *)
Definition class_kept (c : string) : bool :=
  Bool.eqb (is_digit (up c)) (is_digit c) && Bool.eqb (is_char "_" (up c)) (is_char "_" c) &&
  Bool.eqb (is_exponent (up c)) (is_exponent c) && Bool.eqb (is_sign (up c)) (is_sign c) &&
  Bool.eqb (is_char "." (up c)) (is_char "." c).
Lemma class_up c : ascii_char c →
  is_digit (up c) = is_digit c ∧ is_char "_" (up c) = is_char "_" c ∧ is_exponent (up c) = is_exponent c ∧
  is_sign (up c) = is_sign c ∧ is_char "." (up c) = is_char "." c.
Proof.
  intros Ha. assert (class_kept c = true) as Hk by (apply all_chars_spec; [by vm_compute|done]).
  unfold class_kept in Hk. rewrite !andb_true_iff, !eqb_true_iff in Hk. tauto.
Qed.

Lemma word_char_up c : ascii_char c → word_char (up c) = word_char c.
Proof.
  intros Ha. rewrite !word_char_letter by (done || by apply up_ascii). destruct (class_up c Ha) as (-> & -> & _).
  by rewrite letter_up.
Qed.

Lemma extends_up t c : ascii_char c → extends t (up c) = extends t c.
Proof.
  intros Ha. destruct (class_up c Ha) as (Hd & Hu & He & Hs & Hp).
  destruct t; cbn; [by rewrite word_char_up..|done| |done|by rewrite Hd].
  unfold number_extends. destruct (span _ _).2 as [|? [|? ?]]; unfold digit_or_dot; by rewrite ?Hd, ?Hp, ?He, ?Hs.
Qed.

(** A keyword and a word are one token to the tokenizer, in upper case. *)
Lemma uppercase_word w :
  Forall ascii_char w →
  ∃ k, (k = w ∨ k = up <$> w) ∧
    (uppercase_token (Word w) = Keyword k ∨ uppercase_token (Word w) = Modality k ∨ uppercase_token (Word w) = Word k).
Proof.
  intros Hw. destruct (cat_ascii w Hw) as [H1 H2]. cbn. rewrite str_upper_ascii, cat_up by done.
  assert (chars (cat (up <$> w)) = up <$> w) as E.
  { apply cat_ascii, Forall_fmap. eapply Forall_impl; [exact Hw|]. apply up_ascii. }
  rewrite E. case_match; [exists (up <$> w); auto|]. case_match; [exists (up <$> w)|exists w]; auto.
Qed.

Lemma good_word_up w : Forall ascii_char w → good_word w → good_word (up <$> w).
Proof.
  intros Ha [Hw (c & w' & -> & Hl)]. split.
  - apply Forall_fmap. rewrite Forall_forall in *. intros x Hx. cbn. rewrite word_char_up by by apply Ha. by apply Hw.
  - exists (up c), (up <$> w'). split; [done|]. apply Forall_inv in Ha. rewrite letter_up by done.
    by destruct (class_up c Ha) as (_ & -> & _).
Qed.

Lemma uppercase_good t :
  good t → good (uppercase_token t) ∧ (∀ c, extends (uppercase_token t) c = extends t c) ∧
  (∀ c, head (text_of (uppercase_token t)) = Some c → ∃ d, head (text_of t) = Some d ∧ ascii_char d ∧ (c = d ∨ c = up d)).
Proof.
  intros Hg. pose proof Hg as [Ha Hg']. assert (∀ c, head (text_of t) = Some c → ascii_char c) as Hh.
  { intros c Hc. destruct (text_of t); [done|]. injection Hc as ->. by apply Forall_inv in Ha. }
  destruct t as [| |w| | | |]; cbn [uppercase_token]; try (split_and!; [done|done|intros x Hx; exists x; split_and!; [done|by apply Hh|by left]]).
  destruct (uppercase_word w Ha) as (k & Hk & Hu). cbn in Ha, Hg'. assert (Forall ascii_char k ∧ good_word k) as [Hka Hkg].
  { destruct Hk as [-> | ->]; [done|]. split; [|by apply good_word_up]. apply Forall_fmap. eapply Forall_impl; [exact Ha|].
    apply up_ascii. }
  assert (∀ c, head k = Some c → ∃ d, head w = Some d ∧ ascii_char d ∧ (c = d ∨ c = up d)) as Hkh.
  { destruct Hk as [-> | ->]; [intros c Hc; exists c; split_and!; [done|by apply Hh|by left]|]. destruct w as [|d w]; [done|]. intros c [= <-].
    exists d. apply Forall_inv in Ha. auto. }
  cbn [uppercase_token] in Hu. destruct Hu as [-> |[-> | ->]]; by split_and!.
Qed.

Lemma uppercase_layout t : t = Whitespace ∨ good t → layout (uppercase_token t) = layout t.
Proof.
  intros [-> |Hg]; [done|]. by rewrite !good_not_layout by (done || by apply uppercase_good).
Qed.

Lemma uppercase_linked ts :
  Forall (λ t, t = Whitespace ∨ good t) ts → linked ts →
  Forall (λ t, t = Whitespace ∨ good t) (uppercase_keywords ts) ∧ linked (uppercase_keywords ts).
Proof.
  intros Hg Hl. unfold uppercase_keywords. split.
  - apply Forall_fmap. eapply Forall_impl; [exact Hg|]. intros t [-> |Ht]; [by left|right]. by apply uppercase_good.
  - intros i a b Ha Hb. rewrite list_lookup_fmap in Ha, Hb. apply fmap_Some in Ha as (t & Ht & ->), Hb as (t' & Ht' & ->).
    pose proof (Forall_lookup_1 _ _ _ _ Hg Ht) as Hgt. pose proof (Forall_lookup_1 _ _ _ _ Hg Ht') as Hgt'.
    intros H1 H2 c Hc. rewrite uppercase_layout in H1, H2 by done. destruct Hgt as [-> |Hgt]; [done|]. destruct Hgt' as [-> |Hgt']; [done|].
    destruct (uppercase_good t Hgt) as (_ & He & _). rewrite He.
    destruct (uppercase_good t' Hgt') as (_ & _ & Hh). destruct (Hh c Hc) as (d & Hd & Hda & [-> | ->]); rewrite ?extends_up by done;
      by apply (Hl i t t' Ht Ht').
Qed.

(** ** Texts that stand for tokens *)

Definition solids (ts : list Token) : list Token := plain <$> retain (λ t, negb (layout t)) ts.

Lemma solids_app ts ts' : solids (ts ++ ts') = (solids ts ++ solids ts')%list.
Proof. unfold solids. by rewrite retain_app, fmap_app. Qed.
Lemma solids_layout t : layout t = true → solids [t] = [].
Proof. intros Ht. unfold solids. cbn. by rewrite Ht. Qed.
Lemma solids_solid t : layout t = false → solids [t] = [plain t].
Proof. intros Ht. unfold solids. cbn. by rewrite Ht. Qed.

(** The tokens of a text, from its front. *)
Inductive lexes : list Token → text → Prop :=
  | lexes_nil : lexes [] []
  | lexes_ws ts c cs : ascii_char c → is_whitespace c = true → lexes ts cs → lexes ts (c :: cs)
  | lexes_tok ts t cs : good t → (∀ c, head cs = Some c → extends t c = false) → lexes ts cs →
      lexes (plain t :: ts) (text_of t ++ cs).

Lemma lexes_ascii ts cs : lexes ts cs → Forall ascii_char cs.
Proof. induction 1 as [|ts c cs Hc _ _ IH|ts t cs [Ha _] _ _ IH]; [done|by constructor|by apply Forall_app]. Qed.

Lemma good_head t : good t → ∃ c w, text_of t = c :: w ∧ is_whitespace c = false.
Proof.
  intros Hg. pose proof (good_nonempty t Hg) as Hne. destruct (text_of t) as [|c w] eqn:Et; [done|]. exists c, w. split; [done|].
  destruct Hg as [Ha Hg]. rewrite Et in Ha. apply Forall_inv in Ha.
  destruct t; cbn in Et, Hg; [| | | | |done|].
  1-3: subst; destruct Hg as [_ (? & ? & [= <- <-] & Hl)]; by apply (letter_is c).
  - destruct Hg as (q & b & -> & Hq & _). injection Et as -> ->.
    pose proof (all_chars_spec (λ c, negb (is_quote c) || negb (is_whitespace c)) c ltac:(by vm_compute) Ha) as Hc.
    cbn in Hc. rewrite Hq in Hc. by apply negb_true_iff in Hc.
  - destruct Hg as (s & d & e & Hp). subst n. destruct Hp as [E Hs Hd [Hdn Hst] _]. destruct d as [|x d]; [done|].
    specialize (Hst x eq_refl). destruct Hs as [-> | ->]; [|by injection E as -> _]. injection E as -> _.
    pose proof (all_chars_spec (λ c, negb (is_digit c) || negb (is_whitespace c)) x ltac:(by vm_compute) Ha) as Hc.
    cbn in Hc. rewrite Hst in Hc. by apply negb_true_iff in Hc.
  - injection Et as -> _. rewrite !orb_false_iff in Hg. tauto.
Qed.

Lemma lexes_drop_while ts cs : lexes ts cs → lexes ts (drop_while is_whitespace cs).
Proof.
  induction 1 as [|ts c cs Hc Hw Hl IH|ts t cs Hg He Hl IH]; [constructor|by cbn; rewrite Hw|].
  destruct (good_head t Hg) as (c & w & E & Hw). pose proof (lexes_tok _ _ _ Hg He Hl) as Hk.
  rewrite E in *. cbn [app drop_while]. by rewrite Hw.
Qed.

(** The tokenizer finds them. *)
Lemma lexes_tokenize n ts cs :
  (length cs ≤ n)%nat → lexes ts cs →
  ∃ ts', tokenize_loop n cs = Some ts' ∧ retain (λ t, negb (is_space_token t)) ts' = ts.
Proof.
  revert ts cs. induction n as [|n IH]; intros ts cs Hn Hl.
  { destruct cs; [|cbn in Hn; lia]. inversion Hl as [|? ? ? ? ? ? |? t ? Hg ? ? E E']; [by exists []|].
    apply app_nil in E' as [E' _]. by apply good_nonempty in Hg. }
  destruct Hl as [|ts c cs Hc Hw Hl|ts t cs Hg He Hl]; [by exists []| |].
  - assert (is_quote c = false) as Hq.
    { pose proof (all_chars_spec (λ c, negb (is_whitespace c) || negb (is_quote c)) c ltac:(by vm_compute) Hc) as Hq.
      cbn in Hq. rewrite Hw in Hq. by apply negb_true_iff in Hq. }
    destruct (IH ts (drop_while is_whitespace cs)) as (ts' & E & Hr).
    { destruct (drop_while_split is_whitespace cs) as (w & E & _). apply (f_equal length) in E.
      rewrite length_app in E. cbn in Hn. lia. }
    { by apply lexes_drop_while. }
    exists (Whitespace :: ts'). cbn. rewrite Hq, Hw. cbn. by rewrite E.
  - destruct (good_head t Hg) as (c & w & Et & Hw). pose proof (next_good t cs Hg (lexes_ascii _ _ Hl) He) as Hnext.
    destruct (IH ts cs) as (ts' & E & Hr); [|done|].
    { rewrite Et in Hn. cbn in Hn. rewrite length_app in Hn. lia. }
    exists (plain t :: ts'). rewrite Et in *. cbn [app tokenize_loop] in *. rewrite Hnext. cbn. rewrite E. split; [done|].
    cbn. rewrite Hr. destruct Hg as [_ Hg]. by destruct t.
Qed.

(** The characters of a number. *)
Definition number_char (c : string) : bool := digit_or_dot c || is_exponent c || is_sign c.

Lemma exponent_chars e : scan_exponent e = (e, []) → Forall (λ c, number_char c = true) e.
Proof.
  assert (∀ k, Forall (λ c, is_digit c = true) k → Forall (λ c, number_char c = true) k) as Hk.
  { intros k Hk. eapply Forall_impl; [exact Hk|]. intros z. unfold number_char, digit_or_dot. by intros ->. }
  destruct e as [|x e]; [done|]. cbn. destruct (is_exponent x) eqn:Ex; [|done].
  intros He. constructor; [unfold number_char; by rewrite Ex, orb_true_r|]. destruct e as [|s e]; [done|].
  destruct (is_sign s) eqn:Es.
  - destruct (span is_digit e) as [k r] eqn:Ek. apply span_spec in Ek as (_ & Hd & _). injection He as <- _.
    constructor; [unfold number_char; by rewrite Es, orb_true_r|by apply Hk].
  - destruct (span is_digit (s :: e)) as [k r] eqn:Ek. apply span_spec in Ek as (_ & Hd & _). injection He as <- _.
    by apply Hk.
Qed.

Lemma number_chars n sign digits e : number_parts n sign digits e → Forall (λ c, number_char c = true) n.
Proof.
  intros [-> Hs Hd _ He]. apply Forall_app. split; [by destruct Hs as [-> | ->]; repeat constructor|].
  apply Forall_app. split; [|by apply exponent_chars]. eapply Forall_impl; [exact Hd|]. intros c. unfold number_char. by intros ->.
Qed.

Lemma good_last t c : good t → last (text_of t) = Some c → is_whitespace c = false.
Proof.
  intros [Ha Hg] Hl. assert (ascii_char c) as Hc.
  { apply last_Some in Hl as [l El]. rewrite El in Ha. apply Forall_app in Ha as [_ Ha]. by apply Forall_inv in Ha. }
  assert (∀ p : string → bool, all_chars (λ c, negb (p c) || negb (is_whitespace c)) = true → p c = true → is_whitespace c = false) as Hall.
  { intros p Hp Hpc. pose proof (all_chars_spec _ c Hp Hc) as Hx. cbn in Hx. rewrite Hpc in Hx. by apply negb_true_iff in Hx. }
  assert (∀ w, good_word w → last w = Some c → is_whitespace c = false) as Hword.
  { intros w [Hw _] [l ->]%last_Some. apply Forall_app in Hw as [_ Hw]. apply Forall_inv in Hw.
    rewrite word_char_letter in Hw by done. by apply (Hall (λ c, letter c || is_digit c || is_char "_" c)). }
  destruct t; cbn in Hl, Hg; [by apply (Hword w)..| | |done|].
  - destruct Hg as (q & b & -> & Hq & Hb). apply closed_last in Hb. rewrite last_cons, Hb in Hl. injection Hl as ->.
    by apply (Hall is_quote).
  - destruct Hg as (s & d & e & Hp). pose proof (number_chars _ _ _ _ Hp) as Hf. apply last_Some in Hl as [l ->].
    apply Forall_app in Hf as [_ Hf]. apply Forall_inv in Hf. by apply (Hall number_char).
  - injection Hl as ->. rewrite !orb_false_iff in Hg. tauto.
Qed.

Lemma lexes_drop_end ts cs : lexes ts cs → lexes ts (drop_end_while is_whitespace cs).
Proof.
  induction 1 as [|ts c cs Hc Hw Hl IH|ts t cs Hg He Hl IH]; [constructor| |].
  - rewrite drop_end_cons, Hw. destruct (drop_end_while is_whitespace cs); [done|]. by constructor.
  - destruct (last (text_of t)) as [c|] eqn:El; [|by apply last_None, good_nonempty in El].
    rewrite (drop_end_app _ _ _ c) by (done || by apply (good_last t)). constructor; [done| |done].
    intros x Hx. apply He. destruct (drop_end_prefix is_whitespace cs) as (w & E & _). rewrite E.
    by destruct (drop_end_while is_whitespace cs).
Qed.

Lemma lexes_trim ts cs : lexes ts cs → lexes ts (trim_text cs).
Proof. intros Hl. by apply lexes_drop_end, lexes_drop_while. Qed.

(** The tokens of a text, from its end; the token it ends with, if any. *)
Inductive built : list Token → text → option Token → Prop :=
  | built_nil : built [] [] None
  | built_ws ts r o c : built ts r o → ascii_char c → is_whitespace c = true → built ts (r ++ [c]) None
  | built_tok ts r o t : built ts r o → good t →
      (∀ p c, o = Some p → head (text_of t) = Some c → extends p c = false) →
      built (ts ++ [plain t]) (r ++ text_of t) (Some t).

Lemma built_lexes ts r o us cs :
  built ts r o → lexes us cs → (∀ p c, o = Some p → head cs = Some c → extends p c = false) → lexes (ts ++ us) (r ++ cs).
Proof.
  intros Hb. revert us cs. induction Hb as [|ts r o c Hb IH Hc Hw|ts r o t Hb IH Hg He]; intros us cs Hl Hx; [done| |].
  - rewrite <- app_assoc. apply IH; [by constructor|]. intros p x -> [= <-]. clear IH.
    inversion Hb as [| |? ? ? ? _ [Ha Hg] _]; subst. destruct p; cbn in *.
    1-3: rewrite word_char_letter by done;
      pose proof (all_chars_spec (λ c, negb (is_whitespace c) || negb (letter c || is_digit c || is_char "_" c)) c ltac:(by vm_compute) Hc) as Hk;
      cbn in Hk; rewrite Hw in Hk; by apply negb_true_iff in Hk.
    + done.
    + destruct Hg as (s & d & e & Hp). rewrite (parts_extends _ _ _ _ _ Hp).
      pose proof (all_chars_spec (λ c, negb (is_whitespace c) || negb (digit_or_dot c || is_exponent c || is_sign c || is_digit c)) c ltac:(by vm_compute) Hc) as Hk.
      cbn in Hk. rewrite Hw in Hk. apply negb_true_iff in Hk. rewrite !orb_false_iff in Hk. destruct Hk as [[[-> ->] ->] ->].
      by destruct e as [|? [|? ?]].
    + done.
    + pose proof (all_chars_spec (λ c, negb (is_whitespace c) || negb (is_digit c)) c ltac:(by vm_compute) Hc) as Hk.
      cbn in Hk. rewrite Hw in Hk. apply negb_true_iff in Hk. by rewrite Hk, andb_false_r.
  - rewrite <- !app_assoc. apply IH.
    + apply lexes_tok; [done| |done]. intros c Hc. by apply (Hx t c eq_refl).
    + intros p c -> Hc. apply (He p c eq_refl). pose proof (good_nonempty t Hg). by destruct (text_of t).
Qed.

Lemma built_last ts r o c : built ts r o → last r = Some c → is_whitespace c = true → o = None.
Proof.
  intros Hb Hl Hw. destruct Hb as [|ts r o d Hb Hc Hd|ts r o t Hb Hg He]; [done..|].
  rewrite last_app in Hl. destruct (last (text_of t)) as [x|] eqn:Ex; [|by apply last_None, good_nonempty in Ex].
  injection Hl as ->. by rewrite (good_last t c Hg Ex) in Hw.
Qed.

Lemma built_drop p ts r o : (∀ c, p c = true → is_whitespace c = true) → built ts r o → ∃ o', built ts (drop_end_while p r) o'.
Proof.
  intros Hp Hb. induction Hb as [|ts r o c Hb IH Hc Hw|ts r o t Hb IH Hg He].
  - exists None. constructor.
  - rewrite drop_end_snoc. destruct (p c); [done|]. exists None. by econstructor.
  - exists (Some t). pose proof (built_tok _ _ _ _ Hb Hg He) as Hk.
    assert (drop_end_while p (r ++ text_of t) = (r ++ text_of t)%list) as ->; [|done].
    destruct (last (text_of t)) as [x|] eqn:Ex; [|by apply last_None, good_nonempty in Ex].
    apply last_Some in Ex as [l Ex]. rewrite Ex, app_assoc, drop_end_snoc. destruct (p x) eqn:Epx; [|done].
    apply Hp in Epx. rewrite (good_last t x Hg) in Epx; [done|]. by rewrite Ex, last_snoc.
Qed.

Lemma built_empty ts o : built ts [] o → o = None.
Proof.
  inversion 1 as [|? ? ? ? ? ? ? E E'|? ? ? ? ? Hg ? E E']; [done|done|].
  apply app_nil in E' as [_ E']. by apply good_nonempty in Hg.
Qed.

(** ** The layouts *)

Lemma linked_last ts t : linked (ts ++ [t]) → ∀ t0, last ts = Some t0 → link t0 t.
Proof.
  intros Hl t0 [l ->]%last_Some. apply (Hl (length l)).
  - rewrite <- app_assoc. cbn. by rewrite list_lookup_middle.
  - rewrite lookup_app_r by (rewrite length_app; cbn; lia). rewrite length_app. cbn.
    by replace (S (length l) - (length l + 1))%nat with 0%nat by lia.
Qed.

Lemma pop_space_spec r :
  ∃ w, r = (pop_space r ++ w)%list ∧ solids (pop_space r) = solids r.
Proof.
  destruct (drop_end_prefix is_space_token r) as (w & E & Hw). exists w. split; [done|].
  unfold pop_space. rewrite E at 2. rewrite solids_app.
  assert (solids w = []) as ->; [|by rewrite app_nil_r]. unfold solids. rewrite retain_none; [done|].
  intros t Ht. rewrite Forall_forall in Hw. specialize (Hw t Ht). by destruct t.
Qed.

(** A layout token after popped space, and then [t]. *)
Lemma indent_pushed r l t :
  Forall proper r → linked r → Forall (λ t, layout t = true) l → l ≠ [] → proper t →
  Forall proper (pop_space r ++ l ++ [t]) ∧ linked (pop_space r ++ l ++ [t]) ∧
  solids (pop_space r ++ l ++ [t]) = (solids r ++ solids [t])%list ∧ last (pop_space r ++ l ++ [t]) = Some t.
Proof.
  intros Hr Hl Hlay Hne Ht. destruct (pop_space_spec r) as (w & E & Es).
  assert (Forall proper (pop_space r) ∧ linked (pop_space r)) as [Hr' Hl'].
  { split; [rewrite E in Hr; by apply Forall_app in Hr as []|rewrite E in Hl; by apply linked_prefix in Hl]. }
  split_and!.
  - apply Forall_app. split; [done|]. apply Forall_app. split; [|by constructor]. eapply Forall_impl; [exact Hlay|]. by left.
  - rewrite app_assoc. apply linked_snoc.
    + clear Hne. induction l as [|x l IH] using rev_ind; [by rewrite app_nil_r|]. apply Forall_app in Hlay as [Hlay Hx].
      rewrite app_assoc. apply linked_snoc; [by apply IH|]. intros t0 _. apply link_layout_r. by apply Forall_inv in Hx.
    + intros t0 Ht0. apply link_layout_l. rewrite last_app in Ht0. destruct (last l) as [x|] eqn:Ex; [|by apply last_None in Ex].
      injection Ht0 as ->. apply last_Some in Ex as [k ->]. apply Forall_app in Hlay as [_ Hx]. by apply Forall_inv in Hx.
  - rewrite !solids_app, Es. assert (solids l = []) as ->; [|done]. unfold solids. rewrite retain_none; [done|].
    intros x Hx. rewrite Forall_forall in Hlay. by rewrite (Hlay x Hx).
  - by rewrite app_assoc, last_snoc.
Qed.

Lemma indent_fold all its :
  let ts := its.*2 in
  Forall proper ts → linked ts →
  let r := (foldl (indent_step all) ([], true) its).1 in
  Forall proper r ∧ linked r ∧ solids r = solids ts ∧ last r = last ts.
Proof.
  induction its as [|[i t] its IH] using rev_ind; cbn zeta in *; [intros _ _; split_and!; [constructor|by intros ? ? ?|done..]|].
  rewrite fmap_app. cbn. intros Hp Hl.
  apply Forall_app in Hp as [Hp Ht]. apply Forall_inv in Ht. pose proof (linked_last _ _ Hl) as Hlink. apply linked_prefix in Hl.
  destruct (IH Hp Hl) as (H1 & H2 & H3 & H4). clear IH. rewrite foldl_app. cbn [foldl].
  destruct (foldl (indent_step all) ([], true) its) as [r first]. cbn [fst] in *. rewrite last_snoc, solids_app, <- H3.
  assert (Forall proper (r ++ [t]) ∧ linked (r ++ [t]) ∧ solids (r ++ [t]) = (solids r ++ solids [t])%list ∧ last (r ++ [t]) = Some t) as Hplain.
  { split_and!; [apply Forall_app; split; [done|by apply Forall_singleton]| |apply solids_app|by rewrite last_snoc].
    apply linked_snoc; [done|]. intros t0 Ht0. apply Hlink. by rewrite <- H4. }
  unfold indent_step. destruct (clause_starter t).
  - destruct first; [done|]. destruct (prev_is_explain all i && is_select t); cbn [fst].
    + apply (indent_pushed r [Whitespace] t); [done..|by repeat constructor|done|done].
    + apply (indent_pushed r [Punctuation newline] t); [done..|by repeat constructor|done|done].
  - destruct (connective t); [|done]. cbn [fst].
    apply (indent_pushed r [Punctuation newline; Word [" "; " "]] t); [done..|by repeat constructor|done|done].
Qed.

Lemma indent_clauses_spec ts :
  Forall proper ts → linked ts →
  Forall proper (indent_clauses ts) ∧ linked (indent_clauses ts) ∧ solids (indent_clauses ts) = solids ts.
Proof.
  intros Hp Hl. assert ((imap pair ts).*2 = ts) as E.
  { rewrite fmap_imap. apply list_eq. intros i. rewrite list_lookup_imap. by destruct (ts !! i). }
  unfold indent_clauses. destruct (indent_fold ts (imap pair ts)) as (H1 & H2 & H3 & _); [by rewrite E..|]. by rewrite E in H3.
Qed.

(** Where a text ends. *)
Definition at_token (o : option Token) (ts : list Token) : Prop :=
  ∀ p, o = Some p → last ts = Some p ∧ layout p = false.

Lemma built_push ts r o t :
  built (solids ts) r o → at_token o ts → good t → linked (ts ++ [t]) →
  built (solids (ts ++ [t])) (r ++ text_of t) (Some t) ∧ at_token (Some t) (ts ++ [t]).
Proof.
  intros Hb Ha Hg Hl. pose proof (good_not_layout t Hg) as Ht. split.
  - rewrite solids_app, solids_solid by done. apply (built_tok _ _ o); [done..|].
    intros p c -> Hc. destruct (Ha p eq_refl) as [Hp Hs]. by apply (linked_last _ _ Hl p).
  - intros p [= <-]. by rewrite last_snoc.
Qed.

Lemma built_space ts r o t c :
  built (solids ts) r o → layout t = true → ascii_char c → is_whitespace c = true →
  built (solids (ts ++ [t])) (r ++ [c]) None ∧ at_token None (ts ++ [t]).
Proof.
  intros Hb Ht Hc Hw. rewrite solids_app, solids_layout, app_nil_r by done. split; [by econstructor|done].
Qed.

Lemma space_ascii c : is_char " " c || is_char newline c = true → ascii_char c ∧ is_whitespace c = true.
Proof.
  unfold is_char. intros [->%String.eqb_eq | ->%String.eqb_eq]%orb_true_iff; (split; [by eexists|done]).
Qed.

Lemma ends_with_last c r : ends_with c r = true → last r = Some c.
Proof. unfold ends_with, is_char. destruct (last r); [|done]. by intros ->%String.eqb_eq. Qed.

Lemma normalize_fold ts :
  Forall proper ts → linked ts →
  ∃ o, built (solids ts) (foldl normalize_step [] ts) o ∧ at_token o ts.
Proof.
  induction ts as [|t ts IH] using rev_ind; [exists None; split; [constructor|done]|]. intros Hp Hl.
  apply Forall_app in Hp as [Hp Ht]. apply Forall_inv in Ht. destruct (IH Hp (linked_prefix _ _ Hl)) as (o & Hb & Ha). clear IH.
  rewrite foldl_app. cbn [foldl]. set (r := foldl normalize_step [] ts) in *. clearbody r. destruct (layout t) eqn:Hlay.
  - destruct t as [| |w| | | |c]; [done|done| |done|done| |]; cbn [normalize_step].
    + destruct w as [|a [|b [|? ?]]]; try done. cbn in Hlay. apply andb_true_iff in Hlay as [Ha' Hb'].
      destruct (space_ascii a) as [? ?]; [by rewrite Ha'|]. destruct (space_ascii b) as [? ?]; [by rewrite Hb'|].
      exists None. split; [|done]. rewrite solids_app, solids_layout, app_nil_r by (cbn; by rewrite Ha', Hb').
      change [a; b] with ([a] ++ [b])%list. rewrite app_assoc. do 2 (econstructor; [|done|done]). done.
    + destruct (negb (is_empty r) && negb (ends_with newline r) && negb (ends_with " " r)) eqn:E.
      { exists None. by apply (built_space _ _ _ _ _ Hb); [|apply space_ascii..]. }
      exists None. rewrite solids_app, solids_layout, app_nil_r by done. split; [|done].
      assert (o = None) as ->; [|done]. rewrite !andb_false_iff, !negb_false_iff in E. destruct E as [[E|E]|E].
      * destruct r; [|done]. by apply built_empty in Hb.
      * apply ends_with_last in E. by apply (built_last _ _ _ _ Hb E).
      * apply ends_with_last in E. by apply (built_last _ _ _ _ Hb E).
    + cbn in Hlay. rewrite Hlay. unfold is_char in Hlay. apply String.eqb_eq in Hlay as ->.
      destruct (built_drop (is_char " ") _ _ _ ltac:(intros c Hc; apply (space_ascii c); by rewrite Hc) Hb) as [o' Hb'].
      exists None. by apply (built_space _ _ _ _ _ Hb'); [|apply space_ascii..].
  - apply proper_solid in Ht; [|done]. destruct (built_push _ _ _ _ Hb Ha Ht Hl) as [H1 H2]. exists (Some t).
    assert (normalize_step r t = (r ++ text_of t)%list) as ->; [|done].
    destruct t; cbn in *; [done..| | |]; [done|by destruct Ht|]. by rewrite Hlay.
Qed.

(** A comma or a semicolon extends no token. *)
Lemma separator_ends p c : good p → is_char "," c || is_char ";" c = true → extends p c = false.
Proof.
  intros [_ Hg] Hc. assert (ascii_char c ∧ (letter c || is_digit c || is_char "_" c || digit_or_dot c || is_exponent c || is_sign c = false)) as [Ha Hf].
  { unfold is_char in Hc. apply orb_true_iff in Hc as [->%String.eqb_eq | ->%String.eqb_eq]; (split; [by eexists|done]). }
  rewrite !orb_false_iff in Hf. destruct Hf as [[[[[Hl Hd] Hu] Hdd] He] Hs].
  destruct p; cbn in *; [by rewrite word_char_letter, Hl, Hd, Hu by done..|done| |done|by rewrite Hd, andb_false_r].
  destruct Hg as (s & d & e & Hp). rewrite (parts_extends _ _ _ _ _ Hp). destruct e as [|? [|? ?]]; by rewrite ?Hdd, ?He, ?Hs, ?Hd.
Qed.

Lemma built_good ts r o p : built ts r o → o = Some p → good p.
Proof. intros Hb ->. by inversion Hb. Qed.

Lemma compact_fold ts :
  Forall (λ t, t = Whitespace ∨ good t) ts → linked ts →
  let st := foldl compact_step ([], false) ts in
  ∃ o, built (solids ts) st.1 o ∧ at_token o ts ∧ (st.2 = true → o = None).
Proof.
  induction ts as [|t ts IH] using rev_ind; [exists None; split_and!; [constructor|done..]|]. cbn zeta in *. intros Hp Hl.
  apply Forall_app in Hp as [Hp Ht]. apply Forall_inv in Ht. destruct (IH Hp (linked_prefix _ _ Hl)) as (o & Hb & Ha & Hs). clear IH.
  rewrite foldl_app. cbn [foldl]. destruct (foldl compact_step ([], false) ts) as [r space]. cbn [fst snd] in *.
  destruct Ht as [-> |Hg].
  - cbn [compact_step]. destruct (negb space && negb (is_empty r)) eqn:E.
    { exists None. split_and!; [|done..]. by apply (built_space _ _ _ _ _ Hb); [|apply space_ascii..]. }
    exists None. rewrite solids_app, solids_layout, app_nil_r by done. split_and!; [|done..].
    assert (o = None) as ->; [|done]. apply andb_false_iff in E as [E|E]; apply negb_false_iff in E.
    + by apply Hs.
    + destruct r; [|done]. by apply built_empty in Hb.
  - destruct (built_push _ _ _ _ Hb Ha Hg Hl) as [H1 H2].
    destruct t as [| | | | | |c]; cbn [compact_step]; try (eexists; split_and!; [exact H1|exact H2|done]); [by destruct Hg|].
    destruct (is_char "," c || is_char ";" c) eqn:Ec; [|eexists; split_and!; [exact H1|exact H2|done]].
    assert (∃ r' o', (if ends_with " " r then removelast r else r) = r' ∧ built (solids ts) r' o') as (r' & o' & -> & Hb').
    { destruct (ends_with " " r) eqn:E; [|by exists r, o]. apply ends_with_last, last_Some in E as [k ->].
      exists k. rewrite removelast_last. inversion Hb as [E0 E1|? ? o' ? Hb' ? ? E0 E1|? ? ? t' ? Hg' ? E0 E1].
      - by destruct k.
      - apply app_inj_tail in E1 as [-> ->]. by exists o'.
      - assert (last (text_of t') = Some " ") as Hlast.
        { apply (f_equal last) in E1. rewrite last_app, last_snoc in E1. destruct (last (text_of t')) eqn:El; [done|].
          by apply last_None, good_nonempty in El. }
        by apply good_last in Hlast. }
    exists None. split_and!; [|done..]. change [c; " "] with ([c] ++ [" "])%list. rewrite app_assoc. econstructor; [|by eexists|done].
    rewrite solids_app, solids_solid by by apply good_not_layout. apply (built_tok _ _ o' (Punctuation c)); [done..|].
    intros p x Hp' [= <-]. apply separator_ends; [by apply (built_good _ _ _ _ Hb')|done].
Qed.

(** ** Formatting keeps the tokens *)

(** The tokens without white space; the words that the formatter writes in
    upper case. *)
Definition significant (ts : list Token) : list Token := retain (λ t, negb (is_space_token t)) ts.
Definition written (ts : list Token) : list Token := plain ∘ uppercase_token <$> significant ts.

Lemma solids_written ts : Forall (λ t, t = Whitespace ∨ good t) ts → solids (uppercase_keywords ts) = written ts.
Proof.
  induction 1 as [|t ts Ht _ IH]; [done|]. unfold solids, written, uppercase_keywords in *. rewrite fmap_cons. cbn [retain].
  rewrite uppercase_layout by done. destruct Ht as [-> |Hg]; [done|]. rewrite good_not_layout by done.
  assert (is_space_token t = false) as E by (destruct Hg as [_ Hg]; by destruct t). unfold significant in *. cbn [retain]. rewrite E.
  cbn [negb]. by rewrite !fmap_cons, IH.
Qed.

Lemma read_back ts r o : built ts r o → ∃ ts', tokenize (cat (trim_text r)) = Some ts' ∧ significant ts' = ts.
Proof.
  intros Hb. pose proof (built_lexes _ _ _ [] [] Hb lexes_nil ltac:(done)) as Hl. rewrite !app_nil_r in Hl. apply lexes_trim in Hl.
  destruct (cat_ascii _ (lexes_ascii _ _ Hl)) as [_ Hc]. unfold tokenize, tokenize_chars. rewrite Hc. by apply lexes_tokenize.
Qed.

(** C21 (formatting is faithful).  For an ASCII query whose string literals are
    closed, both layouts produce a text, and each text has exactly the tokens
    of the query, in order, apart from white space: keywords and modality names
    in upper case, everything else (string literals to the letter, numbers,
    names) as it was. *)
Theorem formatting_keeps_tokens q ts :
  is_ascii q = true → tokenize q = Some ts → Forall (λ t, closed_token t = true) ts →
  ∃ a b ta tb, format_vcl q = Some a ∧ format_vcl_compact q = Some b ∧
    tokenize a = Some ta ∧ tokenize b = Some tb ∧ significant ta = written ts ∧ significant tb = written ts.
Proof.
  intros Hq Ht Hc. pose proof Ht as Ht'. unfold tokenize, tokenize_chars in Ht'.
  destruct (tokenize_linked _ _ _ (Nat.le_refl _) (chars_ascii q Hq) Ht' Hc) as (Hg & Hl & _).
  assert (Forall (λ t, t = Whitespace ∨ good t) ts) as Hg' by (eapply Forall_impl; [exact Hg|]; intros t [?|[? _]]; auto).
  destruct (uppercase_linked ts Hg' Hl) as [Hu Hul].
  assert (Forall proper (uppercase_keywords ts)) as Hp.
  { eapply Forall_impl; [exact Hu|]. intros t [-> |]; [by left|by right]. }
  destruct (indent_clauses_spec _ Hp Hul) as (Hip & Hil & Es). rewrite (solids_written ts Hg') in Es.
  destruct (normalize_fold _ Hip Hil) as (o & Hb & _). rewrite Es in Hb. apply read_back in Hb as (ta & Ea & Ra).
  destruct (compact_fold _ Hu Hul) as (o' & Hb & _). rewrite (solids_written ts Hg') in Hb. apply read_back in Hb as (tb & Eb & Rb).
  unfold format_vcl, format_vcl_compact. rewrite Ht. cbn. eexists _, _, ta, tb. by split_and!.
Qed.

End theorems.

(** ** When the tokenizer panics *)

Section panics.
Context `{CC : CharClass} `{AL : Alphabetic}.

Lemma scan_string_total q cs : backslash ∉ cs → is_Some (scan_string q cs).
Proof.
  induction cs as [|c cs IH]; [by eexists|]. intros [Hc Hcs]%not_elem_of_cons. cbn. destruct (is_char q c); [by eexists|].
  destruct (is_char backslash c) eqn:E; [unfold is_char in E; apply String.eqb_eq in E; by subst|].
  destruct (IH Hcs) as [[b r] ->]. by eexists.
Qed.

Lemma next_token_total c cs : backslash ∉ cs → ∃ t w r, next_token (c :: cs) = Some (t, r) ∧ (c :: cs = w ++ r)%list.
Proof.
  intros Hb. cbn [next_token]. destruct (is_quote c).
  { destruct (scan_string_total c cs Hb) as [[b r] E]. rewrite E. apply scan_string_split in E as ->. by eexists _, (c :: b), r. }
  destruct (is_whitespace c).
  { destruct (drop_while_split is_whitespace (c :: cs)) as (w & E & _). by eexists _, w, _. }
  destruct (is_alphabetic c || is_char "_" c).
  { destruct (span word_char (c :: cs)) as [w r] eqn:E. apply span_spec in E as (E & _). by eexists _, w, r. }
  destruct (starts_number (c :: cs)) eqn:Es; [|by eexists _, [c], cs].
  destruct (scan_number (c :: cs)) as [n r] eqn:E. apply scan_number_parts in E as (E & _); [|done]. by eexists _, n, r.
Qed.

(** The tokenizer is total on text without a backslash. *)
Theorem tokenize_total q : backslash ∉ chars q → is_Some (tokenize q).
Proof.
  unfold tokenize, tokenize_chars. generalize (length (chars q)). generalize (chars q). clear q.
  intros cs n. revert cs. induction n as [|n IH]; intros cs Hb; [by destruct cs; eexists|]. destruct cs as [|c cs]; [by eexists|].
  destruct (next_token_total c cs) as (t & w & r & E & Ew); [by apply not_elem_of_cons in Hb as []|].
  cbn [tokenize_loop]. rewrite E. cbn. destruct (IH r) as [ts ->]; [|by eexists].
  intros Hr. apply Hb. rewrite Ew. apply elem_of_app. by right.
Qed.

(** A literal that is cut off after a backslash aborts the formatter. *)
Theorem cut_escape_panics s :
  is_ascii s = true → backslash ∉ chars s → "'" ∉ chars s →
  tokenize ("'" +:+ s +:+ backslash) = None.
Proof.
  intros Hs Hb Hq. unfold tokenize, tokenize_chars.
  assert (chars ("'" +:+ s +:+ backslash) = "'" :: (chars s ++ [backslash])%list) as ->.
  { change ("'" +:+ s +:+ backslash) with (String "'" (s +:+ backslash)).
    rewrite chars_cons, chars_app by (done || by rewrite is_ascii_app, Hs). done. }
  cbn [length tokenize_loop next_token]. change (is_quote "'") with true. cbn [andb].
  assert (scan_string "'" (chars s ++ [backslash]) = None) as ->; [|done].
  induction (chars s) as [|c cs IH]; [done|]. apply not_elem_of_cons in Hb as [Hbc Hb], Hq as [Hqc Hq]. cbn.
  destruct (is_char "'" c) eqn:E1; [unfold is_char in E1; apply String.eqb_eq in E1; by subst|].
  destruct (is_char backslash c) eqn:E2; [unfold is_char in E2; apply String.eqb_eq in E2; by subst|]. by rewrite IH.
Qed.

End panics.

(** ** Witnesses *)

Module Witness.

#[local] Instance case : UnicodeCase := {| str_lower := map_ascii ascii_lower; str_upper := map_ascii ascii_upper |}.
#[local] Instance case_laws : UnicodeCaseLaws case.
Proof. by split. Qed.
#[local] Instance alphabetic : Alphabetic := letter.
#[local] Instance alphanumeric : CharClass := λ c, letter c || is_digit c.
#[local] Instance ascii_letters : AsciiLetters.
Proof. by split. Qed.

Definition query : string := "select graph ,vector from octad where name='it\'s' and n>-1.5e3 limit 10".

Lemma formatting_keeps_tokens_witness :
  ∃ ts a b ta tb, tokenize query = Some ts ∧ format_vcl query = Some a ∧ format_vcl_compact query = Some b ∧
    tokenize a = Some ta ∧ tokenize b = Some tb ∧ significant ta = written ts ∧ significant tb = written ts.
Proof.
  eexists. destruct (formatting_keeps_tokens query) with (ts := default [] (tokenize query)) as (a & b & ta & tb & H);
    [done|by vm_compute|by vm_compute; repeat constructor|].
  exists a, b, ta, tb. split; [by vm_compute|exact H].
Defined.

Lemma compact_text :
  format_vcl_compact query = Some "SELECT GRAPH, VECTOR FROM OCTAD WHERE name='it\'s' AND n>-1.5e3 LIMIT 10".
Proof. by vm_compute. Qed.

Lemma tokenize_total_witness : is_Some (tokenize "SELECT 'open").
Proof. apply tokenize_total. apply (bool_decide_unpack (backslash ∉ _)). by vm_compute. Defined.

Lemma cut_escape_panics_witness : tokenize "'it\" = None.
Proof.
  apply (cut_escape_panics "it"); [done|apply (bool_decide_unpack (backslash ∉ _)); by vm_compute|].
  apply (bool_decide_unpack ("'" ∉ _)). by vm_compute.
Defined.

(** A literal that is not closed loses the blanks at its end. *)
Lemma open_literal_trimmed : format_vcl "SELECT 'a  " = Some "SELECT 'a".
Proof. by vm_compute. Qed.

(** Formatting twice is not formatting once. *)
Lemma not_idempotent :
  format_vcl "EXPLAIN(SELECT" = Some "EXPLAIN( SELECT" ∧
  format_vcl "EXPLAIN( SELECT" = Some (cat ["EXPLAIN("; newline; "SELECT"]).
Proof. by vm_compute. Qed.

End Witness.
