(* ===== verification/VclLint.v ===== *)
(** The VCL linter (verisim-repl/src/linter.rs): its rules, the order and the
    positions of its diagnostics, and what its view of a query as words between
    blanks misses. *)

From Stdlib Require Import Strings.Ascii.
From S2P Require Import Prelude Machine Text Collections Format PlanCache Lexing PlanCacheTheorems.

Local Open Scope string_scope.
Local Open Scope Z_scope.

(** ** Diagnostics *)

Inductive Severity := Hint | Warning | Error.

#[export] Instance severity_dec : EqDecision Severity.
Proof. solve_decision. Defined.

Definition severity_display (s : Severity) : string :=
  match s with Hint => "hint" | Warning => "warning" | Error => "error" end.

(** The derived order. *)
Definition severity_rank (s : Severity) : Z := match s with Hint => 0 | Warning => 1 | Error => 2 end.

Inductive LintRule :=
  | MissingLimit | SelectAllModalities | MissingProof | UnboundedTraverse | MissingThreshold
  | OrderByWithoutLimit | DangerousWrite | UnknownProofType | RedundantWhere
  | MultiModalityNoExplain | FederationWithoutStore.

#[export] Instance lint_rule_dec : EqDecision LintRule.
Proof. solve_decision. Defined.

Definition rule_display (r : LintRule) : string :=
  match r with
  | MissingLimit => "VCL001" | SelectAllModalities => "VCL002" | MissingProof => "VCL003"
  | UnboundedTraverse => "VCL004" | MissingThreshold => "VCL005" | OrderByWithoutLimit => "VCL006"
  | DangerousWrite => "VCL007" | UnknownProofType => "VCL008" | RedundantWhere => "VCL009"
  | MultiModalityNoExplain => "VCL010" | FederationWithoutStore => "VCL011"
  end.

Definition rule_description (r : LintRule) : string :=
  match r with
  | MissingLimit => "Query lacks LIMIT clause — may return unbounded results"
  | SelectAllModalities => "Query selects all 8 modalities — consider selecting only what you need"
  | MissingProof => "Semantic modality accessed without PROOF clause — data integrity not verified"
  | UnboundedTraverse => "TRAVERSE without DEPTH limit — may explore entire graph"
  | MissingThreshold => "DRIFT/CONSISTENCY check without THRESHOLD — using implicit default"
  | OrderByWithoutLimit => "ORDER BY without LIMIT — sorting potentially unbounded result set"
  | DangerousWrite => "DELETE/UPDATE without WHERE clause — affects all entities"
  | UnknownProofType => "Unrecognized proof type in PROOF clause"
  | RedundantWhere => "WHERE clause appears redundant (always true condition)"
  | MultiModalityNoExplain => "Multi-modality query — consider running EXPLAIN first to review the plan"
  | FederationWithoutStore => "FEDERATION query without STORE — will query all federated instances"
  end.

Record LintDiagnostic := mkDiagnostic { rule : LintRule; severity : Severity; message : string; offset : nat }.

Definition diagnostic_display (d : LintDiagnostic) : string :=
  cat ["["; rule_display (rule d); "] "; severity_display (severity d); ": "; message d].

Definition MODALITIES : list string :=
  ["GRAPH"; "VECTOR"; "TENSOR"; "SEMANTIC"; "DOCUMENT"; "TEMPORAL"; "PROVENANCE"; "SPATIAL"].
Definition KNOWN_PROOF_TYPES : list string :=
  ["EXISTENCE"; "CONSISTENCY"; "INTEGRITY"; "AUTHENTICITY"; "PROVENANCE"; "ACCESS"; "CITATION"; "ZKP"; "PLONK"].

(** ** The rules *)

Definition tokenize_upper (upper : string) : list string := split_whitespace upper.
Definition has (tokens : list string) (w : string) : bool := bool_decide (w ∈ tokens).
Definition modality_count (tokens : list string) : nat := length (retain (has tokens) MODALITIES).

(** [find(w).unwrap_or(0)]. *)
Definition offset_of (w upper : string) : nat := default O (find_str w upper).

Definition diagnose (r : LintRule) (s : Severity) (o : nat) : LintDiagnostic := mkDiagnostic r s (rule_description r) o.
Definition flag (b : bool) (d : LintDiagnostic) : list LintDiagnostic := if b then [d] else [].

(** The word after the first PROOF. *)
Definition proof_word (tokens : list string) : option string :=
  '(i, _) ← list_find (λ t, t = "PROOF") tokens; tokens !! S i.

Definition unknown_proof (tokens : list string) (upper : string) : list LintDiagnostic :=
  match proof_word tokens with
  | Some p =>
      flag (negb (has KNOWN_PROOF_TYPES p) && nonempty p)
        (mkDiagnostic UnknownProofType Warning
           (cat ["Unknown proof type '"; p; "' — known types: "; String.concat ", " KNOWN_PROOF_TYPES])
           (offset_of p upper))
  | None => []
  end.

(** [None] is a panic: the slice after WHERE is not at a character boundary. *)
Definition redundant_where (upper : string) : option (list LintDiagnostic) :=
  let where_pos := offset_of "WHERE" upper in
  rest ← slice_from (where_pos + 5) upper;
  let after_where := trim_start is_whitespace rest in
  Some (flag (starts_with "1=1" after_where || starts_with "1 = 1" after_where || starts_with "TRUE" after_where)
          (diagnose RedundantWhere Hint where_pos)).

Definition by_severity (d : LintDiagnostic) : Z := - severity_rank (severity d).

Section linter.
Context `{UnicodeCase}.

Definition lint_query (query : string) : option (list LintDiagnostic) :=
  let upper := str_upper query in
  let tokens := tokenize_upper upper in
  let is_select := has tokens "SELECT" in
  let is_delete := has tokens "DELETE" in
  let is_update := has tokens "UPDATE" in
  let is_explain := has tokens "EXPLAIN" in
  let has_limit := has tokens "LIMIT" in
  let has_where := has tokens "WHERE" in
  let has_order := has tokens "ORDER" in
  let has_traverse := has tokens "TRAVERSE" in
  let has_depth := has tokens "DEPTH" in
  let has_proof := has tokens "PROOF" in
  let has_drift := has tokens "DRIFT" || has tokens "CONSISTENCY" in
  let has_threshold := has tokens "THRESHOLD" in
  let has_federation := has tokens "FEDERATION" in
  let has_store := has tokens "STORE" in
  let has_semantic := has tokens "SEMANTIC" in
  redundant ← (if has_where then redundant_where upper else Some []);
  let diagnostics :=
    (flag (is_select && negb has_limit && negb is_explain) (diagnose MissingLimit Warning 0) ++
     flag (is_select && (8 <=? modality_count tokens)%nat) (diagnose SelectAllModalities Hint 0) ++
     flag (has_semantic && negb has_proof && is_select) (diagnose MissingProof Warning (offset_of "SEMANTIC" upper)) ++
     flag (has_traverse && negb has_depth) (diagnose UnboundedTraverse Error (offset_of "TRAVERSE" upper)) ++
     flag (has_drift && negb has_threshold)
       (diagnose MissingThreshold Hint
          (match find_str "DRIFT" upper with Some i => i | None => offset_of "CONSISTENCY" upper end)) ++
     flag (has_order && negb has_limit && is_select) (diagnose OrderByWithoutLimit Warning (offset_of "ORDER" upper)) ++
     flag ((is_delete || is_update) && negb has_where) (diagnose DangerousWrite Error 0) ++
     (if has_proof then unknown_proof tokens upper else []) ++
     redundant ++
     flag (is_select && negb is_explain && (3 <=? modality_count tokens)%nat) (diagnose MultiModalityNoExplain Hint 0) ++
     flag (has_federation && negb has_store) (diagnose FederationWithoutStore Warning (offset_of "FEDERATION" upper)))%list in
  Some (sort_by_key by_severity diagnostics).

Definition is_severity (s : Severity) (d : LintDiagnostic) : bool := bool_decide (severity d = s).

Definition has_errors (query : string) : option bool :=
  ds ← lint_query query; Some (existsb (is_severity Error) ds).

(** [None] is a panic: byte 57 of a long query is inside a character. *)
Definition format_diagnostics (query : string) (ds : list LintDiagnostic) : option string :=
  match ds with
  | [] => Some ""
  | _ =>
      shown ← (if (60 <? String.length query)%nat then p ← slice_to 57 query; Some (cat [p; "..."]) else Some query);
      let count s := fmt_u64 (Z.of_nat (length (retain (is_severity s) ds))) in
      let nl := String (ascii_of_nat 10) "" in
      Some (cat (((λ d, cat ["  "; rule_display (rule d); " "; message d; nl]) <$> ds) ++
                 [nl; "  "; count Error; " error(s), "; count Warning; " warning(s), "; count Hint; " hint(s) in: "; shown; nl])%list)
  end.

End linter.

(** ** Words in a text *)

(** [w] is at byte [i] of [s]. *)
Definition at_offset (w : string) (i : nat) (s : string) : Prop := ∃ a b, s = a +:+ w +:+ b ∧ String.length a = i.

Lemma starts_with_split p s : starts_with p s = true ↔ ∃ b, s = p +:+ b.
Proof.
  rewrite starts_with_strip_prefix. destruct (strip_prefix p s) as [r|] eqn:E.
  - apply strip_prefix_Some in E. naive_solver.
  - split; [done|]. intros [b ->]. by rewrite strip_prefix_app in E.
Qed.

Lemma string_assoc (a b c : string) : a +:+ (b +:+ c) = (a +:+ b) +:+ c.
Proof.
  induction a as [|x a IH]; [done|]. change (String x (a +:+ (b +:+ c)) = String x ((a +:+ b) +:+ c)). by rewrite IH.
Qed.

Lemma find_str_at w s i : find_str w s = Some i → at_offset w i s.
Proof.
  revert i. induction s as [|a s IH]; intros i; cbn [find_str].
  - destruct (starts_with w "") eqn:E; [|done]. intros [= <-]. apply starts_with_split in E as [b E]. by exists "", b.
  - destruct (starts_with w (String a s)) eqn:E.
    + intros [= <-]. apply starts_with_split in E as [b E]. by exists "", b.
    + destruct (find_str w s) as [j|]; [|done]. intros [= <-]. destruct (IH j eq_refl) as (x & y & -> & <-).
      by exists (String a x), y.
Qed.

Lemma find_str_total w a b : is_Some (find_str w (a +:+ w +:+ b)).
Proof.
  induction a as [|c a IH].
  - assert (starts_with w (w +:+ b) = true) as E by (apply starts_with_split; by eexists). change ("" +:+ w +:+ b) with (w +:+ b).
    destruct (w +:+ b); cbn [find_str]; rewrite E; by eexists.
  - change (String c a +:+ w +:+ b) with (String c (a +:+ w +:+ b)). cbn [find_str].
    destruct (starts_with _ _); [by eexists|]. destruct IH as [i ->]. by eexists.
Qed.

(** The pieces between white space are parts of the text. *)
Lemma split_ws_parts s :
  is_ascii s = true →
  (∃ p ps b, split_ws s = p :: ps ∧ s = p +:+ b) ∧ (∀ p, p ∈ split_ws s → ∃ a b, s = a +:+ p +:+ b).
Proof.
  unfold is_ascii. induction s as [|c s IH]; cbn [all_ascii].
  - intros _. split; [by exists "", [], ""|]. intros p Hp. apply list_elem_of_singleton in Hp as ->. by exists "", "".
  - intros [Hc Hs]%andb_prop. destruct (IH Hs) as [(p & ps & b & E & ->) Hall]. rewrite split_ws_cons by done.
    destruct (ws1 c).
    + split; [by eexists "", _, _|]. intros q [->|Hq]%elem_of_cons; [by exists "", (String c (p +:+ b))|].
      destruct (Hall q Hq) as (x & y & ->). by exists (String c x), y.
    + rewrite E. cbn [push]. split; [by exists (String c p), ps, b|]. intros q [->|Hq]%elem_of_cons; [by exists "", b|].
      destruct (Hall q) as (x & y & ->); [rewrite E; by right|]. by exists (String c x), y.
Qed.

Lemma word_at w s : is_ascii s = true → has (tokenize_upper s) w = true → at_offset w (offset_of w s) s.
Proof.
  unfold has, tokenize_upper. intros Hs [Hw _]%bool_decide_eq_true%elem_of_retain.
  apply (split_ws_parts s Hs) in Hw as (a & b & E). destruct (find_str_total w a b) as [i Ei]. rewrite <- E in Ei.
  apply find_str_at. unfold offset_of. by rewrite Ei.
Qed.

Lemma after_where_total upper : is_ascii upper = true → has (tokenize_upper upper) "WHERE" = true →
  ∃ b, redundant_where upper = Some (flag b (diagnose RedundantWhere Hint (offset_of "WHERE" upper))).
Proof.
  intros Ha Hw. destruct (word_at "WHERE" upper Ha Hw) as (a & b & E & Hi). unfold redundant_where.
  assert (slice_from (offset_of "WHERE" upper + 5) upper = Some b) as ->; [|by eexists].
  assert (is_ascii b = true) as Hb. { rewrite E, !is_ascii_app in Ha. by apply andb_prop in Ha as [_ [_ ?]%andb_prop]. }
  assert (upper = (a +:+ "WHERE") +:+ b) as E'. { by rewrite E at 1; rewrite string_assoc. }
  rewrite <- Hi, E'. replace (String.length a + 5)%nat with (String.length (a +:+ "WHERE")) by (by rewrite string_app_length).
  by apply slice_from_app.
Qed.

(** ** The diagnostics of a query *)

Definition all_rules : list LintRule :=
  [MissingLimit; SelectAllModalities; MissingProof; UnboundedTraverse; MissingThreshold; OrderByWithoutLimit;
   DangerousWrite; UnknownProofType; RedundantWhere; MultiModalityNoExplain; FederationWithoutStore].

Definition severity_of (r : LintRule) : Severity :=
  match r with
  | UnboundedTraverse | DangerousWrite => Error
  | MissingLimit | MissingProof | OrderByWithoutLimit | UnknownProofType | FederationWithoutStore => Warning
  | SelectAllModalities | MissingThreshold | RedundantWhere | MultiModalityNoExplain => Hint
  end.

(** The words a rule points to; none means the start of the query. *)
Definition places (tokens : list string) (r : LintRule) : list string :=
  match r with
  | MissingProof => ["SEMANTIC"] | UnboundedTraverse => ["TRAVERSE"] | MissingThreshold => ["DRIFT"; "CONSISTENCY"]
  | OrderByWithoutLimit => ["ORDER"] | UnknownProofType => option_list (proof_word tokens)
  | RedundantWhere => ["WHERE"] | FederationWithoutStore => ["FEDERATION"]
  | _ => []
  end.

Definition points (upper : string) (d : LintDiagnostic) : Prop :=
  match places (tokenize_upper upper) (rule d) with
  | [] => offset d = 0%nat
  | ws => ∃ w, w ∈ ws ∧ at_offset w (offset d) upper
  end.
Definition fine (upper : string) (d : LintDiagnostic) : Prop := severity d = severity_of (rule d) ∧ points upper d.

Lemma flag_rules b d : rule <$> flag b d `sublist_of` [rule d].
Proof. destruct b; [done|apply sublist_nil_l]. Qed.

Lemma flag_fine upper b d : (b = true → fine upper d) → Forall (fine upper) (flag b d).
Proof. destruct b; [|constructor]. intros Hf. by apply Forall_singleton, Hf. Qed.

Lemma unknown_rules tokens upper : rule <$> unknown_proof tokens upper `sublist_of` [UnknownProofType].
Proof. unfold unknown_proof. destruct (proof_word tokens); [apply flag_rules|apply sublist_nil_l]. Qed.

Lemma proof_word_has tokens p : proof_word tokens = Some p → has tokens p = true.
Proof.
  unfold proof_word. destruct (list_find _ tokens) as [[i t]|]; [|done]. cbn. intros Hp.
  apply bool_decide_eq_true. by eapply list_elem_of_lookup_2.
Qed.

Lemma unknown_fine upper : is_ascii upper = true → Forall (fine upper) (unknown_proof (tokenize_upper upper) upper).
Proof.
  intros Ha. unfold unknown_proof. destruct (proof_word _) as [p|] eqn:E; [|constructor]. apply flag_fine. intros _.
  split; [done|]. unfold points. cbn [places rule]. rewrite E. cbn. exists p. split; [by apply list_elem_of_singleton|].
  apply word_at; [done|]. by apply proof_word_has.
Qed.

Section theorems.
Context `{UnicodeCaseLaws}.

Lemma upper_ascii q : is_ascii q = true → is_ascii (str_upper q) = true.
Proof.
  intros Hq. rewrite str_upper_ascii by done. unfold is_ascii in *. rewrite all_ascii_map.
  eapply all_ascii_impl; [|exact Hq]. intros a Ha. cbn.
  assert (∀ x, Bool.eqb (negb (between 0 127 x) || between 0 127 (ascii_upper x)) true = true) as Hall.
  { intros x. destruct x as [[] [] [] [] [] [] [] []]; by vm_compute. }
  specialize (Hall a). rewrite Ha in Hall. by apply eqb_prop in Hall.
Qed.

Lemma existsb_perm {A} (p : A → bool) l k : l ≡ₚ k → existsb p l = existsb p k.
Proof. intros Hp. apply eq_true_iff_eq. rewrite !existsb_exists. by setoid_rewrite <- list_elem_of_In; setoid_rewrite Hp. Qed.

Lemma errors_first l : StronglySorted (λ a b, severity_rank (severity b) ≤ severity_rank (severity a)) (sort_by_key by_severity l).
Proof.
  pose proof (sort_by_key_sorted by_severity l) as Hs. induction Hs as [|d k _ IH Hd]; constructor; [done|].
  eapply Forall_impl; [exact Hd|]. unfold key_le, by_severity. intros x. lia.
Qed.

(** C35 (what a query is told).  Linting an ASCII query never panics; each rule is
    reported at most once and with its own severity, errors come before
    warnings and warnings before hints, and a diagnostic about a word gives the
    byte offset of an occurrence of it in the query. *)
Theorem diagnostics_well_formed q :
  is_ascii q = true →
  ∃ ds, lint_query q = Some ds ∧ NoDup (rule <$> ds) ∧
    StronglySorted (λ a b, severity_rank (severity b) ≤ severity_rank (severity a)) ds ∧
    ∀ d, d ∈ ds → severity d = severity_of (rule d) ∧ points (str_upper q) d.
Proof.
  intros Hq. apply upper_ascii in Hq. unfold lint_query. cbv zeta. set (u := str_upper q) in *. set (tokens := tokenize_upper u).
  assert (∀ w, has tokens w = true → at_offset w (offset_of w u) u) as Hat by (intros; by apply word_at).
  assert (∃ l, (if has tokens "WHERE" then redundant_where u else Some []) = Some l ∧
    rule <$> l `sublist_of` [RedundantWhere] ∧ Forall (fine u) l) as (l & -> & Hl & Hlf).
  { destruct (has tokens "WHERE") eqn:E; [|exists []; by split_and!; [|apply sublist_nil_l|constructor]].
    destruct (after_where_total u Hq E) as [b ->]. eexists. split; [done|]. split; [apply flag_rules|]. apply flag_fine.
    intros _. split; [done|]. exists "WHERE". split; [by left|]. by apply Hat. }
  cbn [mbind option_bind]. eexists. split; [done|]. set (ds := (_ ++ _)%list). split_and!.
  - apply (NoDup_Permutation_proper _ _ (fmap_Permutation _ _ _ (sort_by_key_perm by_severity ds))).
    apply (sublist_NoDup _ all_rules); [apply (bool_decide_unpack (NoDup all_rules)); by vm_compute|].
    subst ds. rewrite !fmap_app. change all_rules with
      ([MissingLimit] ++ [SelectAllModalities] ++ [MissingProof] ++ [UnboundedTraverse] ++ [MissingThreshold] ++
       [OrderByWithoutLimit] ++ [DangerousWrite] ++ [UnknownProofType] ++ [RedundantWhere] ++ [MultiModalityNoExplain] ++
       [FederationWithoutStore])%list.
    repeat apply sublist_app; first [apply flag_rules|apply Hl|destruct (has tokens "PROOF"); [apply unknown_rules|apply sublist_nil_l]].
  - apply errors_first.
  - apply Forall_forall. rewrite (sort_by_key_perm by_severity ds). subst ds. rewrite !Forall_app. split_and!; try (apply flag_fine; intros Hb; split; [done|]).
    + done.
    + done.
    + exists "SEMANTIC". split; [by left|]. apply Hat. by apply andb_prop in Hb as [[? _]%andb_prop _].
    + exists "TRAVERSE". split; [by left|]. apply Hat. by apply andb_prop in Hb as [? _].
    + unfold points. cbn. destruct (find_str "DRIFT" u) as [i|] eqn:E.
      * exists "DRIFT". split; [by left|]. by apply find_str_at.
      * exists "CONSISTENCY". split; [by right; left|]. apply Hat. apply andb_prop in Hb as [[Hd|?]%orb_prop _]; [|done].
        destruct (Hat _ Hd) as (a & b & Eu & _). destruct (find_str_total "DRIFT" a b) as [j Ej]. rewrite <- Eu in Ej. congruence.
    + exists "ORDER". split; [by left|]. apply Hat. by apply andb_prop in Hb as [[? _]%andb_prop _].
    + done.
    + destruct (has tokens "PROOF"); [by apply unknown_fine|constructor].
    + done.
    + done.
    + exists "FEDERATION". split; [by left|]. apply Hat. by apply andb_prop in Hb as [? _].
Qed.

(** A query has errors exactly when it traverses without a bound on the depth
    or writes without a condition, by the words between its blanks. *)
Theorem has_errors_iff q :
  is_ascii q = true →
  let w := has (tokenize_upper (str_upper q)) in
  has_errors q = Some ((w "TRAVERSE" && negb (w "DEPTH")) || ((w "DELETE" || w "UPDATE") && negb (w "WHERE"))).
Proof.
  intros Hq. apply upper_ascii in Hq. unfold has_errors, lint_query. cbv zeta. set (u := str_upper q) in *. set (tokens := tokenize_upper u).
  assert (∃ l, (if has tokens "WHERE" then redundant_where u else Some []) = Some l ∧ existsb (is_severity Error) l = false) as (l & -> & Hl).
  { destruct (has tokens "WHERE") eqn:E; [|by exists []]. destruct (after_where_total u Hq E) as [[] ->]; by eexists. }
  cbn [mbind option_bind]. f_equal. rewrite (existsb_perm _ _ _ (sort_by_key_perm _ _)), !existsb_app, Hl.
  assert (existsb (is_severity Error) (if has tokens "PROOF" then unknown_proof tokens u else []) = false) as ->.
  { destruct (has tokens "PROOF"); [|done]. unfold unknown_proof. destruct (proof_word tokens); [|done]. by destruct (_ && _). }
  assert (∀ b d, existsb (is_severity Error) (flag b d) = b && is_severity Error d) as Hf by by intros [] d; cbn; rewrite ?orb_false_r.
  rewrite !Hf. change (is_severity Error (diagnose UnboundedTraverse Error _)) with true.
  repeat match goal with |- context [is_severity Error (diagnose ?r ?s ?o)] =>
    let b := eval vm_compute in (bool_decide (s = Error)) in change (is_severity Error (diagnose r s o)) with b end.
  by rewrite !andb_false_r, !andb_true_r, !orb_false_r, !orb_false_l.
Qed.

End theorems.

(** ** Witnesses *)

Module Witness.

#[local] Instance case : UnicodeCase := {| str_lower := map_ascii ascii_lower; str_upper := map_ascii ascii_upper |}.
#[local] Instance case_laws : UnicodeCaseLaws case.
Proof. by split. Qed.

Definition rules_of (q : string) : option (list LintRule) := match lint_query q with Some ds => Some (fmap (M:=list) rule ds) | None => None end.

Definition busy : string := "delete from octad traverse likes proof magic".

Lemma diagnostics_well_formed_witness :
  ∃ ds, lint_query busy = Some ds ∧ fmap (M:=list) rule ds = [UnboundedTraverse; DangerousWrite; UnknownProofType] ∧
    ∀ d, d ∈ ds → severity d = severity_of (rule d) ∧ points (str_upper busy) d.
Proof.
  destruct (diagnostics_well_formed busy) as (ds & E & _ & _ & Hd); [done|]. exists ds. split_and!; [done| |done].
  assert (lint_query busy = Some ds → fmap (M:=list) rule ds = default [] (rules_of busy)) as Hr by (unfold rules_of; by intros ->).
  rewrite (Hr E). by vm_compute.
Defined.

Lemma has_errors_iff_witness : has_errors busy = Some true.
Proof. rewrite (has_errors_iff busy); [|done]. by vm_compute. Defined.

(** The words of a literal are taken for keywords. *)
Lemma literal_is_a_write : has_errors "INSERT OCTAD VALUES 'please delete this'" = Some true.
Proof. by vm_compute. Qed.

(** A comma hides a modality, and a word that contains WHERE hides the clause. *)
Lemma commas_hide_modalities :
  rules_of "SELECT GRAPH, VECTOR, TENSOR, SEMANTIC FROM OCTAD LIMIT 1" = Some [MissingProof] ∧
  rules_of "SELECT GRAPH VECTOR TENSOR SEMANTIC FROM OCTAD LIMIT 1" = Some [MissingProof; MultiModalityNoExplain].
Proof. by vm_compute. Qed.

Lemma first_where_only :
  rules_of "SELECT GRAPH FROM somewhere WHERE TRUE LIMIT 1" = Some [] ∧
  rules_of "SELECT GRAPH FROM octad WHERE TRUE LIMIT 1" = Some [RedundantWhere].
Proof. by vm_compute. Qed.

(** A known proof type with its argument in parentheses is unknown. *)
Lemma argument_is_unknown :
  rules_of "SELECT SEMANTIC FROM OCTAD PROOF EXISTENCE(abc) LIMIT 1" = Some [UnknownProofType].
Proof. by vm_compute. Qed.

(** Reporting on a long query can panic: its 58th byte is inside a character. *)
Lemma report_panics :
  format_diagnostics (cat (replicate 19 "abc" ++ ["é"; "tail"])) [diagnose MissingLimit Warning 0] ≠ None ∧
  format_diagnostics (cat (replicate 28 "é" ++ ["é"; "tail"])) [diagnose MissingLimit Warning 0] = None.
Proof. by vm_compute. Qed.

End Witness.
