(* ===== verification/ApiTypes.v ===== *)
(** The data of the HTTP API (verisim-api/src/lib.rs): errors and the answers
    they become, limits, the checks on what a client sends, requests and
    responses.  A response is serialised by serde, which is not modelled; where
    a handler builds JSON itself, its value is a [Value]. *)

From Stdlib Require Import Strings.Ascii.
From S2P Require Import Prelude Machine Text Float64 Format WalEntry OctadTypes Modalities OctadStore Lexing.
From S2P Require PlanCache.

Local Open Scope string_scope.
Local Open Scope Z_scope.

(** ** Errors *)

Inductive ApiError :=
  | NotFound (msg : string)
  | BadRequest (msg : string)
  | Internal (msg : string)
  | Serialization (msg : string).

Definition api_error_display (e : ApiError) : string :=
  match e with
  | NotFound m => cat ["Not found: "; m]
  | BadRequest m => cat ["Bad request: "; m]
  | Internal m => cat ["Internal error: "; m]
  | Serialization m => cat ["Serialization error: "; m]
  end.

Record ErrorResponse := mkErrorResponse { error : string; err_code : Z }.

(** The text of an internal error is not for the client. *)
Definition into_response (e : ApiError) : ErrorResponse :=
  match e with
  | NotFound m => mkErrorResponse m 404
  | BadRequest m => mkErrorResponse m 400
  | Internal _ | Serialization _ => mkErrorResponse "Internal server error" 500
  end.

(** ** Configuration *)

Record ApiConfig := mkApiConfig {
  host : string; port : Z; grpc_port : Z; enable_cors : bool; version_prefix : string;
  api_vector_dimension : nat; persistence_dir : option string; max_body_size : Z;
  request_timeout_secs : Z; max_connections : Z;
}.

Definition api_config_default : ApiConfig :=
  mkApiConfig "[::1]" 8080 50051 true "/api/v1" 384 None (10 * 1024 * 1024) 30 1024.

(** ** Checks *)

Definition MAX_RESULT_LIMIT : Z := 1000.

(** A limit is a [usize]. *)
Definition validate_limit (limit : Z) : nat := Z.to_nat (Z.min limit MAX_RESULT_LIMIT).

Definition id_char `{PlanCache.CharClass} (c : string) : bool :=
  PlanCache.is_alphanumeric c || String.eqb c "-" || String.eqb c "_".

Definition validate_octad_id `{PlanCache.CharClass} (id : string) : result ApiError unit :=
  ensure PlanCache.nonempty id else BadRequest "Octad ID must not be empty" ;;
  ensure (String.length id <=? 128)%nat else BadRequest "Octad ID must be at most 128 characters" ;;
  ensure forallb id_char (PlanCache.chars id)
    else BadRequest "Octad ID must contain only alphanumeric characters, dashes, and underscores" ;;
  Ok ().

Definition validate_vector (v : list f32) : result ApiError unit :=
  ensure forallb f64_is_finite v else BadRequest "Vector contains NaN or Inf values" ;;
  Ok ().

(** ** Requests *)

Record TensorRequest := mkTensorRequest { req_shape : list Z; req_data : list f64 }.
Record TemporalRequest := mkTemporalRequest { req_observed_at : string }.
Record ProvenanceRequest := mkProvenanceRequest {
  req_event_type : string; req_actor : string; req_source : option string; req_description : string }.
Record SpatialRequest := mkSpatialRequest {
  req_latitude : f64; req_longitude : f64; req_altitude : option f64; req_geometry_type : option string;
  req_srid : option Z; req_sp_properties : option (gmap string string) }.

Record OctadRequest := mkOctadRequest {
  req_title : option string; req_body : option string; req_embedding : option (list f32);
  req_types : option (list string); req_relationships : option (list (string * string));
  req_tensor : option TensorRequest; req_temporal : option TemporalRequest;
  req_provenance : option ProvenanceRequest; req_spatial : option SpatialRequest;
  req_metadata : option (gmap string string) }.

Record ListQuery := mkListQuery { lq_limit : option Z; lq_offset : option Z }.
Record SearchQuery := mkSearchQuery { sq_q : option string; sq_limit : option Z }.
Record VectorSearchRequest := mkVectorSearch { vs_vector : list f32; vs_k : option Z }.
Record StoreQueryRequest := mkStoreQuery {
  stq_query : string; stq_embedding : option (list f32); stq_cost_vector : option (list f64);
  stq_proof_obligations : option (list string) }.

(** [DateTime::parse_rfc3339], with the text of its error. *)
Class ParseRfc3339 `{Chrono} := parse_rfc3339 : string → result string DateTime.

Definition provenance_input (r : ProvenanceRequest) : OctadProvenanceInput :=
  mkProvenanceInput (req_event_type r) (req_actor r) (req_source r) (req_description r).

Definition spatial_input (r : SpatialRequest) : OctadSpatialInput :=
  mkSpatialInput (req_latitude r) (req_longitude r) (req_altitude r) (req_geometry_type r) (req_srid r)
    (default ∅ (req_sp_properties r)).

(** A body without a title is no document. *)
Definition document_of_request (r : OctadRequest) : option OctadDocumentInput :=
  match req_title r, req_body r with
  | Some t, Some b => Some (mkDocumentInput t b ∅)
  | Some t, None => Some (mkDocumentInput t "" ∅)
  | None, _ => None
  end.

Section requests.
Context `{ParseRfc3339}.

Definition observation (t : TemporalRequest) : result ApiError OctadTemporalInput :=
  match parse_rfc3339 (req_observed_at t) with
  | Ok d => Ok (mkTemporalInput d)
  | Err e => Err (BadRequest (cat ["temporal.observed_at must be RFC 3339: "; e]))
  end.

Definition to_octad_input (r : OctadRequest) : result ApiError OctadInput :=
  temporal ← match req_temporal r with Some t => Some <$> observation t | None => Ok None end;
  Ok (mkInput (mkGraphInput <$> req_relationships r)
        ((λ e, mkVectorInput e None) <$> req_embedding r)
        ((λ t, mkTensorInput (req_shape t) (req_data t)) <$> req_tensor r)
        ((λ t, mkSemanticInput t ∅) <$> req_types r)
        (document_of_request r) temporal (provenance_input <$> req_provenance r)
        (spatial_input <$> req_spatial r) (default ∅ (req_metadata r))).

End requests.

(** ** Responses *)

Record IncludeFlags := mkIncludes { inc_types : bool; inc_embedding : bool }.
Definition includes_default : IncludeFlags := mkIncludes false false.

Definition include_token (flags : IncludeFlags) (token : string) : IncludeFlags :=
  if String.eqb token "types" then mkIncludes true (inc_embedding flags)
  else if String.eqb token "embedding" then mkIncludes (inc_types flags) true
  else flags.

Definition parse_includes (raw : option string) : IncludeFlags :=
  match raw with
  | None => includes_default
  | Some s => foldl include_token includes_default (retain PlanCache.nonempty (trim <$> split_char ","%char s))
  end.

Record OctadStatusResponse := mkStatusResponse {
  rs_created_at : string; rs_modified_at : string; rs_observed_at : option string; rs_version : Z }.

Record OctadResponse := mkOctadResponse {
  res_id : string; res_status : OctadStatusResponse;
  has_graph : bool; has_vector : bool; has_tensor : bool; has_semantic : bool; has_document : bool;
  has_provenance : bool; has_spatial : bool; res_version_count : Z; res_chain_length : Z;
  semantic_types : option (list string); res_embedding : option (list f32) }.

Record SearchResultResponse := mkSearchResult { sr_id : string; sr_score : f32; sr_title : option string }.

Section responses.
Context `{OctadEnv}.

Definition with_includes (h : Octad) (flags : IncludeFlags) : OctadResponse :=
  mkOctadResponse (oc_id h)
    (mkStatusResponse (to_rfc3339 (created_at (status h))) (to_rfc3339 (modified_at (status h)))
       (to_rfc3339 <$> observed_at (status h)) (version (status h)))
    (present (graph_node h)) (present (oc_embedding h)) (present (oc_tensor h)) (present (oc_semantic h))
    (present (oc_document h)) (0 <? provenance_chain_length h) (present (spatial_data h))
    (version_count h) (provenance_chain_length h)
    (if inc_types flags then Some (from_option types [] (oc_semantic h)) else None)
    (if inc_embedding flags then vector <$> oc_embedding h else None).

(** [OctadResponse::from]. *)
Definition response_of (h : Octad) : OctadResponse := with_includes h includes_default.

(** [1.0 - (i as f32 * 0.1)]. *)
Definition rank_score (i : nat) : f32 :=
  f32_sub (f32_of_u64 1) (f32_mul (f32_of_u64 (Z.of_nat i)) (f32_div (f32_of_u64 1) (f32_of_u64 10))).

Definition search_result (i : nat) (h : Octad) : SearchResultResponse :=
  mkSearchResult (oc_id h) (rank_score i) (title <$> oc_document h).

End responses.
