(* ===== verification/Api.v ===== *)
(** The handlers of the HTTP API (verisim-api/src/lib.rs) over the octad store,
    the drift detector and the normalizer.

    A request is handled in the monad [HM]: the state of the application, and
    what ends a request early.  The release profile aborts on a panic, so a
    panic ends the server, not only the request, and no lock is ever poisoned.
    One request is handled at a time here; what the components promise under
    interleaving is proved with them.  [Call] is what a request reads from its
    environment. *)

From S2P Require Import Prelude Machine Text Float64 Collections LockTable Transaction Provenance WalEntry WalSegment WalReader WalWriter OctadTypes Modalities ModalityStores OctadStore Lexing.
From S2P Require Format Planner PlanCache QueryLog Drift Normalizer ApiTransaction Circuits.
From S2P Require Import ApiTypes.

Local Open Scope string_scope.
Local Open Scope Z_scope.

(** ** Reads of a modality store that only the API makes *)

Record RecordView `{Chrono} := mkRecordView {
  rv_event : ProvenanceEventType; rv_actor : string; rv_time : DateTime; rv_source : option string;
  rv_description : string; rv_hash : string }.

Class ProvenanceQueries `{Chrono} (P : ProvenanceStore) := {
  provenance_chain : string → ProvenanceState → result string (list RecordView);
  provenance_verify : string → ProvenanceState → result string bool;
}.

Class SpatialQueries (L : SpatialStore) := {
  spatial_radius : Coordinates → f64 → nat → SpatialState → result string (list SpatialIndex.SpatialSearchResult);
  spatial_within : SpatialIndex.BoundingBox → nat → SpatialState → result string (list SpatialIndex.SpatialSearchResult);
  spatial_nearest : Coordinates → nat → SpatialState → result string (list SpatialIndex.SpatialSearchResult);
}.

#[export] Instance spatial_queries `{Libm} `{FmtF64} `{MapIter} : SpatialQueries SpatialIndex.store :=
  Build_SpatialQueries SpatialIndex.store SpatialIndex.search_radius SpatialIndex.search_within SpatialIndex.nearest.

Section lineage.
Context `{C : Chrono} (rfc : DateTime → string) (obj : list (string * json) → string) (sha : list byte → string).
#[local] Existing Instance Lineage.env.

Definition record_view (r : @ProvenanceRecord (Lineage.env rfc obj sha)) : RecordView :=
  mkRecordView _ (Provenance.event_type r) (Provenance.actor r) (Provenance.timestamp r) (Provenance.source r)
    (Provenance.description r) (Provenance.content_hash r).

Abbreviation Chains := (gmap string (@ProvenanceChain (Lineage.env rfc obj sha))).

Definition lineage_chain (k : string) (s : Chains) : result string (list RecordView) :=
  c ← map_err Lineage.provenance_error_display (get_chain s k); Ok (record_view <$> Provenance.records c).
Definition lineage_verify (k : string) (s : Chains) : result string bool :=
  map_err Lineage.provenance_error_display (verify_chain s k).

Definition lineage_queries : ProvenanceQueries (Lineage.store rfc obj sha) :=
  Build_ProvenanceQueries _ (Lineage.store rfc obj sha) lineage_chain lineage_verify.
End lineage.

(** ** The state of the application *)

(** The debug text of a string; the version the build put in. *)
Class ApiEnv := { debug_str : string → string; pkg_version : string }.

Inductive Fault :=
  | Refused (e : ApiError)
  | Aborted.

Section api.
Context `{C : Chrono} `{K : Crc32} `{R : ReadDir} `{SI : SetIter} `{E : !OctadEnv} `{M : !Modalities}.
Context `{P : !ProvenanceQueries provenance_store} `{L : !SpatialQueries spatial_store}.
Context `{MI : MapIter} `{DI : Drift.DriftIter} `{A : ApiEnv} `{Q : PlanCache.CharClass} `{F : !ParseRfc3339}.
Context (config : ApiConfig).

(** The authentication state is a component of its own ([Auth]), as is the
    federation state. *)
Record AppState := mkApp {
  octad_store : OctadStore M;
  drift_detector : Drift.DriftDetector;
  normalizer : Normalizer.Normalizer;
  planner : Planner.Planner;
  plan_cache : PlanCache.PlanCache;
  slow_query_log : QueryLog.SlowQuery.SlowQueryLog;
  transaction_manager : gmap string ApiTransaction.Transaction;
  circuit_registry : Circuits.CircuitRegistry;
}.

Definition set_store (x : OctadStore M) (s : AppState) : AppState :=
  mkApp x (drift_detector s) (normalizer s) (planner s) (plan_cache s) (slow_query_log s)
    (transaction_manager s) (circuit_registry s).
Definition set_planner (x : Planner.Planner) (s : AppState) : AppState :=
  mkApp (octad_store s) (drift_detector s) (normalizer s) x (plan_cache s) (slow_query_log s)
    (transaction_manager s) (circuit_registry s).
Definition set_cache (x : PlanCache.PlanCache) (s : AppState) : AppState :=
  mkApp (octad_store s) (drift_detector s) (normalizer s) (planner s) x (slow_query_log s)
    (transaction_manager s) (circuit_registry s).
Definition set_transactions (x : gmap string ApiTransaction.Transaction) (s : AppState) : AppState :=
  mkApp (octad_store s) (drift_detector s) (normalizer s) (planner s) (plan_cache s) (slow_query_log s)
    x (circuit_registry s).

Abbreviation HM := (SR AppState Fault).

(** [AppState::new_async] with in-memory stores: the octad store's
    configuration is the default but for the dimension. *)
Definition octad_config : OctadConfig :=
  mkConfig (base_iri config_default) (api_vector_dimension config) (require_complete config_default).

(** ** Calls of the components *)

Definition refuse {T} (e : ApiError) : HM T := sr_fail (Refused e).

(** A check, with [?]. *)
Definition checked {T} (r : result ApiError T) : HM T := sr_read (λ _, map_err Refused r).

Definition internal (e : OctadError) : ApiError := Internal (octad_error_display e).

Definition store_op {T} (f : OctadError → ApiError) (m : SR (OctadStore M) OctadError T) : HM T :=
  sr_map_err (λ e, Refused (f e)) (sr_zoom octad_store set_store m).

Definition store_read {T} (f : OctadStore M → result OctadError T) : HM T :=
  sr_read (λ s, map_err (λ e, Refused (internal e)) (f (octad_store s))).

(** A read that may panic. *)
Definition store_search {T} (f : OctadStore M → option (result OctadError T)) : HM T :=
  sr_read (λ s, match f (octad_store s) with
                | Some r => map_err (λ e, Refused (internal e)) r
                | None => Err Aborted
                end).

(** A read of a modality store, through the octad store. *)
Definition modality_read {T} (f : OctadStore M → result string T) : HM T :=
  sr_read (λ s, map_err (λ e, Refused (Internal e)) (f (octad_store s))).

(** [ok_or_else(..)?]. *)
Definition found {T} (msg : string) (o : option T) : HM T := checked (ok_or o (NotFound msg)).

Definition not_found_text (id : string) : string := cat ["Octad "; id; " not found"].

Definition missing_or_internal (id : string) (e : OctadError) : ApiError :=
  match e with OctadTypes.NotFound _ => NotFound (not_found_text id) | _ => internal e end.

Definition listed (limit offset : nat) : HM (list Octad) :=
  store_read (list_octads octad_config (λ m, (map_iter m).*1) limit offset).

(** ** Octads *)

Definition list_octads_handler (q : ListQuery) : HM (list OctadResponse) :=
  let limit := validate_limit (default 100 (lq_limit q)) in
  octads ← listed limit (Z.to_nat (default 0 (lq_offset q)));
  mret (response_of <$> octads).

Definition create_octad_handler (c : Call) (r : OctadRequest) : HM OctadResponse :=
  input ← checked (to_octad_input r);
  o ← store_op internal (create octad_config c input);
  mret (response_of o).

Definition get_octad_handler (id : string) (include : option string) : HM OctadResponse :=
  checked (validate_octad_id id);;
  o ← store_read (get octad_config id);
  o ← found (not_found_text id) o;
  mret (with_includes o (parse_includes include)).

Definition update_octad_handler (c : Call) (id : string) (r : OctadRequest) : HM OctadResponse :=
  checked (validate_octad_id id);;
  input ← checked (to_octad_input r);
  o ← store_op (missing_or_internal id) (update octad_config c id input);
  mret (response_of o).

Definition delete_octad_handler (c : Call) (id : string) : HM unit :=
  checked (validate_octad_id id);;
  store_op (missing_or_internal id) (delete_octad c id).

(** ** Searches *)

Definition text_search_handler (q : SearchQuery) : HM (list SearchResultResponse) :=
  text ← checked (match sq_q q with
                  | Some t => if PlanCache.nonempty t then Ok t
                              else Err (BadRequest "Query parameter 'q' must not be empty")
                  | None => Err (BadRequest "Query parameter 'q' must not be empty") end);
  octads ← store_search (search_text octad_config text (validate_limit (default 10 (sq_limit q))));
  mret (imap search_result octads).

Definition dimension_text (got : nat) : string :=
  cat ["Vector dimension mismatch: expected "; fmt_u64 (Z.of_nat (api_vector_dimension config));
       ", got "; fmt_u64 (Z.of_nat got)].

(** The checks on the vector of a search. *)
Definition check_vector (v : list f32) : result ApiError unit :=
  ensure (length v =? api_vector_dimension config)%nat else BadRequest (dimension_text (length v)) ;;
  validate_vector v.

Definition vector_search_handler (r : VectorSearchRequest) : HM (list SearchResultResponse) :=
  let k := validate_limit (default 10 (vs_k r)) in
  checked (check_vector (vs_vector r));;
  octads ← store_read (search_similar octad_config (vs_vector r) k);
  mret (imap search_result octads).

Definition related_search_handler (id : string) (pred : option string) : HM (list OctadResponse) :=
  checked (validate_octad_id id);;
  octads ← store_read (query_related octad_config id (default "related" pred));
  mret (response_of <$> octads).

(** ** Drift and normalization *)

Record DriftStatusResponse := mkDriftStatus {
  ds_type : string; ds_current : f64; ds_average : f64; ds_max : f64; ds_count : Z }.

Definition from_metrics (p : Drift.DriftType * Drift.DriftMetrics) : DriftStatusResponse :=
  mkDriftStatus (Drift.type_display p.1) (Drift.current_score p.2) (Drift.moving_average p.2)
    (Drift.max_score p.2) (Drift.measurement_count p.2).

(** [all_metrics] does not fail without a poisoned lock. *)
Definition drift_metrics : HM (list (Drift.DriftType * Drift.DriftMetrics)) :=
  sr_read (λ s, Ok (Drift.drift_iter (Drift.metrics (drift_detector s)))).

Definition drift_status_handler : HM (list DriftStatusResponse) :=
  all ← drift_metrics; mret (from_metrics <$> all).

Record EntityDriftResponse := mkEntityDrift { ed_id : string; ed_score : f64; ed_type : string; ed_status : string }.

(** [max_by(partial_cmp.unwrap_or(Equal))]: the last of the greatest. *)
Definition later_max (best p : Drift.DriftType * Drift.DriftMetrics) : Drift.DriftType * Drift.DriftMetrics :=
  if f64_ltb (Drift.current_score p.2) (Drift.current_score best.2) then best else p.

Definition worst_metric (l : list (Drift.DriftType * Drift.DriftMetrics)) : string * f64 :=
  match l with
  | [] => ("none", f64_zero)
  | p :: l => let w := foldl later_max p l in (Drift.type_display w.1, Drift.current_score w.2)
  end.

Definition drift_level (x : f64) : string :=
  if f64_geb x (f64_lit 7 10) then "critical" else if f64_geb x (f64_lit 3 10) then "warning" else "healthy".

Definition entity_drift_handler (id : string) : HM EntityDriftResponse :=
  checked (validate_octad_id id);;
  o ← store_read (get octad_config id);
  found (not_found_text id) o;;
  all ← drift_metrics;
  let '(worst_type, worst_score) := worst_metric all in
  mret (mkEntityDrift id worst_score worst_type (drift_level worst_score)).

Definition normalizer_status_handler : HM Normalizer.NormalizerStatus :=
  sr_read (λ s, Ok (Normalizer.norm_status (normalizer s))).

Definition trigger_normalization_handler (id : string) : HM unit :=
  checked (validate_octad_id id);;
  o ← store_read (get octad_config id);
  found (not_found_text id) o;;
  mret ().

(** ** Provenance *)

Record ProvenanceRecordResponse := mkRecordResponse {
  pr_event_type : string; pr_actor : string; pr_timestamp : string; pr_source : option string;
  pr_description : string; pr_content_hash : string }.

Record ProvenanceChainResponse := mkChainResponse {
  pc_entity_id : string; pc_length : nat; pc_valid : bool; pc_records : list ProvenanceRecordResponse }.

(** [format!("{:?}", event_type)]. *)
Definition event_debug (ev : ProvenanceEventType) : string :=
  match ev with
  | Created => "Created" | Modified => "Modified" | Imported => "Imported" | Normalized => "Normalized"
  | DriftRepaired => "DriftRepaired" | Deleted => "Deleted" | Merged => "Merged"
  | Custom name => cat ["Custom("; debug_str name; ")"]
  end.

Definition record_response (r : RecordView) : ProvenanceRecordResponse :=
  mkRecordResponse (event_debug (rv_event r)) (rv_actor r) (to_rfc3339 (rv_time r)) (rv_source r)
    (rv_description r) (rv_hash r).

Definition entity_text (id : string) : string := cat ["Entity "; id; " not found"].

Definition provenance_get_chain_handler (id : string) : HM ProvenanceChainResponse :=
  checked (validate_octad_id id);;
  st ← store_read (get_status id);
  found (entity_text id) st;;
  chain ← modality_read (λ s, provenance_chain id (provenance_st s));
  valid ← sr_read (λ s, Ok (match provenance_verify id (provenance_st (octad_store s)) with
                            | Ok b => b | Err _ => false end));
  let records := record_response <$> chain in
  mret (mkChainResponse id (length records) valid records).

(** [OctadInput { provenance, ..Default::default() }]. *)
Definition provenance_only (i : OctadProvenanceInput) : OctadInput :=
  mkInput None None None None None None (Some i) None ∅.

(** The entity, the length of its chain and [recorded: true]. *)
Definition provenance_record_handler (c : Call) (id : string) (body : ProvenanceRequest) : HM (string * Z * bool) :=
  checked (validate_octad_id id);;
  o ← store_op internal (update octad_config c id (provenance_only (provenance_input body)));
  mret (id, provenance_chain_length o, true).

(** The entity, [has_provenance] and [chain_valid]. *)
Definition provenance_verify_handler (id : string) : HM (string * bool * bool) :=
  checked (validate_octad_id id);;
  st ← store_read (get_status id);
  st ← found (entity_text id) st;
  mret (id, provenance (modality_status st), true).

(** ** Space *)

Record SpatialSearchResultResponse := mkSpatialResult {
  ss_entity_id : string; ss_latitude : f64; ss_longitude : f64; ss_distance_km : f64 }.

Definition spatial_result (r : SpatialIndex.SpatialSearchResult) : SpatialSearchResultResponse :=
  mkSpatialResult (SpatialIndex.res_entity_id r) (latitude (coordinates (SpatialIndex.res_data r)))
    (longitude (coordinates (SpatialIndex.res_data r))) (SpatialIndex.distance_km r).

Record RadiusSearchRequest := mkRadiusSearch { rq_latitude : f64; rq_longitude : f64; rq_radius_km : f64; rq_limit : option Z }.
Record BoundsSearchRequest := mkBoundsSearch { bq_box : SpatialIndex.BoundingBox; bq_limit : option Z }.
Record NearestSearchRequest := mkNearestSearch { nq_latitude : f64; nq_longitude : f64; nq_k : option Z }.

Definition check_coordinates (lat lon : f64) : result ApiError unit :=
  ensure valid_latitude lat && valid_longitude lon else BadRequest "Invalid coordinates" ;; Ok ().

Definition spatial_radius_search_handler (b : RadiusSearchRequest) : HM (list SpatialSearchResultResponse) :=
  let limit := validate_limit (default 100 (rq_limit b)) in
  checked (check_coordinates (rq_latitude b) (rq_longitude b));;
  checked (ensure negb (f64_leb (rq_radius_km b) f64_zero) else BadRequest "Radius must be positive" ;; Ok ());;
  let center := mkCoordinates (rq_latitude b) (rq_longitude b) None in
  results ← modality_read (λ s, spatial_radius center (rq_radius_km b) limit (spatial_st s));
  mret (spatial_result <$> results).

Definition spatial_bounds_search_handler (b : BoundsSearchRequest) : HM (list SpatialSearchResultResponse) :=
  let limit := validate_limit (default 100 (bq_limit b)) in
  let bounds := bq_box b in
  checked (ensure negb (f64_ltb (SpatialIndex.max_lat bounds) (SpatialIndex.min_lat bounds) ||
                        f64_ltb (SpatialIndex.max_lon bounds) (SpatialIndex.min_lon bounds))
           else BadRequest "min values must be less than max values" ;; Ok ());;
  results ← modality_read (λ s, spatial_within bounds limit (spatial_st s));
  mret (spatial_result <$> results).

Definition spatial_nearest_handler (b : NearestSearchRequest) : HM (list SpatialSearchResultResponse) :=
  checked (check_coordinates (nq_latitude b) (nq_longitude b));;
  let k := validate_limit (default 10 (nq_k b)) in
  results ← modality_read (λ s, spatial_nearest (mkCoordinates (nq_latitude b) (nq_longitude b) None) k (spatial_st s));
  mret (spatial_result <$> results).

(** ** Health *)

Record HealthResponse := mkHealthResponse {
  hr_status : string; hr_version : string; hr_uptime : Z; hr_reason : option string }.

(** [format!("{:?}", drift_type)]. *)
Definition drift_debug (t : Drift.DriftType) : string :=
  match t with
  | Drift.SemanticVectorDrift => "SemanticVectorDrift" | Drift.GraphDocumentDrift => "GraphDocumentDrift"
  | Drift.TemporalConsistencyDrift => "TemporalConsistencyDrift" | Drift.TensorDrift => "TensorDrift"
  | Drift.SchemaDrift => "SchemaDrift" | Drift.ProvenanceDrift => "ProvenanceDrift"
  | Drift.SpatialDrift => "SpatialDrift" | Drift.QualityDrift => "QualityDrift"
  end.

Definition drift_reason (level : string) (h : Drift.DriftHealthStatus) : string :=
  cat [level; drift_debug (Drift.worst_drift_type h); ": score "; Format.fmt_fixed 3 (Drift.worst_score h)].

(** The status and the reason. *)
Definition health_text (r : result Drift.DriftError Drift.DriftHealthStatus) : string * option string :=
  match r with
  | Ok h =>
      match Drift.status h with
      | Drift.HCritical => ("degraded", Some (drift_reason "Critical drift on " h))
      | Drift.Degraded => ("degraded", Some (drift_reason "Degraded drift on " h))
      | Drift.HWarning | Drift.Healthy => ("healthy", None)
      end
  | Err _ => ("degraded", Some "Drift detector unavailable")
  end.

(** [uptime]: the seconds since the start. *)
Definition health_handler (c : Call) (uptime : Z) : HM HealthResponse :=
  sr_read (λ s, let '(st, reason) := health_text (Drift.health_check (clock c "health") (drift_detector s)) in
                Ok (mkHealthResponse st pkg_version uptime reason)).

(** [true] is 200, [false] 503. *)
Definition ready_handler (c : Call) : HM bool :=
  sr_read (λ s, Ok (is_ok (list_octads octad_config (λ m, (map_iter m).*1) 1 0 (octad_store s)) &&
                    is_ok (Drift.health_check (clock c "health") (drift_detector s)))).

End api.
