(* ===== verification/ApiQueries.v ===== *)
(** The handlers of the HTTP API (verisim-api/src/lib.rs) for the planner, the
    prepared statements, stored queries, API transactions and proofs, with the
    builder of the octads queries are stored as (verisim-octad/src/query_octad.rs). *)

From S2P Require Import Prelude Machine Text Float64 Collections LockTable Transaction Provenance WalEntry Format PlannerTypes PlannerCost Planner WalSegment WalReader WalWriter OctadTypes Modalities ModalityStores OctadStore Lexing.
From S2P Require PlanCache QueryLog ApiTransaction Zkp Circuits ZkpBridge.
From S2P Require Import ApiTypes Api.

Local Open Scope string_scope.
Local Open Scope Z_scope.

(** ** Queries as octads

    The builder that turns the text of a query, its plan's costs and its
    obligations into the input of a new octad. *)

Module QueryOctad.

(** Truncate to [max_len] bytes; the slice panics inside a character. *)
Definition truncate (s : string) (max_len : nat) : option string :=
  if (String.length s <=? max_len)%nat then Some s
  else (λ p, cat [p; "..."]) <$> slice_to (max_len - 3) s.

Section builder.
Context `{OctadEnv}.

Record QueryExecution := mkExecution {
  executed_at : DateTime; duration_ms : Z; result_count : Z; estimated_cost : f64 }.

Record QueryOctadBuilder := mkBuilder {
  query_text : string;
  query_id : option string;
  parse_tree_triples : list (string * string * string);
  qb_embedding : option (list f32);
  cost_vector : option (list f64);
  proof_obligations : list string;
  executions : list QueryExecution;
  qb_metadata : gmap string string;
}.

Definition builder_new (query_text : string) : QueryOctadBuilder := mkBuilder query_text None [] None None [] [] ∅.
Definition with_id (id : string) (b : QueryOctadBuilder) : QueryOctadBuilder :=
  mkBuilder (query_text b) (Some id) (parse_tree_triples b) (qb_embedding b) (cost_vector b)
    (proof_obligations b) (executions b) (qb_metadata b).
Definition with_parse_tree (triples : list (string * string * string)) (b : QueryOctadBuilder) : QueryOctadBuilder :=
  mkBuilder (query_text b) (query_id b) triples (qb_embedding b) (cost_vector b)
    (proof_obligations b) (executions b) (qb_metadata b).
Definition with_query_embedding (e : list f32) (b : QueryOctadBuilder) : QueryOctadBuilder :=
  mkBuilder (query_text b) (query_id b) (parse_tree_triples b) (Some e) (cost_vector b)
    (proof_obligations b) (executions b) (qb_metadata b).
Definition with_cost_vector (costs : list f64) (b : QueryOctadBuilder) : QueryOctadBuilder :=
  mkBuilder (query_text b) (query_id b) (parse_tree_triples b) (qb_embedding b) (Some costs)
    (proof_obligations b) (executions b) (qb_metadata b).
Definition with_proof_obligations (obligations : list string) (b : QueryOctadBuilder) : QueryOctadBuilder :=
  mkBuilder (query_text b) (query_id b) (parse_tree_triples b) (qb_embedding b) (cost_vector b)
    obligations (executions b) (qb_metadata b).
Definition with_execution (e : QueryExecution) (b : QueryOctadBuilder) : QueryOctadBuilder :=
  mkBuilder (query_text b) (query_id b) (parse_tree_triples b) (qb_embedding b) (cost_vector b)
    (proof_obligations b) (executions b ++ [e]) (qb_metadata b).
Definition with_query_metadata (key value : string) (b : QueryOctadBuilder) : QueryOctadBuilder :=
  mkBuilder (query_text b) (query_id b) (parse_tree_triples b) (qb_embedding b) (cost_vector b)
    (proof_obligations b) (executions b) (<[key := value]> (qb_metadata b)).

(** The fields of the document. *)
Definition query_fields (b : QueryOctadBuilder) : gmap string string :=
  let fields := <["query_text" := query_text b]> (<["type" := "vcl_query"]> ∅) in
  match last (executions b) with
  | Some e => <["execution_count" := fmt_u64 (Z.of_nat (length (executions b)))]>
                (<["last_executed" := to_rfc3339 (executed_at e)]> fields)
  | None => fields
  end.

Definition unless_empty {A B} (f : list A → B) (l : list A) : option B :=
  match l with [] => None | _ => Some (f l) end.

(** [uuid] is the text of a fresh identifier.  [None]: the title's slice panics. *)
Definition build (uuid : string) (b : QueryOctadBuilder) : option (string * OctadInput) :=
  t ← truncate (query_text b) 80;
  Some (default (cat ["query-"; uuid]) (query_id b),
    mkInput
      (unless_empty (λ l, mkGraphInput ((λ p : string * string * string, (p.1.2, p.2)) <$> l)) (parse_tree_triples b))
      ((λ e, mkVectorInput e (Some "query-embedding")) <$> qb_embedding b)
      ((λ c, mkTensorInput [1; Z.of_nat (length c)] c) <$> cost_vector b)
      (unless_empty (λ l, mkSemanticInput l ∅) (proof_obligations b))
      (Some (mkDocumentInput (cat ["VCL Query: "; t]) (query_text b) (query_fields b)))
      None None None (qb_metadata b)).

End builder.

End QueryOctad.

(** The text of an instant's milliseconds. *)
Class Millis `{Chrono} := millis_text : DateTime → string.

Section api.
Context `{C : Chrono} `{K : Crc32} `{R : ReadDir} `{SI : SetIter} `{E : !OctadEnv} `{M : !Modalities}.
Context `{MI : MapIter} `{A : ApiEnv} `{Q : PlanCache.CharClass} `{MS : !Millis}.
Context `{U : UnicodeCase} `{LG : Log2} `{DK : DebugKind} `{PI : ModalityIter}.
Context `{CT : !PlanCache.CacheTime} `{SH : PlanCache.Sha256} `{TC : ApiTransaction.Clock}.
Context `{DG : Zkp.Digest} `{TI : Circuits.TermIter}.
Context (config : ApiConfig).

Abbreviation HM := (SR AppState Fault).

(** ** The planner, behind its lock *)

(** A computation of the planner that may panic or refuse the plan. *)
Definition planned {T} (f : PlannerError → ApiError) (m : Planner → option (result PlannerError T)) : HM T :=
  sr_read (λ s, match m (planner s) with
                | None => Err Aborted
                | Some r => map_err (λ e, Refused (f e)) r
                end).

Definition bad_plan (e : PlannerError) : ApiError := BadRequest (planner_error_display e).

Definition query_plan_handler (plan : LogicalPlan) : HM PhysicalPlan := planned bad_plan (λ p, optimize p plan).
Definition query_explain_handler (plan : LogicalPlan) : HM ExplainOutput := planned bad_plan (λ p, explain p plan).

Definition get_planner_config_handler : HM PlannerConfig := sr_read (λ s, Ok (Planner.config (planner s))).
Definition put_planner_config_handler (c : PlannerConfig) : HM PlannerConfig :=
  sr_modify (λ s, set_planner (set_config c (planner s)) s);;
  get_planner_config_handler.
Definition planner_stats_handler : HM (gmap Modality StoreStatistics) := sr_read (λ s, Ok (planner_stats (planner s))).

(** *** EXPLAIN ANALYZE *)

Record ExplainAnalyzeRequest := mkAnalyzeRequest { ar_plan : LogicalPlan; simulated_timings : option (list f64) }.

(** The given time, or ten per cent more than the estimate. *)
Definition step_time (timings : option (list f64)) (i : nat) (s : PlanStep) : f64 :=
  default (f64_mul (time_ms (cost s)) (f64_lit 11 10)) (timings ≫= λ t, t !! i).

Definition record_timing (now : DateTime) (timings : option (list f64)) (p : option QueryLog.Profile.Profiler)
    (s : nat * PlanStep) : option QueryLog.Profile.Profiler :=
  p ← p;
  QueryLog.Profile.record_step s.1 (step_time timings s.1 s.2) (estimated_rows (cost s.2)) now now p.

(** The steps' times enter the planner's statistics. *)
Definition query_explain_analyze_handler (c : Call) (filled created updated : nat → DateTime)
    (r : ExplainAnalyzeRequest) : HM QueryLog.Profile.ExplainAnalyzeOutput :=
  explained ← planned bad_plan (λ p, explain p (ar_plan r));
  physical ← planned bad_plan (λ p, optimize p (ar_plan r));
  let profiler := QueryLog.Profile.new (cat ["analyze-"; millis_text (clock c "plan_id")]) physical in
  match foldl (record_timing (clock c "now") (simulated_timings r)) (Some profiler) (imap pair (steps physical)) with
  | None => sr_fail Aborted
  | Some profiler =>
      s ← sr_get;
      let '(stats, profile) := QueryLog.Profile.finish filled created updated profiler (planner_stats (planner s)) in
      sr_modify (λ s, set_planner (mkPlanner (Planner.config (planner s)) stats) s);;
      mret (QueryLog.Profile.with_profile explained profile)
  end.

(** ** Prepared statements *)

Definition cache_config : PlanCache.CacheConfig := PlanCache.CacheConfig_default.

(** An operation of the cache that does not fail. *)
Definition cache_op {T} (m : PlanCache.PlanCache → PlanCache.PlanCache * T) : HM T :=
  λ s, let '(pc, a) := m (plan_cache s) in (set_cache pc s, Ok a).

Definition cache_error_display (e : PlanCache.CacheError) : string :=
  match e with
  | PlanCache.NotFound i => cat ["prepared statement not found: "; i]
  | PlanCache.ParameterMismatch expected provided =>
      cat ["parameter mismatch: expected "; debug_list debug_str expected; ", provided "; debug_list debug_str provided]
  | PlanCache.Expired i => cat ["prepared statement expired: "; i]
  | PlanCache.CacheFull => "cache is full"
  end.

Definition prepared_create_handler (c : Call) (query : string) (plan : LogicalPlan) : HM PlanCache.PreparedStatement :=
  i ← cache_op (PlanCache.prepare cache_config query plan (clock c "prepare"));
  stmt ← cache_op (PlanCache.get cache_config i (clock c "get"));
  checked (ok_or stmt (Internal "Failed to retrieve prepared statement after creation")).

Definition prepared_get_handler (c : Call) (i : string) : HM PlanCache.PreparedStatement :=
  stmt ← cache_op (PlanCache.get cache_config i (clock c "get"));
  found (cat ["Prepared statement '"; i; "' not found"]) stmt.

Definition prepared_execute_handler (c : Call) (i : string) (params : gmap string PlanCache.ParamValue) :
    HM PhysicalPlan :=
  stmt ← sr_map_err (λ e, Refused (BadRequest (cache_error_display e)))
           (sr_zoom plan_cache set_cache
              (PlanCache.execute_prepared cache_config i params (clock c "expiry") (clock c "last_used")));
  physical ← match PlanCache.cached_physical_plan stmt with
             | Some cached => mret cached
             | None => planned (λ e, Internal (planner_error_display e)) (λ p, optimize p (PlanCache.logical_plan stmt))
             end;
  cache_op (λ pc, (PlanCache.cache_plan i physical pc, ()));;
  mret physical.

Definition prepared_stats_handler : HM PlanCache.CacheStats := sr_read (λ s, Ok (PlanCache.stats_async (plan_cache s))).

Definition slow_queries_handler : HM QueryLog.SlowQuery.SlowQuerySummary :=
  sr_read (λ s, Ok (QueryLog.SlowQuery.summary (slow_query_log s))).

(** ** Stored queries *)

Definition apply_some {X Y} (f : X → Y → Y) (o : option X) (y : Y) : Y := match o with Some x => f x y | None => y end.

(** The builder's identifier is dropped: the store gives the octad its own. *)
Definition store_query_handler (c : Call) (uuid : string) (r : StoreQueryRequest) : HM OctadResponse :=
  match stq_embedding r with Some e => checked (validate_vector e) | None => mret () end;;
  let b := apply_some QueryOctad.with_query_embedding (stq_embedding r) (QueryOctad.builder_new (stq_query r)) in
  let b := apply_some QueryOctad.with_cost_vector (stq_cost_vector r) b in
  let b := apply_some QueryOctad.with_proof_obligations (stq_proof_obligations r) b in
  let b := QueryOctad.with_query_metadata "stored_at" (to_rfc3339 (clock c "stored_at")) b in
  match QueryOctad.build uuid b with
  | None => sr_fail Aborted
  | Some (_, input) =>
      o ← store_op internal (create (octad_config config) c input);
      mret (response_of o)
  end.

Definition is_query (h : Octad) : bool := from_option (λ d, starts_with "VCL Query:" (title d)) false (oc_document h).

Definition similar_queries_handler (r : VectorSearchRequest) : HM (list SearchResultResponse) :=
  let k := validate_limit (default 10 (vs_k r)) in
  checked (check_vector config (vs_vector r));;
  octads ← store_read (search_similar (octad_config config) (vs_vector r) k);
  mret (imap search_result (retain is_query octads)).

(** The costs of the steps; the planner's errors give a default. *)
Definition plan_costs (plan : LogicalPlan) : HM (list f64) :=
  sr_read (λ s, match explain (planner s) plan with
                | None => Err Aborted
                | Some (Ok e) => Ok (estimated_cost_ms <$> explain_steps e)
                | Some (Err _) => Ok [f64_one; f64_zero; f64_zero]
                end).

Definition learned (o : Octad) : list f64 :=
  match oc_tensor o with
  | Some t => (λ v, f64_mul v (f64_lit 95 100)) <$> tensor_data t
  | None => [f64_one]
  end.

Definition cost_input (c : Call) (costs : list f64) : OctadInput :=
  mkInput None None (Some (mkTensorInput [1; Z.of_nat (length costs)] costs)) None None None None None
    {["optimized_at" := to_rfc3339 (clock c "optimized_at")]}.

Definition optimize_query_handler (c : Call) (id : string) (body : option LogicalPlan) : HM OctadResponse :=
  checked (validate_octad_id id);;
  o ← store_read (get (octad_config config) id);
  o ← found (cat ["Query octad "; id; " not found"]) o;
  costs ← match body with Some plan => plan_costs plan | None => mret (learned o) end;
  o ← store_op internal (update (octad_config config) c id (cost_input c costs));
  mret (response_of o).

(** ** Transactions *)

Definition txn_config : ApiTransaction.TransactionConfig := ApiTransaction.config_default.

Definition registry_op {T} (f : ApiTransaction.TransactionError → ApiError)
    (m : SR (gmap string ApiTransaction.Transaction) ApiTransaction.TransactionError T) : HM T :=
  sr_map_err (λ e, Refused (f e)) (sr_zoom transaction_manager set_transactions m).

Definition txn_internal (e : ApiTransaction.TransactionError) : ApiError := Internal (ApiTransaction.error_display e).
Definition txn_client (other : string → ApiError) (e : ApiTransaction.TransactionError) : ApiError :=
  match e with
  | ApiTransaction.NotFound _ => NotFound (ApiTransaction.error_display e)
  | _ => other (ApiTransaction.error_display e)
  end.

Definition registry_status (f : ApiTransaction.TransactionError → ApiError) (i : string) : HM ApiTransaction.TransactionStatus :=
  registry_op f (sr_read (ApiTransaction.status i)).

Definition transaction_begin_handler (now now' : ApiTransaction.Instant) (pid : Z) : HM ApiTransaction.TransactionStatus :=
  i ← registry_op txn_internal (ApiTransaction.begin txn_config now now' pid);
  registry_status txn_internal i.

(** The buffered operations are dropped. *)
Definition transaction_commit_handler (now : ApiTransaction.Instant) (i : string) : HM ApiTransaction.TransactionStatus :=
  registry_op (txn_client BadRequest) (ApiTransaction.commit now i);;
  registry_status txn_internal i.

Definition transaction_rollback_handler (now : ApiTransaction.Instant) (i : string) : HM ApiTransaction.TransactionStatus :=
  registry_op (txn_client BadRequest) (ApiTransaction.rollback now i);;
  registry_status txn_internal i.

Definition transaction_status_handler (i : string) : HM ApiTransaction.TransactionStatus :=
  registry_status (txn_client Internal) i.

(** ** Proofs *)

Record ProofGenerateRequest := mkProofGenerate {
  pg_claim : string; pg_privacy_level : option string; pg_membership_set : option (list string);
  pg_membership_index : option nat }.
Record ProofWithCircuitRequest := mkProofCircuit {
  px_claim : string; px_privacy_level : option string; px_circuit_name : string;
  px_witness : option (list f64); px_public_inputs : option (list f64) }.
Record ProofResponse := mkProofResponse {
  success : bool; pr_proof : option ZkpBridge.ZkpProof; verified : option bool; pr_error : option string }.

Definition parse_privacy_level (s : string) : result ApiError ZkpBridge.PrivacyLevel :=
  let other := str_lower s in
  if String.eqb other "public" then Ok ZkpBridge.Public
  else if String.eqb other "private" then Ok ZkpBridge.Private
  else if bool_decide (other ∈ ["zero_knowledge"; "zeroknowledge"; "zk"]) then Ok ZkpBridge.ZeroKnowledge
  else Err (BadRequest (cat ["Unknown privacy level: '"; other; "'. Use 'public', 'private', or 'zero_knowledge'"])).

Definition privacy_of (level : option string) : result ApiError ZkpBridge.PrivacyLevel :=
  match level with Some l => parse_privacy_level l | None => Ok ZkpBridge.Public end.

(** A refusal of the bridge is an answer too. *)
Definition proof_answer (r : result Circuits.CircuitError ZkpBridge.ZkpProof) : ProofResponse :=
  match r with
  | Ok p => mkProofResponse true (Some p) None None
  | Err e => mkProofResponse false None None (Some (Circuits.circuit_error_display e))
  end.

(** [now]: the time stamp of the proof. *)
Definition proof_generate_handler (now : string) (r : ProofGenerateRequest) : HM ProofResponse :=
  level ← checked (privacy_of (pg_privacy_level r));
  mret (proof_answer (ZkpBridge.generate_zkp now
    (ZkpBridge.mkRequest (as_bytes (pg_claim r)) level None None None (map as_bytes <$> pg_membership_set r)
       (pg_membership_index r)))).

Definition proof_verify_handler (proof : ZkpBridge.ZkpProof) (claim : string) : HM ProofResponse :=
  mret (mkProofResponse true None (Some (ZkpBridge.verify_zkp proof (as_bytes claim))) None).

Definition proof_generate_with_circuit_handler (now : string) (r : ProofWithCircuitRequest) : HM ProofResponse :=
  level ← checked (privacy_of (px_privacy_level r));
  s ← sr_get;
  mret (proof_answer (ZkpBridge.generate_zkp_with_circuit now
    (ZkpBridge.mkRequest (as_bytes (px_claim r)) level (Some (px_circuit_name r)) (px_witness r) (px_public_inputs r)
       None None) (circuit_registry s))).

End api.
