(* ===== verification/Vcl.v ===== *)
(** VCL execution (verisim-api/src/vcl.rs): the text of a statement is cut into
    tokens and routed to the octad store.

    TypeLL, the service that rates a statement, only adds to the response; what
    it answers, if it answers, is an argument.  The JSON of a response is a
    [Value].  A slice out of bounds or inside a character is a panic, which
    ends the server ([Aborted]). *)

From Stdlib Require Import Strings.Ascii.
From S2P Require Import Prelude Machine Text Float64 Collections LockTable Transaction Provenance WalEntry Format WalSegment WalReader WalWriter OctadTypes Modalities ModalityStores OctadStore Lexing.
From S2P Require PlanCache Drift Normalizer.
From S2P Require Import ApiTypes Api.

Local Open Scope string_scope.
Local Open Scope Z_scope.

(** ** JSON *)

Inductive Value :=
  | VNull
  | VBool (b : bool)
  | VUint (n : Z)
  | VFloat (x : f64)
  | VString (s : string)
  | VArray (l : list Value)
  | VObject (fields : list (string * Value)).

(** A number that is not finite becomes null. *)
Definition float_value (x : f64) : Value := if f64_is_finite x then VFloat x else VNull.
Definition nat_value (n : nat) : Value := VUint (Z.of_nat n).
Definition option_value {A} (f : A → Value) (o : option A) : Value := match o with Some a => f a | None => VNull end.

(** A field skipped when it is [None]. *)
Definition optional {A} (key : string) (f : A → Value) (o : option A) : list (string * Value) :=
  match o with Some a => [(key, f a)] | None => [] end.

Definition strings_value (l : list string) : Value := VArray (VString <$> l).

Definition status_value (s : OctadStatusResponse) : Value :=
  VObject ([("created_at", VString (rs_created_at s)); ("modified_at", VString (rs_modified_at s))] ++
           optional "observed_at" VString (rs_observed_at s) ++ [("version", VUint (rs_version s))])%list.

(** An [f32] is written as the [f64] it is equal to. *)
Definition response_value (r : OctadResponse) : Value :=
  VObject ([("id", VString (res_id r)); ("status", status_value (res_status r));
            ("has_graph", VBool (has_graph r)); ("has_vector", VBool (has_vector r));
            ("has_tensor", VBool (has_tensor r)); ("has_semantic", VBool (has_semantic r));
            ("has_document", VBool (has_document r)); ("has_provenance", VBool (has_provenance r));
            ("has_spatial", VBool (has_spatial r)); ("version_count", VUint (res_version_count r));
            ("provenance_chain_length", VUint (res_chain_length r))] ++
           optional "semantic_types" strings_value (semantic_types r) ++
           optional "embedding" (λ v, VArray (float_value ∘ Drift.f64_of_f32 <$> v)) (res_embedding r))%list.

Definition field (key : string) (v : Value) : option Value :=
  match v with VObject l => snd <$> List.find (λ p, String.eqb p.1 key) l | _ => None end.
Definition as_array (v : Value) : option (list Value) := match v with VArray l => Some l | _ => None end.
Definition as_str (v : Value) : option string := match v with VString s => Some s | _ => None end.

(** ** Requests and responses *)

Record VclExecuteResponse := mkVcl {
  vcl_success : bool; statement_type : string; row_count : nat; data : Value; vcl_message : option string;
  safety_level : option Z; query_path : option string; vcl_obligations : option (list string) }.

Definition answer (type : string) (rows : nat) (v : Value) (msg : option string) : VclExecuteResponse :=
  mkVcl true type rows v msg None None None.

(** *** The report of TypeLL, from the body of its response *)

Fixpoint find_map {A B} (f : A → option B) (l : list A) : option B :=
  match l with [] => None | x :: l => match f x with Some y => Some y | None => find_map f l end end.

Definition parse_u8 (s : string) : option Z := z ← parse_u64 s; if z <? 256 then Some z else None.

Definition features (body : Value) : list Value := default [] (v ← field "features" body; as_array v).

Definition safety_of (v : Value) : option Z := s ← as_str v; r ← strip_prefix "vcl-ut-l" s; parse_u8 r.
Definition path_of (v : Value) : option string := s ← as_str v; strip_prefix "path:" s.

Definition typell_report (body : Value) : Z * string * list string :=
  (default 0 (find_map safety_of (features body)),
   default "VCL (Slipstream)" (find_map path_of (features body)),
   omap as_str (default [] (v ← field "proof_obligations" body; as_array v))).

Definition attach (report : option (Z * string * list string)) (r : VclExecuteResponse) : VclExecuteResponse :=
  match report with
  | None => r
  | Some (level, path, obligations) =>
      mkVcl (vcl_success r) (statement_type r) (row_count r) (data r) (vcl_message r) (Some level) (Some path)
        (match obligations with [] => vcl_obligations r | _ => Some obligations end)
  end.

(** ** Tokens *)

Definition squote_char : ascii := "'"%char.
Definition dquote_char : ascii := "034"%char.

(** Space, tab and line feed. *)
Definition is_separator (a : ascii) : bool := bool_decide (a ∈ [" "%char; "009"%char; "010"%char]).

(** [if !current.is_empty() { tokens.push(take(current)) }]. *)
Definition flush (cur : string) (l : list string) : list string := if PlanCache.nonempty cur then cur :: l else l.

(** [cur]: the token so far; [sq], [dq]: inside single or double quotes. *)
Fixpoint tokens_from (s cur : string) (sq dq : bool) : list string :=
  match s with
  | "" => flush cur []
  | String a s =>
      let next := cur +:+ String a "" in
      if Ascii.eqb a squote_char && negb dq then tokens_from s next (negb sq) dq
      else if Ascii.eqb a dquote_char && negb sq then tokens_from s next sq (negb dq)
      else if is_separator a && negb sq && negb dq then flush cur (tokens_from s "" sq dq)
      else tokens_from s next sq dq
  end.

Definition tokenize (s : string) : list string := tokens_from s "" false false.

Fixpoint last_char (s : string) : option ascii :=
  match s with "" => None | String a "" => Some a | String _ s => last_char s end.

Definition enclosed (q : ascii) (s : string) : bool :=
  match s with
  | "" => false
  | String a _ => Ascii.eqb a q && match last_char s with Some b => Ascii.eqb b q | None => false end
  end.

(** [None]: [&s\[1..0\]] panics on a lone quote. *)
Definition unquote (s : string) : option string :=
  if enclosed squote_char s || enclosed dquote_char s then
    if (String.length s <? 2)%nat then None else Some (String.substring 1 (String.length s - 2) s)
  else Some s.

Section vcl.
Context `{C : Chrono} `{K : Crc32} `{R : ReadDir} `{SI : SetIter} `{E : !OctadEnv} `{M : !Modalities}.
Context `{MI : MapIter} `{DI : Drift.DriftIter} `{A : ApiEnv} `{U : UnicodeCase}.
(** How serde writes an instant. *)
Context (datetime_json : DateTime → string).
Context (config : ApiConfig).

Abbreviation HM := (SR AppState Fault).

Definition is_word (w t : string) : bool := String.eqb (str_upper t) w.

(** The first LIMIT that a number follows: the limit and its index. *)
Fixpoint limit_from (i : nat) (tokens : list string) : option (nat * nat) :=
  match tokens with
  | t :: (n :: _) as rest =>
      if is_word "LIMIT" t then
        match parse_u64 n with
        | Some n => Some (Z.to_nat (Z.min n 1000), i)
        | None => limit_from (S i) rest
        end
      else limit_from (S i) rest
  | _ => None
  end.

Definition parse_limit (tokens : list string) : nat * nat := default (100%nat, length tokens) (limit_from 0 tokens).

(** The value of the first [WHERE id = value]. *)
Fixpoint where_value (tokens : list string) : option string :=
  match tokens with
  | t :: (a :: b :: v :: _) as rest =>
      if is_word "WHERE" t && String.eqb (str_lower a) "id" && String.eqb b "=" then Some v else where_value rest
  | _ => None
  end.

(** A part of the text that panics on [None]. *)
Definition or_abort {T} (o : option T) : HM T := match o with Some x => mret x | None => sr_fail Aborted end.

Definition find_where_id (tokens : list string) : HM (option string) :=
  match where_value tokens with
  | None => mret None
  | Some v => id ← or_abort (unquote v); mret (Some id)
  end.

Definition missing_text (id : string) : string := cat ["Octad '"; id; "' not found"].

(** ** SELECT *)

Definition rows (type : string) (octads : list Octad) : VclExecuteResponse :=
  answer type (length octads) (VArray (response_value ∘ response_of <$> octads)) None.

Definition execute_select (tokens : list string) : HM VclExecuteResponse :=
  let limit := (parse_limit tokens).1 in
  id ← find_where_id tokens;
  match id with
  | Some id =>
      o ← store_read (get (octad_config config) id);
      o ← found (missing_text id) o;
      mret (answer "SELECT" 1 (VArray [response_value (response_of o)]) None)
  | None => octads ← listed config limit 0; mret (rows "SELECT" octads)
  end.

(** ** SEARCH *)

(** [1.0 - (i as f64 * 0.1)]. *)
Definition hit_score (i : nat) : f64 := f64_sub f64_one (f64_mul (f64_of_u64 (Z.of_nat i)) (f64_lit 1 10)).

Definition hit_fields (i : nat) (h : Octad) : list (string * Value) :=
  [("id", VString (oc_id h)); ("score", float_value (hit_score i));
   ("title", option_value (VString ∘ title) (oc_document h))].

Definition text_hit (i : nat) (h : Octad) : Value :=
  VObject (hit_fields i h ++ [("has_graph", VBool (present (graph_node h))); ("has_vector", VBool (present (oc_embedding h)));
                              ("has_document", VBool (present (oc_document h)))])%list.
Definition vector_hit (i : nat) (h : Octad) : Value := VObject (hit_fields i h).

Definition parse_vector (s : string) : option (list f32) :=
  let cleaned := replace_char "," " " (trim_end (String.eqb "]") (trim_start (String.eqb "[") (trim s))) in
  mapM parse_f32 (PlanCache.split_whitespace cleaned).

(** The text of the error of [parse::<f32>] is not modelled further. *)
Definition bad_vector : ApiError := BadRequest "Invalid vector: invalid float literal".

(** [tokens\[lo..hi\].join(" ")]. *)
Definition join_slice (lo hi : nat) (tokens : list string) : option string :=
  if (lo <=? hi)%nat && (hi <=? length tokens)%nat then Some (String.concat " " (take (hi - lo) (drop lo tokens))) else None.

(** The token after the first BY. *)
Fixpoint by_predicate (tokens : list string) : option string :=
  match tokens with
  | [] => None
  | t :: rest => if is_word "BY" t then head rest else by_predicate rest
  end.

Definition search_text_stmt (tokens : list string) (arg : string) : HM VclExecuteResponse :=
  text ← or_abort (unquote arg);
  octads ← store_search (search_text (octad_config config) text (parse_limit tokens).1);
  mret (answer "SEARCH TEXT" (length octads) (VArray (imap text_hit octads)) None).

Definition search_vector_stmt (tokens : list string) : HM VclExecuteResponse :=
  let '(limit, limit_idx) := parse_limit tokens in
  text ← or_abort (join_slice 2 limit_idx tokens);
  v ← checked (ok_or (parse_vector text) bad_vector);
  checked (ensure (length v =? api_vector_dimension config)%nat else BadRequest (dimension_text config (length v)) ;; Ok ());;
  octads ← store_read (search_similar (octad_config config) v limit);
  mret (answer "SEARCH VECTOR" (length octads) (VArray (imap vector_hit octads)) None).

Definition search_related_stmt (tokens : list string) (arg : string) : HM VclExecuteResponse :=
  id ← or_abort (unquote arg);
  pred ← match by_predicate tokens with Some t => or_abort (unquote t) | None => mret "related" end;
  octads ← store_read (query_related (octad_config config) id pred);
  mret (rows "SEARCH RELATED" octads).

Definition execute_search (tokens : list string) : HM VclExecuteResponse :=
  match tokens with
  | _ :: kind :: arg :: _ =>
      if is_word "TEXT" kind then search_text_stmt tokens arg
      else if is_word "VECTOR" kind then search_vector_stmt tokens
      else if is_word "RELATED" kind then search_related_stmt tokens arg
      else refuse (BadRequest (cat ["Unknown SEARCH type: '"; str_upper kind; "'. Use TEXT, VECTOR, or RELATED."]))
  | _ => refuse (BadRequest "SEARCH requires at least: SEARCH TEXT '<query>' or SEARCH VECTOR [...]")
  end.

(** ** INSERT *)

Definition INSERT_USAGE : string := "INSERT requires: INSERT INTO octads (title, body) VALUES ('<title>', '<body>')".

(** The value, or the empty string. *)
Definition value_or_empty (o : option string) : HM string :=
  match o with Some t => or_abort (unquote t) | None => mret "" end.

(** The text between the parentheses, its commas blanked. *)
Definition values_text (part : string) : string :=
  replace_char "," " " (trim_end (String.eqb ")") (trim_start (String.eqb "(") (trim part))).

Definition parse_insert_values (raw : string) : HM (string * string) :=
  match find_str "VALUES" (str_upper raw) with
  | None => refuse (BadRequest "INSERT INTO requires a VALUES clause")
  | Some i =>
      part ← or_abort (slice_from (i + 6) raw);
      let value_tokens := tokenize (values_text part) in
      t ← value_or_empty (value_tokens !! 0%nat);
      b ← value_or_empty (value_tokens !! 1%nat);
      mret (t, b)
  end.

Definition insert_values (raw : string) : HM (string * string) :=
  if starts_with "INSERT INTO" (str_upper raw) then parse_insert_values raw
  else match tokenize raw with
       | _ :: t :: b :: _ => t ← or_abort (unquote t); b ← or_abort (unquote b); mret (t, b)
       | _ => refuse (BadRequest INSERT_USAGE)
       end.

Definition execute_insert (c : Call) (raw : string) : HM VclExecuteResponse :=
  tb ← insert_values raw;
  o ← store_op internal (create (octad_config config) c (with_document tb.1 tb.2 input_default));
  let r := response_of o in
  mret (answer "INSERT" 1 (VArray [response_value r]) (Some (cat ["Inserted octad '"; res_id r; "'"]))).

(** ** DELETE *)

Definition delete_error (id : string) (e : OctadError) : ApiError :=
  match e with OctadTypes.NotFound _ => NotFound (missing_text id) | _ => internal e end.

Definition execute_delete (c : Call) (tokens : list string) : HM VclExecuteResponse :=
  id ← find_where_id tokens;
  id ← checked (ok_or id (BadRequest "DELETE requires: DELETE FROM octads WHERE id = '<id>'"));
  store_op (delete_error id) (delete_octad c id);;
  mret (answer "DELETE" 1 VNull (Some (cat ["Deleted octad '"; id; "'"]))).

(** ** SHOW *)

Definition vcl_health (r : result Drift.DriftError Drift.DriftHealthStatus) : string * option string :=
  match r with
  | Ok h =>
      match Drift.status h with
      | Drift.HCritical | Drift.Degraded =>
          ("degraded", Some (cat [drift_debug (Drift.worst_drift_type h); ": "; fmt_fixed 3 (Drift.worst_score h)]))
      | _ => ("healthy", None)
      end
  | Err _ => ("degraded", Some "Drift detector unavailable")
  end.

Definition metrics_value (p : Drift.DriftType * Drift.DriftMetrics) : Value :=
  VObject [("drift_type", VString (Drift.type_display p.1));
           ("current_score", float_value (Drift.current_score p.2));
           ("moving_average", float_value (Drift.moving_average p.2));
           ("max_score", float_value (Drift.max_score p.2));
           ("measurement_count", VUint (Drift.measurement_count p.2))].

Definition normalizer_value (s : Normalizer.NormalizerStatus) : Value :=
  VObject [("running", VBool (Normalizer.running s)); ("pending_count", VUint (Normalizer.pending_count s));
           ("active_count", VUint (Normalizer.active_count s)); ("completed_count", VUint (Normalizer.completed_count s));
           ("failure_count", VUint (Normalizer.failure_count s));
           ("last_normalization", option_value (VString ∘ datetime_json) (Normalizer.last_normalization s))].

Definition show_status (c : Call) (uptime : Z) : HM VclExecuteResponse :=
  s ← sr_get;
  let '(st, reason) := vcl_health (Drift.health_check (clock c "health") (drift_detector s)) in
  mret (answer "SHOW STATUS" 1
    (VObject [("status", VString st); ("version", VString pkg_version); ("uptime_seconds", VUint uptime);
              ("degraded_reason", option_value VString reason)]) None).

Definition execute_show (c : Call) (uptime : Z) (tokens : list string) : HM VclExecuteResponse :=
  match tokens with
  | _ :: what :: _ =>
      if is_word "STATUS" what || is_word "HEALTH" what then show_status c uptime
      else if is_word "DRIFT" what then
        all ← drift_metrics;
        mret (answer "SHOW DRIFT" (length all) (VArray (metrics_value <$> all)) None)
      else if is_word "NORMALIZER" what then
        st ← normalizer_status_handler;
        mret (answer "SHOW NORMALIZER" 1 (normalizer_value st) None)
      else if is_word "OCTADS" what then
        octads ← listed config (parse_limit tokens).1 0; mret (rows "SHOW OCTADS" octads)
      else refuse (BadRequest (cat ["Unknown SHOW target: '"; str_upper what; "'. Use STATUS, DRIFT, NORMALIZER, or OCTADS."]))
  | _ => refuse (BadRequest "SHOW requires: SHOW STATUS | SHOW DRIFT | SHOW NORMALIZER | SHOW OCTADS")
  end.

(** ** COUNT *)

Definition execute_count : HM VclExecuteResponse :=
  octads ← listed config 1000 0;
  mret (answer "COUNT" 1 (VObject [("count", nat_value (length octads))]) None).

(** ** EXPLAIN *)

Definition plan_select (limit : nat) (where_id : option string) : Value :=
  match where_id with
  | Some _ => VObject [("operation", VString "Point Lookup"); ("target", VString "octad_store");
                       ("method", VString "get_by_id"); ("cost", VString "O(1)"); ("estimated_rows", VUint 1)]
  | None => VObject [("operation", VString "Sequential Scan"); ("target", VString "octad_store");
                     ("method", VString "list"); ("limit", nat_value limit); ("cost", VString "O(n)");
                     ("estimated_rows", nat_value limit)]
  end.

Definition plan_search (limit : nat) (kind : string) : Value :=
  if String.eqb kind "TEXT" then
    VObject [("operation", VString "Full-Text Search"); ("target", VString "tantivy_document_store");
             ("method", VString "search_text"); ("limit", nat_value limit); ("cost", VString "O(log n)");
             ("index", VString "tantivy_inverted_index")]
  else if String.eqb kind "VECTOR" then
    VObject [("operation", VString "Approximate Nearest Neighbor"); ("target", VString "hnsw_vector_store");
             ("method", VString "search_similar"); ("limit", nat_value limit); ("cost", VString "O(log n)");
             ("index", VString "hnsw_graph")]
  else if String.eqb kind "RELATED" then
    VObject [("operation", VString "Graph Traversal"); ("target", VString "oxigraph_store");
             ("method", VString "query_related"); ("cost", VString "O(degree)");
             ("index", VString "rdf_triple_index")]
  else VObject [("operation", VString "Unknown search type")].

Definition plan_insert : Value :=
  VObject [("operation", VString "Multi-Modal Insert");
           ("targets", strings_value ["document_store"; "graph_store"; "vector_store"; "semantic_store"; "temporal_store"]);
           ("method", VString "create"); ("cost", VString "O(1) per modality")].
Definition plan_delete : Value :=
  VObject [("operation", VString "Multi-Modal Delete"); ("targets", strings_value ["all_modality_stores"]);
           ("method", VString "delete"); ("cost", VString "O(1)")].

Definition plan_of (kind : string) (limit : nat) (where_id : option string) (tokens : list string) : Value :=
  if String.eqb kind "SELECT" then plan_select limit where_id
  else if String.eqb kind "SEARCH" then plan_search limit (from_option str_upper "" (tokens !! 1%nat))
  else if String.eqb kind "INSERT" then plan_insert
  else if String.eqb kind "DELETE" then plan_delete
  else VObject [("operation", VString (cat ["Unrecognized: "; kind]))].

Definition execute_explain (tokens : list string) (raw : string) : HM VclExecuteResponse :=
  match tokens with
  | _ :: _ :: _ =>
      i ← or_abort (find_str "EXPLAIN" (str_upper raw));
      rest ← or_abort (slice_from (i + 7) raw);
      let inner_query := trim rest in
      let inner_tokens := tokenize inner_query in
      match inner_tokens with
      | [] => refuse (BadRequest "EXPLAIN requires a query")
      | t :: _ =>
          where_id ← find_where_id inner_tokens;
          mret (answer "EXPLAIN" 1
            (VObject [("query", VString inner_query);
                      ("plan", plan_of (str_upper t) (parse_limit inner_tokens).1 where_id inner_tokens)]) None)
      end
  | _ => refuse (BadRequest "EXPLAIN requires a query to explain")
  end.

(** ** The statement *)

Definition unknown_statement (other : string) : ApiError :=
  BadRequest (cat ["Unknown VCL statement: '"; other;
                   "'. Supported: SELECT, SEARCH, INSERT, DELETE, SHOW, COUNT, EXPLAIN"]).

Definition route (c : Call) (uptime : Z) (kind : string) (tokens : list string) (query : string) : HM VclExecuteResponse :=
  if String.eqb kind "SELECT" then execute_select tokens
  else if String.eqb kind "SEARCH" then execute_search tokens
  else if String.eqb kind "INSERT" then execute_insert c query
  else if String.eqb kind "DELETE" then execute_delete c tokens
  else if String.eqb kind "SHOW" then execute_show c uptime tokens
  else if String.eqb kind "COUNT" then execute_count
  else if String.eqb kind "EXPLAIN" then execute_explain tokens query
  else refuse (unknown_statement kind).

(** The statement without its trailing semicolons. *)
Definition statement_text (query : string) : string := trim (trim_end (String.eqb ";") (trim query)).

(** [typell] is what the service answers for the text of the statement. *)
Definition vcl_execute_handler (c : Call) (uptime : Z) (typell : string → option Value) (query : string) :
    HM VclExecuteResponse :=
  checked (ensure PlanCache.nonempty (trim query) else BadRequest "Empty query" ;; Ok ());;
  let query := statement_text query in
  match tokenize query with
  | [] => refuse (BadRequest "Empty query after parsing")
  | (t :: _) as tokens =>
      r ← route c uptime (str_upper t) tokens query;
      mret (attach (typell_report <$> typell query) r)
  end.

End vcl.
