(* ===== verification/ApiRouter.v ===== *)
(** The routes of the HTTP API ([build_router] of verisim-api/src/lib.rs): those
    behind the authentication middleware, and the GraphQL endpoint
    (verisim-api/src/graphql.rs), which is merged after the middleware's layer and
    so runs for anybody.

    A [Request] is a route with what its extractors hand to the handler; its
    method and path are what the middleware sees.  A [GraphQl.Field] is one field
    of the query or mutation root with its arguments; [Route] puts the two
    together.  The metrics page and the proof-attempt routes are not modelled; the
    federation and Groove routers, merged outside the layer too, have states of
    their own ([Federation], [Groove]) and do not touch this one. *)

From S2P Require Import Prelude Machine Text Float64 Collections LockTable Transaction Provenance WalEntry Format PlannerTypes PlannerCost Planner WalSegment WalReader WalWriter OctadTypes Modalities ModalityStores OctadStore Lexing.
From S2P Require PlanCache QueryLog ApiTransaction Zkp Circuits ZkpBridge Drift Normalizer Rbac Auth.
From S2P Require Import ApiTypes Api ApiQueries Vcl.

Local Open Scope string_scope.
Local Open Scope Z_scope.

(** ** GraphQL *)

Module GraphQl.

Record Health := mkHealth { g_status : string; g_version : string; uptime_seconds : Z }.
Record Octad := mkOctad {
  g_id : string; g_created_at : string; g_modified_at : string; g_octad_version : Z;
  g_has_graph : bool; g_has_vector : bool; g_has_tensor : bool; g_has_semantic : bool; g_has_document : bool;
  g_version_count : Z }.
Record PlanStep := mkPlanStep {
  g_step : Z; g_operation : string; g_modality : string; g_time_ms : f64; g_rows : Z; g_selectivity : f64;
  g_hint : option string }.
Record PhysicalPlan := mkPlan {
  g_steps : list PlanStep; g_strategy : string; g_total_time_ms : f64; g_total_rows : Z; g_notes : list string }.
Record ModalityCost := mkModalityCost { mc_modality : string; mc_time_ms : f64; mc_percentage : f64 }.
Record ExplainOutput := mkExplain {
  ge_steps : list PlanStep; ge_breakdown : list ModalityCost; ge_hints : list (string * string);
  ge_total_ms : f64; ge_strategy : string; ge_text : string }.
Record PlannerConfigOutput := mkConfigOutput {
  gc_mode : string; gc_weight : f64; gc_adaptive : bool; gc_threshold : Z }.
Record StoreStats := mkStoreStats {
  gs_modality : string; gs_rows : Z; gs_latency : f64; gs_returned : Z; gs_queries : Z }.

Record OctadInput := mkInput {
  gi_title : option string; gi_body : option string; gi_embedding : option (list f32);
  gi_types : option (list string); gi_tensor_shape : option (list Z); gi_tensor_data : option (list f64) }.
Record PlannerConfigInput := mkConfigInput {
  pi_mode : option string; pi_weight : option f64; pi_adaptive : option bool; pi_threshold : option Z }.

(** The fields of [QueryRoot] and [MutationRoot].  A plan comes as the text of its
    JSON: what [serde_json] makes of it, or its error. *)
Inductive Field :=
  | health (uptime : Z)
  | octad (id : string)
  | search_text (query : string) (limit : option Z)
  | drift_status
  | planner_config
  | planner_stats
  | explain_plan (plan : result string LogicalPlan)
  | create_octad (input : OctadInput)
  | delete_octad (id : string)
  | optimize_plan (plan : result string LogicalPlan)
  | update_planner_config (input : PlannerConfigInput).

(** The mutations that write. *)
Definition writes (q : Field) : bool :=
  match q with create_octad _ | delete_octad _ | update_planner_config _ => true | _ => false end.

Inductive Data :=
  | DHealth (h : Health) | DOctad (o : option Octad) | DHits (l : list SearchResultResponse)
  | DDrift (l : list DriftStatusResponse) | DConfig (c : PlannerConfigOutput) | DStats (l : list StoreStats)
  | DExplain (e : ExplainOutput) | DCreated (o : Octad) | DBool (b : bool) | DPlan (p : PhysicalPlan).

Inductive GraphQlFault := GError (msg : string) | GAborted.

(** Casts between [i32] and [usize]. *)
Definition i32_of (z : Z) : Z := let u := wrap 32 z in if u <? 2 ^ 31 then u else u - 2 ^ 32.
Definition usize_of (z : Z) : nat := Z.to_nat (wrap 64 z).

Definition mode_debug (m : OptimizationMode) : string :=
  match m with Conservative => "Conservative" | Balanced => "Balanced" | Aggressive => "Aggressive" end.

Section graphql.
Context `{C : Chrono} `{K : Crc32} `{R : ReadDir} `{SI : SetIter} `{E : !OctadEnv} `{M : !Modalities}.
Context `{MI : MapIter} `{DI : Drift.DriftIter} `{A : ApiEnv} `{U : UnicodeCase} `{LG : Log2} `{PI : ModalityIter}.
Context `{Q : PlanCache.CharClass} `{DK : DebugKind} `{TC : ApiTransaction.Clock} `{DG : Zkp.Digest}.
Context (config : ApiConfig).

Abbreviation GM := (SR (AppState (M:=M)) GraphQlFault).

Definition server_error : GraphQlFault := GError "Internal server error".

Definition octad_summary (h : OctadTypes.Octad) : Octad :=
  mkOctad (oc_id h) (to_rfc3339 (created_at (status h))) (to_rfc3339 (modified_at (status h))) (version (status h))
    (present (graph_node h)) (present (oc_embedding h)) (present (oc_tensor h)) (present (oc_semantic h))
    (present (oc_document h)) (version_count h).

Definition convert_step (s : PlannerTypes.PlanStep) : PlanStep :=
  mkPlanStep (i32_of (Z.of_nat (step s))) (operation s) (modality_display (step_modality s)) (time_ms (cost s))
    (estimated_rows (cost s)) (selectivity (cost s)) (optimization_hint s).

Definition convert_physical_plan (p : PlannerTypes.PhysicalPlan) : PhysicalPlan :=
  mkPlan (convert_step <$> steps p) (strategy_debug (strategy p)) (time_ms (total_cost p))
    (estimated_rows (total_cost p)) (notes p).

Definition convert_explain (e : Planner.ExplainOutput) : ExplainOutput :=
  mkExplain
    ((λ s, mkPlanStep (i32_of (Z.of_nat (ex_step s))) (ex_operation s) (modality_display (ex_modality s))
             (estimated_cost_ms s) (ex_rows s) (estimated_selectivity s) (ex_hint s)) <$> explain_steps e)
    ((λ b, mkModalityCost (modality_display (cb_modality b)) (cb_time_ms b) (percentage b)) <$> cost_breakdown e)
    ((λ h, (severity h, message h)) <$> performance_hints e) (total_cost_ms e) (explain_strategy e) (text_output e).

Definition config_output (c : PlannerConfig) : PlannerConfigOutput :=
  mkConfigOutput (mode_debug (global_mode c)) (statistics_weight c) (enable_adaptive c)
    (i32_of (Z.of_nat (parallel_threshold c))).

(** The octad store's input; the tensor of the request is not used. *)
Definition octad_input (i : OctadInput) : OctadTypes.OctadInput :=
  OctadTypes.mkInput None ((λ e, mkVectorInput e None) <$> gi_embedding i) None
    ((λ t, mkSemanticInput t ∅) <$> gi_types i)
    ((λ t, mkDocumentInput t (default "" (gi_body i)) ∅) <$> gi_title i) None None None ∅.

Definition parse_mode (m : string) : OptimizationMode :=
  let m := str_lower m in
  if String.eqb m "conservative" then Conservative else if String.eqb m "aggressive" then Aggressive else Balanced.

Definition updated_config (i : PlannerConfigInput) (c : PlannerConfig) : PlannerConfig :=
  mkPlannerConfig (from_option parse_mode (global_mode c) (pi_mode i)) (modality_overrides c)
    (default (statistics_weight c) (pi_weight i)) (default (enable_adaptive c) (pi_adaptive i))
    (from_option usize_of (parallel_threshold c) (pi_threshold i)).

Definition on_store {T} (m : SR (OctadStore M) OctadError T) : GM T :=
  sr_map_err (λ _, server_error) (sr_zoom octad_store set_store m).

(** A computation of the planner on a parsed plan. *)
Definition on_plan {T} (f : PlannerError → string) (m : Planner → LogicalPlan → option (result PlannerError T))
    (plan : result string LogicalPlan) : GM T :=
  match plan with
  | Err e => sr_fail (GError (cat ["Invalid plan JSON: "; e]))
  | Ok plan => sr_read (λ s, match m (planner s) plan with
                             | None => Err GAborted
                             | Some r => map_err (λ e, GError (f e)) r
                             end)
  end.

Definition read_config : GM Data := sr_read (λ s, Ok (DConfig (config_output (Planner.config (planner s))))).

Definition store_stats (p : Planner) : list StoreStats :=
  omap (λ m, (λ st, mkStoreStats (modality_display m) (total_rows st) (avg_latency_ms st) (avg_rows_returned st)
                      (query_count st)) <$> Planner.planner_stats p !! m) ALL.

(** What resolving a field does.  Identifiers and limits are not checked. *)
Definition resolve (c : Call) (q : Field) : GM Data :=
  match q with
  | health uptime => mret (DHealth (mkHealth "healthy" pkg_version uptime))
  | octad id =>
      sr_read (λ s, match get (octad_config config) id (octad_store s) with
                    | Ok o => Ok (DOctad (octad_summary <$> o))
                    | Err _ => Err server_error
                    end)
  | search_text query limit =>
      sr_read (λ s, match OctadStore.search_text (octad_config config) query (usize_of (default 10 limit)) (octad_store s) with
                    | None => Err GAborted
                    | Some (Ok octads) => Ok (DHits (imap search_result octads))
                    | Some (Err _) => Err server_error
                    end)
  | drift_status =>
      sr_read (λ s, Ok (DDrift (from_metrics <$> Drift.drift_iter (Drift.metrics (drift_detector s)))))
  | planner_config => read_config
  | planner_stats => sr_read (λ s, Ok (DStats (store_stats (planner s))))
  | explain_plan plan =>
      e ← on_plan (λ e, cat ["Plan error: "; planner_error_display e]) explain plan;
      mret (DExplain (convert_explain e))
  | create_octad input => o ← on_store (create (octad_config config) c (octad_input input)); mret (DCreated (octad_summary o))
  | delete_octad id => on_store (OctadStore.delete_octad c id);; mret (DBool true)
  | optimize_plan plan => p ← on_plan planner_error_display optimize plan; mret (DPlan (convert_physical_plan p))
  | update_planner_config input =>
      sr_modify (λ s, set_planner (set_config (updated_config input (Planner.config (planner s))) (planner s)) s);;
      read_config
  end.

End graphql.
End GraphQl.

(** ** Requests *)

Inductive Request `{Chrono} `{ApiTransaction.Clock} :=
  | Health (uptime : Z) | Ready
  | ListOctads (q : ListQuery) | CreateOctad (r : OctadRequest)
  | GetOctad (id : string) (include : option string) | UpdateOctad (id : string) (r : OctadRequest)
  | DeleteOctad (id : string)
  | TextSearch (q : SearchQuery) | VectorSearch (r : VectorSearchRequest)
  | RelatedSearch (id : string) (pred : option string)
  | DriftStatus | EntityDrift (id : string) | NormalizerState | TriggerNormalization (id : string)
  | StoreQuery (uuid : string) (r : StoreQueryRequest) | SimilarQueries (r : VectorSearchRequest)
  | OptimizeQuery (id : string) (plan : option LogicalPlan)
  | QueryPlan (plan : LogicalPlan) | QueryExplain (plan : LogicalPlan)
  | GetPlannerConfig | PutPlannerConfig (c : PlannerConfig) | PlannerStats
  | ExplainAnalyze (filled created updated : nat → DateTime) (r : ExplainAnalyzeRequest)
  | PreparedCreate (query : string) (plan : LogicalPlan) | PreparedGet (i : string)
  | PreparedExecute (i : string) (params : gmap string PlanCache.ParamValue)
  | PreparedStats | SlowQueries
  | TxnBegin (now now' : ApiTransaction.Instant) (pid : Z) | TxnCommit (now : ApiTransaction.Instant) (i : string)
  | TxnRollback (now : ApiTransaction.Instant) (i : string) | TxnStatus (i : string)
  | ProofGenerate (now : string) (r : ProofGenerateRequest) | ProofVerify (p : ZkpBridge.ZkpProof) (claim : string)
  | ProofWithCircuit (now : string) (r : ProofWithCircuitRequest)
  | ProvenanceChain (id : string) | ProvenanceRecord (id : string) (body : ProvenanceRequest)
  | ProvenanceVerify (id : string)
  | SpatialRadius (b : RadiusSearchRequest) | SpatialBounds (b : BoundsSearchRequest)
  | SpatialNearest (b : NearestSearchRequest)
  | VclExecute (uptime : Z) (typell : string → option Value) (query : string).

(** The method and the path of a request. *)
Definition request_line `{Chrono} `{ApiTransaction.Clock} (r : Request) : Rbac.Method * string :=
  match r with
  | Health _ => (Rbac.GET, "/health")
  | Ready => (Rbac.GET, "/ready")
  | ListOctads _ => (Rbac.GET, "/octads")
  | CreateOctad _ => (Rbac.POST, "/octads")
  | GetOctad id _ => (Rbac.GET, "/octads/" +:+ id)
  | UpdateOctad id _ => (Rbac.PUT, "/octads/" +:+ id)
  | DeleteOctad id => (Rbac.DELETE, "/octads/" +:+ id)
  | TextSearch _ => (Rbac.GET, "/search/text")
  | VectorSearch _ => (Rbac.POST, "/search/vector")
  | RelatedSearch id _ => (Rbac.GET, "/search/related/" +:+ id)
  | DriftStatus => (Rbac.GET, "/drift/status")
  | EntityDrift id => (Rbac.GET, "/drift/entity/" +:+ id)
  | NormalizerState => (Rbac.GET, "/normalizer/status")
  | TriggerNormalization id => (Rbac.POST, "/normalizer/trigger/" +:+ id)
  | StoreQuery _ _ => (Rbac.POST, "/queries")
  | SimilarQueries _ => (Rbac.POST, "/queries/similar")
  | OptimizeQuery id _ => (Rbac.PUT, "/queries/" +:+ (id +:+ "/optimize"))
  | QueryPlan _ => (Rbac.POST, "/query/plan")
  | QueryExplain _ => (Rbac.POST, "/query/explain")
  | GetPlannerConfig => (Rbac.GET, "/planner/config")
  | PutPlannerConfig _ => (Rbac.PUT, "/planner/config")
  | PlannerStats => (Rbac.GET, "/planner/stats")
  | ExplainAnalyze _ _ _ _ => (Rbac.POST, "/query/explain-analyze")
  | PreparedCreate _ _ => (Rbac.POST, "/prepared")
  | PreparedGet i => (Rbac.GET, "/prepared/" +:+ i)
  | PreparedExecute i _ => (Rbac.POST, "/prepared/" +:+ (i +:+ "/execute"))
  | PreparedStats => (Rbac.GET, "/prepared/stats")
  | SlowQueries => (Rbac.GET, "/planner/slow-queries")
  | TxnBegin _ _ _ => (Rbac.POST, "/transactions/begin")
  | TxnCommit _ i => (Rbac.POST, "/transactions/" +:+ (i +:+ "/commit"))
  | TxnRollback _ i => (Rbac.POST, "/transactions/" +:+ (i +:+ "/rollback"))
  | TxnStatus i => (Rbac.GET, "/transactions/" +:+ i)
  | ProofGenerate _ _ => (Rbac.POST, "/proofs/generate")
  | ProofVerify _ _ => (Rbac.POST, "/proofs/verify")
  | ProofWithCircuit _ _ => (Rbac.POST, "/proofs/generate-with-circuit")
  | ProvenanceChain id => (Rbac.GET, "/provenance/" +:+ id)
  | ProvenanceRecord id _ => (Rbac.POST, "/provenance/" +:+ (id +:+ "/record"))
  | ProvenanceVerify id => (Rbac.GET, "/provenance/" +:+ (id +:+ "/verify"))
  | SpatialRadius _ => (Rbac.POST, "/spatial/search/radius")
  | SpatialBounds _ => (Rbac.POST, "/spatial/search/bounds")
  | SpatialNearest _ => (Rbac.POST, "/spatial/search/nearest")
  | VclExecute _ _ _ => (Rbac.POST, "/vcl/execute")
  end.

(** What its handler answers. *)
Definition Answer `{Chrono} `{ApiTransaction.Clock} (r : Request) : Type :=
  match r with
  | Health _ => HealthResponse
  | Ready => bool
  | ListOctads _ | RelatedSearch _ _ => list OctadResponse
  | CreateOctad _ | GetOctad _ _ | UpdateOctad _ _ | StoreQuery _ _ | OptimizeQuery _ _ => OctadResponse
  | DeleteOctad _ | TriggerNormalization _ => unit
  | TextSearch _ | VectorSearch _ | SimilarQueries _ => list SearchResultResponse
  | DriftStatus => list DriftStatusResponse
  | EntityDrift _ => EntityDriftResponse
  | NormalizerState => Normalizer.NormalizerStatus
  | QueryPlan _ | PreparedExecute _ _ => PhysicalPlan
  | QueryExplain _ => ExplainOutput
  | GetPlannerConfig | PutPlannerConfig _ => PlannerConfig
  | PlannerStats => gmap Modality StoreStatistics
  | ExplainAnalyze _ _ _ _ => QueryLog.Profile.ExplainAnalyzeOutput
  | PreparedCreate _ _ | PreparedGet _ => PlanCache.PreparedStatement
  | PreparedStats => PlanCache.CacheStats
  | SlowQueries => QueryLog.SlowQuery.SlowQuerySummary
  | TxnBegin _ _ _ | TxnCommit _ _ | TxnRollback _ _ | TxnStatus _ => ApiTransaction.TransactionStatus
  | ProofGenerate _ _ | ProofVerify _ _ | ProofWithCircuit _ _ => ProofResponse
  | ProvenanceChain _ => ProvenanceChainResponse
  | ProvenanceRecord _ _ => string * Z * bool
  | ProvenanceVerify _ => string * bool * bool
  | SpatialRadius _ | SpatialBounds _ | SpatialNearest _ => list SpatialSearchResultResponse
  | VclExecute _ _ _ => VclExecuteResponse
  end.

Section router.
Context `{C : Chrono} `{K : Crc32} `{R : ReadDir} `{SI : SetIter} `{E : !OctadEnv} `{M : !Modalities}.
Context `{P : !ProvenanceQueries provenance_store} `{L : !SpatialQueries spatial_store}.
Context `{MI : MapIter} `{DI : Drift.DriftIter} `{A : ApiEnv} `{Q : PlanCache.CharClass} `{F : !ParseRfc3339} `{MS : !Millis}.
Context `{U : UnicodeCase} `{LG : Log2} `{DK : DebugKind} `{PI : ModalityIter}.
Context `{CT : !PlanCache.CacheTime} `{SH : PlanCache.Sha256} `{TC : ApiTransaction.Clock}.
Context `{DG : Zkp.Digest} `{TI : Circuits.TermIter} `{AE : Auth.AuthEnv}.
Context (datetime_json : DateTime → string) (config : ApiConfig).

Definition handle (c : Call) (r : Request) : SR AppState Fault (Answer r) :=
  match r with
  | Health uptime => health_handler c uptime
  | Ready => ready_handler config c
  | ListOctads q => list_octads_handler config q
  | CreateOctad r => create_octad_handler config c r
  | GetOctad id include => get_octad_handler config id include
  | UpdateOctad id r => update_octad_handler config c id r
  | DeleteOctad id => delete_octad_handler c id
  | TextSearch q => text_search_handler config q
  | VectorSearch r => vector_search_handler config r
  | RelatedSearch id pred => related_search_handler config id pred
  | DriftStatus => drift_status_handler
  | EntityDrift id => entity_drift_handler config id
  | NormalizerState => normalizer_status_handler
  | TriggerNormalization id => trigger_normalization_handler config id
  | StoreQuery uuid r => store_query_handler config c uuid r
  | SimilarQueries r => similar_queries_handler config r
  | OptimizeQuery id plan => optimize_query_handler config c id plan
  | QueryPlan plan => query_plan_handler plan
  | QueryExplain plan => query_explain_handler plan
  | GetPlannerConfig => get_planner_config_handler
  | PutPlannerConfig c => put_planner_config_handler c
  | PlannerStats => planner_stats_handler
  | ExplainAnalyze filled created updated r => query_explain_analyze_handler c filled created updated r
  | PreparedCreate query plan => prepared_create_handler c query plan
  | PreparedGet i => prepared_get_handler c i
  | PreparedExecute i params => prepared_execute_handler c i params
  | PreparedStats => prepared_stats_handler
  | SlowQueries => slow_queries_handler
  | TxnBegin now now' pid => transaction_begin_handler now now' pid
  | TxnCommit now i => transaction_commit_handler now i
  | TxnRollback now i => transaction_rollback_handler now i
  | TxnStatus i => transaction_status_handler i
  | ProofGenerate now r => proof_generate_handler now r
  | ProofVerify p claim => proof_verify_handler p claim
  | ProofWithCircuit now r => proof_generate_with_circuit_handler now r
  | ProvenanceChain id => provenance_get_chain_handler id
  | ProvenanceRecord id body => provenance_record_handler config c id body
  | ProvenanceVerify id => provenance_verify_handler id
  | SpatialRadius b => spatial_radius_search_handler b
  | SpatialBounds b => spatial_bounds_search_handler b
  | SpatialNearest b => spatial_nearest_handler b
  | VclExecute uptime typell query => vcl_execute_handler datetime_json config c uptime typell query
  end.

(** ** Behind the middleware *)

(** The credentials of a request, and the clocks the middleware reads. *)
Record Headers := mkHeaders { h_api_key : option string; h_authorization : option string }.
Record Clocks := mkClocks { limiter_now : Z; limiter_now' : Z; wall_secs : Z }.

Inductive Outcome (r : Request) :=
  | Rejected (resp : Auth.Response)
  | Answered (a : result Fault (Answer r)).
#[global] Arguments Rejected {r} resp.
#[global] Arguments Answered {r} a.

(** [None]: the middleware panics. *)
Definition serve (t : Clocks) (h : Headers) (c : Call) (r : Request) (auth : Auth.AuthState) (s : AppState) :
    option (Auth.AuthState * AppState * Outcome r) :=
  let '(m, path) := request_line r in
  '(auth, resp) ← Auth.auth_middleware (limiter_now t) (limiter_now' t) (wall_secs t)
                    (Auth.mkRequest m path (h_api_key h) (h_authorization h)) auth;
  Some match resp with
       | Auth.NextRun => let '(s, a) := handle c r s in (auth, s, Answered a)
       | _ => (auth, s, Rejected resp)
       end.

(** ** Both kinds of routes *)

Inductive Route := Protected (h : Headers) (r : Request) | GraphQlField (q : GraphQl.Field).

Inductive Reply :=
  | Replied (r : Request) (o : Outcome r)
  | Resolved (a : result GraphQl.GraphQlFault GraphQl.Data).

(** Only the protected routes pass the middleware. *)
Definition serve_route (t : Clocks) (c : Call) (rt : Route) (auth : Auth.AuthState) (s : AppState) :
    option (Auth.AuthState * AppState * Reply) :=
  match rt with
  | Protected h r => '(auth, s, o) ← serve t h c r auth s; Some (auth, s, Replied r o)
  | GraphQlField q => let '(s, a) := GraphQl.resolve config c q s in Some (auth, s, Resolved a)
  end.

End router.
