(* ===== verification/ApiExample.v ===== *)
(** A small application: trivial third-party parts and empty stores, for the
    examples of the HTTP API and of VCL. *)

From S2P Require Import Prelude Machine Text Float64 Collections LockTable Transaction TransactionSteps TransactionTheorems Temporal Provenance WalEntry Format PlannerTypes PlannerCost Planner WalSegment WalReader WalWriter WalTheorems OctadTypes Modalities ModalityStores OctadStore OctadLemmas OctadTheorems.
From S2P Require PlanCache QueryLog ApiTransaction Zkp Circuits ZkpBridge Drift Normalizer Rbac Auth AuthTheorems.
From S2P Require Import ApiTypes Api ApiQueries.

Local Open Scope string_scope.
Local Open Scope Z_scope.

Export WalTheorems.Example OctadTheorems.Witness.

#[export] Instance ascii_case : UnicodeCase :=
  {| str_lower := map_ascii ascii_lower; str_upper := map_ascii ascii_upper |}.
#[export] Instance ascii_case_laws : UnicodeCaseLaws ascii_case.
Proof. done. Defined.
#[export] Instance map_order_laws : MapIterLaws map_order.
Proof. intros A m. reflexivity. Defined.
#[export] Instance all_alnum : PlanCache.CharClass := λ _, true.
#[export] Instance half : Log2 := λ x, x.
#[export] Instance no_debug : DebugKind := λ _, "".
#[export] Instance modality_order : ModalityIter := λ A m, map_to_list m.
#[export] Instance drift_order : Drift.DriftIter := λ A m, map_to_list m.
#[export] Instance term_order : Circuits.TermIter := λ m, map_to_list m.
#[export] Instance ages : PlanCache.CacheTime :=
  {| PlanCache.older_than := λ s now t, s * 1000 <? ms now - ms t; PlanCache.time_ltb := λ a b, ms a <? ms b |}.
#[export] Instance no_hash : PlanCache.Sha256 := λ s, s.
#[export] Instance no_digest : Zkp.Digest := λ l, l.
#[export] Instance wall : ApiTransaction.Clock :=
  {| ApiTransaction.Instant := Z; ApiTransaction.timestamp_nanos_opt := Some;
     ApiTransaction.to_rfc3339 := λ _, ""; ApiTransaction.parse_from_rfc3339 := λ _, None;
     ApiTransaction.longer_ago := λ a b s, s <? a - b |}.
#[export] Instance no_dates : ParseRfc3339 := λ _, Err "premature end of input".
#[export] Instance rfc : Normalizer.Rfc3339 := λ _, "now".
#[export] Instance millis : Millis := λ _, "0".
#[export] Instance labels : ApiEnv := {| debug_str := λ s, s; pkg_version := "0.1.0" |}.
#[export] Instance chains : ProvenanceQueries (Lineage.store (λ _, "") (λ _, "") (λ _, "")) :=
  lineage_queries (λ _, "") (λ _, "") (λ _, "").
#[export] Existing Instance AuthTheorems.Witness.env.

Definition api_cfg : ApiConfig := mkApiConfig "" 0 0 false "" 1 None 0 0 0.

(** The application over a store. *)
Definition app_over (st : OctadStore stores) : AppState (M:=stores) :=
  mkApp st (Drift.with_defaults epoch) Normalizer.create_default_normalizer (Planner.new (λ _, epoch) PlannerTypes.config_default)
    PlanCache.new (QueryLog.SlowQuery.new QueryLog.SlowQuery.SlowQueryConfig_default) ∅ ∅.

Definition app : AppState (M:=stores) := app_over fresh_store.

Lemma app_fresh n : fresh_txn n (txns (octad_store app)).
Proof. apply fresh_fresh. Qed.

(** A note with a title and a body. *)
Definition note : OctadRequest :=
  mkOctadRequest (Some "t") (Some "b") None None None None None None None None.
