(* ===== verification/ApiTheorems.v ===== *)
(** Properties of the HTTP API: what the octad endpoints answer and do on every
    branch, what a request that needs no write permission can change, and what
    EXPLAIN ANALYZE does to the planner. *)

From S2P Require Import Prelude Machine Text Float64 Collections LockTable Transaction TransactionSteps TransactionTheorems Provenance WalEntry Format PlannerTypes PlannerCost Planner WalSegment WalReader WalWriter OctadTypes Modalities ModalityStores OctadStore OctadLemmas OctadOutcomes OctadTheorems Lexing.
From S2P Require PlanCache QueryLog ApiTransaction Zkp Circuits ZkpBridge Drift Normalizer Rbac Auth.
From S2P Require Import ApiTypes Api ApiQueries Vcl ApiRouter.
From S2P Require ApiExample.

Local Open Scope string_scope.
Local Open Scope Z_scope.

(** ** The octad endpoints *)

(** The request is refused with this status code. *)
Definition answers {T} (code : Z) (r : result Fault T) : Prop :=
  ∃ e, r = Err (Refused e) ∧ err_code (into_response e) = code.

Lemma answers_any {T U} code e : answers code (Err e : result Fault T) → answers code (Err e : result Fault U).
Proof. intros (x & [= ->] & ?). by exists x. Qed.

Section octads.
Context `{C : Chrono} `{K : Crc32} `{SI : SetIterLaws} `{E : !OctadEnv} `{M : !Modalities}.
Context `{Q : PlanCache.CharClass} `{F : !ParseRfc3339}.
Context (config : ApiConfig).
Implicit Types (s : AppState (M:=M)).

Abbreviation registry s := (octads (octad_store s)).

Lemma checked_Ok {T} (a : T) s : checked (Ok a) s = (s, Ok a).
Proof. done. Qed.
Lemma checked_Err {T} (e : ApiError) s : (checked (Err e) : SR AppState Fault T) s = (s, Err (Refused e)).
Proof. done. Qed.

Lemma invalid_id id e : validate_octad_id id = Err e → ∃ m, e = BadRequest m.
Proof. unfold validate_octad_id. repeat case_match; intros [= <-]; eauto. Qed.

Lemma bad_observation r e : to_octad_input r = Err e → ∃ m, e = BadRequest m.
Proof.
  unfold to_octad_input. destruct (req_temporal r) as [t|]; [|done]. unfold observation.
  destruct (parse_rfc3339 _); [done|]. cbn. intros [= <-]. eauto.
Qed.

(** A store operation that does what [post] says, or fails and keeps the registry. *)
Lemma store_op_outcome {T} f (m : SR (OctadStore M) OctadError T) s (post : T → OctadStore M → Prop) code :
  (match m (octad_store s) with
   | (x, Ok a) => post a x
   | (x, Err e) => octads x = registry s ∧ err_code (into_response (f e)) = code
   end) →
  match store_op f m s with
  | (s', Ok a) => post a (octad_store s')
  | (s', Err e) => registry s' = registry s ∧ answers code (Err e : result Fault T)
  end.
Proof.
  unfold store_op, sr_map_err, sr_zoom, map_err. destruct (m (octad_store s)) as [x [a|e]]; cbn; [done|].
  intros [Hr Hc]. split; [done|]. by exists (f e).
Qed.

Lemma missing_or_internal_found id e : not_missing e → err_code (into_response (missing_or_internal id e)) = 500.
Proof. by destruct e. Qed.

(** ** What each operation does, for a fresh transaction identifier *)

Lemma create_op c i s :
  fresh_txn (new_txn c) (txns (octad_store s)) →
  match store_op internal (create (octad_config config) c i) s with
  | (s', Ok o) => registry s' = <[new_octad c := status o]> (registry s) ∧ oc_id o = new_octad c
  | (s', Err e) => registry s' = registry s ∧ answers 500 (Err e : result Fault Octad)
  end.
Proof.
  intros Hf. eapply (store_op_outcome _ _ s (λ o x, octads x = <[new_octad c := status o]> (registry s) ∧ oc_id o = new_octad c)).
  pose proof (create_in (octad_config config) (registry s) (txns (octad_store s)) c i Hf (octad_store s) ltac:(done)) as Ho.
  destruct (create _ c i (octad_store s)) as [x [o|e]].
  - destruct Ho as [[Ho _] (Hid & _)]. done.
  - by destruct Ho as [[Ho _] _].
Qed.

Lemma update_op c id i s existing :
  fresh_txn (new_txn c) (txns (octad_store s)) → registry s !! id = Some existing →
  match store_op (missing_or_internal id) (update (octad_config config) c id i) s with
  | (s', Ok o) => registry s' = <[id := status o]> (registry s) ∧ oc_id o = id
  | (s', Err e) => registry s' = registry s ∧ answers 500 (Err e : result Fault Octad)
  end.
Proof.
  intros Hf Hid. eapply (store_op_outcome _ _ s (λ o x, octads x = <[id := status o]> (registry s) ∧ oc_id o = id)).
  unfold update, find_existing, sr_read. unfold mbind, sr_bind. rewrite Hid. cbn [ok_or].
  pose proof (update_with_in (octad_config config) (registry s) (txns (octad_store s)) existing c id i Hf (octad_store s) ltac:(done)) as Ho.
  pose proof (fails_update (octad_config config) existing c id i (octad_store s)) as He.
  destruct (update_with _ existing c id i (octad_store s)) as [x [o|e]].
  - destruct Ho as [[Ho _] (Hid' & _)]. done.
  - destruct Ho as [[Ho _] _]. split; [done|]. by eapply missing_or_internal_found, He.
Qed.

Lemma delete_op c id s existing :
  fresh_txn (new_txn c) (txns (octad_store s)) → registry s !! id = Some existing →
  match store_op (missing_or_internal id) (delete_octad c id) s with
  | (s', Ok _) => registry s' = delete id (registry s)
  | (s', Err e) => registry s' = registry s ∧ answers 500 (Err e : result Fault unit)
  end.
Proof.
  intros Hf Hid. eapply (store_op_outcome _ _ s (λ _ x, octads x = delete id (registry s))).
  unfold delete_octad, find_existing, sr_read. unfold mbind, sr_bind. rewrite Hid. cbn [ok_or].
  pose proof (delete_with_in (registry s) (txns (octad_store s)) existing c id Hf (octad_store s) ltac:(done)) as Ho.
  pose proof (fails_delete existing c id (octad_store s)) as He.
  destruct (delete_with existing c id (octad_store s)) as [x [o|e]].
  - by destruct Ho as [Ho _].
  - destruct Ho as [[Ho _] _]. split; [done|]. by eapply missing_or_internal_found, He.
Qed.

(** An operation on an entity that is not registered. *)
Lemma missing_op {T} id s (m : OctadStatus → SR (OctadStore M) OctadError T) :
  registry s !! id = None →
  store_op (missing_or_internal id) (existing ← find_existing id; m existing) s =
  (s, Err (Refused (NotFound (not_found_text id)))).
Proof.
  intros Hn. unfold store_op, sr_map_err, sr_zoom. unfold find_existing, sr_read, mbind, sr_bind. rewrite Hn.
  cbn. by destruct s.
Qed.

(** C16 (the octad endpoints).  A malformed identifier or request is refused with
    400 and an unregistered entity with 404, and nothing changes; otherwise the
    endpoint changes the registry at its entity as it says, or answers 500 and
    leaves the registry alone.  No request to them aborts the server. *)
Theorem octad_endpoints s c id r :
  fresh_txn (new_txn c) (txns (octad_store s)) →
  (let '(s', a) := create_octad_handler config c r s in
   match to_octad_input r with
   | Err _ => s' = s ∧ answers 400 a
   | Ok _ => (∃ o st, a = Ok o ∧ res_id o = new_octad c ∧ registry s' = <[new_octad c := st]> (registry s)) ∨
             (registry s' = registry s ∧ answers 500 a)
   end) ∧
  (let '(s', a) := update_octad_handler config c id r s in
   if is_ok (validate_octad_id id) && is_ok (to_octad_input r) then
     match registry s !! id with
     | None => s' = s ∧ answers 404 a
     | Some _ => (∃ o st, a = Ok o ∧ res_id o = id ∧ registry s' = <[id := st]> (registry s)) ∨
                 (registry s' = registry s ∧ answers 500 a)
     end
   else s' = s ∧ answers 400 a) ∧
  (let '(s', a) := delete_octad_handler c id s in
   if is_ok (validate_octad_id id) then
     match registry s !! id with
     | None => s' = s ∧ answers 404 a
     | Some _ => (a = Ok () ∧ registry s' = delete id (registry s)) ∨ (registry s' = registry s ∧ answers 500 a)
     end
   else s' = s ∧ answers 400 a).
Proof.
  intros Hf. split_and!.
  - unfold create_octad_handler. destruct (to_octad_input r) as [i|e] eqn:Ei.
    + rewrite (sr_bind_step _ _ s s i) by done. pose proof (create_op c i s Hf) as Ho.
      unfold mbind at 1, sr_bind at 1. destruct (store_op _ _ s) as [s' [o|e]]; destruct Ho as [Hr Hid];
        [left|right; split; [done|by eapply answers_any]].
      by exists (response_of o), (status o).
    + rewrite (sr_bind_stop _ _ s s (Refused e)) by done. split; [done|].
      destruct (bad_observation _ _ Ei) as [m ->]. by eexists.
  - unfold update_octad_handler. destruct (validate_octad_id id) as [[]|e] eqn:Ev.
    2: { rewrite (sr_bind_stop _ _ s s (Refused e)) by done. split; [done|].
         destruct (invalid_id _ _ Ev) as [m ->]. by eexists. }
    rewrite (sr_bind_step _ _ s s ()) by done. destruct (to_octad_input r) as [i|e] eqn:Ei; cbn [is_ok andb].
    2: { rewrite (sr_bind_stop _ _ s s (Refused e)) by done. split; [done|].
         destruct (bad_observation _ _ Ei) as [m ->]. by eexists. }
    rewrite (sr_bind_step _ _ s s i) by done. destruct (registry s !! id) as [existing|] eqn:Er.
    + pose proof (update_op c id i s existing Hf Er) as Ho.
      unfold mbind at 1, sr_bind at 1. destruct (store_op _ _ s) as [s' [o|e]]; destruct Ho as [Hr Hid];
        [left|right; split; [done|by eapply answers_any]].
      by exists (response_of o), (status o).
    + unfold update. rewrite (sr_bind_stop _ _ _ _ _ (missing_op id s _ Er)). split; [done|]. by eexists.
  - unfold delete_octad_handler. destruct (validate_octad_id id) as [[]|e] eqn:Ev; cbn [is_ok].
    2: { rewrite (sr_bind_stop _ _ s s (Refused e)) by done. split; [done|].
         destruct (invalid_id _ _ Ev) as [m ->]. by eexists. }
    rewrite (sr_bind_step _ _ s s ()) by done. destruct (registry s !! id) as [existing|] eqn:Er.
    + pose proof (delete_op c id s existing Hf Er) as Ho.
      destruct (store_op _ _ s) as [s' [[]|e]]; [by left|by right].
    + unfold delete_octad. rewrite (missing_op id s _ Er). split; [done|]. by eexists.
Qed.
(** *** Reading back *)

Lemma get_handler_found id s o :
  validate_octad_id id = Ok () → get (octad_config config) id (octad_store s) = Ok (Some o) →
  get_octad_handler config id None s = (s, Ok (response_of o)).
Proof. intros Hv Hg. unfold get_octad_handler, checked, store_read, mbind, sr_bind, sr_read. by rewrite Hv, Hg. Qed.

Lemma get_handler_missing id s include :
  validate_octad_id id = Ok () → registry s !! id = None →
  get_octad_handler config id include s = (s, Err (Refused (NotFound (not_found_text id)))).
Proof.
  intros Hv Hn. unfold get_octad_handler, checked, store_read, mbind, sr_bind, sr_read. rewrite Hv.
  unfold get, load_octad. by rewrite Hn.
Qed.

(** C17 (POST, GET and DELETE agree).  What POST answered for a new octad is what
    GET then answers; and after a DELETE of an octad that was answered with
    success GET answers 404, whatever it is asked to include. *)
Theorem octads_read_back `{!ModalityLaws M} s s' c r resp id c' t t' include :
  (create_octad_handler config c r s = (s', Ok resp) →
   temporal_wf (new_octad c) (temporal_st (octad_store s)) →
   temporal_history (new_octad c) 999 (temporal_st (octad_store s)) = Ok [] →
   validate_octad_id (new_octad c) = Ok () →
   get_octad_handler config (new_octad c) None s' = (s', Ok resp)) ∧
  (fresh_txn (new_txn c') (txns (octad_store t)) → delete_octad_handler c' id t = (t', Ok ()) →
   get_octad_handler config id include t' = (t', Err (Refused (NotFound (not_found_text id))))).
Proof.
  split.
  - intros Hc Hwf Hh Hv. unfold create_octad_handler in Hc. apply sr_bind_Ok in Hc as (s0 & i & H0 & Hc).
    unfold checked, sr_read in H0. injection H0 as <- _. apply sr_bind_Ok in Hc as (s1 & o & H1 & [= <- <-]).
    unfold store_op, sr_map_err, sr_zoom in H1.
    destruct (create (octad_config config) c i (octad_store s)) as [x [o'|e]] eqn:Ec; [|done].
    injection H1 as <- <-. apply get_handler_found; [done|]. by eapply created_reads_back.
  - intros Hf Hd. unfold delete_octad_handler in Hd. apply sr_bind_Ok in Hd as (s0 & [] & H0 & Hd).
    unfold checked, sr_read in H0. injection H0 as <- Hv.
    destruct (validate_octad_id id) as [[]|e] eqn:Ev; [|done]. apply get_handler_missing; [done|].
    destruct (registry t !! id) as [existing|] eqn:Er.
    + pose proof (delete_op c' id t existing Hf Er) as Ho. rewrite Hd in Ho. rewrite Ho. apply lookup_delete_eq.
    + unfold delete_octad in Hd. by rewrite (missing_op id t _ Er) in Hd.
Qed.
End octads.

(** ** Requests that need no write permission *)

Section frames.
Context `{C : Chrono} `{K : Crc32} `{R : ReadDir} `{SI : SetIter} `{E : !OctadEnv} `{M : !Modalities}.
Context `{P : !ProvenanceQueries provenance_store} `{L : !SpatialQueries spatial_store}.
Context `{MI : MapIter} `{DI : Drift.DriftIter} `{A : ApiEnv} `{Q : PlanCache.CharClass} `{F : !ParseRfc3339} `{MS : !Millis}.
Context `{U : UnicodeCase} `{LG : Log2} `{DK : DebugKind} `{PI : ModalityIter}.
Context `{CT : !PlanCache.CacheTime} `{SH : PlanCache.Sha256} `{TC : ApiTransaction.Clock}.
Context `{DG : Zkp.Digest} `{TI : Circuits.TermIter} `{AE : Auth.AuthEnv}.
Context (datetime_json : DateTime → string) (config : ApiConfig).
Implicit Types (s : AppState (M:=M)).
Abbreviation registry s := (octads (octad_store s)).

(** Everything but the planner's statistics and the statement cache. *)
Definition data_of s :=
  (octad_store s, drift_detector s, normalizer s, Planner.config (planner s), slow_query_log s,
   transaction_manager s, circuit_registry s).

Section reads.
Context {T : Type} (f : AppState (M:=M) → T).

#[local] Instance keeps_get : Keeps f (sr_get : SR _ Fault _).
Proof. done. Qed.
#[local] Instance keeps_checked {X} (r : result ApiError X) : Keeps f (checked r).
Proof. unfold checked. apply _. Qed.
#[local] Instance keeps_found {X} msg (o : option X) : Keeps f (found msg o).
Proof. unfold found. apply _. Qed.
#[local] Instance keeps_store_read {X} (g : OctadStore M → result OctadError X) : Keeps f (store_read g).
Proof. unfold store_read. apply _. Qed.
#[local] Instance keeps_store_search {X} (g : OctadStore M → option (result OctadError X)) : Keeps f (store_search g).
Proof. unfold store_search. apply _. Qed.
#[local] Instance keeps_modality_read {X} (g : OctadStore M → result string X) : Keeps f (modality_read g).
Proof. unfold modality_read. apply _. Qed.
#[local] Instance keeps_planned {X} g (m : Planner → option (result PlannerError X)) : Keeps f (planned g m).
Proof. unfold planned. apply _. Qed.
#[local] Instance keeps_cache_op {X} (m : PlanCache.PlanCache → PlanCache.PlanCache * X) :
  Indep f set_cache → Keeps f (cache_op m).
Proof. intros Hi s. unfold cache_op. destruct (m (plan_cache s)) as [pc a]. apply Hi. Qed.

End reads.

#[local] Existing Instances keeps_get keeps_checked keeps_found keeps_store_read keeps_store_search keeps_modality_read keeps_planned keeps_cache_op.




(** *** Behind the middleware *)





(** *** Beside the middleware *)

#[local] Instance keeps_on_plan {X} g (m : Planner → LogicalPlan → option (result PlannerError X)) plan :
  Keeps data_of (GraphQl.on_plan g m plan).
Proof. unfold GraphQl.on_plan. case_match; apply _. Qed.



(** Anybody writes through GraphQL.  Whatever the authentication state, a
    [deleteOctad] of a registered entity removes it from the registry or fails and
    leaves the registry alone, and an [updatePlannerConfig] replaces the
    configuration; the middleware's state is not even read. *)
Theorem graphql_writes_for_anybody t c auth s id existing input :
  fresh_txn (new_txn c) (txns (octad_store s)) → registry s !! id = Some existing →
  (∃ s' a, serve_route datetime_json config t c (GraphQlField (GraphQl.delete_octad id)) auth s =
     Some (auth, s', Resolved a) ∧
     (a = Ok (GraphQl.DBool true) ∧ registry s' = delete id (registry s) ∨
      a = Err GraphQl.server_error ∧ registry s' = registry s)) ∧
  (∃ s' a, serve_route datetime_json config t c (GraphQlField (GraphQl.update_planner_config input)) auth s =
     Some (auth, s', Resolved (Ok a)) ∧
     Planner.config (planner s') = GraphQl.updated_config input (Planner.config (planner s))).
Proof.
  intros Hf Hid. split; [|by do 2 eexists].
  cbn [serve_route GraphQl.resolve]. pose proof (delete_op c id s existing Hf Hid) as Ho.
  unfold GraphQl.on_store, store_op, sr_map_err, sr_zoom in *. sr_unfold.
  destruct (delete_octad c id (octad_store s)) as [x [[]|e]]; cbn in *; do 2 eexists; (split; [reflexivity|]).
  - by left.
  - right. by destruct Ho.
Qed.

(** ** EXPLAIN ANALYZE *)

Section timings.
Context (now : DateTime) (timings : option (list f64)) (plan : PhysicalPlan).

(** A step with the time the request gives it. *)
Definition timed (i : nat) (x : PlanStep) : QueryLog.Profile.ProfileStep :=
  QueryLog.Profile.profile_step x (step_time timings i x) (estimated_rows (cost x)) now now.

Lemma record_timings i (before rest : list PlanStep) (recorded : list QueryLog.Profile.ProfileStep) :
  steps plan = (before ++ rest)%list → length recorded = length before →
  foldl (record_timing now timings)
    (Some (QueryLog.Profile.mkProfiler i plan (map Some recorded ++ replicate (length rest) None)%list))
    (imap (λ k x, (length before + k, x)%nat) rest) =
  Some (QueryLog.Profile.mkProfiler i plan
    (map Some recorded ++ imap (λ k x, Some (timed (length before + k) x)) rest)%list).
Proof.
  revert before recorded. induction rest as [|x rest IH]; intros before recorded Hs Hl; [done|].
  cbn [imap foldl replicate length]. unfold record_timing at 2.
  cbn [mbind option_bind]. unfold QueryLog.Profile.record_step. cbn [QueryLog.Profile.prof_plan fst snd].
  rewrite Hs, Nat.add_0_r, list_lookup_middle by done. cbn [mbind option_bind QueryLog.Profile.prof_id QueryLog.Profile.recorded_steps].
  rewrite insert_app_r_alt, length_map, Hl, Nat.sub_diag by (rewrite length_map; lia). cbn [insert list_insert].
  specialize (IH (before ++ [x])%list (recorded ++ [timed (length before) x])%list).
  rewrite !length_app, Hl, map_app, <- !app_assoc in IH. cbn [map length app] in IH.
  rewrite <- Hs in IH. specialize (IH ltac:(by rewrite Hs) eq_refl).
  etrans; [|etrans; [exact IH|]].
  - f_equal. apply imap_ext. intros k y _. cbn. f_equal. lia.
  - do 4 f_equal. apply imap_ext. intros k y _. cbn. do 2 f_equal. lia.
Qed.
Lemma record_all i :
  foldl (record_timing now timings) (Some (QueryLog.Profile.new i plan)) (imap pair (steps plan)) =
  Some (QueryLog.Profile.mkProfiler i plan (imap (λ k x, Some (timed k x)) (steps plan))).
Proof. exact (record_timings i [] (steps plan) [] eq_refl eq_refl). Qed.

Lemma filled_all i fl :
  QueryLog.Profile.filled_steps fl (QueryLog.Profile.mkProfiler i plan (imap (λ k x, Some (timed k x)) (steps plan))) =
  imap timed (steps plan).
Proof.
  unfold QueryLog.Profile.filled_steps. cbn [QueryLog.Profile.prof_plan QueryLog.Profile.recorded_steps].
  apply list_eq. intros k. rewrite !list_lookup_imap.
  destruct (zip _ _ !! k) as [[x o]|] eqn:Ez.
  - apply lookup_zip_Some in Ez as [Ex Eo]. rewrite list_lookup_imap, Ex in Eo. rewrite Ex. by injection Eo as <-.
  - destruct (steps plan !! k) as [x|] eqn:Ex; [|done].
    assert (zip (steps plan) (imap (λ k x, Some (timed k x)) (steps plan)) !! k = Some (x, Some (timed k x))) as Hz; [|congruence].
    apply lookup_zip_Some. by rewrite list_lookup_imap, Ex.
Qed.
End timings.

(** EXPLAIN ANALYZE teaches what it is told.  A plan that cannot be optimised
    changes nothing: it is refused with 400, or aborts the server.  Otherwise the
    profile has, for every step, the time the request gives (by default ten per
    cent over the estimate), and those times are recorded as executions in the
    statistics every later plan is costed with. *)
Theorem explain_analyze_outcome c fl cr up r s :
  let now := clock c "now" in
  let '(s', a) := query_explain_analyze_handler c fl cr up r s in
  match optimize (planner s) (ar_plan r) with
  | None => s' = s ∧ a = Err Aborted
  | Some (Err _) => s' = s ∧ answers 400 a
  | Some (Ok plan) =>
      let profiled := imap (timed now (simulated_timings r)) (steps plan) in
      (∃ out, a = Ok out ∧ QueryLog.Profile.profile_steps (QueryLog.Profile.an_profile out) = profiled) ∧
      s' = set_planner (mkPlanner (Planner.config (planner s))
             (foldl (QueryLog.Profile.feed cr up) (planner_stats (planner s)) (imap pair profiled))) s
  end.
Proof.
  cbv zeta. unfold query_explain_analyze_handler, planned, explain.
  destruct (optimize (planner s) (ar_plan r)) as [[plan|e]|] eqn:Eo.
  - unfold mbind, sr_bind, sr_read. rewrite Eo. cbn [option_bind map_err fmap result_fmap].
    rewrite record_all. cbn [sr_get].
    unfold QueryLog.Profile.finish. rewrite filled_all. cbn [sr_modify mret sr_ret].
    split; [|done]. by eexists.
  - unfold mbind, sr_bind, sr_read. rewrite Eo. cbn [option_bind map_err fmap result_fmap]. split; [done|]. by eexists.
  - unfold mbind, sr_bind, sr_read. rewrite Eo. done.
Qed.

End frames.

(** ** Witnesses *)

Module Witness.
Import ApiExample.

Lemma octad_endpoints_witness :
  ∃ o st, (create_octad_handler api_cfg c1 note app).2 = Ok o ∧
    octads (octad_store (create_octad_handler api_cfg c1 note app).1) = <["e1" := st]> ∅.
Proof.
  destruct (octad_endpoints api_cfg app c1 "e1" note (app_fresh 1)) as [Ho _].
  destruct (create_octad_handler api_cfg c1 note app) as [s' a] eqn:E. cbn [to_octad_input note req_temporal] in Ho.
  destruct Ho as [(o & st & -> & _ & Hr)|[_ (e & -> & _)]]; [by exists o, st|].
  exfalso. apply (f_equal (is_ok ∘ snd)) in E. vm_compute in E. discriminate.
Defined.

Lemma octads_read_back_witness :
  ∃ resp, get_octad_handler api_cfg "e1" None (create_octad_handler api_cfg c1 note app).1 =
    ((create_octad_handler api_cfg c1 note app).1, Ok resp).
Proof.
  destruct (create_octad_handler api_cfg c1 note app) as [s' [resp|e]] eqn:E.
  - exists resp. apply (octads_read_back api_cfg app s' c1 note resp "e1" c2 app app None); [done| |done|done].
    change (Versions.wf "e1" (temporal_st (octad_store app))). split; [|done]. intros i k v Hi. by destruct i.
  - exfalso. apply (f_equal (is_ok ∘ snd)) in E. vm_compute in E. discriminate.
Defined.





End Witness.
