(* ===== verification/VclExecTheorems.v ===== *)
(** Properties of VCL execution: which statements can abort the server, that
    only INSERT and DELETE change anything, what INSERT stores, and what COUNT
    counts. *)

From Stdlib Require Import Strings.Ascii.
From S2P Require Import Prelude Machine Text Float64 Collections LockTable Transaction TransactionSteps Provenance WalEntry Format WalSegment WalReader WalWriter OctadTypes Modalities ModalityStores OctadStore OctadOutcomes Lexing.
From S2P Require PlanCache Drift Normalizer.
From S2P Require Import ApiTypes Api Vcl.
From S2P Require ApiExample.

Local Open Scope string_scope.
Local Open Scope Z_scope.

(** ** Quotes *)

(** The two flags after reading [s]. *)
Fixpoint scan (s : string) (sq dq : bool) : bool * bool :=
  match s with
  | "" => (sq, dq)
  | String a s =>
      if Ascii.eqb a squote_char && negb dq then scan s (negb sq) dq
      else if Ascii.eqb a dquote_char && negb sq then scan s sq (negb dq)
      else scan s sq dq
  end.

(** Every quote that is opened is closed. *)
Definition closed (s : string) : Prop := scan s false false = (false, false).

Lemma append_cons a s t : String a s +:+ t = String a (s +:+ t).
Proof. done. Qed.
Lemma string_app_assoc s t u : (s +:+ t) +:+ u = s +:+ (t +:+ u).
Proof. induction s as [|a s IH]; [done|]. by rewrite !append_cons, IH. Qed.

Lemma scan_app s t sq dq : scan (s +:+ t) sq dq = scan t (scan s sq dq).1 (scan s sq dq).2.
Proof.
  revert sq dq. induction s as [|a s IH]; intros sq dq; [done|]. rewrite append_cons. cbn [scan].
  repeat case_match; apply IH.
Qed.

(** A character that is no quote keeps the flags. *)
Definition not_quote (a : ascii) : bool := negb (Ascii.eqb a squote_char) && negb (Ascii.eqb a dquote_char).

Lemma scan_not_quote a s sq dq : not_quote a = true → scan (String a s) sq dq = scan s sq dq.
Proof. unfold not_quote. cbn [scan]. by destruct (Ascii.eqb a squote_char), (Ascii.eqb a dquote_char). Qed.

Lemma separator_no_quote a : is_separator a = true → not_quote a = true.
Proof. unfold is_separator. rewrite bool_decide_eq_true. set_solver. Qed.

Lemma flush_forall (P : string → Prop) cur l : P cur → Forall P l → Forall P (flush cur l).
Proof. unfold flush. destruct (PlanCache.nonempty cur); auto. Qed.

(** The tokens of a text without open quotes have none. *)
Lemma tokens_from_closed s cur sq dq :
  scan cur false false = (sq, dq) → scan s sq dq = (false, false) → Forall closed (tokens_from s cur sq dq).
Proof.
  revert cur sq dq. induction s as [|a s IH]; intros cur sq dq Hc Hs; cbn [tokens_from].
  { cbn in Hs. injection Hs as -> ->. by apply flush_forall. }
  cbn [scan] in Hs.
  assert (∀ sq' dq', scan (String a "") sq dq = (sq', dq') → scan (cur +:+ String a "") false false = (sq', dq')) as Hn.
  { intros sq' dq' <-. by rewrite scan_app, Hc. }
  cbn [scan] in Hn.
  destruct (Ascii.eqb a squote_char && negb dq) eqn:E1; [apply IH; [by apply Hn|done]|].
  destruct (Ascii.eqb a dquote_char && negb sq) eqn:E2; [apply IH; [by apply Hn|done]|].
  destruct (is_separator a && negb sq && negb dq) eqn:E3; [|apply IH; [by apply Hn|done]].
  apply andb_true_iff in E3 as [[_ Esq]%andb_true_iff Edq]. apply negb_true_iff in Esq, Edq. subst sq dq.
  apply flush_forall; [done|]. by apply IH.
Qed.

Lemma tokenize_closed s : closed s → Forall closed (tokenize s).
Proof. by apply tokens_from_closed. Qed.

(** Only a lone quote cannot be unquoted. *)
Lemma unquote_lone t : unquote t = None → t = "'" ∨ t = dquote.
Proof.
  unfold unquote. destruct (enclosed squote_char t || enclosed dquote_char t) eqn:Ee; [|done].
  destruct t as [|a [|b t]]; cbn [String.length Nat.ltb Nat.leb]; [done| |done].
  intros _. cbn in Ee. rewrite orb_true_iff, !andb_true_iff, !Ascii.eqb_eq in Ee.
  destruct Ee as [[-> _]|[-> _]]; [by left|by right].
Qed.

Lemma unquote_closed t : closed t → is_Some (unquote t).
Proof. intros Hc. destruct (unquote t) eqn:Eu; [done|]. by destruct (unquote_lone t Eu) as [-> | ->]. Qed.

(** ** Quoted values *)

(** No single quote, so that quotes can enclose it. *)
Definition quotable (t : string) : bool := is_ascii t && all_ascii (λ a, negb (Ascii.eqb a squote_char)) t.

(** Inside single quotes everything up to the next one is taken. *)
Lemma tokens_inside t cur rest :
  all_ascii (λ a, negb (Ascii.eqb a squote_char)) t = true →
  tokens_from (t +:+ rest) cur true false = tokens_from rest (cur +:+ t) true false.
Proof.
  revert cur. induction t as [|a t IH]; intros cur Ht; [by rewrite string_app_nil_r|].
  cbn [all_ascii] in Ht. apply andb_true_iff in Ht as [Ha Ht]. apply negb_true_iff in Ha.
  rewrite append_cons. cbn [tokens_from]. rewrite Ha, !andb_false_r. cbn [andb].
  rewrite IH by done. by rewrite string_app_assoc.
Qed.

Lemma last_char_app s a : last_char (s +:+ String a "") = Some a.
Proof.
  induction s as [|b s IH]; [done|]. rewrite append_cons. destruct s as [|b' s]; [done|].
  rewrite append_cons in *. exact IH.
Qed.

Lemma substring_front s t : String.substring 0 (String.length s) (s +:+ t) = s.
Proof. induction s as [|a s IH]; [by destruct t|]. rewrite append_cons. cbn. by rewrite IH. Qed.

Lemma unquote_quoted t : unquote ("'" +:+ (t +:+ "'")) = Some t.
Proof.
  change ("'" +:+ (t +:+ "'")) with (String "'" (t +:+ "'")). unfold unquote. cbn [enclosed].
  pose proof (last_char_app ("'" +:+ t) "'"%char) as Hl. rewrite append_cons in Hl. change ("" +:+ t) with t in Hl.
  rewrite append_cons in Hl. rewrite Hl. change ("'"%char =? squote_char)%char with true. cbn [andb orb String.length].
  rewrite string_app_length. cbn [String.length]. rewrite Nat.add_1_r.
  change (S (S (String.length t)) <? 2)%nat with false. cbn [Nat.sub String.substring]. rewrite Nat.sub_0_r.
  by rewrite substring_front.
Qed.

(** ** Trimming keeps quotes *)

Lemma whitespace_scan c sq dq : is_whitespace c = true → scan c sq dq = (sq, dq).
Proof.
  assert (∀ a, not_quote a = false → PlanCache.ws1 a = false) as H1.
  { intros a. unfold not_quote. rewrite andb_false_iff, !negb_false_iff, !Ascii.eqb_eq. by intros [-> | ->]. }
  assert (∀ a, not_quote a = true ∨ not_quote a = false) as Hd by (intros a; destruct (not_quote a); auto).
  destruct c as [|a [|b [|d [|]]]]; cbn [is_whitespace]; try done; intros Hw.
  - destruct (Hd a) as [Ha|Ha]; [by rewrite scan_not_quote|]. by rewrite (H1 a Ha) in Hw.
  - unfold PlanCache.ws2 in Hw. destruct (Hd a) as [Ha|Ha].
    2: { unfold not_quote in Ha. rewrite andb_false_iff, !negb_false_iff, !Ascii.eqb_eq in Ha. by destruct Ha as [-> | ->]. }
    destruct (Hd b) as [Hb|Hb]; [by rewrite !scan_not_quote|].
    unfold not_quote in Hb. rewrite andb_false_iff, !negb_false_iff, !Ascii.eqb_eq in Hb.
    destruct Hb as [-> | ->]; by rewrite andb_false_r in Hw.
  - unfold PlanCache.ws3 in Hw. destruct (Hd a) as [Ha|Ha].
    2: { unfold not_quote in Ha. rewrite andb_false_iff, !negb_false_iff, !Ascii.eqb_eq in Ha. by destruct Ha as [-> | ->]. }
    destruct (Hd b) as [Hb|Hb].
    2: { unfold not_quote in Hb. rewrite andb_false_iff, !negb_false_iff, !Ascii.eqb_eq in Hb.
         destruct Hb as [-> | ->]; cbn in Hw; by rewrite !andb_false_r in Hw. }
    destruct (Hd d) as [Hc|Hc]; [by rewrite !scan_not_quote|].
    unfold not_quote in Hc. rewrite andb_false_iff, !negb_false_iff, !Ascii.eqb_eq in Hc.
    destruct Hc as [-> | ->]; cbn in Hw; by rewrite !andb_false_r in Hw.
Qed.

Lemma whitespaces_scan w sq dq : Forall (λ c, is_whitespace c = true) w → scan (cat w) sq dq = (sq, dq).
Proof.
  induction 1 as [|c w Hc Hw IH]; [done|]. rewrite cat_cons, scan_app, (whitespace_scan c) by done. apply IH.
Qed.

Lemma closed_trim s : closed s → closed (trim s).
Proof.
  unfold closed, trim. intros Hc. destruct (trim_start_split is_whitespace s) as (w & E & Hw).
  destruct (trim_end_split is_whitespace (trim_start is_whitespace s)) as (w' & E' & Hw').
  rewrite E, scan_app, (whitespaces_scan w) in Hc by done. cbn [fst snd] in Hc.
  rewrite E', scan_app, (whitespaces_scan w') in Hc by done. by rewrite <- Hc, <- surjective_pairing.
Qed.

(** ** Statements that cannot abort *)

Section statements.
Context `{C : Chrono} `{K : Crc32} `{R : ReadDir} `{SI : SetIter} `{E : !OctadEnv} `{M : !Modalities}.
Context `{MI : MapIter} `{DI : Drift.DriftIter} `{A : ApiEnv} `{U : UnicodeCase}.
Context (datetime_json : DateTime → string) (config : ApiConfig).
Implicit Types (s : AppState (M:=M)).

Definition spared (e : Fault) : Prop := e ≠ Aborted.
Abbreviation Spares m := (Fails (S := AppState (M:=M)) spared m).

#[local] Instance spares_read {T} (f : AppState (M:=M) → result Fault T) : (∀ s, f s ≠ Err Aborted) → Spares (sr_read f).
Proof. intros Hf s s' e. unfold sr_read. intros [= <- He] ->. by destruct (Hf s). Qed.
#[local] Instance spares_checked {T} (r : result ApiError T) : Spares (checked r).
Proof. apply spares_read. intros s. by destruct r. Qed.
#[local] Instance spares_found {T} m (o : option T) : Spares (found m o).
Proof. unfold found. apply _. Qed.
#[local] Instance spares_store_read {T} (f : OctadStore M → result OctadError T) : Spares (store_read f).
Proof. apply spares_read. intros s. by destruct (f _). Qed.
#[local] Instance spares_store_op {T} f (m : SR (OctadStore M) OctadError T) : Spares (store_op f m).
Proof. unfold store_op. apply fails_map_err. by intros e. Qed.
#[local] Instance spares_refuse {T} e : Spares (refuse e : SR _ Fault T).
Proof. by apply fails_fail. Qed.
#[local] Instance spares_listed limit offset : Spares (listed config limit offset).
Proof. unfold listed. apply _. Qed.
#[local] Instance spares_metrics : Spares drift_metrics.
Proof. by apply spares_read. Qed.
#[local] Instance spares_get : Spares sr_get.
Proof. done. Qed.
Lemma spares_some {T} (o : option T) : is_Some o → Spares (or_abort o).
Proof. intros [x ->]. apply _. Qed.

Lemma where_value_in tokens v : where_value tokens = Some v → v ∈ tokens.
Proof.
  induction tokens as [|t tokens IH]; [done|]. destruct tokens as [|a [|b [|w rest]]]; try done.
  cbn [where_value]. case_match; [intros [= ->]; set_solver|]. intros Hw. right. by apply IH.
Qed.
Lemma by_predicate_in tokens v : by_predicate tokens = Some v → v ∈ tokens.
Proof.
  induction tokens as [|t tokens IH]; [done|]. cbn [by_predicate]. case_match; [|set_solver].
  destruct tokens; [done|]. intros [= ->]. set_solver.
Qed.

Lemma spares_where tokens : Forall closed tokens → Spares (find_where_id tokens).
Proof.
  intros Hc. unfold find_where_id. destruct (where_value tokens) as [v|] eqn:Ev; [|apply _].
  apply fails_bind; [|apply _]. apply spares_some, unquote_closed. rewrite Forall_forall in Hc.
  by apply Hc, where_value_in.
Qed.

Lemma limit_from_spec i tokens n j :
  limit_from i tokens = Some (n, j) → ∃ k t, j = (i + k)%nat ∧ tokens !! k = Some t ∧ is_word "LIMIT" t = true.
Proof.
  revert i. induction tokens as [|t tokens IH]; intros i; [done|]. destruct tokens as [|x rest]; [done|].
  cbn [limit_from]. destruct (is_word "LIMIT" t) eqn:Et.
  - destruct (parse_u64 x); [intros [= _ <-]; exists 0%nat, t; split_and!; [lia|done..]|].
    intros (k & u & -> & ? & ?)%IH. exists (S k), u. split_and!; [lia|done..].
  - intros (k & u & -> & ? & ?)%IH. exists (S k), u. split_and!; [lia|done..].
Qed.

(** The slice between VECTOR and LIMIT is in range. *)
Lemma vector_slice t kind arg rest :
  str_upper t = "SEARCH" → is_word "VECTOR" kind = true →
  let tokens := t :: kind :: arg :: rest in is_Some (join_slice 2 (parse_limit tokens).2 tokens).
Proof.
  intros Ht Hk tokens. unfold join_slice, parse_limit.
  destruct (limit_from 0 tokens) as [[n j]|] eqn:El; cbn [from_option Datatypes.id snd].
  - apply limit_from_spec in El as (k & u & -> & Hu & Hw). pose proof (lookup_lt_Some _ _ _ Hu).
    destruct k as [|[|k]].
    + injection Hu as <-. unfold is_word in Hw. by rewrite Ht in Hw.
    + injection Hu as <-. unfold is_word in *. apply String.eqb_eq in Hw, Hk. congruence.
    + assert ((0 + S (S k) <=? length tokens)%nat = true) as -> by (apply Nat.leb_le; lia). done.
  - rewrite Nat.leb_refl. done.
Qed.

(** [tokens] are a text search, and the search of the document store panics. *)
Definition search_panics s (tokens : list string) : Prop :=
  ∃ t kind arg rest text, tokens = t :: kind :: arg :: rest ∧ is_word "SEARCH" t = true ∧
    is_word "TEXT" kind = true ∧ unquote arg = Some text ∧
    document_search text (parse_limit tokens).1 (document_st (octad_store s)) = None.

(** Only the search itself aborts a text search of a closed argument. *)
Lemma search_text_aborts tokens arg text s :
  unquote arg = Some text →
  (search_text_stmt config tokens arg s).2 = Err Aborted ↔
  document_search text (parse_limit tokens).1 (document_st (octad_store s)) = None.
Proof.
  intros Hu. unfold search_text_stmt. rewrite Hu. unfold store_search, search_text, mbind, sr_bind, sr_read.
  cbn [or_abort mret sr_ret]. destruct (document_search _ _ _) as [r|]; cbn [mbind option_bind]; [|done].
  match goal with |- context [map_err (λ e, Refused (internal e)) ?x] => destruct x end; cbn; by split.
Qed.

Lemma spares_search t tokens :
  str_upper t = "SEARCH" → Forall closed (t :: tokens) →
  ∀ s, (execute_search config (t :: tokens) s).2 = Err Aborted ↔ search_panics s (t :: tokens).
Proof.
  intros Ht Hc. assert (Hnot : (head tokens ≫= λ k, tokens !! 1%nat ≫= λ _, Some (is_word "TEXT" k)) ≠ Some true →
    Spares (execute_search config (t :: tokens)) → ∀ s, (execute_search config (t :: tokens) s).2 = Err Aborted ↔ search_panics s (t :: tokens)).
  { intros Hk Hs s. split.
    - intros Ha. exfalso. destruct (execute_search _ _ s) as [s' r] eqn:Er. cbn in Ha. subst r. by apply (Hs s s' Aborted Er).
    - intros (t' & kind & arg & rest & text & [= -> ->] & _ & Hkind & _). cbn in Hk. congruence. }
  unfold execute_search in *. destruct tokens as [|kind [|arg rest]]; [apply Hnot; [done|apply _]..|].
  pose proof Hc as [_ [_ [Ha _]%Forall_cons_1]%Forall_cons_1]%Forall_cons_1.
  destruct (unquote_closed arg Ha) as [text Hu].
  assert (Spares (or_abort (unquote arg))) by by apply spares_some.
  destruct (is_word "TEXT" kind) eqn:Etext.
  { intros s. rewrite (search_text_aborts _ _ text) by done. split.
    - intros Hd. exists t, kind, arg, rest, text. split_and!; try done. unfold is_word. by rewrite Ht.
    - intros (t' & kind' & arg' & rest' & text' & [= <- <- <- <-] & _ & _ & Hu' & Hd). congruence. }
  apply Hnot; [cbn; by rewrite Etext|].
  destruct (is_word "VECTOR" kind) eqn:Ek; [|destruct (is_word "RELATED" kind); [|apply _]].
  - unfold search_vector_stmt. pose proof (vector_slice t kind arg rest Ht Ek) as Hv. cbv zeta in Hv.
    destruct (parse_limit _) as [limit idx]. cbn [snd] in Hv. pose proof (spares_some _ Hv). apply _.
  - unfold search_related_stmt. apply fails_bind; [apply _|]. intros id. apply fails_bind; [|apply _].
    destruct (by_predicate _) as [p|] eqn:Ep; [|apply _]. apply spares_some, unquote_closed.
    rewrite Forall_forall in Hc. by apply Hc, by_predicate_in.
Qed.

Lemma spares_show c uptime tokens : Spares (execute_show datetime_json config c uptime tokens).
Proof.
  unfold execute_show, show_status, normalizer_status_handler. destruct tokens as [|t [|what rest]]; [apply _..|].
  repeat case_match; try apply _.
  - apply fails_bind; [apply _|]. intros s. case_match. apply _.
  - apply fails_bind; [by apply spares_read|apply _].
Qed.

(** *** EXPLAIN *)

(** The first token starts the text. *)
Lemma first_token (s : string) cur sq dq t l :
  tokens_from s cur sq dq = t :: l → (cur = "" → match s with "" => True | String a _ => is_separator a && negb sq && negb dq = false end) →
  ∃ rest, cur +:+ s = t +:+ rest.
Proof.
  revert cur sq dq. induction s as [|a s IH]; intros cur sq dq Ht Hh; cbn [tokens_from] in Ht.
  { unfold flush in Ht. destruct cur; [done|]. injection Ht as <- _. by eexists. }
  assert (∀ sq' dq', tokens_from s (cur +:+ String a "") sq' dq' = t :: l → ∃ rest, cur +:+ String a s = t +:+ rest) as Hn.
  { intros sq' dq' H. destruct (IH _ _ _ H) as [rest Hr]; [by destruct cur|]. exists rest.
    rewrite <- Hr, string_app_assoc. done. }
  destruct (Ascii.eqb a squote_char && negb dq); [by eapply Hn|].
  destruct (Ascii.eqb a dquote_char && negb sq); [by eapply Hn|].
  destruct (is_separator a && negb sq && negb dq) eqn:Es; [|by eapply Hn].
  destruct cur as [|b cur]; [by specialize (Hh eq_refl)|]. cbn [flush PlanCache.nonempty] in Ht.
  injection Ht as <- _. by eexists.
Qed.

Lemma map_ascii_app f (s t : string) : map_ascii f (s +:+ t) = map_ascii f s +:+ map_ascii f t.
Proof.
  induction s as [|a s IH]; [done|]. rewrite append_cons.
  change (String (f a) (map_ascii f (s +:+ t)) = String (f a) (map_ascii f s +:+ map_ascii f t)). by rewrite IH.
Qed.
Lemma map_ascii_length f (s : string) : String.length (map_ascii f s) = String.length s.
Proof. induction s as [|a s IH]; [done|]. cbn. by rewrite IH. Qed.

Definition starts_clean (s : string) : Prop := match s with "" => True | String a _ => is_separator a = false end.

Lemma separator_whitespace a : is_separator a = true → is_whitespace (String a "") = true.
Proof. unfold is_separator. rewrite bool_decide_eq_true. set_solver. Qed.

Lemma trim_clean (s : string) : is_ascii s = true → starts_clean (trim s).
Proof.
  intros Hs. destruct (trim s) as [|a r] eqn:Et; [done|]. cbn. pose proof (trim_head a s r Hs Et) as Hw.
  destruct (is_separator a) eqn:Ea; [|done]. by rewrite (separator_whitespace a Ea) in Hw.
Qed.

Context `{!UnicodeCaseLaws U}.

(** Where the explained statement starts. *)
Lemma explained_rest raw t tokens :
  is_ascii raw = true → starts_clean raw → tokenize raw = t :: tokens → str_upper t = "EXPLAIN" →
  ∃ rest, raw = t +:+ rest ∧ is_ascii rest = true ∧ find_str "EXPLAIN" (str_upper raw) = Some 0%nat ∧
    slice_from 7 raw = Some rest.
Proof.
  intros Ha Hh Ht Hu. destruct (first_token raw "" false false t tokens Ht) as [rest Hr].
  { intros _. destruct raw; [done|]. cbn in Hh. by rewrite Hh. }
  change (raw = t +:+ rest) in Hr. exists rest. pose proof Ha as Ha'. rewrite Hr, is_ascii_app in Ha'.
  apply andb_true_iff in Ha' as [Hta Hra]. rewrite str_upper_ascii in Hu by done. split_and!; [done..| |].
  - rewrite (str_upper_ascii raw Ha), Hr, map_ascii_app, Hu.
    by destruct (map_ascii ascii_upper rest).
  - pose proof (map_ascii_length ascii_upper t) as Hl. rewrite Hu in Hl. rewrite Hr.
    change 7%nat with (String.length "EXPLAIN"). rewrite Hl. by apply slice_from_app.
Qed.

Lemma spares_explain raw t tokens :
  is_ascii raw = true → starts_clean raw → closed raw → tokenize raw = t :: tokens → str_upper t = "EXPLAIN" →
  Spares (execute_explain (t :: tokens) raw).
Proof.
  intros Ha Hh Hc Ht Hu. unfold execute_explain. destruct tokens as [|t2 tokens]; [apply _|].
  destruct (explained_rest raw t (t2 :: tokens)) as (rest & Hr & Hra & -> & Hs); [done..|].
  change (0 + 7)%nat with 7%nat. intros s s' e. cbn [or_abort]. unfold mbind at 1, sr_bind at 1.
  cbn [mret sr_ret Nat.add]. rewrite Hs. unfold mbind at 1, sr_bind at 1. cbn [or_abort mret sr_ret].
  assert (Forall closed (tokenize (trim rest))) as Hcl.
  { apply tokenize_closed, closed_trim. unfold closed in *. rewrite Hr, scan_app in Hc.
    pose proof (tokenize_closed raw) as Htc. unfold closed at 1 in Htc. rewrite Hr, scan_app in Htc.
    specialize (Htc Hc). rewrite <- Hr, Ht in Htc. apply Forall_cons_1 in Htc as [Htc _].
    unfold closed in Htc. by rewrite Htc in Hc. }
  destruct (tokenize (trim rest)) as [|t' l]; [by intros [= _ <-]|].
  pose proof (spares_where _ Hcl). revert s s' e. apply fails_bind; apply _.
Qed.

(** A lone quote where the text of a search is expected. *)
Lemma lone_quote_aborts t kind arg rest s :
  is_word "TEXT" kind = true ∨ is_word "RELATED" kind = true → unquote arg = None →
  (execute_search config (t :: kind :: arg :: rest) s).2 = Err Aborted.
Proof.
  intros Hk Hu. unfold execute_search, search_text_stmt, search_related_stmt. rewrite Hu.
  assert (is_word "RELATED" kind = true → is_word "VECTOR" kind = false) as Hv.
  { unfold is_word. intros ->%String.eqb_eq. done. }
  destruct (is_word "TEXT" kind); [done|]. destruct Hk as [|Hk]; [done|]. by rewrite Hv, Hk.
Qed.

Lemma spared_not {T} (m : SR (AppState (M:=M)) Fault T) s : Spares m → (m s).2 ≠ Err Aborted.
Proof. intros Hm Ha. destruct (m s) as [s' r] eqn:Er. cbn in Ha. subst r. by apply (Hm s s' Aborted Er). Qed.

(** The handler aborts when the statement it routes to does. *)
Lemma handler_aborts c uptime typell query s :
  (vcl_execute_handler datetime_json config c uptime typell query s).2 = Err Aborted ↔
  match tokenize (statement_text query) with
  | [] => False
  | t :: l => (route datetime_json config c uptime (str_upper t) (t :: l) (statement_text query) s).2 = Err Aborted
  end.
Proof.
  unfold vcl_execute_handler. destruct (PlanCache.nonempty (trim query)) eqn:En.
  - unfold mbind at 1, sr_bind at 1. cbn [checked sr_read map_err mbind result_bind].
    destruct (tokenize _) as [|t l]; [done|]. unfold mbind, sr_bind, checked, sr_read. cbn [map_err].
    destruct (route _ _ _ _ _ _ _ s) as [s' [r|e]]; by split.
  - assert (trim query = "") as Eq by by destruct (trim query). unfold statement_text. by rewrite Eq.
Qed.

(** C20 (what aborts the server).  An ASCII statement whose quotes are all
    closed, INSERT apart, aborts the server exactly when it is a text search and
    the search of the document store panics, which it does with LIMIT 0 for every
    text that parses ([Documents.search_limit_zero]); an ASCII SEARCH TEXT or
    SEARCH RELATED whose argument is a lone quote aborts it in every state.
    (Other operations of the stores are taken not to panic; see [Modalities].) *)
Theorem vcl_aborts_iff c uptime typell query s :
  is_ascii query = true →
  (closed (statement_text query) →
   head (str_upper <$> tokenize (statement_text query)) ≠ Some "INSERT" →
   (vcl_execute_handler datetime_json config c uptime typell query s).2 = Err Aborted ↔
   search_panics s (tokenize (statement_text query))) ∧
  (∀ t kind arg rest, tokenize (statement_text query) = t :: kind :: arg :: rest →
   is_word "SEARCH" t = true → is_word "TEXT" kind = true ∨ is_word "RELATED" kind = true →
   arg = "'" ∨ arg = String dquote_char "" →
   (vcl_execute_handler datetime_json config c uptime typell query s).2 = Err Aborted).
Proof.
  intros Ha. set (raw := statement_text query) in *.
  assert (is_ascii raw = true ∧ starts_clean raw) as [Hra Hrh].
  { unfold raw, statement_text. split; [|apply trim_clean]; repeat (apply is_ascii_trim || apply is_ascii_trim_end); done. }
  rewrite (handler_aborts c uptime typell query s). fold raw. split.
  - intros Hc Hi. pose proof (tokenize_closed raw Hc) as Hcl.
    destruct (tokenize raw) as [|t tokens] eqn:Et; [split; [done|by intros (?&?&?&?&?&?&?)]|].
    unfold route. destruct (String.eqb_spec (str_upper t) "SEARCH") as [Eq|Eq].
    { rewrite Eq. cbn. by apply spares_search. }
    split; [|intros (t' & ? & ? & ? & ? & [= <- _] & Hs & _); unfold is_word in Hs; by apply String.eqb_eq in Hs].
    intros Hab. exfalso. revert Hab. apply spared_not. destruct (String.eqb_spec (str_upper t) "SELECT").
    { unfold execute_select. apply fails_bind; [by apply spares_where|]. intros []; apply _. }
    destruct (String.eqb_spec (str_upper t) "INSERT") as [Ei|]; [by rewrite <- Ei in Hi|].
    destruct (String.eqb_spec (str_upper t) "DELETE").
    { unfold execute_delete. apply fails_bind; [by apply spares_where|]. intros id. apply _. }
    destruct (String.eqb_spec (str_upper t) "SHOW"); [apply spares_show|].
    destruct (String.eqb_spec (str_upper t) "COUNT"); [unfold execute_count; apply _|].
    destruct (String.eqb_spec (str_upper t) "EXPLAIN"); [by apply spares_explain|apply _].
  - intros t kind arg rest Et Hs Hk Hq. apply handler_aborts. fold raw. rewrite Et. unfold route.
    unfold is_word in Hs. apply String.eqb_eq in Hs. rewrite Hs. cbn.
    apply lone_quote_aborts; [done|]. by destruct Hq as [-> | ->].
Qed.

End statements.

(** ** What INSERT stores *)

(** The statement as the documentation writes it. *)
Definition insert_text (t b : string) : string :=
  cat ["INSERT INTO octads (title, body) VALUES ('"; t; "', '"; b; "')"].

(** The values between the parentheses. *)
Definition values_of (t b : string) : string := "'" +:+ (t +:+ ("', '" +:+ (b +:+ "'"))).

(** Commas become blanks. *)
Definition blanked (t : string) : string := replace_char "," " " t.

Lemma insert_text_eq t b :
  insert_text t b = "INSERT INTO octads (title, body) VALUES" +:+ (" (" +:+ (values_of t b +:+ ")")).
Proof.
  unfold values_of. by rewrite !string_app_assoc.
Qed.

Lemma blanked_app s t : blanked (s +:+ t) = blanked s +:+ blanked t.
Proof.
  unfold blanked. induction s as [|a s IH]; [done|]. rewrite append_cons.
  cbn [replace_char]. by rewrite IH.
Qed.

Lemma blanked_no_quote t :
  all_ascii (λ a, negb (Ascii.eqb a squote_char)) t = true →
  all_ascii (λ a, negb (Ascii.eqb a squote_char)) (blanked t) = true.
Proof.
  unfold blanked. induction t as [|a t IH]; [done|]. cbn [all_ascii replace_char].
  intros [Ha Ht]%andb_true_iff. rewrite IH by done. rewrite andb_true_r. by case_match.
Qed.

Lemma quotable_split t : quotable t = true → is_ascii t = true ∧ all_ascii (λ a, negb (Ascii.eqb a squote_char)) t = true.
Proof. apply andb_true_iff. Qed.

Lemma is_ascii_values t b : is_ascii t = true → is_ascii b = true → is_ascii (values_of t b) = true.
Proof. intros Ht Hb. unfold values_of. by rewrite !is_ascii_app, Ht, Hb. Qed.

Lemma values_text_plain t b :
  is_ascii t = true → is_ascii b = true →
  values_text (" (" +:+ (values_of t b +:+ ")")) = "'" +:+ (blanked t +:+ ("'  '" +:+ (blanked b +:+ "'"))).
Proof.
  intros Ht Hb. pose proof (is_ascii_values t b Ht Hb) as Hv. unfold values_text, trim.
  set (v := values_of t b) in *.
  assert (is_ascii (v +:+ ")") = true) as Hv1 by by rewrite is_ascii_app, Hv.
  change (" (" +:+ (v +:+ ")")) with (String " " (String "(" (v +:+ ")"))).
  rewrite trim_start_drops, trim_start_stays by done.
  change (String "(" (v +:+ ")")) with (String "(" v +:+ String ")" "").
  rewrite trim_end_stays by done.
  change (String "(" v +:+ String ")" "") with (String "(" (v +:+ ")")).
  assert (v +:+ ")" = String "'" ((t +:+ ("', '" +:+ (b +:+ "'"))) +:+ ")")) as Hv2 by done.
  rewrite (trim_start_drops _ "("%char) by done. rewrite Hv2, trim_start_stays by (rewrite <- ?Hv2; done). rewrite <- Hv2.
  change (v +:+ ")") with (v +:+ String ")" ""). rewrite trim_end_drops by done.
  assert (v = ("'" +:+ (t +:+ ("', '" +:+ b))) +:+ String "'" "") as Hv3.
  { unfold v, values_of. by rewrite !string_app_assoc. }
  rewrite Hv3, trim_end_stays by (rewrite <- ?Hv3; done). rewrite <- Hv3.
  change (blanked v = "'" +:+ (blanked t +:+ ("'  '" +:+ (blanked b +:+ "'")))).
  unfold v, values_of. by rewrite !blanked_app.
Qed.

Lemma tokenize_values u v :
  all_ascii (λ a, negb (Ascii.eqb a squote_char)) u = true →
  all_ascii (λ a, negb (Ascii.eqb a squote_char)) v = true →
  tokenize ("'" +:+ (u +:+ ("'  '" +:+ (v +:+ "'")))) = ["'" +:+ (u +:+ "'"); "'" +:+ (v +:+ "'")].
Proof.
  intros Hu Hv. change (tokens_from (u +:+ ("'  '" +:+ (v +:+ "'"))) "'" true false = ["'" +:+ (u +:+ "'"); "'" +:+ (v +:+ "'")]).
  rewrite tokens_inside by done.
  assert (∀ w rest, tokens_from (String "'" rest) ("'" +:+ w) true false = tokens_from rest ("'" +:+ (w +:+ "'")) false false) as Hq.
  { intros w rest. cbn [tokens_from]. by rewrite string_app_assoc. }
  change ("'  '" +:+ (v +:+ "'")) with (String "'" ("  '" +:+ (v +:+ "'"))). rewrite Hq.
  change (flush ("'" +:+ (u +:+ "'")) (tokens_from (v +:+ "'") "'" true false) = ["'" +:+ (u +:+ "'"); "'" +:+ (v +:+ "'")]).
  change (tokens_from (v +:+ "'") "'" true false) with (tokens_from (v +:+ String "'" "") "'" true false).
  rewrite tokens_inside by done. rewrite Hq. done.
Qed.

Section insert.
Context `{C : Chrono} `{K : Crc32} `{R : ReadDir} `{SI : SetIter} `{E : !OctadEnv} `{M : !Modalities}.
Context `{MI : MapIter} `{DI : Drift.DriftIter} `{A : ApiEnv} `{U : UnicodeCase} `{!UnicodeCaseLaws U} `{F : !ParseRfc3339}.
Context (datetime_json : DateTime → string) (config : ApiConfig).
Implicit Types (x : AppState (M:=M)).

Lemma is_ascii_insert t b : is_ascii t = true → is_ascii b = true → is_ascii (insert_text t b) = true.
Proof. intros Ht Hb. rewrite insert_text_eq, !is_ascii_app, is_ascii_values by done. done. Qed.

Lemma insert_values_plain t b x :
  quotable t = true → quotable b = true → insert_values (insert_text t b) x = (x, Ok (blanked t, blanked b)).
Proof.
  intros [Ht Hqt]%quotable_split [Hb Hqb]%quotable_split. unfold insert_values, parse_insert_values.
  rewrite (str_upper_ascii _ (is_ascii_insert t b Ht Hb)), insert_text_eq, !map_ascii_app.
  change (map_ascii ascii_upper "INSERT INTO octads (title, body) VALUES") with "INSERT INTO OCTADS (TITLE, BODY) VALUES".
  assert (∀ r, starts_with "INSERT INTO" ("INSERT INTO OCTADS (TITLE, BODY) VALUES" +:+ r) = true) as -> by done.
  assert (∀ r, find_str "VALUES" ("INSERT INTO OCTADS (TITLE, BODY) VALUES" +:+ r) = Some 33%nat) as -> by by intros [].
  change (33 + 6)%nat with (String.length "INSERT INTO octads (title, body) VALUES").
  assert (is_ascii (" (" +:+ (values_of t b +:+ ")")) = true) as Hr by by rewrite !is_ascii_app, is_ascii_values.
  rewrite slice_from_app by done. unfold mbind at 1, sr_bind at 1. cbn [or_abort mret sr_ret].
  rewrite values_text_plain, tokenize_values by auto using blanked_no_quote.
  cbn [lookup list_lookup value_or_empty]. rewrite !unquote_quoted. done.
Qed.

Lemma insert_tokens t b : ∃ l, tokenize (insert_text t b) = "INSERT" :: l.
Proof.
  assert (∀ r, tokenize ("INSERT " +:+ r) = "INSERT" :: tokens_from r "" false false) as Hi by done.
  eexists. rewrite insert_text_eq. apply (Hi ("INTO octads (title, body) VALUES" +:+ (" (" +:+ (values_of t b +:+ ")")))).
Qed.

(** The statement is trimmed and has no semicolon at its end. *)
Lemma insert_statement t b :
  is_ascii t = true → is_ascii b = true → trim (insert_text t b) = insert_text t b ∧ statement_text (insert_text t b) = insert_text t b.
Proof.
  intros Ht Hb. pose proof (is_ascii_insert t b Ht Hb) as Ha.
  assert (∃ r, insert_text t b = String "I" r) as [r Hr] by (rewrite insert_text_eq; by eexists).
  assert (∃ r, insert_text t b = r +:+ String ")" "") as [r' Hr'].
  { exists ("INSERT INTO octads (title, body) VALUES" +:+ (" (" +:+ values_of t b)).
    by rewrite insert_text_eq, !string_app_assoc. }
  assert (trim (insert_text t b) = insert_text t b) as Htr.
  { unfold trim. rewrite Hr, trim_start_stays by (rewrite <- ?Hr; done). rewrite <- Hr, Hr', trim_end_stays by (rewrite <- ?Hr'; done). done. }
  split; [done|]. unfold statement_text. rewrite Htr, Hr', trim_end_stays by (rewrite <- ?Hr'; done). by rewrite <- Hr'.
Qed.

(** The request of the octad endpoint with the same document. *)
Definition document_request (t b : string) : OctadRequest :=
  mkOctadRequest (Some t) (Some b) None None None None None None None None.

(** C19 (INSERT is create).  The INSERT statement of the documentation, for a title
    and a body of ASCII characters without single quotes, is the octad endpoint's
    create, with every comma of the two texts turned into a blank: the same
    change of the state and the same octad, or the same error. *)
Theorem vcl_insert_is_create c uptime typell t b x :
  quotable t = true → quotable b = true →
  let '(x1, r1) := vcl_execute_handler datetime_json config c uptime typell (insert_text t b) x in
  let '(x2, r2) := create_octad_handler config c (document_request (blanked t) (blanked b)) x in
  x1 = x2 ∧
  match r1, r2 with
  | Ok v, Ok o => data v = VArray [response_value o] ∧ row_count v = 1%nat ∧
                  vcl_message v = Some (cat ["Inserted octad '"; res_id o; "'"])
  | Err e1, Err e2 => e1 = e2
  | _, _ => False
  end.
Proof.
  intros Ht Hb. destruct (quotable_split t Ht) as [Hat _]. destruct (quotable_split b Hb) as [Hab _].
  destruct (insert_statement t b Hat Hab) as [Htr Hst]. destruct (insert_tokens t b) as [l Hl].
  unfold vcl_execute_handler. rewrite Htr, Hst, Hl.
  assert (PlanCache.nonempty (insert_text t b) = true) as -> by by rewrite insert_text_eq.
  rewrite (str_upper_ascii "INSERT") by done. unfold route. change (map_ascii ascii_upper "INSERT") with "INSERT".
  change (String.eqb "INSERT" "SELECT") with false. change (String.eqb "INSERT" "SEARCH") with false.
  change (String.eqb "INSERT" "INSERT") with true. cbv iota.
  rewrite (sr_bind_step _ _ x x ()) by done. unfold create_octad_handler, execute_insert.
  rewrite (sr_bind_step _ _ x x (with_document (blanked t) (blanked b) input_default)) by done.
  unfold mbind, sr_bind. rewrite insert_values_plain by done. cbn [fst snd].
  destruct (store_op _ _ x) as [x1 [o|e]]; [|done]. cbn [mret sr_ret].
  by destruct (typell_report <$> typell (insert_text t b)) as [[[? ?] ?]|].
Qed.

(** ** What COUNT counts *)

Lemma load_all_length ids (st : OctadStore M) l :
  load_all (octad_config config) ids st = Ok l → (∀ i, i ∈ ids → is_Some (octads st !! i)) → length l = length ids.
Proof.
  revert l. induction ids as [|i ids IH]; intros l; cbn [load_all]; [by intros [= <-]|].
  intros (o & Ho & (l' & Hl & [= <-])%bind_Ok)%bind_Ok Hin.
  destruct (Hin i) as [st' Hi]; [by left|]. specialize (IH l' Hl (λ j Hj, Hin j (list_elem_of_further _ _ _ Hj))).
  unfold load_octad in Ho. rewrite Hi in Ho.
  repeat (apply bind_Ok in Ho as (? & _ & Ho)). injection Ho as <-. cbn. by rewrite IH.
Qed.

Lemma limit_from_bound i tokens n j : limit_from i tokens = Some (n, j) → (n ≤ 1000)%nat.
Proof.
  revert i. induction tokens as [|t tokens IH]; intros i; [done|]. destruct tokens as [|y rest]; [done|].
  cbn [limit_from]. destruct (is_word "LIMIT" t); [destruct (parse_u64 y)|]; [|apply IH..].
  intros [= <- _]. lia.
Qed.

(** COUNT is capped.  COUNT, when it answers, gives the number of registered
    octads, but never more than a thousand, and no LIMIT makes a SELECT return
    more rows than that. *)
Theorem vcl_count_capped `{!MapIterLaws MI} x x' v tokens :
  execute_count config x = (x', Ok v) →
  data v = VObject [("count", VUint (Z.min 1000 (Z.of_nat (size (octads (octad_store x))))))] ∧
  ((parse_limit tokens).1 ≤ 1000)%nat.
Proof.
  unfold execute_count, listed, list_octads, store_read, sr_read, mbind, sr_bind. rewrite drop_0.
  destruct (load_all _ _ _) as [l|e] eqn:El; [|done]. cbn. intros [= _ <-]. cbn [data answer]. split.
  - unfold nat_value. do 4 f_equal. rewrite (load_all_length _ _ _ El).
    + rewrite length_take, length_fmap, (Permutation_length (map_iter_perm _ _)), length_map_to_list. lia.
    + intros i Hi. rewrite elem_of_take in Hi. destruct Hi as (k & Hk%list_elem_of_lookup_2 & _).
      apply list_elem_of_fmap in Hk as ([k' st] & -> & Hk).
      rewrite (map_iter_perm _ _), elem_of_map_to_list in Hk. by eexists.
  - unfold parse_limit. destruct (limit_from 0 tokens) as [[n j]|] eqn:El'; cbn; [|lia]. by eapply limit_from_bound.
Qed.

(** ** What cannot change anything *)

#[local] Instance still_checked {T} (r : result ApiError T) : Keeps Datatypes.id (checked r : SR (AppState (M:=M)) Fault T).
Proof. unfold checked. apply _. Qed.
#[local] Instance still_found {T} msg (o : option T) : Keeps Datatypes.id (found msg o : SR (AppState (M:=M)) Fault T).
Proof. unfold found. apply _. Qed.
#[local] Instance still_read {T} (g : OctadStore M → result OctadError T) : Keeps Datatypes.id (store_read g).
Proof. unfold store_read. apply _. Qed.
#[local] Instance still_search {T} (g : OctadStore M → option (result OctadError T)) : Keeps Datatypes.id (store_search g).
Proof. unfold store_search. apply _. Qed.
#[local] Instance still_abort {T} (o : option T) : Keeps Datatypes.id (or_abort o : SR (AppState (M:=M)) Fault T).
Proof. unfold or_abort. destruct o; apply _. Qed.
#[local] Instance still_where tokens : Keeps Datatypes.id (find_where_id (M:=M) tokens).
Proof. unfold find_where_id. destruct (where_value tokens); apply _. Qed.
#[local] Instance still_refuse {T} e : Keeps Datatypes.id (refuse e : SR (AppState (M:=M)) Fault T).
Proof. unfold refuse. apply _. Qed.
#[local] Instance still_get : Keeps Datatypes.id (sr_get : SR (AppState (M:=M)) Fault _).
Proof. done. Qed.

(** Case analysis on the words of a statement. *)
Ltac statement_cases := repeat (apply _ || (apply keeps_bind; [apply _|intros ?]) || case_match).

(** Only INSERT and DELETE change anything.  Any other statement, well-formed
    or not, leaves the whole state of the application as it was. *)
Theorem vcl_reads_change_nothing c uptime typell query x :
  (∀ w, head (str_upper <$> tokenize (statement_text query)) = Some w → w ≠ "INSERT" ∧ w ≠ "DELETE") →
  (vcl_execute_handler datetime_json config c uptime typell query x).1 = x.
Proof.
  intros Hw. revert x. change (Keeps Datatypes.id (vcl_execute_handler (M:=M) datetime_json config c uptime typell query)).
  unfold vcl_execute_handler. apply keeps_bind; [apply _|]. intros _.
  destruct (tokenize (statement_text query)) as [|t tokens]; [apply _|]. specialize (Hw _ eq_refl) as [Hi Hd].
  apply keeps_bind; [|apply _]. unfold route.
  rewrite (proj2 (String.eqb_neq _ _) Hi), (proj2 (String.eqb_neq _ _) Hd).
  repeat case_match; unfold execute_select, execute_search, search_text_stmt, search_vector_stmt, search_related_stmt,
    execute_show, show_status, normalizer_status_handler, drift_metrics, execute_count, listed, execute_explain;
    statement_cases.
Qed.

End insert.

(** ** Witnesses *)

Module Witness.
Import ApiExample.

Definition run (query : string) := vcl_execute_handler (λ _, "") api_cfg c1 0 (λ _, None) query app.

(** A search with a limit of zero; one with another; a lone quote. *)
Lemma vcl_aborts_iff_witness :
  (run "SEARCH TEXT 'x' LIMIT 0;").2 = Err Aborted ∧ (run "SEARCH TEXT 'x' LIMIT 5").2 ≠ Err Aborted ∧
  (run "search related '").2 = Err Aborted.
Proof.
  destruct (vcl_aborts_iff (λ _, "") api_cfg c1 0 (λ _, None) "SEARCH TEXT 'x' LIMIT 0;" app eq_refl) as [H0 _].
  destruct (vcl_aborts_iff (λ _, "") api_cfg c1 0 (λ _, None) "SEARCH TEXT 'x' LIMIT 5" app eq_refl) as [H5 _].
  destruct (vcl_aborts_iff (λ _, "") api_cfg c1 0 (λ _, None) "search related '" app eq_refl) as [_ Hq].
  split_and!.
  - apply H0; [vm_compute; reflexivity|vm_compute; discriminate|].
    exists "SEARCH", "TEXT", "'x'", ["LIMIT"; "0"], "x". split_and!; vm_compute; reflexivity.
  - intros Ha. apply H5 in Ha; [|vm_compute; reflexivity|vm_compute; discriminate].
    destruct Ha as (t & kind & arg & rest & text & Ht & _ & _ & _ & Hd). vm_compute in Hd. discriminate.
  - apply (Hq "search" "related" "'" []); [vm_compute; reflexivity..|by right; vm_compute|by left].
Defined.

(** The comma of the title is lost. *)
Lemma vcl_insert_is_create_witness :
  (run "INSERT INTO octads (title, body) VALUES ('a,b', 'c')").1 =
  (create_octad_handler api_cfg c1 (document_request "a b" "c") app).1.
Proof.
  pose proof (vcl_insert_is_create (λ _, "") api_cfg c1 0 (λ _, None) "a,b" "c" app eq_refl eq_refl) as H.
  unfold run. change "INSERT INTO octads (title, body) VALUES ('a,b', 'c')" with (insert_text "a,b" "c").
  destruct (vcl_execute_handler _ _ _ _ _ _ _) as [x1 r1].
  change (blanked "a,b") with "a b" in H. change (blanked "c") with "c" in H.
  destruct (create_octad_handler _ _ _ _) as [x2 r2]. apply H.
Defined.

Lemma vcl_count_capped_witness : ∃ x v, execute_count api_cfg app = (x, Ok v) ∧ data v = VObject [("count", VUint 0)].
Proof.
  destruct (execute_count api_cfg app) as [x [v|e]] eqn:E.
  - exists x, v. split; [done|]. destruct (vcl_count_capped api_cfg app x v [] E) as [Hd _]. exact Hd.
  - exfalso. apply (f_equal (is_ok ∘ snd)) in E. vm_compute in E. discriminate.
Defined.

Lemma vcl_reads_change_nothing_witness : (run "SEARCH TEXT 'delete' LIMIT 5").1 = app.
Proof.
  apply (vcl_reads_change_nothing (λ _, "") api_cfg c1 0 (λ _, None) "SEARCH TEXT 'delete' LIMIT 5" app).
  intros w Hw. assert (head (str_upper <$> tokenize (statement_text "SEARCH TEXT 'delete' LIMIT 5")) = Some "SEARCH") as E
    by (vm_compute; reflexivity).
  rewrite E in Hw. by injection Hw as <-.
Defined.

End Witness.
